(* ===== verification/_CoqProject ===== *)
-Q . S2P
Prelude.v
Bolt.v
Chunk.v
Manifest.v
Store.v
Pack.v
MetaDB.v
MetaSpec.v
MetaRefine.v
MetaTree.v
MetaInv.v
MetaBuilt.v
MetaThm.v
MetaDepart.v
Coherence.v
RepoUtil.v
Repo.v
RepoRead.v
RepoStore.v
RepoThm.v
RepoCoh.v
RepoReach.v
GC.v
GCThm.v
GCLive.v
RepoDemo.v
MdsServer.v
MdsClient.v
MdsThm.v
MdsCoh.v
MdsFuse.v
MdsFuseThm.v
MdsFuseDemo.v
FuseServer.v
FuseServerThm.v
FuseOpen.v
FuseStale.v
FuseDemo.v
Repoopen.v
RepoopenThm.v
CsiDriver.v
CsiThm.v
CsiDemo.v
LocalStore.v
LocalStoreThm.v
LocalStoreDemo.v
CloudStore.v
CloudStoreThm.v
CloudStoreDemo.v
Libatlas.v
LibatlasThm.v
LibatlasDemo.v
