(* ===== verification/Prelude.v ===== *)
(** * AtlasFS: a content-addressed file system over object storage

    AtlasFS keeps file content in an object store, as chunks named by their
    BLAKE3 hash and packed into containers, and its name space, inode records
    and chunk locations in a transactional key-value file.  This development
    models the Go packages that carry its logic and proves what they promise
    to each other and to a user.

    ** The parts of the program, and where they are modelled

    - pkg/chunk (Chunk): chunk identifiers and the fixed-size chunker.
    - pkg/manifest (Manifest): the chunk list of a file and its binary form.
    - pkg/store (Store): the object store interface [BackendOps], the laws of
      its documentation [BackendLaws], [GetInto] and its destinations, and a
      map that satisfies the laws.
    - pkg/pack (Pack): containers, [Packer.Add] and [Seal], verified fetches.
    - bbolt (Bolt): the key-value store as an interface with laws, and a map
      that satisfies them.
    - pkg/metadb (MetaDB; specification in MetaSpec, MetaTree; refinement in
      MetaRefine; the invariant orderly callers keep in MetaInv and the one
      that holds whatever they do in MetaBuilt; guarantees in MetaThm;
      departures of the code from its comments in MetaDepart): inodes,
      directory entries, quota, graveyard, locators.
    - pkg/coherence (Coherence): leases, versions, negative entries, recalls.
    - pkg/repo/openhandle.go, statfs.go, fallocate.go and the classes of
      repo.go (RepoUtil).
    - pkg/repo/repo.go and write.go (Repo; reading in RepoRead, storing in
      RepoStore, committing in RepoThm, invalidation in RepoCoh, invariance
      of the metadata in RepoReach): publishing, reading, the write path.
    - pkg/repo/gc.go (GC; safety in GCThm, progress in GCLive).
    - pkg/mds (MdsServer, MdsClient; theorems in MdsThm and MdsCoh): the
      metadata service with its leases and push streams, and the caching
      client.
    - pkg/mdsfuse (MdsFuse; theorems in MdsFuseThm): the mount over a metadata
      service.
    - pkg/fuseserver (FuseServer; what a process sees in FuseServerThm, open
      files in FuseOpen, cached attributes in FuseStale): the mount over a
      repository in the same process.
    - pkg/libatlas (Libatlas; theorems in LibatlasThm): files materialised on
      local disk, in a cache of bounded size shared by concurrent calls.
    - pkg/store/local (LocalStore; theorems in LocalStoreThm): the backend
      over a directory of the local file system.
    - pkg/store/s3, gcs, azure (CloudStore; theorems in CloudStoreThm): the
      backends over the clients of three vendors.
    - pkg/repoopen and the backend flags of cmd/atlas (Repoopen; theorems in
      RepoopenThm): choosing a backend and opening a repository on it.
    - pkg/csidriver (CsiDriver; theorems in CsiThm): the CSI node service,
      whose calls mount and unmount volumes concurrently.
    - RepoDemo, MdsFuseDemo, FuseDemo, LibatlasDemo, LocalStoreDemo, CloudStoreDemo
      and CsiDemo hold the small repositories, mounts, caches and stores on
      which the theorems of their files are exercised, and runs in which the
      code goes wrong.

    A repository calls the chunker, the packer, the manifest codec, the
    metadata store and, for the mutable classes, the lease manager; the
    collector works on the same repository.  The service wraps a metadata
    store and a lease manager; a client talks to the service only.  One mount
    talks to a client for metadata and to the object store for bytes; the
    other calls the repository, holds leases of its lease manager and pins
    open files for its collector.  The node service opens a repository, or a
    client and a backend, and hands it to the mount that fits.

    ** How code becomes definitions

    A function or method keeps its name; where two packages use one name the
    service's handlers have the prefix [srv_], the client's methods [cl_], the
    repository's [repo_], [wh_] and [fr_], the mounts' [mf_], [fu_] and [wf_].  A struct is a
    [Record] with the same fields.  Stateful code is a computation in [M S],
    a function from a state to a result and a state: an error carries the
    state reached when it was raised, so what a failure leaves behind is part
    of the model.  Integers are [Z] with Go's conversions ([u64], [i64], [u32])
    at the places where they occur.  Byte strings are lists of bytes, times
    are nanoseconds.  [error] is the enumeration of the sentinel errors that
    callers tell apart; wrapping keeps what [errors.Is] sees.

    Code that is not in the repository is a parameter with laws: bbolt
    ([BoltOps], [BoltLaws]), the object store ([BackendOps], [BackendLaws]),
    whose puts and deletions may fail before or after they took effect and
    whose reads and listings are available; the SDK clients below the cloud
    backends ([S3Client], [GCSClient],
    [AzureClient] and their laws),
    BLAKE3 ([Blake3], with injectivity assumed on a stated set of strings
    only), [crypto/rand] (a stream of names, distinct where a theorem needs
    it), clocks, the gRPC connection ([invoke]) and the text of error messages.
    [os.Remove] of an evicted file, whose error the code ignores, succeeds.

    ** What is proved

    - The metadata store refines an abstract file system: every mutation
      succeeds exactly under its precondition, with exactly its effect on the
      file system and on the tables beside it, and otherwise returns the error
      prescribed and changes nothing.  In every store that any calls with
      records of the right kind can build ([built]) the names form a forest
      and a file has no more names than its link count says.  In the stores of
      orderly callers ([reachable]: they make names only in directories that
      still have one, link only files that have one, and the like; [op_ok])
      the name space is a tree, link counts and quota counters are exact,
      limits are respected, and the walk of [Rename] terminates and refuses
      exactly the moves of a directory into itself.
    - A commit makes exactly the bytes written readable under the name, and a
      failed one changes nothing that can be seen; reads return the content
      whatever is cached; containers and manifests round-trip; a fetch never
      returns bytes that do not hash to the chunk asked for.
    - A sweep, also a failing one, keeps everything that the directory tree
      leads to or the graveyard has, unless its graveyard entry is past the
      grace and it is not open; a successful one has collected the rest; the
      mark phase marks exactly what is protected.
    - A lease is never trusted past its duration nor after a recall; every
      operation of the write path bumps what it changed (publishing a tree
      bumps nothing); a recall reports exactly who answered.
    - Through the metadata service errors keep their errno, a response
      overtaken by an invalidation is not cached (but for the record a lookup
      brings), a client sees its own changes, resolving a path through the
      caches is resolving it in the store, and a client that has handled its
      events agrees with the authority on everything but the records of
      inodes a [Rename] touched.
    - Through either mount, what is written and flushed is what is read, and a
      file unlinked while open is not brought back; over a service this holds
      whichever requests other than lookups fail ([lossy]).  Both show the
      same attributes and map the errors of the store to the same errnos.
      Over a repository, open files are pinned exactly
      while they are open and keep their content through a sweep, and the
      attributes a node serves are never older than a lease, unless it was
      truncated by a name that led elsewhere; a flush that fails loses what
      was buffered.
    - However calls of [OpenMapped] interleave, the file handed back holds the
      content of the file resolved, the cache keeps within its budget, a
      content is fetched by one call at a time and every call ends.

    - A local store is a map of objects on every set of keys none of which
      lies below another, also where the operating system fails in the middle
      of an operation (a put whose last [Stat] fails has stored its object);
      no key leads out of its directory; paging through a listing ends and
      gives objects once, in order, and all of them for the prefix of a
      directory when every directory can be read.
    - The S3, GCS and Azure backends satisfy the contract of a backend when
      their services behave as documented and answer nothing that the code
      misreads as a refused condition; a conditional put of theirs never
      overwrites, whatever the probe of the endpoint found; the collector's
      listing of containers ends and is complete.  Without conditional puts
      they store no manifest, which the contract does not say.
    - Both copies of the switch over backends build the same one; the
      parameters of a volume survive their trip through a volume context.
    - The node service grants a mount to write only under the declared
      contract, however its calls interleave and fail; when publications of
      one path do not overlap, mounts are in time and unmounts succeed, it
      leaks nothing.

    ** Fuel

    Loops that are not structural take a bound that is proved to suffice:
    [walk_fuel] (one more than the number of bindings) for the walk of
    [Rename], [tree_fuel] for the mark phase, the length of the input plus one
    for [SplitAll], the number of bytes asked for plus one for [ReadAt], the
    size of the file for [ReadAll], the number of offsets for [sort.Search],
    the number of keys for the batches of the reaper, the number of objects
    for the pages of a listing (the cloud listings come with a bound of their
    own, proved to exist), the number of entries plus one for an eviction
    and the size of the file plus one for a copy to disk.

    ** Not modelled

    bbolt's refusals of oversized or blank keys, gob's byte format, context
    cancellation (except in the service, where it is an outcome of the wait),
    concurrent calls into one repository; handlers of the service interleave
    only at the wait of a recall, the methods of the lease manager, the calls
    of pkg/libatlas and those of pkg/csidriver at every critical section.
    Symbolic links inside the directory of a local store; entity tags,
    modification times and prices of objects.  The JSON codec, the FUSE kernel
    protocol, the Dragonfly HTTP transport, GPUDirect reads, the
    floating-point cost model and the commands beyond their backend flags are
    I/O or glue. *)
From Stdlib Require Export ZArith Lia Strings.Byte.
From stdpp Require Export base strings sorting countable numbers gmap fin_maps list.

#[global] Open Scope Z_scope.

(** * Machine integers *)

(** Go's fixed-width conversions: [u64 z] is [uint64(z)], [i64 z] is
    [int64(z)], and likewise for the 32-bit types. *)
Definition u64 (z : Z) : Z := z mod 2 ^ 64.
Definition u32 (z : Z) : Z := z mod 2 ^ 32.
Definition u16 (z : Z) : Z := z mod 2 ^ 16.
Definition i64 (z : Z) : Z := (z + 2 ^ 63) mod 2 ^ 64 - 2 ^ 63.
Definition i32 (z : Z) : Z := (z + 2 ^ 31) mod 2 ^ 32 - 2 ^ 31.

Definition in_u64 (z : Z) : Prop := 0 <= z < 2 ^ 64.
Definition in_i64 (z : Z) : Prop := - 2 ^ 63 <= z < 2 ^ 63.
Definition in_u32 (z : Z) : Prop := 0 <= z < 2 ^ 32.

(** * Bytes *)

(** Go strings and byte slices are sequences of bytes. *)
Abbreviation bytes := (list byte).

Definition byteZ (b : byte) : Z := Z.of_N (Byte.to_N b).
Definition byte_of_Z (z : Z) : byte :=
  default x00 (Byte.of_N (Z.to_N (z mod 256))).

(** A Go string literal. *)
Definition str (s : String.string) : bytes := String.list_byte_of_string s.

#[global] Instance byte_eq_dec : EqDecision byte := Byte.byte_eq_dec.

#[global] Instance byte_countable : Countable byte :=
  inj_countable Byte.to_N Byte.of_N Byte.of_to_N.

(** [len(b)] as a Go [int]. *)
Definition blen (b : bytes) : Z := Z.of_nat (length b).

(** [make([]byte, n)]. *)
Definition zeros (n : Z) : bytes := replicate (Z.to_nat n) x00.

(** [bytes.Compare(a, b) <= 0]: the order bbolt keeps its keys in. *)
Fixpoint bytes_leb (a b : bytes) : bool :=
  match a, b with
  | [], _ => true
  | _ :: _, [] => false
  | x :: a', y :: b' =>
      if byteZ x <? byteZ y then true
      else if byteZ y <? byteZ x then false else bytes_leb a' b'
  end.

Definition bytes_le (a b : bytes) : Prop := bytes_leb a b = true.

#[global] Instance bytes_le_dec : RelDecision bytes_le :=
  λ a b, decide (bytes_leb a b = true).

(** [bytes.HasPrefix(k, p)]. *)
Fixpoint has_prefix (p k : bytes) : bool :=
  match p, k with
  | [], _ => true
  | _ :: _, [] => false
  | x :: p', y :: k' => bool_decide (x = y) && has_prefix p' k'
  end.

(** [binary.BigEndian.PutUintXX] and [UintXX], [n] bytes wide. *)
Fixpoint be (n : nat) (z : Z) : bytes :=
  match n with
  | O => []
  | S n' => byte_of_Z (z / 2 ^ (8 * Z.of_nat n')) :: be n' z
  end.

Fixpoint unbe (l : bytes) : Z :=
  match l with
  | [] => 0
  | b :: l' => byteZ b * 2 ^ (8 * blen l') + unbe l'
  end.

(** [b[off : off+n]]. *)
Definition slice (off n : Z) (b : bytes) : bytes :=
  take (Z.to_nat n) (drop (Z.to_nat off) b).

(** Leading part of a list satisfying a predicate, and what follows it. *)
Fixpoint take_while {A} (f : A → bool) (l : list A) : list A :=
  match l with
  | [] => []
  | x :: l' => if f x then x :: take_while f l' else []
  end.

Fixpoint drop_while {A} (f : A → bool) (l : list A) : list A :=
  match l with
  | [] => []
  | x :: l' => if f x then drop_while f l' else x :: l'
  end.

(** * Fixed-size values *)

(** A [uint64] identifier, bounded by construction so that its 8-byte
    big-endian key is injective without side conditions. *)
Definition is_u64 (z : Z) : bool := (0 <=? z) && (z <? 2 ^ 64).

Record word64 := Word64 { w64 : Z; w64_ok : is_u64 w64 = true }.

Definition word64_of_Z (z : Z) : word64 :=
  match bool_dec (is_u64 (u64 z)) true with
  | left H => Word64 (u64 z) H
  | right _ => Word64 0 eq_refl
  end.

(** A Go array [[n]byte]. *)
Record barray (n : nat) := BArray {
  ba : bytes;
  ba_ok : (length ba =? n)%nat = true
}.
Arguments BArray {n} _ _.
Arguments ba {n} _.
Arguments ba_ok {n} _.

(** [copy(arr[:], l)] into a zero array. *)
Definition barray_fill (n : nat) (l : bytes) : bytes :=
  take n (l ++ replicate n x00).

Definition barray_of (n : nat) (l : bytes) : option (barray n) :=
  match bool_dec (length l =? n)%nat true with
  | left H => Some (BArray l H)
  | right _ => None
  end.

(** * Time *)

(** [time.Time] as nanoseconds since the Unix epoch; [time.Duration] as
    nanoseconds.  Go's zero time is January 1 of year 1. *)
Abbreviation time := Z (only parsing).
Abbreviation duration := Z (only parsing).

Definition zero_time : time := -62135596800000000000.
Definition IsZero (t : time) : bool := t =? zero_time.
Definition After (t u : time) : bool := u <? t.
Definition UnixNano (t : time) : Z := i64 t.
Definition Second : duration := 1000000000.
Definition Millisecond : duration := 1000000.
Definition Minute : duration := 60 * Second.
Definition Hour : duration := 60 * Minute.

(** * Errors *)

(** The sentinel errors of the packages.  [fmt.Errorf] with [%w] keeps the
    identity [errors.Is] looks for, so a wrapped error is its sentinel. *)
Inductive error :=
  (* pkg/metadb *)
  | ErrNotFound | ErrExists | ErrNotDir | ErrIsDirectory | ErrQuotaExceeded
  | ErrNotEmpty | ErrInvalidRename | ErrNameTooLong
  (* pkg/store and os *)
  | StoreErrNotFound | OsErrExist | StoreErrShortRead | StoreErrIO
  (* pkg/pack *)
  | PackErrBufferLen | PackErrShortRead | PackErrVerification
  (* pkg/manifest, pkg/chunk, io *)
  | ErrUnsupportedVersion | ErrUnexpectedEOF | EOF | ErrBadHex | ErrBadIDLength
  (* pkg/repo *)
  | RepoErrReadOnly | RepoErrExists | RepoErrIsDirectory | RepoErrNotDir
  | RepoErrNotEmpty | RepoErrQuotaExceeded | RepoErrHandleDone
  | RepoErrNoLocator | RepoErrNegativeOffset | ErrGraceTooShort
  | RepoErrParentNotVisited | RepoErrAlreadyPublished | RepoErrFileTooBig
  (* pkg/libatlas *)
  | LibErrNotRegularFile | LibErrMaxBytes
  (* pkg/store: destinations, and the errors of an SDK that have no sentinel *)
  | StoreErrNotHostMemory | StoreErrHostMemory | StoreErrNoDevice
  | StoreErrSdk | StoreErrNoConditionalPut | StoreErrProbe
  (* pkg/store/local, pkg/repoopen *)
  | LocalErrEmptyKey | LocalErrEscapes
  | OpenErrMissingParam | OpenErrChunkSize | OpenErrPosix | OpenErrBucket | OpenErrUnknownBackend
  (* pkg/mds: a gRPC status, by code and message, and the errors of a context *)
  | ErrStatus (code : Z) (msg : bytes) | CtxCanceled | CtxDeadlineExceeded
  (* a [syscall.Errno] *)
  | SysErrno (e : Z)
  (* a run-time panic, where the code slices out of range *)
  | ErrPanic
  (* a loop of the model that ran out of the iterations it was given *)
  | ErrOutOfFuel.

#[global] Instance error_eq_dec : EqDecision error.
Proof. solve_decision. Defined.

Inductive result (A : Type) :=
  | Ok (a : A)
  | Err (e : error).
Arguments Ok {A} _.
Arguments Err {A} _.

#[global] Instance result_eq_dec `{EqDecision A} : EqDecision (result A).
Proof. solve_decision. Defined.

Definition is_ok {A} (r : result A) : bool :=
  match r with Ok _ => true | Err _ => false end.

(** * The effect monad *)

(** A Go function that may mutate a state [S] and returns [(A, error)].
    The state after an error is the one the function left behind. *)
Definition M (S A : Type) : Type := S → result A * S.

#[global] Instance M_ret S : MRet (M S) := λ A a s, (Ok a, s).
#[global] Instance M_bind S : MBind (M S) := λ A B f m s,
  match m s with
  | (Ok a, s') => f a s'
  | (Err e, s') => (Err e, s')
  end.

Definition throw {S A} (e : error) : M S A := λ s, (Err e, s).
Definition gets {S A} (f : S → A) : M S A := λ s, (Ok (f s), s).
Definition modify {S} (f : S → S) : M S unit := λ s, (Ok tt, f s).
(** [v, err := m()] where the code goes on to look at [err]. *)
Definition attempt {S A} (m : M S A) : M S (result A) :=
  λ s, let (r, s') := m s in (Ok r, s').
Definition of_result {S A} (r : result A) : M S A := λ s, (r, s).

(** [for _, x := range l { if err := f(x); err != nil { return err } }]. *)
Fixpoint each {S A} (f : A → M S unit) (l : list A) : M S unit :=
  match l with
  | [] => mret tt
  | x :: l' => f x ≫= λ _, each f l'
  end.

(** A loop that carries a value from one iteration to the next. *)
Fixpoint fold_m {S A B} (f : B → A → M S B) (b : B) (l : list A) : M S B :=
  match l with
  | [] => mret b
  | x :: l' => f b x ≫= λ b', fold_m f b' l'
  end.

(** Run [m] on a component of a larger state. *)
Definition zoom {S T A} (get : S → T) (put : T → S → S) (m : M T A) : M S A :=
  λ s, let (r, t) := m (get s) in (r, put t s).

(** The sum of a weight over the bindings of a map. *)
Definition wsum `{Countable K} {A} (w : K → A → Z) (m : gmap K A) : Z :=
  map_fold (λ k a acc, w k a + acc) 0 m.

(** * Automation *)

Create HintDb atlas.

(** Split conjunctions and open existentials in the hypotheses. *)
Ltac deex :=
  repeat match goal with
  | H : ∃ _, _ |- _ => let x := fresh "x" in destruct H as [x H]
  | H : _ ∧ _ |- _ => let H2 := fresh H in destruct H as [H H2]
  end.

(** Turn boolean comparisons on integers into propositions. *)
Ltac zbool :=
  repeat match goal with
  | H : (_ && _)%bool = true |- _ => apply andb_true_iff in H as [? ?]
  | H : (_ <? _) = true |- _ => apply Z.ltb_lt in H
  | H : (_ <? _) = false |- _ => apply Z.ltb_ge in H
  | H : (_ <=? _) = true |- _ => apply Z.leb_le in H
  | H : (_ <=? _) = false |- _ => apply Z.leb_gt in H
  | H : (_ =? _) = true |- _ => apply Z.eqb_eq in H
  | H : (_ =? _) = false |- _ => apply Z.eqb_neq in H
  end.

(** * Lemmas on integers *)

Lemma u64_id z : in_u64 z → u64 z = z.
Proof. unfold in_u64, u64. intros. apply Z.mod_small. lia. Qed.

Lemma u64_range z : in_u64 (u64 z).
Proof. unfold in_u64, u64. apply Z.mod_pos_bound. lia. Qed.

Lemma i64_id z : in_i64 z → i64 z = z.
Proof. unfold in_i64, i64. intros. rewrite Z.mod_small; lia. Qed.

Lemma i64_range z : in_i64 (i64 z).
Proof.
  unfold in_i64, i64. pose proof (Z.mod_pos_bound (z + 2 ^ 63) (2 ^ 64)). lia.
Qed.

Lemma i32_range z : - 2 ^ 31 <= i32 z < 2 ^ 31.
Proof. unfold i32. pose proof (Z.mod_pos_bound (z + 2 ^ 31) (2 ^ 32)). lia. Qed.

Lemma i64_u64 z : i64 (u64 z) = i64 z.
Proof. unfold i64, u64. by rewrite Zplus_mod_idemp_l. Qed.

Lemma u32_id z : in_u32 z → u32 z = z.
Proof. unfold in_u32, u32. intros. apply Z.mod_small. lia. Qed.

(** * Lemmas on bytes *)

Lemma blen_nonneg b : 0 <= blen b.
Proof. unfold blen. lia. Qed.

Lemma blen_app a b : blen (a ++ b) = blen a + blen b.
Proof. unfold blen. rewrite length_app. lia. Qed.

Lemma blen_cons x b : blen (x :: b) = 1 + blen b.
Proof. unfold blen. simpl length. lia. Qed.

Lemma blen_nil : blen [] = 0.
Proof. done. Qed.

Lemma blen_zeros n : 0 <= n → blen (zeros n) = n.
Proof. intros. unfold blen, zeros. rewrite length_replicate. lia. Qed.

Lemma blen_slice off n b :
  0 <= off → 0 <= n → off + n <= blen b → blen (slice off n b) = n.
Proof.
  unfold blen, slice. intros. rewrite length_take, length_drop. lia.
Qed.

Lemma slice_app_l off n a b :
  0 <= off → off + n <= blen a → slice off n (a ++ b) = slice off n a.
Proof.
  unfold blen, slice. intros. destruct (decide (0 <= n)).
  - rewrite drop_app_le by lia. rewrite take_app_le; [done|].
    rewrite length_drop. lia.
  - by replace (Z.to_nat n) with 0%nat by lia.
Qed.

Lemma slice_app_r n a b : n = blen b → slice (blen a) n (a ++ b) = b.
Proof.
  unfold blen, slice. intros ->. rewrite !Nat2Z.id, drop_app_length.
  by apply take_ge.
Qed.

Lemma slice_all b : slice 0 (blen b) b = b.
Proof. unfold slice, blen. rewrite Nat2Z.id. by apply take_ge. Qed.

Lemma byteZ_range b : 0 <= byteZ b < 256.
Proof. unfold byteZ. pose proof (Byte.to_N_bounded b). lia. Qed.

Lemma byteZ_of_Z z : byteZ (byte_of_Z z) = z mod 256.
Proof.
  unfold byteZ, byte_of_Z.
  pose proof (Z.mod_pos_bound z 256).
  destruct (Byte.of_N (Z.to_N (z mod 256))) as [b|] eqn:E; simpl.
  - apply Byte.to_of_N in E. rewrite E. lia.
  - apply Byte.of_N_None_iff in E. lia.
Qed.

Lemma byteZ_inj a b : byteZ a = byteZ b → a = b.
Proof.
  unfold byteZ. intros H. apply N2Z.inj in H.
  apply (f_equal Byte.of_N) in H. rewrite !Byte.of_to_N in H. by simplify_eq.
Qed.

Lemma byte_of_byteZ b : byte_of_Z (byteZ b) = b.
Proof.
  apply byteZ_inj. rewrite byteZ_of_Z. apply Z.mod_small, byteZ_range.
Qed.

Lemma bytes_leb_refl a : bytes_leb a a = true.
Proof. induction a as [|x a IH]; simpl; [done|]. by rewrite Z.ltb_irrefl. Qed.

Lemma bytes_leb_trans a b c :
  bytes_leb a b = true → bytes_leb b c = true → bytes_leb a c = true.
Proof.
  revert b c. induction a as [|x a IH]; intros [|y b] [|z c]; simpl; try done.
  destruct (Z.ltb_spec (byteZ x) (byteZ y)), (Z.ltb_spec (byteZ y) (byteZ z)),
    (Z.ltb_spec (byteZ y) (byteZ x)), (Z.ltb_spec (byteZ z) (byteZ y)),
    (Z.ltb_spec (byteZ x) (byteZ z)), (Z.ltb_spec (byteZ z) (byteZ x));
    try done; try lia; eauto.
Qed.

Lemma bytes_leb_total a b : bytes_leb a b = true ∨ bytes_leb b a = true.
Proof.
  revert b. induction a as [|x a IH]; intros [|y b]; simpl; auto.
  destruct (Z.ltb_spec (byteZ x) (byteZ y)), (Z.ltb_spec (byteZ y) (byteZ x));
    auto; lia.
Qed.

Lemma bytes_leb_antisym a b :
  bytes_leb a b = true → bytes_leb b a = true → a = b.
Proof.
  revert b. induction a as [|x a IH]; intros [|y b]; simpl; try done.
  destruct (Z.ltb_spec (byteZ x) (byteZ y)), (Z.ltb_spec (byteZ y) (byteZ x));
    try done; try lia.
  intros. f_equal; [apply byteZ_inj; lia | auto].
Qed.

#[global] Instance bytes_le_trans : Transitive bytes_le.
Proof. intros a b c. apply bytes_leb_trans. Qed.
#[global] Instance bytes_le_total : Total bytes_le.
Proof. intros a b. apply bytes_leb_total. Qed.
#[global] Instance bytes_le_antisymm : AntiSymm (=) bytes_le.
Proof. intros a b. apply bytes_leb_antisym. Qed.
#[global] Instance bytes_le_refl : Reflexive bytes_le.
Proof. intros a. apply bytes_leb_refl. Qed.

Lemma has_prefix_spec p k : has_prefix p k = true ↔ ∃ s, k = p ++ s.
Proof.
  revert k. induction p as [|x p IH]; intros k; simpl.
  - split; [by exists k | done].
  - destruct k as [|y k]; simpl.
    { split; [done|]. by intros [s ?]. }
    rewrite andb_true_iff, bool_decide_eq_true, IH. split.
    + intros [-> [s ->]]. by exists s.
    + intros [s [= -> ->]]. split; [done|]. by exists s.
Qed.

Lemma has_prefix_le p k : has_prefix p k = true → bytes_leb p k = true.
Proof.
  revert k. induction p as [|x p IH]; intros [|y k]; simpl; try done.
  rewrite andb_true_iff, bool_decide_eq_true. intros [-> H].
  rewrite Z.ltb_irrefl. auto.
Qed.

(** Between a prefix and a key that has it, every key has it: the keys
    sharing a prefix are contiguous in key order. *)
Lemma has_prefix_convex p k k' :
  bytes_leb p k = true → bytes_leb k k' = true →
  has_prefix p k' = true → has_prefix p k = true.
Proof.
  revert k k'. induction p as [|x p IH]; intros [|y k] [|z k']; simpl; try done.
  rewrite !andb_true_iff, !bool_decide_eq_true. intros H1 H2 [-> H3].
  destruct (Z.ltb_spec (byteZ z) (byteZ y)), (Z.ltb_spec (byteZ y) (byteZ z));
    try done; try lia.
  split; [apply byteZ_inj; lia | eauto].
Qed.

Lemma filter_all_false {A} (P : A → Prop) `{!∀ x, Decision (P x)} (l : list A) :
  (∀ x, x ∈ l → ¬ P x) → filter P l = [].
Proof.
  induction l as [|x l IH]; intros Hall; [done|].
  rewrite filter_cons. case_decide as E.
  - exfalso. eapply Hall; [apply list_elem_of_here | done].
  - apply IH. intros y Hy. apply Hall. by apply list_elem_of_further.
Qed.

Lemma filter_ext_elem {A} (P Q : A → Prop) `{!∀ x, Decision (P x), !∀ x, Decision (Q x)} (l : list A) :
  (∀ x, x ∈ l → P x ↔ Q x) → filter P l = filter Q l.
Proof.
  induction l as [|x l IH]; intros Hpq; [done|]. rewrite !filter_cons.
  rewrite IH by (intros y Hy; apply Hpq; by apply list_elem_of_further).
  specialize (Hpq x (list_elem_of_here _ _)). repeat case_decide; tauto.
Qed.

Lemma StronglySorted_filter {A} (R : A → A → Prop) (P : A → Prop) `{!∀ x, Decision (P x)} (l : list A) :
  StronglySorted R l → StronglySorted R (filter P l).
Proof.
  induction 1 as [|x l Hs IH Hall]; [constructor|]. rewrite filter_cons. case_decide; [|done].
  constructor; [done|]. apply Forall_forall. intros y [_ Hy]%list_elem_of_filter.
  rewrite Forall_forall in Hall. auto.
Qed.

(** Seeking to a prefix in a sorted key list and reading while the prefix
    lasts yields exactly the keys that carry it. *)
Lemma take_while_prefix_filter {V} (p : bytes) (l : list (bytes * V)) :
  StronglySorted (λ a b, bytes_le a.1 b.1) l →
  Forall (λ kv, bytes_le p kv.1) l →
  take_while (λ kv, has_prefix p kv.1) l
  = filter (λ kv, has_prefix p kv.1 = true) l.
Proof.
  induction 1 as [|[k v] l Hs IH Hall]; intros Hp; [done|].
  apply Forall_cons_iff in Hp as [Hk Hp]. simpl. rewrite filter_cons. simpl.
  case_decide as E; simpl in E; [rewrite E; f_equal; auto|].
  apply not_true_is_false in E. rewrite E. symmetry.
  apply filter_all_false. intros [k2 v2] Hin Hp2. simpl in *.
  rewrite Forall_forall in Hall.
  eapply eq_true_false_abs; [|exact E].
  eapply has_prefix_convex; [exact Hk | exact (Hall _ Hin) | done].
Qed.

Lemma seek_prefix_filter {V} (p : bytes) (l : list (bytes * V)) :
  StronglySorted (λ a b, bytes_le a.1 b.1) l →
  take_while (λ kv, has_prefix p kv.1)
    (drop_while (λ kv, negb (bytes_leb p kv.1)) l)
  = filter (λ kv, has_prefix p kv.1 = true) l.
Proof.
  intros Hs. pose proof Hs as Hs'. revert Hs'.
  induction Hs as [|[k v] l Hs IH Hall]; intros Hs'; [done|].
  simpl drop_while. destruct (bytes_leb p k) eqn:E; simpl negb; cbv iota.
  - apply take_while_prefix_filter; [done|]. constructor; [done|].
    eapply Forall_impl; [exact Hall|]. intros [k2 v2] Hle. simpl in *.
    eapply bytes_leb_trans; eauto.
  - rewrite IH by done. rewrite filter_cons. simpl. case_decide as E2; [|done].
    apply has_prefix_le in E2. congruence.
Qed.

(** * Lemmas on big-endian encodings *)

Lemma length_be n z : length (be n z) = n.
Proof. induction n; simpl; auto. Qed.

Lemma blen_be n z : blen (be n z) = Z.of_nat n.
Proof. unfold blen. by rewrite length_be. Qed.

Lemma unbe_be n z : unbe (be n z) = z mod 2 ^ (8 * Z.of_nat n).
Proof.
  induction n as [|n IH]; simpl.
  - symmetry. apply Z.mod_1_r.
  - rewrite IH, byteZ_of_Z, blen_be.
    replace (8 * Z.of_nat (S n)) with (8 * Z.of_nat n + 8) by lia.
    rewrite Z.pow_add_r by lia.
    rewrite Z.rem_mul_r by lia. change (2 ^ 8) with 256. lia.
Qed.

Lemma unbe_range l : 0 <= unbe l < 2 ^ (8 * blen l).
Proof.
  induction l as [|b l IH]; [done|]. simpl unbe. rewrite blen_cons.
  pose proof (byteZ_range b). pose proof (blen_nonneg l).
  replace (8 * (1 + blen l)) with (8 * blen l + 8) by lia.
  rewrite Z.pow_add_r by lia. change (2 ^ 8) with 256. nia.
Qed.

Lemma be_mod n z m : (n <= m)%nat → be n (z mod 2 ^ (8 * Z.of_nat m)) = be n z.
Proof.
  revert m. induction n as [|n IH]; intros m Hm; simpl; [done|].
  f_equal; [|apply IH; lia].
  apply byteZ_inj. rewrite !byteZ_of_Z.
  replace (8 * Z.of_nat m) with (8 * Z.of_nat n + (8 + 8 * Z.of_nat (m - S n))) by lia.
  rewrite Z.pow_add_r by lia. rewrite Z.rem_mul_r by lia.
  rewrite (Z.mul_comm (2 ^ (8 * Z.of_nat n))), Z.div_add by lia.
  rewrite Z.div_small by (apply Z.mod_pos_bound; lia). rewrite Z.add_0_l.
  rewrite Z.pow_add_r by lia. change (2 ^ 8) with 256.
  rewrite Z.rem_mul_r by lia.
  rewrite (Z.mul_comm 256), Z_mod_plus_full. by rewrite Z.mod_mod.
Qed.

Lemma be_unbe l : be (length l) (unbe l) = l.
Proof.
  induction l as [|b l IH]; simpl; [done|]. unfold blen. f_equal.
  - apply byteZ_inj. rewrite byteZ_of_Z.
    rewrite Z.add_comm, Z.div_add by lia.
    rewrite Z.div_small by apply unbe_range. rewrite Z.add_0_l.
    apply Z.mod_small, byteZ_range.
  - rewrite <- (be_mod _ _ (length l)) by lia.
    rewrite Z.add_comm, Z_mod_plus_full, be_mod by lia. exact IH.
Qed.

Lemma be_inj n a b :
  0 <= a < 2 ^ (8 * Z.of_nat n) → 0 <= b < 2 ^ (8 * Z.of_nat n) →
  be n a = be n b → a = b.
Proof.
  intros Ha Hb H. apply (f_equal unbe) in H. rewrite !unbe_be in H.
  by rewrite !Z.mod_small in H.
Qed.

(** Big-endian encodings sort as the numbers do. *)
Lemma bytes_leb_be n a b :
  0 <= a < 2 ^ (8 * Z.of_nat n) → 0 <= b < 2 ^ (8 * Z.of_nat n) →
  bytes_leb (be n a) (be n b) = (a <=? b).
Proof.
  revert a b. induction n as [|n IH]; intros a b Ha Hb.
  { simpl in *. destruct (Z.leb_spec a b); [done|lia]. }
  replace (8 * Z.of_nat (S n)) with (8 * Z.of_nat n + 8) in * by lia.
  rewrite Z.pow_add_r in * by lia. change (2 ^ 8) with 256 in *.
  assert (Hp : 0 < 2 ^ (8 * Z.of_nat n)) by lia.
  set (P := 2 ^ (8 * Z.of_nat n)) in *.
  assert (Hd : ∀ x, 0 <= x < P * 256 → (x / P) mod 256 = x / P).
  { intros x Hx. apply Z.mod_small. split; [apply Z.div_pos; lia|].
    apply Z.div_lt_upper_bound; lia. }
  simpl. fold P. rewrite !byteZ_of_Z, !Hd by done.
  rewrite <- (be_mod n a n), <- (be_mod n b n) by lia. fold P.
  rewrite IH by (apply Z.mod_pos_bound; lia).
  pose proof (Z.div_mod a P). pose proof (Z.div_mod b P).
  pose proof (Z.mod_pos_bound a P). pose proof (Z.mod_pos_bound b P).
  destruct (Z.ltb_spec (a / P) (b / P)), (Z.ltb_spec (b / P) (a / P));
    destruct (Z.leb_spec a b); try lia; try nia.
  all: destruct (Z.leb_spec (a mod P) (b mod P)); try done; nia.
Qed.

(** * Lemmas on fixed-size values *)

Lemma word64_eq (a b : word64) : w64 a = w64 b → a = b.
Proof.
  destruct a as [a Ha], b as [b Hb]. simpl. intros ->. f_equal.
  apply proof_irrel.
Qed.

Lemma w64_range (a : word64) : in_u64 (w64 a).
Proof. destruct a as [a Ha]. unfold is_u64, in_u64 in *. simpl. zbool. lia. Qed.

Lemma w64_of_Z z : w64 (word64_of_Z z) = u64 z.
Proof.
  unfold word64_of_Z. destruct (bool_dec _ _) as [H|H]; [done|].
  exfalso. apply H. unfold is_u64. pose proof (u64_range z) as [??].
  apply andb_true_iff. split; [by apply Z.leb_le | by apply Z.ltb_lt].
Qed.

Lemma word64_of_w64 (a : word64) : word64_of_Z (w64 a) = a.
Proof. apply word64_eq. rewrite w64_of_Z. apply u64_id, w64_range. Qed.

#[global] Instance word64_eq_dec : EqDecision word64.
Proof.
  refine (λ a b, match Z.eq_dec (w64 a) (w64 b) with
                 | left H => left (word64_eq a b H)
                 | right H => right (λ E, H (f_equal w64 E))
                 end).
Defined.

#[global] Instance word64_countable : Countable word64 :=
  inj_countable w64 (λ z, Some (word64_of_Z z))
    (λ a, f_equal Some (word64_of_w64 a)).

Lemma barray_eq {n} (a b : barray n) : ba a = ba b → a = b.
Proof.
  destruct a as [a Ha], b as [b Hb]. simpl. intros ->. f_equal.
  apply proof_irrel.
Qed.

Lemma barray_length {n} (a : barray n) : length (ba a) = n.
Proof. destruct a as [a Ha]. simpl. by apply Nat.eqb_eq. Qed.

Lemma barray_of_ba {n} (a : barray n) : barray_of n (ba a) = Some a.
Proof.
  unfold barray_of. destruct (bool_dec _ _) as [H|H].
  - f_equal. by apply barray_eq.
  - exfalso. apply H. apply Nat.eqb_eq, barray_length.
Qed.

Lemma barray_of_Some {n} l (a : barray n) : barray_of n l = Some a ↔ l = ba a.
Proof.
  split; [|intros ->; apply barray_of_ba].
  unfold barray_of. destruct (bool_dec _ _); [|done]. intros [= <-]. done.
Qed.

Lemma barray_of_is_Some n l : is_Some (barray_of n l) ↔ length l = n.
Proof.
  split.
  - intros [a Ha]. apply barray_of_Some in Ha as ->. apply barray_length.
  - intros H. unfold barray_of. destruct (bool_dec _ _) as [E|E]; [by eexists|].
    exfalso. apply E. by apply Nat.eqb_eq.
Qed.

#[global] Instance barray_eq_dec n : EqDecision (barray n).
Proof.
  refine (λ a b, match decide (ba a = ba b) with
                 | left H => left (barray_eq a b H)
                 | right H => right (λ E, H (f_equal ba E))
                 end).
Defined.

#[global] Instance barray_countable n : Countable (barray n) :=
  inj_countable ba (barray_of n) barray_of_ba.

(** * Lemmas on finite sets *)

Lemma size_list_to_set_le `{Countable A} (l : list A) :
  (size (list_to_set l : gset A) <= length l)%nat.
Proof.
  induction l as [|x l IH]; cbn [list_to_set length]; [rewrite size_empty; lia|].
  rewrite size_union_alt, size_singleton.
  assert (size ((list_to_set l : gset A) ∖ {[x]}) <= size (list_to_set l : gset A))%nat
    by (apply subseteq_size; set_solver).
  lia.
Qed.

(** * Lemmas on weighted sums *)

Section wsum.
Context `{Countable K} {A : Type} (w : K → A → Z).
Implicit Types m : gmap K A.

Lemma wsum_empty : wsum w ∅ = 0.
Proof. apply map_fold_empty. Qed.

Lemma wsum_insert_new k a m : m !! k = None → wsum w (<[k := a]> m) = w k a + wsum w m.
Proof. intros Hk. unfold wsum. rewrite map_fold_insert_L; [done| |done]. intros; lia. Qed.

Lemma wsum_delete k a m : m !! k = Some a → wsum w (delete k m) = wsum w m - w k a.
Proof.
  intros Hk. rewrite <- (insert_delete_id m k a Hk) at 2.
  rewrite wsum_insert_new by apply lookup_delete_eq. lia.
Qed.

Lemma wsum_insert k a m :
  wsum w (<[k := a]> m) = wsum w m + w k a - default 0 (w k <$> m !! k).
Proof.
  destruct (m !! k) as [b|] eqn:Hk; simpl; [|rewrite wsum_insert_new by done; lia].
  rewrite <- insert_delete_eq, wsum_insert_new by apply lookup_delete_eq.
  rewrite (wsum_delete k b) by done. lia.
Qed.

Lemma wsum_alter k g m :
  (∀ a, m !! k = Some a → w k (g a) = w k a) → wsum w (alter g k m) = wsum w m.
Proof.
  intros Hg. destruct (m !! k) as [a|] eqn:Hk.
  - assert (alter g k m = <[k := g a]> m) as ->.
    { apply map_eq. intros j. rewrite lookup_alter, lookup_insert. case_decide; [|done].
      subst. by rewrite Hk. }
    rewrite wsum_insert, Hk. simpl. rewrite Hg by done. lia.
  - assert (alter g k m = m) as ->; [|done].
    apply map_eq. intros j. rewrite lookup_alter. case_decide; [|done]. subst. by rewrite Hk.
Qed.

Lemma wsum_nonneg m : (∀ k a, 0 <= w k a) → 0 <= wsum w m.
Proof.
  intros Hw. unfold wsum. apply (map_fold_weak_ind (λ r _, 0 <= r)); [lia|].
  intros k a ? r _ ?. specialize (Hw k a). lia.
Qed.

Lemma wsum_zero m : (∀ k a, m !! k = Some a → w k a = 0) → wsum w m = 0.
Proof.
  induction m as [|k a m Hk IH] using map_ind; intros Hw; [apply wsum_empty|].
  rewrite wsum_insert_new by done. rewrite IH, Hw with (k := k) (a := a);
    [done | by rewrite lookup_insert_eq |].
  intros k' a' Hk'. apply Hw. rewrite lookup_insert_ne; [done|]. congruence.
Qed.

(** A binding of positive weight makes the sum positive. *)
Lemma wsum_elem k a m :
  (∀ k a, m !! k = Some a → 0 <= w k a) → m !! k = Some a → w k a <= wsum w m.
Proof.
  intros Hw Hk. rewrite <- (insert_delete_id m k a Hk).
  rewrite wsum_insert_new by apply lookup_delete_eq.
  assert (0 <= wsum w (delete k m)); [|lia].
  clear Hk. assert (∀ k' a', delete k m !! k' = Some a' → 0 <= w k' a') as Hd.
  { intros k' a' [_ ?]%lookup_delete_Some. eauto. }
  revert Hd. generalize (delete k m). clear m Hw. intros m.
  induction m as [|j b m Hj IH] using map_ind; intros Hw; [by rewrite wsum_empty|].
  rewrite wsum_insert_new by done. specialize (Hw j b) as Hb. rewrite lookup_insert_eq in Hb.
  assert (0 <= wsum w m); [|specialize (Hb eq_refl); lia].
  apply IH. intros k' a' Hk'. apply Hw. rewrite lookup_insert_ne; [done|]. congruence.
Qed.
End wsum.

(** * Lemmas on the effect monad *)

Lemma bind_Ok {S A B} (f : A → M S B) (m : M S A) s b s' :
  (m ≫= f) s = (Ok b, s') ↔ ∃ a s1, m s = (Ok a, s1) ∧ f a s1 = (Ok b, s').
Proof.
  unfold mbind, M_bind. destruct (m s) as [[a|e] s1]; split.
  - eauto.
  - intros (a' & s1' & [= <- <-] & ?). done.
  - done.
  - intros (a' & s1' & [=] & _).
Qed.

Lemma bind_Err {S A B} (f : A → M S B) (m : M S A) s e s' :
  (m ≫= f) s = (Err e, s') ↔
  m s = (Err e, s') ∨ ∃ a s1, m s = (Ok a, s1) ∧ f a s1 = (Err e, s').
Proof.
  unfold mbind, M_bind. destruct (m s) as [[a|e0] s1]; split.
  - eauto.
  - intros [[=]|(a' & s1' & [= <- <-] & ?)]. done.
  - intros [= <- <-]. by left.
  - intros [[= <- <-]|(a' & s1' & [=] & _)]. done.
Qed.

Lemma attempt_run {S A} (m : M S A) s : attempt m s = (Ok (m s).1, (m s).2).
Proof. unfold attempt. by destruct (m s). Qed.

Lemma attempt_inv {S A} (m : M S A) s res s' : attempt m s = (Ok res, s') → m s = (res, s').
Proof. unfold attempt. destruct (m s). by intros [= -> ->]. Qed.

(** Break a successful run of a monadic computation into its steps. *)
Ltac inv_M :=
  repeat match goal with
  | H : (_ ≫= _) _ = (Ok _, _) |- _ =>
      let a := fresh "a" in let s := fresh "s" in let H1 := fresh "Hm" in
      apply bind_Ok in H as (a & s & H1 & H)
  | H : mret _ _ = (Ok _, _) |- _ => unfold mret, M_ret in H
  | H : throw _ _ = (Ok _, _) |- _ => discriminate H
  | H : (Err _, _) = (Ok _, _) |- _ => discriminate H
  | H : (Ok _, _) = (Err _, _) |- _ => discriminate H
  | H : gets _ _ = _ |- _ => unfold gets in H
  | H : modify _ _ = _ |- _ => unfold modify in H
  | H : attempt _ _ = _ |- _ => rewrite attempt_run in H
  | H : of_result _ _ = _ |- _ => unfold of_result in H
  | H : (Ok _, _) = (Ok _, _) |- _ => injection H as ??; subst
  | H : (Err _, _) = (Err _, _) |- _ => injection H as ??; subst
  end; simpl in *.

#[global] Arguments be : simpl never.
#[global] Arguments unbe : simpl never.
#[global] Arguments u64 : simpl never.
#[global] Arguments i64 : simpl never.
#[global] Arguments u32 : simpl never.
