(* ===== verification/Bolt.v ===== *)
(** The key-value store under pkg/metadb.

    [go.etcd.io/bbolt] is a third-party package, so it is an interface here:
    [BoltOps] names the operations pkg/metadb calls, [BoltLaws] states their
    documented behaviour (a bucket is a finite map over byte keys, a cursor
    visits it in byte order, a sequence counter is independent of the keys,
    and [Update] commits on success and rolls the whole transaction back on
    an error).  Everything about the metadata store is proved from these
    laws.  [MapBolt] is a concrete store that satisfies them, used to run the
    model. *)
From S2P Require Import Prelude.

Class BoltOps (bucket : Type → Type) := {
  bk_empty : ∀ {V}, bucket V;
  (** [Bucket.Get]; [None] is Go's [nil]. *)
  bk_get : ∀ {V}, bytes → bucket V → option V;
  bk_put : ∀ {V}, bytes → V → bucket V → bucket V;
  bk_delete : ∀ {V}, bytes → bucket V → bucket V;
  (** What a [Cursor] visits from [First] by repeated [Next]. *)
  bk_cursor : ∀ {V}, bucket V → list (bytes * V);
  bk_sequence : ∀ {V}, bucket V → Z;
  bk_set_sequence : ∀ {V}, Z → bucket V → bucket V;
  (** [DB.Update]: run a function on a writable transaction. *)
  bolt_update : ∀ {S A}, M S A → M S A
}.

Class BoltLaws (bucket : Type → Type) `{BoltOps bucket} : Prop := {
  bk_get_empty V k : bk_get k (bk_empty : bucket V) = None;
  bk_get_put V k k' (v : V) (b : bucket V) :
    bk_get k (bk_put k' v b) = if decide (k = k') then Some v else bk_get k b;
  bk_get_delete V k k' (b : bucket V) :
    bk_get k (bk_delete k' b) = if decide (k = k') then None else bk_get k b;
  bk_get_set_sequence V k n (b : bucket V) :
    bk_get k (bk_set_sequence n b) = bk_get k b;
  bk_cursor_get V k v (b : bucket V) :
    (k, v) ∈ bk_cursor b ↔ bk_get k b = Some v;
  bk_cursor_nodup V (b : bucket V) : NoDup (bk_cursor b).*1;
  bk_cursor_sorted V (b : bucket V) :
    StronglySorted (λ x y, bytes_le x.1 y.1) (bk_cursor b);
  bk_sequence_empty V : bk_sequence (bk_empty : bucket V) = 0;
  bk_sequence_put V k (v : V) (b : bucket V) :
    bk_sequence (bk_put k v b) = bk_sequence b;
  bk_sequence_delete V k (b : bucket V) :
    bk_sequence (bk_delete k b) = bk_sequence b;
  bk_sequence_set V n (b : bucket V) : bk_sequence (bk_set_sequence n b) = n;
  bolt_update_ok S A (f : M S A) s a s' :
    f s = (Ok a, s') → bolt_update f s = (Ok a, s');
  bolt_update_err S A (f : M S A) s e s' :
    f s = (Err e, s') → bolt_update f s = (Err e, s)
}.

(** [Cursor.Seek(p)] followed by [Next] while [bytes.HasPrefix(k, p)]. *)
Definition bk_scan `{BoltOps bucket} {V} (p : bytes) (b : bucket V) :
    list (bytes * V) :=
  take_while (λ kv, has_prefix p kv.1)
    (drop_while (λ kv, negb (bytes_leb p kv.1)) (bk_cursor b)).

(** * A store that satisfies the laws *)

Module MapBolt.

Record mapb (V : Type) := Mapb { mb_map : gmap bytes V; mb_seq : Z }.
Arguments Mapb {V} _ _.
Arguments mb_map {V} _.
Arguments mb_seq {V} _.

Definition key_le {V} (x y : bytes * V) : Prop := bytes_le x.1 y.1.

#[global] Instance key_le_dec {V} : RelDecision (@key_le V) :=
  λ x y, bytes_le_dec x.1 y.1.

Definition update {S A} (f : M S A) : M S A := λ s,
  match f s with
  | (Ok a, s') => (Ok a, s')
  | (Err e, _) => (Err e, s)
  end.

#[global] Instance map_bolt : BoltOps mapb := {|
  bk_empty V := Mapb ∅ 0;
  bk_get V k b := mb_map b !! k;
  bk_put V k v b := Mapb (<[k := v]> (mb_map b)) (mb_seq b);
  bk_delete V k b := Mapb (delete k (mb_map b)) (mb_seq b);
  bk_cursor V b := merge_sort key_le (map_to_list (mb_map b));
  bk_sequence V b := mb_seq b;
  bk_set_sequence V n b := Mapb (mb_map b) n;
  bolt_update S A := update
|}.

#[global] Instance key_le_trans {V} : Transitive (@key_le V).
Proof. intros [a ?] [b ?] [c ?]. apply bytes_leb_trans. Qed.
#[global] Instance key_le_total {V} : Total (@key_le V).
Proof. intros [a ?] [b ?]. apply bytes_leb_total. Qed.

Lemma cursor_perm {V} (b : mapb V) :
  merge_sort key_le (map_to_list (mb_map b)) ≡ₚ map_to_list (mb_map b).
Proof. apply merge_sort_Permutation. Qed.

#[global] Instance map_bolt_laws : BoltLaws mapb.
Proof.
  split; simpl; try done.
  - intros. rewrite lookup_insert. repeat case_decide; congruence.
  - intros. rewrite lookup_delete. repeat case_decide; congruence.
  - intros. rewrite cursor_perm. apply elem_of_map_to_list.
  - intros. rewrite cursor_perm. apply NoDup_fst_map_to_list.
  - intros. apply (StronglySorted_merge_sort key_le).
  - intros S A f s a s' Hf. unfold update. by rewrite Hf.
  - intros S A f s e s' Hf. unfold update. by rewrite Hf.
Qed.

End MapBolt.

(** * Consequences of the laws *)

Section laws.
Context `{BoltLaws bucket}.

Lemma bk_get_put_eq {V} k (v : V) (b : bucket V) :
  bk_get k (bk_put k v b) = Some v.
Proof. rewrite bk_get_put. by case_decide. Qed.

Lemma bk_get_put_ne {V} k k' (v : V) (b : bucket V) :
  k ≠ k' → bk_get k (bk_put k' v b) = bk_get k b.
Proof. rewrite bk_get_put. by case_decide. Qed.

Lemma bk_get_delete_eq {V} k (b : bucket V) : bk_get k (bk_delete k b) = None.
Proof. rewrite bk_get_delete. by case_decide. Qed.

Lemma bk_get_delete_ne {V} k k' (b : bucket V) :
  k ≠ k' → bk_get k (bk_delete k' b) = bk_get k b.
Proof. rewrite bk_get_delete. by case_decide. Qed.

(** A prefix scan returns exactly the bindings whose key has the prefix. *)
Lemma bk_scan_filter {V} p (b : bucket V) :
  bk_scan p b = filter (λ kv, has_prefix p kv.1 = true) (bk_cursor b).
Proof. apply seek_prefix_filter, bk_cursor_sorted. Qed.

Lemma elem_of_bk_scan {V} p k v (b : bucket V) :
  (k, v) ∈ bk_scan p b ↔ has_prefix p k = true ∧ bk_get k b = Some v.
Proof. by rewrite bk_scan_filter, list_elem_of_filter, bk_cursor_get. Qed.

Lemma bk_cursor_nodup_pairs {V} (b : bucket V) : NoDup (bk_cursor b).
Proof. eapply NoDup_fmap_1, bk_cursor_nodup. Qed.

(** Two buckets with the same bindings are visited in the same order. *)
Lemma bk_cursor_ext {V} (b b' : bucket V) :
  (∀ k, bk_get k b = bk_get k b') → bk_cursor b ≡ₚ bk_cursor b'.
Proof.
  intros Hext. apply NoDup_Permutation; [apply bk_cursor_nodup_pairs..|].
  intros [k v]. by rewrite !bk_cursor_get, Hext.
Qed.

(** The bindings after a put or a delete, up to order. *)
Lemma bk_cursor_put_new {V} k (v : V) (b : bucket V) :
  bk_get k b = None → bk_cursor (bk_put k v b) ≡ₚ (k, v) :: bk_cursor b.
Proof.
  intros Hk. apply NoDup_Permutation; [apply bk_cursor_nodup_pairs| |].
  - constructor; [|apply bk_cursor_nodup_pairs].
    rewrite bk_cursor_get, Hk. done.
  - intros [k' v']. rewrite elem_of_cons, !bk_cursor_get, bk_get_put.
    case_decide as E; [subst|]; rewrite ?Hk; naive_solver.
Qed.

Lemma bk_cursor_delete {V} k (v : V) (b : bucket V) :
  bk_get k b = Some v → bk_cursor b ≡ₚ (k, v) :: bk_cursor (bk_delete k b).
Proof.
  intros Hk. apply NoDup_Permutation; [apply bk_cursor_nodup_pairs| |].
  - constructor; [|apply bk_cursor_nodup_pairs].
    rewrite bk_cursor_get, bk_get_delete_eq. done.
  - intros [k' v']. rewrite elem_of_cons, !bk_cursor_get, bk_get_delete.
    case_decide as E; [subst|]; rewrite ?Hk; naive_solver.
Qed.

Lemma bk_cursor_put_old {V} k (v v0 : V) (b : bucket V) :
  bk_get k b = Some v0 →
  ∃ l, bk_cursor b ≡ₚ (k, v0) :: l ∧ bk_cursor (bk_put k v b) ≡ₚ (k, v) :: l.
Proof.
  intros Hk. exists (bk_cursor (bk_delete k b)). split.
  { by apply bk_cursor_delete. }
  rewrite <- bk_cursor_put_new by apply bk_get_delete_eq.
  apply bk_cursor_ext. intros k'. rewrite !bk_get_put, bk_get_delete.
  by case_decide.
Qed.

(** [Update] in one equation. *)
Lemma bolt_update_run {S A} (f : M S A) s :
  bolt_update f s = match f s with
                    | (Ok a, s') => (Ok a, s')
                    | (Err e, _) => (Err e, s)
                    end.
Proof.
  destruct (f s) as [[a|e] s'] eqn:E.
  - by apply bolt_update_ok.
  - by eapply bolt_update_err.
Qed.

Lemma bolt_update_Ok {S A} (f : M S A) s a s' :
  bolt_update f s = (Ok a, s') ↔ f s = (Ok a, s').
Proof.
  rewrite bolt_update_run. destruct (f s) as [[a'|e] s1]; [done|].
  split; done.
Qed.

(** A transaction that fails leaves the store as it was. *)
Lemma bolt_update_Err {S A} (f : M S A) s e s' :
  bolt_update f s = (Err e, s') ↔ s' = s ∧ ∃ s1, f s = (Err e, s1).
Proof.
  rewrite bolt_update_run. destruct (f s) as [[a'|e'] s1].
  - split; [done|]. by intros (_ & ? & ?).
  - split; [intros [= <- <-]; eauto | intros (-> & ? & [= -> ->]); done].
Qed.

End laws.
