(* ===== verification/Chunk.v ===== *)
(** pkg/chunk: content-addressed, fixed-size chunking.

    The hash is [lukechampine.com/blake3], a third-party package, so it is
    the parameter [Sum256].  An [io.Reader] is what it delivers: some bytes
    and then either end of file or an error; [ReadFull] is the standard
    library's [io.ReadFull] on such a reader. *)
From S2P Require Import Prelude.

(** [chunk.ID]: a BLAKE3-256 digest. *)
Abbreviation ID := (barray 32).

(** [blake3.Sum256]. *)
Class Blake3 := Sum256 : bytes → barray 32.

(** * Readers *)

Record reader := Reader {
  rd_data : bytes;              (** what is still to come *)
  rd_err : option error         (** [None]: then [io.EOF]; [Some e]: then [e] *)
}.

(** [io.ReadFull(r, buf)] with [len(buf) = n]: the bytes that landed in
    [buf], the error, and the reader afterwards. *)
Definition ReadFull (r : reader) (n : nat) : bytes * option error * reader :=
  let got := take n (rd_data r) in
  let r' := Reader (drop n (rd_data r)) (rd_err r) in
  if (n <=? length (rd_data r))%nat then (got, None, r')
  else match rd_err r with
       | Some e => (got, Some e, r')
       | None => (got, Some (match got with [] => EOF | _ => ErrUnexpectedEOF end), r')
       end.

(** [bytes.NewReader]. *)
Definition bytes_reader (b : bytes) : reader := Reader b None.

(** * Hexadecimal names *)

Definition hex_digit (n : Z) : byte :=
  if n <? 10 then byte_of_Z (48 + n) else byte_of_Z (87 + n).

(** [hex.EncodeToString]. *)
Definition hex_encode (b : bytes) : bytes :=
  b ≫= λ x, [hex_digit (byteZ x / 16); hex_digit (byteZ x mod 16)].

Definition from_hex_char (c : byte) : option Z :=
  let n := byteZ c in
  if (48 <=? n) && (n <=? 57) then Some (n - 48)
  else if (97 <=? n) && (n <=? 102) then Some (n - 87)
  else if (65 <=? n) && (n <=? 70) then Some (n - 55)
  else None.

(** [hex.DecodeString]. *)
Fixpoint hex_decode (s : bytes) : result bytes :=
  match s with
  | [] => Ok []
  | [_] => Err ErrBadHex
  | a :: b :: s' =>
      match from_hex_char a, from_hex_char b with
      | Some x, Some y =>
          match hex_decode s' with
          | Ok r => Ok (byte_of_Z (16 * x + y) :: r)
          | Err e => Err e
          end
      | _, _ => Err ErrBadHex
      end
  end.

(** [ID.String]. *)
Definition ID_String (id : ID) : bytes := hex_encode (ba id).

(** [ID.Shard]. *)
Definition Shard (id : ID) : bytes := hex_encode (take 1 (ba id)).

Definition IDFromHex (s : bytes) : result ID :=
  match hex_decode s with
  | Err e => Err e
  | Ok b => match barray_of 32 b with
            | Some id => Ok id
            | None => Err ErrBadIDLength
            end
  end.

(** * The chunker *)

(** [DefaultSize] = 4 MiB. *)
Definition DefaultSize : Z := Z.shiftl 4 20.

Record Chunk := mkChunk { c_ID : ID; c_Data : bytes }.

Record Chunker := mkChunker {
  ck_r : reader;
  ck_size : Z;
  ck_err : option error
}.

Definition NewChunker (r : reader) (size : Z) : Chunker :=
  mkChunker r (if size <=? 0 then DefaultSize else size) None.

Section chunk.
Context {blake3 : Blake3}.

Definition Sum (b : bytes) : ID := Sum256 b.

(** [Chunker.Next]. *)
Definition Next : M Chunker Chunk := λ c,
  match ck_err c with
  | Some e => (Err e, c)
  | None =>
      let '(data, err, r') := ReadFull (ck_r c) (Z.to_nat (ck_size c)) in
      let ok := (Ok (mkChunk (Sum data) data), mkChunker r' (ck_size c) None) in
      match err with
      | None => ok
      | Some e =>
          if bool_decide (e = ErrUnexpectedEOF) then ok
          else (Err e, mkChunker r' (ck_size c) (Some e))
      end
  end.

(** The loop of [SplitAll]: one [Next] per iteration. *)
Fixpoint split_loop (fuel : nat) (out : list Chunk) : M Chunker (list Chunk) :=
  match fuel with
  | O => throw ErrOutOfFuel
  | S fuel' =>
      r ← attempt Next;
      match r with
      | Ok c => split_loop fuel' (out ++ [c])
      | Err e => if bool_decide (e = EOF) then mret out else throw e
      end
  end.

(** Every iteration but the last consumes a byte, so one more than the
    reader's length is enough. *)
Definition SplitAll (r : reader) (size : Z) : result (list Chunk) :=
  (split_loop (S (length (rd_data r))) [] (NewChunker r size)).1.

(** [SplitBytes] panics on an error, which a [bytes.Reader] never gives. *)
Definition SplitBytes (b : bytes) (size : Z) : result (list Chunk) :=
  SplitAll (bytes_reader b) size.

(** The chunks of [b] at [n] bytes each, as a specification. *)
Fixpoint pieces (fuel : nat) (n : nat) (b : bytes) : list bytes :=
  match fuel, b with
  | S fuel', _ :: _ => take n b :: pieces fuel' n (drop n b)
  | _, _ => []
  end.

Definition chunk_of (b : bytes) : Chunk := mkChunk (Sum b) b.

End chunk.

(** A hash for running the model: the first 32 bytes, zero padded. *)
Definition pad_hash : Blake3 := λ b,
  match barray_of 32 (barray_fill 32 b) with
  | Some a => a
  | None => @BArray 32 (replicate 32 x00) eq_refl
  end.

(** * Lemmas *)

Lemma ReadFull_full r n :
  (n <= length (rd_data r))%nat →
  ReadFull r n = (take n (rd_data r), None, Reader (drop n (rd_data r)) (rd_err r)).
Proof. intros Hn. unfold ReadFull. by rewrite (proj2 (Nat.leb_le _ _) Hn). Qed.

Lemma ReadFull_short b n :
  (length b < n)%nat →
  ReadFull (bytes_reader b) n
  = (b, Some (match b with [] => EOF | _ => ErrUnexpectedEOF end), bytes_reader []).
Proof.
  intros Hn. unfold ReadFull. simpl. rewrite (proj2 (Nat.leb_gt _ _) Hn).
  by rewrite take_ge, drop_ge by lia.
Qed.

Lemma from_hex_digit n : 0 <= n < 16 → from_hex_char (hex_digit n) = Some n.
Proof.
  intros Hn. unfold from_hex_char, hex_digit.
  destruct (Z.ltb_spec n 10); rewrite byteZ_of_Z, Z.mod_small by lia.
  - rewrite (proj2 (Z.leb_le _ _)), (proj2 (Z.leb_le _ _)) by lia. simpl. f_equal. lia.
  - rewrite (proj2 (Z.leb_le 48 _)), (proj2 (Z.leb_gt _ 57)) by lia. simpl.
    rewrite (proj2 (Z.leb_le 97 _)), (proj2 (Z.leb_le _ 102)) by lia. simpl. f_equal. lia.
Qed.

Lemma hex_decode_encode b : hex_decode (hex_encode b) = Ok b.
Proof.
  induction b as [|x b IH]; [done|].
  change (hex_encode (x :: b)) with
    (hex_digit (byteZ x / 16) :: hex_digit (byteZ x mod 16) :: hex_encode b).
  pose proof (byteZ_range x). pose proof (Z.div_mod (byteZ x) 16).
  pose proof (Z.mod_pos_bound (byteZ x) 16).
  assert (0 <= byteZ x / 16 < 16) by
    (split; [apply Z.div_pos; lia | apply Z.div_lt_upper_bound; lia]).
  simpl. rewrite !from_hex_digit by lia. rewrite IH.
  replace (16 * (byteZ x / 16) + byteZ x mod 16) with (byteZ x) by lia.
  by rewrite byte_of_byteZ.
Qed.

Lemma hex_encode_inj a b : hex_encode a = hex_encode b → a = b.
Proof.
  intros E. apply (f_equal hex_decode) in E. rewrite !hex_decode_encode in E.
  by injection E.
Qed.

Lemma length_hex_encode b : length (hex_encode b) = (2 * length b)%nat.
Proof.
  induction b as [|x b IH]; [done|].
  change (hex_encode (x :: b)) with
    (hex_digit (byteZ x / 16) :: hex_digit (byteZ x mod 16) :: hex_encode b).
  simpl. lia.
Qed.

(** A chunk ID read back from its printed form is the same ID, and
    only 64 hexadecimal digits are accepted. *)
Theorem IDFromHex_String (id : ID) :
  IDFromHex (ID_String id) = Ok id ∧
  (∀ s id', IDFromHex s = Ok id' → hex_decode s = Ok (ba id') ∧ length s = 64%nat).
Proof.
  split.
  - unfold IDFromHex, ID_String. by rewrite hex_decode_encode, barray_of_ba.
  - intros s id'. unfold IDFromHex.
    destruct (hex_decode s) as [b|] eqn:E; [|done].
    destruct (barray_of 32 b) as [a|] eqn:E2; [|done]. intros [= <-].
    apply barray_of_Some in E2 as ->. split; [done|].
    assert (∀ n s b, (length s <= n)%nat → hex_decode s = Ok b → length s = (2 * length b)%nat)
      as Hlen; [|rewrite (Hlen _ _ _ (le_n _) E), barray_length; done].
    clear. induction n as [|n IH]; intros [|x [|y s]] b Hn; simpl in *; try done; try lia.
    all: try by intros [= <-].
    destruct (from_hex_char x), (from_hex_char y); try done.
    destruct (hex_decode s) as [r|] eqn:E; [|done]. intros [= <-]. simpl.
    apply IH in E; lia.
Qed.

Section chunk_lemmas.
Context {blake3 : Blake3}.

Lemma concat_pieces fuel n b :
  (0 < n)%nat → (length b <= fuel)%nat → concat (pieces fuel n b) = b.
Proof.
  intros Hn. revert b. induction fuel as [|fuel IH]; intros [|x b] Hb; simpl in *; try done.
  - lia.
  - destruct n as [|n]; [lia|]. simpl. f_equal.
    rewrite IH; [apply take_drop|]. rewrite length_drop. lia.
Qed.

Lemma pieces_bound fuel n b :
  (0 < n)%nat → Forall (λ p, (0 < length p <= n)%nat) (pieces fuel n b).
Proof.
  intros Hn. revert b. induction fuel as [|fuel IH]; intros [|x b]; simpl; try constructor.
  - rewrite length_take. simpl. lia.
  - apply IH.
Qed.

Lemma pieces_full fuel n b i p :
  (0 < n)%nat → pieces fuel n b !! i = Some p →
  (S i < length (pieces fuel n b))%nat → length p = n.
Proof.
  intros Hn. revert b i. induction fuel as [|fuel IH]; intros [|x b] i; simpl; try done.
  destruct i as [|i]; simpl.
  - intros [= <-] Hlt. rewrite length_take. simpl.
    destruct fuel; [simpl in Hlt; lia|].
    destruct (drop n (x :: b)) as [|y d] eqn:E; [simpl in Hlt; lia|].
    apply (f_equal length) in E. rewrite length_drop in E. simpl in E. lia.
  - intros Hp Hlt. eapply IH; [exact Hp|]. lia.
Qed.

Lemma data_chunk_of (l : list bytes) : c_Data <$> (chunk_of <$> l) = l.
Proof. induction l; csimpl; f_equal; done. Qed.

Lemma Next_run b n :
  (0 < n)%nat →
  Next (mkChunker (bytes_reader b) (Z.of_nat n) None)
  = if bool_decide (b = [])
    then (Err EOF, mkChunker (bytes_reader []) (Z.of_nat n) (Some EOF))
    else (Ok (chunk_of (take n b)),
          mkChunker (bytes_reader (drop n b)) (Z.of_nat n) None).
Proof.
  intros Hn. unfold Next. simpl ck_err. cbv iota. simpl ck_r. simpl ck_size.
  rewrite Nat2Z.id.
  destruct (decide (length b < n)%nat) as [Hlt|Hge].
  - rewrite ReadFull_short by done. destruct b as [|x b]; [done|].
    by rewrite take_ge, drop_ge by lia.
  - rewrite ReadFull_full by (simpl; lia). destruct b; [simpl in *; lia|done].
Qed.

Lemma split_loop_pieces fuel b n out :
  (0 < n)%nat → (length b < fuel)%nat →
  (split_loop fuel out (mkChunker (bytes_reader b) (Z.of_nat n) None)).1
  = Ok (out ++ (chunk_of <$> pieces fuel n b)).
Proof.
  intros Hn. revert b out. induction fuel as [|fuel IH]; intros b out Hb; [lia|].
  simpl split_loop. unfold mbind, M_bind. rewrite attempt_run, Next_run by done.
  destruct b as [|x b]; simpl.
  - by rewrite app_nil_r.
  - simpl in Hb. rewrite IH by (rewrite length_drop; simpl; lia).
    by rewrite <- app_assoc.
Qed.

(** The chunks of an in-memory buffer. *)
Lemma SplitBytes_pieces b size :
  SplitBytes b size
  = Ok (chunk_of <$> pieces (S (length b))
          (Z.to_nat (if size <=? 0 then DefaultSize else size)) b).
Proof.
  unfold SplitBytes, SplitAll, NewChunker. simpl rd_data.
  set (n := if size <=? 0 then DefaultSize else size).
  assert (0 < n) as Hn.
  { subst n. destruct (Z.leb_spec size 0); [|done]. vm_compute. done. }
  rewrite <- (Z2Nat.id n) at 1 by lia.
  rewrite split_loop_pieces by lia. done.
Qed.

(** Splitting a buffer never fails; the chunks concatenate back to it,
    none is empty or larger than the chunk size, every one but the last is
    exactly that size, and each is named by the hash of its bytes. *)
Theorem SplitBytes_correct b size :
  0 < size →
  ∃ cs, SplitBytes b size = Ok cs ∧
    concat (c_Data <$> cs) = b ∧
    Forall (λ c, 0 < blen (c_Data c) <= size ∧ c_ID c = Sum (c_Data c)) cs ∧
    (∀ i c, cs !! i = Some c → (S i < length cs)%nat → blen (c_Data c) = size).
Proof.
  intros Hs. rewrite SplitBytes_pieces.
  rewrite (proj2 (Z.leb_gt _ _)) by lia.
  set (n := Z.to_nat size). assert (0 < n)%nat as Hn by lia.
  eexists. split; [done|]. split_and!.
  - rewrite data_chunk_of. apply concat_pieces; lia.
  - apply Forall_fmap. eapply Forall_impl; [apply (pieces_bound (S (length b)) n b Hn)|].
    intros p Hp. unfold n in Hp. unfold compose, blen. simpl. split; [lia|done].
  - intros i c Hi Hlt. apply list_lookup_fmap_Some in Hi as (p & -> & Hp).
    rewrite length_fmap in Hlt. simpl. unfold blen.
    rewrite (pieces_full _ _ _ _ _ Hn Hp Hlt). lia.
Qed.

End chunk_lemmas.

Lemma SplitBytes_correct_witness :
  0 < 2 ∧
  ∃ cs, @SplitBytes pad_hash (str "abcde") 2 = Ok cs ∧
    concat (c_Data <$> cs) = str "abcde".
Proof.
  split; [lia|].
  destruct (@SplitBytes_correct pad_hash (str "abcde") 2 eq_refl) as (cs & H & H2 & _).
  exists cs. split; assumption.
Defined.
