(* ===== verification/Manifest.v ===== *)
(** pkg/manifest: the ordered chunk list of a file and its canonical binary
    encoding.

    [bufErrWriter] and [bufErrReader] are the package's sticky-error
    wrappers; the writer under the former is any state with a [Write]
    operation that may fail, the reader under the latter is a [reader] of
    [Chunk]. *)
From S2P Require Import Prelude Chunk.

Definition FormatVersion : Z := 1.
Definition FlagNone : Z := 0.

Record Entry := mkEntry { e_ChunkID : ID; e_Length : Z; e_Flags : Z }.

Record Manifest := mkManifest {
  m_FormatVersion : Z;     (** uint16 *)
  m_ContentSize : Z;       (** uint64 *)
  m_ChunkSizeHint : Z;     (** uint32 *)
  m_Entries : list Entry
}.

#[global] Instance Entry_eq_dec : EqDecision Entry.
Proof. solve_decision. Defined.
#[global] Instance Manifest_eq_dec : EqDecision Manifest.
Proof. solve_decision. Defined.

(** [manifest.New]. *)
Definition New (chunks : list Chunk) (chunkSizeHint : Z) : Manifest :=
  mkManifest FormatVersion
    (foldl (λ total c, u64 (total + u64 (blen (c_Data c)))) 0 chunks)
    (u32 chunkSizeHint)
    ((λ c, mkEntry (c_ID c) (u32 (blen (c_Data c))) FlagNone) <$> chunks).

(** * Encoding *)

Record bufErrWriter (W : Type) := BufErrWriter { bw_w : W; bw_err : option error }.
Arguments BufErrWriter {W} _ _.
Arguments bw_w {W} _.
Arguments bw_err {W} _.

Section encode.
Context {W : Type} (Write : bytes → M W unit).

(** [bufErrWriter.bytes]; the fixed-width writers put their value in a
    buffer of that width first. *)
Definition bw_bytes (v : bytes) (b : bufErrWriter W) : bufErrWriter W :=
  match bw_err b with
  | Some _ => b
  | None => match Write v (bw_w b) with
            | (Ok _, w) => BufErrWriter w None
            | (Err e, w) => BufErrWriter w (Some e)
            end
  end.

Definition bw_u16 (v : Z) : bufErrWriter W → bufErrWriter W := bw_bytes (be 2 v).
Definition bw_u32 (v : Z) : bufErrWriter W → bufErrWriter W := bw_bytes (be 4 v).
Definition bw_u64 (v : Z) : bufErrWriter W → bufErrWriter W := bw_bytes (be 8 v).

Definition encode_entry (bw : bufErrWriter W) (e : Entry) : bufErrWriter W :=
  bw_u32 (e_Flags e) (bw_u32 (e_Length e) (bw_bytes (ba (e_ChunkID e)) bw)).

(** [Manifest.Encode]. *)
Definition Encode (m : Manifest) : M W unit := λ w,
  let bw := BufErrWriter w None in
  let bw := bw_u16 (m_FormatVersion m) bw in
  let bw := bw_u64 (m_ContentSize m) bw in
  let bw := bw_u32 (m_ChunkSizeHint m) bw in
  let bw := bw_u32 (u32 (Z.of_nat (length (m_Entries m)))) bw in
  let bw := foldl encode_entry bw (m_Entries m) in
  (match bw_err bw with None => Ok tt | Some e => Err e end, bw_w bw).

End encode.

(** A [bytes.Buffer]'s [Write]: appends, never fails. *)
Definition buffer_Write (p : bytes) : M bytes unit := λ buf, (Ok tt, buf ++ p).

Definition EncodeBytes (m : Manifest) : bytes := (Encode buffer_Write m []).2.

(** [Manifest.ID]. *)
Definition Manifest_ID `{Blake3} (m : Manifest) : barray 32 := Sum256 (EncodeBytes m).

(** * Decoding *)

Record bufErrReader := BufErrReader { br_r : reader; br_err : option error }.

(** [bufErrReader.readBytes] into a fresh zeroed buffer of [n] bytes: the
    buffer's content afterwards. *)
Definition br_readBytes (n : nat) (b : bufErrReader) : bytes * bufErrReader :=
  match br_err b with
  | Some _ => (replicate n x00, b)
  | None =>
      let '(got, err, r') := ReadFull (br_r b) n in
      (got ++ replicate (n - length got) x00, BufErrReader r' err)
  end.

Definition br_u16 (b : bufErrReader) : Z * bufErrReader :=
  let '(buf, b') := br_readBytes 2 b in (unbe buf, b').
Definition br_u32 (b : bufErrReader) : Z * bufErrReader :=
  let '(buf, b') := br_readBytes 4 b in (unbe buf, b').
Definition br_u64 (b : bufErrReader) : Z * bufErrReader :=
  let '(buf, b') := br_readBytes 8 b in (unbe buf, b').

(** One iteration of the entry loop. *)
Definition decode_entry (br : bufErrReader) : result (Entry * bufErrReader) :=
  let '(id, br) := br_readBytes 32 br in
  let '(length, br) := br_u32 br in
  let '(flags, br) := br_u32 br in
  match br_err br with
  | Some e => Err e
  | None => match barray_of 32 id with
            | Some id => Ok (mkEntry id length flags, br)
            | None => Err ErrBadIDLength
            end
  end.

Fixpoint decode_entries (n : nat) (br : bufErrReader) : result (list Entry) :=
  match n with
  | O => Ok []
  | S n' =>
      match decode_entry br with
      | Err e => Err e
      | Ok (e, br) =>
          match decode_entries n' br with
          | Err e => Err e
          | Ok es => Ok (e :: es)
          end
      end
  end.

(** [Decode]. *)
Definition Decode (r : reader) : result Manifest :=
  let br := BufErrReader r None in
  let '(version, br) := br_u16 br in
  if bool_decide (br_err br = None) && negb (version =? FormatVersion) then
    Err ErrUnsupportedVersion
  else
    let '(size, br) := br_u64 br in
    let '(hint, br) := br_u32 br in
    let '(n, br) := br_u32 br in
    match br_err br with
    | Some e => Err e
    | None =>
        match decode_entries (Z.to_nat n) br with
        | Err e => Err e
        | Ok es => Ok (mkManifest version size hint es)
        end
    end.

Definition DecodeBytes (b : bytes) : result Manifest := Decode (bytes_reader b).

(** * Specification *)

(** The encoding as one byte string. *)
Definition entry_bytes (e : Entry) : bytes :=
  ba (e_ChunkID e) ++ be 4 (e_Length e) ++ be 4 (e_Flags e).

Definition manifest_bytes (m : Manifest) : bytes :=
  be 2 (m_FormatVersion m) ++ be 8 (m_ContentSize m) ++ be 4 (m_ChunkSizeHint m)
  ++ be 4 (Z.of_nat (length (m_Entries m)))
  ++ concat (entry_bytes <$> m_Entries m).

(** Field values that fit their Go types, in the current format. *)
Definition entry_ok (e : Entry) : Prop := in_u32 (e_Length e) ∧ in_u32 (e_Flags e).

Definition manifest_ok (m : Manifest) : Prop :=
  m_FormatVersion m = FormatVersion ∧ in_u64 (m_ContentSize m) ∧
  in_u32 (m_ChunkSizeHint m) ∧ Z.of_nat (length (m_Entries m)) < 2 ^ 32 ∧
  Forall entry_ok (m_Entries m).

(** A manifest to run the codec on. *)
Definition sample_manifest : Manifest :=
  mkManifest 1 5 2 [mkEntry (@Sum256 pad_hash (str "ab")) 2 0;
                    mkEntry (@Sum256 pad_hash (str "cd")) 2 0].

(** * Lemmas *)

Lemma length_entry_bytes e : length (entry_bytes e) = 40%nat.
Proof.
  unfold entry_bytes. rewrite !length_app, !length_be, barray_length. done.
Qed.

Lemma bw_bytes_buffer v buf :
  bw_bytes buffer_Write v (BufErrWriter buf None) = BufErrWriter (buf ++ v) None.
Proof. done. Qed.

Lemma encode_entry_buffer buf e :
  encode_entry buffer_Write (BufErrWriter buf None) e
  = BufErrWriter (buf ++ entry_bytes e) None.
Proof.
  unfold encode_entry, bw_u32, entry_bytes. rewrite !bw_bytes_buffer.
  by rewrite <- !app_assoc.
Qed.

Lemma encode_entries_buffer buf es :
  foldl (encode_entry buffer_Write) (BufErrWriter buf None) es
  = BufErrWriter (buf ++ concat (entry_bytes <$> es)) None.
Proof.
  revert buf. induction es as [|e es IH]; intros buf.
  - simpl. by rewrite app_nil_r.
  - cbn [foldl]. rewrite encode_entry_buffer, IH. csimpl. by rewrite <- app_assoc.
Qed.

(** [bytes.Buffer] never fails, and the canonical encoding is the fields in
    order, each at its fixed width. *)
Lemma EncodeBytes_spec m :
  Z.of_nat (length (m_Entries m)) < 2 ^ 32 → EncodeBytes m = manifest_bytes m.
Proof.
  intros Hn. unfold EncodeBytes, Encode, bw_u16, bw_u32, bw_u64.
  rewrite !bw_bytes_buffer, encode_entries_buffer. cbn [bw_w snd].
  unfold manifest_bytes. rewrite u32_id by (unfold in_u32; lia).
  by rewrite app_nil_l, <- !app_assoc.
Qed.

Lemma br_readBytes_app a b :
  br_readBytes (length a) (BufErrReader (bytes_reader (a ++ b)) None)
  = (a, BufErrReader (bytes_reader b) None).
Proof.
  unfold br_readBytes. simpl br_err. cbv iota.
  rewrite ReadFull_full by (simpl; rewrite length_app; lia). simpl.
  rewrite take_app_length, drop_app_length.
  by rewrite Nat.sub_diag, app_nil_r.
Qed.

Lemma br_read_be n z b :
  0 <= z < 2 ^ (8 * Z.of_nat n) →
  let '(buf, br) := br_readBytes n (BufErrReader (bytes_reader (be n z ++ b)) None) in
  unbe buf = z ∧ br = BufErrReader (bytes_reader b) None.
Proof.
  intros Hz. pose proof (br_readBytes_app (be n z) b) as E.
  rewrite length_be in E. rewrite E. split; [|done].
  rewrite unbe_be. by apply Z.mod_small.
Qed.

Lemma br_u32_be z b :
  in_u32 z →
  br_u32 (BufErrReader (bytes_reader (be 4 z ++ b)) None)
  = (z, BufErrReader (bytes_reader b) None).
Proof.
  intros Hz. unfold br_u32. pose proof (br_read_be 4 z b Hz) as E.
  destruct (br_readBytes 4 _) as [buf br]. by destruct E as [-> ->].
Qed.

Lemma br_u16_be z b :
  0 <= z < 2 ^ 16 →
  br_u16 (BufErrReader (bytes_reader (be 2 z ++ b)) None)
  = (z, BufErrReader (bytes_reader b) None).
Proof.
  intros Hz. unfold br_u16. pose proof (br_read_be 2 z b Hz) as E.
  destruct (br_readBytes 2 _) as [buf br]. by destruct E as [-> ->].
Qed.

Lemma br_u64_be z b :
  in_u64 z →
  br_u64 (BufErrReader (bytes_reader (be 8 z ++ b)) None)
  = (z, BufErrReader (bytes_reader b) None).
Proof.
  intros Hz. unfold br_u64. pose proof (br_read_be 8 z b Hz) as E.
  destruct (br_readBytes 8 _) as [buf br]. by destruct E as [-> ->].
Qed.

Lemma decode_entry_bytes e b :
  entry_ok e →
  decode_entry (BufErrReader (bytes_reader (entry_bytes e ++ b)) None)
  = Ok (e, BufErrReader (bytes_reader b) None).
Proof.
  intros [Hl Hf]. unfold decode_entry, entry_bytes.
  rewrite <- !app_assoc. destruct e as [id len flags].
  cbn [e_ChunkID e_Length e_Flags] in *.
  pose proof (br_readBytes_app (ba id) (be 4 len ++ be 4 flags ++ b)) as E.
  rewrite barray_length in E. rewrite E.
  rewrite br_u32_be, br_u32_be by done. simpl. by rewrite barray_of_ba.
Qed.

Lemma decode_entries_bytes es b :
  Forall entry_ok es →
  decode_entries (length es)
    (BufErrReader (bytes_reader (concat (entry_bytes <$> es) ++ b)) None) = Ok es.
Proof.
  induction 1 as [|e es He Hes IH]; [done|].
  cbn [length decode_entries]. rewrite fmap_cons. cbn [concat].
  rewrite <- app_assoc, decode_entry_bytes by done. by rewrite IH.
Qed.

Lemma decode_manifest_bytes m rest :
  manifest_ok m → DecodeBytes (manifest_bytes m ++ rest) = Ok m.
Proof.
  intros (Hv & Hs & Hh & Hn & He). unfold manifest_bytes, DecodeBytes, Decode.
  rewrite <- !app_assoc. rewrite Hv, br_u16_be by done.
  rewrite Z.eqb_refl.
  rewrite bool_decide_true by done. cbn [negb andb].
  rewrite br_u64_be, br_u32_be, br_u32_be by (done || (unfold in_u32; lia)).
  cbn [br_err]. rewrite Nat2Z.id, decode_entries_bytes by done.
  destruct m as [v s h es]. simpl in *. by subst.
Qed.

Lemma EncodeBytes_ok m : manifest_ok m → EncodeBytes m = manifest_bytes m.
Proof. intros (_ & _ & _ & Hn & _). by apply EncodeBytes_spec. Qed.

(** A read that ends without an error started without one, and returned
    the next [n] bytes; an error, once there, stays. *)
Lemma br_readBytes_Ok n d err buf br' :
  br_readBytes n (BufErrReader (bytes_reader d) err) = (buf, br') →
  br_err br' = None →
  err = None ∧ length buf = n ∧
  ∃ rest, d = buf ++ rest ∧ br' = BufErrReader (bytes_reader rest) None.
Proof.
  unfold br_readBytes. destruct err as [e|]; cbn [br_err].
  { by intros [= <- <-]. }
  cbn [br_r]. destruct (decide (n <= length d)%nat) as [Hn|Hn].
  - rewrite ReadFull_full by done. intros [= <- <-] _. cbn [rd_data bytes_reader].
    rewrite length_take_le, Nat.sub_diag, app_nil_r by done.
    split_and!; [done|by rewrite length_take_le|].
    exists (drop n d). by rewrite take_drop.
  - rewrite ReadFull_short by lia. by intros [= <- <-].
Qed.

Lemma br_state n d err :
  ∃ d' err', (br_readBytes n (BufErrReader (bytes_reader d) err)).2
             = BufErrReader (bytes_reader d') err'.
Proof.
  unfold br_readBytes. destruct err as [e|]; cbn [br_err]; [by eauto|].
  cbn [br_r]. destruct (decide (n <= length d)%nat) as [Hn|Hn].
  - rewrite ReadFull_full by done. cbn. eauto.
  - rewrite ReadFull_short by lia. cbn. eauto.
Qed.

(** Name the result of the next read and its reader state. *)
Ltac br_step n d err :=
  let buf := fresh "buf" in let E := fresh "E" in
  let d' := fresh "d" in let err' := fresh "err" in
  destruct (br_state n d err) as (d' & err' & E);
  destruct (br_readBytes n (BufErrReader (bytes_reader d) err)) as [buf ?] eqn:?;
  cbn [snd] in E; subst.

Lemma unbe_in n buf : length buf = n → 0 <= unbe buf < 2 ^ (8 * Z.of_nat n).
Proof. intros <-. apply unbe_range. Qed.

Lemma be_unbe_length n buf : length buf = n → be n (unbe buf) = buf.
Proof. intros <-. apply be_unbe. Qed.

Lemma decode_entry_inv d e br :
  decode_entry (BufErrReader (bytes_reader d) None) = Ok (e, br) →
  entry_ok e ∧ ∃ rest, d = entry_bytes e ++ rest ∧ br = BufErrReader (bytes_reader rest) None.
Proof.
  unfold decode_entry, br_u32.
  br_step 32%nat d (@None error). br_step 4%nat d0 err. br_step 4%nat d1 err0.
  cbn [br_err]. destruct err1; [done|].
  apply br_readBytes_Ok in Heqp1 as (-> & L3 & r3 & -> & E3); [|done].
  apply br_readBytes_Ok in Heqp0 as (-> & L2 & r2 & -> & E2); [|done].
  apply br_readBytes_Ok in Heqp as (_ & L1 & r1 & -> & E1); [|done].
  destruct (barray_of 32 buf) as [id|] eqn:Eid; [|done].
  intros [= <- <-]. apply barray_of_Some in Eid as ->.
  unfold bytes_reader in *. simplify_eq.
  split; [split; by apply (unbe_in 4)|].
  eexists. split; [|done]. unfold entry_bytes. cbn [e_ChunkID e_Length e_Flags].
  by rewrite !be_unbe_length, <- !app_assoc.
Qed.

Lemma decode_entries_inv n d es :
  decode_entries n (BufErrReader (bytes_reader d) None) = Ok es →
  length es = n ∧ Forall entry_ok es ∧ ∃ rest, d = concat (entry_bytes <$> es) ++ rest.
Proof.
  revert d es. induction n as [|n IH]; intros d es; cbn [decode_entries].
  { intros [= <-]. split_and!; [done|constructor|]. by exists d. }
  destruct (decode_entry _) as [[e br]|] eqn:E; [|done].
  apply decode_entry_inv in E as (He & r & -> & ->).
  destruct (decode_entries n _) as [es'|] eqn:E2; [|done].
  apply IH in E2 as (<- & Hes & rest & ->). intros [= <-].
  split_and!; [done|by constructor|]. exists rest.
  rewrite fmap_cons. cbn [concat]. by rewrite <- app_assoc.
Qed.

(** Whatever decodes is the canonical encoding of the result, with possibly
    more bytes behind it. *)
Lemma DecodeBytes_inv b m :
  DecodeBytes b = Ok m → manifest_ok m ∧ ∃ rest, b = manifest_bytes m ++ rest.
Proof.
  unfold DecodeBytes, Decode, br_u16, br_u32, br_u64.
  br_step 2%nat b (@None error). destruct (_ && _) eqn:Ever; [done|].
  br_step 8%nat d err. br_step 4%nat d0 err0. br_step 4%nat d1 err1.
  cbn [br_err]. destruct err2; [done|].
  destruct (decode_entries _ _) as [es|] eqn:Ees; [|done]. intros [= <-].
  apply br_readBytes_Ok in Heqp2 as (-> & L4 & r4 & -> & E4); [|done].
  apply br_readBytes_Ok in Heqp1 as (-> & L3 & r3 & -> & E3); [|done].
  apply br_readBytes_Ok in Heqp0 as (-> & L2 & r2 & -> & E2); [|done].
  apply br_readBytes_Ok in Heqp as (_ & L1 & r1 & -> & E1); [|done].
  apply decode_entries_inv in Ees as (Hn & Hes & rest & ->).
  pose proof (unbe_in 4 _ L4) as B4.
  unfold bytes_reader in *. simplify_eq.
  rewrite bool_decide_true in Ever by done.
  apply negb_false_iff, Z.eqb_eq in Ever.
  assert (Z.of_nat (length es) = unbe buf2) as Hlen by lia.
  split.
  - split_and!; try done; cbn; [by apply (unbe_in 8)|by apply (unbe_in 4)|lia].
  - exists rest. unfold manifest_bytes.
    cbn [m_FormatVersion m_ContentSize m_ChunkSizeHint m_Entries].
    by rewrite Hlen, !be_unbe_length, <- !app_assoc.
Qed.

(** C39: decoding an encoded manifest, whatever bytes follow it, gives the
    manifest back, and conversely only canonical encodings decode: a
    manifest is determined by its bytes and its bytes by it. *)
Theorem manifest_roundtrip b m :
  DecodeBytes b = Ok m ↔ manifest_ok m ∧ ∃ rest, b = EncodeBytes m ++ rest.
Proof.
  split.
  - intros E. apply DecodeBytes_inv in E as (Hm & rest & ->). split; [done|].
    exists rest. by rewrite EncodeBytes_ok.
  - intros (Hm & rest & ->). rewrite EncodeBytes_ok by done.
    by apply decode_manifest_bytes.
Qed.

(** A truncated manifest is an error, never a shorter file. *)
Theorem manifest_truncated m n :
  manifest_ok m → (n < length (EncodeBytes m))%nat →
  ∃ e, DecodeBytes (take n (EncodeBytes m)) = Err e.
Proof.
  intros Hm Hn. destruct (DecodeBytes _) as [m'|e] eqn:E; [exfalso|by eauto].
  apply DecodeBytes_inv in E as (Hm' & rest & E).
  rewrite EncodeBytes_ok in * by done.
  pose proof (decode_manifest_bytes m [] Hm) as H1.
  rewrite app_nil_r, <- (take_drop n (manifest_bytes m)), E, <- app_assoc in H1.
  rewrite decode_manifest_bytes in H1 by done. injection H1 as ->.
  apply (f_equal length) in E. rewrite length_take, length_app in E. lia.
Qed.

Lemma manifest_truncated_witness :
  (manifest_ok sample_manifest ∧ (20 < length (EncodeBytes sample_manifest))%nat) ∧
  ∃ e, DecodeBytes (take 20 (EncodeBytes sample_manifest)) = Err e.
Proof.
  assert (manifest_ok sample_manifest) as Hm.
  { unfold manifest_ok, in_u64, in_u32. simpl. split_and!; try lia; [done|].
    repeat (apply Forall_cons; split; [split; unfold in_u32; simpl; lia|]).
    apply Forall_nil. done. }
  assert (20 < length (EncodeBytes sample_manifest))%nat as Hn.
  { apply Nat.ltb_lt. vm_compute. reflexivity. }
  split; [done|]. exact (manifest_truncated sample_manifest 20 Hm Hn).
Defined.
