(* ===== verification/Store.v ===== *)
(** pkg/store: the object-storage interface.

    A backend is a service or an SDK client, so it is an interface:
    [BackendOps] has the methods of [store.Backend] and the optional
    [GetterInto], [BackendLaws] states the contract of backend.go and
    getinto.go in terms of the objects stored.  [MemBackend] is a store that
    satisfies it. *)
From S2P Require Import Prelude Chunk.

Record ObjectInfo := mkObjectInfo { oi_Key : bytes; oi_Size : Z }.

Record PutOpts := mkPutOpts { IfAbsent : bool }.

Record DeleteResult := mkDeleteResult { dr_Key : bytes; dr_Err : option error }.

#[global] Instance DeleteResult_eq_dec : EqDecision DeleteResult.
Proof. solve_decision. Defined.

Record ListPage := mkListPage { lp_Keys : list ObjectInfo; lp_NextCursor : bytes }.

Record Caps := mkCaps {
  ConditionalPut : bool;
  BatchDelete : Z
}.

Class BackendOps (B : Type) := {
  b_Get : bytes → Z → Z → B → result reader;
  b_Put : bytes → bytes → PutOpts → M B ObjectInfo;
  b_Delete : list bytes → M B (list DeleteResult);
  b_List : bytes → bytes → Z → B → result ListPage;
  b_Stat : bytes → B → result ObjectInfo;
  b_Caps : B → Caps;
  (** [GetterInto], when the backend implements it: the bytes put in a
      buffer of the given length. *)
  b_GetInto : option (bytes → Z → nat → B → result bytes);
  (** The object stored under a key; not a method of the interface. *)
  b_object : bytes → B → option bytes
}.

Class BackendLaws (B : Type) `{BackendOps B} : Prop := {
  (** An object is read by a range of at least one byte; [-1] reads to its
      end. *)
  b_Get_range key off n data (s : B) :
    b_object key s = Some data → 0 <= off → 0 < n → off + n <= blen data →
    b_Get key off n s = Ok (bytes_reader (slice off n data));
  b_Get_whole key data (s : B) :
    b_object key s = Some data → b_Get key 0 (-1) s = Ok (bytes_reader data);
  b_Get_missing key off n (s : B) :
    b_object key s = None → 0 <= off → n ≠ 0 → off + n < 2 ^ 63 → b_Get key off n s = Err StoreErrNotFound;
  b_GetInto_range gi key off n data (s : B) :
    b_GetInto = Some gi → b_object key s = Some data →
    0 <= off → off + Z.of_nat n <= blen data →
    gi key off n s = Ok (slice off (Z.of_nat n) data);
  (** [GetInto] fills the whole buffer or fails. *)
  b_GetInto_full gi key off n (s : B) p :
    b_GetInto = Some gi → gi key off n s = Ok p → length p = n;
  b_Put_ok key data o (s : B) oi s' k :
    b_Put key data o s = (Ok oi, s') →
    b_object k s' = if decide (k = key) then Some data else b_object k s;
  (** A failed put leaves the object as it was, or has stored it all the
      same; it never touches another object. *)
  b_Put_err key data o (s : B) e s' k :
    b_Put key data o s = (Err e, s') →
    b_object k s' = b_object k s ∨
    k = key ∧ b_object k s' = Some data;
  (** Only a conditional put is refused because the key is taken. *)
  b_Put_exist key data o (s : B) s' :
    b_Put key data o s = (Err OsErrExist, s') →
    IfAbsent o = true ∧ is_Some (b_object key s);
  b_Delete_object keys (s : B) rs s' k :
    b_Delete keys s = (Ok rs, s') →
    dr_Key <$> rs = keys ∧
    (mkDeleteResult k None ∈ rs → b_object k s' = None) ∧
    (b_object k s' = b_object k s ∨ k ∈ keys ∧ b_object k s' = None);
  (** A failed delete may have deleted some of the objects. *)
  b_Delete_err keys (s : B) e s' k :
    b_Delete keys s = (Err e, s') → b_object k s' = b_object k s ∨ k ∈ keys ∧ b_object k s' = None;
  b_List_objects prefix cursor limit (s : B) page oi :
    b_List prefix cursor limit s = Ok page → oi ∈ lp_Keys page →
    has_prefix prefix (oi_Key oi) = true ∧
    ∃ data, b_object (oi_Key oi) s = Some data ∧ oi_Size oi = blen data
}.

Section store.
Context `{BackendOps B}.

(** [io.ReadAll]. *)
Definition ReadAll (r : reader) : result bytes :=
  match rd_err r with
  | None => Ok (rd_data r)
  | Some e => Err e
  end.

(** [store.GetInto]: the content of a buffer of [n] bytes after the call. *)
Definition GetInto (key : bytes) (off : Z) (n : nat) (s : B) : result bytes :=
  if (n =? 0)%nat then Ok []
  else match b_GetInto with
       | Some gi => gi key off n s
       | None =>
           match b_Get key off (Z.of_nat n) s with
           | Err e => Err e
           | Ok rc =>
               match ReadFull rc n with
               | (p, None, _) => Ok p
               | (_, Some e, _) =>
                   if bool_decide (e = ErrUnexpectedEOF ∨ e = EOF)
                   then Err StoreErrShortRead else Err e
               end
           end
       end.

Definition SupportsGetInto : bool :=
  match @b_GetInto B _ with Some _ => true | None => false end.

(** *** dest.go *)

(** A destination: a slice of host memory, [None] when it is nil, or a range
    of a registered device allocation.  [uintptr] and the contents of device
    memory are opaque; a slice is known by its length. *)
Record Dest := mkDest { d_host : option nat; d_devPtr : Z; d_devOffset : Z; d_devLen : Z }.

Definition HostDest (p : option nat) : Dest := mkDest p 0 0 0.
Definition DeviceDest (ptr offset length : Z) : Dest := mkDest None ptr offset length.

Definition IsDevice (d : Dest) : bool :=
  match d_host d with None => negb (d_devPtr d =? 0) | Some _ => false end.

Definition Dest_Len (d : Dest) : Z := if IsDevice d then d_devLen d else Z.of_nat (default 0%nat (d_host d)).

Definition Dest_Bytes (d : Dest) : result nat := if IsDevice d then Err StoreErrNotHostMemory else Ok (default 0%nat (d_host d)).

Definition Dest_Device (d : Dest) : result (Z * Z * Z) :=
  if IsDevice d then Ok (d_devPtr d, d_devOffset d, d_devLen d) else Err StoreErrHostMemory.

(** [GetIntoDest]; [gd] is the method of a backend that implements
    [GetterIntoDest].  The value is what the destination holds afterwards. *)
Definition GetIntoDest (gd : option (bytes → Z → Dest → B → result bytes)) (key : bytes) (off : Z) (d : Dest) (s : B) : result bytes :=
  match gd with
  | Some f => f key off d s
  | None =>
      if IsDevice d then Err StoreErrNoDevice
      else match Dest_Bytes d with
           | Err e => Err e
           | Ok n => GetInto key off n s
           end
  end.

End store.

Module MemBackend.

(** Objects in a map; conditional puts honoured, as pkg/store/local does. *)
Abbreviation mem := (gmap bytes bytes).

Definition mem_Get (key : bytes) (off n : Z) (s : mem) : result reader :=
  match s !! key with
  | None => Err StoreErrNotFound
  | Some data =>
      Ok (bytes_reader (if n <? 0 then drop (Z.to_nat off) data else slice off n data))
  end.

Definition mem_Put (key data : bytes) (o : PutOpts) : M mem ObjectInfo := λ s,
  if IfAbsent o && bool_decide (is_Some (s !! key)) then (Err OsErrExist, s)
  else (Ok (mkObjectInfo key (blen data)), <[key := data]> s).

Definition mem_Delete (keys : list bytes) : M mem (list DeleteResult) := λ s,
  (Ok ((λ k, mkDeleteResult k None) <$> keys), foldr delete s keys).

Definition mem_info (kv : bytes * bytes) : ObjectInfo :=
  mkObjectInfo kv.1 (blen kv.2).

Definition mem_List (prefix cursor : bytes) (limit : Z) (s : mem) : result ListPage :=
  Ok (mkListPage
        (mem_info <$> filter (λ kv, has_prefix prefix kv.1 = true) (map_to_list s)) []).

#[global] Instance mem_backend : BackendOps mem := {|
  b_Get := mem_Get;
  b_Put := mem_Put;
  b_Delete := mem_Delete;
  b_List := mem_List;
  b_Stat key s := match s !! key with
                  | Some d => Ok (mkObjectInfo key (blen d))
                  | None => Err StoreErrNotFound
                  end;
  b_Caps _ := mkCaps true 0;
  b_GetInto := None;
  b_object key s := s !! key
|}.

Lemma foldr_delete_lookup (keys : list bytes) (s : mem) k :
  foldr delete s keys !! k = if decide (k ∈ keys) then None else s !! k.
Proof.
  induction keys as [|k' keys IH]; simpl.
  - done.
  - rewrite lookup_delete, IH. repeat case_decide; set_solver.
Qed.

#[global] Instance mem_backend_laws : BackendLaws mem.
Proof.
  split; simpl; unfold mem_Get, mem_Put, mem_Delete, mem_List.
  - intros key off n data s -> ???. by rewrite (proj2 (Z.ltb_ge _ _)) by lia.
  - intros key data s ->. done.
  - intros key off n s ->. done.
  - done.
  - done.
  - intros key data o s oi s' k. destruct (_ && _); [done|]. intros [= <- <-].
    rewrite lookup_insert. repeat case_decide; congruence.
  - intros key data o s e s' k. destruct (_ && _); [|done]. intros [= <- <-]. by left.
  - intros key data o s s'. destruct (IfAbsent o), (bool_decide _) eqn:E; try done.
    intros _. by apply bool_decide_eq_true in E.
  - intros keys s rs s' k [= <- <-]. split.
    { rewrite <- list_fmap_compose. apply list_fmap_id. }
    rewrite foldr_delete_lookup, list_elem_of_fmap. split; case_decide; naive_solver.
  - done.
  - intros prefix cursor limit s page oi [= <-]. simpl.
    rewrite list_elem_of_fmap. intros ([k d] & -> & Hin).
    apply list_elem_of_filter in Hin as [Hp Hin]. split; [done|].
    apply elem_of_map_to_list in Hin. by exists d.
Qed.

End MemBackend.

Section store_lemmas.
Context `{BackendLaws B}.

(** Either way of filling the buffer delivers the object's range. *)
Lemma GetInto_range key off n data (s : B) :
  b_object key s = Some data → 0 <= off → off + Z.of_nat n <= blen data →
  GetInto key off n s = Ok (slice off (Z.of_nat n) data).
Proof.
  intros Hobj Ho Hn. unfold GetInto.
  destruct (Nat.eqb_spec n 0) as [->|Hne]; [done|].
  destruct b_GetInto as [gi|] eqn:E; [by eapply b_GetInto_range|].
  erewrite b_Get_range by (done || lia).
  assert (length (slice off (Z.of_nat n) data) = n) as Hlen.
  { pose proof (blen_slice off (Z.of_nat n) data Ho) as Hb. unfold blen in *. lia. }
  rewrite ReadFull_full by (simpl; lia). simpl. by rewrite take_ge by lia.
Qed.

Lemma GetInto_length key off n (s : B) p :
  GetInto key off n s = Ok p → length p = n.
Proof.
  unfold GetInto. destruct (Nat.eqb_spec n 0) as [->|Hne]; [by intros [= <-]|].
  destruct b_GetInto as [gi|] eqn:E; [by apply (b_GetInto_full gi)|].
  destruct (b_Get key off (Z.of_nat n) s) as [rc|]; [|done].
  unfold ReadFull. destruct (Nat.leb_spec n (length (rd_data rc))).
  - intros [= <-]. rewrite length_take. lia.
  - destruct (rd_err rc); case_bool_decide; done.
Qed.

(** Without a device-aware backend a host destination of [n] bytes is filled
    with the range or nothing is reported as read, and device memory is never
    staged through host memory. *)
Lemma GetIntoDest_host key off d data (s : B) :
  b_object key s = Some data → 0 <= off → off + Dest_Len d <= blen data →
  GetIntoDest None key off d s =
    if IsDevice d then Err StoreErrNoDevice else Ok (slice off (Dest_Len d) data).
Proof.
  intros Hobj Ho Hn. unfold GetIntoDest, Dest_Bytes. unfold Dest_Len in *. destruct (IsDevice d); [done|].
  by apply GetInto_range.
Qed.

End store_lemmas.
