(* ===== verification/Pack.v ===== *)
(** pkg/pack: containers, locators and self-verifying fetches.

    A packer's state is its buffer and the entries recorded in it; sealing
    runs on the pair of the backend and the packer.  [crypto/rand] enters as
    the 16 random bytes of the new container's name. *)
From S2P Require Import Prelude Chunk Store.

Definition DefaultSealSize : Z := Z.shiftl 128 20.
Definition SingleObjectThreshold : Z := Z.shiftl 64 20.
Definition GDSAlignment : Z := 4096.

Record Locator := mkLocator { l_Container : bytes; l_Offset : Z; l_Length : Z }.

#[global] Instance Locator_eq_dec : EqDecision Locator.
Proof. solve_decision. Defined.

(** [fmt.Sprintf("atlas/c/%s/%s/%s", region, shard, id)]. *)
Definition containerKey (region shard id : bytes) : bytes :=
  str "atlas/c/" ++ region ++ str "/" ++ shard ++ str "/" ++ id.

(** [newContainerID], with the random bytes as argument. *)
Definition newContainerID (rnd : barray 16) : bytes := hex_encode (ba rnd).

(** The key a new container gets: sharded by the ID's first two digits. *)
Definition newContainerKey (region : bytes) (rnd : barray 16) : bytes :=
  let id := newContainerID rnd in containerKey region (take 2 id) id.

Record pendingEntry := mkPending { pe_id : ID; pe_offset : Z; pe_length : Z }.

Record Packer := mkPacker {
  p_region : bytes;
  p_sealSize : Z;
  p_align : Z;
  p_buf : bytes;
  p_pending : list pendingEntry
}.

Definition NewPacker (region : bytes) (sealSize : Z) : Packer :=
  mkPacker region (if sealSize <=? 0 then DefaultSealSize else sealSize) 0 [] [].

Definition SetAlignment (n : Z) (p : Packer) : Packer :=
  mkPacker (p_region p) (p_sealSize p) (if n <? 0 then 0 else n) (p_buf p) (p_pending p).

Definition Alignment (p : Packer) : Z := p_align p.

(** The buffer after the padding [Add] puts before a chunk. *)
Definition pad_buf (align : Z) (buf : bytes) : bytes :=
  if 1 <? align then
    let rem := blen buf mod align in
    if rem =? 0 then buf else buf ++ zeros (align - rem)
  else buf.

(** [Packer.Add]. *)
Definition Add (c : Chunk) (p : Packer) : Packer :=
  let buf := pad_buf (p_align p) (p_buf p) in
  let off := blen buf in
  mkPacker (p_region p) (p_sealSize p) (p_align p) (buf ++ c_Data c)
    (p_pending p ++ [mkPending (c_ID c) off (blen (c_Data c))]).

Definition Full (p : Packer) : bool := p_sealSize p <=? blen (p_buf p).
Definition Empty (p : Packer) : bool := blen (p_buf p) =? 0.
Definition PendingIDs (p : Packer) : list ID := pe_id <$> p_pending p.

(** The locator map of a sealed container: a later entry for the same chunk
    replaces an earlier one. *)
Definition seal_locators (key : bytes) (pending : list pendingEntry) : gmap ID Locator :=
  foldl (λ out e, <[pe_id e := mkLocator key (pe_offset e) (pe_length e)]> out) ∅ pending.

Section pack.
Context `{BackendOps B} {blake3 : Blake3}.

(** [Packer.Seal]. *)
Definition Seal (rnd : barray 16) : M (B * Packer) (gmap ID Locator) := λ '(s, p),
  if blen (p_buf p) =? 0 then (Ok ∅, (s, p))
  else
    let key := newContainerKey (p_region p) rnd in
    match b_Put key (p_buf p) (mkPutOpts false) s with
    | (Err e, s') => (Err e, (s', p))
    | (Ok _, s') =>
        (Ok (seal_locators key (p_pending p)),
         (s', mkPacker (p_region p) (p_sealSize p) (p_align p) [] []))
    end.

(** [PutSingleObject]. *)
Definition PutSingleObject (region : bytes) (c : Chunk) (rnd : barray 16) : M B Locator :=
  let key := newContainerKey region rnd in
  _ ← b_Put key (c_Data c) (mkPutOpts false);
  mret (mkLocator key 0 (blen (c_Data c))).

(** [FetchInto] with a buffer of [n] bytes: the buffer afterwards. *)
Definition FetchInto (id : ID) (loc : Locator) (n : nat) (s : B) : result bytes :=
  if negb (Z.of_nat n =? l_Length loc) then Err PackErrBufferLen
  else match GetInto (l_Container loc) (l_Offset loc) n s with
       | Err e => Err e
       | Ok p => if bool_decide (Sum p = id) then Ok p else Err PackErrVerification
       end.

(** [Fetch]. *)
Definition Fetch (id : ID) (loc : Locator) (s : B) : result bytes :=
  match b_Get (l_Container loc) (l_Offset loc) (l_Length loc) s with
  | Err e => Err e
  | Ok rc =>
      match ReadAll rc with
      | Err e => Err e
      | Ok data =>
          if negb (blen data =? l_Length loc) then Err PackErrShortRead
          else if bool_decide (Sum data = id) then Ok data
          else Err PackErrVerification
      end
  end.

(** What a locator addresses: a range of a stored object. *)
Definition stored_at (loc : Locator) (data : bytes) (s : B) : Prop :=
  ∃ obj, b_object (l_Container loc) s = Some obj ∧
    0 <= l_Offset loc ∧ l_Length loc = blen data ∧
    l_Offset loc + l_Length loc <= blen obj ∧
    slice (l_Offset loc) (l_Length loc) obj = data.

(** Entry [e] of a packer addresses chunk [c] in its buffer. *)
Definition entry_for (buf : bytes) (e : pendingEntry) (c : Chunk) : Prop :=
  pe_id e = c_ID c ∧ pe_length e = blen (c_Data c) ∧ 0 <= pe_offset e ∧
  pe_offset e + pe_length e <= blen buf ∧
  slice (pe_offset e) (pe_length e) buf = c_Data c.

(** The packer holds the chunks [cs], in order. *)
Definition packed (p : Packer) (cs : list Chunk) : Prop :=
  Forall2 (entry_for (p_buf p)) (p_pending p) cs.

(** Chunks named by their own hash. *)
Definition named (c : Chunk) : Prop := c_ID c = Sum (c_Data c).

(** Adding a list of chunks, in order. *)
Definition Adds (cs : list Chunk) (p : Packer) : Packer := foldl (λ p c, Add c p) p cs.

End pack.

(** Entries lie inside the buffer, start on the alignment and do not
    overlap. *)
Definition layout_ok (align : Z) (buf : bytes) (pending : list pendingEntry) : Prop :=
  Forall (λ e, 0 <= pe_offset e ∧ 0 <= pe_length e ∧
               pe_offset e + pe_length e <= blen buf ∧
               (1 < align → pe_offset e mod align = 0)) pending ∧
  StronglySorted (λ a b, pe_offset a + pe_length a <= pe_offset b) pending.

(** * Lemmas on the packer *)

Lemma pad_buf_app align buf : ∃ z, pad_buf align buf = buf ++ z.
Proof.
  unfold pad_buf. destruct (1 <? align); [|exists []; by rewrite app_nil_r].
  destruct (_ =? 0); [exists []; by rewrite app_nil_r|]. by eexists.
Qed.

Lemma pad_buf_aligned align buf : 1 < align → blen (pad_buf align buf) mod align = 0.
Proof.
  intros Ha. unfold pad_buf. rewrite (proj2 (Z.ltb_lt _ _)) by done.
  destruct (Z.eqb_spec (blen buf mod align) 0) as [E|E]; [done|].
  pose proof (Z.mod_pos_bound (blen buf) align).
  rewrite blen_app, blen_zeros by lia.
  rewrite (Z.div_mod (blen buf) align) at 1 by lia.
  replace (align * (blen buf / align) + blen buf mod align + (align - blen buf mod align))
    with ((blen buf / align + 1) * align) by lia.
  apply Z.mod_mul. lia.
Qed.

Lemma entry_for_app buf z e c : entry_for buf e c → entry_for (buf ++ z) e c.
Proof.
  intros (? & ? & ? & ? & E). unfold entry_for. pose proof (blen_nonneg z).
  rewrite blen_app. split_and!; try done; try lia. by rewrite slice_app_l.
Qed.

Lemma packed_Add p cs c : packed p cs → packed (Add c p) (cs ++ [c]).
Proof.
  intros Hp. unfold packed, Add. simpl.
  destruct (pad_buf_app (p_align p) (p_buf p)) as [z Hz].
  pose proof (blen_nonneg (c_Data c)).
  pose proof (blen_nonneg (pad_buf (p_align p) (p_buf p))).
  apply Forall2_app.
  - eapply Forall2_impl; [exact Hp|]. intros e c' He.
    rewrite Hz, <- app_assoc. by apply entry_for_app.
  - constructor; [|constructor]. unfold entry_for. simpl.
    rewrite blen_app. split_and!; try done; try lia. by apply slice_app_r.
Qed.

Lemma packed_Adds p cs cs' : packed p cs → packed (Adds cs' p) (cs ++ cs').
Proof.
  revert p cs. induction cs' as [|c cs' IH]; intros p cs Hp; simpl.
  - by rewrite app_nil_r.
  - apply (packed_Add _ _ c) in Hp. apply IH in Hp. by rewrite <- app_assoc in Hp.
Qed.

Lemma packed_New region sz : packed (NewPacker region sz) [].
Proof. constructor. Qed.

(** Every locator of a sealed container comes from one of its entries. *)
Lemma seal_locators_in key pending id loc :
  seal_locators key pending !! id = Some loc →
  ∃ e, e ∈ pending ∧ pe_id e = id ∧ loc = mkLocator key (pe_offset e) (pe_length e).
Proof.
  unfold seal_locators. induction pending as [|e pending IH] using rev_ind; [done|].
  rewrite foldl_app. simpl. rewrite lookup_insert. case_decide as E.
  - intros [= <-]. exists e. set_solver.
  - intros (e' & ? & ? & ?)%IH. exists e'. set_solver.
Qed.

Lemma seal_locators_dom key pending e :
  e ∈ pending → is_Some (seal_locators key pending !! pe_id e).
Proof.
  unfold seal_locators. induction pending as [|e' pending IH] using rev_ind.
  { by intros ?%not_elem_of_nil. }
  rewrite foldl_app. simpl. rewrite lookup_insert.
  rewrite elem_of_app, list_elem_of_singleton. case_decide; [by eauto|].
  intros [?| ->]; [by apply IH|done].
Qed.

Lemma containerKey_inj region s1 s2 i1 i2 :
  length s1 = length s2 →
  containerKey region s1 i1 = containerKey region s2 i2 → s1 = s2 ∧ i1 = i2.
Proof.
  unfold containerKey. intros Hl E.
  apply (inj (app (str "atlas/c/"))), (inj (app region)), (inj (app (str "/"))) in E.
  apply app_inj_1 in E as [-> E]; [|done]. by apply (inj (app (str "/"))) in E.
Qed.

(** Different random names make different container keys. *)
Lemma newContainerKey_inj region r r' :
  newContainerKey region r = newContainerKey region r' → r = r'.
Proof.
  unfold newContainerKey, newContainerID. intros E. apply containerKey_inj in E as [_ E].
  - apply barray_eq. by apply hex_encode_inj.
  - rewrite !length_take, !length_hex_encode, !barray_length. done.
Qed.

Lemma StronglySorted_snoc {A} (R : A → A → Prop) l x :
  StronglySorted R l → Forall (λ y, R y x) l → StronglySorted R (l ++ [x]).
Proof.
  induction 1 as [|y l Hs IH Hy]; intros Hx; simpl.
  - repeat constructor.
  - apply Forall_cons in Hx as [? ?]. constructor; [auto|].
    apply Forall_app. split; [done|]. by constructor.
Qed.

Lemma layout_Add p c :
  layout_ok (p_align p) (p_buf p) (p_pending p) →
  layout_ok (p_align (Add c p)) (p_buf (Add c p)) (p_pending (Add c p)).
Proof.
  intros [Hin Hs]. unfold Add. simpl.
  destruct (pad_buf_app (p_align p) (p_buf p)) as [z Hz].
  pose proof (blen_nonneg (c_Data c)). pose proof (blen_nonneg z).
  pose proof (blen_nonneg (p_buf p)).
  split.
  - apply Forall_app. split.
    + eapply Forall_impl; [exact Hin|]. intros e (? & ? & ? & ?).
      rewrite Hz, !blen_app. split_and!; try done; lia.
    + constructor; [|constructor]. simpl. rewrite blen_app.
      pose proof (blen_nonneg (pad_buf (p_align p) (p_buf p))).
      split_and!; try lia. apply pad_buf_aligned.
  - apply StronglySorted_snoc; [done|]. eapply Forall_impl; [exact Hin|].
    intros e (? & ? & ? & ?). simpl. rewrite Hz, blen_app. lia.
Qed.

Section pack_lemmas.
Context `{BackendLaws B} {blake3 : Blake3}.

Lemma Fetch_stored id loc data (s : B) :
  stored_at loc data s → data ≠ [] → Sum data = id → Fetch id loc s = Ok data.
Proof.
  intros (obj & Hobj & Ho & Hl & Hr & Hs) Hne Hid. unfold Fetch.
  assert (0 < blen data) by (destruct data; [done|unfold blen; cbn; lia]).
  rewrite (b_Get_range _ _ _ obj) by (done || lia). simpl.
  rewrite Hs, Hl, Z.eqb_refl. simpl. by rewrite bool_decide_true.
Qed.

Lemma FetchInto_stored id loc data (s : B) :
  stored_at loc data s → Sum data = id → FetchInto id loc (length data) s = Ok data.
Proof.
  intros (obj & Hobj & Ho & Hl & Hr & Hs) Hid. unfold FetchInto.
  rewrite Hl. fold (blen data). rewrite Z.eqb_refl. simpl.
  rewrite (GetInto_range _ _ _ obj) by (done || (unfold blen in *; lia)).
  fold (blen data). rewrite <- Hl, Hs. by rewrite bool_decide_true.
Qed.

(** What [FetchInto] and [Fetch] return has been verified. *)
Lemma Fetch_verified id loc (s : B) data :
  Fetch id loc s = Ok data → Sum data = id ∧ blen data = l_Length loc.
Proof.
  unfold Fetch. destruct (b_Get _ _ _ s); [|done]. destruct (ReadAll _); [|done].
  destruct (Z.eqb_spec (blen a0) (l_Length loc)); simpl; [|done].
  case_bool_decide; [|done]. intros [= <-]. done.
Qed.

Lemma FetchInto_verified id loc n (s : B) p :
  FetchInto id loc n s = Ok p → Sum p = id ∧ Z.of_nat n = l_Length loc.
Proof.
  unfold FetchInto. destruct (Z.eqb_spec (Z.of_nat n) (l_Length loc)); simpl; [|done].
  destruct (GetInto _ _ _ s); [|done]. case_bool_decide; [|done]. by intros [= <-].
Qed.

Lemma Seal_run rnd (s : B) p locs s' p' :
  Seal rnd (s, p) = (Ok locs, (s', p')) →
  (p_buf p = [] ∧ locs = ∅ ∧ s' = s ∧ p' = p) ∨
  (p_buf p ≠ [] ∧
   locs = seal_locators (newContainerKey (p_region p) rnd) (p_pending p) ∧
   (∃ oi, b_Put (newContainerKey (p_region p) rnd) (p_buf p) (mkPutOpts false) s
          = (Ok oi, s')) ∧
   p' = mkPacker (p_region p) (p_sealSize p) (p_align p) [] []).
Proof.
  unfold Seal. destruct (Z.eqb_spec (blen (p_buf p)) 0) as [E|E].
  - intros [= <- <- <-]. left. split_and!; try done.
    unfold blen in E. destruct (p_buf p); [done|]. simpl in E. lia.
  - destruct (b_Put _ _ _ s) as [[oi|e] s1] eqn:Hput; [|done].
    intros [= <- <- <-]. right. split_and!; try done; [|by eauto].
    intros Hnil. by rewrite Hnil in E.
Qed.

(** C38: chunks named by their hash are [Add]ed one after another to a new
    packer of any alignment, one of them not empty, and [Seal] succeeds.  The
    locators it returns address exactly these chunks: fetching any of them,
    into a buffer or, when it is not empty, as a stream, gives back the
    chunk's bytes, every added chunk has a locator, and the packer is empty
    again. *)
Theorem Seal_Fetch rnd (s : B) region sealSize align cs locs s' p' :
  Forall named cs → Exists (λ c, c_Data c ≠ []) cs →
  Seal rnd (s, Adds cs (SetAlignment align (NewPacker region sealSize))) = (Ok locs, (s', p')) →
  (∀ id loc, locs !! id = Some loc →
     ∃ c, c ∈ cs ∧ c_ID c = id ∧ (c_Data c ≠ [] → Fetch id loc s' = Ok (c_Data c)) ∧
       FetchInto id loc (length (c_Data c)) s' = Ok (c_Data c)) ∧
  (∀ c, c ∈ cs → is_Some (locs !! c_ID c)) ∧
  p_buf p' = [] ∧ p_pending p' = [].
Proof.
  intros Hcs Hsome Hseal. pose proof (packed_Adds (SetAlignment align (NewPacker region sealSize)) [] cs (packed_New _ _)) as Hp.
  set (p := Adds cs _) in *. cbn [app] in Hp.
  assert (p_buf p ≠ []) as Hne.
  { intros Hnil. apply Exists_exists in Hsome as (c & [i Hc]%list_elem_of_lookup & Hd).
    destruct (Forall2_lookup_r _ _ _ _ _ Hp Hc) as (e & _ & _ & _ & _ & _ & Hs). apply Hd. rewrite <- Hs, Hnil.
    unfold slice. by rewrite drop_nil, take_nil. }
  apply Seal_run in Hseal as [(? & _)|(_ & -> & [oi Hput] & ->)]; [done|].
  split_and!; [| |done|done].
  - intros id loc Hloc.
    apply seal_locators_in in Hloc as (e & He & <- & ->).
    apply list_elem_of_lookup in He as [i He].
    destruct (Forall2_lookup_l _ _ _ _ _ Hp He) as (c & Hc & Hid & Hlen & Ho & Hr & Hs).
    exists c. apply list_elem_of_lookup_2 in Hc. split; [done|]. split; [done|].
    assert (Sum (c_Data c) = pe_id e) by (rewrite Forall_forall in Hcs; rewrite Hid; symmetry; by apply Hcs).
    match goal with |- (_ → Fetch _ ?loc _ = _) ∧ _ => assert (stored_at loc (c_Data c) s') as Hst end.
    { exists (p_buf p). simpl. rewrite (b_Put_ok _ _ _ _ _ _ _ Hput).
      rewrite decide_True by done. split_and!; done. }
    split; [intros ?; by apply Fetch_stored|by apply FetchInto_stored].
  - intros c Hc. apply list_elem_of_lookup in Hc as [i Hc].
    destruct (Forall2_lookup_r _ _ _ _ _ Hp Hc) as (e & He & Hid & _).
    rewrite <- Hid. apply seal_locators_dom. by eapply list_elem_of_lookup_2.
Qed.

(** A read is self-verifying: whatever the backend serves, bytes that
    [Fetch] or [FetchInto] return hash to the chunk asked for and have the
    locator's length; so if no other string has that hash they are the
    chunk. *)
Theorem Fetch_self_verifying id loc (s : B) (data : bytes) :
  (Fetch id loc s = Ok data ∨ FetchInto id loc (length data) s = Ok data) →
  Sum data = id ∧ blen data = l_Length loc ∧
  (∀ orig, Sum orig = id → (∀ d, Sum d = Sum orig → d = orig) → data = orig).
Proof.
  intros [E|E].
  - apply Fetch_verified in E as [? ?]. split_and!; try done.
    intros orig Ho Hinj. apply Hinj. congruence.
  - apply FetchInto_verified in E as [? ?]. split_and!; try done.
    intros orig Ho Hinj. apply Hinj. congruence.
Qed.

End pack_lemmas.

Lemma p_align_Adds cs p : p_align (Adds cs p) = p_align p.
Proof.
  revert p. induction cs as [|c cs IH]; intros p; [done|]. simpl. by rewrite IH.
Qed.

Lemma layout_Adds cs p :
  layout_ok (p_align p) (p_buf p) (p_pending p) →
  layout_ok (p_align p) (p_buf (Adds cs p)) (p_pending (Adds cs p)).
Proof.
  revert p. induction cs as [|c cs IH]; intros p Hp; [done|]. simpl.
  by apply (IH (Add c p)), layout_Add.
Qed.

(** A container filled by [Add] under alignment [n] holds every chunk
    it was given; each one lies inside the buffer, starts on a multiple of
    [n] when [n] is more than one byte, and none overlaps the next. *)
Theorem container_layout region sz n cs :
  let p := Adds cs (SetAlignment n (NewPacker region sz)) in
  layout_ok n (p_buf p) (p_pending p) ∧ packed p cs.
Proof.
  split.
  - pose proof (layout_Adds cs (SetAlignment n (NewPacker region sz))) as [Hin Hs].
    { split; constructor. }
    split; [|done]. simpl in Hin. destruct (Z.ltb_spec n 0); [|done].
    eapply Forall_impl; [exact Hin|]. intros e (? & ? & ? & _).
    split_and!; try done. lia.
  - apply (packed_Adds _ []). constructor.
Qed.

Section examples.
Import MemBackend.
Local Existing Instance pad_hash.

Definition sample_chunks : list Chunk := chunk_of <$> [str "hello"; str "world!"].
Definition sample_rnd : barray 16 := @BArray 16 (replicate 16 x07) eq_refl.
Definition sample_packer : Packer :=
  Adds sample_chunks (SetAlignment 4 (NewPacker (str "local") 0)).

Lemma Seal_Fetch_witness :
  p_buf sample_packer ≠ [] ∧
  ∃ locs s' p',
    Seal sample_rnd (∅ : mem, sample_packer) = (Ok locs, (s', p')) ∧
    (∀ id loc, locs !! id = Some loc →
       ∃ c, c ∈ sample_chunks ∧ c_ID c = id ∧ (c_Data c ≠ [] → Fetch id loc s' = Ok (c_Data c)) ∧
         FetchInto id loc (length (c_Data c)) s' = Ok (c_Data c)).
Proof.
  assert (Forall named sample_chunks) as Hn by (repeat constructor).
  assert (p_buf sample_packer ≠ []) as Hb by (vm_compute; discriminate).
  split; [exact Hb|].
  destruct (Seal sample_rnd (∅ : mem, sample_packer)) as [[locs|e] [s' p']] eqn:E.
  - exists locs, s', p'. split; [reflexivity|].
    apply (Seal_Fetch sample_rnd ∅ (str "local") 0 4 sample_chunks locs s' p' Hn); [|exact E].
    by constructor.
  - exfalso.
    assert (is_ok (Seal sample_rnd (∅ : mem, sample_packer)).1 = true) as E2
      by (vm_compute; reflexivity).
    rewrite E in E2. discriminate E2.
Defined.

Lemma Fetch_self_verifying_witness :
  let s := ({[str "k" := str "hello"]} : mem) in
  Fetch (Sum (str "ell")) (mkLocator (str "k") 1 3) s = Ok (str "ell") ∧
  Sum (str "ell") = Sum (str "ell") ∧ blen (str "ell") = 3.
Proof.
  intros s.
  assert (Fetch (Sum (str "ell")) (mkLocator (str "k") 1 3) s = Ok (str "ell")) as E
    by (vm_compute; reflexivity).
  split; [exact E|].
  destruct (Fetch_self_verifying _ _ s _ (or_introl E)) as (H1 & H2 & _).
  split; [exact H1 | exact H2].
Defined.

End examples.
