(* ===== verification/MetaDB.v ===== *)
(** pkg/metadb: the metadata store.

    The state [DB] is the eight buckets the package opens in its bbolt file.
    Keys are the byte strings the code builds; values are kept decoded where
    the code stores a gob (whose round trip is the standard library's
    business) and as bytes where the code packs them itself.  A function that
    takes a [*bbolt.Tx] and writes is a computation in [M DB]; one that only
    reads is a function of [DB]; a method of [DB] wraps the former in
    [bolt_update].  Clock readings ([time.Now]), the process's uid and gid
    and a deletion time are arguments; the readings within one call are not
    told apart.  This file holds the definitions; MetaSpec says what they
    promise, MetaRefine, MetaTree, MetaInv and MetaThm prove it. *)
From S2P Require Import Prelude Bolt Chunk Pack.

(** [InodeID]. *)
Abbreviation InodeID := word64.

Definition RootInode : InodeID := Word64 1 eq_refl.

Definition MaxNameLen : Z := 255.

(** The octal modes [0o755], [0o777], [0o7777] and [0o6000]. *)
Definition mode_755 : Z := 493.
Definition mode_777 : Z := 511.
Definition mode_7777 : Z := 4095.
Definition mode_6000 : Z := 3072.

(** [checkName]. *)
Definition checkName (name : bytes) : result unit :=
  if MaxNameLen <? blen name then Err ErrNameTooLong else Ok tt.

Definition zeroID : barray 32 := @BArray 32 (replicate 32 x00) eq_refl.

Record InodeRecord := mkInode {
  IsDir : bool;
  Mode : Z;
  Uid : Z;
  Gid : Z;
  Size : Z;
  MTime : time;
  ATime : time;
  CTime : time;
  NLink : Z;
  HasManifest : bool;
  ManifestID : barray 32;
  HasInline : bool;
  InlineChunk : ID;
  Type_ : Z;
  Rdev : Z;
  IsSymlink : bool;
  SymlinkTarget : bytes
}.

#[global] Instance InodeRecord_eq_dec : EqDecision InodeRecord.
Proof. solve_decision. Defined.

(** Assignments to the fields the code updates. *)
Definition set_NLink (n : Z) (r : InodeRecord) : InodeRecord :=
  mkInode
    (IsDir r) (Mode r) (Uid r) (Gid r) (Size r) (MTime r) (ATime r) (CTime r) n
    (HasManifest r) (ManifestID r) (HasInline r) (InlineChunk r) (Type_ r) (Rdev r)
    (IsSymlink r) (SymlinkTarget r).

Definition set_CTime (t : time) (r : InodeRecord) : InodeRecord :=
  mkInode
    (IsDir r) (Mode r) (Uid r) (Gid r) (Size r) (MTime r) (ATime r) t (NLink r)
    (HasManifest r) (ManifestID r) (HasInline r) (InlineChunk r) (Type_ r) (Rdev r)
    (IsSymlink r) (SymlinkTarget r).

Definition set_MTime (t : time) (r : InodeRecord) : InodeRecord :=
  mkInode
    (IsDir r) (Mode r) (Uid r) (Gid r) (Size r) t (ATime r) (CTime r) (NLink r)
    (HasManifest r) (ManifestID r) (HasInline r) (InlineChunk r) (Type_ r) (Rdev r)
    (IsSymlink r) (SymlinkTarget r).

Definition set_ATime (t : time) (r : InodeRecord) : InodeRecord :=
  mkInode
    (IsDir r) (Mode r) (Uid r) (Gid r) (Size r) (MTime r) t (CTime r) (NLink r)
    (HasManifest r) (ManifestID r) (HasInline r) (InlineChunk r) (Type_ r) (Rdev r)
    (IsSymlink r) (SymlinkTarget r).

Definition set_Mode (m : Z) (r : InodeRecord) : InodeRecord :=
  mkInode
    (IsDir r) m (Uid r) (Gid r) (Size r) (MTime r) (ATime r) (CTime r) (NLink r)
    (HasManifest r) (ManifestID r) (HasInline r) (InlineChunk r) (Type_ r) (Rdev r)
    (IsSymlink r) (SymlinkTarget r).

Definition set_Uid (u : Z) (r : InodeRecord) : InodeRecord :=
  mkInode
    (IsDir r) (Mode r) u (Gid r) (Size r) (MTime r) (ATime r) (CTime r) (NLink r)
    (HasManifest r) (ManifestID r) (HasInline r) (InlineChunk r) (Type_ r) (Rdev r)
    (IsSymlink r) (SymlinkTarget r).

Definition set_Gid (g : Z) (r : InodeRecord) : InodeRecord :=
  mkInode
    (IsDir r) (Mode r) (Uid r) g (Size r) (MTime r) (ATime r) (CTime r) (NLink r)
    (HasManifest r) (ManifestID r) (HasInline r) (InlineChunk r) (Type_ r) (Rdev r)
    (IsSymlink r) (SymlinkTarget r).

Definition set_content (size : Z) (hasM : bool) (mid : barray 32) (hasI : bool) (iid : ID) (r : InodeRecord) : InodeRecord :=
  mkInode
    (IsDir r) (Mode r) (Uid r) (Gid r) size (MTime r) (ATime r) (CTime r) (NLink r)
    hasM mid hasI iid (Type_ r) (Rdev r) (IsSymlink r) (SymlinkTarget r).

(** [InodeRecord{IsDir: true, Mode: mode, Uid: uid, Gid: gid, MTime: now,
    NLink: 2}]: how the code builds every new directory. *)
Definition dir_record (mode uid gid : Z) (now : time) : InodeRecord :=
  mkInode true mode uid gid 0 now zero_time zero_time 2 false zeroID false zeroID
    0 0 false [].

(** [InodeRecord{Mode: mode, Uid: uid, Gid: gid, MTime: now, NLink: 1}]. *)
Definition file_record (mode uid gid : Z) (now : time) : InodeRecord :=
  mkInode false mode uid gid 0 now zero_time zero_time 1 false zeroID false zeroID
    0 0 false [].

(** [InodeRecord.Atime] and [InodeRecord.Ctime]. *)
Definition Atime (r : InodeRecord) : time := if IsZero (ATime r) then MTime r else ATime r.
Definition Ctime (r : InodeRecord) : time := if IsZero (CTime r) then MTime r else CTime r.

Record DirEntry := mkDirEntry { de_Name : bytes; de_Inode : InodeID }.

Record quotaRecord := mkQuota {
  BytesUsed : Z; InodesUsed : Z;
  BytesLimit : Z; InodesLimit : Z   (** 0 means unlimited *)
}.

Record GraveyardEntry := mkGrave { ge_InodeID : InodeID; ge_DeletedAt : time }.

Record LocatorEntry := mkLocEntry { le_ChunkID : ID; le_Locator : Locator }.

Record DeadContainer := mkDead { dc_Key : bytes; dc_RetiredAt : time }.

Record AttrMutation := mkMut {
  mut_Mode : option Z; mut_Uid : option Z; mut_Gid : option Z;
  mut_MTime : option time; mut_ATime : option time
}.

(** * Keys *)

Definition inodeKey (id : InodeID) : bytes := be 8 (w64 id).

(** [InodeID(binary.BigEndian.Uint64(v))]; the values and keys the code
    decodes this way are at least eight bytes long. *)
Definition getID (v : bytes) : InodeID := word64_of_Z (unbe (take 8 v)).

Definition dentryPrefix (dir : InodeID) : bytes := be 8 (w64 dir) ++ [x00].
Definition dentryKey (dir : InodeID) (name : bytes) : bytes := be 8 (w64 dir) ++ [x00] ++ name.
Definition locatorKey (region : bytes) (id : ID) : bytes := region ++ [x00] ++ ba id.
Definition graveyardKey (deletedAt : time) (id : InodeID) : bytes :=
  be 8 (u64 (UnixNano deletedAt)) ++ be 8 (w64 id).
Definition quotaKeyRoot : bytes := str "root".
Definition metaKeyClass : bytes := str "class".
Definition metaKeyChunkSize : bytes := str "chunk_size".

(** * Quota arithmetic *)

(** [addDelta]. *)
Definition addDelta (u delta : Z) : Z :=
  if 0 <=? delta then u64 (u + u64 delta)
  else let dec := u64 (i64 (- delta)) in
       if u <? dec then 0 else u - dec.

(** [checkQuota]. *)
Definition checkQuota (q : quotaRecord) (byteDelta inodeDelta : Z) : result unit :=
  if (0 <? BytesLimit q) && (0 <? byteDelta)
     && (BytesLimit q <? addDelta (BytesUsed q) byteDelta) then Err ErrQuotaExceeded
  else if (0 <? InodesLimit q) && (0 <? inodeDelta)
     && (InodesLimit q <? addDelta (InodesUsed q) inodeDelta) then Err ErrQuotaExceeded
  else Ok tt.

(** * The database *)

Section metadb.
Context {bucket : Type → Type} `{BoltOps bucket}.

Record DB := mkDB {
  bDentry : bucket bytes;
  bInode : bucket InodeRecord;
  bLocator : bucket Locator;
  bMeta : bucket bytes;
  bQuota : bucket quotaRecord;
  bGravey : bucket bytes;
  bDeadCnt : bucket time;
  bContainer : bucket time
}.

Definition on_dentry (f : bucket bytes → bucket bytes) (d : DB) : DB :=
  mkDB (f (bDentry d)) (bInode d) (bLocator d) (bMeta d) (bQuota d) (bGravey d)
    (bDeadCnt d) (bContainer d).
Definition on_inode (f : bucket InodeRecord → bucket InodeRecord) (d : DB) : DB :=
  mkDB (bDentry d) (f (bInode d)) (bLocator d) (bMeta d) (bQuota d) (bGravey d)
    (bDeadCnt d) (bContainer d).
Definition on_locator (f : bucket Locator → bucket Locator) (d : DB) : DB :=
  mkDB (bDentry d) (bInode d) (f (bLocator d)) (bMeta d) (bQuota d) (bGravey d)
    (bDeadCnt d) (bContainer d).
Definition on_meta (f : bucket bytes → bucket bytes) (d : DB) : DB :=
  mkDB (bDentry d) (bInode d) (bLocator d) (f (bMeta d)) (bQuota d) (bGravey d)
    (bDeadCnt d) (bContainer d).
Definition on_quota (f : bucket quotaRecord → bucket quotaRecord) (d : DB) : DB :=
  mkDB (bDentry d) (bInode d) (bLocator d) (bMeta d) (f (bQuota d)) (bGravey d)
    (bDeadCnt d) (bContainer d).
Definition on_gravey (f : bucket bytes → bucket bytes) (d : DB) : DB :=
  mkDB (bDentry d) (bInode d) (bLocator d) (bMeta d) (bQuota d) (f (bGravey d))
    (bDeadCnt d) (bContainer d).
Definition on_deadcnt (f : bucket time → bucket time) (d : DB) : DB :=
  mkDB (bDentry d) (bInode d) (bLocator d) (bMeta d) (bQuota d) (bGravey d)
    (f (bDeadCnt d)) (bContainer d).
Definition on_container (f : bucket time → bucket time) (d : DB) : DB :=
  mkDB (bDentry d) (bInode d) (bLocator d) (bMeta d) (bQuota d) (bGravey d)
    (bDeadCnt d) (f (bContainer d)).

(** [DB.View]: a function of the store that returns a value or an error. *)
Definition View {A} (f : DB → result A) : M DB A := λ d, (f d, d).

(** ** Reads *)

Definition getInodeTx (id : InodeID) (tx : DB) : result InodeRecord :=
  match bk_get (inodeKey id) (bInode tx) with
  | None => Err ErrNotFound
  | Some rec => Ok rec
  end.

Definition lookupTx (dir : InodeID) (name : bytes) (tx : DB) : result InodeID :=
  match bk_get (dentryKey dir name) (bDentry tx) with
  | None => Err ErrNotFound
  | Some v => Ok (getID v)
  end.

Definition readdirTx (dir : InodeID) (tx : DB) : list DirEntry :=
  (λ kv, mkDirEntry (drop 9 kv.1) (getID kv.2)) <$> bk_scan (dentryPrefix dir) (bDentry tx).

(** The first binding, in key order, that points at [child]. *)
Fixpoint first_parent (child : InodeID) (l : list (bytes * bytes)) : result InodeID :=
  match l with
  | [] => Err ErrNotFound
  | (k, v) :: l' => if bool_decide (getID v = child) then Ok (getID k) else first_parent child l'
  end.

Definition parentOfTx (child : InodeID) (tx : DB) : result InodeID :=
  first_parent child (bk_cursor (bDentry tx)).

(** The loop of [checkNotDescendantTx], with a bound on its iterations. *)
Fixpoint walk_up (fuel : nat) (ancestor cur : InodeID) (tx : DB) : result unit :=
  match fuel with
  | O => Err ErrOutOfFuel
  | S fuel' =>
      if bool_decide (cur = RootInode) then Ok tt
      else if bool_decide (cur = ancestor) then Err ErrInvalidRename
      else match parentOfTx cur tx with
           | Err _ => Ok tt
           | Ok parent =>
               if bool_decide (parent = cur) then Ok tt
               else walk_up fuel' ancestor parent tx
           end
  end.

(** A chain of distinct directories is no longer than the number of
    bindings, plus one for the root's own test. *)
Definition walk_fuel (tx : DB) : nat := S (S (length (bk_cursor (bDentry tx)))).

Definition checkNotDescendantTx (ancestor start : InodeID) (tx : DB) : result unit :=
  walk_up (walk_fuel tx) ancestor start tx.

Definition getQuotaTx (tx : DB) : quotaRecord :=
  match bk_get quotaKeyRoot (bQuota tx) with
  | None => mkQuota 0 0 0 0
  | Some q => q
  end.

(** ** Writes inside a transaction *)

Definition putInode (id : InodeID) (rec : InodeRecord) : M DB unit :=
  modify (on_inode (bk_put (inodeKey id) rec)).

Definition putQuotaTx (q : quotaRecord) : M DB unit :=
  modify (on_quota (bk_put quotaKeyRoot q)).

Definition adjustDirLinksTx (dir : InodeID) (delta : Z) : M DB unit :=
  rec ← View (getInodeTx dir);
  if negb (IsDir rec) then mret tt
  else
    let n := i32 (i32 (NLink rec) + delta) in
    let n := if n <? 2 then 2 else n in
    putInode dir (set_NLink (u32 n) rec).

Definition touchDirTx (dir : InodeID) (now : time) : M DB unit :=
  rec ← View (getInodeTx dir);
  putInode dir (set_CTime now (set_MTime now rec)).

Definition setDentryTx (dir : InodeID) (name : bytes) (child : InodeID) (now : time) :
    M DB unit :=
  of_result (checkName name) ≫= λ _,
  touchDirTx dir now ≫= λ _,
  modify (on_dentry (bk_put (dentryKey dir name) (be 8 (w64 child)))).

Definition deleteDentryTx (dir : InodeID) (name : bytes) : M DB unit :=
  modify (on_dentry (bk_delete (dentryKey dir name))).

Definition advanceSeqTo (n : Z) : M DB unit := λ tx,
  let cur := bk_sequence (bMeta tx) in
  if cur <? n then modify (on_meta (bk_set_sequence n)) tx else (Ok tt, tx).

(** [Bucket.NextSequence] adds one to the counter and returns it. *)
Definition allocInodeTx : M DB InodeID := λ tx,
  let n := u64 (bk_sequence (bMeta tx) + 1) in
  (Ok (word64_of_Z n), on_meta (bk_set_sequence n) tx).

Definition applyQuotaDeltaTx (byteDelta inodeDelta : Z) : M DB unit :=
  q ← gets getQuotaTx;
  of_result (checkQuota q byteDelta inodeDelta) ≫= λ _,
  putQuotaTx (mkQuota (addDelta (BytesUsed q) byteDelta) (addDelta (InodesUsed q) inodeDelta)
                (BytesLimit q) (InodesLimit q)).

Definition addToGraveyardTx (id : InodeID) (deletedAt : time) : M DB unit :=
  modify (on_gravey (bk_put (graveyardKey deletedAt id) [])).

Definition dropLinkTx (id : InodeID) (rec : InodeRecord) (deletedAt : time) : M DB unit :=
  if negb (IsDir rec) && (1 <? NLink rec) then
    putInode id (set_CTime deletedAt (set_NLink (u32 (NLink rec - 1)) rec))
  else
    applyQuotaDeltaTx (i64 (- i64 (Size rec))) (-1) ≫= λ _,
    putInode id (set_CTime deletedAt (set_NLink 0 rec)) ≫= λ _,
    addToGraveyardTx id deletedAt.

(** [dirRec.IsDir], read inside a transaction. *)
Definition requireDir (dir : InodeID) : M DB unit :=
  rec ← View (getInodeTx dir);
  if IsDir rec then mret tt else throw ErrNotDir.

(** [if _, err := lookupTx(...); err == nil { return ErrExists } else if
    !errors.Is(err, ErrNotFound) { return err }]. *)
Definition requireAbsent (dir : InodeID) (name : bytes) : M DB unit :=
  r ← attempt (View (lookupTx dir name));
  match r with
  | Ok _ => throw ErrExists
  | Err e => if bool_decide (e = ErrNotFound) then mret tt else throw e
  end.

(** ** Methods: the root, inode records and sequence numbers *)

Definition GetInode (id : InodeID) : M DB InodeRecord := View (getInodeTx id).

Definition ensureRoot (uid gid : Z) (now : time) : M DB unit :=
  r ← attempt (GetInode RootInode);
  match r with
  | Ok _ => mret tt
  | Err e =>
      if negb (bool_decide (e = ErrNotFound)) then throw e
      else bolt_update (
        putInode RootInode (dir_record mode_755 uid gid now) ≫= λ _,
        advanceSeqTo (w64 RootInode))
  end.

(** A bbolt file with the eight buckets just created. *)
Definition fresh_db : DB :=
  mkDB bk_empty bk_empty bk_empty bk_empty bk_empty bk_empty bk_empty bk_empty.

(** [Open] on a new file, once bbolt has created the buckets. *)
Definition Open (uid gid : Z) (now : time) : DB := (ensureRoot uid gid now fresh_db).2.

Definition EnsureClass (class : bytes) : M DB bytes :=
  bolt_update (λ tx,
    match bk_get metaKeyClass (bMeta tx) with
    | Some v => (Ok v, tx)
    | None => (Ok class, on_meta (bk_put metaKeyClass class) tx)
    end).

Definition EnsureChunkSize (size : Z) : M DB Z :=
  bolt_update (λ tx,
    match bk_get metaKeyChunkSize (bMeta tx) with
    | Some v => (Ok (i64 (unbe v)), tx)
    | None => (Ok size, on_meta (bk_put metaKeyChunkSize (be 8 (u64 size))) tx)
    end).

Definition AllocInode : M DB InodeID := bolt_update allocInodeTx.

Definition PutInode (id : InodeID) (rec : InodeRecord) : M DB unit :=
  bolt_update (putInode id rec).

Definition DeleteInode (id : InodeID) : M DB unit :=
  bolt_update (modify (on_inode (bk_delete (inodeKey id)))).

(** ** Methods: dentries *)

Definition Lookup (dir : InodeID) (name : bytes) : M DB InodeID := View (lookupTx dir name).

Definition Readdir (dir : InodeID) : M DB (list DirEntry) := gets (readdirTx dir).

Definition CreateDentry (dir : InodeID) (name : bytes) (child : InodeID) : M DB unit :=
  bolt_update (
    requireDir dir ≫= λ _,
    b ← gets bDentry;
    match bk_get (dentryKey dir name) b with
    | Some _ => throw ErrExists
    | None => modify (on_dentry (bk_put (dentryKey dir name) (be 8 (w64 child))))
    end).

Definition SetDentry (dir : InodeID) (name : bytes) (child : InodeID) (now : time) :
    M DB unit :=
  bolt_update (requireDir dir ≫= λ _, setDentryTx dir name child now).

Definition RemoveDentry (dir : InodeID) (name : bytes) : M DB unit :=
  bolt_update (
    b ← gets bDentry;
    match bk_get (dentryKey dir name) b with
    | None => throw ErrNotFound
    | Some _ => deleteDentryTx dir name
    end).

Definition removeEntryTx (dir : InodeID) (name : bytes) (deletedAt : time) : M DB unit :=
  id ← View (lookupTx dir name);
  rec ← View (getInodeTx id);
  deleteDentryTx dir name ≫= λ _,
  touchDirTx dir deletedAt ≫= λ _,
  (if IsDir rec then adjustDirLinksTx dir (-1) else mret tt) ≫= λ _,
  dropLinkTx id rec deletedAt.

Definition RemoveEntry (dir : InodeID) (name : bytes) (deletedAt : time) : M DB unit :=
  bolt_update (removeEntryTx dir name deletedAt).

Definition linkTx (dir : InodeID) (name : bytes) (target : InodeID) (now : time) :
    M DB InodeRecord :=
  rec ← View (getInodeTx target);
  if IsDir rec then throw ErrIsDirectory
  else
    requireDir dir ≫= λ _,
    requireAbsent dir name ≫= λ _,
    let n := if NLink rec =? 0 then 1 else NLink rec in
    let rec := set_CTime now (set_NLink (u32 (n + 1)) rec) in
    putInode target rec ≫= λ _,
    setDentryTx dir name target now ≫= λ _,
    mret rec.

Definition Link (dir : InodeID) (name : bytes) (target : InodeID) (now : time) :
    M DB InodeRecord :=
  bolt_update (linkTx dir name target now).

(** The checks [Rename] makes against an existing target. *)
Definition renameTargetOk (dstID : InodeID) (dstRec srcRec : InodeRecord) : M DB unit :=
  if IsDir dstRec && negb (IsDir srcRec) then throw ErrIsDirectory
  else if negb (IsDir dstRec) && IsDir srcRec then throw ErrNotDir
  else if IsDir dstRec && IsDir srcRec then
    kids ← gets (readdirTx dstID);
    if (0 <? Z.of_nat (length kids)) then throw ErrNotEmpty else mret tt
  else mret tt.

(** [Rename] displacing an existing target. *)
Definition renameDisplace (newDir : InodeID) (newName : bytes) (srcRec : InodeRecord)
    (deletedAt : time) : M DB unit :=
  r ← attempt (View (lookupTx newDir newName));
  match r with
  | Ok dstID =>
      dstRec ← View (getInodeTx dstID);
      renameTargetOk dstID dstRec srcRec ≫= λ _,
      dropLinkTx dstID dstRec deletedAt
  | Err e => if bool_decide (e = ErrNotFound) then mret tt else throw e
  end.

Definition renameTx (oldDir : InodeID) (oldName : bytes) (newDir : InodeID)
    (newName : bytes) (deletedAt now : time) : M DB unit :=
  srcID ← View (lookupTx oldDir oldName);
  srcRec ← View (getInodeTx srcID);
  requireDir newDir ≫= λ _,
  (if IsDir srcRec then View (checkNotDescendantTx srcID newDir) else mret tt) ≫= λ _,
  renameDisplace newDir newName srcRec deletedAt ≫= λ _,
  deleteDentryTx oldDir oldName ≫= λ _,
  touchDirTx oldDir deletedAt ≫= λ _,
  (if IsDir srcRec && negb (bool_decide (oldDir = newDir)) then
     adjustDirLinksTx oldDir (-1) ≫= λ _, adjustDirLinksTx newDir 1
   else mret tt) ≫= λ _,
  putInode srcID (set_CTime deletedAt srcRec) ≫= λ _,
  setDentryTx newDir newName srcID now.

Definition Rename (oldDir : InodeID) (oldName : bytes) (newDir : InodeID)
    (newName : bytes) (deletedAt now : time) : M DB unit :=
  if bool_decide (oldDir = newDir) && bool_decide (oldName = newName) then mret tt
  else of_result (checkName newName) ≫= λ _,
       bolt_update (renameTx oldDir oldName newDir newName deletedAt now).

(** ** Methods: creating files and directories, charging the quota *)

Definition publishFileTx (dir : InodeID) (name : bytes) (rec : InodeRecord) (now : time) :
    M DB InodeID :=
  requireDir dir ≫= λ _,
  requireAbsent dir name ≫= λ _,
  id ← allocInodeTx;
  applyQuotaDeltaTx (i64 (Size rec)) 1 ≫= λ _,
  putInode id rec ≫= λ _,
  setDentryTx dir name id now ≫= λ _,
  mret id.

Definition PublishFile (dir : InodeID) (name : bytes) (rec : InodeRecord) (now : time) :
    M DB InodeID :=
  bolt_update (publishFileTx dir name rec now).

Definition CreateSpecial (dir : InodeID) (name : bytes) (typ rdev mode uid gid : Z)
    (now : time) : M DB InodeID :=
  PublishFile dir name
    (mkInode false (Z.land mode mode_7777) uid gid 0 now zero_time zero_time 1
       false zeroID false zeroID typ rdev false []) now.

Definition CreateSymlink (dir : InodeID) (name target : bytes) (uid gid : Z) (now : time) :
    M DB InodeID :=
  PublishFile dir name
    (mkInode false mode_777 uid gid (blen target) now zero_time zero_time 1
       false zeroID false zeroID 0 0 true target) now.

(** The record [CommitFile] writes over an existing inode: content and mtime
    are the caller's, the rest is the inode's. *)
Definition overwrite_record (existing rec : InodeRecord) (now : time) : InodeRecord :=
  set_ATime (ATime existing) (set_CTime now
    (set_Uid (Uid existing) (set_Gid (Gid existing)
      (set_Mode (Mode existing) (set_NLink (NLink existing) rec))))).

(** The record [CommitFile] writes for a new inode. *)
Definition created_record (rec : InodeRecord) : InodeRecord :=
  if IsZero (ATime rec) then set_ATime (MTime rec) rec else rec.

Definition commitFileTx (dir : InodeID) (name : bytes) (rec : InodeRecord) (now : time) :
    M DB InodeID :=
  requireDir dir ≫= λ _,
  r ← attempt (View (lookupTx dir name));
  match r with
  | Ok existing =>
      existingRec ← View (getInodeTx existing);
      if IsDir existingRec then throw ErrIsDirectory
      else
        let rec := overwrite_record existingRec rec now in
        applyQuotaDeltaTx (i64 (i64 (Size rec) - i64 (Size existingRec))) 0 ≫= λ _,
        putInode existing rec ≫= λ _,
        mret existing
  | Err e =>
      if negb (bool_decide (e = ErrNotFound)) then throw e
      else
        id ← allocInodeTx;
        let rec := created_record rec in
        applyQuotaDeltaTx (i64 (i64 (Size rec) - i64 0)) 1 ≫= λ _,
        putInode id rec ≫= λ _,
        setDentryTx dir name id now ≫= λ _,
        mret id
  end.

Definition CommitFile (dir : InodeID) (name : bytes) (rec : InodeRecord) (now : time) :
    M DB InodeID :=
  bolt_update (commitFileTx dir name rec now).

Definition commitMkdirTx (dir : InodeID) (name : bytes) (rec : InodeRecord) (now : time) :
    M DB InodeID :=
  requireDir dir ≫= λ _,
  requireAbsent dir name ≫= λ _,
  newID ← allocInodeTx;
  applyQuotaDeltaTx 0 1 ≫= λ _,
  putInode newID rec ≫= λ _,
  setDentryTx dir name newID now ≫= λ _,
  adjustDirLinksTx dir 1 ≫= λ _,
  mret newID.

Definition CommitMkdir (dir : InodeID) (name : bytes) (rec : InodeRecord) (now : time) :
    M DB InodeID :=
  bolt_update (commitMkdirTx dir name rec now).

(** One step of [EnsureDir]: descend into [name], creating it if missing. *)
Definition ensureDirStep (uid gid : Z) (now : time) (cur : InodeID) (name : bytes) :
    M DB InodeID :=
  if bool_decide (name = []) then mret cur
  else
    r ← attempt (Lookup cur name);
    match r with
    | Ok id => mret id
    | Err e =>
        if negb (bool_decide (e = ErrNotFound)) then throw e
        else
          id ← AllocInode;
          PutInode id (dir_record mode_755 uid gid now) ≫= λ _,
          r2 ← attempt (CreateDentry cur name id);
          match r2 with
          | Ok _ => mret id
          | Err e2 => if bool_decide (e2 = ErrExists) then mret id else throw e2
          end
    end.

Definition EnsureDir (uid gid : Z) (now : time) (path : list bytes) : M DB InodeID :=
  fold_m (ensureDirStep uid gid now) RootInode path.

Definition ensureDirChargedStep (uid gid : Z) (now : time) (cur : InodeID) (name : bytes) :
    M DB InodeID :=
  if bool_decide (name = []) then mret cur
  else
    r ← attempt (Lookup cur name);
    match r with
    | Ok id => mret id
    | Err e =>
        if negb (bool_decide (e = ErrNotFound)) then throw e
        else
          r2 ← attempt (CommitMkdir cur name (dir_record mode_755 uid gid now) now);
          match r2 with
          | Ok id => mret id
          | Err e2 => if bool_decide (e2 = ErrExists) then Lookup cur name else throw e2
          end
    end.

Definition EnsureDirCharged (uid gid : Z) (now : time) (path : list bytes) : M DB InodeID :=
  fold_m (ensureDirChargedStep uid gid now) RootInode path.

(** [Resolve]. *)
Definition resolveStep (cur : InodeID * InodeRecord) (name : bytes) :
    M DB (InodeID * InodeRecord) :=
  if bool_decide (name = []) then mret cur
  else
    id ← Lookup cur.1 name;
    rec ← GetInode id;
    mret (id, rec).

Definition Resolve (path : list bytes) : M DB (InodeID * InodeRecord) :=
  rec ← GetInode RootInode;
  fold_m resolveStep (RootInode, rec) path.

(** ** Methods: inode content and attributes *)

Definition UpdateInodeContent (id : InodeID) (rec : InodeRecord) : M DB unit :=
  bolt_update (
    existing ← View (getInodeTx id);
    putInode id (set_CTime (MTime rec) (set_MTime (MTime rec)
      (set_content (Size rec) (HasManifest rec) (ManifestID rec)
         (HasInline rec) (InlineChunk rec) existing)))).

(** The record [SetAttr] stores. *)
Definition apply_mut (mut : AttrMutation) (now : time) (rec : InodeRecord) : InodeRecord :=
  let rec := match mut_Mode mut with Some m => set_Mode (Z.land m mode_7777) rec | None => rec end in
  let rec := match mut_Uid mut with Some u => set_Uid u rec | None => rec end in
  let rec := match mut_Gid mut with Some g => set_Gid g rec | None => rec end in
  let rec := match mut_MTime mut with Some t => set_MTime t rec | None => rec end in
  let rec := match mut_ATime mut with Some t => set_ATime t rec | None => rec end in
  let rec := set_CTime now rec in
  if (bool_decide (is_Some (mut_Uid mut)) || bool_decide (is_Some (mut_Gid mut)))
     && negb (IsDir rec)
  then set_Mode (Z.ldiff (Mode rec) mode_6000) rec else rec.

Definition SetAttr (id : InodeID) (mut : AttrMutation) (now : time) : M DB InodeRecord :=
  bolt_update (
    rec ← View (getInodeTx id);
    let rec := apply_mut mut now rec in
    putInode id rec ≫= λ _, mret rec).

(** ** Methods: the graveyard *)

Definition ListGraveyard : M DB (list GraveyardEntry) :=
  gets (λ tx, (λ kv, mkGrave (getID (drop 8 kv.1)) (i64 (unbe (take 8 kv.1))))
              <$> bk_cursor (bGravey tx)).

Definition RemoveGraveyardEntry (e : GraveyardEntry) : M DB unit :=
  bolt_update (modify (on_gravey
    (bk_delete (graveyardKey (ge_DeletedAt e) (ge_InodeID e))))).

(** ** Methods: locators and containers *)

Definition PutLocator (region : bytes) (id : ID) (loc : Locator) (sealedAt : time) :
    M DB unit :=
  bolt_update (
    modify (on_locator (bk_put (locatorKey region id) loc)) ≫= λ _,
    b ← gets bContainer;
    match bk_get (l_Container loc) b with
    | Some _ => mret tt
    | None => modify (on_container (bk_put (l_Container loc) sealedAt))
    end).

Definition DeleteLocator (region : bytes) (id : ID) : M DB unit :=
  bolt_update (modify (on_locator (bk_delete (locatorKey region id)))).

(** [GetLocator]: [None] is "not found". *)
Definition GetLocator (region : bytes) (id : ID) (tx : DB) : option Locator :=
  bk_get (locatorKey region id) (bLocator tx).

Definition HasLocator (region : bytes) (id : ID) (tx : DB) : bool :=
  match GetLocator region id tx with Some _ => true | None => false end.

(** [copy(e.ChunkID[:], k[len(prefix):])]. *)
Definition copyID (l : bytes) : ID := default zeroID (barray_of 32 (barray_fill 32 l)).

Definition ListLocators (region : bytes) (tx : DB) : list LocatorEntry :=
  let prefix := region ++ [x00] in
  (λ kv, mkLocEntry (copyID (drop (length prefix) kv.1)) kv.2)
    <$> bk_scan prefix (bLocator tx).

Definition ContainerSealedAt (container : bytes) (tx : DB) : option time :=
  bk_get container (bContainer tx).

Definition ForgetContainer (container : bytes) : M DB unit :=
  bolt_update (modify (on_container (bk_delete container))).

Definition MarkContainerDead (key : bytes) (at_ : time) : M DB unit :=
  bolt_update (modify (on_deadcnt (bk_put key at_))).

Definition ListDeadContainers (tx : DB) : list DeadContainer :=
  (λ kv, mkDead kv.1 kv.2) <$> bk_cursor (bDeadCnt tx).

Definition RemoveDeadContainer (key : bytes) : M DB unit :=
  bolt_update (modify (on_deadcnt (bk_delete key))).

(** ** Methods: quotas *)

Definition SetQuotaLimits (bytesLimit inodesLimit : Z) : M DB unit :=
  bolt_update (
    q ← gets getQuotaTx;
    putQuotaTx (mkQuota (BytesUsed q) (InodesUsed q) bytesLimit inodesLimit)).

Definition GetQuotaUsage (tx : DB) : Z * Z :=
  (BytesUsed (getQuotaTx tx), InodesUsed (getQuotaTx tx)).

Definition GetQuotaLimits (tx : DB) : Z * Z :=
  (BytesLimit (getQuotaTx tx), InodesLimit (getQuotaTx tx)).

Definition CheckQuota (byteDelta inodeDelta : Z) (tx : DB) : result unit :=
  checkQuota (getQuotaTx tx) byteDelta inodeDelta.

End metadb.

Arguments DB : clear implicits.
