(* ===== verification/MetaSpec.v ===== *)
(** pkg/metadb: what the store promises, and that it keeps the promise.

    The abstract state [fs] forgets keys, buckets and encodings: a map from
    (directory, name) to inode number, a map from inode number to record,
    the set of graveyard entries, the quota record and the allocation
    counter.  [view] reads it off a database.  A mutation of the store is an
    [op]; [fs_pre] says when it is allowed and with which error it is
    refused, [fs_effect] what it does.  The refinement theorem says the
    transactions of MetaDB do exactly that. *)
From S2P Require Import Prelude Bolt Chunk Pack MetaDB.

(** * Reading a bucket through a key encoding *)

Section decoded.
Context `{BoltOps bucket} `{Countable K} {V W : Type}.
Variable dec : bytes → option K.
Variable f : V → W.

Definition decode1 (kv : bytes * V) : option (K * W) :=
  k ← dec kv.1; Some (k, f kv.2).

Definition decoded (b : bucket V) : gmap K W := list_to_map (omap decode1 (bk_cursor b)).
End decoded.

Definition dec_dentry (k : bytes) : option (InodeID * bytes) :=
  let p := (getID k, drop 9 k) in
  if bool_decide (k = dentryKey p.1 p.2) then Some p else None.

Definition dec_inode (k : bytes) : option InodeID :=
  if bool_decide (k = inodeKey (getID k)) then Some (getID k) else None.

(** A graveyard entry is its key: the deletion time as the 64 bits the code
    stores, and the inode. *)
Definition stamp (t : time) : word64 := word64_of_Z (UnixNano t).

Definition enc_grave (p : word64 * InodeID) : bytes := be 8 (w64 p.1) ++ be 8 (w64 p.2).

Definition dec_grave (k : bytes) : option (word64 * InodeID) :=
  let p := (getID k, getID (drop 8 k)) in
  if bool_decide (k = enc_grave p) then Some p else None.

(** * The abstract state *)

Record fs := mkFs {
  fs_names : gmap (InodeID * bytes) InodeID;
  fs_inodes : gmap InodeID InodeRecord;
  fs_graves : gmap (word64 * InodeID) unit;
  fs_quota : quotaRecord;
  fs_seq : Z
}.

Definition upd_names (g : gmap (InodeID * bytes) InodeID → gmap (InodeID * bytes) InodeID)
    (f : fs) : fs :=
  mkFs (g (fs_names f)) (fs_inodes f) (fs_graves f) (fs_quota f) (fs_seq f).
Definition upd_inodes (g : gmap InodeID InodeRecord → gmap InodeID InodeRecord) (f : fs) : fs :=
  mkFs (fs_names f) (g (fs_inodes f)) (fs_graves f) (fs_quota f) (fs_seq f).
Definition upd_graves (g : gmap (word64 * InodeID) unit → gmap (word64 * InodeID) unit) (f : fs) : fs :=
  mkFs (fs_names f) (fs_inodes f) (g (fs_graves f)) (fs_quota f) (fs_seq f).
Definition upd_quota (g : quotaRecord → quotaRecord) (f : fs) : fs :=
  mkFs (fs_names f) (fs_inodes f) (fs_graves f) (g (fs_quota f)) (fs_seq f).
Definition upd_seq (g : Z → Z) (f : fs) : fs :=
  mkFs (fs_names f) (fs_inodes f) (fs_graves f) (fs_quota f) (g (fs_seq f)).

Definition view `{BoltOps bucket} (tx : DB bucket) : fs :=
  mkFs (decoded dec_dentry getID (bDentry tx)) (decoded dec_inode id (bInode tx))
    (decoded dec_grave (λ _, tt) (bGravey tx)) (getQuotaTx tx) (bk_sequence (bMeta tx)).

Arguments view : simpl never.

(** * Operations *)

(** The mutating methods of the store, with their arguments and the times
    they read. *)
Inductive op :=
  | OCommitFile (dir : InodeID) (name : bytes) (rec : InodeRecord) (now : time)
  | OPublishFile (dir : InodeID) (name : bytes) (rec : InodeRecord) (now : time)
  | OCommitMkdir (dir : InodeID) (name : bytes) (rec : InodeRecord) (now : time)
  | ORemoveEntry (dir : InodeID) (name : bytes) (deletedAt : time)
  | OLink (dir : InodeID) (name : bytes) (target : InodeID) (now : time)
  | ORename (oldDir : InodeID) (oldName : bytes) (newDir : InodeID) (newName : bytes)
      (deletedAt now : time)
  | OSetAttr (id : InodeID) (mut : AttrMutation) (now : time)
  | OUpdateInodeContent (id : InodeID) (rec : InodeRecord)
  | ODeleteInode (id : InodeID)
  | ORemoveGraveyardEntry (e : GraveyardEntry)
  | OSetQuotaLimits (bytesLimit inodesLimit : Z)
  | OPutLocator (region : bytes) (id : ID) (loc : Locator) (sealedAt : time)
  | ODeleteLocator (region : bytes) (id : ID)
  | OForgetContainer (container : bytes)
  | OMarkContainerDead (key : bytes) (at_ : time)
  | ORemoveDeadContainer (key : bytes)
  | OEnsureClass (class : bytes)
  | OEnsureChunkSize (size : Z)
  | OAllocInode
  | OPutInode (id : InodeID) (rec : InodeRecord)
  | OCreateDentry (dir : InodeID) (name : bytes) (child : InodeID)
  | OSetDentry (dir : InodeID) (name : bytes) (child : InodeID) (now : time)
  | ORemoveDentry (dir : InodeID) (name : bytes).

(** The method behind an operation, its result dropped. *)
Definition run_op `{BoltOps bucket} (o : op) : M (DB bucket) unit :=
  match o with
  | OCommitFile d n rec now => CommitFile d n rec now ≫= λ _, mret tt
  | OPublishFile d n rec now => PublishFile d n rec now ≫= λ _, mret tt
  | OCommitMkdir d n rec now => CommitMkdir d n rec now ≫= λ _, mret tt
  | ORemoveEntry d n at_ => RemoveEntry d n at_
  | OLink d n t now => Link d n t now ≫= λ _, mret tt
  | ORename od on nd nn at_ now => Rename od on nd nn at_ now
  | OSetAttr i m now => SetAttr i m now ≫= λ _, mret tt
  | OUpdateInodeContent i rec => UpdateInodeContent i rec
  | ODeleteInode i => DeleteInode i
  | ORemoveGraveyardEntry e => RemoveGraveyardEntry e
  | OSetQuotaLimits b i => SetQuotaLimits b i
  | OPutLocator r i l at_ => PutLocator r i l at_
  | ODeleteLocator r i => DeleteLocator r i
  | OForgetContainer c => ForgetContainer c
  | OMarkContainerDead k at_ => MarkContainerDead k at_
  | ORemoveDeadContainer k => RemoveDeadContainer k
  | OEnsureClass c => EnsureClass c ≫= λ _, mret tt
  | OEnsureChunkSize s => EnsureChunkSize s ≫= λ _, mret tt
  | OAllocInode => AllocInode ≫= λ _, mret tt
  | OPutInode i rec => PutInode i rec
  | OCreateDentry d n i => CreateDentry d n i
  | OSetDentry d n i now => SetDentry d n i now
  | ORemoveDentry d n => RemoveDentry d n
  end.

(** * What each operation requires *)

(** Checks run in order; the first failure is the error returned. *)
Definition andThen (a b : result unit) : result unit :=
  match a with Ok _ => b | Err e => Err e end.
Infix "⨾" := andThen (at level 60, right associativity).

Definition require (b : bool) (e : error) : result unit := if b then Ok tt else Err e.

Definition need_inode (i : InodeID) (f : fs) (k : InodeRecord → result unit) : result unit :=
  match fs_inodes f !! i with Some rec => k rec | None => Err ErrNotFound end.

Definition need_dir (d : InodeID) (f : fs) : result unit :=
  need_inode d f (λ rec, require (IsDir rec) ErrNotDir).

Definition need_free (d : InodeID) (n : bytes) (f : fs) : result unit :=
  match fs_names f !! (d, n) with Some _ => Err ErrExists | None => Ok tt end.

Definition need_room (bytes inodes : Z) (f : fs) : result unit :=
  checkQuota (fs_quota f) bytes inodes.

(** The bindings of directory [d]. *)
Definition entries (d : InodeID) (f : fs) : gmap (InodeID * bytes) InodeID :=
  filter (λ kv, kv.1.1 = d) (fs_names f).

(** The bindings that name inode [i]. *)
Definition links (i : InodeID) (f : fs) : gmap (InodeID * bytes) InodeID :=
  filter (λ kv, kv.2 = i) (fs_names f).

(** The directory an inode is bound in: meant for directories, which have
    at most one. *)
Definition fs_parent (i : InodeID) (f : fs) : option InodeID :=
  match map_to_list (links i f) with
  | [] => None
  | ((d, _), _) :: _ => Some d
  end.

(** Is [anc] on the way from [cur] to the root? *)
Fixpoint fs_above (fuel : nat) (anc cur : InodeID) (f : fs) : bool :=
  match fuel with
  | O => false
  | S fuel' =>
      if bool_decide (cur = RootInode) then false
      else if bool_decide (cur = anc) then true
      else match fs_parent cur f with
           | None => false
           | Some p => fs_above fuel' anc p f
           end
  end.

Definition fs_below (anc d : InodeID) (f : fs) : bool :=
  fs_above (S (S (size (fs_names f)))) anc d f.

(** Dropping the last link gives the quota back. *)
Definition last_link (rec : InodeRecord) : bool := negb (negb (IsDir rec) && (1 <? NLink rec)).
Definition freed (rec : InodeRecord) : Z := i64 (- i64 (Size rec)).
Definition need_drop (rec : InodeRecord) (f : fs) : result unit :=
  if last_link rec then need_room (freed rec) (-1) f else Ok tt.

Definition need_replaceable (src dst : InodeRecord) (d : InodeID) (f : fs) : result unit :=
  match IsDir dst, IsDir src with
  | true, false => Err ErrIsDirectory
  | false, true => Err ErrNotDir
  | true, true => require (bool_decide (entries d f = ∅)) ErrNotEmpty
  | false, false => Ok tt
  end.

(** Replacing whatever [nn] names. *)
Definition need_displace (src : InodeRecord) (nd : InodeID) (nn : bytes) (f : fs) : result unit :=
  match fs_names f !! (nd, nn) with
  | None => Ok tt
  | Some d => need_inode d f (λ dst, need_replaceable src dst d f ⨾ need_drop dst f)
  end.

Definition fs_pre (o : op) (f : fs) : result unit :=
  match o with
  | OCommitFile d n rec now =>
      need_dir d f ⨾
      match fs_names f !! (d, n) with
      | Some i => need_inode i f (λ old,
          require (negb (IsDir old)) ErrIsDirectory ⨾
          need_room (i64 (i64 (Size rec) - i64 (Size old))) 0 f)
      | None => need_room (i64 (i64 (Size rec) - i64 0)) 1 f ⨾ checkName n
      end
  | OPublishFile d n rec now =>
      need_dir d f ⨾ need_free d n f ⨾ need_room (i64 (Size rec)) 1 f ⨾ checkName n
  | OCommitMkdir d n rec now =>
      need_dir d f ⨾ need_free d n f ⨾ need_room 0 1 f ⨾ checkName n
  | ORemoveEntry d n at_ =>
      match fs_names f !! (d, n) with
      | None => Err ErrNotFound
      | Some i => need_inode i f (λ rec, need_inode d f (λ _, need_drop rec f))
      end
  | OLink d n t now =>
      need_inode t f (λ rec,
        require (negb (IsDir rec)) ErrIsDirectory ⨾
        need_dir d f ⨾ need_free d n f ⨾ checkName n)
  | ORename od on nd nn at_ now =>
      if bool_decide (od = nd) && bool_decide (on = nn) then Ok tt
      else
        checkName nn ⨾
        match fs_names f !! (od, on) with
        | None => Err ErrNotFound
        | Some s => need_inode s f (λ src,
            need_dir nd f ⨾
            require (negb (IsDir src && fs_below s nd f)) ErrInvalidRename ⨾
            need_displace src nd nn f ⨾
            need_inode od f (λ _, Ok tt))
        end
  | OSetAttr i m now => need_inode i f (λ _, Ok tt)
  | OUpdateInodeContent i rec => need_inode i f (λ _, Ok tt)
  | OCreateDentry d n i => need_dir d f ⨾ need_free d n f
  | OSetDentry d n i now => need_dir d f ⨾ checkName n
  | ORemoveDentry d n => match fs_names f !! (d, n) with Some _ => Ok tt | None => Err ErrNotFound end
  | _ => Ok tt
  end.

(** * What each operation does *)

Definition touch (t : time) (rec : InodeRecord) : InodeRecord := set_CTime t (set_MTime t rec).

Definition add_links (delta : Z) (rec : InodeRecord) : InodeRecord :=
  if IsDir rec then set_NLink (u32 (Z.max 2 (i32 (i32 (NLink rec) + delta)))) rec else rec.

Definition upd_inode (i : InodeID) (g : InodeRecord → InodeRecord) : fs → fs :=
  upd_inodes (alter g i).

Definition charge (bytes inodes : Z) : fs → fs :=
  upd_quota (λ q, mkQuota (addDelta (BytesUsed q) bytes) (addDelta (InodesUsed q) inodes)
                    (BytesLimit q) (InodesLimit q)).

Definition bind_name (d : InodeID) (n : bytes) (i : InodeID) (now : time) (f : fs) : fs :=
  upd_names <[(d, n) := i]> (upd_inode d (touch now) f).

Definition unbind_name (d : InodeID) (n : bytes) (t : time) (f : fs) : fs :=
  upd_inode d (touch t) (upd_names (delete (d, n)) f).

(** The next inode number. *)
Definition next_id (f : fs) : InodeID := word64_of_Z (u64 (fs_seq f + 1)).

Definition create (d : InodeID) (n : bytes) (rec : InodeRecord) (size : Z) (now : time)
    (f : fs) : fs :=
  let i := next_id f in
  bind_name d n i now (upd_inodes <[i := rec]> (charge size 1 (upd_seq (λ s, u64 (s + 1)) f))).

Definition drop_link (i : InodeID) (rec : InodeRecord) (t : time) (f : fs) : fs :=
  if last_link rec then
    upd_graves <[(stamp t, i) := tt]>
      (upd_inodes <[i := set_CTime t (set_NLink 0 rec)]> (charge (freed rec) (-1) f))
  else upd_inodes <[i := set_CTime t (set_NLink (u32 (NLink rec - 1)) rec)]> f.

(** The record of an inode the operation has checked to exist. *)
Definition with_inode (i : InodeID) (f : fs) (k : InodeRecord → fs) : fs :=
  match fs_inodes f !! i with Some rec => k rec | None => f end.

Definition displace (nd : InodeID) (nn : bytes) (t : time) (f : fs) : fs :=
  match fs_names f !! (nd, nn) with
  | None => f
  | Some d => with_inode d f (λ dst, drop_link d dst t f)
  end.

(** A directory that changes parents moves one link between them. *)
Definition reparent (src : InodeRecord) (od nd : InodeID) (f : fs) : fs :=
  if IsDir src && negb (bool_decide (od = nd))
  then upd_inode nd (add_links 1) (upd_inode od (add_links (-1)) f) else f.

Definition relink (rec : InodeRecord) (now : time) : InodeRecord :=
  set_CTime now (set_NLink (u32 ((if NLink rec =? 0 then 1 else NLink rec) + 1)) rec).

Definition set_data (rec existing : InodeRecord) : InodeRecord :=
  set_CTime (MTime rec) (set_MTime (MTime rec)
    (set_content (Size rec) (HasManifest rec) (ManifestID rec)
       (HasInline rec) (InlineChunk rec) existing)).

Definition fs_effect (o : op) (f : fs) : fs :=
  match o with
  | OCommitFile d n rec now =>
      match fs_names f !! (d, n) with
      | Some i => with_inode i f (λ old,
          upd_inodes <[i := overwrite_record old rec now]>
            (charge (i64 (i64 (Size rec) - i64 (Size old))) 0 f))
      | None => create d n (created_record rec) (i64 (i64 (Size rec) - i64 0)) now f
      end
  | OPublishFile d n rec now => create d n rec (i64 (Size rec)) now f
  | OCommitMkdir d n rec now => upd_inode d (add_links 1) (create d n rec 0 now f)
  | ORemoveEntry d n at_ =>
      match fs_names f !! (d, n) with
      | None => f
      | Some i => with_inode i f (λ rec,
          drop_link i rec at_
            (upd_inode d (if IsDir rec then add_links (-1) else id) (unbind_name d n at_ f)))
      end
  | OLink d n t now =>
      with_inode t f (λ rec, bind_name d n t now (upd_inodes <[t := relink rec now]> f))
  | ORename od on nd nn at_ now =>
      if bool_decide (od = nd) && bool_decide (on = nn) then f
      else match fs_names f !! (od, on) with
        | None => f
        | Some s => with_inode s f (λ src,
            bind_name nd nn s now
              (upd_inodes <[s := set_CTime at_ src]>
                (reparent src od nd (unbind_name od on at_ (displace nd nn at_ f)))))
        end
  | OSetAttr i m now => upd_inode i (apply_mut m now) f
  | OUpdateInodeContent i rec => upd_inode i (set_data rec) f
  | ODeleteInode i => upd_inodes (delete i) f
  | ORemoveGraveyardEntry e => upd_graves (delete (stamp (ge_DeletedAt e), ge_InodeID e)) f
  | OSetQuotaLimits b i => upd_quota (λ q, mkQuota (BytesUsed q) (InodesUsed q) b i) f
  | OAllocInode => upd_seq (λ s, u64 (s + 1)) f
  | OPutInode i rec => upd_inodes <[i := rec]> f
  | OCreateDentry d n i => upd_names <[(d, n) := i]> f
  | OSetDentry d n i now => bind_name d n i now f
  | ORemoveDentry d n => upd_names (delete (d, n)) f
  | _ => f
  end.

(** * The tables beside the namespace *)

(** Where chunks are, when containers were sealed or retired, and the two
    parameters a repository fixes once. *)
Record side := mkSide {
  sd_locators : gmap bytes Locator;
  sd_sealed : gmap bytes time;
  sd_dead : gmap bytes time;
  sd_class : option bytes;
  sd_chunk : option bytes
}.

Definition side_view `{BoltOps bucket} (tx : DB bucket) : side :=
  mkSide (decoded Some id (bLocator tx)) (decoded Some id (bContainer tx)) (decoded Some id (bDeadCnt tx))
    (bk_get metaKeyClass (bMeta tx)) (bk_get metaKeyChunkSize (bMeta tx)).

(** Keep the value there is, or take the new one. *)
Definition keep_or {A} (o : option A) (a : A) : option A := Some (default a o).

Definition side_effect (o : op) (s : side) : side :=
  let 'mkSide loc sealed dead class chunk := s in
  match o with
  | OPutLocator r i l at_ =>
      mkSide (<[locatorKey r i := l]> loc)
        (partial_alter (λ o, keep_or o at_) (l_Container l) sealed) dead class chunk
  | ODeleteLocator r i => mkSide (delete (locatorKey r i) loc) sealed dead class chunk
  | OForgetContainer c => mkSide loc (delete c sealed) dead class chunk
  | OMarkContainerDead k at_ => mkSide loc sealed (<[k := at_]> dead) class chunk
  | ORemoveDeadContainer k => mkSide loc sealed (delete k dead) class chunk
  | OEnsureClass c => mkSide loc sealed dead (keep_or class c) chunk
  | OEnsureChunkSize n => mkSide loc sealed dead class (keep_or chunk (be 8 (u64 n)))
  | _ => s
  end.

(** [m] succeeds from [tx] with [a] and leaves the abstract state [f']. *)
Definition runs `{BoltOps bucket} {A} (m : M (DB bucket) A) (tx : DB bucket) (a : A)
    (f' : fs) : Prop :=
  ∃ tx', m tx = (Ok a, tx') ∧ view tx' = f'.

(** [m] started in [tx] checks [pre] and, if that is [Ok], returns [a] and
    leaves [f']; otherwise it fails with the error of [pre]. *)
Definition tx_spec `{BoltOps bucket} {A} (m : M (DB bucket) A) (a : A) (pre : result unit)
    (f' : fs) (tx : DB bucket) : Prop :=
  match pre with
  | Ok _ => runs m tx a f'
  | Err e => ∃ tx', m tx = (Err e, tx')
  end.

(** The inode [CommitFile] writes: the one bound, or a new one. *)
Definition commit_id (d : InodeID) (n : bytes) (f : fs) : InodeID :=
  default (next_id f) (fs_names f !! (d, n)).

(** What it means for a method to implement an operation: it succeeds
    exactly when the precondition holds, with the specified effect; it fails
    with the specified error, and then the database is untouched. *)
Definition implements `{BoltOps bucket} (o : op) (m : M (DB bucket) unit) (tx : DB bucket) : Prop :=
  match fs_pre o (view tx) with
  | Ok _ => runs m tx tt (fs_effect o (view tx))
  | Err e => m tx = (Err e, tx)
  end.

Definition is_rename (o : op) : bool := match o with ORename _ _ _ _ _ _ => true | _ => false end.

(** Push the projections of [fs] through its updates. *)
Ltac fsred :=
  cbn [fs_names fs_inodes fs_graves fs_quota fs_seq upd_names upd_inodes upd_graves
       upd_quota upd_seq upd_inode charge bind_name unbind_name create] in *.

(** * The view of a database *)

Section decoded_lemmas.
Context `{BoltLaws bucket} `{Countable K} {V W : Type}.
Variable dec : bytes → option K.
Variable enc : K → bytes.
Variable f : V → W.
Hypothesis dec_enc : ∀ k, dec (enc k) = Some k.
Hypothesis dec_Some : ∀ b k, dec b = Some k → b = enc k.

Lemma elem_of_decode (l : list (bytes * V)) k w :
  (k, w) ∈ omap (decode1 dec f) l ↔ ∃ v, (enc k, v) ∈ l ∧ w = f v.
Proof.
  rewrite list_elem_of_omap. unfold decode1. split.
  - intros ([b v] & Hin & E). simpl in E. destruct (dec b) as [k'|] eqn:D; simplify_eq/=.
    apply dec_Some in D as ->. eauto.
  - intros (v & Hin & ->). exists (enc k, v). simpl. by rewrite dec_enc.
Qed.

Lemma decode_nodup (l : list (bytes * V)) :
  NoDup l.*1 → NoDup (omap (decode1 dec f) l).*1.
Proof.
  induction l as [|[b v] l IH]; simpl; [constructor|].
  rewrite NoDup_cons. intros [Hb Hl]. unfold decode1 at 1. simpl.
  destruct (dec b) as [k|] eqn:D; simpl; [|by apply IH].
  apply dec_Some in D as ->. constructor; [|by apply IH].
  rewrite list_elem_of_fmap. intros ([k' w] & -> & Hin).
  apply elem_of_decode in Hin as (v' & Hin & _). apply Hb, list_elem_of_fmap.
  by exists (enc k', v').
Qed.

Lemma decoded_lookup (b : bucket V) k : decoded dec f b !! k = f <$> bk_get (enc k) b.
Proof.
  apply option_eq. intros w. unfold decoded.
  rewrite <- elem_of_list_to_map by apply decode_nodup, bk_cursor_nodup.
  rewrite elem_of_decode, fmap_Some.
  split; intros (v & Hv & ->); exists v; [by apply bk_cursor_get in Hv|].
  by rewrite bk_cursor_get.
Qed.

Lemma decoded_put (b : bucket V) k v :
  decoded dec f (bk_put (enc k) v b) = <[k := f v]> (decoded dec f b).
Proof.
  apply map_eq. intros k'. rewrite decoded_lookup, lookup_insert, bk_get_put.
  destruct (decide (k = k')) as [->|Hne]; [by rewrite decide_True|].
  rewrite decide_False, decoded_lookup; [done|].
  intros E. apply (f_equal dec) in E. rewrite !dec_enc in E. congruence.
Qed.

Lemma decoded_delete (b : bucket V) k :
  decoded dec f (bk_delete (enc k) b) = delete k (decoded dec f b).
Proof.
  apply map_eq. intros k'. rewrite decoded_lookup, lookup_delete, bk_get_delete.
  destruct (decide (k = k')) as [->|Hne]; [by rewrite decide_True|].
  rewrite decide_False, decoded_lookup; [done|].
  intros E. apply (f_equal dec) in E. rewrite !dec_enc in E. congruence.
Qed.
End decoded_lemmas.

Lemma getID_be id rest : getID (be 8 (w64 id) ++ rest) = id.
Proof.
  unfold getID. rewrite take_app_length' by (by rewrite length_be).
  rewrite unbe_be. apply word64_eq. rewrite w64_of_Z.
  pose proof (w64_range id) as [??]. rewrite Z.mod_small by lia.
  by apply u64_id.
Qed.

Lemma getID_be8 id : getID (be 8 (w64 id)) = id.
Proof. rewrite <- (app_nil_r (be 8 _)). apply getID_be. Qed.

Lemma dec_dentry_key d n : dec_dentry (dentryKey d n) = Some (d, n).
Proof.
  unfold dec_dentry.
  assert (getID (dentryKey d n) = d) as -> by apply getID_be.
  assert (drop 9 (dentryKey d n) = n) as ->.
  { unfold dentryKey. by rewrite app_assoc, drop_app_length' by (rewrite length_app, length_be; done). }
  by rewrite bool_decide_true.
Qed.

Lemma dec_dentry_Some k p : dec_dentry k = Some p → k = dentryKey p.1 p.2.
Proof. unfold dec_dentry. case_bool_decide; [|done]. by intros [= <-]. Qed.

Lemma dec_inode_key i : dec_inode (inodeKey i) = Some i.
Proof. unfold dec_inode, inodeKey. rewrite getID_be8. by rewrite bool_decide_true. Qed.

Lemma dec_inode_Some k i : dec_inode k = Some i → k = inodeKey i.
Proof. unfold dec_inode. case_bool_decide; [|done]. by intros [= <-]. Qed.

Lemma dentryKey_inj d n d' n' : dentryKey d n = dentryKey d' n' → d = d' ∧ n = n'.
Proof.
  intros E. apply (f_equal dec_dentry) in E. rewrite !dec_dentry_key in E.
  by simplify_eq.
Qed.

Lemma graveyardKey_enc t i : graveyardKey t i = enc_grave (stamp t, i).
Proof. unfold graveyardKey, enc_grave, stamp. simpl. by rewrite w64_of_Z. Qed.

Lemma dec_grave_key p : dec_grave (enc_grave p) = Some p.
Proof.
  destruct p as [t i]. unfold dec_grave.
  assert (getID (enc_grave (t, i)) = t) as -> by apply getID_be.
  assert (drop 8 (enc_grave (t, i)) = be 8 (w64 i)) as ->.
  { unfold enc_grave. by rewrite drop_app_length' by (by rewrite length_be). }
  rewrite getID_be8. by rewrite bool_decide_true.
Qed.

Lemma dec_grave_Some k p : dec_grave k = Some p → k = enc_grave p.
Proof. unfold dec_grave. case_bool_decide; [|done]. by intros [= <-]. Qed.

Section view_lemmas.
Context `{BoltLaws bucket}.
Implicit Types tx : DB bucket.

Lemma names_lookup tx d n :
  fs_names (view tx) !! (d, n) = getID <$> bk_get (dentryKey d n) (bDentry tx).
Proof.
  apply (decoded_lookup dec_dentry (λ p, dentryKey p.1 p.2)).
  - intros [??]. apply dec_dentry_key.
  - apply dec_dentry_Some.
Qed.

Lemma inodes_lookup tx i : fs_inodes (view tx) !! i = bk_get (inodeKey i) (bInode tx).
Proof.
  rewrite <- option_fmap_id.
  apply (decoded_lookup dec_inode inodeKey id dec_inode_key dec_inode_Some).
Qed.

Lemma graves_lookup tx p :
  fs_graves (view tx) !! p = (λ _, tt) <$> bk_get (enc_grave p) (bGravey tx).
Proof. apply (decoded_lookup dec_grave enc_grave (λ _, tt) dec_grave_key dec_grave_Some). Qed.

Lemma getInodeTx_view i tx :
  getInodeTx i tx = match fs_inodes (view tx) !! i with Some r => Ok r | None => Err ErrNotFound end.
Proof. unfold getInodeTx. by rewrite inodes_lookup; case_match. Qed.

Lemma lookupTx_view d n tx :
  lookupTx d n tx = match fs_names (view tx) !! (d, n) with Some i => Ok i | None => Err ErrNotFound end.
Proof. unfold lookupTx. by rewrite names_lookup; case_match. Qed.

Lemma view_put_dentry d n i tx :
  view (on_dentry (bk_put (dentryKey d n) (be 8 (w64 i))) tx) = upd_names <[(d, n) := i]> (view tx).
Proof.
  unfold view, upd_names. simpl. f_equal.
  rewrite (decoded_put dec_dentry (λ p, dentryKey p.1 p.2) getID) with (k := (d, n)).
  - by rewrite getID_be8.
  - intros [??]. apply dec_dentry_key.
  - apply dec_dentry_Some.
Qed.

Lemma view_delete_dentry d n tx :
  view (on_dentry (bk_delete (dentryKey d n)) tx) = upd_names (delete (d, n)) (view tx).
Proof.
  unfold view, upd_names. simpl. f_equal.
  apply (decoded_delete dec_dentry (λ p, dentryKey p.1 p.2) getID) with (k := (d, n)).
  - intros [??]. apply dec_dentry_key.
  - apply dec_dentry_Some.
Qed.

Lemma view_put_inode i r tx :
  view (on_inode (bk_put (inodeKey i) r) tx) = upd_inodes <[i := r]> (view tx).
Proof.
  unfold view, upd_inodes. simpl. f_equal.
  apply (decoded_put dec_inode inodeKey id dec_inode_key dec_inode_Some).
Qed.

Lemma view_delete_inode i tx :
  view (on_inode (bk_delete (inodeKey i)) tx) = upd_inodes (delete i) (view tx).
Proof.
  unfold view, upd_inodes. simpl. f_equal.
  apply (decoded_delete dec_inode inodeKey id dec_inode_key dec_inode_Some).
Qed.

Lemma view_put_grave t i tx :
  view (on_gravey (bk_put (graveyardKey t i) []) tx) = upd_graves <[(stamp t, i) := tt]> (view tx).
Proof.
  unfold view, upd_graves. simpl. f_equal. rewrite graveyardKey_enc.
  apply (decoded_put dec_grave enc_grave (λ _, tt) dec_grave_key dec_grave_Some).
Qed.

Lemma view_delete_grave t i tx :
  view (on_gravey (bk_delete (graveyardKey t i)) tx) = upd_graves (delete (stamp t, i)) (view tx).
Proof.
  unfold view, upd_graves. simpl. f_equal. rewrite graveyardKey_enc.
  apply (decoded_delete dec_grave enc_grave (λ _, tt) dec_grave_key dec_grave_Some).
Qed.

Lemma view_put_quota q tx :
  view (on_quota (bk_put quotaKeyRoot q) tx) = upd_quota (λ _, q) (view tx).
Proof.
  unfold view, upd_quota, getQuotaTx. simpl. by rewrite bk_get_put_eq.
Qed.

Lemma view_set_sequence n tx :
  view (on_meta (bk_set_sequence n) tx) = upd_seq (λ _, n) (view tx).
Proof. unfold view, upd_seq, getQuotaTx. simpl. by rewrite bk_sequence_set. Qed.

Lemma view_put_meta k v tx : view (on_meta (bk_put k v) tx) = view tx.
Proof. unfold view, getQuotaTx. simpl. by rewrite bk_sequence_put. Qed.

Lemma view_on_locator g tx : view (on_locator g tx) = view tx.
Proof. done. Qed.

(** The view reads five of the buckets. *)
Lemma view_ext tx tx' :
  bDentry tx' = bDentry tx → bInode tx' = bInode tx → bMeta tx' = bMeta tx → bQuota tx' = bQuota tx →
  bGravey tx' = bGravey tx → view tx' = view tx.
Proof. intros E1 E2 E3 E4 E5. unfold view, getQuotaTx. by rewrite E1, E2, E3, E4, E5. Qed.

Lemma view_on_container g tx : view (on_container g tx) = view tx.
Proof. done. Qed.

Lemma view_on_deadcnt g tx : view (on_deadcnt g tx) = view tx.
Proof. done. Qed.

Lemma sequence_view tx : bk_sequence (bMeta tx) = fs_seq (view tx).
Proof. done. Qed.

Lemma getQuotaTx_view tx : getQuotaTx tx = fs_quota (view tx).
Proof. done. Qed.

Lemma decoded_empty {K V W} `{Countable K} (dec : bytes → option K) (g : V → W) :
  decoded dec g (bk_empty : bucket V) = ∅.
Proof.
  unfold decoded. destruct (bk_cursor (bk_empty : bucket V)) as [|[k v] l] eqn:E; [done|].
  assert ((k, v) ∈ bk_cursor (bk_empty : bucket V)) as Hin by (rewrite E; apply list_elem_of_here).
  by rewrite bk_cursor_get, bk_get_empty in Hin.
Qed.

(** A database whose buckets have just been created. *)
Lemma view_fresh : view (fresh_db (bucket := bucket)) = mkFs ∅ ∅ ∅ (mkQuota 0 0 0 0) 0.
Proof.
  unfold view, getQuotaTx. cbn. by rewrite !decoded_empty, bk_get_empty, bk_sequence_empty.
Qed.

Lemma upd_inode_insert i r g f :
  fs_inodes f !! i = Some r → upd_inodes <[i := g r]> f = upd_inode i g f.
Proof.
  intros Hi. unfold upd_inode, upd_inodes. f_equal. apply map_eq. intros j.
  destruct (decide (i = j)) as [->|Hne].
  - by rewrite lookup_insert_eq, lookup_alter_eq, Hi.
  - by rewrite lookup_insert_ne, lookup_alter_ne.
Qed.

(** ** The steps of a transaction, seen through the view *)

Lemma requireDir_run d tx : requireDir d tx = (need_dir d (view tx), tx).
Proof.
  unfold requireDir, View, mbind, M_bind, need_dir, need_inode. rewrite getInodeTx_view.
  destruct (_ !! d) as [r|]; [by destruct (IsDir r)|done].
Qed.

Lemma requireAbsent_run d n tx : requireAbsent d n tx = (need_free d n (view tx), tx).
Proof.
  unfold requireAbsent, View, mbind, M_bind, attempt, need_free. rewrite lookupTx_view.
  by destruct (_ !! (d, n)).
Qed.

Lemma putInode_run i r tx : runs (putInode i r) tx tt (upd_inodes <[i := r]> (view tx)).
Proof. eexists. split; [done|]. apply view_put_inode. Qed.

Lemma touchDirTx_run d t tx r :
  fs_inodes (view tx) !! d = Some r →
  runs (touchDirTx d t) tx tt (upd_inode d (touch t) (view tx)).
Proof.
  intros Hd. unfold touchDirTx, View, runs, mbind, M_bind.
  rewrite getInodeTx_view, Hd. eexists. split; [done|].
  rewrite view_put_inode. apply (upd_inode_insert _ _ (touch t) _ Hd).
Qed.

Lemma adjustDirLinksTx_run d k tx r :
  fs_inodes (view tx) !! d = Some r →
  runs (adjustDirLinksTx d k) tx tt (upd_inode d (add_links k) (view tx)).
Proof.
  intros Hd. unfold adjustDirLinksTx, View, runs, mbind, M_bind.
  rewrite getInodeTx_view, Hd. destruct (IsDir r) eqn:Hr; simpl; eexists; (split; [done|]).
  - rewrite view_put_inode, <- (upd_inode_insert _ _ (add_links k) _ Hd).
    unfold add_links. rewrite Hr. do 4 f_equal. destruct (Z.ltb_spec (i32 (i32 (NLink r) + k)) 2); lia.
  - rewrite <- (upd_inode_insert _ _ (add_links k) _ Hd). unfold add_links. rewrite Hr.
    unfold upd_inodes. rewrite insert_id by done. by destruct (view tx).
Qed.

Lemma setDentryTx_run d n i now tx r :
  checkName n = Ok tt → fs_inodes (view tx) !! d = Some r →
  runs (setDentryTx d n i now) tx tt (bind_name d n i now (view tx)).
Proof.
  intros Hn Hd. unfold setDentryTx. destruct (touchDirTx_run d now tx r Hd) as (tx1 & E & V).
  rewrite Hn. unfold runs, mbind, M_bind, of_result. rewrite E. eexists. split; [done|].
  rewrite view_put_dentry, V. done.
Qed.

Lemma setDentryTx_err d n i now tx e :
  checkName n = Err e → setDentryTx d n i now tx = (Err e, tx).
Proof. intros Hn. unfold setDentryTx. by rewrite Hn. Qed.

Lemma allocInodeTx_run tx :
  runs allocInodeTx tx (next_id (view tx)) (upd_seq (λ s, u64 (s + 1)) (view tx)).
Proof. eexists. split; [done|]. by rewrite view_set_sequence. Qed.

Lemma applyQuotaDeltaTx_run b i tx :
  need_room b i (view tx) = Ok tt →
  runs (applyQuotaDeltaTx b i) tx tt (charge b i (view tx)).
Proof.
  unfold need_room. intros Hq. unfold applyQuotaDeltaTx, runs, mbind, M_bind, gets, of_result.
  simpl in *. rewrite Hq. eexists. split; [done|]. by rewrite view_put_quota.
Qed.

Lemma applyQuotaDeltaTx_err b i tx e :
  need_room b i (view tx) = Err e → applyQuotaDeltaTx b i tx = (Err e, tx).
Proof.
  unfold need_room. intros Hq. unfold applyQuotaDeltaTx, mbind, M_bind, gets, of_result.
  simpl in *. by rewrite Hq.
Qed.

Lemma dropLinkTx_run i rec t tx :
  need_drop rec (view tx) = Ok tt →
  runs (dropLinkTx i rec t) tx tt (drop_link i rec t (view tx)).
Proof.
  unfold need_drop, drop_link, last_link, dropLinkTx.
  destruct (negb (IsDir rec) && (1 <? NLink rec)); simpl; intros Hq.
  - apply putInode_run.
  - destruct (applyQuotaDeltaTx_run _ _ _ Hq) as (tx1 & E & V).
    unfold runs, mbind, M_bind. fold (freed rec). rewrite E. eexists. split; [done|].
    by rewrite view_put_grave, view_put_inode, V.
Qed.

Lemma dropLinkTx_err i rec t tx e :
  need_drop rec (view tx) = Err e → dropLinkTx i rec t tx = (Err e, tx).
Proof.
  unfold need_drop, last_link, dropLinkTx.
  destruct (negb (IsDir rec) && (1 <? NLink rec)); simpl; intros Hq; [done|].
  unfold mbind, M_bind. fold (freed rec). by rewrite (applyQuotaDeltaTx_err _ _ _ _ Hq).
Qed.

End view_lemmas.

#[global] Opaque view.
