(* ===== verification/MetaRefine.v ===== *)
(** pkg/metadb: the transactions of MetaDB implement the operations of
    MetaSpec.  Every operation but [Rename] does so in every state;
    [rename_implements] leaves the walk up the tree as a hypothesis, which
    MetaTree discharges for trees. *)
From S2P Require Import Prelude Bolt Chunk Pack MetaDB MetaSpec.

(** * Refinement, one operation at a time *)

Section refinement.
Context `{BoltLaws bucket}.
Implicit Types tx : DB bucket.

Lemma tx_bind {A B} (m : M (DB bucket) A) (k : A → M (DB bucket) B) tx a b f1 pre f' :
  runs m tx a f1 → (∀ tx1, view tx1 = f1 → tx_spec (k a) b pre f' tx1) →
  tx_spec (m ≫= k) b pre f' tx.
Proof.
  intros (tx1 & E & V) Hk. specialize (Hk tx1 V). unfold tx_spec, runs, mbind, M_bind in *.
  by rewrite E.
Qed.

Lemma tx_check {B} (m : M (DB bucket) unit) (k : unit → M (DB bucket) B) tx b r pre f' :
  m tx = (r, tx) → (r = Ok tt → tx_spec (k tt) b pre f' tx) →
  tx_spec (m ≫= k) b (r ⨾ pre) f' tx.
Proof.
  intros E Hk. unfold tx_spec, runs, mbind, M_bind in *. rewrite E.
  destruct r as [[]|e]; simpl; [by apply Hk | eauto].
Qed.

Lemma tx_get {B} i (k : InodeRecord → M (DB bucket) B) tx b pre f' :
  (∀ rec, fs_inodes (view tx) !! i = Some rec → tx_spec (k rec) b (pre rec) f' tx) →
  tx_spec (View (getInodeTx i) ≫= k) b (need_inode i (view tx) pre) f' tx.
Proof.
  intros Hk. unfold tx_spec, runs, need_inode, View, mbind, M_bind in *.
  rewrite getInodeTx_view. destruct (_ !! i) as [rec|]; [by apply Hk | eauto].
Qed.

Lemma tx_try_lookup {B} d n (k : result InodeID → M (DB bucket) B) tx b pre f' :
  (∀ i, fs_names (view tx) !! (d, n) = Some i → tx_spec (k (Ok i)) b pre f' tx) →
  (fs_names (view tx) !! (d, n) = None → tx_spec (k (Err ErrNotFound)) b pre f' tx) →
  tx_spec (attempt (View (lookupTx d n)) ≫= k) b pre f' tx.
Proof.
  intros H1 H2. unfold tx_spec, runs, View, attempt, mbind, M_bind in *.
  rewrite lookupTx_view. destruct (_ !! (d, n)) as [i|]; [by apply H1 | by apply H2].
Qed.

Lemma tx_lookup {B} d n (k : InodeID → M (DB bucket) B) tx b pre f' :
  (∀ i, fs_names (view tx) !! (d, n) = Some i → tx_spec (k i) b pre f' tx) →
  (fs_names (view tx) !! (d, n) = None → pre = Err ErrNotFound) →
  tx_spec (View (lookupTx d n) ≫= k) b pre f' tx.
Proof.
  intros H1 H2. unfold tx_spec, runs, View, mbind, M_bind in *.
  rewrite lookupTx_view. destruct (_ !! (d, n)) as [i|]; [by apply H1 |].
  rewrite H2 by done. eauto.
Qed.

(** A quota charge followed by the rest of a transaction. *)
Lemma tx_charge {B} size inodes (k : unit → M (DB bucket) B) tx b pre f' :
  (∀ tx1, view tx1 = charge size inodes (view tx) → tx_spec (k tt) b pre f' tx1) →
  tx_spec (applyQuotaDeltaTx size inodes ≫= k) b (need_room size inodes (view tx) ⨾ pre) f' tx.
Proof.
  intros Hk. destruct (need_room size inodes (view tx)) as [[]|e] eqn:Hq; simpl.
  - eapply tx_bind; [by apply applyQuotaDeltaTx_run | done].
  - unfold tx_spec, mbind, M_bind. rewrite (applyQuotaDeltaTx_err _ _ _ _ Hq). eauto.
Qed.

Lemma tx_ret {B} tx (b : B) : tx_spec (mret b) b (Ok tt) (view tx) tx.
Proof. by exists tx. Qed.

Lemma tx_update {A} (m : M (DB bucket) A) a pre f' tx :
  tx_spec m a pre f' tx →
  match pre with
  | Ok _ => runs (bolt_update m) tx a f'
  | Err e => bolt_update m tx = (Err e, tx)
  end.
Proof.
  unfold tx_spec, runs. destruct pre as [u|e].
  - intros (tx' & E & V). exists tx'. by rewrite bolt_update_run, E.
  - intros (tx' & E). by rewrite bolt_update_run, E.
Qed.

(** Creating an inode and binding it: common to the three create paths. *)
Lemma tx_create {B} d n rec size now (k : InodeID → M (DB bucket) B) tx b pre f' drec :
  fs_inodes (view tx) !! d = Some drec →
  (∀ tx1, view tx1 = create d n rec size now (view tx) → checkName n = Ok tt →
    tx_spec (k (next_id (view tx))) b pre f' tx1) →
  tx_spec (i ← allocInodeTx; applyQuotaDeltaTx size 1 ≫= λ _, putInode i rec ≫= λ _,
           setDentryTx d n i now ≫= λ _, k i)
    b (need_room size 1 (view tx) ⨾ checkName n ⨾ pre) f' tx.
Proof.
  intros Hd Hk. eapply tx_bind; [apply allocInodeTx_run|]. intros tx1 V1.
  replace (need_room size 1 (view tx)) with (need_room size 1 (view tx1)) by by rewrite V1.
  apply tx_charge. intros tx2 V2.
  eapply tx_bind; [apply putInode_run|]. intros tx3 V3.
  destruct (checkName n) as [[]|e] eqn:Hn; simpl.
  2:{ unfold tx_spec, mbind, M_bind. rewrite (setDentryTx_err _ _ _ _ _ _ Hn). eauto. }
  assert (∃ r, fs_inodes (view tx3) !! d = Some r) as [r Hr].
  { rewrite V3, V2, V1. fsred. rewrite lookup_insert, Hd. case_decide; eauto. }
  eapply tx_bind; [by eapply setDentryTx_run|]. intros tx4 V4.
  apply Hk; [|done]. by rewrite V4, V3, V2, V1.
Qed.

Lemma need_dir_lookup d f : need_dir d f = Ok tt → ∃ r, fs_inodes f !! d = Some r.
Proof. unfold need_dir, need_inode. case_match; [eauto | done]. Qed.

Lemma andThen_Ok r : (r ⨾ Ok tt) = r.
Proof. by destruct r as [[]|]. Qed.

Lemma publishFileTx_spec d n rec now tx :
  tx_spec (publishFileTx d n rec now) (next_id (view tx)) (fs_pre (OPublishFile d n rec now) (view tx))
    (fs_effect (OPublishFile d n rec now) (view tx)) tx.
Proof.
  simpl. apply tx_check; [apply requireDir_run|]. intros [r Hd]%need_dir_lookup.
  apply tx_check; [apply requireAbsent_run|]. intros _.
  rewrite <- (andThen_Ok (checkName n)).
  eapply tx_create; [done|]. intros tx1 <- _. apply tx_ret.
Qed.

Lemma commitMkdirTx_spec d n rec now tx :
  tx_spec (commitMkdirTx d n rec now) (next_id (view tx)) (fs_pre (OCommitMkdir d n rec now) (view tx))
    (fs_effect (OCommitMkdir d n rec now) (view tx)) tx.
Proof.
  simpl. apply tx_check; [apply requireDir_run|]. intros [r Hd]%need_dir_lookup.
  apply tx_check; [apply requireAbsent_run|]. intros _.
  rewrite <- (andThen_Ok (checkName n)).
  eapply tx_create; [done|]. intros tx1 V1 _.
  assert (∃ r, fs_inodes (view tx1) !! d = Some r) as [r1 Hr1].
  { rewrite V1. fsred. rewrite lookup_alter_eq, lookup_insert, Hd. case_decide; simpl; eauto. }
  eapply tx_bind; [by eapply adjustDirLinksTx_run|]. intros tx2 V2.
  rewrite <- V1, <- V2. apply tx_ret.
Qed.

Lemma created_record_size rec : Size (created_record rec) = Size rec.
Proof. unfold created_record. by destruct (IsZero _). Qed.

Lemma commitFileTx_spec d n rec now tx :
  tx_spec (commitFileTx d n rec now) (commit_id d n (view tx)) (fs_pre (OCommitFile d n rec now) (view tx))
    (fs_effect (OCommitFile d n rec now) (view tx)) tx.
Proof.
  simpl. apply tx_check; [apply requireDir_run|]. intros [r Hd]%need_dir_lookup.
  unfold commit_id. apply tx_try_lookup; intros * Hn; rewrite Hn; simpl.
  - apply tx_get. intros old Ho. unfold with_inode. rewrite Ho.
    destruct (IsDir old); simpl; [by eexists|].
    rewrite <- (andThen_Ok (need_room _ _ _)).
    apply tx_charge. intros tx1 V1.
    eapply tx_bind; [apply putInode_run|]. intros tx2 V2.
    rewrite <- V1, <- V2. apply tx_ret.
  - rewrite <- (andThen_Ok (checkName n)).
    rewrite <- (created_record_size rec) at 1 2.
    eapply tx_create; [done|]. intros tx1 <- _. apply tx_ret.
Qed.

(** Dropping a link as the last step of a transaction. *)
Lemma tx_drop i rec t tx :
  tx_spec (dropLinkTx i rec t) tt (need_drop rec (view tx)) (drop_link i rec t (view tx)) tx.
Proof.
  unfold tx_spec. destruct (need_drop rec (view tx)) as [[]|e] eqn:Hq.
  - by apply dropLinkTx_run.
  - rewrite (dropLinkTx_err _ _ _ _ _ Hq). eauto.
Qed.

Lemma deleteDentryTx_run d n tx :
  runs (deleteDentryTx d n) tx tt (upd_names (delete (d, n)) (view tx)).
Proof. eexists. split; [done|]. apply view_delete_dentry. Qed.

Lemma upd_inode_id d f : upd_inode d id f = f.
Proof.
  destruct f. unfold upd_inode, upd_inodes. simpl. f_equal. apply map_eq. intros j.
  destruct (decide (d = j)) as [->|]; [|by rewrite lookup_alter_ne].
  by rewrite lookup_alter_eq, option_fmap_id.
Qed.

(** The effect of an optional adjustment of the parent's links. *)
Lemma adjust_if_run (c : bool) d k tx r :
  fs_inodes (view tx) !! d = Some r →
  runs (if c then adjustDirLinksTx d k else mret tt) tx tt
    (upd_inode d (if c then add_links k else id) (view tx)).
Proof.
  intros Hd. destruct c; [by eapply adjustDirLinksTx_run|].
  rewrite upd_inode_id. by exists tx.
Qed.

Lemma removeEntryTx_spec d n t tx :
  tx_spec (removeEntryTx d n t) tt (fs_pre (ORemoveEntry d n t) (view tx))
    (fs_effect (ORemoveEntry d n t) (view tx)) tx.
Proof.
  apply tx_lookup; [intros i Hn; cbn; rewrite Hn | intros Hn; cbn; by rewrite Hn].
  apply tx_get. intros rec Hi. unfold with_inode. rewrite Hi.
  eapply tx_bind; [apply deleteDentryTx_run|]. intros tx1 V1.
  unfold need_inode. destruct (fs_inodes (view tx) !! d) as [r|] eqn:Hd.
  2:{ unfold tx_spec, touchDirTx, View, mbind, M_bind.
      rewrite getInodeTx_view, V1. fsred. rewrite Hd. eauto. }
  assert (fs_inodes (view tx1) !! d = Some r) as Hd1 by by rewrite V1.
  eapply tx_bind; [by eapply touchDirTx_run|]. intros tx2 V2.
  assert (fs_inodes (view tx2) !! d = Some (touch t r)) as Hd2.
  { rewrite V2. fsred. by rewrite lookup_alter_eq, Hd1. }
  eapply tx_bind; [by eapply adjust_if_run|]. intros tx3 V3.
  unfold unbind_name. rewrite <- V1, <- V2, <- V3.
  replace (need_drop rec (view tx)) with (need_drop rec (view tx3)); [apply tx_drop|].
  by rewrite V3, V2, V1.
Qed.

Lemma linkTx_spec d n i now rec tx :
  fs_inodes (view tx) !! i = Some rec →
  tx_spec (linkTx d n i now) (relink rec now) (fs_pre (OLink d n i now) (view tx))
    (fs_effect (OLink d n i now) (view tx)) tx.
Proof.
  intros Hi. cbn. apply tx_get. intros ? [= <-]%(eq_trans (eq_sym Hi)).
  unfold with_inode. rewrite Hi. destruct (IsDir rec); simpl; [by eexists|].
  apply tx_check; [apply requireDir_run|]. intros [r Hd]%need_dir_lookup.
  apply tx_check; [apply requireAbsent_run|]. intros _. fold (relink rec now).
  eapply tx_bind; [apply putInode_run|]. intros tx1 V1.
  assert (∃ r, fs_inodes (view tx1) !! d = Some r) as [r1 Hr1].
  { rewrite V1. fsred. rewrite lookup_insert, Hd. case_decide; eauto. }
  destruct (checkName n) as [[]|e] eqn:Hn.
  - eapply tx_bind; [by eapply setDentryTx_run|]. intros tx2 V2.
    rewrite <- V1, <- V2. apply tx_ret.
  - unfold tx_spec, mbind, M_bind. rewrite (setDentryTx_err _ _ _ _ _ _ Hn). eauto.
Qed.

(** A transaction that meets its specification makes a method that does. *)
Lemma implements_tx {A} o (m : M (DB bucket) A) a tx :
  tx_spec m a (fs_pre o (view tx)) (fs_effect o (view tx)) tx →
  implements o (bolt_update m ≫= λ _, mret tt) tx.
Proof.
  intros Hm%tx_update. unfold implements, runs, mbind, M_bind in *.
  destruct (fs_pre o (view tx)) as [u|e].
  - destruct Hm as (tx' & E & V). rewrite E. by exists tx'.
  - by rewrite Hm.
Qed.

Lemma implements_tx_unit o (m : M (DB bucket) unit) tx :
  tx_spec m tt (fs_pre o (view tx)) (fs_effect o (view tx)) tx →
  implements o (bolt_update m) tx.
Proof. apply tx_update. Qed.

(** A transaction that cannot fail and whose effect is known. *)
Lemma implements_modify o g tx :
  fs_pre o (view tx) = Ok tt → view (g tx) = fs_effect o (view tx) →
  implements o (bolt_update (modify g)) tx.
Proof.
  intros Hp Hv. apply implements_tx_unit. rewrite Hp. eexists. by split.
Qed.

(** Every operation but [Rename] implements its specification in every state. *)
Lemma run_op_implements o tx : is_rename o = false → implements o (run_op o) tx.
Proof.
  destruct o; intros Ho; try discriminate Ho; cbn [run_op].
  - eapply implements_tx, commitFileTx_spec.
  - eapply implements_tx, publishFileTx_spec.
  - eapply implements_tx, commitMkdirTx_spec.
  - apply implements_tx_unit, removeEntryTx_spec.
  - destruct (fs_inodes (view tx) !! target) as [rec|] eqn:Ht.
    { by eapply implements_tx, linkTx_spec. }
    unfold implements, Link, mbind, M_bind. cbn. unfold need_inode. rewrite Ht.
    rewrite bolt_update_run. unfold linkTx, View, mbind, M_bind.
    by rewrite getInodeTx_view, Ht.
  - unfold SetAttr. apply implements_tx with (a := apply_mut mut now (default (file_record 0 0 0 0) (fs_inodes (view tx) !! id))).
    apply tx_get. intros rec Hr. rewrite Hr. eapply tx_bind; [apply putInode_run|].
    intros tx1 V1. cbn. rewrite <- (upd_inode_insert _ _ _ _ Hr), <- V1. apply tx_ret.
  - apply implements_tx_unit. apply tx_get. intros old Hr. cbn.
    rewrite <- (upd_inode_insert _ _ _ _ Hr). apply putInode_run.
  - apply implements_modify; [done|]. apply view_delete_inode.
  - apply implements_modify; [done|]. apply view_delete_grave.
  - unfold SetQuotaLimits. apply implements_tx_unit. eexists. split; [done|].
    by rewrite view_put_quota, getQuotaTx_view.
  - unfold PutLocator. apply implements_tx_unit. eapply tx_bind; [by eexists|].
    intros tx1 V1. unfold tx_spec, runs, gets, mbind, M_bind. cbn.
    destruct (bk_get _ _); eexists; (split; [done|]); by rewrite ?view_on_container, V1, ?view_on_locator.
  - by apply implements_modify; [|apply view_on_locator].
  - by apply implements_modify; [|apply view_on_container].
  - by apply implements_modify; [|apply view_on_deadcnt].
  - by apply implements_modify; [|apply view_on_deadcnt].
  - apply implements_tx with (a := default class (bk_get metaKeyClass (bMeta tx))).
    unfold tx_spec, runs. cbn [fs_pre fs_effect].
    destruct (bk_get metaKeyClass _); eexists; (split; [done|]); [done|apply view_put_meta].
  - apply implements_tx with
      (a := match bk_get metaKeyChunkSize (bMeta tx) with Some v => i64 (unbe v) | None => size end).
    unfold tx_spec, runs. cbn [fs_pre fs_effect].
    destruct (bk_get metaKeyChunkSize _); eexists; (split; [done|]); [done|apply view_put_meta].
  - eapply implements_tx, allocInodeTx_run.
  - apply implements_modify; [done|]. apply view_put_inode.
  - unfold CreateDentry. apply implements_tx_unit. apply tx_check; [apply requireDir_run|]. intros _.
    unfold tx_spec, runs, gets, mbind, M_bind. cbn. unfold need_free. rewrite names_lookup.
    destruct (bk_get _ _); cbn; eexists; [done|]. split; [done|]. apply view_put_dentry.
  - apply implements_tx_unit. apply tx_check; [apply requireDir_run|]. intros [r Hd]%need_dir_lookup.
    destruct (checkName name) as [[]|e] eqn:Hn; [by eapply setDentryTx_run|].
    eexists. by apply setDentryTx_err.
  - unfold RemoveDentry. apply implements_tx_unit. unfold tx_spec, runs, gets, mbind, M_bind. cbn.
    rewrite names_lookup. destruct (bk_get _ _); cbn; [|by eexists]. apply deleteDentryTx_run.
Qed.

(** ** The side tables *)

Lemma decoded_raw {V} (b : bucket V) k : decoded Some id b !! k = bk_get k b.
Proof. rewrite <- option_fmap_id. apply (decoded_lookup Some id id); [done|by intros ? ? [= ->]]. Qed.

Lemma decoded_raw_put {V} (b : bucket V) k v : decoded Some id (bk_put k v b) = <[k := v]> (decoded Some id b).
Proof. apply (decoded_put Some id id); [done|by intros ? ? [= ->]]. Qed.

Lemma decoded_raw_delete {V} (b : bucket V) k : decoded Some id (bk_delete k b) = delete k (decoded Some id b).
Proof. apply (decoded_delete Some id id); [done|by intros ? ? [= ->]]. Qed.

(** A database with the same side tables. *)
Definition side_is (s : side) (tx : DB bucket) : Prop := side_view tx = s.

(** [Readdir] lists exactly the bindings of the directory. *)
Lemma elem_of_readdirTx d n i tx :
  mkDirEntry n i ∈ readdirTx d tx ↔ fs_names (view tx) !! (d, n) = Some i.
Proof.
  unfold readdirTx. rewrite list_elem_of_fmap, names_lookup, fmap_Some. split.
  - intros ([k v] & [= -> ->] & [Hp Hk]%elem_of_bk_scan).
    apply has_prefix_spec in Hp as [n ->]. exists v. split; [|done].
    unfold dentryPrefix in *. rewrite drop_app_length' by (rewrite length_app, length_be; done).
    unfold dentryKey. by rewrite app_assoc.
  - intros (v & Hk & ->). exists (dentryKey d n, v). split.
    + done.
    + apply elem_of_bk_scan. split; [|done]. apply has_prefix_spec. exists n.
      unfold dentryKey, dentryPrefix. by rewrite <- app_assoc.
Qed.

Lemma elem_of_entries d k i f :
  entries d f !! k = Some i ↔ fs_names f !! k = Some i ∧ k.1 = d.
Proof. unfold entries. by rewrite map_lookup_filter_Some. Qed.

Lemma readdirTx_empty d tx :
  bool_decide (entries d (view tx) = ∅) = negb (0 <? Z.of_nat (length (readdirTx d tx))).
Proof.
  destruct (readdirTx d tx) as [|[n i] l] eqn:E; simpl.
  - apply bool_decide_eq_true, map_eq. intros [d' n]. rewrite lookup_empty.
    apply eq_None_not_Some. intros [i [Hi ?]%elem_of_entries]. simplify_eq/=.
    apply elem_of_readdirTx in Hi. rewrite E in Hi. by apply elem_of_nil in Hi.
  - destruct (Z.ltb_spec 0 (Z.of_nat (S (length l)))); [simpl|lia].
    apply bool_decide_eq_false. intros He.
    assert (fs_names (view tx) !! (d, n) = Some i) as Hi.
    { apply elem_of_readdirTx. rewrite E. apply list_elem_of_here. }
    assert (entries d (view tx) !! (d, n) = Some i) as Hl by by apply elem_of_entries.
    by rewrite He in Hl.
Qed.

Lemma renameTargetOk_run d dst src tx :
  renameTargetOk d dst src tx = (need_replaceable src dst d (view tx), tx).
Proof.
  unfold renameTargetOk, need_replaceable. destruct (IsDir dst), (IsDir src); simpl; try done.
  unfold gets, mbind, M_bind. rewrite readdirTx_empty.
  by destruct (0 <? _).
Qed.

Lemma displace_inodes nd nn t f i r :
  fs_inodes f !! i = Some r → ∃ r', fs_inodes (displace nd nn t f) !! i = Some r'.
Proof.
  intros Hi. unfold displace, with_inode. destruct (_ !! (nd, nn)) as [d|]; [|eauto].
  destruct (_ !! d) as [dst|]; [|eauto].
  unfold drop_link. destruct (last_link dst); fsred; rewrite lookup_insert, Hi; case_decide; eauto.
Qed.

Lemma displace_inodes_None nd nn t f i :
  fs_inodes f !! i = None → fs_inodes (displace nd nn t f) !! i = None.
Proof.
  intros Hi. unfold displace, with_inode. destruct (_ !! (nd, nn)) as [d|]; [|eauto].
  destruct (_ !! d) as [dst|] eqn:Hd; [|eauto].
  unfold drop_link. destruct (last_link dst); fsred; rewrite lookup_insert; case_decide; congruence.
Qed.

Lemma drop_link_names i rec t f : fs_names (drop_link i rec t f) = fs_names f.
Proof. unfold drop_link. by destruct (last_link rec). Qed.

Lemma displace_names nd nn t f : fs_names (displace nd nn t f) = fs_names f.
Proof.
  unfold displace, with_inode. destruct (_ !! (nd, nn)) as [d|]; [|done].
  destruct (_ !! d) as [dst|]; [apply drop_link_names|done].
Qed.

Lemma renameDisplace_spec nd nn src t tx :
  tx_spec (renameDisplace nd nn src t) tt (need_displace src nd nn (view tx))
    (displace nd nn t (view tx)) tx.
Proof.
  apply tx_try_lookup; unfold need_displace, displace; intros * Hn; rewrite Hn.
  - apply tx_get. intros dst Hd. unfold with_inode. rewrite Hd.
    apply tx_check; [apply renameTargetOk_run|]. intros _. apply tx_drop.
  - apply tx_ret.
Qed.

Lemma reparent_run src od nd tx r r' :
  fs_inodes (view tx) !! od = Some r → fs_inodes (view tx) !! nd = Some r' →
  runs (if IsDir src && negb (bool_decide (od = nd)) then
          adjustDirLinksTx od (-1) ≫= λ _, adjustDirLinksTx nd 1
        else mret tt) tx tt (reparent src od nd (view tx)).
Proof.
  intros Ho Hn. unfold reparent. destruct (_ && _) eqn:E; [|by exists tx].
  apply andb_true_iff in E as [_ E]. apply negb_true_iff, bool_decide_eq_false in E.
  destruct (adjustDirLinksTx_run od (-1) tx r Ho) as (tx1 & E1 & V1).
  destruct (adjustDirLinksTx_run nd 1 tx1 r') as (tx2 & E2 & V2).
  { rewrite V1. fsred. by rewrite lookup_alter_ne. }
  exists tx2. unfold mbind, M_bind. rewrite E1. split; [done|]. by rewrite V2, V1.
Qed.


Lemma tx_seq {A B} (m : M (DB bucket) A) (k : A → M (DB bucket) B) tx a b f1 p pre f' :
  tx_spec m a p f1 tx → (p = Ok tt → ∀ tx1, view tx1 = f1 → tx_spec (k a) b pre f' tx1) →
  tx_spec (m ≫= k) b (p ⨾ pre) f' tx.
Proof.
  intros Hm Hk. destruct p as [[]|e]; simpl.
  - by eapply tx_bind; [exact Hm | apply Hk].
  - destruct Hm as (tx' & E). unfold tx_spec, mbind, M_bind. rewrite E. eauto.
Qed.

(** The second half of [Rename]: everything after the checks. *)
Lemma rename_move_spec od on nd nn s src t now tx f0 :
  view tx = displace nd nn t f0 → checkName nn = Ok tt →
  is_Some (fs_inodes f0 !! nd) →
  tx_spec (deleteDentryTx od on ≫= λ _, touchDirTx od t ≫= λ _,
    (if IsDir src && negb (bool_decide (od = nd)) then
       adjustDirLinksTx od (-1) ≫= λ _, adjustDirLinksTx nd 1 else mret tt) ≫= λ _,
    putInode s (set_CTime t src) ≫= λ _, setDentryTx nd nn s now) tt
    (need_inode od f0 (λ _, Ok tt))
    (bind_name nd nn s now (upd_inodes <[s := set_CTime t src]>
      (reparent src od nd (unbind_name od on t (displace nd nn t f0))))) tx.
Proof.
  intros V Hnn [rn Hnd]. eapply tx_bind; [apply deleteDentryTx_run|]. intros tx1 V1.
  destruct (displace_inodes nd nn t f0 nd rn Hnd) as [rn' Hnd'].
  unfold need_inode. destruct (fs_inodes f0 !! od) as [ro|] eqn:Hod.
  2:{ unfold tx_spec, touchDirTx, View, mbind, M_bind. rewrite getInodeTx_view, V1. fsred.
      destruct (fs_inodes (view tx) !! od) as [r|] eqn:E; [|eauto].
      by rewrite V, displace_inodes_None in E. }
  destruct (displace_inodes nd nn t f0 od ro Hod) as [ro' Hod'].
  assert (fs_inodes (view tx1) !! od = Some ro') as Hod1 by by rewrite V1, V.
  eapply tx_bind; [by eapply touchDirTx_run|]. intros tx2 V2.
  assert (fs_inodes (view tx2) !! od = Some (touch t ro')) as Hod2.
  { rewrite V2. fsred. by rewrite lookup_alter_eq, Hod1. }
  assert (∃ r, fs_inodes (view tx2) !! nd = Some r) as [r2 Hnd2].
  { rewrite V2. fsred. rewrite lookup_alter, V1, V. fsred. rewrite ?Hnd', ?Hod'. case_decide; simpl; eauto. }
  eapply tx_bind; [by eapply reparent_run|]. intros tx3 V3.
  eapply tx_bind; [apply putInode_run|]. intros tx4 V4.
  assert (∃ r, fs_inodes (view tx4) !! nd = Some r) as [r4 Hnd4].
  { rewrite V4. fsred. rewrite lookup_insert. case_decide; [eauto|].
    rewrite V3. unfold reparent. destruct (_ && _); [|eauto]. fsred.
    rewrite !lookup_alter, ?Hnd2, ?Hod2. repeat case_decide; simpl; eauto. }
  unfold unbind_name. rewrite <- V, <- V1, <- V2, <- V3, <- V4.
  by eapply setDentryTx_run.
Qed.

(** [Rename], given that its walk up the tree answers the question the
    specification asks. *)
Lemma rename_implements od on nd nn t now tx :
  (∀ s src, fs_names (view tx) !! (od, on) = Some s → fs_inodes (view tx) !! s = Some src →
    IsDir src = true → need_dir nd (view tx) = Ok tt →
    checkNotDescendantTx s nd tx = require (negb (fs_below s nd (view tx))) ErrInvalidRename) →
  implements (ORename od on nd nn t now) (Rename od on nd nn t now) tx.
Proof.
  intros Hwalk. unfold implements, Rename. cbn [fs_pre fs_effect].
  destruct (_ && _); [by exists tx|].
  destruct (checkName nn) as [[]|e] eqn:Hnn; [|done].
  apply (tx_update (renameTx od on nd nn t now)).
  apply tx_lookup; [intros s Hs | intros Hs]; cbn [andThen]; rewrite Hs; [|done].
  apply tx_get. intros src Hsrc. unfold with_inode. rewrite Hsrc.
  apply tx_check; [apply requireDir_run|]. intros Hnd. pose proof Hnd as [rn Hrn]%need_dir_lookup.
  apply tx_check.
  { destruct (IsDir src) eqn:Hd; [|done]. unfold View. by erewrite Hwalk. }
  intros _. eapply tx_seq; [apply renameDisplace_spec|]. intros _ tx1 V1.
  by apply rename_move_spec.
Qed.

End refinement.
