(* ===== verification/MetaTree.v ===== *)
(** pkg/metadb: the namespace is a tree.

    [tree] says the live directories form a tree under the root: bindings
    join live inodes, a directory has one name, the root none, and every
    live directory is reached from the root.  In a tree the walk of
    [checkNotDescendantTx] ends and decides whether the target lies inside
    the moved directory, which completes the refinement of [Rename]. *)
From S2P Require Import Prelude Bolt Chunk Pack MetaDB MetaSpec MetaRefine.

Definition live_dir (f : fs) (d : InodeID) : Prop :=
  ∃ r, fs_inodes f !! d = Some r ∧ IsDir r = true ∧ 0 < NLink r.

Definition live (f : fs) (i : InodeID) : Prop := ∃ r, fs_inodes f !! i = Some r ∧ 0 < NLink r.

Definition is_dir (f : fs) (d : InodeID) : Prop := ∃ r, fs_inodes f !! d = Some r ∧ IsDir r = true.

(** [at_depth f k i]: a path of [k] names leads from the root to [i]. *)
Inductive at_depth (f : fs) : nat → InodeID → Prop :=
  | at_root : at_depth f 0 RootInode
  | at_child k d n i :
      at_depth f k d → fs_names f !! (d, n) = Some i → at_depth f (S k) i.

(** [inside f a i]: [i] is [a] or lies in the directory tree below it. *)
Inductive inside (f : fs) (a : InodeID) : InodeID → Prop :=
  | inside_self : inside f a a
  | inside_child d n i : inside f a d → fs_names f !! (d, n) = Some i → inside f a i.

Record tree (f : fs) : Prop := {
  tree_root : live_dir f RootInode;
  tree_top k : fs_names f !! k ≠ Some RootInode;
  tree_edge d n i : fs_names f !! (d, n) = Some i → live_dir f d ∧ live f i;
  tree_unique i k1 k2 :
    is_dir f i → fs_names f !! k1 = Some i → fs_names f !! k2 = Some i → k1 = k2;
  tree_reach d : live_dir f d → ∃ k, at_depth f k d
}.

(** A directory, or an inode that has been one: names are bound in it. *)
Definition dir_like (f : fs) (i : InodeID) : Prop :=
  is_dir f i ∨ ∃ n c, fs_names f !! (i, n) = Some c.

(** What is left of the tree when the callers are not orderly: parts of it
    may hang from removed directories, but nothing hangs from two places or
    from itself. *)
Record forest (f : fs) : Prop := {
  fo_top k : fs_names f !! k ≠ Some RootInode;
  fo_unique i k1 k2 :
    dir_like f i → fs_names f !! k1 = Some i → fs_names f !! k2 = Some i → k1 = k2;
  fo_parent d n c r : fs_names f !! (d, n) = Some c → fs_inodes f !! d = Some r → IsDir r = true;
  fo_acyclic d n c : fs_names f !! (d, n) = Some c → ¬ inside f c d
}.

(** Every key of the dentry and graveyard buckets is one [dentryKey] or
    [graveyardKey] built. *)
Definition keys_ok `{BoltOps bucket} (tx : DB bucket) : Prop :=
  (∀ k v, bk_get k (bDentry tx) = Some v → is_Some (dec_dentry k)) ∧
  (∀ k v, bk_get k (bGravey tx) = Some v → is_Some (dec_grave k)).

(** [m] keeps [P], whether it succeeds or fails. *)
Definition keeps {S A} (P : S → Prop) (m : M S A) : Prop := ∀ s, P s → P (m s).2.

(** * Trees *)

Section tree.
Context (f : fs) (T : tree f).

Lemma live_dir_is_dir d : live_dir f d → is_dir f d.
Proof. intros (r & ? & ? & _). by exists r. Qed.

Lemma depth_unique j k i : is_dir f i → at_depth f j i → at_depth f k i → j = k.
Proof.
  intros Hi Hj. revert k Hi. induction Hj as [|j d n i Hd IH Hn]; intros k Hi Hk.
  - inversion Hk as [|k' d n i Hd Hn]; [done|]. by apply (tree_top f T) in Hn.
  - inversion Hk as [|k' d' n' i' Hd' Hn']; subst; [by apply (tree_top f T) in Hn|].
    pose proof (tree_unique f T _ _ _ Hi Hn Hn') as [= <- <-].
    f_equal. apply IH; [|done]. apply live_dir_is_dir. by eapply (tree_edge f T).
Qed.

(** A path to a directory consists of distinct bindings. *)
Lemma depth_path k i :
  is_dir f i → at_depth f k i →
  ∃ l : list (InodeID * bytes), length l = k ∧ NoDup l ∧
    ∀ x, x ∈ l → ∃ j c, fs_names f !! x = Some c ∧ is_dir f c ∧ at_depth f (S j) c ∧ (j < k)%nat.
Proof.
  intros Hi Hk. induction Hk as [|k d n i Hd IH Hn].
  { exists []. split_and!; [done|constructor|]. by intros x ?%elem_of_nil. }
  destruct IH as (l & Hl & Hnd & Hin).
  { apply live_dir_is_dir. by eapply (tree_edge f T). }
  exists ((d, n) :: l). split_and!; [simpl; lia| |].
  - constructor; [|done]. intros (j & c & Hc & Hdir & Hdep & Hlt)%Hin.
    rewrite Hn in Hc. injection Hc as <-.
    pose proof (depth_unique (S j) (S k) i Hdir Hdep). 
    assert (at_depth f (S k) i) by by econstructor. naive_solver lia.
  - intros x [->|Hx]%elem_of_cons.
    + exists k, i. split_and!; [done|done|by econstructor|lia].
    + destruct (Hin x Hx) as (j & c & ? & ? & ? & ?). exists j, c. split_and!; try done. lia.
Qed.

Lemma depth_bound k i : is_dir f i → at_depth f k i → (k <= size (fs_names f))%nat.
Proof.
  intros Hi Hk. destruct (depth_path k i Hi Hk) as (l & <- & Hnd & Hin).
  rewrite <- (size_list_to_set (C := gset _) l) by done.
  rewrite <- size_dom. apply subseteq_size. intros x Hx.
  apply elem_of_list_to_set in Hx. destruct (Hin x Hx) as (? & ? & Hc & _).
  by eapply elem_of_dom_2.
Qed.

Lemma not_own_parent d n : fs_names f !! (d, n) = Some d → False.
Proof.
  intros Hn. pose proof (tree_edge f T _ _ _ Hn) as [Hd _].
  destruct (tree_reach f T d Hd) as [k Hk].
  pose proof (depth_unique k (S k) d (live_dir_is_dir _ Hd) Hk (at_child f _ _ _ _ Hk Hn)). lia.
Qed.

(** Down a path the depth grows. *)
Lemma inside_depth a k d : at_depth f k a → inside f a d → ∃ j, at_depth f j d ∧ (k <= j)%nat.
Proof.
  intros Hk. induction 1 as [|d n i _ (j & Hj & Hle) Hn]; [by exists k|].
  exists (S j). split; [by econstructor|lia].
Qed.

Lemma tree_forest : forest f.
Proof.
  split.
  - apply (tree_top f T).
  - intros i k1 k2 [Hi|(n & c & Hn)]; [by apply (tree_unique f T)|].
    apply (tree_unique f T), live_dir_is_dir. by eapply (tree_edge f T).
  - intros d n c r Hn Hr. destruct (tree_edge f T _ _ _ Hn) as [(r' & ? & ? & _) _]. congruence.
  - intros d n c Hn Hin. pose proof (tree_edge f T _ _ _ Hn) as [Hd _].
    destruct (tree_reach f T d Hd) as [k Hk].
    destruct (inside_depth c (S k) d) as (j & Hj & Hle); [by econstructor|done|].
    pose proof (depth_unique k j d (live_dir_is_dir _ Hd) Hk Hj). lia.
Qed.

End tree.

(** * Forests *)

(** The first step of a path. *)
Lemma inside_front f a i :
  inside f a i ↔ i = a ∨ ∃ n c, fs_names f !! (a, n) = Some c ∧ inside f c i.
Proof.
  split.
  - induction 1 as [|d n i Hd IH Hn]; [by left|]. right. destruct IH as [->|(m & c & Hm & Hc)].
    + exists n, i. split; [done|constructor].
    + exists m, c. split; [done|]. by econstructor.
  - intros [->|(n & c & Hn & Hc)]; [constructor|].
    induction Hc as [|d m i Hd IH Hm]; [by econstructor; [constructor|]|by econstructor].
Qed.

Section forest.
Context (f : fs) (T : forest f).

Lemma fs_parent_spec d n i : dir_like f i → fs_names f !! (d, n) = Some i → fs_parent i f = Some d.
Proof.
  intros Hi Hn. unfold fs_parent.
  assert (((d, n), i) ∈ map_to_list (links i f)) as Hin.
  { apply elem_of_map_to_list. unfold links. by rewrite map_lookup_filter_Some. }
  destruct (map_to_list (links i f)) as [|[[d' n'] i'] l] eqn:E; [by apply elem_of_nil in Hin|].
  assert (((d', n'), i') ∈ map_to_list (links i f)) as Hin'
    by (rewrite E; apply list_elem_of_here).
  apply elem_of_map_to_list in Hin'. unfold links in Hin'.
  apply map_lookup_filter_Some in Hin' as [Hn' Ei]. simpl in Ei. subst i'.
  by pose proof (fo_unique f T _ _ _ Hi Hn Hn') as [= <- <-].
Qed.

Lemma fs_parent_None i : (∀ k, fs_names f !! k ≠ Some i) → fs_parent i f = None.
Proof.
  intros Hno. unfold fs_parent. assert (links i f = ∅) as ->; [|by rewrite map_to_list_empty].
  apply map_empty. intros k. unfold links. rewrite map_lookup_filter_None. right.
  intros j Hj. simpl. intros ->. by apply Hno in Hj.
Qed.

(** The bindings a walk upwards has passed: all lie below where it is now, so
    the next one is new. *)
Definition passed (d : InodeID) (V : gset (InodeID * bytes)) : Prop :=
  ∀ x, x ∈ V → is_Some (fs_names f !! x) ∧ inside f d x.1.

Lemma passed_bound d V : passed d V → (size V <= size (fs_names f))%nat.
Proof.
  intros HV. rewrite <- size_dom. apply subseteq_size. intros x [Hx _]%HV. by apply elem_of_dom.
Qed.

Lemma passed_up d V p n :
  passed d V → fs_names f !! (p, n) = Some d →
  passed p ({[(p, n)]} ∪ V) ∧ size ({[(p, n)]} ∪ V) = S (size V).
Proof.
  intros HV Hn. split.
  - intros x [->%elem_of_singleton|[Hx Hin]%HV]%elem_of_union; [split; [eauto|constructor]|].
    split; [done|]. apply inside_front. right. eauto.
  - rewrite size_union, size_singleton; [done|]. apply disjoint_singleton_l.
    intros [_ Hin]%HV. by apply (fo_acyclic f T _ _ _ Hn) in Hin.
Qed.

Lemma dir_like_parent p n c : fs_names f !! (p, n) = Some c → dir_like f p.
Proof. right. eauto. Qed.

Lemma fs_above_inside a d V fuel :
  a ≠ RootInode → dir_like f d → passed d V → (size (fs_names f) < fuel + size V)%nat →
  fs_above fuel a d f = true ↔ inside f a d.
Proof.
  intros Ha. revert d V. induction fuel as [|fuel IH]; intros d V Hd HV Hf.
  { pose proof (passed_bound d V HV). lia. }
  cbn. case_bool_decide as Hroot.
  { subst. split; [done|]. intros Hin. inversion Hin as [|p n i _ Hn]; [done|]. by apply (fo_top f T) in Hn. }
  case_bool_decide as Hda; [subst; split; [constructor|done]|].
  destruct (fs_parent d f) as [p|] eqn:Hp.
  - unfold fs_parent in Hp. destruct (map_to_list (links d f)) as [|[[p' n] i] l] eqn:E; [done|].
    injection Hp as ->. assert (((p, n), i) ∈ map_to_list (links d f)) as Hin by (rewrite E; apply list_elem_of_here).
    apply elem_of_map_to_list in Hin. unfold links in Hin. apply map_lookup_filter_Some in Hin as [Hn Ei].
    simpl in Ei. subst i. destruct (passed_up d V p n HV Hn) as [HV' Hsz].
    rewrite (IH p _ (dir_like_parent _ _ _ Hn) HV') by lia.
    split; [by econstructor|]. intros Hin. inversion Hin as [|p' n' i Hin' Hn']; [done|subst].
    by pose proof (fo_unique f T _ _ _ Hd Hn Hn') as [= <- <-].
  - split; [done|]. intros Hin. inversion Hin as [|p n i _ Hn]; [done|subst].
    by rewrite (fs_parent_spec _ _ _ Hd Hn) in Hp.
Qed.

(** [fs_below] decides whether a directory lies inside another. *)
Lemma fs_below_inside a d : a ≠ RootInode → dir_like f d → fs_below a d f = true ↔ inside f a d.
Proof.
  intros Ha Hd. apply (fs_above_inside a d ∅); [done|done|by intros ? ?%elem_of_empty|].
  rewrite size_empty. lia.
Qed.

End forest.

(** * The walk of the code *)

Section walk.
Context `{BoltLaws bucket} (tx : DB bucket) (Hkeys : keys_ok tx) (T : forest (view tx)).

Lemma elem_of_dentries k v :
  (k, v) ∈ bk_cursor (bDentry tx) → ∃ d n, k = dentryKey d n ∧
    fs_names (view tx) !! (d, n) = Some (getID v).
Proof.
  rewrite bk_cursor_get. intros Hk. destruct (proj1 Hkeys k v Hk) as [[d n] Hd].
  apply dec_dentry_Some in Hd as ->. exists d, n. split; [done|].
  rewrite names_lookup. simpl in Hk. by rewrite Hk.
Qed.

Lemma first_parent_spec child (l : list (bytes * bytes)) :
  match first_parent child l with
  | Ok p => ∃ k v, (k, v) ∈ l ∧ getID v = child ∧ p = getID k
  | Err e => e = ErrNotFound ∧ ∀ k v, (k, v) ∈ l → getID v ≠ child
  end.
Proof.
  induction l as [|[k v] l IH]; simpl.
  { split; [done|]. by intros ? ? ?%elem_of_nil. }
  case_bool_decide as E; [exists k, v; split_and!; [apply list_elem_of_here|done|done]|].
  destruct (first_parent child l) as [p|e].
  - destruct IH as (k' & v' & ? & ? & ?). exists k', v'. by rewrite elem_of_cons; auto.
  - destruct IH as [-> IH]. split; [done|]. intros k' v' [[= -> ->]|?]%elem_of_cons; eauto.
Qed.

Lemma parentOfTx_spec d n i :
  dir_like (view tx) i → fs_names (view tx) !! (d, n) = Some i → parentOfTx i tx = Ok d.
Proof.
  intros Hi Hn. unfold parentOfTx. pose proof (first_parent_spec i (bk_cursor (bDentry tx))) as Hp.
  destruct (first_parent i _) as [p|e].
  - destruct Hp as (k & v & Hin & Hv & ->). apply elem_of_dentries in Hin as (d' & n' & -> & Hn').
    rewrite Hv in Hn'. pose proof (fo_unique _ T _ _ _ Hi Hn Hn') as [= <- <-].
    f_equal. apply getID_be.
  - destruct Hp as [_ Hp]. exfalso. rewrite names_lookup in Hn.
    apply fmap_Some in Hn as (v & Hv & ->). by apply bk_cursor_get, Hp in Hv.
Qed.

Lemma names_size : (size (fs_names (view tx)) <= length (bk_cursor (bDentry tx)))%nat.
Proof.
  rewrite <- size_dom. 
  rewrite <- (length_fmap (λ kv : bytes * bytes, default (RootInode, []) (dec_dentry kv.1))).
  etrans; [|apply (size_list_to_set_le (A := InodeID * bytes))].
  apply subseteq_size. intros [d n] [i Hi]%elem_of_dom.
  rewrite names_lookup in Hi. apply fmap_Some in Hi as (v & Hv & ->).
  apply elem_of_list_to_set, list_elem_of_fmap. exists (dentryKey d n, v).
  simpl. rewrite dec_dentry_key. split; [done|]. by apply bk_cursor_get.
Qed.

Lemma parentOfTx_none i : (∀ k, fs_names (view tx) !! k ≠ Some i) → parentOfTx i tx = Err ErrNotFound.
Proof.
  intros Hno. unfold parentOfTx. pose proof (first_parent_spec i (bk_cursor (bDentry tx))) as Hp.
  destruct (first_parent i _) as [p|e]; [|by destruct Hp as [-> _]].
  destruct Hp as (k & v & (d' & n' & -> & Hn')%elem_of_dentries & Hv & ->).
  rewrite Hv in Hn'. by apply Hno in Hn'.
Qed.

Lemma walk_up_above a d V fuel fuel' :
  dir_like (view tx) d → passed (view tx) d V →
  (size (fs_names (view tx)) < fuel + size V)%nat → (size (fs_names (view tx)) < fuel' + size V)%nat →
  walk_up fuel a d tx = require (negb (fs_above fuel' a d (view tx))) ErrInvalidRename.
Proof.
  revert d V fuel'. induction fuel as [|fuel IH]; intros d V fuel' Hd HV Hf Hf';
    pose proof (passed_bound _ d V HV); [lia|]. destruct fuel' as [|fuel']; [lia|]. cbn.
  case_bool_decide; [done|]. case_bool_decide; [done|].
  destruct (fs_parent d (view tx)) as [p|] eqn:Hp.
  - unfold fs_parent in Hp. destruct (map_to_list (links d (view tx))) as [|[[p' n] i] l] eqn:E; [done|].
    injection Hp as ->.
    assert (((p, n), i) ∈ map_to_list (links d (view tx))) as Hin by (rewrite E; apply list_elem_of_here).
    apply elem_of_map_to_list in Hin. unfold links in Hin. apply map_lookup_filter_Some in Hin as [Hn Ei].
    simpl in Ei. subst i. rewrite (parentOfTx_spec _ _ _ Hd Hn).
    case_bool_decide as Hpd; [subst; destruct (fo_acyclic _ T _ _ _ Hn); constructor|].
    destruct (passed_up _ T d V p n HV Hn) as [HV' Hsz].
    apply (IH p _ fuel' (dir_like_parent _ _ _ _ Hn) HV'); lia.
  - rewrite parentOfTx_none; [done|]. intros [p n] Hn.
    by rewrite (fs_parent_spec _ T _ _ _ Hd Hn) in Hp.
Qed.

(** The walk of the code ends and gives the answer of the specification. *)
Lemma checkNotDescendantTx_spec a d :
  is_dir (view tx) d →
  checkNotDescendantTx a d tx = require (negb (fs_below a d (view tx))) ErrInvalidRename.
Proof.
  intros Hd. unfold checkNotDescendantTx, walk_fuel, fs_below. pose proof names_size.
  apply (walk_up_above a d ∅); [by left|by intros ? ?%elem_of_empty|rewrite size_empty; lia..].
Qed.

End walk.

(** * Refinement *)

Section refine.
Context `{BoltLaws bucket}.
Implicit Types tx : DB bucket.

Lemma need_dir_is_dir d f : need_dir d f = Ok tt → is_dir f d.
Proof.
  unfold need_dir, need_inode, require. destruct (_ !! d) as [r|] eqn:Hr; [|done].
  destruct (IsDir r) eqn:Hd; [|done]. by exists r.
Qed.

(** In a forest every operation implements its specification. *)
Lemma op_implements o tx : keys_ok tx → forest (view tx) → implements o (run_op o) tx.
Proof.
  intros Hk T. destruct (is_rename o) eqn:Ho; [|by apply run_op_implements].
  destruct o; try discriminate Ho. apply rename_implements.
  intros s src _ _ _ Hnd%need_dir_is_dir. by apply checkNotDescendantTx_spec.
Qed.

(** ** Keys stay well formed *)

Lemma keeps_ret {S A} (P : S → Prop) (a : A) : keeps P (mret a).
Proof. by intros s. Qed.

Lemma keeps_throw {S A} (P : S → Prop) e : keeps P (throw e : M S A).
Proof. by intros s. Qed.

Lemma keeps_bind {S A B} (P : S → Prop) (m : M S A) (k : A → M S B) :
  keeps P m → (∀ a, keeps P (k a)) → keeps P (m ≫= k).
Proof.
  intros Hm Hk s Hs. specialize (Hm s Hs). unfold mbind, M_bind.
  destruct (m s) as [[a|e] s1]; [by apply Hk | done].
Qed.

Lemma keeps_attempt {S A} (P : S → Prop) (m : M S A) : keeps P m → keeps P (attempt m).
Proof. intros Hm s Hs. rewrite attempt_run. by apply Hm. Qed.

Lemma keeps_update {S A} (P : S → Prop) (m : M S A) : keeps P m → keeps P (bolt_update m).
Proof.
  intros Hm s Hs. specialize (Hm s Hs). rewrite bolt_update_run.
  by destruct (m s) as [[a|e] s1].
Qed.

Lemma keeps_modify_other (g : DB bucket → DB bucket) :
  (∀ tx, bDentry (g tx) = bDentry tx ∧ bGravey (g tx) = bGravey tx) → keeps keys_ok (modify g).
Proof. intros Hg tx Hs. unfold keys_ok. cbn. by destruct (Hg tx) as [-> ->]. Qed.

Lemma keeps_put_dentry d n i :
  keeps keys_ok (modify (on_dentry (bucket := bucket) (bk_put (dentryKey d n) (be 8 (w64 i))))).
Proof.
  intros tx [Hs Hg]. split; [|done]. intros k v. cbn. rewrite bk_get_put. case_decide; [|apply Hs].
  subst. rewrite dec_dentry_key. eauto.
Qed.

Lemma keeps_put_grave t i :
  keeps keys_ok (modify (on_gravey (bucket := bucket) (bk_put (graveyardKey t i) []))).
Proof.
  intros tx [Hs Hg]. split; [done|]. intros k v. cbn. rewrite bk_get_put. case_decide; [|apply Hg].
  subst. rewrite graveyardKey_enc, dec_grave_key. eauto.
Qed.

Lemma keeps_delete_grave k :
  keeps keys_ok (modify (on_gravey (bucket := bucket) (bk_delete k))).
Proof.
  intros tx [Hs Hg]. split; [done|]. intros k' v. cbn. rewrite bk_get_delete. case_decide; [done|apply Hg].
Qed.

Lemma keeps_delete_dentry d n :
  keeps keys_ok (modify (on_dentry (bucket := bucket) (bk_delete (dentryKey d n)))).
Proof.
  intros tx [Hs Hg]. split; [|done]. intros k v. cbn. rewrite bk_get_delete. case_decide; [done|apply Hs].
Qed.

(** A read keeps everything. *)
Lemma keeps_view {A} (P : DB bucket → Prop) (r : DB bucket → result A) : keeps P (View r).
Proof. by intros s. Qed.

Lemma keeps_gets {S A} (P : S → Prop) (r : S → A) : keeps P (gets r).
Proof. by intros s. Qed.

Lemma keeps_of_result {S A} (P : S → Prop) (r : result A) : keeps P (of_result r : M S A).
Proof. by intros s. Qed.

End refine.

#[export] Hint Resolve keeps_ret keeps_throw keeps_attempt keeps_update keeps_put_dentry
  keeps_delete_dentry keeps_put_grave keeps_delete_grave keeps_view keeps_gets keeps_of_result : atlas.

(** Walk through a computation, proving that each step keeps the invariant. *)
Ltac keep :=
  repeat first
    [ solve [eauto with atlas]
    | apply keeps_modify_other; by intros ?
    | apply keeps_bind; intros
    | apply keeps_update
    | match goal with |- keeps _ (if ?b then _ else _) => destruct b end
    | match goal with |- keeps _ (match ?x with _ => _ end) => destruct x end ].

Section keys.
Context `{BoltLaws bucket}.

Lemma run_op_keys o : keeps keys_ok (run_op (bucket := bucket) o).
Proof.
  destruct o; cbn [run_op]; unfold CommitFile, commitFileTx, PublishFile, publishFileTx,
    CommitMkdir, commitMkdirTx, RemoveEntry, removeEntryTx, Link, linkTx, Rename, renameTx,
    SetAttr, UpdateInodeContent, DeleteInode, RemoveGraveyardEntry, SetQuotaLimits,
    PutLocator, DeleteLocator, ForgetContainer, MarkContainerDead, RemoveDeadContainer,
    requireDir, requireAbsent, applyQuotaDeltaTx, putInode, putQuotaTx, setDentryTx,
    touchDirTx, adjustDirLinksTx, dropLinkTx, deleteDentryTx, addToGraveyardTx, renameDisplace,
    renameTargetOk, deleteDentryTx, putInode, putQuotaTx, AllocInode, PutInode, CreateDentry, SetDentry,
    RemoveDentry, allocInodeTx, setDentryTx, touchDirTx, putInode, deleteDentryTx; keep.
  - unfold dropLinkTx, applyQuotaDeltaTx, putInode, putQuotaTx, addToGraveyardTx. keep.
  - intros tx Hs. by destruct (bk_get metaKeyClass _).
  - intros tx Hs. by destruct (bk_get metaKeyChunkSize _).
Qed.
(** ** The side tables *)

Lemma keeps_modify_side s (g : DB bucket → DB bucket) :
  (∀ tx, side_view (g tx) = side_view tx) → keeps (side_is s) (modify g).
Proof. intros Hg tx Hs. unfold side_is. cbn. by rewrite Hg. Qed.

Lemma side_view_sequence n tx : side_view (on_meta (bk_set_sequence n) tx) = side_view (bucket := bucket) tx.
Proof. unfold side_view. cbn. by rewrite !bk_get_set_sequence. Qed.

(** An operation on names, records or quotas leaves the side tables alone. *)
Definition side_op (o : op) : bool :=
  match o with
  | OPutLocator _ _ _ _ | ODeleteLocator _ _ | OForgetContainer _ | OMarkContainerDead _ _
  | ORemoveDeadContainer _ | OEnsureClass _ | OEnsureChunkSize _ => true
  | _ => false
  end.

Lemma run_op_side_same o s : side_op o = false → keeps (side_is s) (run_op (bucket := bucket) o).
Proof.
  destruct o; intros Ho; try discriminate Ho; cbn [run_op]; unfold CommitFile, commitFileTx, PublishFile, publishFileTx,
    CommitMkdir, commitMkdirTx, RemoveEntry, removeEntryTx, Link, linkTx, Rename, renameTx,
    SetAttr, UpdateInodeContent, DeleteInode, RemoveGraveyardEntry, SetQuotaLimits,
    requireDir, requireAbsent, applyQuotaDeltaTx, putInode, putQuotaTx, setDentryTx,
    touchDirTx, adjustDirLinksTx, dropLinkTx, deleteDentryTx, addToGraveyardTx, renameDisplace,
    renameTargetOk, deleteDentryTx, putInode, putQuotaTx, AllocInode, PutInode, CreateDentry, SetDentry,
    RemoveDentry, setDentryTx, touchDirTx, putInode, deleteDentryTx, dropLinkTx, applyQuotaDeltaTx,
    addToGraveyardTx, putInode, putQuotaTx;
    repeat first [ progress keep | apply keeps_modify_side; by intros ? ];
    try (intros tx Hs; unfold side_is; cbn; by rewrite side_view_sequence).
Qed.

Lemma side_put_sealed (b : bucket time) c t :
  decoded Some id (match bk_get c b with Some _ => b | None => bk_put c t b end)
  = partial_alter (λ o, keep_or o t) c (decoded Some id b).
Proof.
  apply map_eq. intros k. rewrite decoded_raw. destruct (decide (k = c)) as [->|Hne].
  - rewrite lookup_partial_alter_eq, decoded_raw. destruct (bk_get c b) eqn:E; [done|]. by rewrite bk_get_put_eq.
  - rewrite lookup_partial_alter_ne, decoded_raw by done.
    destruct (bk_get c b); [done|]. by rewrite bk_get_put_ne.
Qed.

(** What each operation does to the side tables. *)
Lemma run_op_side o tx r tx' :
  run_op (bucket := bucket) o tx = (Ok r, tx') → side_view tx' = side_effect o (side_view tx).
Proof.
  intros Hrun. destruct (side_op o) eqn:Ho.
  2:{ pose proof (run_op_side_same o (side_view tx) Ho tx eq_refl) as Hs. rewrite Hrun in Hs.
      unfold side_is in Hs. cbn in Hs. rewrite Hs. by destruct o; try discriminate Ho; destruct (side_view tx). }
  destruct o; try discriminate Ho; cbn [run_op] in Hrun; revert Hrun; unfold PutLocator, DeleteLocator,
    ForgetContainer, MarkContainerDead, RemoveDeadContainer, EnsureClass, EnsureChunkSize, mbind, M_bind;
    rewrite bolt_update_run; cbn.
  - unfold mbind, M_bind. cbn. intros Hrun. rewrite <- decoded_raw_put.
    rewrite <- side_put_sealed. destruct (bk_get (l_Container loc) _); by injection Hrun as <- <-.
  - intros [= <- <-]. unfold side_view. cbn. by rewrite decoded_raw_delete.
  - intros [= <- <-]. unfold side_view. cbn. by rewrite decoded_raw_delete.
  - intros [= <- <-]. unfold side_view. cbn. by rewrite decoded_raw_put.
  - intros [= <- <-]. unfold side_view. cbn. by rewrite decoded_raw_delete.
  - unfold keep_or. match goal with |- context [match bk_get ?k ?b with _ => _ end] => destruct (bk_get k b) eqn:E end; cbn; intros Hrun; injection Hrun as _ <-;
      unfold side_view; cbn; [by rewrite E|]. by rewrite bk_get_put_eq, bk_get_put_ne.
  - unfold keep_or. match goal with |- context [match bk_get ?k ?b with _ => _ end] => destruct (bk_get k b) eqn:E end; cbn; intros Hrun; injection Hrun as _ <-;
      unfold side_view; cbn; [by rewrite E|]. by rewrite bk_get_put_eq, bk_get_put_ne.
Qed.

End keys.
