(* ===== verification/MetaInv.v ===== *)
(** pkg/metadb: invariants of every store the operations can build.

    [fs_inv] joins the tree shape of MetaTree with the bookkeeping the code
    keeps beside it: a file's link count is the number of its names, the
    quota counters are the totals over the live inodes, and inode numbers
    never exceed the allocation counter.  [reachable] is the set of
    databases built from a new one by operations whose arguments respect the
    protocol of the callers ([op_ok]); every reachable database satisfies
    the invariant, and in it every operation meets its specification. *)
From S2P Require Import Prelude Bolt Chunk Pack MetaDB MetaSpec MetaRefine MetaTree.

(** What the shape of the tree depends on: is it a directory, is it live? *)
Definition kind (f : fs) (i : InodeID) : option (bool * bool) :=
  (λ r, (IsDir r, 0 <? NLink r)) <$> fs_inodes f !! i.

(** The names of an inode, counted. *)
Definition names_it (i : InodeID) (_ : InodeID * bytes) (c : InodeID) : Z :=
  if bool_decide (c = i) then 1 else 0.
Definition link_count (f : fs) (i : InodeID) : Z := wsum (names_it i) (fs_names f).

(** What an inode costs: the root and the inodes in the graveyard are free. *)
Definition charged (i : InodeID) (r : InodeRecord) : bool :=
  negb (bool_decide (i = RootInode)) && (0 <? NLink r).
Definition byte_cost (i : InodeID) (r : InodeRecord) : Z := if charged i r then Size r else 0.
Definition inode_cost (i : InodeID) (r : InodeRecord) : Z := if charged i r then 1 else 0.
Definition bytes_in_use (f : fs) : Z := wsum byte_cost (fs_inodes f).
Definition inodes_in_use (f : fs) : Z := wsum inode_cost (fs_inodes f).

Record fs_inv (f : fs) : Prop := {
  inv_tree : tree f;
  inv_links i r : fs_inodes f !! i = Some r → IsDir r = false → NLink r = link_count f i;
  inv_range i r : fs_inodes f !! i = Some r → in_u32 (NLink r) ∧ 0 <= Size r < 2 ^ 63;
  inv_seq i : is_Some (fs_inodes f !! i) → w64 i <= fs_seq f;
  inv_seq_range : 0 <= fs_seq f < 2 ^ 64;
  inv_bytes : BytesUsed (fs_quota f) = bytes_in_use f;
  inv_bytes_range : bytes_in_use f < 2 ^ 64;
  inv_inodes : InodesUsed (fs_quota f) = inodes_in_use f;
  inv_inodes_range : inodes_in_use f < 2 ^ 64
}.

(** An update of a record the bookkeeping does not see. *)
Definition same_books (r r' : InodeRecord) : Prop :=
  IsDir r' = IsDir r ∧ (0 <? NLink r') = (0 <? NLink r) ∧ Size r' = Size r ∧
  (IsDir r = false → NLink r' = NLink r) ∧ (in_u32 (NLink r) → in_u32 (NLink r')).

(** Room for one more inode in the 64-bit counters. *)
Definition counters_ok (f : fs) : Prop :=
  fs_seq f + 1 < 2 ^ 64 ∧ inodes_in_use f + 1 < 2 ^ 64.

(** The protocol of the callers in pkg/repo and pkg/mds. *)
Definition op_ok (o : op) (f : fs) : Prop :=
  match o with
  | OCommitFile d n rec now | OPublishFile d n rec now =>
      (* the caller resolved [d] and built [rec] for a new file, and the
         64-bit counters are not about to overflow *)
      live_dir f d ∧ IsDir rec = false ∧ NLink rec = 1 ∧ 0 <= Size rec < 2 ^ 63 ∧
      bytes_in_use f + Size rec < 2 ^ 64 ∧ counters_ok f
  | OCommitMkdir d n rec now =>
      live_dir f d ∧ IsDir rec = true ∧ NLink rec = 2 ∧ Size rec = 0 ∧ counters_ok f
  | ORemoveEntry d n _ =>
      (* rmdir has checked that the directory is empty *)
      ∀ i, fs_names f !! (d, n) = Some i → is_dir f i → entries i f = ∅
  | OLink d n t _ =>
      live_dir f d ∧ live f t ∧ ∀ r, fs_inodes f !! t = Some r → NLink r + 1 < 2 ^ 32
  | ORename od on nd nn _ _ =>
      (* not one name of a file onto another name of the same file *)
      live_dir f nd ∧
      ∀ s, fs_names f !! (od, on) = Some s → fs_names f !! (nd, nn) = Some s → (od, on) = (nd, nn)
  | OUpdateInodeContent i rec => ¬ live f i ∧ 0 <= Size rec < 2 ^ 63
  | ODeleteInode i => ¬ live f i
  | OAllocInode | OPutInode _ _ | OCreateDentry _ _ _ | OSetDentry _ _ _ _ | ORemoveDentry _ _ =>
      (* the steps of EnsureDir and unused methods *)
      False
  | _ => True
  end.

(** The first two stages of a rename: the target's name and link are gone;
    the name has moved. *)
Definition displaced (nd : InodeID) (nn : bytes) (t : time) (f : fs) : fs :=
  upd_names (delete (nd, nn)) (displace nd nn t f).
Definition moved (od : InodeID) (on : bytes) (nd : InodeID) (nn : bytes) (s : InodeID)
    (t : time) (f : fs) : fs :=
  upd_names (λ m, <[(nd, nn) := s]> (delete (od, on) m)) (displaced nd nn t f).

(** What a new store holds: an empty root directory. *)
Definition initial (uid gid : Z) (now : time) : fs :=
  mkFs ∅ {[RootInode := dir_record mode_755 uid gid now]} ∅ (mkQuota 0 0 0 0) 1.

(** The databases the program can build. *)
Inductive reachable `{BoltOps bucket} : DB bucket → Prop :=
  | reach_open uid gid now : reachable (Open uid gid now)
  | reach_op tx o : reachable tx → op_ok o (view tx) → reachable (run_op o tx).2.

(** * The tree is preserved *)

Lemma live_dir_kind f d : live_dir f d ↔ kind f d = Some (true, true).
Proof.
  unfold live_dir, kind. rewrite fmap_Some. split.
  - intros (r & Hr & Hd & Hl). exists r. rewrite Hd. split; [done|].
    f_equal. symmetry. by apply Z.ltb_lt.
  - intros (r & Hr & [= Hd Hl]). exists r. split_and!; [done..|]. by apply Z.ltb_lt.
Qed.

Lemma is_dir_kind f d : is_dir f d ↔ ∃ b, kind f d = Some (true, b).
Proof.
  unfold is_dir, kind. setoid_rewrite fmap_Some. split.
  - intros (r & Hr & Hd). exists (0 <? NLink r), r. by rewrite Hd.
  - intros (b & r & Hr & [= ? ?]). by exists r.
Qed.

Lemma live_kind f i : live f i ↔ ∃ b, kind f i = Some (b, true).
Proof.
  unfold live, kind. setoid_rewrite fmap_Some. split.
  - intros (r & Hr & Hl). exists (IsDir r), r. split; [done|]. f_equal. symmetry. by apply Z.ltb_lt.
  - intros (b & r & Hr & [= ? Hl]). exists r. split; [done|]. by apply Z.ltb_lt.
Qed.

Lemma at_depth_mono f f' k d :
  fs_names f ⊆ fs_names f' → at_depth f k d → at_depth f' k d.
Proof.
  intros Hs. induction 1; econstructor; [done|]. by eapply lookup_weaken.
Qed.

(** Changes to inode records that keep every kind keep the tree. *)
Lemma tree_kind f f' :
  tree f → fs_names f' = fs_names f → (∀ i, kind f' i = kind f i) → tree f'.
Proof.
  intros T En Ek. split.
  - rewrite live_dir_kind, Ek, <- live_dir_kind. apply (tree_root _ T).
  - intros k. rewrite En. apply (tree_top _ T).
  - intros d n i. rewrite En. intros Hn. destruct (tree_edge _ T _ _ _ Hn) as [Hd Hi].
    rewrite live_dir_kind, live_kind, !Ek, <- live_dir_kind, <- live_kind. done.
  - intros i k1 k2. rewrite is_dir_kind, En. setoid_rewrite Ek. rewrite <- is_dir_kind.
    apply (tree_unique _ T).
  - intros d. rewrite live_dir_kind, Ek, <- live_dir_kind. intros [k Hk]%(tree_reach _ T).
    exists k. eapply at_depth_mono; [|done]. by rewrite En.
Qed.

(** Binding a new name: to a fresh inode, or a further one to a file. *)
Lemma tree_bind f f' d n i :
  tree f → live_dir f d → fs_names f !! (d, n) = None → i ≠ RootInode →
  fs_names f' = <[(d, n) := i]> (fs_names f) →
  (∀ j, j ≠ i → kind f' j = kind f j) → live f' i →
  (kind f' i = kind f i ∧ ¬ is_dir f i) ∨ (∀ k, fs_names f !! k ≠ Some i) ∧ ¬ is_Some (kind f i) →
  tree f'.
Proof.
  intros T Hd Hn Hroot En Ek Hlive Hi.
  assert (Hdi : d ≠ i).
  { intros ->. destruct Hi as [[_ Hi]|[_ Hi]].
    - by apply Hi, live_dir_is_dir.
    - apply live_dir_kind in Hd. rewrite Hd in Hi. by apply Hi. }
  assert (Hsub : fs_names f ⊆ fs_names f') by by rewrite En; apply insert_subseteq.
  assert (Hat : ∀ k, at_depth f k d → at_depth f' (S k) i).
  { intros k Hk. econstructor; [by eapply at_depth_mono|]. by rewrite En, lookup_insert_eq. }
  assert (Hfile : ∀ k, fs_names f !! k = Some i → kind f' i = kind f i ∧ ¬ is_dir f i).
  { intros k Hk. destruct Hi as [?|[Hno _]]; [done|]. by apply Hno in Hk. }
  split.
  - rewrite live_dir_kind, Ek, <- live_dir_kind by done. apply (tree_root _ T).
  - intros [d' n']. rewrite En, lookup_insert. case_decide; [congruence|]. apply (tree_top _ T).
  - intros d' n' j. rewrite En, lookup_insert. case_decide as E.
    + intros [= <-]. simplify_eq. split; [|done].
      by rewrite live_dir_kind, Ek, <- live_dir_kind by done.
    + intros Hj. destruct (tree_edge _ T _ _ _ Hj) as [Hd' Hj']. split.
      * destruct (decide (d' = i)) as [->|].
        -- destruct Hi as [[_ Hi]|[_ Hi]]; [by destruct Hi; apply live_dir_is_dir|].
           apply live_dir_kind in Hd'. rewrite Hd' in Hi. by destruct Hi.
        -- by rewrite live_dir_kind, Ek, <- live_dir_kind by done.
      * destruct (decide (j = i)) as [->|]; [done|].
        by rewrite live_kind, Ek, <- live_kind by done.
  - intros j k1 k2 Hj. rewrite En, !lookup_insert.
    destruct (decide (j = i)) as [->|Hji].
    + assert (∀ k, fs_names f !! k ≠ Some i) as Hno.
      { intros k Hk. destruct (Hfile k Hk) as [E Hf]. apply Hf.
        by rewrite is_dir_kind, <- E, <- is_dir_kind. }
      repeat case_decide; [congruence| | |]; intros H1 H2; naive_solver.
    + rewrite is_dir_kind, Ek, <- is_dir_kind in Hj by done.
      repeat case_decide; try congruence. by apply (tree_unique _ T).
  - intros j Hj. destruct (decide (j = i)) as [->|Hji].
    + destruct (tree_reach _ T d Hd) as [k Hk]. eauto.
    + rewrite live_dir_kind, Ek, <- live_dir_kind in Hj by done.
      destruct (tree_reach _ T j Hj) as [k Hk]. exists k. by eapply at_depth_mono.
Qed.

(** Removing a name of a leaf: a file, or an empty directory. *)
Lemma tree_unbind f f' d n i :
  tree f → fs_names f !! (d, n) = Some i → (is_dir f i → entries i f = ∅) →
  fs_names f' = delete (d, n) (fs_names f) →
  (∀ j, j ≠ i → kind f' j = kind f j) →
  (kind f' i = kind f i ∧ ¬ is_dir f i) ∨ (¬ live f' i ∧ ∀ k, fs_names f' !! k ≠ Some i) →
  tree f'.
Proof.
  intros T Hn Hleaf En Ek Hi.
  assert (Hroot : RootInode ≠ i) by (intros <-; by apply (tree_top _ T) in Hn).
  assert (Hpar : ∀ p m j, fs_names f !! (p, m) = Some j → p ≠ i).
  { intros p m j Hp ->. pose proof (tree_edge _ T _ _ _ Hp) as [Hd _].
    assert (entries i f !! (i, m) = Some j) as He by by apply elem_of_entries.
    by rewrite Hleaf in He by by apply live_dir_is_dir. }
  assert (Hdep : ∀ k j, at_depth f k j → j ≠ i → at_depth f' k j).
  { induction 1 as [|k p m j Hp IH Hm]; intros Hj; [constructor|].
    econstructor; [by eapply IH, Hpar|]. rewrite En, lookup_delete_ne; [done|].
    intros E. rewrite <- E, Hn in Hm. congruence. }
  assert (Hsub : ∀ k j, fs_names f' !! k = Some j → fs_names f !! k = Some j).
  { intros k j. rewrite En. by intros [_ ?]%lookup_delete_Some. }
  split.
  - rewrite live_dir_kind, Ek, <- live_dir_kind by done. apply (tree_root _ T).
  - intros k Hk%Hsub. by apply (tree_top _ T) in Hk.
  - intros p m j Hj. pose proof (Hsub _ _ Hj) as Hj0.
    destruct (tree_edge _ T _ _ _ Hj0) as [Hp Hl]. split.
    + by rewrite live_dir_kind, Ek, <- live_dir_kind by (by eapply Hpar).
    + destruct (decide (j = i)) as [->|]; [|by rewrite live_kind, Ek, <- live_kind].
      destruct Hi as [[E _]|[_ Hno]]; [by rewrite live_kind, E, <- live_kind|].
      by apply Hno in Hj.
  - intros j k1 k2 Hj H1 H2. destruct (decide (j = i)) as [->|].
    + destruct Hi as [[E Hf]|[_ Hno]]; [|by apply Hno in H1].
      destruct Hf. by rewrite is_dir_kind, <- E, <- is_dir_kind.
    + rewrite is_dir_kind, Ek, <- is_dir_kind in Hj by done.
      eapply (tree_unique _ T); eauto.
  - intros j Hj. destruct (decide (j = i)) as [->|Hji].
    + destruct Hi as [[E Hf]|[Hdead _]].
      * destruct Hf. apply live_dir_is_dir. by rewrite live_dir_kind, <- E, <- live_dir_kind.
      * destruct Hdead. destruct Hj as (r & ? & _ & ?). by exists r.
    + rewrite live_dir_kind, Ek, <- live_dir_kind in Hj by done.
      destruct (tree_reach _ T j Hj) as [k Hk]. eauto.
Qed.

Lemma inside_file f s j : tree f → ¬ is_dir f s → inside f s j → j = s.
Proof.
  intros T Hs. induction 1 as [|p m j Hp IH Hm]; [done|]. subst p.
  destruct Hs. apply live_dir_is_dir. by eapply (tree_edge _ T).
Qed.

(** The other side of a move: what was not below the moved inode stays where
    it was, what was below it follows. *)
Lemma move_depth f f' od on nd nn s :
  fs_names f !! (od, on) = Some s → fs_names f !! (nd, nn) = None →
  fs_names f' = <[(nd, nn) := s]> (delete (od, on) (fs_names f)) →
  ¬ inside f s nd → (∃ k, at_depth f k nd) →
  ∀ k j, at_depth f k j → ∃ k', at_depth f' k' j.
Proof.
  intros Hs Hfree En Hout [kn Hkn].
  assert (Hkeep : ∀ p m j, fs_names f !! (p, m) = Some j → j ≠ s → fs_names f' !! (p, m) = Some j).
  { intros p m j Hm Hj. rewrite En, lookup_insert_ne, lookup_delete_ne; congruence. }
  assert (Hcase : ∀ k j, at_depth f k j → inside f s j ∨ at_depth f' k j).
  { induction 1 as [|k p m j Hp IH Hm]; [right; constructor|].
    destruct (decide (j = s)) as [->|Hj]; [left; constructor|].
    destruct IH as [IH|IH]; [left | right]; econstructor; eauto. }
  assert (at_depth f' (S kn) s) as Hdst.
  { destruct (Hcase kn nd Hkn) as [|Hk]; [done|].
    econstructor; [done|]. by rewrite En, lookup_insert_eq. }
  assert (Hin : ∀ j, inside f s j → ∃ k', at_depth f' k' j).
  { induction 1 as [|p m j Hp IH Hm]; [eauto|].
    destruct (decide (j = s)) as [->|Hj]; [eauto|]. destruct IH as [k' IH].
    exists (S k'). econstructor; eauto. }
  intros k j Hk. destruct (Hcase k j Hk); eauto.
Qed.

Lemma tree_move f f' od on nd nn s :
  tree f → fs_names f !! (od, on) = Some s → fs_names f !! (nd, nn) = None →
  live_dir f nd → (is_dir f s → ¬ inside f s nd) →
  fs_names f' = <[(nd, nn) := s]> (delete (od, on) (fs_names f)) →
  (∀ j, kind f' j = kind f j) → tree f'.
Proof.
  intros T Hs Hfree Hnd Hout En Ek.
  assert (Hback : ∀ p m j, fs_names f' !! (p, m) = Some j →
    (p, m, j) = (nd, nn, s) ∨ (p, m) ≠ (od, on) ∧ fs_names f !! (p, m) = Some j).
  { intros p m j. rewrite En, lookup_insert. case_decide; [left; congruence|].
    intros [? ?]%lookup_delete_Some. right. split; congruence. }
  destruct (tree_edge _ T _ _ _ Hs) as [_ Hls].
  split.
  - rewrite live_dir_kind, Ek, <- live_dir_kind. apply (tree_root _ T).
  - intros [p m] [[= -> -> <-]|[_ Hk]]%Hback; [by apply (tree_top _ T) in Hs|].
    by apply (tree_top _ T) in Hk.
  - intros p m j Hj. rewrite live_dir_kind, live_kind, !Ek, <- live_dir_kind, <- live_kind.
    apply Hback in Hj as [[= -> -> ->]|[_ Hj]]; [done|]. by apply (tree_edge _ T) in Hj.
  - intros j [p1 m1] [p2 m2] Hj. rewrite is_dir_kind, Ek, <- is_dir_kind in Hj.
    intros [[= -> -> ->]|[N1 H1]]%Hback [E2|[N2 H2]]%Hback.
    + congruence.
    + by pose proof (tree_unique _ T _ _ _ Hj Hs H2).
    + injection E2 as -> -> ->. by pose proof (tree_unique _ T _ _ _ Hj Hs H1).
    + by apply (tree_unique _ T j).
  - intros j. rewrite live_dir_kind, Ek, <- live_dir_kind. intros [k Hk]%(tree_reach _ T).
    eapply move_depth; [exact Hs|exact Hfree|done| |by apply (tree_reach _ T)|exact Hk].
    intros Hin. destruct (kind f s) as [[[] b]|] eqn:Eks.
    + apply Hout; [|done]. apply is_dir_kind. eauto.
    + apply inside_file in Hin as ->; [|done|].
      * apply live_dir_kind in Hnd. congruence.
      * rewrite is_dir_kind, Eks. naive_solver.
    + apply live_kind in Hls as [? ?]. congruence.
Qed.

(** * The bookkeeping is preserved *)

Lemma kind_upd_inode f d g :
  (∀ r, fs_inodes f !! d = Some r → IsDir (g r) = IsDir r ∧ (0 <? NLink (g r)) = (0 <? NLink r)) →
  ∀ i, kind (upd_inode d g f) i = kind f i.
Proof.
  intros Hg i. unfold kind. fsred. rewrite lookup_alter. case_decide; [subst|done].
  destruct (fs_inodes f !! i) as [r|] eqn:Hr; [|done]. simpl. by destruct (Hg r eq_refl) as [-> ->].
Qed.

Lemma kind_insert f i r j :
  kind (upd_inodes <[i := r]> f) j = if decide (i = j) then Some (IsDir r, 0 <? NLink r) else kind f j.
Proof. unfold kind. fsred. rewrite lookup_insert. by case_decide. Qed.

Lemma upd_inode_Some d g f i r :
  fs_inodes (upd_inode d g f) !! i = Some r →
  ∃ r0, fs_inodes f !! i = Some r0 ∧ (i = d ∧ r = g r0 ∨ i ≠ d ∧ r = r0).
Proof.
  fsred. rewrite lookup_alter. case_decide; [subst|eauto 10].
  intros (r0 & Hr & ->)%fmap_Some. eauto.
Qed.

Lemma charged_books i r r' : same_books r r' → charged i r' = charged i r.
Proof. intros (_ & E & _). unfold charged. by rewrite E. Qed.

Lemma in_use_books f d g :
  (∀ r, fs_inodes f !! d = Some r → same_books r (g r)) →
  bytes_in_use (upd_inode d g f) = bytes_in_use f ∧ inodes_in_use (upd_inode d g f) = inodes_in_use f.
Proof.
  intros Hg. unfold bytes_in_use, inodes_in_use. fsred.
  split; apply wsum_alter; intros r Hr; unfold byte_cost, inode_cost;
    rewrite (charged_books d r) by auto; [|done].
  by destruct (Hg r Hr) as (_ & _ & -> & _).
Qed.

Lemma inv_upd_inode f d g :
  fs_inv f → (∀ r, fs_inodes f !! d = Some r → same_books r (g r)) → fs_inv (upd_inode d g f).
Proof.
  intros I Hg. pose proof I as []. destruct (in_use_books f d g Hg) as [Eb Ei].
  split; rewrite ?Eb, ?Ei; try done.
  - eapply tree_kind; [done..|]. apply kind_upd_inode. intros r (? & ? & _)%Hg. done.
  - intros i r (r0 & Hr & [[-> ->]|[_ ->]])%upd_inode_Some; [|by apply inv_links0].
    destruct (Hg r0 Hr) as (E & _ & _ & Hl & _). rewrite E. intros Hd. rewrite Hl by done.
    by apply inv_links0.
  - intros i r (r0 & Hr & [[-> ->]|[_ ->]])%upd_inode_Some; [|by eapply inv_range0].
    destruct (Hg r0 Hr) as (_ & _ & -> & _ & Hu). destruct (inv_range0 d r0 Hr). auto.
  - intros i [r (r0 & Hr & _)%upd_inode_Some]. apply inv_seq0. eauto.
Qed.

(** ** Quota arithmetic without wrap-around *)

Lemma addDelta_pos u d : 0 <= d < 2 ^ 63 → 0 <= u → u + d < 2 ^ 64 → addDelta u d = u + d.
Proof.
  intros. unfold addDelta. destruct (Z.leb_spec 0 d); [|lia].
  rewrite (u64_id d) by (unfold in_u64; lia). apply u64_id. unfold in_u64. lia.
Qed.

Lemma addDelta_neg u d : - 2 ^ 63 < d < 0 → 0 <= u + d → u < 2 ^ 64 → addDelta u d = u + d.
Proof.
  intros. unfold addDelta. destruct (Z.leb_spec 0 d); [lia|].
  rewrite i64_id by (unfold in_i64; lia). rewrite u64_id by (unfold in_u64; lia).
  destruct (Z.ltb_spec u (- d)); lia.
Qed.

Lemma addDelta_exact u d :
  - 2 ^ 63 < d < 2 ^ 63 → 0 <= u < 2 ^ 64 → 0 <= u + d < 2 ^ 64 → addDelta u d = u + d.
Proof.
  intros. destruct (Z.le_gt_cases 0 d); [apply addDelta_pos; lia | apply addDelta_neg; lia].
Qed.

Lemma i64_size z : 0 <= z < 2 ^ 63 → i64 z = z.
Proof. intros. apply i64_id. unfold in_i64. lia. Qed.

Lemma freed_size rec : 0 <= Size rec < 2 ^ 63 → freed rec = - Size rec.
Proof. intros. unfold freed. rewrite (i64_size (Size rec)) by lia. apply i64_id. unfold in_i64. lia. Qed.

Section costs.
Context (f : fs) (I : fs_inv f).

Lemma byte_cost_bound i r : fs_inodes f !! i = Some r → 0 <= byte_cost i r <= bytes_in_use f.
Proof.
  assert (∀ j x, fs_inodes f !! j = Some x → 0 <= byte_cost j x) as Hpos.
  { intros j x Hj. unfold byte_cost. destruct (inv_range f I j x Hj). destruct (charged j x); lia. }
  intros Hr. split; [by apply Hpos|]. by apply wsum_elem.
Qed.

Lemma inode_cost_bound i r : fs_inodes f !! i = Some r → 0 <= inode_cost i r <= inodes_in_use f.
Proof.
  assert (∀ j x, 0 <= inode_cost j x) as Hpos.
  { intros j x. unfold inode_cost. destruct (charged j x); lia. }
  intros Hr. split; [by apply Hpos|]. apply wsum_elem; [by intros; apply Hpos|done].
Qed.

Lemma in_use_nonneg : 0 <= bytes_in_use f ∧ 0 <= inodes_in_use f.
Proof.
  destruct (tree_root f (inv_tree f I)) as (r & Hr & _).
  destruct (byte_cost_bound _ _ Hr), (inode_cost_bound _ _ Hr). lia.
Qed.

Lemma next_id_fresh :
  fs_seq f + 1 < 2 ^ 64 → w64 (next_id f) = fs_seq f + 1 ∧ fs_inodes f !! next_id f = None.
Proof.
  intros Hs. pose proof (inv_seq_range f I) as Hr.
  assert (w64 (next_id f) = fs_seq f + 1) as E.
  { unfold next_id. rewrite w64_of_Z, (u64_id (fs_seq f + 1)); [|unfold in_u64; lia].
    apply u64_id. unfold in_u64. lia. }
  split; [done|]. destruct (fs_inodes f !! next_id f) as [r|] eqn:Hn; [|done].
  pose proof (inv_seq f I (next_id f) ltac:(eauto)). lia.
Qed.

Lemma names_exist k i : fs_names f !! k = Some i → is_Some (fs_inodes f !! i).
Proof.
  destruct k as [d n]. intros Hk. destruct (tree_edge f (inv_tree f I) _ _ _ Hk) as [_ (r & -> & _)].
  eauto.
Qed.

End costs.

Lemma touch_books t r : same_books r (touch t r).
Proof. done. Qed.

Lemma ctime_books t r : same_books r (set_CTime t r).
Proof. done. Qed.

Lemma add_links_books k r : IsDir r = true → 0 < NLink r → same_books r (add_links k r).
Proof.
  intros Hd Hl. unfold add_links. rewrite Hd.
  assert (2 <= u32 (Z.max 2 (i32 (i32 (NLink r) + k))) < 2 ^ 32) as Hu.
  { pose proof (i32_range (i32 (NLink r) + k)). rewrite u32_id; unfold in_u32; lia. }
  split_and!; cbn; [done| |done| |].
  - destruct (Z.ltb_spec 0 (NLink r)); [|lia]. apply Z.ltb_lt. lia.
  - congruence.
  - unfold in_u32. lia.
Qed.

Lemma link_count_insert f k i j :
  fs_names f !! k = None →
  link_count (upd_names <[k := i]> f) j = link_count f j + (if decide (i = j) then 1 else 0).
Proof.
  intros Hk. unfold link_count. fsred. rewrite wsum_insert_new by done. unfold names_it at 1.
  destruct (decide (i = j)); [rewrite bool_decide_true by done | rewrite bool_decide_false by done]; lia.
Qed.

Lemma link_count_delete f k i j :
  fs_names f !! k = Some i →
  link_count (upd_names (delete k) f) j = link_count f j - (if decide (i = j) then 1 else 0).
Proof.
  intros Hk. unfold link_count. fsred. rewrite (wsum_delete _ k i) by done. unfold names_it at 2.
  destruct (decide (i = j)); [rewrite bool_decide_true by done | rewrite bool_decide_false by done]; lia.
Qed.

Lemma link_count_zero f i : link_count f i = 0 → ∀ k, fs_names f !! k ≠ Some i.
Proof.
  intros Hz k Hk.
  assert (names_it i k i <= link_count f i) as Hle.
  { apply wsum_elem; [|done]. intros. unfold names_it. case_bool_decide; lia. }
  unfold names_it in Hle. rewrite bool_decide_true in Hle by done. lia.
Qed.

Lemma link_count_none f i : (∀ k, fs_names f !! k ≠ Some i) → link_count f i = 0.
Proof.
  intros Hno. apply wsum_zero. intros k a Hk. unfold names_it.
  rewrite bool_decide_false; [done|]. intros ->. by apply Hno in Hk.
Qed.

(** Creating an inode under a new name. *)
Lemma inv_create f d n rec size now :
  fs_inv f → live_dir f d → fs_names f !! (d, n) = None → counters_ok f →
  0 <= Size rec < 2 ^ 63 → size = Size rec → bytes_in_use f + Size rec < 2 ^ 64 →
  NLink rec = (if IsDir rec then 2 else 1) →
  fs_inv (create d n rec size now f).
Proof.
  intros I Hd Hn [Hs Hi] Hsz -> Hb Hnl. pose proof I as [].
  destruct (next_id_fresh f I Hs) as [Eid Hfresh]. set (i := next_id f) in *.
  destruct (in_use_nonneg f I).
  assert (i ≠ RootInode) as Hroot.
  { intros E. destruct (tree_root f inv_tree0) as (r & Hr & _). congruence. }
  assert (∀ k, fs_names f !! k ≠ Some i) as Hnoname.
  { intros k [r Hr]%(names_exist f I). congruence. }
  assert ((0 <? NLink rec) = true) as Hlive by (rewrite Hnl; by destruct (IsDir rec)).
  assert (charged i rec = true) as Hch.
  { unfold charged. by rewrite bool_decide_false, Hlive. }
  change (create d n rec (Size rec) now f) with (upd_inode d (touch now) (upd_names <[(d, n) := i]>
    (upd_inodes <[i := rec]> (charge (Size rec) 1 (upd_seq (λ s, u64 (s + 1)) f))))).
  apply inv_upd_inode; [|intros r _; apply touch_books].
  split.
  - eapply (tree_bind f _ d n i); try done.
    + intros j Hj. unfold kind. fsred. by rewrite lookup_insert_ne.
    + exists rec. fsred. rewrite lookup_insert_eq. split; [done|]. by apply Z.ltb_lt.
    + right. split; [done|]. unfold kind. rewrite Hfresh. by intros [??].
  - intros j r. rewrite link_count_insert by done. fsred. rewrite lookup_insert. case_decide as E.
    + intros [= <-] Hdir. rewrite Hnl, Hdir. rewrite <- E.
      change (link_count _ i) with (link_count f i). by rewrite link_count_none.
    + intros Hr Hdir. change (link_count _ j) with (link_count f j). rewrite (inv_links0 j r) by done. lia.
  - intros j r. fsred. rewrite lookup_insert. case_decide; [|apply inv_range0].
    intros [= <-]. split; [|done]. rewrite Hnl. unfold in_u32. destruct (IsDir rec); lia.
  - intros j. fsred. rewrite u64_id by (unfold in_u64; lia). rewrite lookup_insert. case_decide as E.
    + intros _. rewrite <- E. lia.
    + intros Hj%inv_seq0. lia.
  - fsred. rewrite u64_id by (unfold in_u64; lia). lia.
  - unfold bytes_in_use in *. fsred. rewrite wsum_insert_new by done. cbn [BytesUsed].
    unfold byte_cost at 1. rewrite Hch, inv_bytes0. rewrite addDelta_exact; lia.
  - unfold bytes_in_use in *. fsred. rewrite wsum_insert_new by done.
    unfold byte_cost at 1. rewrite Hch. lia.
  - unfold inodes_in_use in *. fsred. rewrite wsum_insert_new by done. cbn [InodesUsed].
    unfold inode_cost at 1. rewrite Hch, inv_inodes0. rewrite addDelta_exact; lia.
  - unfold inodes_in_use in *. fsred. rewrite wsum_insert_new by done.
    unfold inode_cost at 1. rewrite Hch. lia.
Qed.

(** Replacing one record, the names changing only for that inode. *)
Section replace.
Context (f f' : fs) (i : InodeID) (rec rec' : InodeRecord).
Hypothesis I : fs_inv f.
Hypothesis Hi : fs_inodes f !! i = Some rec.
Hypothesis Ef : fs_inodes f' = <[i := rec']> (fs_inodes f).

Lemma kind_replace j : j ≠ i → kind f' j = kind f j.
Proof. intros Hj. unfold kind. by rewrite Ef, lookup_insert_ne. Qed.

Lemma kind_replaced : kind f' i = Some (IsDir rec', 0 <? NLink rec').
Proof. unfold kind. by rewrite Ef, lookup_insert_eq. Qed.

Lemma in_use_replace :
  bytes_in_use f' = bytes_in_use f + byte_cost i rec' - byte_cost i rec ∧
  inodes_in_use f' = inodes_in_use f + inode_cost i rec' - inode_cost i rec.
Proof.
  unfold bytes_in_use, inodes_in_use. rewrite Ef, !wsum_insert, Hi. done.
Qed.

Lemma inv_replace :
  tree f' → fs_seq f' = fs_seq f →
  (∀ j, j ≠ i → link_count f' j = link_count f j) →
  (IsDir rec' = false → NLink rec' = link_count f' i) →
  in_u32 (NLink rec') → 0 <= Size rec' < 2 ^ 63 →
  BytesUsed (fs_quota f') = bytes_in_use f + byte_cost i rec' - byte_cost i rec →
  BytesUsed (fs_quota f') < 2 ^ 64 →
  InodesUsed (fs_quota f') = inodes_in_use f + inode_cost i rec' - inode_cost i rec →
  InodesUsed (fs_quota f') < 2 ^ 64 →
  fs_inv f'.
Proof.
  intros T Hs Hl Hli Hr Hz Hb Hb' Hn Hn'. pose proof I as []. destruct in_use_replace as [Eb En].
  split; rewrite ?Eb, ?En, ?Hs; try done; try lia.
  - intros j r. rewrite Ef, lookup_insert. case_decide; [by intros [= <-]; subst|].
    rewrite Hl by done. apply inv_links0.
  - intros j r. rewrite Ef, lookup_insert. case_decide; [by intros [= <-]|apply inv_range0].
  - intros j. rewrite Ef, lookup_insert. case_decide; [|apply inv_seq0].
    subst. intros _. apply inv_seq0. eauto.
Qed.
End replace.

(** Solve a goal about the quota counters. *)
Ltac usage I :=
  fsred; cbn [BytesUsed InodesUsed];
  rewrite ?freed_size by lia;
  rewrite ?(i64_size (Size _)), ?i64_id by (unfold in_i64; lia);
  rewrite ?(inv_bytes _ I), ?(inv_inodes _ I);
  rewrite ?addDelta_exact; lia.

(** Removing one name of a file that has others. *)
Lemma inv_drop_some f d n i rec t :
  fs_inv f → fs_names f !! (d, n) = Some i → fs_inodes f !! i = Some rec →
  last_link rec = false →
  fs_inv (drop_link i rec t (upd_names (delete (d, n)) f)).
Proof.
  intros I Hn Hi Hlast. pose proof I as []. destruct (inv_range0 i rec Hi) as [Hr Hz].
  unfold drop_link. rewrite Hlast. apply negb_false_iff in Hlast. zbool.
  match goal with H : negb (IsDir rec) = true |- _ => apply negb_true_iff in H as Hfile end.
  unfold in_u32 in Hr. rewrite u32_id by (unfold in_u32; lia).
  set (rec' := set_CTime t (set_NLink (NLink rec - 1) rec)).
  assert ((0 <? NLink rec) = true ∧ (0 <? NLink rec') = true) as [Hl Hl'] by (cbn; rewrite !Z.ltb_lt; lia).
  assert (byte_cost i rec' = byte_cost i rec ∧ inode_cost i rec' = inode_cost i rec) as [Eb Ei].
  { unfold byte_cost, inode_cost, charged. by rewrite Hl, Hl'. }
  assert (∀ j, link_count (upd_inodes <[i := rec']> (upd_names (delete (d, n)) f)) j
    = link_count f j - (if decide (i = j) then 1 else 0)) as Hlc by (intros j; by apply link_count_delete).
  eapply (inv_replace f _ i rec rec' I Hi); try done.
  - eapply (tree_unbind f _ d n i); try done.
    + intros (r & ? & ?). congruence.
    + intros j. by apply (kind_replace f _ i rec').
    + left. split; [|intros (r & ? & ?); congruence].
      rewrite (kind_replaced f _ i rec') by done. unfold kind. rewrite Hi. cbn. by rewrite Hl, <- Hl'.
  - intros j Hj. rewrite Hlc, decide_False by congruence. lia.
  - intros _. rewrite Hlc, decide_True by done. cbn. by rewrite (inv_links0 i rec).
  - cbn. unfold in_u32. lia.
  - usage I.
  - usage I.
  - usage I.
  - usage I.
Qed.

Lemma last_link_unbound f d n i rec :
  fs_inv f → fs_names f !! (d, n) = Some i → fs_inodes f !! i = Some rec →
  last_link rec = true → ∀ k, fs_names (upd_names (delete (d, n)) f) !! k ≠ Some i.
Proof.
  intros I Hn Hi Hlast. pose proof I as []. destruct (IsDir rec) eqn:Hd.
  - intros k. fsred. intros [Hne Hk]%lookup_delete_Some. apply Hne.
    eapply (tree_unique _ inv_tree0 i); [by exists rec|done|done].
  - apply link_count_zero. rewrite (link_count_delete f (d, n) i), decide_True by done.
    rewrite <- (inv_links0 i rec) by done.
    destruct (tree_edge _ inv_tree0 _ _ _ Hn) as [_ (r0 & Hr0 & Hlive)]. simplify_eq.
    unfold last_link in Hlast. rewrite Hd in Hlast. cbn in Hlast.
    apply negb_true_iff in Hlast. zbool. lia.
Qed.

Lemma charged_named f d n i rec :
  fs_inv f → fs_names f !! (d, n) = Some i → fs_inodes f !! i = Some rec → charged i rec = true.
Proof.
  intros I Hn Hi. destruct (tree_edge _ (inv_tree f I) _ _ _ Hn) as [_ (r0 & Hr0 & Hlive)]. simplify_eq.
  unfold charged. rewrite bool_decide_false; [by apply Z.ltb_lt|].
  intros ->. by apply (tree_top _ (inv_tree f I)) in Hn.
Qed.

(** Removing the last name: the inode goes to the graveyard and its charge
    is given back. *)
Lemma inv_drop_last f d n i rec t :
  fs_inv f → fs_names f !! (d, n) = Some i → fs_inodes f !! i = Some rec →
  (is_dir f i → entries i f = ∅) → last_link rec = true →
  fs_inv (drop_link i rec t (upd_names (delete (d, n)) f)).
Proof.
  intros I Hn Hi Hleaf Hlast. pose proof I as []. destruct (inv_range0 i rec Hi) as [Hr Hz].
  pose proof (last_link_unbound f d n i rec I Hn Hi Hlast) as Hno.
  pose proof (charged_named f d n i rec I Hn Hi) as Hch.
  pose proof (byte_cost_bound f I i rec Hi) as Hbb. pose proof (inode_cost_bound f i rec Hi) as Hib.
  unfold drop_link. rewrite Hlast. set (rec' := set_CTime t (set_NLink 0 rec)).
  assert (byte_cost i rec' = 0 ∧ inode_cost i rec' = 0) as [Eb' Ei'].
  { unfold byte_cost, inode_cost, charged. cbn. by rewrite andb_false_r. }
  assert (byte_cost i rec = Size rec ∧ inode_cost i rec = 1) as [Eb Ei].
  { unfold byte_cost, inode_cost. by rewrite Hch. }
  eapply (inv_replace f _ i rec rec' I Hi); try done.
  - eapply (tree_unbind f _ d n i); try done.
    + intros j. by apply (kind_replace f _ i rec').
    + right. split; [|done]. intros [b Hk]%live_kind.
      by rewrite (kind_replaced f _ i rec') in Hk.
  - intros j Hj. change (link_count (upd_names (delete (d, n)) f) j = link_count f j).
    rewrite (link_count_delete f _ i) by done. rewrite decide_False by congruence. lia.
  - intros _. symmetry. by apply link_count_none.
  - usage I.
  - usage I.
  - usage I.
  - usage I.
Qed.

Lemma inv_drop f d n i rec t :
  fs_inv f → fs_names f !! (d, n) = Some i → fs_inodes f !! i = Some rec →
  (is_dir f i → entries i f = ∅) →
  fs_inv (drop_link i rec t (upd_names (delete (d, n)) f)).
Proof.
  intros. destruct (last_link rec) eqn:?; [by apply inv_drop_last | by apply inv_drop_some].
Qed.

(** Overwriting a file in place. *)
Lemma inv_overwrite f d n i old rec now :
  fs_inv f → fs_names f !! (d, n) = Some i → fs_inodes f !! i = Some old → IsDir old = false →
  IsDir rec = false → 0 <= Size rec < 2 ^ 63 → bytes_in_use f + Size rec < 2 ^ 64 →
  fs_inv (upd_inodes <[i := overwrite_record old rec now]>
            (charge (i64 (i64 (Size rec) - i64 (Size old))) 0 f)).
Proof.
  intros I Hn Hi Hold Hrec Hz Hb. pose proof I as []. destruct (inv_range0 i old Hi) as [Hr Hzo].
  pose proof (charged_named f d n i old I Hn Hi) as Hch.
  pose proof (byte_cost_bound f I i old Hi) as Hbb. pose proof (inode_cost_bound f i old Hi) as Hib.
  set (rec' := overwrite_record old rec now).
  assert (charged i rec' = true) as Hch' by exact Hch.
  assert (byte_cost i rec' = Size rec ∧ inode_cost i rec' = 1) as [Eb' Ei'].
  { unfold byte_cost, inode_cost. by rewrite Hch'. }
  assert (byte_cost i old = Size old ∧ inode_cost i old = 1) as [Eb Ei].
  { unfold byte_cost, inode_cost. by rewrite Hch. }
  eapply (inv_replace f _ i old rec' I Hi); try done.
  - eapply tree_kind; [done..|]. intros j. destruct (decide (j = i)) as [->|Hj].
    + rewrite (kind_replaced f _ i rec') by done. unfold kind. rewrite Hi. cbn. by rewrite Hrec, Hold.
    + by apply (kind_replace f _ i rec').
  - intros _. change (NLink rec') with (NLink old). by apply inv_links0.
  - usage I.
  - usage I.
  - usage I.
  - usage I.
Qed.

(** A further name for a file. *)
Lemma inv_link f d n i rec now :
  fs_inv f → live_dir f d → fs_names f !! (d, n) = None → fs_inodes f !! i = Some rec →
  IsDir rec = false → 0 < NLink rec → NLink rec + 1 < 2 ^ 32 →
  fs_inv (bind_name d n i now (upd_inodes <[i := relink rec now]> f)).
Proof.
  intros I Hd Hn Hi Hfile Hpos Hmax. pose proof I as [].
  destruct (inv_range0 i rec Hi) as [Hr Hz].
  set (rec' := relink rec now).
  assert (NLink rec' = NLink rec + 1) as Enl.
  { unfold rec', relink. cbn. destruct (Z.eqb_spec (NLink rec) 0); [lia|].
    apply u32_id. unfold in_u32. lia. }
  assert ((0 <? NLink rec) = true ∧ (0 <? NLink rec') = true) as [Hl Hl'] by (rewrite Enl, !Z.ltb_lt; lia).
  assert (byte_cost i rec' = byte_cost i rec ∧ inode_cost i rec' = inode_cost i rec) as [Eb Ei].
  { unfold byte_cost, inode_cost, charged. by rewrite Hl, Hl'. }
  change (bind_name d n i now (upd_inodes <[i := rec']> f)) with
    (upd_inode d (touch now) (upd_names <[(d, n) := i]> (upd_inodes <[i := rec']> f))).
  apply inv_upd_inode; [|intros r _; apply touch_books].
  assert (∀ j, link_count (upd_names <[(d, n) := i]> (upd_inodes <[i := rec']> f)) j
    = link_count f j + (if decide (i = j) then 1 else 0)) as Hlc by (intros j; by apply (link_count_insert (upd_inodes <[i := rec']> f))).
  assert (kind f i = Some (false, true)) as Hki by (unfold kind; rewrite Hi; cbn; by rewrite Hfile, Hl).
  eapply (inv_replace f _ i rec rec' I Hi); try done.
  - eapply (tree_bind f _ d n i); try done.
    + intros ->. destruct (tree_root _ inv_tree0) as (r & ? & ? & _). congruence.
    + intros j. by apply (kind_replace f _ i rec').
    + apply live_kind. exists false. rewrite (kind_replaced f _ i rec') by done. cbn [IsDir rec' relink].
      by rewrite Hl', <- Hfile.
    + left. split; [|intros (r & ? & ?); congruence].
      rewrite (kind_replaced f _ i rec'), Hki by done. by rewrite Hl', <- Hfile.
  - intros j Hj. rewrite Hlc, decide_False by congruence. lia.
  - intros _. rewrite Hlc, decide_True, Enl by done. by rewrite (inv_links0 i rec).
  - rewrite Enl. unfold in_u32 in *. lia.
  - usage I.
  - usage I.
  - usage I.
  - usage I.
Qed.

(** Moving a name. *)
Lemma inv_move f od on nd nn s :
  fs_inv f → fs_names f !! (od, on) = Some s → fs_names f !! (nd, nn) = None →
  live_dir f nd → (is_dir f s → ¬ inside f s nd) →
  fs_inv (upd_names (λ m, <[(nd, nn) := s]> (delete (od, on) m)) f).
Proof.
  intros I Hs Hfree Hnd Hout. pose proof I as []. split; try done.
  - by eapply (tree_move f _ od on nd nn s).
  - intros i r Hi Hd.
    change (NLink r = link_count (upd_names <[(nd, nn) := s]> (upd_names (delete (od, on)) f)) i).
    rewrite link_count_insert, (link_count_delete f _ s) by (try done; fsred; by rewrite lookup_delete_None; auto).
    rewrite (inv_links0 i r) by done. lia.
Qed.

Lemma andThen_inv a b : (a ⨾ b) = Ok tt → a = Ok tt ∧ b = Ok tt.
Proof. by destruct a as [[]|]. Qed.

Lemma need_inode_inv i f k : need_inode i f k = Ok tt → ∃ r, fs_inodes f !! i = Some r ∧ k r = Ok tt.
Proof. unfold need_inode. case_match; [eauto|done]. Qed.

Lemma require_inv b e : require b e = Ok tt → b = true.
Proof. by destruct b. Qed.

(** Take a satisfied precondition apart. *)
Ltac inv_pre :=
  repeat match goal with
  | H : (_ ⨾ _) = Ok tt |- _ => apply andThen_inv in H as [? ?]
  | H : need_inode _ _ _ = Ok tt |- _ =>
      let r := fresh "r" in let Hr := fresh "Hr" in apply need_inode_inv in H as (r & Hr & ?)
  | H : require _ _ = Ok tt |- _ => apply require_inv in H
  | H : Err _ = Ok _ |- _ => discriminate H
  end.

Lemma drop_link_upd_names i r t g f : drop_link i r t (upd_names g f) = upd_names g (drop_link i r t f).
Proof. unfold drop_link. by destruct (last_link r). Qed.

Lemma drop_link_upd_inode i r t d g f :
  i ≠ d → drop_link i r t (upd_inode d g f) = upd_inode d g (drop_link i r t f).
Proof.
  intros Hne. unfold drop_link. destruct (last_link r); unfold upd_inode, upd_graves, upd_inodes, charge, upd_quota;
    cbn; by rewrite alter_insert_ne.
Qed.

Lemma inv_add_links f d k : fs_inv f → live_dir f d → fs_inv (upd_inode d (add_links k) f).
Proof.
  intros I (r & Hr & Hd & Hl). apply inv_upd_inode; [done|].
  intros r' Hr'. simplify_eq. by apply add_links_books.
Qed.

Lemma live_dir_upd f d g e :
  live_dir f e → (∀ r, fs_inodes f !! d = Some r → IsDir r = true → 0 < NLink r →
    IsDir (g r) = true ∧ 0 < NLink (g r)) → live_dir (upd_inode d g f) e.
Proof.
  intros (r & Hr & Hd & Hl) Hg. unfold live_dir. fsred. rewrite lookup_alter. case_decide; [subst|eauto].
  exists (g r). rewrite Hr. split; [done|]. by apply Hg.
Qed.

Lemma live_dir_touch f d t e : live_dir f e → live_dir (upd_inode d (touch t) f) e.
Proof. intros He. by apply live_dir_upd. Qed.

Lemma live_dir_add_links f d k e : live_dir f e → live_dir (upd_inode d (add_links k) f) e.
Proof.
  intros He. apply live_dir_upd; [done|]. intros r _ Hd Hl.
  destruct (add_links_books k r Hd Hl) as (-> & Hp & _). split; [done|]. apply Z.ltb_lt.
  rewrite Hp. by apply Z.ltb_lt.
Qed.

Lemma inv_reparent f src od nd :
  fs_inv f → live_dir f od → live_dir f nd → fs_inv (reparent src od nd f).
Proof.
  intros I Ho Hn. unfold reparent. destruct (_ && _); [|done].
  apply inv_add_links; [by apply inv_add_links|by apply live_dir_add_links].
Qed.

(** ** Rename, in stages: displace the target, move the name, touch up the
    records. *)
Section rename.
Context (f : fs) (od nd s : InodeID) (on nn : bytes) (src : InodeRecord) (t now : time).
Hypothesis I : fs_inv f.
Hypothesis Hs : fs_names f !! (od, on) = Some s.
Hypothesis Hsrc : fs_inodes f !! s = Some src.
Hypothesis Hnd : live_dir f nd.
Hypothesis Hne : (od, on) ≠ (nd, nn).
Hypothesis Hdst : fs_names f !! (nd, nn) ≠ Some s.
Hypothesis Hout : is_dir f s → ¬ inside f s nd.
Hypothesis Hdisp : need_displace src nd nn f = Ok tt.

Local Abbreviation f1 := (displaced nd nn t f).
Local Abbreviation f2 := (moved od on nd nn s t f).

Lemma displaced_inv : fs_inv f1.
Proof.
  unfold displaced, displace, need_displace in *.
  destruct (fs_names f !! (nd, nn)) as [d|] eqn:Hd.
  - apply need_inode_inv in Hdisp as (dst & Hr & Hp). inv_pre. unfold with_inode. rewrite Hr.
    rewrite <- drop_link_upd_names. apply inv_drop; [done..|].
    intros (r & ? & Hdir). simplify_eq. unfold need_replaceable in *. rewrite Hdir in *.
    destruct (IsDir src); inv_pre. by apply bool_decide_eq_true in H.
  - replace (upd_names (delete (nd, nn)) f) with f; [done|].
    destruct f. unfold upd_names. cbn in *. by rewrite delete_id.
Qed.

Lemma displaced_inode i r :
  fs_names f !! (nd, nn) ≠ Some i → fs_inodes f !! i = Some r → fs_inodes f1 !! i = Some r.
Proof.
  intros Hi Hr. unfold displaced, displace, with_inode. destruct (fs_names f !! (nd, nn)) as [d|]; [|done].
  destruct (fs_inodes f !! d) as [dst|]; [|done].
  unfold drop_link. destruct (last_link dst); fsred; rewrite lookup_insert_ne by congruence; done.
Qed.

Lemma displaced_names : fs_names f1 = delete (nd, nn) (fs_names f).
Proof. unfold displaced. fsred. by rewrite displace_names. Qed.

Lemma nd_not_target : fs_names f !! (nd, nn) ≠ Some nd.
Proof. intros E. by apply (not_own_parent f (inv_tree f I)) in E. Qed.

Lemma moved_inv : fs_inv f2.
Proof.
  assert (live_dir f1 nd) as Hnd'.
  { destruct Hnd as (r & Hr & ?). exists r. split; [|done]. apply displaced_inode; [apply nd_not_target|done]. }
  apply inv_move; [apply displaced_inv| | |done|].
  - rewrite displaced_names, lookup_delete_ne by congruence. done.
  - by rewrite displaced_names, lookup_delete_eq.
  - intros (r & Hr & Hd) Hin. rewrite (displaced_inode s src Hdst Hsrc) in Hr. injection Hr as <-.
    apply Hout; [by exists src|]. clear - Hin.
    induction Hin as [|p m j _ IH Hm]; [constructor|]. econstructor; [done|].
    rewrite displaced_names in Hm. by apply lookup_delete_Some in Hm as [_ ?].
Qed.

Lemma moved_live : live_dir f2 od ∧ live_dir f2 nd.
Proof.
  split.
  - change (live_dir f1 od). eapply (tree_edge _ (inv_tree _ displaced_inv) od on s).
    by rewrite displaced_names, lookup_delete_ne.
  - eapply (tree_edge _ (inv_tree _ moved_inv) nd nn s). unfold moved. fsred. by rewrite lookup_insert_eq.
Qed.

Lemma source_apart : s ≠ od ∧ s ≠ nd.
Proof.
  split; intros E.
  - subst. by apply (not_own_parent f (inv_tree f I)) in Hs.
  - apply Hout; [|rewrite E; constructor]. rewrite E. by apply live_dir_is_dir.
Qed.

Lemma rename_names_eq :
  <[(nd, nn) := s]> (delete (od, on) (fs_names f))
  = <[(nd, nn) := s]> (delete (od, on) (delete (nd, nn) (fs_names f))).
Proof. by rewrite delete_delete, insert_delete_eq. Qed.

(** The effect of [Rename] as record updates of the moved state. *)
Lemma rename_stages_apart : s ≠ od → s ≠ nd →
  bind_name nd nn s now (upd_inodes <[s := set_CTime t src]>
    (reparent src od nd (unbind_name od on t (displace nd nn t f))))
  = upd_inode nd (touch now) (upd_inode s (set_CTime t)
      (reparent src od nd (upd_inode od (touch t) f2))).
Proof.
  intros Hso Hsn.
  pose proof (displaced_inode s src Hdst Hsrc) as Hd.
  rewrite (upd_inode_insert s src (set_CTime t)).
  - unfold moved, reparent, unbind_name, bind_name.
    destruct (_ && _); unfold upd_inode, upd_inodes, upd_names, displaced; fsred;
      rewrite ?displace_names, <- rename_names_eq; done.
  - unfold reparent. destruct (_ && _); fsred; rewrite !lookup_alter_ne by done; exact Hd.
Qed.

Lemma rename_stages :
  bind_name nd nn s now (upd_inodes <[s := set_CTime t src]>
    (reparent src od nd (unbind_name od on t (displace nd nn t f))))
  = upd_inode nd (touch now) (upd_inode s (set_CTime t)
      (reparent src od nd (upd_inode od (touch t) f2))).
Proof. destruct source_apart. by apply rename_stages_apart. Qed.

Lemma rename_inv :
  fs_inv (bind_name nd nn s now (upd_inodes <[s := set_CTime t src]>
    (reparent src od nd (unbind_name od on t (displace nd nn t f))))).
Proof.
  rewrite rename_stages. destruct moved_live as [Ho Hn].
  apply inv_upd_inode; [|intros; apply touch_books].
  apply inv_upd_inode; [|intros; apply ctime_books].
  apply inv_reparent; [|by apply live_dir_touch..].
  apply inv_upd_inode; [apply moved_inv|intros; apply touch_books].
Qed.
End rename.

(** ** Every operation *)

Lemma inv_remove f d n i rec t :
  fs_inv f → fs_names f !! (d, n) = Some i → fs_inodes f !! i = Some rec →
  (is_dir f i → entries i f = ∅) →
  fs_inv (drop_link i rec t
    (upd_inode d (if IsDir rec then add_links (-1) else id) (unbind_name d n t f))).
Proof.
  intros I Hn Hi Hleaf. pose proof (inv_tree f I) as T.
  assert (i ≠ d) as Hid by (intros ->; by apply (not_own_parent f T) in Hn).
  pose proof (inv_drop f d n i rec t I Hn Hi Hleaf) as Hdrop.
  assert (live_dir (drop_link i rec t (upd_names (delete (d, n)) f)) d) as Hd.
  { destruct (tree_edge _ T _ _ _ Hn) as [(r & Hr & ?) _]. exists r. split; [|done].
    unfold drop_link. destruct (last_link rec); fsred; by rewrite lookup_insert_ne. }
  unfold unbind_name. rewrite !drop_link_upd_inode by done.
  destruct (IsDir rec).
  - apply inv_add_links; [|by apply live_dir_touch].
    apply inv_upd_inode; [done|intros; apply touch_books].
  - rewrite upd_inode_id. apply inv_upd_inode; [done|intros; apply touch_books].
Qed.

Lemma apply_mut_books m now r : same_books r (apply_mut m now r).
Proof.
  unfold apply_mut. destruct (mut_Mode m), (mut_Uid m), (mut_Gid m), (mut_MTime m), (mut_ATime m);
    cbn; by repeat case_match.
Qed.

(** The content of an inode in the graveyard is nobody's charge. *)
Lemma inv_set_data f i rec :
  fs_inv f → ¬ live f i → 0 <= Size rec < 2 ^ 63 → fs_inv (upd_inode i (set_data rec) f).
Proof.
  intros I Hdead Hz. destruct (fs_inodes f !! i) as [r|] eqn:Hi.
  2:{ replace (upd_inode i (set_data rec) f) with f; [done|]. destruct f. unfold upd_inode, upd_inodes. cbn in *.
      f_equal. apply map_eq. intros j. rewrite lookup_alter. case_decide; [subst; by rewrite Hi|done]. }
  assert ((0 <? NLink r) = false) as Hn.
  { apply Z.ltb_ge. destruct (Z.le_gt_cases (NLink r) 0); [done|]. destruct Hdead. exists r. split; [done|lia]. }
  rewrite <- (upd_inode_insert i r _ f Hi). destruct (inv_range f I i r Hi) as [Hr _].
  assert (byte_cost i (set_data rec r) = byte_cost i r ∧ inode_cost i (set_data rec r) = inode_cost i r)
    as [Eb Ei].
  { unfold byte_cost, inode_cost, charged. cbn. by rewrite Hn, andb_false_r. }
  pose proof (inv_bytes_range f I). pose proof (inv_inodes_range f I).
  eapply (inv_replace f _ i r (set_data rec r) I Hi); try done.
  - eapply tree_kind; [apply (inv_tree f I)|done|]. intros j. destruct (decide (j = i)) as [->|Hj].
    + rewrite (kind_replaced f _ i (set_data rec r)) by done. unfold kind. by rewrite Hi.
    + by apply (kind_replace f _ i (set_data rec r)).
  - apply (inv_links f I i r Hi).
  - usage I.
  - usage I.
  - usage I.
  - usage I.
Qed.

(** Forgetting an inode that is not live. *)
Lemma tree_forget f f' i :
  tree f → ¬ live f i → ¬ live f' i → fs_names f' = fs_names f →
  (∀ j, j ≠ i → kind f' j = kind f j) → tree f'.
Proof.
  intros T Hdead Hdead' En Ek.
  assert (Hno : ∀ d n, fs_names f !! (d, n) ≠ Some i).
  { intros d n Hn. by destruct (tree_edge _ T _ _ _ Hn). }
  assert (Hdir : ∀ j, live_dir f j ↔ live_dir f' j).
  { intros j. destruct (decide (j = i)) as [->|]; [|by rewrite !live_dir_kind, Ek].
    split; intros (r & ? & _ & ?); [destruct Hdead | destruct Hdead']; by exists r. }
  split.
  - apply Hdir, (tree_root _ T).
  - intros k. rewrite En. apply (tree_top _ T).
  - intros d n j. rewrite En. intros Hj. destruct (tree_edge _ T _ _ _ Hj) as [Hd Hl].
    split; [by apply Hdir|]. assert (j ≠ i) by (intros ->; by apply Hno in Hj).
    by rewrite live_kind, Ek, <- live_kind.
  - intros j [d1 n1] k2 Hj. rewrite En. intros H1. assert (j ≠ i) by (intros ->; by apply Hno in H1).
    rewrite is_dir_kind, Ek, <- is_dir_kind in Hj by done. by apply (tree_unique _ T j).
  - intros j [k Hk]%Hdir%(tree_reach _ T). exists k. eapply at_depth_mono; [|done]. by rewrite En.
Qed.

Lemma inv_forget f i : fs_inv f → ¬ live f i → fs_inv (upd_inodes (delete i) f).
Proof.
  intros I Hdead. pose proof I as [].
  assert (bytes_in_use (upd_inodes (delete i) f) = bytes_in_use f ∧
          inodes_in_use (upd_inodes (delete i) f) = inodes_in_use f) as [Eb Ei].
  { unfold bytes_in_use, inodes_in_use. fsred.
    destruct (fs_inodes f !! i) as [r|] eqn:Hi; [|by rewrite delete_id].
    rewrite !(wsum_delete _ i r) by done. unfold byte_cost at 2, inode_cost at 2, charged.
    destruct (Z.ltb_spec 0 (NLink r)); [by destruct Hdead; exists r|].
    rewrite andb_false_r. lia. }
  split; rewrite ?Eb, ?Ei; try done.
  - eapply (tree_forget f _ i); try done.
    + intros (r & Hr & _). fsred. by rewrite lookup_delete_eq in Hr.
    + intros j Hj. unfold kind. fsred. by rewrite lookup_delete_ne.
  - intros j r. fsred. intros [_ Hj]%lookup_delete_Some. by apply inv_links0.
  - intros j r. fsred. intros [_ Hj]%lookup_delete_Some. by eapply inv_range0.
  - intros j. fsred. intros [r [_ Hj]%lookup_delete_Some]. apply inv_seq0. eauto.
Qed.

Lemma need_free_None d n f : need_free d n f = Ok tt → fs_names f !! (d, n) = None.
Proof. unfold need_free. by case_match. Qed.

(** What an allowed rename of two different names has to work with. *)
Lemma rename_facts f od on nd nn t now :
  fs_inv f → op_ok (ORename od on nd nn t now) f → fs_pre (ORename od on nd nn t now) f = Ok tt →
  fs_effect (ORename od on nd nn t now) f = f ∨
  ∃ s src, fs_names f !! (od, on) = Some s ∧ fs_inodes f !! s = Some src ∧ live_dir f nd ∧
    (od, on) ≠ (nd, nn) ∧ fs_names f !! (nd, nn) ≠ Some s ∧ (is_dir f s → ¬ inside f s nd) ∧
    need_displace src nd nn f = Ok tt ∧
    fs_effect (ORename od on nd nn t now) f
    = bind_name nd nn s now (upd_inodes <[s := set_CTime t src]>
        (reparent src od nd (unbind_name od on t (displace nd nn t f)))).
Proof.
  intros I [Hnd Hsame] Hpre. pose proof (inv_tree f I) as T. cbn [fs_pre fs_effect] in *.
  destruct (_ && _) eqn:Hid; [by left|right].
  assert ((od, on) ≠ (nd, nn)) as Hne.
  { intros [= -> ->]. by rewrite !bool_decide_true in Hid. }
  inv_pre. destruct (fs_names f !! (od, on)) as [s|] eqn:Hs; [|done]. inv_pre.
  exists s, r. unfold with_inode. rewrite Hr. split_and!; try done; [by intros ?%Hsame|].
  intros (r' & ? & Hdir) Hin. simplify_eq.
  match goal with H : negb _ = true |- _ => apply negb_true_iff in H as Hb end.
  rewrite Hdir in Hb. cbn [andb] in Hb.
  apply (fs_below_inside f (tree_forest f T)) in Hin; [congruence| |left; by apply live_dir_is_dir].
  intros ->. by apply (tree_top _ T) in Hs.
Qed.

(** An operation that is allowed keeps the invariant. *)
Lemma inv_effect o f : fs_inv f → op_ok o f → fs_pre o f = Ok tt → fs_inv (fs_effect o f).
Proof.
  intros I Hok Hpre. pose proof (inv_tree f I) as T. destruct o; cbn [op_ok fs_pre fs_effect] in *; try done.
  - (* CommitFile *)
    destruct Hok as (Hd & Hdir & Hnl & Hz & Hb & Hc). inv_pre.
    destruct (fs_names f !! (dir, name)) as [i|] eqn:Hn; inv_pre.
    + unfold with_inode. rewrite Hr. eapply inv_overwrite; try done. by apply negb_true_iff.
    + apply inv_create; rewrite ?created_record_size; try done.
      * by rewrite (i64_size (Size rec)), Z.sub_0_r, (i64_size (Size rec)).
      * unfold created_record. by destruct (IsZero _); cbn; rewrite Hdir.
  - (* PublishFile *)
    destruct Hok as (Hd & Hdir & Hnl & Hz & Hb & Hc). inv_pre.
    apply inv_create; try done; [by apply need_free_None|by apply i64_size|by rewrite Hdir].
  - (* CommitMkdir *)
    destruct Hok as (Hd & Hdir & Hnl & Hz & Hc). inv_pre.
    assert (0 <= Size rec < 2 ^ 63) by lia. pose proof (inv_bytes_range f I).
    assert (fs_inv (create dir name rec 0 now f)) as I'.
    { apply inv_create; try done; [by apply need_free_None|lia|by rewrite Hdir]. }
    apply inv_add_links; [done|].
    eapply (tree_edge _ (inv_tree _ I') dir name (next_id f)). fsred. by rewrite lookup_insert_eq.
  - (* RemoveEntry *)
    destruct (fs_names f !! (dir, name)) as [i|] eqn:Hn; [|done]. inv_pre.
    unfold with_inode. rewrite Hr. apply inv_remove; try done. by apply Hok.
  - (* Link *)
    destruct Hok as (Hd & (r & Hr & Hl) & Hmax). inv_pre. simplify_eq.
    unfold with_inode. rewrite Hr. apply inv_link; try done; [by apply need_free_None|by apply negb_true_iff|].
    by apply Hmax.
  - (* Rename *)
    pose proof (rename_facts f oldDir oldName newDir newName deletedAt now I Hok Hpre)
      as [E|(s & src & Hs & Hsrc & Hnd & Hne & Hd & Hout & Hdp & E)];
      cbn [fs_effect] in E; rewrite E; [done|]. by apply rename_inv.
  - apply inv_upd_inode; [done|]. intros. apply apply_mut_books.
  - destruct Hok. by apply inv_set_data.
  - by apply inv_forget.
  - pose proof I as []. split; try done. by eapply tree_kind.
  - pose proof I as []. split; try done. by eapply tree_kind.
Qed.

(** ** Reachable databases *)

Lemma initial_inv uid gid now : fs_inv (initial uid gid now).
Proof.
  assert (∀ i r, fs_inodes (initial uid gid now) !! i = Some r →
    i = RootInode ∧ r = dir_record mode_755 uid gid now) as Honly.
  { intros i r. unfold initial. fsred. rewrite lookup_singleton_Some. naive_solver. }
  split; try done.
  - split; try done.
    + exists (dir_record mode_755 uid gid now). split; [apply lookup_singleton_eq|done].
    + intros d (r & [-> _]%Honly & _). exists 0%nat. constructor.
  - intros i r [-> ->]%Honly. done.
  - intros i r [-> ->]%Honly. by cbn; unfold in_u32.
  - intros i [r [-> _]%Honly]. done.
Qed.

Section reachable.
Context `{BoltLaws bucket}.
Implicit Types tx : DB bucket.

Lemma view_Open uid gid now : view (Open (bucket := bucket) uid gid now) = initial uid gid now.
Proof.
  assert (getInodeTx RootInode (fresh_db (bucket := bucket)) = Err ErrNotFound) as E.
  { by rewrite getInodeTx_view, view_fresh. }
  unfold Open, ensureRoot, GetInode, View, attempt, mbind, M_bind. rewrite E.
  cbn [negb]. rewrite bool_decide_true by done. cbn [negb]. rewrite bolt_update_run.
  destruct (putInode_run RootInode (dir_record mode_755 uid gid now) (fresh_db (bucket := bucket)))
    as (tx1 & E1 & V1).
  rewrite E1. unfold advanceSeqTo. rewrite view_fresh in V1.
  rewrite sequence_view, V1. cbn. rewrite view_set_sequence, V1.
  unfold initial, upd_seq, upd_inodes. cbn. by rewrite insert_empty.
Qed.

Lemma keys_ok_Open uid gid now : keys_ok (Open (bucket := bucket) uid gid now).
Proof.
  unfold Open, ensureRoot. apply (keeps_bind keys_ok); [apply keeps_attempt, keeps_view| |].
  - intros [r|e]; [apply keeps_ret|]. destruct (negb _); [apply keeps_throw|].
    apply keeps_update, keeps_bind; [by apply keeps_modify_other|]. intros _ tx Hk.
    unfold advanceSeqTo. by destruct (_ <? _).
  - split; intros k v Hk; cbn in Hk; by rewrite bk_get_empty in Hk.
Qed.

(** Everything the invariant says holds of every reachable database. *)
Lemma reachable_inv tx : reachable tx → keys_ok tx ∧ fs_inv (view tx).
Proof.
  induction 1 as [uid gid now|tx o _ [Hk I] Hok].
  - split; [apply keys_ok_Open|]. rewrite view_Open. apply initial_inv.
  - split; [by apply run_op_keys|].
    pose proof (op_implements o tx Hk (tree_forest _ (inv_tree _ I))) as Himp. unfold implements in Himp.
    destruct (fs_pre o (view tx)) as [[]|e] eqn:Hp.
    + destruct Himp as (tx' & E & V). rewrite E. cbn. rewrite V. by apply inv_effect.
    + by rewrite Himp.
Qed.

End reachable.
