(* ===== verification/MetaBuilt.v ===== *)
(** pkg/metadb: what holds whatever the callers do.

    [built] is the set of databases made from a new one by any calls of the
    mutating methods, in any order and with any arguments, as long as the
    records handed in for files are records of files, those for directories
    are records of directories, and no counter overflows.  Files may be
    created in directories that have been removed, removed files may be
    linked again, names of one file may be renamed onto each other,
    directories may be removed full: what is left of the tree is a forest,
    and of the link count an upper bound.  The three transactions of
    [EnsureDir] are calls of their own, so other calls may come between
    them. *)
From S2P Require Import Prelude Bolt Chunk Pack MetaDB MetaSpec MetaRefine MetaTree MetaInv.

Definition unnamed (f : fs) (i : InodeID) : Prop := ∀ k, fs_names f !! k ≠ Some i.

(** The arguments a call may have. *)
Definition built_ok (o : op) (f : fs) : Prop :=
  match o with
  | OCommitFile _ _ rec _ | OPublishFile _ _ rec _ =>
      IsDir rec = false ∧ 1 <= NLink rec < 2 ^ 32 ∧ fs_seq f + 1 < 2 ^ 64
  | OCommitMkdir _ _ rec _ => IsDir rec = true ∧ in_u32 (NLink rec) ∧ fs_seq f + 1 < 2 ^ 64
  | OLink _ _ t _ => ∀ r, fs_inodes f !! t = Some r → NLink r + 1 < 2 ^ 32
  | OAllocInode => fs_seq f + 1 < 2 ^ 64
  | OPutInode i rec =>
      (* EnsureDir: the record of the inode just allocated *)
      IsDir rec = true ∧ in_u32 (NLink rec) ∧ w64 i <= fs_seq f ∧ fs_inodes f !! i = None ∧ unnamed f i
  | OCreateDentry d n i =>
      (* EnsureDir: the name of the directory just made *)
      is_dir f i ∧ unnamed f i ∧ entries i f = ∅ ∧ i ≠ RootInode ∧ i ≠ d
  | OSetDentry _ _ _ _ => False
  | _ => True
  end.

Inductive built `{BoltOps bucket} : DB bucket → Prop :=
  | built_open uid gid now : built (Open uid gid now)
  | built_op tx o : built tx → built_ok o (view tx) → built (run_op o tx).2.

Record built_inv (f : fs) : Prop := {
  bi_forest : forest f;
  bi_root r : fs_inodes f !! RootInode = Some r → IsDir r = true;
  bi_inodes i : is_Some (fs_inodes f !! i) → w64 i <= fs_seq f;
  bi_names d n i : fs_names f !! (d, n) = Some i → w64 d <= fs_seq f ∧ w64 i <= fs_seq f;
  bi_seq : w64 RootInode <= fs_seq f < 2 ^ 64;
  bi_range i r : fs_inodes f !! i = Some r → in_u32 (NLink r);
  bi_links i r : fs_inodes f !! i = Some r → IsDir r = false → link_count f i <= NLink r
}.

(** A change of a record that keeps what it is and, of a file, its links. *)
Definition keeps_kind (r r' : InodeRecord) : Prop :=
  IsDir r' = IsDir r ∧ (IsDir r = false → NLink r' = NLink r) ∧ (in_u32 (NLink r) → in_u32 (NLink r')).

(** * Forests *)

Lemma inside_sub f f' a i : fs_names f' ⊆ fs_names f → inside f' a i → inside f a i.
Proof. intros Hs. induction 1; [constructor|]. econstructor; [done|]. by eapply lookup_weaken. Qed.

(** Fewer names, records of the same kind: still a forest. *)
Lemma forest_sub f f' :
  forest f → fs_names f' ⊆ fs_names f →
  (∀ i r, fs_inodes f' !! i = Some r →
     (∃ r0, fs_inodes f !! i = Some r0 ∧ IsDir r = IsDir r0) ∨
     unnamed f i ∧ (IsDir r = true ∨ ∀ n c, fs_names f !! (i, n) ≠ Some c)) →
  forest f'.
Proof.
  intros F Hs Hr.
  assert (∀ k i, fs_names f' !! k = Some i → fs_names f !! k = Some i) as Hn by (intros; by eapply lookup_weaken).
  split.
  - intros k Hk%Hn. by apply (fo_top f F) in Hk.
  - intros i k1 k2 Hd H1%Hn H2%Hn. apply (fo_unique f F i); [|done|done].
    destruct Hd as [(r & Hi & Hd)|(n & c & Hc)]; [|right; eauto].
    apply Hr in Hi as [(r0 & Hi & E)|[Hno _]]; [left; exists r0; split; congruence|].
    by apply Hno in H1.
  - intros d n c r Hc%Hn Hi. apply Hr in Hi as [(r0 & Hi & ->)|[_ [?|Hl]]]; [by eapply (fo_parent f F)|done|].
    by apply Hl in Hc.
  - intros d n c Hc%Hn Hin. eapply (fo_acyclic f F _ _ _ Hc). by eapply inside_sub.
Qed.

(** A path in the forest with one more name. *)
Lemma inside_bind f d n i a x :
  inside (upd_names <[(d, n) := i]> f) a x → inside f a x ∨ inside f a d ∧ inside f i x.
Proof.
  induction 1 as [|p m j _ IH Hj]; [left; constructor|]. fsred. rewrite lookup_insert in Hj. case_decide as E.
  - injection E as -> ->. injection Hj as ->. right. split; [|constructor]. naive_solver.
  - destruct IH as [IH|[IH1 IH2]]; [left; by econstructor|right; split; [done|by econstructor]].
Qed.

Lemma inside_trans f a b c : inside f a b → inside f b c → inside f a c.
Proof. intros Hab. induction 1; [done|by econstructor]. Qed.

Lemma forest_bind f d n i :
  forest f → is_dir f d → fs_names f !! (d, n) = None → i ≠ RootInode → ¬ inside f i d →
  (dir_like f i → unnamed f i) → forest (upd_names <[(d, n) := i]> f).
Proof.
  intros F Hd Hn Hroot Hout Hone.
  assert (∀ j, dir_like (upd_names <[(d, n) := i]> f) j → dir_like f j) as Hdl.
  { intros j [Hj|(m & c & Hm)]; [by left|]. fsred. rewrite lookup_insert in Hm. case_decide; [|right; eauto].
    left. by simplify_eq. }
  split.
  - intros k. fsred. rewrite lookup_insert. case_decide; [congruence|]. apply (fo_top f F).
  - intros j k1 k2 Hj%Hdl. fsred. rewrite !lookup_insert. repeat case_decide; intros H1 H2; simplify_eq; try done.
    + by apply Hone in H2.
    + by apply Hone in H1.
    + by apply (fo_unique f F j).
  - intros p m c r. fsred. rewrite lookup_insert. case_decide; [|apply (fo_parent f F)].
    intros _ Hr. destruct Hd as (r' & ? & ?). simplify_eq. congruence.
  - intros p m c. fsred. rewrite lookup_insert. intros Hc [Hin|[Hin1 Hin2]]%inside_bind; case_decide as E.
    + simplify_eq.
    + by apply (fo_acyclic f F) in Hc.
    + simplify_eq.
    + apply Hout. eapply inside_trans; [|exact Hin1]. by econstructor.
Qed.

Lemma drop_link_records i rec t f :
  fs_inodes (drop_link i rec t f)
  = <[i := set_CTime t (set_NLink (if last_link rec then 0 else u32 (NLink rec - 1)) rec)]> (fs_inodes f).
Proof. unfold drop_link. by destruct (last_link rec). Qed.

Lemma link_count_drop_link i rec t f j : link_count (drop_link i rec t f) j = link_count f j.
Proof. unfold link_count. by rewrite drop_link_names. Qed.

(** A file is where every path from it ends. *)
Lemma file_not_dir_like f i r :
  forest f → fs_inodes f !! i = Some r → IsDir r = false → ¬ dir_like f i.
Proof.
  intros F Hi Hf [(r' & ? & ?)|(n & c & Hn)]; [congruence|]. apply (fo_parent f F _ _ _ r) in Hn; congruence.
Qed.

Lemma inside_leaf f i x : (∀ n c, fs_names f !! (i, n) ≠ Some c) → inside f i x → x = i.
Proof. intros Hno [?|(n & c & Hn & _)]%inside_front; [done|by apply Hno in Hn]. Qed.

Lemma file_leaf f i r x : forest f → fs_inodes f !! i = Some r → IsDir r = false → inside f i x → x = i.
Proof.
  intros F Hi Hf. apply inside_leaf. intros n c Hn. eapply file_not_dir_like; [done..|]. right. eauto.
Qed.

(** * The invariant *)

Section steps.
Context (f : fs) (I : built_inv f).

Lemma built_next : fs_seq f + 1 < 2 ^ 64 →
  w64 (next_id f) = fs_seq f + 1 ∧ fs_inodes f !! next_id f = None ∧ unnamed f (next_id f) ∧
  (∀ n c, fs_names f !! (next_id f, n) ≠ Some c) ∧ next_id f ≠ RootInode.
Proof.
  intros Hs. pose proof (bi_seq f I) as Hr. pose proof (w64_range RootInode) as [Hr0 _].
  assert (w64 (next_id f) = fs_seq f + 1) as E.
  { unfold next_id. rewrite w64_of_Z, (u64_id (fs_seq f + 1)); [|unfold in_u64; lia].
    apply u64_id. unfold in_u64. lia. }
  split_and!; [done| | | |].
  - destruct (fs_inodes f !! next_id f) eqn:Hn; [|done]. pose proof (bi_inodes f I (next_id f) ltac:(eauto)). lia.
  - intros [d n] [_ ?]%(bi_names f I). lia.
  - intros n c [? _]%(bi_names f I). lia.
  - intros Eq. rewrite Eq in E. lia.
Qed.

(** Only names, records and the allocation counter matter. *)
Lemma built_ext f' :
  fs_names f' = fs_names f → fs_inodes f' = fs_inodes f → fs_seq f' = fs_seq f → built_inv f'.
Proof.
  destruct f, f'. cbn. intros -> -> ->. destruct I as [F I0 I1 I2 I3 I4 I5]. split; [|exact I0|exact I1|exact I2|exact I3|exact I4|exact I5].
  destruct F as [F1 F2 F3 F4]. split; [exact F1|exact F2|exact F3|].
  intros d n c Hn Hin. apply (F4 _ _ _ Hn). by eapply inside_sub; [|exact Hin].
Qed.

(** Fewer names, records of the same kind, no links lost. *)
Lemma built_shrink f' :
  fs_names f' ⊆ fs_names f → fs_seq f' = fs_seq f →
  (∀ i r, fs_inodes f' !! i = Some r → ∃ r0, fs_inodes f !! i = Some r0 ∧ IsDir r = IsDir r0 ∧
     in_u32 (NLink r) ∧ (IsDir r = false → link_count f' i <= NLink r)) →
  built_inv f'.
Proof.
  intros Hn Hs Hr. split; rewrite ?Hs.
  - eapply forest_sub; [apply I|done|]. intros i r (r0 & Hi & E & _)%Hr. left. eauto.
  - intros r (r0 & Hi & -> & _)%Hr. by apply (bi_root f I).
  - intros i [r (r0 & Hi & _)%Hr]. apply I. eauto.
  - intros d n i Hd. eapply (bi_names f I), lookup_weaken; done.
  - apply I.
  - intros i r (r0 & _ & _ & ? & _)%Hr. done.
  - intros i r (r0 & _ & _ & _ & ?)%Hr. done.
Qed.

Lemma built_upd_inode d g :
  (∀ r, fs_inodes f !! d = Some r → keeps_kind r (g r)) → built_inv (upd_inode d g f).
Proof.
  intros Hg. apply built_shrink; [done|done|].
  intros i r (r0 & Hr & Hc)%upd_inode_Some. exists r0. split; [done|].
  pose proof (bi_range f I _ _ Hr) as Hu. pose proof (bi_links f I _ _ Hr) as Hl.
  change (link_count (upd_inode d g f) i) with (link_count f i).
  destruct Hc as [[-> ->]|[_ ->]]; [|done]. destruct (Hg r0 Hr) as (E & Hn & Hu').
  split_and!; [done|auto|]. intros Hf. rewrite Hn by congruence. apply Hl. congruence.
Qed.

Lemma built_forget i : built_inv (upd_inodes (delete i) f).
Proof.
  apply built_shrink; [done|done|]. intros j r. fsred. intros [_ Hr]%lookup_delete_Some.
  exists r. split_and!; [done|done|by eapply bi_range|apply (bi_links f I _ _ Hr)].
Qed.

Lemma link_count_unbind k i :
  link_count (upd_names (delete k) f) i <= link_count f i ∧
  (fs_names f !! k = Some i → link_count (upd_names (delete k) f) i = link_count f i - 1).
Proof.
  destruct (fs_names f !! k) as [j|] eqn:Hk.
  - rewrite (link_count_delete f k j i) by done. case_decide; split; try lia; congruence.
  - split; [|done]. unfold link_count. fsred. by rewrite delete_id.
Qed.

Lemma built_unbind k : built_inv (upd_names (delete k) f).
Proof.
  apply built_shrink; [apply delete_subseteq|done|]. intros i r Hr. exists r.
  pose proof (link_count_unbind k i) as [? _]. pose proof (bi_links f I _ _ Hr).
  split_and!; [done|done|by eapply bi_range|]. intros ?%H0. lia.
Qed.

(** Dropping a name and its link. *)
Lemma built_drop d n i rec t :
  fs_names f !! (d, n) = Some i → fs_inodes f !! i = Some rec →
  built_inv (drop_link i rec t (upd_names (delete (d, n)) f)).
Proof.
  intros Hn Hi. destruct (link_count_unbind (d, n) i) as [_ Hc]. specialize (Hc Hn).
  pose proof (bi_range f I _ _ Hi) as Hu. pose proof (bi_links f I _ _ Hi) as Hl. unfold in_u32 in Hu.
  apply built_shrink; [by unfold drop_link; destruct (last_link rec); apply delete_subseteq
    |by unfold drop_link; destruct (last_link rec)|].
  intros j r. rewrite drop_link_records. fsred. rewrite lookup_insert. case_decide as E.
  - intros [= <-]. subst j. exists rec. split; [done|]. rewrite link_count_drop_link. unfold last_link.
    destruct (IsDir rec) eqn:Hd, (Z.ltb_spec 1 (NLink rec)); cbn; rewrite Hd;
      rewrite ?u32_id by (unfold in_u32; lia); split_and!; try done; unfold in_u32; lia.
  - intros Hr. exists r. pose proof (link_count_unbind (d, n) j) as [? _]. pose proof (bi_links f I _ _ Hr).
    split_and!; [done|done|by eapply bi_range|]. rewrite link_count_drop_link. intros ?%H0. lia.
Qed.

(** One more name, for an inode there is. *)
Lemma built_bind d n i r :
  is_dir f d → fs_names f !! (d, n) = None → fs_inodes f !! i = Some r → i ≠ RootInode →
  ¬ inside f i d → (dir_like f i → unnamed f i) → (IsDir r = false → link_count f i + 1 <= NLink r) →
  built_inv (upd_names <[(d, n) := i]> f).
Proof.
  intros Hd Hn Hi Hroot Hout Hone Hl. split.
  - by apply forest_bind; [apply I|..].
  - apply I.
  - apply I.
  - intros p m j. fsred. rewrite lookup_insert. case_decide; [|apply I].
    intros [= <-]. simplify_eq. destruct Hd as (rd & Hrd & _). split; apply I; eauto.
  - apply I.
  - apply I.
  - intros j rj Hj Hf. rewrite link_count_insert by done. fsred. pose proof (bi_links f I _ _ Hj Hf).
    case_decide; [|lia]. subst. simplify_eq. auto.
Qed.
End steps.

(** ** Operations *)

Lemma touch_kind t r : keeps_kind r (touch t r).
Proof. done. Qed.

Lemma add_links_kind k r : keeps_kind r (add_links k r).
Proof.
  unfold add_links, keeps_kind. destruct (IsDir r) eqn:Hd; [|done]. cbn. rewrite Hd. split_and!; [done|done|].
  intros _. unfold in_u32, u32. apply Z.mod_pos_bound. lia.
Qed.

Lemma built_create f d n rec size now :
  built_inv f → is_dir f d → fs_names f !! (d, n) = None → fs_seq f + 1 < 2 ^ 64 → in_u32 (NLink rec) →
  (IsDir rec = false → 1 <= NLink rec) → built_inv (create d n rec size now f).
Proof.
  intros I Hd Hn Hs Hu Hl. destruct (built_next f I Hs) as (Eid & Hfresh & Hun & Hleaf & Hroot).
  set (i := next_id f) in *.
  assert (d ≠ i) as Hdi by (intros ->; destruct Hd as (r & ? & _); congruence).
  set (f1 := upd_inodes <[i := rec]> (charge size 1 (upd_seq (λ s, u64 (s + 1)) f))).
  assert (u64 (fs_seq f + 1) = fs_seq f + 1) as Eu.
  { apply u64_id. unfold in_u64. pose proof (w64_range RootInode) as [? _]. pose proof (bi_seq f I). lia. }
  assert (built_inv f1) as I1.
  { split; unfold f1; fsred; rewrite ?Eu.
    - eapply forest_sub; [apply I|done|]. intros j r. fsred. rewrite lookup_insert. case_decide; [|eauto].
      intros [= <-]. subst j. right. auto.
    - intros r. rewrite lookup_insert_ne by done. apply I.
    - intros j. rewrite lookup_insert. case_decide; [subst; lia|]. intros ?%(bi_inodes f I). lia.
    - intros p m j [??]%(bi_names f I). lia.
    - pose proof (bi_seq f I). lia.
    - intros j r. rewrite lookup_insert. case_decide; [by intros [= <-]|apply I].
    - intros j r. rewrite lookup_insert. change (link_count _ j) with (link_count f j).
      case_decide; [|apply I]. intros [= <-] Hf. subst j. rewrite link_count_none by done. specialize (Hl Hf). lia. }
  change (create d n rec size now f) with (upd_inode d (touch now) (upd_names <[(d, n) := i]> f1)).
  apply built_upd_inode; [|intros; apply touch_kind].
  apply (built_bind f1 I1 d n i rec); try done.
  - destruct Hd as (r & Hr & ?). exists r. unfold f1. fsred. by rewrite lookup_insert_ne.
  - unfold f1. fsred. by rewrite lookup_insert_eq.
  - intros Hin. apply inside_leaf in Hin; [done|]. exact Hleaf.
  - intros Hf. change (link_count f1 i) with (link_count f i). rewrite link_count_none by done. specialize (Hl Hf). lia.
Qed.

(** A further name for a file, also one that had none left. *)
Lemma built_link f d n i rec now :
  built_inv f → is_dir f d → fs_names f !! (d, n) = None → fs_inodes f !! i = Some rec →
  IsDir rec = false → NLink rec + 1 < 2 ^ 32 →
  built_inv (bind_name d n i now (upd_inodes <[i := relink rec now]> f)).
Proof.
  intros I Hd Hn Hi Hf Hmax. pose proof (bi_forest f I) as F. pose proof (bi_links f I i rec Hi Hf) as Hl.
  pose proof (bi_range f I i rec Hi) as Hu. unfold in_u32 in Hu.
  assert (NLink rec + 1 <= NLink (relink rec now) < 2 ^ 32) as Hnl.
  { cbn. destruct (Z.eqb_spec (NLink rec) 0); rewrite u32_id by (unfold in_u32; lia); lia. }
  set (f1 := upd_inodes <[i := relink rec now]> f).
  assert (built_inv f1) as I1.
  { apply (built_shrink f I); [done|done|]. intros j r. unfold f1. fsred. rewrite lookup_insert. case_decide as E.
    - intros [= <-]. subst j. exists rec. change (link_count _ i) with (link_count f i).
      split_and!; [done|done|unfold in_u32; lia|intros _; lia].
    - intros Hr. exists r. split_and!; [done|done|by eapply bi_range|apply (bi_links f I _ _ Hr)]. }
  change (built_inv (upd_inode d (touch now) (upd_names <[(d, n) := i]> f1))).
  apply built_upd_inode; [|intros; apply touch_kind].
  assert (i ≠ d) as Hid by (intros ->; destruct Hd as (r & ? & ?); congruence).
  apply (built_bind f1 I1 d n i (relink rec now)); try done.
  - destruct Hd as (r & Hr & ?). exists r. unfold f1. fsred. by rewrite lookup_insert_ne.
  - unfold f1. fsred. by rewrite lookup_insert_eq.
  - intros ->. apply (bi_root f I) in Hi. congruence.
  - intros Hin. by apply (inside_sub f f1), (file_leaf f i rec d F Hi Hf) in Hin.
  - intros Hdl. exfalso. eapply (file_not_dir_like f1 i (relink rec now)); [apply I1| |exact Hf|done].
    unfold f1. fsred. by rewrite lookup_insert_eq.
  - intros _. change (link_count f1 i) with (link_count f i). lia.
Qed.

Lemma built_put_dir f i rec :
  built_inv f → IsDir rec = true → in_u32 (NLink rec) → w64 i <= fs_seq f → unnamed f i →
  built_inv (upd_inodes <[i := rec]> f).
Proof.
  intros I Hd Hu Hi Hun. split; fsred.
  - eapply forest_sub; [apply I|done|]. intros j r. fsred. rewrite lookup_insert. case_decide; [|eauto].
    intros [= <-]. subst j. right. auto.
  - intros r. rewrite lookup_insert. case_decide; [by intros [= <-]|apply I].
  - intros j. rewrite lookup_insert. case_decide; [by subst|apply I].
  - apply I.
  - apply I.
  - intros j r. rewrite lookup_insert. case_decide; [by intros [= <-]|apply I].
  - intros j r. rewrite lookup_insert. case_decide; [intros [= <-]; congruence|apply I].
Qed.

(** The target of a rename, displaced. *)
Lemma built_displaced f nd nn t src :
  built_inv f → need_displace src nd nn f = Ok tt → built_inv (displaced nd nn t f).
Proof.
  intros I Hp. unfold displaced, displace, need_displace in *.
  destruct (fs_names f !! (nd, nn)) as [d|] eqn:Hd.
  - apply need_inode_inv in Hp as (dst & Hr & _). unfold with_inode. rewrite Hr, <- drop_link_upd_names.
    by apply built_drop.
  - by apply built_unbind.
Qed.

(** What a successful rename of two different names has found out. *)
Lemma built_rename_facts f od on nd nn t now :
  built_inv f → fs_pre (ORename od on nd nn t now) f = Ok tt →
  fs_effect (ORename od on nd nn t now) f = f ∨
  ∃ s src, fs_names f !! (od, on) = Some s ∧ fs_inodes f !! s = Some src ∧ is_dir f nd ∧ is_dir f od ∧
    (od, on) ≠ (nd, nn) ∧ s ≠ od ∧ s ≠ nd ∧ ¬ inside f s nd ∧ need_displace src nd nn f = Ok tt ∧
    fs_effect (ORename od on nd nn t now) f
    = bind_name nd nn s now (upd_inodes <[s := set_CTime t src]>
        (reparent src od nd (unbind_name od on t (displace nd nn t f)))).
Proof.
  intros I Hpre. pose proof (bi_forest f I) as F. cbn [fs_pre fs_effect] in *.
  destruct (_ && _) eqn:Hid; [by left|right].
  assert ((od, on) ≠ (nd, nn)) as Hne.
  { intros [= -> ->]. by rewrite !bool_decide_true in Hid. }
  inv_pre. destruct (fs_names f !! (od, on)) as [s|] eqn:Hs; [|done]. inv_pre.
  match goal with H : need_dir nd f = Ok tt |- _ => apply need_dir_is_dir in H as Hnd end.
  assert (¬ inside f s nd) as Hout.
  { match goal with H : negb _ = true |- _ => apply negb_true_iff in H as Hb end. intros Hin.
    destruct (IsDir r) eqn:Hdir.
    - apply (fs_below_inside f F) in Hin; [by rewrite Hin in Hb| |by left].
      intros ->. by apply (fo_top f F) in Hs.
    - apply (file_leaf f s r nd F Hr Hdir) in Hin as ->. destruct Hnd as (r' & ? & ?). congruence. }
  exists s, r. unfold with_inode. rewrite Hr. split_and!; try done.
  - match goal with H : fs_inodes f !! od = Some ?r |- _ => exists r; split; [done|]; by apply (fo_parent f F od on s) end.
  - intros ->. apply (fo_acyclic f F _ _ _ Hs). constructor.
  - intros ->. apply Hout. constructor.
Qed.

Lemma ctime_kind t r : keeps_kind r (set_CTime t r).
Proof. done. Qed.

Lemma built_reparent f src od nd : built_inv f → built_inv (reparent src od nd f).
Proof.
  intros I. unfold reparent. destruct (_ && _); [|done].
  apply built_upd_inode; [|intros; apply add_links_kind]. apply built_upd_inode; [done|intros; apply add_links_kind].
Qed.

Section rename.
Context (f : fs) (od nd s : InodeID) (on nn : bytes) (src : InodeRecord) (t now : time).
Hypothesis I : built_inv f.
Hypothesis Hs : fs_names f !! (od, on) = Some s.
Hypothesis Hsrc : fs_inodes f !! s = Some src.
Hypothesis Hnd : is_dir f nd.
Hypothesis Hod : is_dir f od.
Hypothesis Hne : (od, on) ≠ (nd, nn).
Hypothesis Hso : s ≠ od.
Hypothesis Hsn : s ≠ nd.
Hypothesis Hout : ¬ inside f s nd.
Hypothesis Hdisp : need_displace src nd nn f = Ok tt.

Lemma built_moved : fs_names f !! (nd, nn) ≠ Some s → built_inv (moved od on nd nn s t f).
Proof.
  intros Hdst. pose proof (bi_forest f I) as F. pose proof (built_displaced f nd nn t src I Hdisp) as I1.
  set (f1 := displaced nd nn t f) in *. pose proof (built_unbind f1 I1 (od, on)) as I2.
  set (f2 := upd_names (delete (od, on)) f1) in *.
  assert (fs_names f1 = delete (nd, nn) (fs_names f)) as En1 by apply displaced_names.
  assert (fs_names f2 ⊆ fs_names f) as Hsub.
  { unfold f2. fsred. rewrite En1. etrans; apply delete_subseteq. }
  assert (fs_inodes f2 !! s = Some src) as Hs2 by (unfold f2; fsred; by eapply (displaced_inode f nd s nn t Hdst)).
  change (moved od on nd nn s t f) with (upd_names <[(nd, nn) := s]> f2).
  apply (built_bind f2 I2 nd nn s src); [| |done| | | |].
  - destruct Hnd as (r & Hr & ?). exists r. split; [|done]. unfold f2. fsred. apply (displaced_inode f nd s nn t Hdst); [|done].
    intros E. apply (fo_acyclic f F _ _ _ E). constructor.
  - unfold f2. fsred. rewrite En1, lookup_delete_ne, lookup_delete_eq by congruence. done.
  - intros ->. by apply (fo_top f F) in Hs.
  - intros Hin. by apply Hout, (inside_sub _ _ _ _ Hsub).
  - intros Hdl k Hk. assert (k = (od, on)) as ->.
    { eapply (fo_unique f F s); [|by eapply lookup_weaken|done].
      destruct Hdl as [(r & ? & ?)|(n & c & Hc)]; [left; exists src; split; congruence|].
      right. exists n, c. by eapply lookup_weaken. }
    unfold f2 in Hk. fsred. by rewrite lookup_delete_eq in Hk.
  - intros Hf. destruct (link_count_unbind f1 (od, on) s) as [_ Hc]. unfold f2. rewrite Hc.
    + assert (fs_inodes f1 !! s = Some src) as Hs1 by by eapply (displaced_inode f nd s nn t Hdst).
      pose proof (bi_links f1 I1 s src Hs1 Hf). lia.
    + rewrite En1, lookup_delete_ne by congruence. done.
Qed.

(** One name of a file onto another: a name goes, the count stays. *)
Lemma built_relinked :
  fs_names f !! (nd, nn) = Some s →
  built_inv (bind_name nd nn s now (upd_inodes <[s := set_CTime t src]>
    (reparent src od nd (unbind_name od on t (displace nd nn t f))))).
Proof.
  intros Hdst. pose proof (bi_forest f I) as F.
  assert (IsDir src = false) as Hfile.
  { destruct (IsDir src) eqn:Hd; [|done]. destruct Hne. apply (fo_unique f F s); [|done|done]. left. by exists src. }
  assert (built_inv (upd_inode nd (touch now) (upd_inode s (set_CTime t)
    (upd_inode od (touch t) (upd_names (delete (od, on)) f))))) as I'.
  { apply built_upd_inode; [|intros; apply touch_kind]. apply built_upd_inode; [|intros; apply ctime_kind].
    apply built_upd_inode; [|intros; apply touch_kind]. by apply built_unbind. }
  apply (built_ext _ I'); unfold reparent; rewrite Hfile; cbn [andb]; unfold displace, with_inode; rewrite Hdst, Hsrc; fsred.
  - rewrite drop_link_names. apply insert_id. by rewrite lookup_delete_ne by congruence.
  - rewrite drop_link_records. f_equal. apply map_eq. intros j.
    rewrite lookup_insert. case_decide as E; [subst j; by rewrite lookup_alter_eq, lookup_alter_ne, Hsrc by done|].
    destruct (decide (od = j)) as [->|Hj].
    + by rewrite lookup_alter_eq, lookup_insert_ne, lookup_alter_ne, lookup_alter_eq by done.
    + by rewrite !lookup_alter_ne, lookup_insert_ne by done.
  - unfold drop_link. by destruct (last_link src).
Qed.

Lemma built_rename :
  built_inv (bind_name nd nn s now (upd_inodes <[s := set_CTime t src]>
    (reparent src od nd (unbind_name od on t (displace nd nn t f))))).
Proof.
  destruct (decide (fs_names f !! (nd, nn) = Some s)) as [Hdst|Hdst]; [by apply built_relinked|].
  rewrite rename_stages_apart by done.
  apply built_upd_inode; [|intros; apply touch_kind]. apply built_upd_inode; [|intros; apply ctime_kind].
  apply built_reparent, built_upd_inode; [by apply built_moved|intros; apply touch_kind].
Qed.
End rename.

Lemma apply_mut_kind m now r : keeps_kind r (apply_mut m now r).
Proof. destruct (apply_mut_books m now r) as (E & _ & _ & Hn & Hu). by split_and!. Qed.

Lemma built_effect o f : built_inv f → built_ok o f → fs_pre o f = Ok tt → built_inv (fs_effect o f).
Proof.
  intros I Hok Hpre. pose proof (bi_forest f I) as F. destruct o; cbn [built_ok fs_pre fs_effect] in *; try done.
  - (* CommitFile *)
    destruct Hok as (Hd & Hnl & Hs). inv_pre.
    match goal with H : need_dir _ _ = Ok tt |- _ => apply need_dir_is_dir in H end.
    destruct (fs_names f !! (dir, name)) as [i|] eqn:Hn; inv_pre.
    + unfold with_inode. rewrite Hr.
      match goal with H : negb (IsDir r) = true |- _ => apply negb_true_iff in H as Hf end.
      eapply built_ext; [apply (built_upd_inode f I i (λ old, overwrite_record old rec now))| | |].
      * intros r' Hr'. simplify_eq. unfold keeps_kind. cbn. by rewrite Hd, Hf.
      * done.
      * by rewrite <- (upd_inode_insert i r (λ old, overwrite_record old rec now) f Hr).
      * done.
    + unfold created_record. apply built_create; try done; destruct (IsZero _); cbn; unfold in_u32; lia.
  - (* PublishFile *)
    destruct Hok as (Hd & Hnl & Hs). inv_pre.
    apply built_create; try done; [by apply need_dir_is_dir|by apply need_free_None|unfold in_u32; lia|lia].
  - (* CommitMkdir *)
    destruct Hok as (Hd & Hu & Hs). inv_pre. apply built_upd_inode; [|intros; apply add_links_kind].
    apply built_create; try done; [by apply need_dir_is_dir|by apply need_free_None|congruence].
  - (* RemoveEntry *)
    destruct (fs_names f !! (dir, name)) as [i|] eqn:Hn; [|done]. inv_pre. unfold with_inode. rewrite Hr.
    assert (i ≠ dir) by (intros ->; apply (fo_acyclic f F _ _ _ Hn); constructor).
    unfold unbind_name. rewrite !drop_link_upd_inode by done.
    apply built_upd_inode; [|intros; destruct (IsDir r); [apply add_links_kind|done]].
    apply built_upd_inode; [by apply built_drop|intros; apply touch_kind].
  - (* Link *)
    inv_pre. unfold with_inode. rewrite Hr. pose proof (Hok r Hr) as Hmax.
    match goal with H : need_dir _ _ = Ok tt |- _ => apply need_dir_is_dir in H as Hd end.
    match goal with H : negb (IsDir r) = true |- _ => apply negb_true_iff in H as Hf end.
    match goal with H : need_free _ _ _ = Ok tt |- _ => apply need_free_None in H as Hn end.
    by apply built_link.
  - (* Rename *)
    pose proof (built_rename_facts f oldDir oldName newDir newName deletedAt now I Hpre)
      as [E|(s & src & ? & ? & ? & ? & ? & ? & ? & ? & ? & E)]; cbn [fs_effect] in E; rewrite E; [done|].
    by apply built_rename.
  - apply built_upd_inode; [done|]. intros. apply apply_mut_kind.
  - by apply built_upd_inode.
  - by apply built_forget.
  - by eapply built_ext.
  - by eapply built_ext.
  - (* AllocInode *)
    pose proof (bi_seq f I). pose proof (w64_range RootInode) as [? _].
    destruct I as [_ I0 I1 I2 I3 I4 I5]. split; fsred; rewrite ?u64_id by (unfold in_u64; lia); try done.
    + by eapply forest_sub; [exact F|done|eauto].
    + intros i ?%I1. lia.
    + intros d n i [??]%I2. lia.
    + lia.
  - destruct Hok as (? & ? & ? & _ & ?). by apply built_put_dir.
  - destruct Hok as ((r & Hr & Hd) & Hun & He & Hroot & Hne). inv_pre.
    apply (built_bind f I dir name child r); try done; [by apply need_dir_is_dir|by apply need_free_None| |congruence].
    intros Hin. apply inside_leaf in Hin; [done|]. intros n c Hn.
    assert (entries child f !! (child, n) = Some c) as E by by apply elem_of_entries. by rewrite He in E.
  - by apply built_unbind.
Qed.

(** * Built databases *)

Lemma initial_built uid gid now : built_inv (initial uid gid now).
Proof.
  pose proof (initial_inv uid gid now) as I. split.
  - apply tree_forest, I.
  - intros r. unfold initial. fsred. rewrite lookup_singleton_eq. by intros [= <-].
  - apply I.
  - intros d n i Hn. by unfold initial in Hn; fsred.
  - done.
  - intros i r Hr. by apply (inv_range _ I i r).
  - intros i r Hr Hd. by rewrite (inv_links _ I i r).
Qed.

Section built.
Context `{BoltLaws bucket}.
Implicit Types tx : DB bucket.

Lemma built_has_inv tx : built tx → keys_ok tx ∧ built_inv (view tx).
Proof.
  induction 1 as [uid gid now|tx o _ [Hk I] Hok].
  - split; [apply keys_ok_Open|]. rewrite view_Open. apply initial_built.
  - split; [by apply run_op_keys|].
    pose proof (op_implements o tx Hk (bi_forest _ I)) as Himp. unfold implements in Himp.
    destruct (fs_pre o (view tx)) as [[]|e] eqn:Hp; [|by rewrite Himp].
    destruct Himp as (tx' & E & V). rewrite E. cbn. rewrite V. by apply built_effect.
Qed.

(** Orderly callers are callers. *)
Lemma op_ok_built o f : op_ok o f → built_ok o f.
Proof.
  destruct o; cbn; try done; unfold counters_ok, in_u32; try (intros; split_and!; try tauto; lia).
  by intros (_ & _ & ?).
Qed.

Lemma reachable_built tx : reachable tx → built tx.
Proof. induction 1; [apply built_open|]. apply built_op; [done|]. by apply op_ok_built. Qed.

(** ** EnsureDir *)

(** A run of [m] leads from built databases to built ones, as long as inode
    numbers last. *)
Lemma AllocInode_built tx :
  built tx → fs_seq (view tx) + 1 < 2 ^ 64 →
  ∃ tx1, AllocInode tx = (Ok (next_id (view tx)), tx1) ∧ built tx1 ∧
    view tx1 = upd_seq (λ s, u64 (s + 1)) (view tx).
Proof.
  intros Hb Hs. pose proof (built_op tx OAllocInode Hb Hs) as Hb'. revert Hb'.
  destruct (allocInodeTx_run tx) as (tx1 & E & V). cbn [run_op]. unfold AllocInode, mbind, M_bind.
  rewrite bolt_update_run, E. cbn. intros Hb'. by exists tx1.
Qed.

Lemma ensureDirStep_built uid gid now cur name tx :
  built tx → fs_seq (view tx) + 1 < 2 ^ 64 → w64 cur <= fs_seq (view tx) →
  let '(r, tx') := ensureDirStep uid gid now cur name tx in
  built tx' ∧ fs_seq (view tx') <= fs_seq (view tx) + 1 ∧
  (∀ i, r = Ok i → w64 i <= fs_seq (view tx')).
Proof.
  intros Hb Hs Hc. destruct (built_has_inv tx Hb) as [_ I]. unfold ensureDirStep.
  case_bool_decide; [cbn; split_and!; [done|lia|by intros ? [= <-]]|].
  unfold Lookup, View, attempt, mbind, M_bind. rewrite lookupTx_view.
  destruct (fs_names (view tx) !! (cur, name)) as [i|] eqn:Hn.
  { cbn. split_and!; [done|lia|]. intros ? [= <-]. by destruct (bi_names _ I _ _ _ Hn). }
  cbn [negb]. rewrite bool_decide_true by done. cbn [negb].
  destruct (AllocInode_built tx Hb Hs) as (tx1 & E1 & Hb1 & V1). rewrite E1.
  destruct (built_next _ I Hs) as (Eid & Hfresh & Hun & Hleaf & Hroot). set (i := next_id (view tx)) in *.
  assert (fs_seq (view tx1) = fs_seq (view tx) + 1) as Es1.
  { rewrite V1. fsred. apply u64_id. unfold in_u64. pose proof (w64_range RootInode) as [? _].
    pose proof (bi_seq _ I). lia. }
  set (rec := dir_record mode_755 uid gid now).
  assert (built_ok (OPutInode i rec) (view tx1)) as Hok.
  { cbn [built_ok]. rewrite Es1, V1. split_and!; try done. lia. }
  pose proof (built_op tx1 _ Hb1 Hok) as Hb2. cbn [run_op] in Hb2.
  assert (view (PutInode i rec tx1).2 = upd_inodes <[i := rec]> (view tx1)) as V2.
  { unfold PutInode. rewrite bolt_update_run. apply view_put_inode. }
  assert (∃ tx2, PutInode i rec tx1 = (Ok tt, tx2)) as [tx2 E2] by (eexists; unfold PutInode; by rewrite bolt_update_run).
  rewrite E2 in *. cbn [snd] in *.
  assert (fs_seq (view tx2) = fs_seq (view tx) + 1) as Es2 by by rewrite V2.
  assert (built_ok (OCreateDentry cur name i) (view tx2)) as Hok2.
  { cbn [built_ok]. rewrite V2, V1. split_and!; try done.
    - exists rec. fsred. by rewrite lookup_insert_eq.
    - apply map_empty. intros [d n]. destruct (entries i _ !! (d, n)) as [c|] eqn:Ee; [|done].
      apply elem_of_entries in Ee as [Ee Ed]. cbn in Ed. subst d. fsred. by apply Hleaf in Ee.
    - intros E. rewrite E in Eid. lia. }
  pose proof (built_op tx2 _ Hb2 Hok2) as Hb3. cbn [run_op] in Hb3.
  pose proof (run_op_implements (OCreateDentry cur name i) tx2 eq_refl) as Himp. unfold implements in Himp. cbn [run_op] in Himp.
  destruct (CreateDentry cur name i tx2) as [r3 tx3] eqn:E3. cbn [snd] in Hb3.
  assert (fs_seq (view tx3) = fs_seq (view tx) + 1) as Es3.
  { destruct (fs_pre _ _); [destruct Himp as (? & E & V3); rewrite E3 in E; injection E as _ ->; by rewrite V3|by injection Himp as _ ->]. }
  destruct r3 as [[]|e3]; cbn; [split_and!; [done|lia|]; intros ? [= <-]; lia|].
  case_bool_decide; cbn; (split_and!; [done|lia|]); [intros ? [= <-]; lia|by intros ? [=]].
Qed.

Lemma ensureDirChargedStep_built uid gid now cur name tx :
  built tx → fs_seq (view tx) + 1 < 2 ^ 64 → w64 cur <= fs_seq (view tx) →
  let '(r, tx') := ensureDirChargedStep uid gid now cur name tx in
  built tx' ∧ fs_seq (view tx') <= fs_seq (view tx) + 1 ∧
  (∀ i, r = Ok i → w64 i <= fs_seq (view tx')).
Proof.
  intros Hb Hs Hc. destruct (built_has_inv tx Hb) as [_ I]. unfold ensureDirChargedStep.
  case_bool_decide; [cbn; split_and!; [done|lia|by intros ? [= <-]]|].
  unfold Lookup, View, attempt, mbind, M_bind. rewrite lookupTx_view.
  destruct (fs_names (view tx) !! (cur, name)) as [i|] eqn:Hn.
  { cbn. split_and!; [done|lia|]. intros ? [= <-]. by destruct (bi_names _ I _ _ _ Hn). }
  cbn [negb]. rewrite bool_decide_true by done. cbn [negb].
  set (rec := dir_record mode_755 uid gid now).
  assert (built_ok (OCommitMkdir cur name rec now) (view tx)) as Hok by done.
  pose proof (built_op tx _ Hb Hok) as Hb1. cbn [run_op] in Hb1. unfold mbind, M_bind in Hb1.
  pose proof (tx_update _ _ _ _ _ (commitMkdirTx_spec cur name rec now tx)) as Hrun.
  unfold CommitMkdir in *. destruct (fs_pre _ _) as [u|e] eqn:Hp.
  - destruct Hrun as (tx1 & E & V). rewrite E in *. cbn in Hb1 |- *.
    assert (fs_seq (view tx1) = fs_seq (view tx) + 1) as Es.
    { rewrite V. cbn [fs_effect]. fsred. apply u64_id. unfold in_u64. pose proof (w64_range RootInode) as [? _].
      pose proof (bi_seq _ I). lia. }
    destruct (built_next _ I Hs) as (Eid & _). split_and!; [done|lia|]. intros ? [= <-]. lia.
  - rewrite Hrun. case_bool_decide; cbn; [|split_and!; [done|lia|by intros ? [=]]].
    rewrite lookupTx_view, Hn. cbn. split_and!; [done|lia|by intros ? [=]].
Qed.

(** A walk of such steps. *)
Lemma ensure_fold_built (step : InodeID → bytes → M (DB bucket) InodeID) path cur tx :
  (∀ cur name tx, built tx → fs_seq (view tx) + 1 < 2 ^ 64 → w64 cur <= fs_seq (view tx) →
    let '(r, tx') := step cur name tx in
    built tx' ∧ fs_seq (view tx') <= fs_seq (view tx) + 1 ∧ (∀ i, r = Ok i → w64 i <= fs_seq (view tx'))) →
  built tx → fs_seq (view tx) + Z.of_nat (length path) < 2 ^ 64 → w64 cur <= fs_seq (view tx) →
  built (fold_m step cur path tx).2.
Proof.
  intros Hstep. revert cur tx. induction path as [|name path IH]; intros cur tx Hb Hs Hc; [done|].
  cbn [fold_m length] in *. unfold mbind, M_bind. specialize (Hstep cur name tx Hb ltac:(lia) Hc).
  destruct (step cur name tx) as [[i|e] tx']; destruct Hstep as (Hb' & Hs' & Hi); [|done].
  apply IH; [done|lia|by apply Hi].
Qed.

(** The databases [EnsureDir] and [EnsureDirCharged] leave are built. *)
Lemma EnsureDir_built uid gid now path tx :
  built tx → fs_seq (view tx) + Z.of_nat (length path) < 2 ^ 64 →
  built (EnsureDir uid gid now path tx).2 ∧ built (EnsureDirCharged uid gid now path tx).2.
Proof.
  intros Hb Hs. pose proof (built_has_inv tx Hb) as [_ I]. destruct (bi_seq _ I).
  split; apply ensure_fold_built; try done; intros; [by apply ensureDirStep_built|by apply ensureDirChargedStep_built].
Qed.
End built.
