(* ===== verification/MetaThm.v ===== *)
(** pkg/metadb: the guarantees of the metadata store.

    The theorems a caller relies on, for every reachable database, and
    concrete runs that show where the code departs from its comments. *)
From S2P Require Import Prelude Bolt Chunk Pack MetaDB MetaSpec MetaRefine MetaTree MetaInv MetaBuilt.

(** Every graveyard entry is for an inode that is not live, with a number
    already handed out. *)
Definition graves_ok (f : fs) : Prop :=
  ∀ s i, is_Some (fs_graves f !! (s, i)) → ¬ live f i ∧ w64 i <= fs_seq f.

(** A store to run the theorems on: a new repository; a file "a" of five
    bytes published in its root; that file removed again. *)
Definition demo_rec : InodeRecord := set_content 5 false zeroID true zeroID (file_record 420 1000 1000 7).
Definition demo0 : DB MapBolt.mapb := Open 1000 1000 0.
Definition demo1 : DB MapBolt.mapb := (run_op (OPublishFile RootInode (str "a") demo_rec 7) demo0).2.
Definition demo2 : DB MapBolt.mapb := (run_op (ORemoveEntry RootInode (str "a") 9) demo1).2.
Definition demo_id : InodeID := Word64 2 eq_refl.

(** * The dead stay dead *)

Lemma live_upd_inode d g f i :
  (∀ r, fs_inodes f !! d = Some r → 0 < NLink (g r) → 0 < NLink r) →
  live (upd_inode d g f) i → live f i.
Proof.
  intros Hg (r & (r0 & Hr & [[-> ->]|[_ ->]])%upd_inode_Some & Hl); [|by exists r0].
  exists r0. split; [done|]. by apply Hg.
Qed.

Lemma live_insert i r f j :
  live (upd_inodes <[i := r]> f) j → i = j ∧ 0 < NLink r ∨ i ≠ j ∧ live f j.
Proof.
  intros (r' & Hr & Hl). fsred. rewrite lookup_insert in Hr. case_decide; [|right; by split; [|exists r']].
  left. by simplify_eq.
Qed.

Lemma live_drop_link i rec t f j :
  fs_inodes f !! i = Some rec → in_u32 (NLink rec) → live (drop_link i rec t f) j → live f j.
Proof.
  intros Hi Hr. unfold drop_link. destruct (last_link rec) eqn:Hl.
  - intros [[-> Hn]|[_ ?]]%live_insert; [cbn in Hn; lia|done].
  - intros [[-> _]|[_ ?]]%live_insert; [|done]. exists rec. split; [done|].
    apply negb_false_iff in Hl. zbool. lia.
Qed.

Lemma live_add_links f d k i : live_dir f d → live (upd_inode d (add_links k) f) i → live f i.
Proof.
  intros (r & Hr & _ & Hl). apply live_upd_inode. intros r' Hr' _. by simplify_eq.
Qed.

Lemma live_touch f d t i : live (upd_inode d (touch t) f) i → live f i.
Proof. by apply live_upd_inode. Qed.

Lemma live_bind_name d n j t f i : live (bind_name d n j t f) i → live f i.
Proof. intros Hl. eapply (live_touch f d t). exact Hl. Qed.

Lemma live_unbind_name d n t f i : live (unbind_name d n t f) i → live f i.
Proof. intros Hl. by eapply (live_touch f d t). Qed.

Lemma live_create d n rec size now f i :
  fs_inv f → counters_ok f → w64 i <= fs_seq f → live (create d n rec size now f) i → live f i.
Proof.
  intros I [Hs _] Hi [[E _]|[_ Hl]]%live_bind_name%live_insert; [|exact Hl].
  destruct (next_id_fresh f I Hs) as [Eid _]. rewrite E in Eid. lia.
Qed.

Lemma live_displaced nd nn t f i : fs_inv f → live (displaced nd nn t f) i → live f i.
Proof.
  intros I. change (live (displace nd nn t f) i → live f i). unfold displace, with_inode.
  destruct (fs_names f !! (nd, nn)) as [d|]; [|done]. destruct (fs_inodes f !! d) as [dst|] eqn:Hd; [|done].
  intros Hl. by apply live_drop_link in Hl; [|done|apply (inv_range f I d)].
Qed.

Lemma live_reparent src od nd f i :
  live_dir f od → live_dir f nd → live (reparent src od nd f) i → live f i.
Proof.
  intros Ho Hn. unfold reparent. destruct (_ && _); [|done].
  intros Hl%live_add_links; [|by apply live_dir_add_links]. by apply live_add_links in Hl.
Qed.

(** No operation brings an inode back. *)
Lemma dead_stays_dead o f i :
  fs_inv f → op_ok o f → fs_pre o f = Ok tt → w64 i <= fs_seq f →
  live (fs_effect o f) i → live f i.
Proof.
  intros I Hok Hpre Hi. pose proof (inv_tree f I) as T.
  destruct o; cbn [op_ok fs_pre fs_effect] in *; try done.
  - destruct Hok as (Hd & Hdir & Hnl & Hz & Hb & Hc). inv_pre.
    destruct (fs_names f !! (dir, name)) as [j|] eqn:Hn; inv_pre; [|by apply live_create].
    unfold with_inode. rewrite Hr. intros [[<- Hl]|[_ Hl]]%live_insert; [|exact Hl]. by exists r.
  - destruct Hok as (Hd & Hdir & Hnl & Hz & Hb & Hc). by apply live_create.
  - destruct Hok as (Hd & Hdir & Hnl & Hz & Hc). intros Hl%live_add_links; [by apply live_create in Hl|].
    apply live_dir_kind. change (kind (create dir name rec 0 now f) dir) with
      (kind (upd_inode dir (touch now) (upd_inodes <[next_id f := rec]> f)) dir).
    rewrite kind_upd_inode, kind_insert by done. destruct Hc as [Hs _].
    destruct (next_id_fresh f I Hs) as [_ Hf]. apply live_dir_kind in Hd.
    case_decide as E; [|done]. unfold kind in Hd. by rewrite <- E, Hf in Hd.
  - destruct (fs_names f !! (dir, name)) as [j|] eqn:Hn; [|done]. inv_pre.
    unfold with_inode. rewrite Hr. destruct (tree_edge _ T _ _ _ Hn) as [Hd _].
    assert (j ≠ dir) by (intros ->; by apply (not_own_parent f T) in Hn).
    rewrite drop_link_upd_inode by done. unfold unbind_name. rewrite drop_link_upd_inode by done.
    assert (∀ k, live (drop_link j r deletedAt (upd_names (delete (dir, name)) f)) k → live f k) as Hdl.
    { intros k Hk. by apply live_drop_link in Hk; [|done|apply (inv_range f I j)]. }
    destruct (IsDir r).
    + intros Hl%live_add_links; [by apply Hdl, (live_touch _ dir deletedAt)|].
      apply live_dir_touch. destruct Hd as (rd & Hrd & ?). exists rd. split; [|done].
      unfold drop_link. destruct (last_link r); fsred; by rewrite lookup_insert_ne.
    + rewrite upd_inode_id. intros Hl. by apply Hdl, (live_touch _ dir deletedAt).
  - destruct Hok as (_ & Hl & _). inv_pre. unfold with_inode. rewrite Hr.
    intros [[<- _]|[_ Hl']]%live_bind_name%live_insert; done.
  - pose proof (rename_facts f oldDir oldName newDir newName deletedAt now I Hok Hpre)
      as [E|(s & src & Hs & Hsrc & Hnd & Hne & Hd & Hout & Hdp & E)];
      cbn [fs_effect] in E; rewrite E; [done|].
    rewrite rename_stages by done.
    destruct (moved_live f oldDir newDir s oldName newName src deletedAt) as [Ho Hn]; try done.
    intros Hl%live_touch%live_upd_inode; [|done].
    apply live_reparent in Hl; [|by apply live_dir_touch..]. apply live_touch in Hl.
    exact (live_displaced newDir newName deletedAt f i I Hl).
  - apply live_upd_inode. intros r _. pose proof (apply_mut_books mut now r) as (_ & E & _).
    intros Hl. apply Z.ltb_lt. rewrite <- E. by apply Z.ltb_lt.
  - by apply live_upd_inode.
  - intros (r & Hr & Hl). fsred. apply lookup_delete_Some in Hr as [_ Hr]. by exists r.
Qed.

(** * The graveyard *)

Lemma graves_drop_link i rec t f s j :
  is_Some (fs_graves (drop_link i rec t f) !! (s, j)) →
  is_Some (fs_graves f !! (s, j)) ∨ j = i ∧ last_link rec = true.
Proof.
  unfold drop_link. destruct (last_link rec); [|by left]. fsred.
  rewrite lookup_insert. case_decide; [|by left]. right. by simplify_eq.
Qed.

(** Without a name an inode is not live. *)
Lemma unnamed_dead f i :
  fs_inv f → i ≠ RootInode → (∀ k, fs_names f !! k ≠ Some i) → ¬ live f i.
Proof.
  intros I Hroot Hno (r & Hr & Hl). destruct (IsDir r) eqn:Hd.
  - destruct (tree_reach f (inv_tree f I) i) as [k Hk]; [by exists r|].
    inversion Hk as [|k' d n j _ Hn]; [done|subst]. by apply Hno in Hn.
  - rewrite (inv_links f I i r Hr Hd), link_count_none in Hl by done. lia.
Qed.

Lemma reparent_graves src od nd f : fs_graves (reparent src od nd f) = fs_graves f.
Proof. unfold reparent. by destruct (_ && _). Qed.

Lemma reparent_names src od nd f : fs_names (reparent src od nd f) = fs_names f.
Proof. unfold reparent. by destruct (_ && _). Qed.

Lemma reparent_quota src od nd f : fs_quota (reparent src od nd f) = fs_quota f.
Proof. unfold reparent. by destruct (_ && _). Qed.

(** An operation graves only inodes whose last name it removed. *)
Lemma effect_graves o f s i :
  fs_inv f → op_ok o f → fs_pre o f = Ok tt →
  is_Some (fs_graves (fs_effect o f) !! (s, i)) →
  is_Some (fs_graves f !! (s, i)) ∨
  i ≠ RootInode ∧ is_Some (fs_inodes f !! i) ∧ ∀ k, fs_names (fs_effect o f) !! k ≠ Some i.
Proof.
  intros I Hok Hpre. pose proof (inv_tree f I) as T.
  assert (∀ k, fs_names f !! k = Some i → i ≠ RootInode) as Hroot.
  { intros k Hk ->. by apply (tree_top _ T) in Hk. }
  destruct o; cbn [fs_pre fs_effect] in *; try (by left).
  - destruct (fs_names f !! (dir, name)) as [j|]; [|by left].
    unfold with_inode. destruct (fs_inodes f !! j); by left.
  - destruct (fs_names f !! (dir, name)) as [j|] eqn:Hn; [|by left]. inv_pre. unfold with_inode. rewrite Hr.
    rewrite drop_link_names. intros [?|[-> Hl]]%graves_drop_link; [by left|right].
    split_and!; [by eapply Hroot|eauto|]. by eapply last_link_unbound.
  - unfold with_inode. destruct (fs_inodes f !! target); by left.
  - pose proof (rename_facts f oldDir oldName newDir newName deletedAt now I Hok Hpre)
      as [E|(sid & src & Hs & Hsrc & Hnd & Hne & Hd & Hout & Hdp & E)]; cbn [fs_effect] in E; rewrite E;
      [by left|]. fsred. rewrite reparent_graves, reparent_names. fsred. rewrite displace_names.
    unfold displace, with_inode, need_displace in *.
    destruct (fs_names f !! (newDir, newName)) as [d|] eqn:Hn; [|by left]. inv_pre. rewrite Hr.
    intros [?|[-> Hl]]%graves_drop_link; [by left|right].
    pose proof (last_link_unbound f newDir newName d r I Hn Hr Hl) as Hno.
    split_and!; [by eapply Hroot|eauto|]. intros k. rewrite lookup_insert. destruct (decide (_ = k)); [naive_solver|].
    intros [_ Hk]%lookup_delete_Some. apply (Hno k). by apply lookup_delete_Some.
  - fsred. intros [u [_ Hg]%lookup_delete_Some]. left. eauto.
Qed.

(** The allocation counter only grows. *)
Lemma effect_seq o f : fs_inv f → op_ok o f → fs_seq f <= fs_seq (fs_effect o f).
Proof.
  intros I Hok. pose proof (inv_seq_range f I).
  assert (counters_ok f → fs_seq f <= u64 (fs_seq f + 1)) as Hc.
  { intros [? _]. rewrite u64_id by (unfold in_u64; lia). lia. }
  assert (∀ i r t g, fs_seq (drop_link i r t g) = fs_seq g) as Hd.
  { intros. unfold drop_link. by destruct (last_link r). }
  assert (∀ d n t, fs_seq (displace d n t f) = fs_seq f) as Hdp.
  { intros. unfold displace, with_inode. repeat case_match; rewrite ?Hd; done. }
  destruct o; cbn [op_ok fs_effect] in *; unfold with_inode, reparent; fsred; try lia;
    repeat case_match; fsred; rewrite ?Hd, ?Hdp; fsred; rewrite ?Hdp; try lia; apply Hc; tauto.
Qed.

Lemma graves_effect o f :
  fs_inv f → graves_ok f → op_ok o f → fs_pre o f = Ok tt → graves_ok (fs_effect o f).
Proof.
  intros I Hg Hok Hpre s i Hs. pose proof (effect_seq o f I Hok) as Hseq.
  apply effect_graves in Hs as [Hold|(Hroot & Hin & Hno)]; [| |done..].
  - apply Hg in Hold as [Hdead Hle]. split; [|lia]. intros Hl. by apply dead_stays_dead in Hl.
  - split; [|pose proof (inv_seq f I i Hin); lia].
    apply unnamed_dead; [by apply inv_effect|done|done].
Qed.

Lemma reachable_graves `{BoltLaws bucket} (tx : DB bucket) : reachable tx → graves_ok (view tx).
Proof.
  induction 1 as [uid gid now|tx o Hr IH Hok].
  - rewrite view_Open. by intros s i [??].
  - destruct (reachable_inv tx Hr) as [Hk I].
    pose proof (op_implements o tx Hk (tree_forest _ (inv_tree _ I))) as Himp. unfold implements in Himp.
    destruct (fs_pre o (view tx)) as [[]|e] eqn:Hp; [|by rewrite Himp].
    destruct Himp as (tx' & E & V). rewrite E. cbn. rewrite V. by apply graves_effect.
Qed.

(** * Counting names *)

Lemma link_count_size f i : link_count f i = Z.of_nat (size (links i f)).
Proof.
  unfold link_count, links. induction (fs_names f) as [|k c m Hk IH] using map_ind.
  - by rewrite wsum_empty, map_filter_empty, map_size_empty.
  - rewrite wsum_insert_new, map_filter_insert by done. unfold names_it at 1. cbn [snd].
    destruct (decide (c = i)) as [->|Hc].
    + rewrite bool_decide_true, IH by done. rewrite map_size_insert_None; [lia|].
      apply map_lookup_filter_None. by left.
    + rewrite bool_decide_false, IH by done. rewrite delete_id by done. lia.
Qed.

(** * Charging *)

(** The only way an operation changes the usage is a charge it has checked. *)
Lemma effect_quota o f :
  fs_pre o f = Ok tt →
  fs_quota (fs_effect o f) = fs_quota f ∨
  (∃ b i, need_room b i f = Ok tt ∧ fs_quota (fs_effect o f) = fs_quota (charge b i f)) ∨
  (∃ lb li, o = OSetQuotaLimits lb li).
Proof.
  assert (∀ i r t g, need_drop r f = Ok tt → fs_quota g = fs_quota f →
    fs_quota (drop_link i r t g) = fs_quota f ∨
    ∃ b n, need_room b n f = Ok tt ∧ fs_quota (drop_link i r t g) = fs_quota (charge b n f)) as Hdrop.
  { intros i r t g Hn Eg. unfold drop_link, need_drop in *. destruct (last_link r); fsred; [right|by left].
    exists (freed r), (-1). by rewrite Eg. }
  intros Hpre. destruct o; cbn [fs_pre fs_effect] in *; try (by left); try (right; right; by eauto).
  - inv_pre. destruct (fs_names f !! (dir, name)) as [j|]; inv_pre.
    + unfold with_inode. rewrite Hr. right; left; eauto.
    + right; left; eauto.
  - inv_pre. right; left; eauto.
  - inv_pre. right; left; eauto.
  - destruct (fs_names f !! (dir, name)) as [j|]; inv_pre. unfold with_inode. rewrite Hr.
    destruct (Hdrop j r deletedAt (upd_inode dir (if IsDir r then add_links (-1) else id)
      (unbind_name dir name deletedAt f))) as [?|?]; auto.
  - unfold with_inode. by repeat case_match; left.
  - destruct (_ && _); [by left|]. inv_pre. destruct (fs_names f !! (oldDir, oldName)) as [s|]; inv_pre.
    unfold with_inode. rewrite Hr. fsred.
    rewrite reparent_quota. fsred. unfold displace, need_displace, with_inode in *.
    destruct (fs_names f !! (newDir, newName)) as [d|]; inv_pre; [|by left].
    match goal with H : fs_inodes f !! d = Some _ |- _ => rewrite H end.
    destruct (Hdrop d r1 deletedAt f) as [?|?]; auto.
Qed.

Lemma addDelta_grows u d : 0 <= u < 2 ^ 64 → u < addDelta u d → 0 < d.
Proof.
  intros Hu. unfold addDelta. destruct (Z.leb_spec 0 d).
  - destruct (Z.eq_dec d 0) as [->|]; [|lia]. change (u64 0) with 0. rewrite Z.add_0_r, u64_id; [lia|done].
  - pose proof (u64_range (i64 (- d))) as [? _]. destruct (Z.ltb_spec u (u64 (i64 (- d)))); lia.
Qed.

Lemma checkQuota_limit q b i :
  checkQuota q b i = Ok tt → 0 <= BytesUsed q < 2 ^ 64 → 0 <= InodesUsed q < 2 ^ 64 →
  (BytesUsed q < addDelta (BytesUsed q) b → BytesLimit q <= 0 ∨ addDelta (BytesUsed q) b <= BytesLimit q) ∧
  (InodesUsed q < addDelta (InodesUsed q) i →
    InodesLimit q <= 0 ∨ addDelta (InodesUsed q) i <= InodesLimit q).
Proof.
  unfold checkQuota. intros Hq Hb Hi. split; intros Hg; apply addDelta_grows in Hg as Hd; try done.
  - destruct (Z.ltb_spec 0 (BytesLimit q)); [|by left]. destruct (Z.ltb_spec 0 b); [|lia].
    destruct (Z.ltb_spec (BytesLimit q) (addDelta (BytesUsed q) b)); [done|by right].
  - destruct (Z.ltb_spec 0 (InodesLimit q)); [|by left]. destruct (Z.ltb_spec 0 i); [|lia].
    destruct (Z.ltb_spec (InodesLimit q) (addDelta (InodesUsed q) i)); [|by right].
    by destruct (_ && _).
Qed.

(** * The demonstration store *)

Lemma demo0_reachable : reachable demo0.
Proof. apply reach_open. Qed.

Lemma demo1_reachable : reachable demo1.
Proof.
  apply reach_op; [apply demo0_reachable|]. unfold demo0. rewrite view_Open.
  split_and!; [|done|done|done|done|by vm_compute|by split].
  exists (dir_record mode_755 1000 1000 0). split; [apply lookup_singleton_eq|done].
Qed.

Lemma demo1_lookup : fs_names (view demo1) !! (RootInode, str "a") = Some demo_id.
Proof. rewrite names_lookup. by vm_compute. Qed.

Lemma demo1_inode : fs_inodes (view demo1) !! demo_id = Some demo_rec.
Proof. rewrite inodes_lookup. by vm_compute. Qed.

Lemma demo2_reachable : reachable demo2.
Proof.
  apply reach_op; [apply demo1_reachable|]. intros i Hi (r & Hr & Hd).
  rewrite demo1_lookup in Hi. injection Hi as <-. rewrite demo1_inode in Hr. by injection Hr as <-.
Qed.

(** * Guarantees *)

Section guarantees.
Context `{BoltLaws bucket}.
Implicit Types tx : DB bucket.

(** C3: each of the mutating methods that are one transaction, in every
    database, succeeds exactly when its precondition holds and then has
    exactly the effect the specification gives, on the names, records,
    graveyard, quota and allocation counter as well as on the tables of
    locators, container times and repository parameters; otherwise it fails
    with the specified error and the database is unchanged.  Only [Rename]
    asks for more: its walk up the directories gives the specified answer in
    the databases of [built], those made by any calls of the methods with
    records of the right kind and without overflow of a counter. *)
Theorem metadb_refines_spec tx o :
  (is_rename o = true → built tx) →
  match fs_pre o (view tx) with
  | Ok _ => ∃ tx', run_op o tx = (Ok tt, tx') ∧ view tx' = fs_effect o (view tx) ∧
              side_view tx' = side_effect o (side_view tx)
  | Err e => run_op o tx = (Err e, tx)
  end.
Proof.
  intros Hb. assert (implements o (run_op o) tx) as Himp.
  { destruct (is_rename o) eqn:Ho; [|by apply run_op_implements].
    destruct (built_has_inv tx (Hb eq_refl)) as [Hk I]. by apply op_implements, I. }
  unfold implements in Himp. destruct (fs_pre o (view tx)) as [u|e]; [|done].
  destruct Himp as (tx' & E & V). exists tx'. split_and!; [done|done|by eapply run_op_side].
Qed.



(** C10: as long as the callers are orderly the quota counters are exact: the
    sizes of the live inodes other than the root add up to the bytes in use,
    and their number is the inodes in use.  Orderly ([reachable]): every call
    meets [op_ok], so names are made only in directories that still have one,
    only files that still have a name are linked, content is replaced by
    inode only where no name is left, records are deleted only of such
    inodes, removed directories are empty, the 64-bit counters do not
    overflow, and directories are not made with [EnsureDir], which charges
    nothing. *)
Theorem quota_exact tx :
  reachable tx → GetQuotaUsage tx = (bytes_in_use (view tx), inodes_in_use (view tx)).
Proof.
  intros [_ I]%reachable_inv. unfold GetQuotaUsage. rewrite getQuotaTx_view.
  by rewrite (inv_bytes _ I), (inv_inodes _ I).
Qed.

(** C23: no operation pushes the usage over a limit that is set. *)
Theorem quota_limit_respected tx o r tx' :
  reachable tx → run_op o tx = (r, tx') →
  ((GetQuotaUsage tx).1 < (GetQuotaUsage tx').1 →
     (GetQuotaLimits tx').1 <= 0 ∨ (GetQuotaUsage tx').1 <= (GetQuotaLimits tx').1) ∧
  ((GetQuotaUsage tx).2 < (GetQuotaUsage tx').2 →
     (GetQuotaLimits tx').2 <= 0 ∨ (GetQuotaUsage tx').2 <= (GetQuotaLimits tx').2).
Proof.
  intros [Hk I]%reachable_inv Hrun. pose proof (op_implements o tx Hk (tree_forest _ (inv_tree _ I))) as Himp.
  unfold implements in Himp. unfold GetQuotaUsage, GetQuotaLimits. rewrite !getQuotaTx_view. cbn [fst snd].
  destruct (fs_pre o (view tx)) as [[]|e] eqn:Hp.
  2:{ rewrite Himp in Hrun. injection Hrun as <- <-. lia. }
  destruct Himp as (tx1 & E & V). rewrite E in Hrun. injection Hrun as <- <-. rewrite V.
  destruct (effect_quota o (view tx) Hp) as [Eq|[(b & i & Hq & Eq)|(lb & li & ->)]].
  - rewrite Eq. lia.
  - rewrite Eq. fsred. cbn [BytesUsed InodesUsed BytesLimit InodesLimit].
    destruct (in_use_nonneg _ I). pose proof (inv_bytes_range _ I). pose proof (inv_inodes_range _ I).
    apply checkQuota_limit; [done|rewrite (inv_bytes _ I)|rewrite (inv_inodes _ I)]; lia.
  - cbn. lia.
Qed.

(** C22: the walk [Rename] makes up the tree always ends, and it refuses the
    rename exactly when the target directory is the moved directory or lies
    inside it. *)
Theorem rename_walk_decides tx a d :
  reachable tx → a ≠ RootInode → live_dir (view tx) d →
  (checkNotDescendantTx a d tx = Err ErrInvalidRename ↔ inside (view tx) a d) ∧
  (checkNotDescendantTx a d tx = Ok tt ↔ ¬ inside (view tx) a d).
Proof.
  intros [Hk I]%reachable_inv Ha Hd. pose proof (inv_tree _ I) as T.
  rewrite (checkNotDescendantTx_spec tx Hk (tree_forest _ T)) by by apply live_dir_is_dir.
  rewrite <- (fs_below_inside _ (tree_forest _ T) a d Ha) by (left; by apply live_dir_is_dir). destruct (fs_below a d (view tx)); cbn; split; split; congruence.
Qed.

(** An inode with a graveyard entry has link count zero and no name, so
    collecting it cannot take a file away from anyone. *)
Theorem graveyard_entries_are_dead tx es e r :
  reachable tx → ListGraveyard tx = (Ok es, tx) → e ∈ es → getInodeTx (ge_InodeID e) tx = Ok r →
  NLink r = 0 ∧ ∀ d n, lookupTx d n tx ≠ Ok (ge_InodeID e).
Proof.
  intros Hr. pose proof (reachable_inv tx Hr) as [[_ Hk] I]. intros [= <-] He.
  apply list_elem_of_fmap in He as ([k v] & -> & Hin). apply bk_cursor_get in Hin. cbn.
  destruct (Hk k v Hin) as [[s i] Hd]. apply dec_grave_Some in Hd as ->.
  assert (getID (drop 8 (enc_grave (s, i))) = i) as ->.
  { unfold enc_grave. cbn. by rewrite drop_app_length' by (by rewrite length_be); rewrite getID_be8. }
  destruct (reachable_graves tx Hr s i) as [Hdead _]. { rewrite graves_lookup. by rewrite Hin. }
  rewrite getInodeTx_view. destruct (_ !! i) as [r'|] eqn:Hi; [|done]. intros [= <-]. split.
  - destruct (inv_range _ I i r' Hi) as [[? _] _]. destruct (Z.eq_dec (NLink r') 0); [done|].
    destruct Hdead. exists r'. split; [done|lia].
  - intros d n. rewrite lookupTx_view. destruct (_ !! (d, n)) as [j|] eqn:Hn; [|done]. intros [= ->].
    by destruct (tree_edge _ (inv_tree _ I) _ _ _ Hn).
Qed.

(** Publishing binds a number never used before; afterwards the name
    looks up to it, its record is the one published, and every other name is
    as it was. *)
Theorem publish_then_lookup tx d n rec now i tx' :
  reachable tx → live_dir (view tx) d → fs_seq (view tx) + 1 < 2 ^ 64 →
  PublishFile d n rec now tx = (Ok i, tx') →
  getInodeTx i tx = Err ErrNotFound ∧ lookupTx d n tx' = Ok i ∧ getInodeTx i tx' = Ok rec ∧
  ∀ d' n', (d', n') ≠ (d, n) → lookupTx d' n' tx' = lookupTx d' n' tx.
Proof.
  intros [_ I]%reachable_inv Hd Hs Hrun.
  pose proof (tx_update _ _ _ _ _ (publishFileTx_spec d n rec now tx)) as Hp.
  destruct (fs_pre (OPublishFile d n rec now) (view tx)) as [[]|e].
  2:{ unfold PublishFile in Hrun. rewrite Hp in Hrun. discriminate Hrun. }
  destruct Hp as (tx1 & E & V). unfold PublishFile in Hrun. rewrite E in Hrun. injection Hrun as <- <-.
  destruct (next_id_fresh _ I Hs) as [_ Hfresh].
  assert (next_id (view tx) ≠ d) as Hne.
  { destruct Hd as (r & Hr & _). congruence. }
  split_and!.
  - by rewrite getInodeTx_view, Hfresh.
  - rewrite lookupTx_view, V. cbn [fs_effect]. fsred. by rewrite lookup_insert_eq.
  - rewrite getInodeTx_view, V. cbn [fs_effect]. fsred.
    by rewrite lookup_alter_ne, lookup_insert_eq by done.
  - intros d' n' Hdn. rewrite !lookupTx_view, V. cbn [fs_effect]. fsred. by rewrite lookup_insert_ne.
Qed.

(** Names compared as byte strings, the order of a listing. *)
Lemma bytes_le_app p a b : bytes_le (p ++ a) (p ++ b) → bytes_le a b.
Proof.
  unfold bytes_le. induction p as [|x p IH]; [done|]. cbn. rewrite Z.ltb_irrefl. apply IH.
Qed.

Lemma scan_names_sorted d (l : list (bytes * bytes)) :
  StronglySorted (λ x y, bytes_le x.1 y.1) l →
  (∀ kv, kv ∈ l → has_prefix (dentryPrefix d) kv.1 = true) →
  StronglySorted (λ x y, bytes_le (de_Name x) (de_Name y))
    ((λ kv, mkDirEntry (drop 9 kv.1) (getID kv.2)) <$> l).
Proof.
  intros Hs Hp. induction Hs as [|kv l Hs IH Hall]; cbn; constructor.
  - apply IH. intros kv' Hin. apply Hp. by apply list_elem_of_further.
  - apply Forall_fmap, Forall_forall. intros kv' Hin. cbn.
    rewrite Forall_forall in Hall. specialize (Hall kv' Hin).
    assert (∀ x, x = kv ∨ x = kv' → x.1 = dentryPrefix d ++ drop 9 x.1) as Hk.
    { intros x Hx. assert (has_prefix (dentryPrefix d) x.1 = true) as Hpx.
      { apply Hp. destruct Hx as [->| ->]; [apply list_elem_of_here|by apply list_elem_of_further]. }
      by apply has_prefix_spec in Hpx as [r ->]. }
    rewrite (Hk kv), (Hk kv') in Hall by auto. by apply bytes_le_app in Hall.
Qed.

Lemma bytes_le_prefix a b x y : length a = length b → bytes_le (a ++ x) (b ++ y) → bytes_le a b.
Proof.
  unfold bytes_le. revert b. induction a as [|u a IH]; intros [|w b] Hl; try done.
  cbn. destruct (byteZ u <? byteZ w); [done|]. destruct (byteZ w <? byteZ u); [done|].
  apply IH. by injection Hl.
Qed.

Lemma i64_nonneg z : in_u64 z → 0 <= i64 z → i64 z = z.
Proof.
  unfold in_u64, i64. intros Hz Hp. destruct (Z.lt_ge_cases z (2 ^ 63)).
  - rewrite Z.mod_small; lia.
  - replace (z + 2 ^ 63) with (z - 2 ^ 63 + 1 * 2 ^ 64) in * by lia.
    rewrite Z_mod_plus_full, Z.mod_small in Hp by lia. lia.
Qed.

(** Graveyard keys in byte order are in order of deletion. *)
Lemma enc_grave_le p q :
  bytes_le (enc_grave p) (enc_grave q) → 0 <= i64 (w64 p.1) → 0 <= i64 (w64 q.1) →
  i64 (w64 p.1) <= i64 (w64 q.1).
Proof.
  intros Hle Hp Hq. rewrite !i64_nonneg by (try done; apply w64_range).
  apply bytes_le_prefix in Hle; [|by rewrite !length_be]. unfold bytes_le in Hle.
  pose proof (w64_range p.1) as [??]. pose proof (w64_range q.1) as [??].
  rewrite bytes_leb_be in Hle by (change (8 * Z.of_nat 8) with 64; lia). by apply Z.leb_le.
Qed.

Lemma grave_time p : i64 (unbe (take 8 (enc_grave p))) = i64 (w64 p.1).
Proof.
  unfold enc_grave. rewrite take_app_length' by (by rewrite length_be). rewrite unbe_be.
  rewrite Z.mod_small; [done|]. apply w64_range.
Qed.

(** [Readdir] returns one entry for each binding of the directory and no
    other, in byte order of the names. *)
Theorem readdir_complete_sorted tx d :
  ∃ es, Readdir d tx = (Ok es, tx) ∧
    (∀ n i, mkDirEntry n i ∈ es ↔ lookupTx d n tx = Ok i) ∧
    NoDup (de_Name <$> es) ∧ StronglySorted (λ x y, bytes_le (de_Name x) (de_Name y)) es.
Proof.
  exists (readdirTx d tx). split; [done|]. split_and!.
  - intros n i. rewrite elem_of_readdirTx, lookupTx_view. destruct (_ !! (d, n)); split; congruence.
  - unfold readdirTx. rewrite <- list_fmap_compose. apply NoDup_fmap_2_strong.
    + intros [k v] [k' v'] [[m ->]%has_prefix_spec Hk]%elem_of_bk_scan [[m' ->]%has_prefix_spec Hk']%elem_of_bk_scan E.
      change (m = m') in E. subst m'. rewrite Hk in Hk'. by injection Hk' as ->.
    + rewrite bk_scan_filter. apply NoDup_filter, bk_cursor_nodup_pairs.
  - apply (scan_names_sorted d).
    + rewrite bk_scan_filter. apply StronglySorted_filter, bk_cursor_sorted.
    + intros [k v] [Hk _]%elem_of_bk_scan. done.
Qed.

(** [ListGraveyard] is in order of deletion, oldest first, as long as no
    deletion is dated before 1970. *)
Theorem graveyard_oldest_first tx es :
  reachable tx → ListGraveyard tx = (Ok es, tx) → (∀ e, e ∈ es → 0 <= ge_DeletedAt e) →
  StronglySorted (λ x y, ge_DeletedAt x <= ge_DeletedAt y) es.
Proof.
  intros [[_ Hk] _]%reachable_inv [= <-] Hpos.
  pose proof (bk_cursor_sorted _ (bGravey tx)) as Hs.
  assert (∀ k v, (k, v) ∈ bk_cursor (bGravey tx) → ∃ p, k = enc_grave p) as Henc.
  { intros k v [p Hp]%bk_cursor_get%Hk. exists p. by apply dec_grave_Some. }
  clear Hk. induction Hs as [|[k v] l Hs IH Hall]; cbn in *; constructor.
  - apply IH; [|by intros; eapply Henc, list_elem_of_further].
    intros e He. apply Hpos. by apply list_elem_of_further.
  - apply Forall_fmap, Forall_forall. intros [k' v'] Hin. cbn.
    rewrite Forall_forall in Hall. specialize (Hall _ Hin). cbn in Hall.
    destruct (Henc k v) as [p ->]; [apply list_elem_of_here|].
    destruct (Henc k' v') as [q ->]; [by apply list_elem_of_further|].
    rewrite !grave_time. apply enc_grave_le; [done| |]; rewrite <- grave_time.
    + apply (Hpos (mkGrave (getID (drop 8 (enc_grave p))) _)), list_elem_of_here.
    + apply (Hpos (mkGrave (getID (drop 8 (enc_grave q))) _)), list_elem_of_further.
      apply list_elem_of_fmap. by exists (enc_grave q, v').
Qed.

End guarantees.

(** * Instances of the guarantees *)

(** A second name for the file, and the first renamed onto it. *)
Definition demo_linked : DB MapBolt.mapb := (run_op (OLink RootInode (str "b") demo_id 8) demo1).2.
Definition demo_relinked : DB MapBolt.mapb :=
  (run_op (ORename RootInode (str "a") RootInode (str "b") 9 9) demo_linked).2.

Lemma demo_linked_built : built demo_linked.
Proof.
  apply built_op; [apply reachable_built, demo1_reachable|]. intros r. rewrite demo1_inode.
  by intros [= <-].
Qed.

Lemma demo_relinked_built : built demo_relinked.
Proof. apply built_op; [apply demo_linked_built|done]. Qed.

Lemma metadb_refines_spec_witness :
  ∃ tx', run_op (ORename RootInode (str "a") RootInode (str "b") 9 9) demo_linked = (Ok tt, tx') ∧
    view tx' = fs_effect (ORename RootInode (str "a") RootInode (str "b") 9 9) (view demo_linked) ∧
    side_view tx' = side_effect (ORename RootInode (str "a") RootInode (str "b") 9 9) (side_view demo_linked).
Proof.
  pose proof (metadb_refines_spec demo_linked (ORename RootInode (str "a") RootInode (str "b") 9 9)
    (λ _, demo_linked_built)) as Hr.
  assert (fs_pre (ORename RootInode (str "a") RootInode (str "b") 9 9) (view demo_linked) = Ok tt) as Hp by by vm_compute.
  rewrite Hp in Hr. exact Hr.
Defined.



Lemma quota_exact_witness : (5, 1) = (bytes_in_use (view demo1), inodes_in_use (view demo1)).
Proof.
  assert (GetQuotaUsage demo1 = (5, 1)) as E by by vm_compute.
  rewrite <- E. apply quota_exact, demo1_reachable.
Defined.

Lemma quota_limit_respected_witness :
  (GetQuotaUsage demo0).1 < (GetQuotaUsage demo1).1 ∧
  ((GetQuotaLimits demo1).1 <= 0 ∨ (GetQuotaUsage demo1).1 <= (GetQuotaLimits demo1).1).
Proof.
  assert ((GetQuotaUsage demo0).1 < (GetQuotaUsage demo1).1) as Hlt by by vm_compute.
  split; [exact Hlt|].
  apply (quota_limit_respected demo0 (OPublishFile RootInode (str "a") demo_rec 7)
    (run_op (OPublishFile RootInode (str "a") demo_rec 7) demo0).1 demo1 demo0_reachable); [|exact Hlt].
  unfold demo1. by destruct (run_op _ demo0).
Defined.

Lemma demo1_root : live_dir (view demo1) RootInode.
Proof.
  pose proof (reachable_inv demo1 demo1_reachable) as [_ I]. apply (tree_root _ (inv_tree _ I)).
Qed.

Lemma rename_walk_decides_witness :
  checkNotDescendantTx demo_id RootInode demo1 = Ok tt ∧ ¬ inside (view demo1) demo_id RootInode.
Proof.
  assert (checkNotDescendantTx demo_id RootInode demo1 = Ok tt) as E by by vm_compute.
  split; [exact E|]. apply (rename_walk_decides demo1 demo_id RootInode demo1_reachable); [|apply demo1_root|exact E].
  intros [=].
Defined.

Lemma graveyard_entries_are_dead_witness :
  lookupTx RootInode (str "a") demo2 ≠ Ok demo_id.
Proof.
  assert (∃ es, ListGraveyard demo2 = (Ok es, demo2) ∧ mkGrave demo_id 9 ∈ es) as (es & E & Hin).
  { eexists. split; [reflexivity|]. apply list_elem_of_fmap.
    exists (graveyardKey 9 demo_id, []). split; [by vm_compute|]. apply bk_cursor_get. by vm_compute. }
  assert (∃ r, getInodeTx demo_id demo2 = Ok r) as [r Hr] by (eexists; by vm_compute).
  apply (graveyard_entries_are_dead demo2 es _ r demo2_reachable E Hin Hr).
Defined.

Lemma publish_then_lookup_witness :
  getInodeTx demo_id demo0 = Err ErrNotFound ∧ lookupTx RootInode (str "a") demo1 = Ok demo_id.
Proof.
  pose proof (publish_then_lookup demo0 RootInode (str "a") demo_rec 7 demo_id demo1 demo0_reachable) as Hp.
  destruct Hp as (H1 & H2 & _).
  - pose proof (reachable_inv demo0 demo0_reachable) as [_ I]. apply (tree_root _ (inv_tree _ I)).
  - unfold demo0. rewrite view_Open. reflexivity.
  - vm_compute. reflexivity.
  - split; assumption.
Defined.

Lemma graveyard_oldest_first_witness :
  ∃ es, ListGraveyard demo2 = (Ok es, demo2) ∧ StronglySorted (λ x y, ge_DeletedAt x <= ge_DeletedAt y) es.
Proof.
  assert ((ListGraveyard demo2).1 = Ok [mkGrave demo_id 9]) as E by by vm_compute.
  exists [mkGrave demo_id 9]. assert (ListGraveyard demo2 = (Ok [mkGrave demo_id 9], demo2)) as E2.
  { rewrite <- E. reflexivity. }
  split; [exact E2|]. apply (graveyard_oldest_first demo2 _ demo2_reachable E2).
  intros e He. apply list_elem_of_singleton in He as ->. cbn. lia.
Defined.

Lemma readdir_complete_sorted_witness :
  ∃ es, Readdir RootInode demo1 = (Ok es, demo1) ∧ mkDirEntry (str "a") demo_id ∈ es.
Proof.
  destruct (readdir_complete_sorted demo1 RootInode) as (es & E & Hes & _).
  exists es. split; [exact E|]. apply Hes. rewrite lookupTx_view, demo1_lookup. reflexivity.
Defined.
