(* ===== verification/MetaDepart.v ===== *)
(** pkg/metadb: runs in which the code does not do what its comments say.

    Each lemma evaluates the methods of MetaDB on a small store.  They mark
    the edges of the guarantees of MetaThm: the conditions of [op_ok] exclude
    exactly these calls. *)
From S2P Require Import Prelude Bolt Chunk Pack MetaDB MetaSpec MetaRefine MetaTree MetaInv MetaThm.

Definition run_all (os : list op) : DB MapBolt.mapb :=
  fold_left (λ tx o, (run_op o tx).2) os (Open 1000 1000 0).

Definition a_file : op := OPublishFile RootInode (str "a") demo_rec 7.
Definition a_dir (n : String.string) : op :=
  OCommitMkdir RootInode (str n) (dir_record mode_755 1000 1000 7) 7.

Definition nlink_of (i : InodeID) (tx : DB MapBolt.mapb) : result Z :=
  match getInodeTx i tx with Ok r => Ok (NLink r) | Err e => Err e end.

(** Renaming one name of a file onto another name of the same file. *)
Definition relinked : DB MapBolt.mapb :=
  run_all [a_file; OLink RootInode (str "b") demo_id 8;
           ORename RootInode (str "a") RootInode (str "b") 9 9].

(** One name is left, the count says two: the record read before the
    displacement is written back after it.  The file can then never reach
    link count zero. *)
Lemma rename_onto_own_link_miscounts :
  lookupTx RootInode (str "a") relinked = Err ErrNotFound ∧
  lookupTx RootInode (str "b") relinked = Ok demo_id ∧
  nlink_of demo_id relinked = Ok 2.
Proof. by vm_compute. Qed.

(** A new name for a file whose last name is gone (it is still open). *)
Definition resurrected : DB MapBolt.mapb :=
  run_all [a_file; ORemoveEntry RootInode (str "a") 8; OLink RootInode (str "b") demo_id 9].

(** The count becomes two for one name, and the graveyard entry stays, so
    the next sweep removes the record of a file that has a name. *)
Lemma link_of_unlinked_stays_graved :
  lookupTx RootInode (str "b") resurrected = Ok demo_id ∧
  nlink_of demo_id resurrected = Ok 2 ∧
  (ListGraveyard resurrected).1 = Ok [mkGrave demo_id 8].
Proof. by vm_compute. Qed.

(** Renaming a directory over an empty one leaves the parent's link count at
    the old number of subdirectories. *)
Lemma rename_over_directory_miscounts :
  nlink_of RootInode (run_all [a_dir "d"; a_dir "e"]) = Ok 4 ∧
  nlink_of RootInode (run_all [a_dir "d"; a_dir "e";
    ORename RootInode (str "d") RootInode (str "e") 9 9]) = Ok 4 ∧
  (Readdir RootInode (run_all [a_dir "d"; a_dir "e";
    ORename RootInode (str "d") RootInode (str "e") 9 9])).1 = Ok [mkDirEntry (str "e") demo_id].
Proof. by vm_compute. Qed.

(** [EnsureDir] makes a directory that is not charged and not counted in its
    parent's links. *)
Lemma EnsureDir_uncharged :
  let tx := (EnsureDir 1000 1000 7 [str "x"] (Open 1000 1000 0 : DB MapBolt.mapb)).2 in
  lookupTx RootInode (str "x") tx = Ok demo_id ∧ GetQuotaUsage tx = (0, 0) ∧
  nlink_of RootInode tx = Ok 2.
Proof. by vm_compute. Qed.

(** A directory can be filled after it has been removed. *)
Lemma publish_into_removed_directory :
  let tx := run_all [a_dir "d"; ORemoveEntry RootInode (str "d") 8] in
  nlink_of demo_id tx = Ok 0 ∧ is_ok (PublishFile demo_id (str "f") demo_rec 9 tx).1 = true.
Proof. by vm_compute. Qed.

(** [checkName] accepts the empty name and names with separators. *)
Lemma checkName_accepts_unreachable_names :
  checkName [] = Ok tt ∧ checkName (str "a/b") = Ok tt.
Proof. by vm_compute. Qed.
