(* ===== verification/Coherence.v ===== *)
(** pkg/coherence: leases, negative entries and blocking recalls.

    The state [Manager] has the maps of the Go struct.  Each method holds the
    manager's mutex for one or two critical sections; a critical section is a
    function here, so any interleaving of methods is a sequence of [event]s,
    and [run] collects the states a manager passes through while its clock
    advances.  [Recall] is two events, the section that revokes the leases and
    the one that collects the acknowledgements; what happens in between is
    whatever other events occur.  Go visits a map in no particular order; the
    order of [map_to_list] stands for it, and nothing below depends on it.
    Callbacks are values of a parameter type: the model hands them to the
    caller in place of calling them. *)
From S2P Require Import Prelude.

(** [registryCap]. *)
Definition registryCap : Z := 64.

Record leaseEntry := mkLease { ls_expiry : time; ls_version : Z }.

Record negEntry := mkNeg { ne_dirverSeen : Z; ne_expiry : time }.

Record pendingRecall := mkPendingRecall {
  pr_obj : bytes;
  pr_awaiting : gset bytes;
  pr_closed : bool   (** the [done] channel is closed *)
}.

Record RecallResult := mkRecallResult { Acked : list bytes; TimedOut : list bytes }.

(** [m[k]] of a Go map of maps: a missing inner map reads as empty. *)
Definition inner {V} (m : gmap bytes (gmap bytes V)) (k : bytes) : gmap bytes V := default ∅ (m !! k).

(** [m[k]] of a Go map of numbers. *)
Definition num (m : gmap bytes Z) (k : bytes) : Z := default 0 (m !! k).

Section coherence.
(** Invalidation callbacks and recall handlers. *)
Context {callback handler : Type}.

Record Manager := mkManager {
  m_d : duration;
  m_leases : gmap bytes (gmap bytes leaseEntry);
  m_subscribers : gmap bytes (gmap bytes callback);
  m_versions : gmap bytes Z;
  m_dirver : gmap bytes Z;
  m_neg : gmap bytes (gmap bytes negEntry);
  m_recallers : gmap bytes (gmap bytes handler);
  m_nextRecallID : Z;
  m_pending : gmap Z pendingRecall
}.

Definition Manager_New (d : duration) : Manager := mkManager d ∅ ∅ ∅ ∅ ∅ ∅ 0 ∅.

Definition set_leases (x : gmap bytes (gmap bytes leaseEntry)) (m : Manager) : Manager :=
  mkManager (m_d m) x (m_subscribers m) (m_versions m) (m_dirver m) (m_neg m) (m_recallers m)
    (m_nextRecallID m) (m_pending m).
Definition set_subscribers (x : gmap bytes (gmap bytes callback)) (m : Manager) : Manager :=
  mkManager (m_d m) (m_leases m) x (m_versions m) (m_dirver m) (m_neg m) (m_recallers m)
    (m_nextRecallID m) (m_pending m).
Definition set_versions (x : gmap bytes Z) (m : Manager) : Manager :=
  mkManager (m_d m) (m_leases m) (m_subscribers m) x (m_dirver m) (m_neg m) (m_recallers m)
    (m_nextRecallID m) (m_pending m).
Definition set_dirver (x : gmap bytes Z) (m : Manager) : Manager :=
  mkManager (m_d m) (m_leases m) (m_subscribers m) (m_versions m) x (m_neg m) (m_recallers m)
    (m_nextRecallID m) (m_pending m).
Definition set_neg (x : gmap bytes (gmap bytes negEntry)) (m : Manager) : Manager :=
  mkManager (m_d m) (m_leases m) (m_subscribers m) (m_versions m) (m_dirver m) x (m_recallers m)
    (m_nextRecallID m) (m_pending m).
Definition set_recallers (x : gmap bytes (gmap bytes handler)) (m : Manager) : Manager :=
  mkManager (m_d m) (m_leases m) (m_subscribers m) (m_versions m) (m_dirver m) (m_neg m) x
    (m_nextRecallID m) (m_pending m).
Definition set_pending (n : Z) (x : gmap Z pendingRecall) (m : Manager) : Manager :=
  mkManager (m_d m) (m_leases m) (m_subscribers m) (m_versions m) (m_dirver m) (m_neg m)
    (m_recallers m) n x.

(** * Leases *)

Definition versionLocked (obj : bytes) (m : Manager) : Z := num (m_versions m) obj.

Definition setVersionLocked (obj : bytes) (v : Z) (m : Manager) : Manager :=
  set_versions (<[obj := v]> (m_versions m)) m.

(** [None] is Go's [(0, false)]. *)
Definition TrustedVersion (holder obj : bytes) (now : time) (m : Manager) : option Z :=
  match inner (m_leases m) obj !! holder with
  | None => None
  | Some e => if After now (ls_expiry e) then None else Some (ls_version e)
  end.

Definition Grant (holder obj : bytes) (now : time) (m : Manager) : Z * Manager :=
  let v := versionLocked obj m in
  (v, set_leases (<[obj := <[holder := mkLease (now + m_d m) v]> (inner (m_leases m) obj)]>
                    (m_leases m)) m).

Definition Subscribe (holder obj : bytes) (cb : callback) (m : Manager) : bool * Manager :=
  let subs := inner (m_subscribers m) obj in
  let m := set_subscribers (<[obj := subs]> (m_subscribers m)) m in
  if bool_decide (subs !! holder = None) && (registryCap <=? Z.of_nat (size subs)) then (false, m)
  else (true, set_subscribers (<[obj := <[holder := cb]> subs]> (m_subscribers m)) m).

(** [Bump], first critical section: the callbacks to fire. *)
Definition Bump_collect (obj : bytes) (m : Manager) : list callback :=
  snd <$> map_to_list (inner (m_subscribers m) obj).

(** [Bump], second critical section. *)
Definition Bump (obj : bytes) (m : Manager) : Z * Manager :=
  let v := u64 (versionLocked obj m + 1) in
  (v, setVersionLocked obj v m).

(** * Blocking recall *)

Definition SubscribeRecall (holder obj : bytes) (h : handler) (m : Manager) : Manager :=
  set_recallers (<[obj := <[holder := h]> (inner (m_recallers m) obj)]> (m_recallers m)) m.

Definition UnsubscribeRecall (holder obj : bytes) (m : Manager) : Manager :=
  let hs := delete holder (inner (m_recallers m) obj) in
  if bool_decide (size hs = 0%nat) then set_recallers (delete obj (m_recallers m)) m
  else set_recallers (<[obj := hs]> (m_recallers m)) m.

(** The holders whose leases on [obj] a recall revokes. *)
Definition recallable (mutator : bytes) (now : time) (h : bytes) (e : leaseEntry) : bool :=
  negb (bool_decide (h = mutator)) && negb (After now (ls_expiry e)).

(** Those of them that are asked to acknowledge, with their handlers. *)
Definition recall_handlers (obj mutator : bytes) (now : time) (m : Manager) : list (bytes * handler) :=
  omap (λ kv : bytes * leaseEntry,
      if recallable mutator now kv.1 kv.2
      then (λ h, (kv.1, h)) <$> (inner (m_recallers m) obj !! kv.1) else None)
    (map_to_list (inner (m_leases m) obj)).

(** Revoke the leases of everyone but the mutator. *)
Definition revoke (obj mutator : bytes) (now : time) (m : Manager) : Manager :=
  match m_leases m !! obj with
  | None => m
  | Some ls =>
      set_leases (<[obj := filter (λ kv, recallable mutator now kv.1 kv.2 = false) ls]> (m_leases m)) m
  end.

(** [Recall] up to the point where it waits: [None] when nobody has to
    acknowledge and it returns at once, otherwise the recall's number, the
    holders asked, and the handlers to invoke. *)
Definition Recall_issue (obj mutator : bytes) (now : time) (m : Manager) :
    option (Z * list bytes * list handler) * Manager :=
  let hs := recall_handlers obj mutator now m in
  let m := revoke obj mutator now m in
  if (0 <? Z.of_nat (length hs)) then
    let id := u64 (m_nextRecallID m + 1) in
    (Some (id, hs.*1, hs.*2),
     set_pending id (<[id := mkPendingRecall obj (list_to_set hs.*1) false]> (m_pending m)) m)
  else (None, m).

(** [Recall] after the wait has ended, by completion, deadline or
    cancellation.  Only the call that created a pending recall removes it, so
    the record its pointer refers to is the one in the map. *)
Definition Recall_finish (id : Z) (recalled : list bytes) (m : Manager) : RecallResult * Manager :=
  let awaiting := match m_pending m !! id with Some p => pr_awaiting p | None => ∅ end in
  (mkRecallResult
     (merge_sort bytes_le (filter (λ h, h ∉ awaiting) recalled))
     (merge_sort bytes_le (filter (λ h, h ∈ awaiting) recalled)),
   set_pending (m_nextRecallID m) (delete id (m_pending m)) m).

Definition AckRecall (id : Z) (holder : bytes) (m : Manager) : Manager :=
  match m_pending m !! id with
  | None => m
  | Some p =>
      let aw := pr_awaiting p ∖ {[holder]} in
      let closed := if bool_decide (aw = ∅) && negb (pr_closed p) then true else pr_closed p in
      set_pending (m_nextRecallID m) (<[id := mkPendingRecall (pr_obj p) aw closed]> (m_pending m)) m
  end.

(** Has the [done] channel of a recall been closed? *)
Definition recall_done (id : Z) (m : Manager) : bool :=
  match m_pending m !! id with Some p => pr_closed p | None => false end.

(** * Negative entries *)

Definition DirVersion (dir : bytes) (m : Manager) : Z := num (m_dirver m) dir.

Definition BumpDir (dir : bytes) (m : Manager) : Z * Manager :=
  let v := u64 (num (m_dirver m) dir + 1) in
  (v, set_dirver (<[dir := v]> (m_dirver m)) m).

Definition negKey (holder name : bytes) : bytes := holder ++ [x00] ++ name.

Definition NegativeTrusted (holder dir name : bytes) (now : time) (m : Manager) : bool :=
  match inner (m_neg m) dir !! negKey holder name with
  | None => false
  | Some e =>
      if negb (ne_dirverSeen e =? num (m_dirver m) dir) then false
      else negb (After now (ne_expiry e))
  end.

Definition GrantNegative (holder dir name : bytes) (now : time) (m : Manager) : Manager :=
  set_neg (<[dir := <[negKey holder name := mkNeg (num (m_dirver m) dir) (now + m_d m)]>
                      (inner (m_neg m) dir)]> (m_neg m)) m.

(** * Histories *)

(** The critical sections, as they can follow one another. *)
Inductive event :=
  | EGrant (holder obj : bytes)
  | ESubscribe (holder obj : bytes) (cb : callback)
  | EBump (obj : bytes)
  | ESubscribeRecall (holder obj : bytes) (h : handler)
  | EUnsubscribeRecall (holder obj : bytes)
  | ERecallIssue (obj mutator : bytes)
  | ERecallFinish (id : Z) (recalled : list bytes)
  | EAckRecall (id : Z) (holder : bytes)
  | EBumpDir (dir : bytes)
  | EGrantNegative (holder dir name : bytes).

Definition apply_event (now : time) (e : event) (m : Manager) : Manager :=
  match e with
  | EGrant h o => (Grant h o now m).2
  | ESubscribe h o cb => (Subscribe h o cb m).2
  | EBump o => (Bump o m).2
  | ESubscribeRecall h o hd => SubscribeRecall h o hd m
  | EUnsubscribeRecall h o => UnsubscribeRecall h o m
  | ERecallIssue o mu => (Recall_issue o mu now m).2
  | ERecallFinish i r => (Recall_finish i r m).2
  | EAckRecall i h => AckRecall i h m
  | EBumpDir d => (BumpDir d m).2
  | EGrantNegative h d n => GrantNegative h d n now m
  end.

(** One instant of a history: when, what happened, the state after it. *)
Record instant := mkInstant { i_time : time; i_event : option event; i_state : Manager }.

(** [run d hist]: a history, latest instant first, of a manager granting
    leases of duration [d].  The clock never goes back.  A directory version
    is a 64-bit counter; a history stops short of its last value. *)
Inductive run (d : duration) : list instant → Prop :=
  | run_start t : run d [mkInstant t None (Manager_New d)]
  | run_tick t i hist :
      run d (i :: hist) → i_time i <= t → run d (mkInstant t None (i_state i) :: i :: hist)
  | run_event t e i hist :
      run d (i :: hist) → i_time i <= t →
      (∀ dir, e = EBumpDir dir → DirVersion dir (i_state i) + 1 < 2 ^ 64) →
      run d (mkInstant t (Some e) (apply_event t e (i_state i)) :: i :: hist).

(** The events of a history that are newer than its instant number [k],
    counting from the latest. *)
Definition newer (k : nat) (hist : list instant) : list event := omap i_event (take k hist).

Definition is_bump (dir : bytes) (e : event) : bool :=
  match e with EBumpDir x => bool_decide (x = dir) | _ => false end.
(** The holders that acknowledged recall [id] in a sequence of events. *)
Definition ack_of (id : Z) (e : event) : option bytes :=
  match e with EAckRecall j h => if bool_decide (j = id) then Some h else None | _ => None end.
Definition acks (id : Z) (es : list event) : gset bytes := list_to_set (omap (ack_of id) es).

Definition is_finish (id : Z) (e : event) : bool :=
  match e with ERecallFinish j _ => bool_decide (j = id) | _ => false end.

(** The state after a sequence of timed events. *)
Definition apply_events (es : list (time * event)) (m : Manager) : Manager :=
  fold_left (λ m te, apply_event te.1 te.2 m) es m.

Definition bumps (dir : bytes) (es : list event) : nat := length (filter (λ e, is_bump dir e = true) es).

End coherence.

Arguments Manager : clear implicits.
Arguments event : clear implicits.
Arguments instant : clear implicits.

(** * Single events *)

Section events.
Context {callback handler : Type}.
Implicit Types m : Manager callback handler.
Implicit Types e : event callback handler.

Lemma inner_insert {V} (x : gmap bytes (gmap bytes V)) k k' v :
  inner (<[k := v]> x) k' = if decide (k = k') then v else inner x k'.
Proof. unfold inner. rewrite lookup_insert. by case_decide. Qed.

Lemma inner_empty {V} k : inner (∅ : gmap bytes (gmap bytes V)) k = ∅.
Proof. done. Qed.

Lemma apply_event_d now e m : m_d (apply_event now e m) = m_d m.
Proof.
  destruct e; cbn; try done; unfold Subscribe, UnsubscribeRecall, Recall_issue, revoke, AckRecall;
    repeat case_match; done.
Qed.

Lemma recallable_false mu now h l :
  recallable mu now h l = false → h = mu ∨ ls_expiry l < now.
Proof.
  unfold recallable. rewrite andb_false_iff, !negb_false_iff, bool_decide_eq_true.
  intros [?|Ha]; [by left|]. right. by apply Z.ltb_lt.
Qed.

Lemma revoke_lease obj mu now m obj' h l :
  inner (m_leases (revoke obj mu now m)) obj' !! h = Some l →
  inner (m_leases m) obj' !! h = Some l ∧ (obj = obj' → h = mu ∨ ls_expiry l < now).
Proof.
  unfold revoke. destruct (m_leases m !! obj) as [ls|] eqn:Ho.
  - cbn. rewrite inner_insert. case_decide as E; [|done]. subst obj'.
    rewrite map_lookup_filter_Some. cbn. intros [Hl Hr%recallable_false].
    split; [|done]. unfold inner. by rewrite Ho.
  - intros Hl. split; [done|]. intros <-. unfold inner in Hl. by rewrite Ho in Hl.
Qed.

Lemma issue_leases obj mu now m : m_leases (Recall_issue obj mu now m).2 = m_leases (revoke obj mu now m).
Proof. unfold Recall_issue. by destruct (_ <? _). Qed.

(** Where a lease comes from, looking one event back. *)
Lemma lease_after now e m obj h l :
  inner (m_leases (apply_event now e m)) obj !! h = Some l →
  (e = EGrant h obj ∧ l = mkLease (now + m_d m) (versionLocked obj m)) ∨
  (inner (m_leases m) obj !! h = Some l ∧
   ∀ mu, e = ERecallIssue obj mu → mu = h ∨ ls_expiry l < now).
Proof.
  destruct e; cbn.
  - rewrite inner_insert. case_decide as E; [subst|by right].
    rewrite lookup_insert. case_decide; [subst|by right]. intros [= <-]. by left.
  - right. split; [|done]. unfold Subscribe in *. by destruct (_ && _).
  - by right.
  - by right.
  - right. split; [|done]. unfold UnsubscribeRecall in *. by destruct (bool_decide _).
  - rewrite issue_leases. intros [Hl Hr]%revoke_lease. right. split; [done|].
    intros mu [= -> ->]. destruct (Hr eq_refl); auto.
  - by right.
  - right. split; [|done]. unfold AckRecall in *. by destruct (_ !! id).
  - by right.
  - by right.
Qed.

(** Directory versions only move by [BumpDir]. *)
Lemma dirver_after now e m dir :
  (e = EBumpDir dir → DirVersion dir m + 1 < 2 ^ 64) → 0 <= DirVersion dir m →
  DirVersion dir (apply_event now e m)
  = DirVersion dir m + (if is_bump dir e then 1 else 0).
Proof.
  intros Hb H0. unfold DirVersion. destruct e; cbn; try lia.
  - unfold Subscribe. destruct (_ && _); cbn; lia.
  - unfold UnsubscribeRecall. destruct (bool_decide _); cbn; lia.
  - unfold Recall_issue, revoke. destruct (_ <? _), (_ !! obj); cbn; lia.
  - unfold AckRecall. destruct (_ !! id); cbn; lia.
  - unfold num at 1. rewrite lookup_insert. case_decide as E.
    + subst. rewrite bool_decide_true by done. cbn. specialize (Hb eq_refl).
      apply u64_id. unfold DirVersion, in_u64 in *. lia.
    + rewrite bool_decide_false by done. unfold num. lia.
Qed.

(** Where a negative entry comes from, looking one event back. *)
Lemma neg_after now e m dir k n :
  inner (m_neg (apply_event now e m)) dir !! k = Some n →
  (∃ h name, e = EGrantNegative h dir name ∧ k = negKey h name ∧
     n = mkNeg (DirVersion dir m) (now + m_d m)) ∨
  inner (m_neg m) dir !! k = Some n.
Proof.
  destruct e; cbn; try (by right).
  - right. unfold Subscribe in *. by destruct (_ && _).
  - right. unfold UnsubscribeRecall in *. by destruct (bool_decide _).
  - right. unfold Recall_issue, revoke in *. by destruct (_ <? _), (_ !! obj).
  - right. unfold AckRecall in *. by destruct (_ !! id).
  - rewrite inner_insert. case_decide as E; [subst|by right].
    rewrite lookup_insert. case_decide; [subst|by right]. intros [= <-]. left. eauto.
Qed.

(** A subscription registry. *)
Lemma subscribers_after now e m obj :
  Z.of_nat (size (inner (m_subscribers m) obj)) <= registryCap →
  Z.of_nat (size (inner (m_subscribers (apply_event now e m)) obj)) <= registryCap.
Proof.
  intros Hs. destruct e; cbn; try done.
  - unfold Subscribe. destruct (_ && _) eqn:Hc; cbn; rewrite !inner_insert; case_decide; try done; [by subst|].
    subst obj0. destruct (inner (m_subscribers m) obj !! holder) as [c|] eqn:Hh.
    + rewrite map_size_insert_Some by eauto. done.
    + rewrite bool_decide_true in Hc by done. cbn in Hc. zbool.
      rewrite map_size_insert_None by done. lia.
  - unfold UnsubscribeRecall. by destruct (bool_decide _).
  - unfold Recall_issue, revoke. by destruct (_ <? _), (_ !! obj0).
  - unfold AckRecall. by destruct (_ !! id).
Qed.

End events.

(** * Histories *)

Section histories.
Context {callback handler : Type} (d : duration).
Implicit Types i g : instant callback handler.
Implicit Types hist : list (instant callback handler).

Lemma run_d i hist : run d (i :: hist) → m_d (i_state i) = d.
Proof.
  remember (i :: hist) as l eqn:E. intros Hr. revert i hist E.
  induction Hr as [t|t i' h' Hr IH Ht|t e i' h' Hr IH Ht Hg]; intros i hist [= <- <-]; cbn; [done|eauto|].
  rewrite apply_event_d. eauto.
Qed.

Lemma run_time i hist k g : run d (i :: hist) → (i :: hist) !! k = Some g → i_time g <= i_time i.
Proof.
  remember (i :: hist) as l eqn:E. intros Hr. revert i hist E k.
  induction Hr as [t|t i' h' Hr IH Ht|t e i' h' Hr IH Ht Hg]; intros i hist [= <- <-] [|k]; cbn;
    try (intros [= <-]; cbn; lia).
  - intros Hk. specialize (IH i' h' eq_refl k Hk). lia.
  - intros Hk. specialize (IH i' h' eq_refl k Hk). lia.
Qed.

(** Every lease goes back to a grant of this holder, and no recall of the
    object by somebody else has come between while it was valid. *)
Lemma run_lease i hist obj h l :
  run d (i :: hist) → inner (m_leases (i_state i)) obj !! h = Some l →
  ∃ k g, (i :: hist) !! k = Some g ∧ i_event g = Some (EGrant h obj) ∧
    ls_expiry l = i_time g + d ∧ ls_version l = versionLocked obj (i_state g) ∧
    ∀ j g' mu, (j < k)%nat → (i :: hist) !! j = Some g' → i_event g' = Some (ERecallIssue obj mu) →
      mu = h ∨ ls_expiry l < i_time g'.
Proof.
  remember (i :: hist) as hs eqn:E. intros Hr. revert i hist E l.
  induction Hr as [t|t i' h' Hr IH Ht|t e i' h' Hr IH Ht Hg]; intros i hist [= <- <-] l Hl.
  - cbn in Hl. by rewrite inner_empty, lookup_empty in Hl.
  - destruct (IH i' h' eq_refl l Hl) as (k & g & Hk & Hev & Hx & Hv & Hrec).
    exists (S k), g. split_and!; try done. intros [|j] g' mu Hj Hg'; cbn in *; [by simplify_eq|].
    apply (Hrec j); [lia|done].
  - cbn in Hl. apply lease_after in Hl as [[-> ->]|[Hl Hnow]].
    + exists 0%nat. eexists. split; [done|]. cbn. rewrite (run_d i' h') by done.
      split_and!; try done. intros. lia.
    + destruct (IH i' h' eq_refl l Hl) as (k & g & Hk & Hev & Hx & Hv & Hrec).
      exists (S k), g. split_and!; try done. intros [|j] g' mu Hj Hg'; cbn in *.
      * injection Hg' as <-. cbn. intros [= ->]. by apply Hnow.
      * apply (Hrec j); [lia|done].
Qed.

Lemma run_dirver i hist dir :
  run d (i :: hist) → 0 <= DirVersion dir (i_state i) ∧
  ∀ k g, (i :: hist) !! k = Some g →
    DirVersion dir (i_state i) = DirVersion dir (i_state g) + Z.of_nat (bumps dir (newer k (i :: hist))).
Proof.
  remember (i :: hist) as hs eqn:E. intros Hr. revert i hist E.
  induction Hr as [t|t i' h' Hr IH Ht|t e i' h' Hr IH Ht Hg]; intros i hist [= <- <-].
  - split; [done|]. intros [|k] g Hk; [|done]. by injection Hk as <-.
  - destruct (IH i' h' eq_refl) as [H0 IH']. split; [done|].
    intros [|k] g Hk; cbn in *; [injection Hk as <-; cbn; lia|]. by apply IH'.
  - destruct (IH i' h' eq_refl) as [H0 IH']. cbn.
    rewrite (dirver_after t e (i_state i') dir) by auto.
    split; [destruct (is_bump dir e); lia|].
    intros [|k] g Hk; cbn in Hk.
    + injection Hk as <-. cbn. rewrite dirver_after by auto. lia.
    + rewrite (IH' k g Hk). set (s := mkInstant t (Some e) _).
      assert (newer (S k) (s :: i' :: h') = e :: newer k (i' :: h')) as -> by done.
      unfold bumps. rewrite filter_cons. destruct (is_bump dir e); cbn [length]; case_decide; try done;
        cbn [length]; lia.
Qed.

(** Every negative entry goes back to a grant that saw the same version. *)
Lemma run_neg i hist dir key n :
  run d (i :: hist) → inner (m_neg (i_state i)) dir !! key = Some n →
  ∃ k g h name, (i :: hist) !! k = Some g ∧ i_event g = Some (EGrantNegative h dir name) ∧
    key = negKey h name ∧ ne_expiry n = i_time g + d ∧ ne_dirverSeen n = DirVersion dir (i_state g).
Proof.
  remember (i :: hist) as hs eqn:E. intros Hr. revert i hist E n.
  induction Hr as [t|t i' h' Hr IH Ht|t e i' h' Hr IH Ht Hg]; intros i hist [= <- <-] n Hn.
  - cbn in Hn. by rewrite inner_empty, lookup_empty in Hn.
  - destruct (IH i' h' eq_refl n Hn) as (k & g & h & name & ? & ? & ? & ? & ?).
    exists (S k), g, h, name. by split_and!.
  - cbn in Hn. apply neg_after in Hn as [(h & name & -> & -> & ->)|Hn].
    + exists 0%nat. eexists _, h, name. split; [done|]. cbn. rewrite (run_d i' h') by done. by split_and!.
    + destruct (IH i' h' eq_refl n Hn) as (k & g & h & name & ? & ? & ? & ? & ?).
      exists (S k), g, h, name. by split_and!.
Qed.

(** C16: bounded staleness.  A version that a holder may still trust was the
    current one when the holder was granted its lease, no longer ago than the
    lease duration, and nobody else has recalled the object since. *)
Theorem trusted_version_is_recent i hist holder obj now v :
  run d (i :: hist) → i_time i <= now →
  TrustedVersion holder obj now (i_state i) = Some v →
  ∃ k g, (i :: hist) !! k = Some g ∧ i_event g = Some (EGrant holder obj) ∧
    versionLocked obj (i_state g) = v ∧ i_time g <= now <= i_time g + d ∧
    ∀ j g' mutator, (j < k)%nat → (i :: hist) !! j = Some g' →
      i_event g' = Some (ERecallIssue obj mutator) → mutator = holder.
Proof.
  intros Hr Hnow. unfold TrustedVersion. destruct (_ !! holder) as [l|] eqn:Hl; [|done].
  unfold After. destruct (Z.ltb_spec (ls_expiry l) now) as [|Hle]; [done|]. intros [= <-].
  destruct (run_lease i hist obj holder l Hr Hl) as (k & g & Hk & Hev & Hx & Hv & Hrec).
  exists k, g. pose proof (run_time i hist k g Hr Hk). split_and!; try done; try lia.
  intros j g' mu Hj Hg' He. destruct (Hrec j g' mu Hj Hg' He) as [|Hlt]; [done|].
  pose proof (run_time i hist j g' Hr Hg'). lia.
Qed.

(** A negative entry that is still trusted was granted no longer ago than
    the lease duration, and the directory has not changed since. *)
Theorem negative_trust_is_current i hist holder dir name now :
  run d (i :: hist) → i_time i <= now → NegativeTrusted holder dir name now (i_state i) = true →
  ∃ k g h' name', (i :: hist) !! k = Some g ∧ i_event g = Some (EGrantNegative h' dir name') ∧
    negKey h' name' = negKey holder name ∧ i_time g <= now <= i_time g + d ∧
    EBumpDir dir ∉ newer k (i :: hist).
Proof.
  intros Hr Hnow. unfold NegativeTrusted. destruct (_ !! negKey holder name) as [n|] eqn:Hn; [|done].
  destruct (Z.eqb_spec (ne_dirverSeen n) (num (m_dirver (i_state i)) dir)) as [Hv|]; cbn; [|done].
  rewrite negb_true_iff. unfold After. intros Hx. zbool.
  destruct (run_neg i hist dir _ n Hr Hn) as (k & g & h' & name' & Hk & Hev & Hkey & Hexp & Hseen).
  exists k, g, h', name'. pose proof (run_time i hist k g Hr Hk). split_and!; try done; try lia.
  destruct (run_dirver i hist dir Hr) as [_ Hd]. specialize (Hd k g Hk).
  unfold DirVersion in *. assert (bumps dir (newer k (i :: hist)) = 0%nat) as Hz by lia.
  intros Hin. apply nil_length_inv in Hz. apply (not_elem_of_nil (EBumpDir dir : event callback handler)). rewrite <- Hz.
  apply list_elem_of_filter. split; [|done]. cbn. by apply bool_decide_eq_true.
Qed.

(** The invalidation registry of an object never exceeds its cap, and a
    subscription is refused only when it is full. *)
Theorem registry_bounded i hist holder obj cb :
  run d (i :: hist) →
  Z.of_nat (size (inner (m_subscribers (i_state i)) obj)) <= registryCap ∧
  ((Subscribe holder obj cb (i_state i)).1 = false ↔
     Z.of_nat (size (inner (m_subscribers (i_state i)) obj)) = registryCap ∧
     inner (m_subscribers (i_state i)) obj !! holder = None).
Proof.
  intros Hr. assert (Z.of_nat (size (inner (m_subscribers (i_state i)) obj)) <= registryCap) as Hle.
  { remember (i :: hist) as hs eqn:E. revert i hist E.
    induction Hr as [t|t i' h' Hr IH Ht|t e i' h' Hr IH Ht Hg]; intros i hist [= <- <-]; cbn; [done|eauto|].
    apply subscribers_after. eauto. }
  split; [done|]. unfold Subscribe. destruct (_ && _) eqn:Hc; cbn.
  - apply andb_true_iff in Hc as [H1 H2]. apply bool_decide_eq_true in H1. zbool. split; [|done].
    intros _. split; [lia|done].
  - split; [done|]. intros [Hs Hn]. rewrite bool_decide_true in Hc by done. cbn in Hc. zbool. lia.
Qed.

End histories.

(** * Recalls *)

Section recalls.
Context {callback handler : Type}.
Implicit Types m : Manager callback handler.
Implicit Types e : event callback handler.

Lemma issue_next obj mu now m :
  m_nextRecallID (Recall_issue obj mu now m).2 = m_nextRecallID m ∨
  m_nextRecallID (Recall_issue obj mu now m).2 = u64 (m_nextRecallID m + 1).
Proof.
  unfold Recall_issue, revoke. destruct (m_leases m !! obj), (_ <? _); cbn; auto.
Qed.

(** A sequence of events moves the recall counter by at most one each. *)
Lemma next_after now e m :
  0 <= m_nextRecallID m → m_nextRecallID m + 1 < 2 ^ 64 →
  m_nextRecallID m <= m_nextRecallID (apply_event now e m) <= m_nextRecallID m + 1.
Proof.
  intros H0 H1. destruct e; cbn; try lia.
  - unfold Subscribe. destruct (_ && _); cbn; lia.
  - unfold UnsubscribeRecall. destruct (bool_decide _); cbn; lia.
  - destruct (issue_next obj mutator now m) as [->| ->]; [lia|]. rewrite u64_id by (unfold in_u64; lia). lia.
  - unfold AckRecall. destruct (_ !! id); cbn; lia.
Qed.

(** What an event does to a pending recall that it does not finish. *)
Lemma pending_after now e m id p :
  m_pending m !! id = Some p → is_finish id e = false → u64 (m_nextRecallID m + 1) ≠ id →
  ∃ p', m_pending (apply_event now e m) !! id = Some p' ∧
    pr_awaiting p' = pr_awaiting p ∖ acks id [e] ∧
    (pr_closed p = bool_decide (pr_awaiting p = ∅) → pr_closed p' = bool_decide (pr_awaiting p' = ∅)).
Proof.
  intros Hp Hf Hn.
  assert (∀ (m' : Manager callback handler), m_pending m' = m_pending m → acks id [e] = ∅ →
    ∃ p', m_pending m' !! id = Some p' ∧ pr_awaiting p' = pr_awaiting p ∖ acks id [e] ∧
      (pr_closed p = bool_decide (pr_awaiting p = ∅) → pr_closed p' = bool_decide (pr_awaiting p' = ∅)))
    as Hsame.
  { intros m' -> ->. exists p. split_and!; [done|set_solver|done]. }
  destruct e; cbn [apply_event] in *; try (by apply Hsame).
  - apply Hsame; [|done]. unfold Subscribe. by destruct (_ && _).
  - apply Hsame; [|done]. unfold UnsubscribeRecall. cbn. by destruct (bool_decide (size _ = _)).
  - exists p. split_and!; [|unfold acks; cbn; set_solver|done].
    unfold Recall_issue, revoke. destruct (m_leases m !! obj), (_ <? _); cbn; try done;
      by rewrite lookup_insert_ne.
  - exists p. cbn in Hf. apply bool_decide_eq_false in Hf. split_and!; [|unfold acks; cbn; set_solver|done].
    cbn. by rewrite lookup_delete_ne.
  - unfold AckRecall, acks. cbn. destruct (decide (id0 = id)) as [->|Hne].
    + rewrite Hp, (bool_decide_true (id = id)) by done. cbn. rewrite lookup_insert_eq. eexists. split; [done|]. cbn.
      split; [set_solver|]. intros Hc. destruct (decide (pr_awaiting p ∖ {[holder]} = ∅)) as [E|E].
      * rewrite !(bool_decide_true (_ = ∅)) by done. by destruct (pr_closed p).
      * rewrite !(bool_decide_false (_ ∖ _ = ∅)) by done. cbn. rewrite Hc. apply bool_decide_eq_false.
        intros E'. apply E. rewrite E'. set_solver.
    + rewrite (bool_decide_false (id0 = id)) by done. cbn. exists p. split_and!; [|set_solver|done].
      destruct (m_pending m !! id0); [|done]. cbn. by rewrite lookup_insert_ne.
Qed.

Lemma pending_events (es : list (time * event callback handler)) m id p :
  m_pending m !! id = Some p → pr_closed p = bool_decide (pr_awaiting p = ∅) →
  (∀ te, te ∈ es → is_finish id te.2 = false) →
  0 <= id <= m_nextRecallID m → m_nextRecallID m + Z.of_nat (length es) < 2 ^ 64 →
  ∃ p', m_pending (apply_events es m) !! id = Some p' ∧
    pr_awaiting p' = pr_awaiting p ∖ acks id es.*2 ∧ pr_closed p' = bool_decide (pr_awaiting p' = ∅).
Proof.
  revert m p. induction es as [|[t e] es IH]; intros m p Hp Hc Hf Hid Hb.
  { exists p. split_and!; [done|unfold acks; cbn; set_solver|done]. }
  cbn [length] in Hb. destruct (pending_after t e m id p) as (p1 & Hp1 & Ha1 & Hc1); [done| | |].
  { apply (Hf (t, e)), list_elem_of_here. }
  { rewrite u64_id by (unfold in_u64; lia). lia. }
  pose proof (next_after t e m ltac:(lia) ltac:(lia)).
  destruct (IH (apply_event t e m) p1) as (p' & Hp' & Ha & Hc'); [done|auto| |lia|lia|].
  { intros te Hte. by apply Hf, list_elem_of_further. }
  exists p'. split_and!; [done| |done]. rewrite Ha, Ha1. unfold acks. cbn.
  destruct (ack_of id e); cbn; set_solver.
Qed.

Lemma recall_handlers_nodup obj mu now m : NoDup (recall_handlers obj mu now m).*1.
Proof.
  unfold recall_handlers.
  pose proof (NoDup_fst_map_to_list (inner (m_leases m) obj)) as Hn. revert Hn.
  generalize (map_to_list (inner (m_leases m) obj)). intros l.
  induction l as [|[h le] l IH]; cbn; [constructor|]. rewrite NoDup_cons. intros [Hh Hl].
  destruct (recallable mu now h le); cbn; [|by apply IH].
  destruct (inner (m_recallers m) obj !! h) as [x|]; cbn; [|by apply IH].
  constructor; [|by apply IH]. intros ([h' y] & -> & Hin)%list_elem_of_fmap. apply Hh.
  apply list_elem_of_omap in Hin as ([h2 l2] & Hin & E). cbn in *.
  destruct (recallable mu now h2 l2); [|done]. apply fmap_Some in E as (? & _ & [= <- <-]).
  apply list_elem_of_fmap. by exists (h', l2).
Qed.

Lemma elem_of_recall_handlers obj mu now m h :
  h ∈ (recall_handlers obj mu now m).*1 ↔
  (∃ v, TrustedVersion h obj now m = Some v) ∧ h ≠ mu ∧ is_Some (inner (m_recallers m) obj !! h).
Proof.
  rewrite list_elem_of_fmap. unfold recall_handlers, TrustedVersion. split.
  - intros ([h' x] & -> & Hin). apply list_elem_of_omap in Hin as ([h2 l2] & Hin & E). cbn in *.
    destruct (recallable mu now h2 l2) eqn:Hr; [|done]. apply fmap_Some in E as (y & Hy & [= -> ->]).
    apply elem_of_map_to_list in Hin. rewrite Hin. apply andb_true_iff in Hr as [H1 H2].
    apply negb_true_iff, bool_decide_eq_false in H1. apply negb_true_iff in H2. rewrite H2. eauto.
  - intros ([v Hv] & Hne & [x Hx]). destruct (inner (m_leases m) obj !! h) as [l|] eqn:Hl; [|done].
    exists (h, x). split; [done|]. apply list_elem_of_omap. exists (h, l). cbn.
    split; [by apply elem_of_map_to_list|]. unfold recallable.
    rewrite bool_decide_false by done. destruct (After now (ls_expiry l)); [done|]. cbn. by rewrite Hx.
Qed.

Lemma issue_spec obj mu now m id recalled hs m1 :
  Recall_issue obj mu now m = (Some (id, recalled, hs), m1) →
  recalled = (recall_handlers obj mu now m).*1 ∧ recalled ≠ [] ∧
  id = u64 (m_nextRecallID m + 1) ∧ m_nextRecallID m1 = id ∧
  m_pending m1 !! id = Some (mkPendingRecall obj (list_to_set recalled) false).
Proof.
  unfold Recall_issue. destruct (_ <? _) eqn:Hl; [|done]. intros [= <- <- <- <-].
  zbool. assert (m_nextRecallID (revoke obj mu now m) = m_nextRecallID m) as ->.
  { unfold revoke. by destruct (_ !! obj). }
  split_and!; try done.
  - by destruct (recall_handlers obj mu now m).
  - cbn. by rewrite lookup_insert_eq.
Qed.

(** Issuing a recall takes the lease of every holder but the mutator at
    once, whether or not anybody acknowledges; the mutator's lease and the
    leases on other objects are untouched. *)
Theorem recall_revokes obj mutator now m obj' holder t :
  now <= t →
  TrustedVersion holder obj' t (Recall_issue obj mutator now m).2
  = if bool_decide (obj' = obj ∧ holder ≠ mutator) then None else TrustedVersion holder obj' t m.
Proof.
  intros Ht. unfold TrustedVersion. rewrite issue_leases. unfold revoke.
  destruct (m_leases m !! obj) as [ls|] eqn:Ho; cbn.
  - rewrite inner_insert. case_decide as E; [subst obj'|by rewrite bool_decide_false by naive_solver].
    assert (inner (m_leases m) obj = ls) as -> by (unfold inner; by rewrite Ho).
    destruct (filter _ ls !! holder) as [l|] eqn:Hf.
    + apply map_lookup_filter_Some in Hf as [Hl Hr%recallable_false]. rewrite Hl.
      destruct (decide (holder = mutator)) as [->|Hne]; [by rewrite bool_decide_false by naive_solver|].
      rewrite bool_decide_true by done. destruct Hr as [|Hr]; [done|].
      cbn in Hr. unfold After. by assert ((ls_expiry l <? t) = true) as -> by (apply Z.ltb_lt; lia).
    + case_bool_decide as Hb; [done|]. destruct (ls !! holder) as [l|] eqn:Hl; [|done].
      apply map_lookup_filter_None in Hf as [|Hf]; [congruence|]. destruct (Hf l Hl). cbn.
      unfold recallable. destruct (decide (holder = mutator)); [by rewrite bool_decide_true|].
      by destruct Hb.
  - case_bool_decide as Hb; [|done]. destruct Hb as [-> _]. unfold inner. by rewrite Ho.
Qed.

(** C40: how a recall ends.  Whatever else happens while it waits, the holders
    it reports as acknowledged and as timed out are, in order, those of the
    holders it asked that did and did not acknowledge; it asked exactly the
    other holders of valid leases that had registered a handler; and its
    [done] channel is closed exactly when all of them have answered. *)
Theorem recall_outcome obj mutator now m id recalled hs m1 es :
  Recall_issue obj mutator now m = (Some (id, recalled, hs), m1) →
  0 <= m_nextRecallID m → m_nextRecallID m + 1 + Z.of_nat (length es) < 2 ^ 64 →
  (∀ te, te ∈ es → is_finish id te.2 = false) →
  let m2 := apply_events es m1 in
  let res := (Recall_finish id recalled m2).1 in
  (∀ h, h ∈ recalled ↔ (∃ v, TrustedVersion h obj now m = Some v) ∧ h ≠ mutator ∧
     is_Some (inner (m_recallers m) obj !! h)) ∧
  Acked res ≡ₚ filter (λ h, h ∈ acks id es.*2) recalled ∧
  TimedOut res ≡ₚ filter (λ h, h ∉ acks id es.*2) recalled ∧
  Sorted bytes_le (Acked res) ∧ Sorted bytes_le (TimedOut res) ∧
  (recall_done id m2 = true ↔ ∀ h, h ∈ recalled → h ∈ acks id es.*2).
Proof.
  intros Hi H0 Hb Hf. destruct (issue_spec _ _ _ _ _ _ _ _ Hi) as (Hrec & Hne & Hid & Hnext & Hp).
  rewrite u64_id in Hid by (unfold in_u64; lia).
  destruct (pending_events es m1 id _ Hp) as (p & Hp' & Ha & Hc); [|done|lia|lia|].
  { cbn. symmetry. apply bool_decide_eq_false. destruct recalled as [|h l]; [done|]. cbn. set_solver. }
  cbn in Ha. cbn zeta. unfold Recall_finish. rewrite Hp'. cbn. split_and!.
  - intros h. rewrite Hrec. apply elem_of_recall_handlers.
  - rewrite merge_sort_Permutation. erewrite filter_ext_elem; [done|].
    intros h Hh. cbn. rewrite Ha, elem_of_difference, elem_of_list_to_set.
    destruct (decide (h ∈ acks id es.*2)); tauto.
  - rewrite merge_sort_Permutation. erewrite filter_ext_elem; [done|].
    intros h Hh. cbn. rewrite Ha, elem_of_difference, elem_of_list_to_set.
    destruct (decide (h ∈ acks id es.*2)); tauto.
  - apply Sorted_merge_sort. apply _.
  - apply Sorted_merge_sort. apply _.
  - unfold recall_done. rewrite Hp', Hc, bool_decide_eq_true, Ha. split.
    + intros E h Hh. destruct (decide (h ∈ acks id es.*2)); [done|].
      assert (h ∈ (∅ : gset bytes)) as Hin; [|by apply elem_of_empty in Hin].
      rewrite <- E. by apply elem_of_difference; rewrite elem_of_list_to_set.
    + intros Hall. apply elem_of_equiv_empty_L. intros h [Hh%elem_of_list_to_set Hn]%elem_of_difference. auto.
Qed.

End recalls.

(** * Instances *)

Definition sample_then (t : time) (e : event unit unit) (hist : list (instant unit unit)) :
    list (instant unit unit) :=
  match hist with
  | [] => []
  | i :: _ => mkInstant t (Some e) (apply_event t e (i_state i)) :: hist
  end.

Definition sample_hist : list (instant unit unit) :=
  sample_then 3 (ESubscribeRecall (str "h") (str "o") tt)
    (sample_then 2 (EGrantNegative (str "h") (str "d") (str "x"))
      (sample_then 1 (EGrant (str "h") (str "o")) [mkInstant 0 None (Manager_New 10)])).

Definition sample_manager : Manager unit unit :=
  match sample_hist with i :: _ => i_state i | [] => Manager_New 10 end.

Lemma run_then t e hist :
  run 10 hist → (∀ i, head hist = Some i → i_time i <= t) → (∀ dir, e ≠ EBumpDir dir) →
  run 10 (sample_then t e hist).
Proof.
  intros Hr Ht He. destruct hist as [|i hist]; [done|]. cbn.
  apply run_event; [done|by apply Ht|]. intros dir Hd. by apply He in Hd.
Qed.

Lemma sample_run : run 10 sample_hist.
Proof. repeat apply run_then; try done; try (intros i [= <-]; cbn; lia). apply run_start. Qed.

Lemma trusted_version_is_recent_witness :
  TrustedVersion (str "h") (str "o") 11 sample_manager = Some 0 ∧
  ∃ k g, sample_hist !! k = Some g ∧ i_event g = Some (EGrant (str "h") (str "o")) ∧
    versionLocked (str "o") (i_state g) = 0 ∧ i_time g <= 11 <= i_time g + 10.
Proof.
  assert (TrustedVersion (str "h") (str "o") 11 sample_manager = Some 0) as E by by vm_compute.
  split; [exact E|].
  destruct (trusted_version_is_recent 10 _ _ (str "h") (str "o") 11 0 sample_run) as (k & g & ? & ? & ? & ? & _);
    [cbn; lia|exact E|]. exists k, g. split_and!; (assumption || lia).
Defined.

Lemma negative_trust_is_current_witness :
  NegativeTrusted (str "h") (str "d") (str "x") 12 sample_manager = true ∧
  ∃ k g, sample_hist !! k = Some g ∧ i_time g <= 12 <= i_time g + 10 ∧
    EBumpDir (str "d") ∉ newer k sample_hist.
Proof.
  assert (NegativeTrusted (str "h") (str "d") (str "x") 12 sample_manager = true) as E by by vm_compute.
  split; [exact E|].
  destruct (negative_trust_is_current 10 _ _ (str "h") (str "d") (str "x") 12 sample_run)
    as (k & g & ? & ? & ? & ? & ? & ? & ?); [cbn; lia|exact E|].
  exists k, g. split_and!; (assumption || lia).
Defined.

Lemma registry_bounded_witness :
  Z.of_nat (size (inner (m_subscribers sample_manager) (str "o"))) <= registryCap.
Proof. apply (registry_bounded 10 _ _ (str "h") (str "o") tt sample_run). Defined.

Lemma recall_revokes_witness :
  TrustedVersion (str "h") (str "o") 6 (Recall_issue (str "o") (str "w") 5 sample_manager).2 = None.
Proof.
  rewrite (recall_revokes (str "o") (str "w") 5 sample_manager (str "o") (str "h") 6) by lia. reflexivity.
Defined.

(** A recall of "o" by "w" at time 5; holder "h" acknowledges at 6. *)
Definition sample_recall : option (Z * list bytes * list unit) * Manager unit unit :=
  Recall_issue (str "o") (str "w") 5 sample_manager.

Lemma recall_outcome_witness :
  Acked (Recall_finish 1 [str "h"]
    (apply_events [(6, EAckRecall 1 (str "h"))] sample_recall.2)).1 ≡ₚ [str "h"].
Proof.
  assert (sample_recall = (Some (1, [str "h"], [tt]), sample_recall.2)) as E.
  { assert (sample_recall.1 = Some (1, [str "h"], [tt])) as E1 by by vm_compute.
    rewrite <- E1. destruct sample_recall. reflexivity. }
  pose proof (recall_outcome (str "o") (str "w") 5 sample_manager 1 [str "h"] [tt] sample_recall.2
    [(6, EAckRecall 1 (str "h"))] E ltac:(done) ltac:(done)) as Ho.
  destruct Ho as (_ & Ha & _); [|exact Ha].
  intros te Hte. apply list_elem_of_singleton in Hte as ->. reflexivity.
Defined.

(** A holder that acknowledges a recall and asks for the object again before
    the mutation is applied has a valid lease on the old version when the
    recall reports success. *)
Lemma recall_does_not_exclude_new_leases :
  let m2 := apply_events [(6, EAckRecall 1 (str "h")); (7, EGrant (str "h") (str "o"))] sample_recall.2 in
  let (res, m3) := Recall_finish 1 [str "h"] m2 in
  recall_done 1 m2 = true ∧ TimedOut res = [] ∧ TrustedVersion (str "h") (str "o") 8 m3 = Some 0.
Proof. by vm_compute. Qed.
