(* ===== verification/RepoUtil.v ===== *)
(** pkg/repo, the parts that stand alone: consistency classes, open handles,
    statfs and fallocate. *)
From S2P Require Import Prelude Chunk Pack MetaDB.

(** * Consistency classes (repo.go) *)

(** [type Class string]. *)
Definition ClassImmutable : bytes := str "immutable".
Definition ClassRelaxed : bytes := str "relaxed".
Definition ClassSession : bytes := str "session".
Definition ClassPosix : bytes := str "posix".

Definition posixLeaseDuration : duration := Hour.
Definition immutableKernelCacheTTL : duration := Minute.

Definition leaseDuration (c : bytes) : duration :=
  if bool_decide (c = ClassSession) then 5 * Second
  else if bool_decide (c = ClassRelaxed) then 30 * Second
  else if bool_decide (c = ClassPosix) then posixLeaseDuration
  else 0.

Definition LeaseDuration (c : bytes) : duration := leaseDuration c.

Definition KernelCacheTTL (c : bytes) : duration :=
  if bool_decide (c = ClassImmutable) || bool_decide (c = []) then immutableKernelCacheTTL
  else if bool_decide (c = ClassPosix) then 0
  else leaseDuration c.

Definition Mutable (c : bytes) : bool :=
  negb (bool_decide (c = ClassImmutable)) && negb (bool_decide (c = [])).

(** * Open handles (openhandle.go) *)

(** The registry, and for each handle given out whether its release function
    has run: [Acquire] returns a closure over a [sync.Once], which is the
    handle's number here. *)
Record OpenHandles := mkHandles {
  oh_n : gmap InodeID Z;
  oh_given : list (InodeID * bool)
}.

Definition NewOpenHandles : OpenHandles := mkHandles ∅ [].

Definition Acquire (id : InodeID) (o : OpenHandles) : nat * OpenHandles :=
  (length (oh_given o),
   mkHandles (<[id := default 0 (oh_n o !! id) + 1]> (oh_n o)) (oh_given o ++ [(id, false)])).

(** The function [Acquire] returned. *)
Definition release (h : nat) (o : OpenHandles) : OpenHandles :=
  match oh_given o !! h with
  | None => o
  | Some (_, true) => o
  | Some (id, false) =>
      let given := <[h := (id, true)]> (oh_given o) in
      if default 0 (oh_n o !! id) <=? 1 then mkHandles (delete id (oh_n o)) given
      else mkHandles (<[id := default 0 (oh_n o !! id) - 1]> (oh_n o)) given
  end.

Definition Held (id : InodeID) (o : OpenHandles) : bool := 0 <? default 0 (oh_n o !! id).

Definition Snapshot (o : OpenHandles) : gset InodeID :=
  dom (filter (λ kv, 0 < kv.2) (oh_n o)).

(** The uses a registry can see. *)
Inductive handle_op := HAcquire (id : InodeID) | HRelease (h : nat).

Definition handle_step (o : OpenHandles) (x : handle_op) : OpenHandles :=
  match x with HAcquire id => (Acquire id o).2 | HRelease h => release h o end.

(** The handles on an inode that are still open. *)
Definition open_on (id : InodeID) (p : InodeID * bool) : Z :=
  if bool_decide (p.1 = id) && negb p.2 then 1 else 0.
Definition sum_of {A} (f : A → Z) (l : list A) : Z := foldr (λ a z, f a + z) 0 l.
Definition still_open (id : InodeID) (o : OpenHandles) : Z := sum_of (open_on id) (oh_given o).

(** * statfs (statfs.go) *)

Definition UnboundedCapacity : Z := Z.shiftl 1 50.
Definition UnboundedInodes : Z := Z.shiftl 1 32.

Record StatfsInfo := mkStatfs { sf_Total : Z; sf_Used : Z; sf_Files : Z; sf_FilesUsed : Z }.

Definition Free (s : StatfsInfo) : Z := if sf_Total s <? sf_Used s then 0 else u64 (sf_Total s - sf_Used s).

Definition FilesFree (s : StatfsInfo) : Z :=
  if sf_Files s <? sf_FilesUsed s then 0 else u64 (sf_Files s - sf_FilesUsed s).

Definition StatfsInfoFrom (bytesLimit inodesLimit bytesUsed inodesUsed : Z) : StatfsInfo :=
  mkStatfs (if bytesLimit =? 0 then UnboundedCapacity else bytesLimit) bytesUsed
           (if inodesLimit =? 0 then UnboundedInodes else inodesLimit) inodesUsed.

(** * fallocate (fallocate.go) *)

Definition MaxFileSize : Z := Z.shiftl 1 40.

Definition FallocKeepSize : Z := 1.
Definition FallocPunchHole : Z := 2.
Definition FallocNoHideStale : Z := 4.
Definition FallocCollapse : Z := 8.
Definition FallocZeroRange : Z := 16.
Definition FallocInsert : Z := 32.
Definition FallocUnshare : Z := 64.

Inductive errno := EINVAL | EFBIG | EOPNOTSUPP.

#[global] Instance errno_eq_dec : EqDecision errno.
Proof. solve_decision. Defined.

(** [None] is errno 0. *)
Definition CheckFallocate (off size mode : Z) : option errno :=
  if (i64 off <? 0) || (i64 size <? 0) || (size =? 0) then Some EINVAL
  else if u64 (off + size) <? off then Some EFBIG
  else if negb (Z.land mode (Z.lor FallocCollapse FallocInsert) =? 0) then Some EOPNOTSUPP
  else if negb (Z.land mode FallocPunchHole =? 0) && (Z.land mode FallocKeepSize =? 0)
  then Some EOPNOTSUPP
  else
    let known := Z.lor FallocKeepSize (Z.lor FallocPunchHole (Z.lor FallocNoHideStale
                   (Z.lor FallocZeroRange FallocUnshare))) in
    if negb (Z.ldiff mode known =? 0) then Some EOPNOTSUPP else None.

(** What [ApplyFallocate] does: return, or panic on a slice out of range. *)
Inductive falloc_result :=
  | FReturn (buf : bytes) (changed : bool) (e : option errno)
  | FPanic.

(** [clear(buf[off:end])]. *)
Definition clear_range (off end_ : Z) (buf : bytes) : bytes :=
  take (Z.to_nat off) buf ++ zeros (end_ - off) ++ drop (Z.to_nat end_) buf.

Definition ApplyFallocate (buf : bytes) (off size mode : Z) : falloc_result :=
  match CheckFallocate off size mode with
  | Some e => FReturn buf false (Some e)
  | None =>
      let end_ := u64 (off + size) in
      let zero := negb (Z.land mode (Z.lor FallocPunchHole FallocZeroRange) =? 0) in
      let finish (buf : bytes) (changed : bool) :=
        if zero then
          if (end_ <? off) || (blen buf <? end_) then FPanic
          else FReturn (clear_range off end_ buf) true None
        else FReturn buf changed None in
      if blen buf <? i64 end_ then
        let grows := (Z.land mode FallocKeepSize =? 0) || negb (Z.land mode FallocZeroRange =? 0) in
        if negb grows then FReturn buf false None
        else if MaxFileSize <? i64 end_ then FReturn buf false (Some EFBIG)
        else finish (buf ++ zeros (i64 end_ - blen buf)) true
      else finish buf false
  end.

(** The byte a file reads at a position. *)
Definition byte_at (i : Z) (buf : bytes) : option byte := if i <? 0 then None else buf !! Z.to_nat i.

(** Does the mode leave the length alone, and does it zero the range? *)
Definition keeps_size (mode : Z) : bool :=
  negb (Z.land mode FallocKeepSize =? 0) && (Z.land mode FallocZeroRange =? 0).
Definition zeroes_range (mode : Z) : bool :=
  negb (Z.land mode (Z.lor FallocPunchHole FallocZeroRange) =? 0).

(** The byte a call should leave at [i]. *)
Definition falloc_byte (buf : bytes) (off size mode i : Z) : option byte :=
  if zeroes_range mode && (off <=? i) && (i <? off + size)
     && (negb (keeps_size mode) || (off + size <=? blen buf))
  then Some x00
  else if i <? blen buf then byte_at i buf else Some x00.

(** * Open handles are counted exactly *)

Lemma sum_of_app {A} (f : A → Z) l k : sum_of f (l ++ k) = sum_of f l + sum_of f k.
Proof. unfold sum_of. induction l as [|x l IH]; cbn in *; lia. Qed.

Lemma sum_of_insert {A} (f : A → Z) l i x y :
  l !! i = Some x → sum_of f (<[i := y]> l) = sum_of f l + f y - f x.
Proof.
  revert i. induction l as [|z l IH]; intros [|i] Hi; cbn in *; try done.
  - injection Hi as ->. lia.
  - change (f z + sum_of f (<[i := y]> l) = f z + sum_of f l + f y - f x). rewrite (IH i Hi). lia.
Qed.

Lemma sum_of_nonneg {A} (f : A → Z) l : (∀ x, 0 <= f x) → 0 <= sum_of f l.
Proof. intros Hf. unfold sum_of. induction l as [|x l IH]; cbn; [lia|]. specialize (Hf x). lia. Qed.

Lemma sum_of_elem {A} (f : A → Z) l i x : (∀ x, 0 <= f x) → l !! i = Some x → f x <= sum_of f l.
Proof.
  intros Hf. revert i. unfold sum_of. induction l as [|y l IH]; intros [|i] Hi; cbn in *; try done.
  - injection Hi as ->. pose proof (sum_of_nonneg f l Hf). unfold sum_of in *. lia.
  - specialize (IH i Hi). specialize (Hf y). lia.
Qed.

Lemma open_on_nonneg id p : 0 <= open_on id p.
Proof. unfold open_on. destruct (_ && _); lia. Qed.

Lemma handle_step_count o x :
  (∀ id, default 0 (oh_n o !! id) = still_open id o) →
  ∀ id, default 0 (oh_n (handle_step o x) !! id) = still_open id (handle_step o x).
Proof.
  intros Ho id. destruct x as [j|h]; cbn [handle_step].
  - unfold still_open, Acquire. cbn [snd oh_given oh_n]. rewrite sum_of_app, lookup_insert.
    fold (still_open id o). rewrite <- Ho. unfold sum_of, open_on. cbn. case_decide as E; [subst j|].
    + rewrite bool_decide_true by done. cbn. lia.
    + rewrite bool_decide_false by done. cbn. lia.
  - unfold release. destruct (oh_given o !! h) as [[j [|]]|] eqn:Hh; [done| |done].
    assert (∀ k, sum_of (open_on k) (<[h := (j, true)]> (oh_given o))
      = still_open k o - (if bool_decide (j = k) then 1 else 0)) as Hs.
    { intros k. rewrite (sum_of_insert _ _ _ _ _ Hh). unfold still_open, open_on. cbn.
      rewrite andb_false_r, andb_true_r. destruct (bool_decide (j = k)); lia. }
    assert (1 <= still_open j o) as Hpos.
    { pose proof (sum_of_elem (open_on j) (oh_given o) h (j, false) (open_on_nonneg j) Hh) as Hle.
      unfold open_on in Hle at 1. cbn in Hle. rewrite bool_decide_true in Hle by done. exact Hle. }
    destruct (Z.leb_spec (default 0 (oh_n o !! j)) 1); unfold still_open; cbn [oh_given oh_n]; rewrite Hs.
    + rewrite lookup_delete. case_decide; [subst|].
      * rewrite bool_decide_true by done. rewrite Ho in *. cbn. lia.
      * rewrite bool_decide_false by done. rewrite Ho. lia.
    + rewrite lookup_insert. case_decide; [subst|].
      * rewrite bool_decide_true by done. cbn. rewrite Ho. lia.
      * rewrite bool_decide_false by done. rewrite Ho. lia.
Qed.

Lemma elem_of_Snapshot id o : id ∈ Snapshot o ↔ Held id o = true.
Proof.
  unfold Snapshot, Held. rewrite elem_of_dom. unfold is_Some. setoid_rewrite map_lookup_filter_Some. cbn.
  rewrite Z.ltb_lt. destruct (oh_n o !! id) as [n|]; cbn; [|naive_solver lia].
  split; [intros (? & [= ->] & ?); done|eauto].
Qed.

(** After any sequence of acquires and releases, an inode is pinned
    exactly while a handle on it is open, however often a handle is
    released, and [Snapshot] is the set of pinned inodes. *)
Theorem handles_pin_exactly ops id :
  let o := fold_left handle_step ops NewOpenHandles in
  (Held id o = true ↔ 0 < still_open id o) ∧ (id ∈ Snapshot o ↔ Held id o = true).
Proof.
  cbn zeta.
  assert (∀ o, (∀ id, default 0 (oh_n o !! id) = still_open id o) →
    ∀ id, default 0 (oh_n (fold_left handle_step ops o) !! id)
      = still_open id (fold_left handle_step ops o)) as Hinv.
  { induction ops as [|x ops IH]; intros o Ho; [done|]. cbn. apply IH. by apply handle_step_count. }
  specialize (Hinv NewOpenHandles (λ _, eq_refl) id). split; [|apply elem_of_Snapshot].
  unfold Held. by rewrite Z.ltb_lt, Hinv.
Qed.

(** * fallocate *)

Lemma byte_at_app i a b :
  byte_at i (a ++ b) = if i <? blen a then byte_at i a else byte_at (i - blen a) b.
Proof.
  unfold byte_at, blen. destruct (Z.ltb_spec i 0).
  - destruct (Z.ltb_spec i (Z.of_nat (length a))); [done|]. lia.
  - destruct (Z.ltb_spec i (Z.of_nat (length a))).
    + apply lookup_app_l. lia.
    + destruct (Z.ltb_spec (i - Z.of_nat (length a)) 0); [lia|].
      rewrite lookup_app_r by lia. f_equal. lia.
Qed.

Lemma byte_at_zeros i n : 0 <= i < n → byte_at i (zeros n) = Some x00.
Proof.
  intros Hi. unfold byte_at, zeros. destruct (Z.ltb_spec i 0); [lia|].
  apply lookup_replicate_2. lia.
Qed.

Lemma byte_at_take i n b : i < Z.of_nat n → byte_at i (take n b) = byte_at i b.
Proof.
  intros Hi. unfold byte_at. destruct (Z.ltb_spec i 0); [done|]. apply lookup_take_lt. lia.
Qed.

Lemma byte_at_drop i n b : 0 <= i → byte_at i (drop n b) = byte_at (i + Z.of_nat n) b.
Proof.
  intros Hi. unfold byte_at. destruct (Z.ltb_spec i 0); [lia|].
  destruct (Z.ltb_spec (i + Z.of_nat n) 0); [lia|]. rewrite lookup_drop. f_equal. lia.
Qed.

Lemma blen_clear_range off end_ buf :
  0 <= off <= end_ → end_ <= blen buf → blen (clear_range off end_ buf) = blen buf.
Proof.
  intros. unfold clear_range. rewrite !blen_app, blen_zeros by lia.
  unfold blen in *. rewrite length_take, length_drop. lia.
Qed.

Lemma byte_at_clear_range i off end_ buf :
  0 <= off <= end_ → end_ <= blen buf → 0 <= i →
  byte_at i (clear_range off end_ buf)
  = if (off <=? i) && (i <? end_) then Some x00 else byte_at i buf.
Proof.
  intros Ho He Hi. unfold clear_range.
  assert (blen (take (Z.to_nat off) buf) = off) as Ht.
  { unfold blen in *. rewrite length_take. lia. }
  rewrite !byte_at_app, Ht, blen_zeros by lia.
  destruct (Z.ltb_spec i off), (Z.leb_spec off i); try lia; cbn.
  - apply byte_at_take. lia.
  - destruct (Z.ltb_spec (i - off) (end_ - off)), (Z.ltb_spec i end_); try lia.
    + apply byte_at_zeros. lia.
    + rewrite byte_at_drop by lia. f_equal. lia.
Qed.

Lemma byte_at_grown i n buf :
  0 <= i < blen buf + n → 0 <= n →
  byte_at i (buf ++ zeros n) = if i <? blen buf then byte_at i buf else Some x00.
Proof.
  intros Hi Hn. rewrite byte_at_app. destruct (Z.ltb_spec i (blen buf)); [done|].
  apply byte_at_zeros. lia.
Qed.

(** An accepted call whose end is a valid file offset never faults.  It
    either refuses with [EFBIG] and leaves the buffer alone, because it would
    grow the file past [MaxFileSize], or succeeds: the length is the old one,
    or covers the range in the modes that grow; every byte is the old byte,
    zero in what was added, zero in the range in the modes that zero it; and
    a call that reports no change changed nothing. *)
Theorem fallocate_behaviour buf off size mode :
  CheckFallocate off size mode = None → in_u64 off → in_u64 size → off + size < 2 ^ 63 →
  match ApplyFallocate buf off size mode with
  | FReturn buf' changed None =>
      blen buf' = (if keeps_size mode then blen buf else Z.max (blen buf) (off + size))
      ∧ (changed = false → buf' = buf)
      ∧ ∀ i, 0 <= i < blen buf' → byte_at i buf' = falloc_byte buf off size mode i
  | FReturn buf' changed (Some e) =>
      e = EFBIG ∧ MaxFileSize < off + size ∧ buf' = buf ∧ changed = false
  | FPanic => False
  end.
Proof.
  unfold in_u64. intros Hc Ho Hs He. unfold ApplyFallocate. rewrite Hc.
  rewrite u64_id by (unfold in_u64; lia). rewrite i64_id by (unfold in_i64; lia).
  fold (zeroes_range mode).
  replace ((Z.land mode FallocKeepSize =? 0) || negb (Z.land mode FallocZeroRange =? 0))
    with (negb (keeps_size mode))
    by (unfold keeps_size; by destruct (_ =? 0), (_ =? 0)).
  pose proof (blen_nonneg buf).
  destruct (Z.ltb_spec (off + size) off); [lia|]. cbn [orb].
  unfold falloc_byte. destruct (Z.ltb_spec (blen buf) (off + size)) as [Hlt|Hge].
  - destruct (Z.leb_spec (off + size) (blen buf)); [lia|].
    destruct (keeps_size mode); cbn [negb orb].
    { split_and!; [done..|]. intros i Hi. rewrite andb_false_r.
      destruct (Z.ltb_spec i (blen buf)); [done|lia]. }
    destruct (Z.ltb_spec MaxFileSize (off + size)); [done|].
    assert (blen (buf ++ zeros (off + size - blen buf)) = off + size) as Hl.
    { rewrite blen_app, blen_zeros by lia. lia. }
    destruct (zeroes_range mode); cbn [andb].
    + rewrite Hl, Z.ltb_irrefl, blen_clear_range, Hl by lia.
      split_and!; [lia|done|]. intros i Hi.
      rewrite byte_at_clear_range, andb_true_r, byte_at_grown by lia. done.
    + rewrite Hl. split_and!; [lia|done|]. intros i Hi. by rewrite byte_at_grown by lia.
  - destruct (Z.leb_spec (off + size) (blen buf)); [|lia].
    destruct (Z.ltb_spec (blen buf) (off + size)); [lia|]. rewrite orb_true_r.
    destruct (zeroes_range mode); cbn [andb].
    + rewrite blen_clear_range by lia. split_and!; [destruct (keeps_size mode); lia|done|].
      intros i Hi. rewrite byte_at_clear_range, andb_true_r by lia.
      destruct (_ && _); [done|]. destruct (Z.ltb_spec i (blen buf)); [done|lia].
    + split_and!; [destruct (keeps_size mode); lia|done|].
      intros i Hi. destruct (Z.ltb_spec i (blen buf)); [done|lia].
Qed.

Lemma fallocate_behaviour_witness :
  CheckFallocate 1 4 FallocZeroRange = None
  ∧ ApplyFallocate (str "abc") 1 4 FallocZeroRange = FReturn [x61; x00; x00; x00; x00] true None
  ∧ byte_at 0 [x61; x00; x00; x00; x00] = falloc_byte (str "abc") 1 4 FallocZeroRange 0.
Proof.
  split; [reflexivity|]. split; [reflexivity|].
  destruct (fallocate_behaviour (str "abc") 1 4 FallocZeroRange) as (_ & _ & Hb);
    [reflexivity|unfold in_u64; lia..|]. apply Hb. vm_compute. split; congruence.
Defined.

(** * Where fallocate departs from what it promises *)

(** Punching a hole that starts inside the file and ends past its end
    reports success and zeroes nothing, although "it still has to zero what
    is inside the file". *)
Theorem punch_hole_across_eof_keeps_data :
  ApplyFallocate (str "secret") 2 100 (Z.lor FallocPunchHole FallocKeepSize)
  = FReturn (str "secret") false None.
Proof. reflexivity. Qed.

(** A range whose end passes the largest file offset is accepted: the
    check only looks for a 64-bit wrap.  Zeroing it then slices out of range
    and panics, and plain allocation reports success without growing. *)
Theorem fallocate_end_beyond_int64 :
  CheckFallocate (2 ^ 62) (2 ^ 62) FallocZeroRange = None
  ∧ ApplyFallocate (str "a") (2 ^ 62) (2 ^ 62) FallocZeroRange = FPanic
  ∧ ApplyFallocate (str "a") (2 ^ 62) (2 ^ 62) 0 = FReturn (str "a") false None.
Proof. repeat split; reflexivity. Qed.
