(* ===== verification/Repo.v ===== *)
(** pkg/repo: the repository, its storage path and its mutable write path.

    The state [Repo] has the fields of the Go struct; the backend, the
    metadata store and the lease manager are the components of the other
    files.  [crypto/rand] is the stream [r_rand] of the names still to be
    drawn, [r_drawn] of them used.  A reading of [time.Now] is the argument
    [now] of a call, one of the repository's own clock the argument [clk];
    the readings within one call are not told apart.  [fmt.Errorf] keeps what
    [errors.Is] sees; contexts are never cancelled. *)
From stdpp Require Import pretty.
From S2P Require Import Prelude Bolt Chunk Manifest Store Pack MetaDB Coherence RepoUtil.

Definition DefaultRegion : bytes := str "local".

(** [fmt.Sprintf("%d", n)] of a [uint64]. *)
Definition decimal (n : Z) : bytes := str (pretty (Z.to_N n)).

Definition InodeCoherenceKey (id : InodeID) : bytes := str "inode:" ++ decimal (w64 id).
Definition DirCoherenceKey (id : InodeID) : bytes := str "dir:" ++ decimal (w64 id).

(** [fmt.Sprintf("atlas/m/%s/%s", h[:2], h)]. *)
Definition manifestKey (id : barray 32) : bytes :=
  let h := hex_encode (ba id) in str "atlas/m/" ++ take 2 h ++ str "/" ++ h.

(** [contentRef]. *)
Record contentRef := mkContentRef {
  cr_size : Z;
  cr_hasInline : bool;
  cr_inlineChunk : ID;
  cr_hasManifest : bool;
  cr_manifestID : barray 32
}.

(** [contentRef{}]. *)
Definition empty_content : contentRef := mkContentRef 0 false zeroID false zeroID.

Definition apply (c : contentRef) (rec : InodeRecord) : InodeRecord :=
  set_content (cr_size c) (cr_hasManifest c) (cr_manifestID c) (cr_hasInline c)
    (cr_inlineChunk c) rec.

Definition publishBindErr (e : error) : error :=
  if bool_decide (e = ErrExists) then RepoErrAlreadyPublished else e.

(** [Owner] and [WriteHandle]. *)
Record Owner := mkOwner { o_Uid : Z; o_Gid : Z }.

Record WriteHandle := mkWriteHandle {
  wh_dir : InodeID;
  wh_name : bytes;
  wh_mode : Z;
  wh_modeSet : bool;
  wh_owner : Owner;
  wh_buf : bytes;
  wh_done : bool
}.

Definition SetOwner (o : Owner) (h : WriteHandle) : WriteHandle :=
  mkWriteHandle (wh_dir h) (wh_name h) (wh_mode h) (wh_modeSet h) o (wh_buf h) (wh_done h).

Definition SetMode (mode : Z) (h : WriteHandle) : WriteHandle :=
  mkWriteHandle (wh_dir h) (wh_name h) (Z.land mode mode_7777) true (wh_owner h) (wh_buf h)
    (wh_done h).

Definition wh_Write (p : bytes) : M WriteHandle Z := λ h,
  if wh_done h then (Err RepoErrHandleDone, h)
  else (Ok (blen p), mkWriteHandle (wh_dir h) (wh_name h) (wh_mode h) (wh_modeSet h)
                       (wh_owner h) (wh_buf h ++ p) (wh_done h)).

Definition Discard (h : WriteHandle) : WriteHandle :=
  mkWriteHandle (wh_dir h) (wh_name h) (wh_mode h) (wh_modeSet h) (wh_owner h) (wh_buf h) true.

(** The mode [Commit] gives a new file. *)
Definition commit_mode (h : WriteHandle) : Z := if wh_modeSet h then wh_mode h else 420.

(** What [filepath.WalkDir] reports of a source tree: the entries in walk
    order, with the parts of [fs.FileInfo] the code reads. *)
Record fileInfo := mkFileInfo {
  fi_Mode : Z;
  fi_Sys : option (Z * Z);   (** uid and gid, where the platform has them *)
  fi_ModTime : time
}.

Definition permOf (m : Z) : Z := Z.land m mode_777.

Definition ownerOf (info : fileInfo) : Z * Z :=
  match fi_Sys info with Some ug => ug | None => (0, 0) end.

Inductive walkKind :=
  | WDir
  | WSymlink (target : bytes)
  | WFile (content : reader) (size : Z)
  | WOther.

Record walkEntry := mkWalk { w_rel : bytes; w_name : bytes; w_info : fileInfo; w_kind : walkKind }.

(** [path.Dir] of a clean relative path, with ["."] replaced by the empty
    string: what precedes the last slash. *)
Fixpoint parentPath (rel : bytes) : bytes :=
  match rel with
  | [] => []
  | c :: rest => if bool_decide (x2f ∈ rest) then c :: parentPath rest else []
  end.

(** [strings.Split(p, "/")]. *)
Fixpoint split_slash (p : bytes) : list bytes :=
  match p with
  | [] => [[]]
  | c :: rest =>
      if bool_decide (c = x2f) then [] :: split_slash rest
      else match split_slash rest with
           | [] => [[c]]
           | w :: ws => (c :: w) :: ws
           end
  end.

(** [path.Clean] of a rooted path, as its components: empty ones and [.] are
    dropped, [..] removes the one before it. *)
Definition clean_step (stack : list bytes) (w : bytes) : list bytes :=
  if bool_decide (w = []) || bool_decide (w = str ".") then stack
  else if bool_decide (w = str "..") then tail stack
  else w :: stack.

Definition splitPath (p : bytes) : list bytes := reverse (fold_left clean_step (split_slash p) []).

Section repo.
Context {bucket : Type → Type} `{BoltOps bucket} {B : Type} `{BackendOps B} {blake3 : Blake3}.
Context {callback handler : Type}.

Record Repo := mkRepo {
  r_DB : DB bucket;
  r_Backend : B;
  r_Region : bytes;
  r_Class : bytes;
  r_Coherence : option (Manager callback handler);
  r_ChunkSize : Z;
  r_packer : Packer;
  r_SingleObjectThreshold : Z;
  r_OpenHandles : OpenHandles;
  r_rand : nat → barray 16;
  r_drawn : nat;
  r_fired : list callback   (** the callbacks the lease manager has called *)
}.

Definition set_DB (d : DB bucket) (r : Repo) : Repo :=
  mkRepo d (r_Backend r) (r_Region r) (r_Class r) (r_Coherence r) (r_ChunkSize r) (r_packer r)
    (r_SingleObjectThreshold r) (r_OpenHandles r) (r_rand r) (r_drawn r) (r_fired r).
Definition set_Backend (b : B) (r : Repo) : Repo :=
  mkRepo (r_DB r) b (r_Region r) (r_Class r) (r_Coherence r) (r_ChunkSize r) (r_packer r)
    (r_SingleObjectThreshold r) (r_OpenHandles r) (r_rand r) (r_drawn r) (r_fired r).
Definition set_Coherence (m : option (Manager callback handler)) (r : Repo) : Repo :=
  mkRepo (r_DB r) (r_Backend r) (r_Region r) (r_Class r) m (r_ChunkSize r) (r_packer r)
    (r_SingleObjectThreshold r) (r_OpenHandles r) (r_rand r) (r_drawn r) (r_fired r).
Definition set_packer (p : Packer) (r : Repo) : Repo :=
  mkRepo (r_DB r) (r_Backend r) (r_Region r) (r_Class r) (r_Coherence r) (r_ChunkSize r) p
    (r_SingleObjectThreshold r) (r_OpenHandles r) (r_rand r) (r_drawn r) (r_fired r).
Definition set_drawn (n : nat) (r : Repo) : Repo :=
  mkRepo (r_DB r) (r_Backend r) (r_Region r) (r_Class r) (r_Coherence r) (r_ChunkSize r)
    (r_packer r) (r_SingleObjectThreshold r) (r_OpenHandles r) (r_rand r) n (r_fired r).
Definition set_fired (cbs : list callback) (r : Repo) : Repo :=
  mkRepo (r_DB r) (r_Backend r) (r_Region r) (r_Class r) (r_Coherence r) (r_ChunkSize r)
    (r_packer r) (r_SingleObjectThreshold r) (r_OpenHandles r) (r_rand r) (r_drawn r) cbs.

Definition set_OpenHandles (o : OpenHandles) (r : Repo) : Repo :=
  mkRepo (r_DB r) (r_Backend r) (r_Region r) (r_Class r) (r_Coherence r) (r_ChunkSize r)
    (r_packer r) (r_SingleObjectThreshold r) o (r_rand r) (r_drawn r) (r_fired r).

(** A call on the metadata store or on the backend. *)
Definition onDB {A} (m : M (DB bucket) A) : M Repo A := zoom r_DB set_DB m.
Definition onBackend {A} (m : M B A) : M Repo A := zoom r_Backend set_Backend m.

(** [rand.Read] for a container name. *)
Definition draw : M Repo (barray 16) := λ r, (Ok (r_rand r (r_drawn r)), set_drawn (S (r_drawn r)) r).

(** ** Opening *)

(** [OpenWithPolicy] on the database of [dir/meta.db]. *)
Definition OpenWithPolicy (db : DB bucket) (backend : B) (region class : bytes)
    (chunkSize : Z) (rand : nat → barray 16) : result Repo :=
  match EnsureClass class db with
  | (Err e, _) => Err e
  | (Ok actualClass, db) =>
      let chunkSize := if chunkSize <=? 0 then DefaultSize else chunkSize in
      match EnsureChunkSize chunkSize db with
      | (Err e, _) => Err e
      | (Ok actualChunkSize, db) =>
          let d := leaseDuration actualClass in
          Ok (mkRepo db backend region actualClass
                (if 0 <? d then Some (Manager_New d) else None)
                actualChunkSize (NewPacker region DefaultSealSize) SingleObjectThreshold
                NewOpenHandles rand 0 [])
      end
  end.

Definition OpenWithClass (db : DB bucket) (backend : B) (region class : bytes)
    (rand : nat → barray 16) : result Repo :=
  OpenWithPolicy db backend region class 0 rand.

Definition OpenRemote (db : DB bucket) (backend : B) (region : bytes) (rand : nat → barray 16) :
    result Repo :=
  OpenWithClass db backend region ClassImmutable rand.

Definition SetChunkAlignment (n : Z) (r : Repo) : Repo := set_packer (SetAlignment n (r_packer r)) r.
Definition ChunkAlignment (r : Repo) : Z := Alignment (r_packer r).

(** ** Storing content *)

(** [Packer.Seal], on the repository's packer and backend.  The name is
    drawn only when there is something to seal. *)
Definition sealPacker : M Repo (gmap ID Locator) := λ r,
  if Empty (r_packer r) then (Ok ∅, r)
  else match draw r with
       | (Err e, r) => (Err e, r)
       | (Ok rnd, r) =>
           match Seal rnd (r_Backend r, r_packer r) with
           | (res, (b, p)) => (res, set_packer p (set_Backend b r))
           end
       end.

(** [for id, loc := range locs { PutLocator }]; the order of a Go map is the
    order of [map_to_list] here. *)
Definition putLocators (locs : gmap ID Locator) (clk : time) : M Repo unit :=
  each (λ '(id, loc), λ r, onDB (PutLocator (r_Region r) id loc clk) r) (map_to_list locs).

Definition flushPacker (clk : time) : M Repo unit :=
  locs ← sealPacker;
  putLocators locs clk.

Definition storeChunk (c : Chunk) (singleObject : bool) (clk : time) : M Repo unit :=
  found ← gets (λ r, HasLocator (r_Region r) (c_ID c) (r_DB r));
  if (found : bool) then mret tt
  else if singleObject then
    region ← gets r_Region;
    rnd ← draw;
    loc ← onBackend (PutSingleObject region c rnd);
    onDB (PutLocator region (c_ID c) loc clk)
  else
    modify (λ r, set_packer (Add c (r_packer r)) r) ≫= λ _,
    full ← gets (λ r, Full (r_packer r));
    if (full : bool) then flushPacker clk else mret tt.

Definition putManifest (m : Manifest) : M Repo (barray 32) :=
  let id := Manifest_ID m in
  let data := EncodeBytes m in
  res ← attempt (onBackend (b_Put (manifestKey id) data (mkPutOpts true)));
  match res with
  | Ok _ => mret id
  | Err e => if bool_decide (e = OsErrExist) then mret id else throw e
  end.

Definition storeContent (rd : reader) (size : Z) (clk : time) : M Repo contentRef :=
  if size =? 0 then mret empty_content
  else
    r ← gets id;
    let useSingleObject := r_SingleObjectThreshold r <=? size in
    chunks ← of_result (SplitAll rd (r_ChunkSize r));
    each (λ c, storeChunk c useSingleObject clk) chunks ≫= λ _,
    match chunks with
    | [c] =>
        if negb useSingleObject then mret (mkContentRef (u64 size) true (c_ID c) false zeroID)
        else mid ← putManifest (New chunks (r_ChunkSize r));
             mret (mkContentRef (u64 size) false zeroID true mid)
    | _ => mid ← putManifest (New chunks (r_ChunkSize r));
           mret (mkContentRef (u64 size) false zeroID true mid)
    end.

(** ** Publishing a tree *)

Definition publishSymlink (dir : InodeID) (name target : bytes) (info : fileInfo) (now : time) :
    M Repo unit :=
  let '(uid, gid) := ownerOf info in
  let rec := mkInode false mode_777 uid gid (blen target) (fi_ModTime info) zero_time zero_time 1
               false zeroID false zeroID 0 0 true target in
  res ← attempt (onDB (PublishFile dir name rec now));
  match res with Ok _ => mret tt | Err e => throw (publishBindErr e) end.

Definition publishFile (dir : InodeID) (name : bytes) (f : reader) (size : Z) (info : fileInfo)
    (now clk : time) : M Repo Z :=
  content ← storeContent f size clk;
  let '(uid, gid) := ownerOf info in
  let rec := apply content (file_record (permOf (fi_Mode info)) uid gid (fi_ModTime info)) in
  res ← attempt (onDB (PublishFile dir name rec now));
  match res with Ok _ => mret size | Err e => throw (publishBindErr e) end.

(** The variables the walk of [PublishTree] updates. *)
Record walkState := mkWalkState {
  ws_dirInodes : gmap bytes InodeID; ws_files : Z; ws_dirs : Z; ws_bytesIn : Z
}.

(** The callback of the walk, on one entry below the root. *)
Definition publishEntry (now clk : time) (ws : walkState) (e : walkEntry) : M Repo walkState :=
  match ws_dirInodes ws !! parentPath (w_rel e) with
  | None => throw RepoErrParentNotVisited
  | Some parentInode =>
      let info := w_info e in
      match w_kind e with
      | WDir =>
          let '(uid, gid) := ownerOf info in
          let rec := dir_record (permOf (fi_Mode info)) uid gid (fi_ModTime info) in
          res ← attempt (onDB (CommitMkdir parentInode (w_name e) rec now));
          id ← match res with
               | Ok id => mret id
               | Err err => if bool_decide (err = ErrExists)
                            then onDB (Lookup parentInode (w_name e)) else throw err
               end;
          mret (mkWalkState (<[w_rel e := id]> (ws_dirInodes ws)) (ws_files ws) (ws_dirs ws + 1)
                  (ws_bytesIn ws))
      | WSymlink target =>
          publishSymlink parentInode (w_name e) target info now ≫= λ _,
          mret (mkWalkState (ws_dirInodes ws) (ws_files ws + 1) (ws_dirs ws) (ws_bytesIn ws))
      | WOther => mret ws
      | WFile f size =>
          n ← publishFile parentInode (w_name e) f size info now clk;
          mret (mkWalkState (ws_dirInodes ws) (ws_files ws + 1) (ws_dirs ws) (ws_bytesIn ws + n))
      end
  end.

(** [PublishTree], given what the walk reports; [uid] and [gid] are the
    process's, for the directories of [destPath]. *)
Definition PublishTree (uid gid : Z) (walk : list walkEntry) (destPath : list bytes)
    (now clk : time) : M Repo (Z * Z * Z) :=
  rootInode ← onDB (EnsureDir uid gid now destPath);
  ws ← fold_m (publishEntry now clk) (mkWalkState {[ [] := rootInode ]} 0 0 0) walk;
  flushPacker clk ≫= λ _,
  mret (ws_files ws, ws_dirs ws, ws_bytesIn ws).

(** ** The mutable write path (write.go) *)

(** [r.Coherence.Bump(key)] calls the subscribers, then counts the version up;
    [if r.Coherence != nil] guards it. *)
Definition fired_by (key : bytes) (r : Repo) : list callback :=
  match r_Coherence r with Some m => Bump_collect key m | None => [] end.

Definition bump (key : bytes) : M Repo unit :=
  modify (λ r, set_Coherence ((λ m, (Bump key m).2) <$> r_Coherence r)
                 (set_fired (r_fired r ++ fired_by key r) r)).

Definition bumpDirEntries (dir : InodeID) : M Repo unit :=
  modify (λ r, set_Coherence ((λ m, (BumpDir (DirCoherenceKey dir) m).2) <$> r_Coherence r) r) ≫= λ _,
  bump (DirCoherenceKey dir) ≫= λ _,
  bump (InodeCoherenceKey dir).

(** [if !r.Class.Mutable() { return ErrReadOnly }]. *)
Definition requireMutable : M Repo unit := λ r,
  if Mutable (r_Class r) then (Ok tt, r) else (Err RepoErrReadOnly, r).

Definition SetQuota (bytesLimit inodesLimit : Z) : M Repo unit :=
  onDB (SetQuotaLimits bytesLimit inodesLimit).
Definition QuotaUsage (r : Repo) : Z * Z := GetQuotaUsage (r_DB r).
Definition QuotaLimits (r : Repo) : Z * Z := GetQuotaLimits (r_DB r).

Definition Statfs (r : Repo) : StatfsInfo :=
  let '(bytesLimit, inodesLimit) := QuotaLimits r in
  let '(bytesUsed, inodesUsed) := QuotaUsage r in
  StatfsInfoFrom bytesLimit inodesLimit bytesUsed inodesUsed.

Definition CreateFile (dir : InodeID) (name : bytes) : M Repo WriteHandle :=
  requireMutable ≫= λ _,
  mret (mkWriteHandle dir name 0 false (mkOwner 0 0) [] false).

(** [Commit]: the size of what the name is bound to, and the inodes that
    binding it will add. *)
Definition commitTarget (h : WriteHandle) : M Repo (Z * Z) :=
  res ← attempt (onDB (Lookup (wh_dir h) (wh_name h)));
  match res with
  | Ok existing =>
      rec ← onDB (GetInode existing);
      if IsDir rec then throw RepoErrIsDirectory else mret (Size rec, 0)
  | Err e => if bool_decide (e = ErrNotFound) then mret (0, 1) else throw e
  end.

(** [Commit]: the name is bound to the stored content. *)
Definition commitBind (h : WriteHandle) (content : contentRef) (now : time) : M Repo InodeID :=
  let rec := apply content
               (file_record (commit_mode h) (o_Uid (wh_owner h)) (o_Gid (wh_owner h)) now) in
  res ← attempt (onDB (CommitFile (wh_dir h) (wh_name h) rec now));
  match res with
  | Err e =>
      if bool_decide (e = ErrIsDirectory) then throw RepoErrIsDirectory
      else if bool_decide (e = ErrQuotaExceeded) then throw RepoErrQuotaExceeded
      else throw e
  | Ok id =>
      bump (InodeCoherenceKey id) ≫= λ _,
      bumpDirEntries (wh_dir h) ≫= λ _,
      mret id
  end.

(** [Commit] on a handle that is still open. *)
Definition commitOpen (h : WriteHandle) (now clk : time) : M Repo InodeID :=
  old ← commitTarget h;
  let byteDelta := i64 (i64 (blen (wh_buf h)) - i64 old.1) in
  q ← gets (λ r, CheckQuota byteDelta old.2 (r_DB r));
  match (q : result unit) with
  | Err _ => throw RepoErrQuotaExceeded
  | Ok _ =>
      content ← storeContent (bytes_reader (wh_buf h)) (blen (wh_buf h)) clk;
      flushPacker clk ≫= λ _,
      commitBind h content now
  end.

Definition Commit (now clk : time) : M (WriteHandle * Repo) InodeID := λ '(h, r),
  if wh_done h then (Err RepoErrHandleDone, (h, r))
  else let '(res, r') := commitOpen h now clk r in (res, (Discard h, r')).

Definition commitDetachedOpen (h : WriteHandle) (id : InodeID) (now clk : time) : M Repo unit :=
  content ← storeContent (bytes_reader (wh_buf h)) (blen (wh_buf h)) clk;
  flushPacker clk ≫= λ _,
  let rec := apply content (set_NLink 0 (file_record 0 0 0 now)) in
  onDB (UpdateInodeContent id rec) ≫= λ _,
  bump (InodeCoherenceKey id).

Definition CommitDetached (id : InodeID) (now clk : time) : M (WriteHandle * Repo) unit := λ '(h, r),
  if wh_done h then (Err RepoErrHandleDone, (h, r))
  else let '(res, r') := commitDetachedOpen h id now clk r in (res, (Discard h, r')).

Definition Unlink (dir : InodeID) (name : bytes) (clk : time) : M Repo unit :=
  requireMutable ≫= λ _,
  res ← attempt (onDB (Lookup dir name));
  onDB (RemoveEntry dir name clk) ≫= λ _,
  match res with Ok id => bump (InodeCoherenceKey id) | Err _ => mret tt end ≫= λ _,
  bumpDirEntries dir.

Definition Mkdir (dir : InodeID) (name : bytes) (mode : Z) (owner : Owner) (now : time) :
    M Repo InodeID :=
  requireMutable ≫= λ _,
  res ← attempt (onDB (CommitMkdir dir name
          (dir_record (Z.land mode mode_7777) (o_Uid owner) (o_Gid owner) now) now));
  match res with
  | Err e =>
      if bool_decide (e = ErrExists) then throw RepoErrExists
      else if bool_decide (e = ErrQuotaExceeded) then throw RepoErrQuotaExceeded
      else throw e
  | Ok id => bumpDirEntries dir ≫= λ _, mret id
  end.

Definition Rmdir (dir : InodeID) (name : bytes) (clk : time) : M Repo unit :=
  requireMutable ≫= λ _,
  id ← onDB (Lookup dir name);
  rec ← onDB (GetInode id);
  if negb (IsDir rec) then throw RepoErrNotDir
  else
    entries ← onDB (Readdir id);
    if 0 <? Z.of_nat (length entries) then throw RepoErrNotEmpty
    else
      onDB (RemoveEntry dir name clk) ≫= λ _,
      bump (InodeCoherenceKey id) ≫= λ _,
      bumpDirEntries dir.

Definition repo_Rename (oldDir : InodeID) (oldName : bytes) (newDir : InodeID) (newName : bytes)
    (now clk : time) : M Repo unit :=
  requireMutable ≫= λ _,
  displaced ← attempt (onDB (Lookup newDir newName));
  match displaced with
  | Err e => if bool_decide (e = ErrNotFound) then mret tt else throw e
  | Ok _ => mret tt
  end ≫= λ _,
  moved ← attempt (onDB (Lookup oldDir oldName));
  onDB (Rename oldDir oldName newDir newName clk now) ≫= λ _,
  match displaced with Ok id => bump (InodeCoherenceKey id) | Err _ => mret tt end ≫= λ _,
  match moved with Ok id => bump (InodeCoherenceKey id) | Err _ => mret tt end ≫= λ _,
  bumpDirEntries oldDir ≫= λ _,
  if bool_decide (newDir = oldDir) then mret tt else bumpDirEntries newDir.

Definition repo_Link (dir : InodeID) (name : bytes) (target : InodeID) (now : time) :
    M Repo InodeRecord :=
  requireMutable ≫= λ _,
  rec ← onDB (Link dir name target now);
  bump (InodeCoherenceKey target) ≫= λ _,
  bumpDirEntries dir ≫= λ _,
  mret rec.

Definition Mknod (dir : InodeID) (name : bytes) (typ rdev mode : Z) (owner : Owner) (now : time) :
    M Repo InodeID :=
  requireMutable ≫= λ _,
  id ← onDB (CreateSpecial dir name typ rdev mode (o_Uid owner) (o_Gid owner) now);
  bumpDirEntries dir ≫= λ _,
  mret id.

Definition Symlink (dir : InodeID) (name target : bytes) (owner : Owner) (now : time) :
    M Repo InodeID :=
  requireMutable ≫= λ _,
  id ← onDB (CreateSymlink dir name target (o_Uid owner) (o_Gid owner) now);
  bumpDirEntries dir ≫= λ _,
  mret id.

Definition repo_SetAttr (id : InodeID) (mut : AttrMutation) (now : time) : M Repo InodeRecord :=
  requireMutable ≫= λ _,
  rec ← onDB (SetAttr id mut now);
  bump (InodeCoherenceKey id) ≫= λ _,
  mret rec.

Definition repo_Resolve (p : bytes) : M Repo (InodeID * InodeRecord) := onDB (Resolve (splitPath p)).
Definition repo_Readdir (inode : InodeID) : M Repo (list DirEntry) := onDB (Readdir inode).

End repo.

Arguments Repo _ _ _ _ : clear implicits.
