(* ===== verification/RepoRead.v ===== *)
(** pkg/repo: the read path.

    A [FileReader] is a state with its chunk cache; the methods read the
    repository and update the cache.  Each locked section of the code
    ([cached], [store]) is a function.  [ReadAt] returns the bytes it put at
    the front of the caller's buffer, whose number is the count it returns,
    and the error.  Where the code would slice out of range the model returns
    [ErrPanic]. *)
From S2P Require Import Prelude Bolt Chunk Manifest Store Pack MetaDB RepoUtil Repo.

Definition fileReaderCacheEntries : Z := 16.

Record FileReader := mkFileReader {
  fr_size : Z;
  fr_hasInline : bool;
  fr_inline : ID;
  fr_m : option Manifest;
  fr_offsets : list Z;
  fr_cache : gmap ID bytes;
  fr_cacheQ : list ID
}.

Definition set_cache (c : gmap ID bytes) (q : list ID) (fr : FileReader) : FileReader :=
  mkFileReader (fr_size fr) (fr_hasInline fr) (fr_inline fr) (fr_m fr) (fr_offsets fr) c q.

(** [FileReader.cached]. *)
Definition cached (id : ID) (fr : FileReader) : option bytes := fr_cache fr !! id.

(** [FileReader.store]. *)
Definition fr_store (id : ID) (buf : bytes) (fr : FileReader) : FileReader :=
  match fr_cache fr !! id with
  | Some _ => fr
  | None =>
      let cache := <[id := buf]> (fr_cache fr) in
      let q := fr_cacheQ fr ++ [id] in
      if fileReaderCacheEntries <? Z.of_nat (length q) then
        match q with
        | old :: q' => set_cache (delete old cache) q' fr
        | [] => set_cache cache q fr
        end
      else set_cache cache q fr
  end.

(** The chunk offsets [OpenFile] computes. *)
Fixpoint entry_offsets (off : Z) (es : list Entry) : list Z :=
  match es with
  | [] => []
  | e :: es' => off :: entry_offsets (i64 (off + e_Length e)) es'
  end.

(** [sort.Search(n, f)]: bisection of [i, j), with a bound on the steps. *)
Fixpoint search_loop (fuel : nat) (f : nat → bool) (i j : nat) : nat :=
  match fuel with
  | O => i
  | S fuel' =>
      if (i <? j)%nat then
        let h := ((i + j) / 2)%nat in
        if f h then search_loop fuel' f i h else search_loop fuel' f (S h) j
      else i
  end.

(** The interval shrinks at every step, so its length bounds them. *)
Definition sort_Search (n : nat) (f : nat → bool) : nat := search_loop n f 0 n.

Section read.
Context {bucket : Type → Type} `{BoltOps bucket} {B : Type} `{BackendOps B} {blake3 : Blake3}.
Context {callback handler : Type}.
Abbreviation repo := (Repo bucket B callback handler).

Definition getManifest (id : barray 32) (r : repo) : result Manifest :=
  match b_Get (manifestKey id) 0 (-1) (r_Backend r) with
  | Err e => Err e
  | Ok rc => match ReadAll rc with Err e => Err e | Ok data => DecodeBytes data end
  end.

Definition OpenFile (rec : InodeRecord) (r : repo) : result FileReader :=
  let size := i64 (Size rec) in
  if HasInline rec then Ok (mkFileReader size true (InlineChunk rec) None [] ∅ [])
  else if HasManifest rec then
    match getManifest (ManifestID rec) r with
    | Err e => Err e
    | Ok m => Ok (mkFileReader size false zeroID (Some m) (entry_offsets 0 (m_Entries m)) ∅ [])
    end
  else Ok (mkFileReader size false zeroID None [] ∅ []).

Definition locate (id : ID) (r : repo) : result Locator :=
  match GetLocator (r_Region r) id (r_DB r) with
  | None => Err RepoErrNoLocator
  | Some loc => Ok loc
  end.

(** [readChunkInto] with a destination of [n] bytes. *)
Definition readChunkInto (id : ID) (n : nat) (r : repo) : result bytes :=
  match locate id r with
  | Err e => Err e
  | Ok loc => FetchInto id loc n (r_Backend r)
  end.

Definition chunkBytes (id : ID) (r : repo) : M FileReader bytes := λ fr,
  match cached id fr with
  | Some b => (Ok b, fr)
  | None =>
      match locate id r with
      | Err e => (Err e, fr)
      | Ok loc =>
          if l_Length loc <? 0 then (Err ErrPanic, fr)
          else match FetchInto id loc (Z.to_nat (l_Length loc)) (r_Backend r) with
               | Err e => (Err e, fr)
               | Ok buf => (Ok buf, fr_store id buf fr)
               end
      end
  end.

(** The entry that covers [off]: the first one that ends after it. *)
Definition findEntry (m : Manifest) (offsets : list Z) (off : Z) : nat :=
  sort_Search (length offsets) (λ i,
    match offsets !! i, m_Entries m !! i with
    | Some o, Some e => off <? i64 (o + e_Length e)
    | _, _ => true
    end).

(** The loop of [ReadAt]: [got] are the bytes in the buffer so far, [n] the
    length of the buffer. *)
Fixpoint read_loop (fuel : nat) (m : Manifest) (n : nat) (got : bytes) (off : Z) (r : repo) :
    FileReader → bytes * option error * FileReader := λ fr,
  match fuel with
  | O => (got, Some ErrOutOfFuel, fr)
  | S fuel' =>
      if (length got <? n)%nat && (off <? fr_size fr) then
        let idx := findEntry m (fr_offsets fr) off in
        match m_Entries m !! idx, fr_offsets fr !! idx with
        | Some entry, Some o =>
            let localOff := i64 (off - o) in
            if bool_decide (cached (e_ChunkID entry) fr = None) && (localOff =? 0)
               && (e_Length entry <=? Z.of_nat (n - length got)) then
              match readChunkInto (e_ChunkID entry) (Z.to_nat (e_Length entry)) r with
              | Err e => (got, Some e, fr)
              | Ok data => read_loop fuel' m n (got ++ data) (i64 (off + e_Length entry)) r fr
              end
            else
              match chunkBytes (e_ChunkID entry) r fr with
              | (Err e, fr) => (got, Some e, fr)
              | (Ok data, fr) =>
                  if (localOff <? 0) || (blen data <? localOff) then (got, Some ErrPanic, fr)
                  else
                    let part := take (n - length got) (drop (Z.to_nat localOff) data) in
                    read_loop fuel' m n (got ++ part) (i64 (off + blen part)) r fr
              end
        | _, _ => (got, None, fr)
        end
      else (got, None, fr)
  end.

(** Every iteration adds a byte to the buffer when the chunks have the
    lengths the manifest says, so one more than its length is enough. *)
Definition ReadAt (n : nat) (off : Z) (r : repo) : FileReader → bytes * option error * FileReader := λ fr,
  if off <? 0 then ([], Some RepoErrNegativeOffset, fr)
  else if fr_size fr <=? off then ([], Some EOF, fr)
  else if fr_hasInline fr then
    match chunkBytes (fr_inline fr) r fr with
    | (Err e, fr) => ([], Some e, fr)
    | (Ok data, fr) =>
        if blen data <=? off then ([], Some EOF, fr)
        else (take n (drop (Z.to_nat off) data), None, fr)
    end
  else
    match fr_m fr with
    | None => ([], Some EOF, fr)
    | Some m =>
        let '(got, err, fr) := read_loop (S n) m n [] off r fr in
        match err with
        | Some e => (got, Some e, fr)
        | None => if (length got =? 0)%nat then ([], Some EOF, fr) else (got, None, fr)
        end
    end.

(** The loop of [ReadAll]: [got] is [buf[:off]]. *)
Fixpoint readall_loop (fuel : nat) (got : bytes) (r : repo) : M FileReader bytes := λ fr,
  match fuel with
  | O => (Err ErrOutOfFuel, fr)
  | S fuel' =>
      if blen got <? fr_size fr then
        let '(data, err, fr) := ReadAt (Z.to_nat (fr_size fr) - length got) (blen got) r fr in
        match err with
        | Some e => if bool_decide (e = EOF)
                    then (if (length data =? 0)%nat then (Ok (got ++ data), fr)
                          else readall_loop fuel' (got ++ data) r fr)
                    else (Err e, fr)
        | None => if (length data =? 0)%nat then (Ok (got ++ data), fr)
                  else readall_loop fuel' (got ++ data) r fr
        end
      else (Ok got, fr)
  end.

(** Every iteration but the last reads a byte. *)
Definition fr_ReadAll (r : repo) : M FileReader bytes := λ fr,
  if fr_size fr <? 0 then (Err ErrPanic, fr)
  else readall_loop (S (Z.to_nat (fr_size fr))) [] r fr.

(** ** Specification *)

(** The chunk [d] is where its locator says. *)
Definition has_chunk (r : repo) (d : bytes) : Prop :=
  ∃ loc, GetLocator (r_Region r) (Sum d) (r_DB r) = Some loc ∧ stored_at loc d (r_Backend r).

(** A manifest entry for the chunk [d]. *)
Definition entry_of (e : Entry) (d : bytes) : Prop :=
  e_ChunkID e = Sum d ∧ e_Length e = blen d.

(** The object under a manifest's key decodes to [m]. *)
Definition has_manifest (r : repo) (mid : barray 32) (m : Manifest) : Prop :=
  ∃ data, b_object (manifestKey mid) (r_Backend r) = Some data ∧ DecodeBytes data = Ok m.

(** A record whose content is the concatenation of the chunks [ds], each of
    them satisfying [P]. *)
Definition content_of (P : bytes → Prop) (r : repo) (rec : InodeRecord) (ds : list bytes) : Prop :=
  Size rec = blen (concat ds) ∧ Size rec < 2 ^ 63 ∧ Forall P ds ∧
  if HasInline rec then ∃ d, ds = [d] ∧ InlineChunk rec = Sum d
  else if HasManifest rec then
    ∃ m, has_manifest r (ManifestID rec) m ∧ Forall2 entry_of (m_Entries m) ds
  else ds = [].

(** The record can be read: every chunk has its locator and its bytes. *)
Definition readable (r : repo) : InodeRecord → list bytes → Prop := content_of (has_chunk r) r.

(** A reader over the chunks [ds]: it has the manifest's layout and whatever
    it has cached is right. *)
Record reader_ok (ds : list bytes) (fr : FileReader) : Prop := mkReaderOk {
  rok_size : fr_size fr = blen (concat ds);
  rok_small : fr_size fr < 2 ^ 63;
  rok_kind : if fr_hasInline fr then ∃ d, ds = [d] ∧ fr_inline fr = Sum d
             else match fr_m fr with
                  | Some m => Forall2 entry_of (m_Entries m) ds
                              ∧ fr_offsets fr = entry_offsets 0 (m_Entries m)
                  | None => ds = []
                  end;
  rok_cache : ∀ d b, d ∈ ds → fr_cache fr !! Sum d = Some b → b = d
}.

End read.

(** The cache never holds more than its bound, and the queue lists exactly
    the cached chunks, each once. *)
Definition cache_inv (fr : FileReader) : Prop :=
  NoDup (fr_cacheQ fr) ∧ (∀ id, id ∈ fr_cacheQ fr ↔ is_Some (fr_cache fr !! id))
  ∧ Z.of_nat (length (fr_cacheQ fr)) <= fileReaderCacheEntries.

(** * Bisection *)

Lemma search_loop_spec fuel f i j n :
  (j - i <= fuel)%nat → (i <= j <= n)%nat →
  (∀ k, (k < i)%nat → f k = false) → (∀ k, (j <= k < n)%nat → f k = true) →
  (∀ a b, (a <= b < n)%nat → f a = true → f b = true) →
  let k := search_loop fuel f i j in
  (k <= n)%nat ∧ (∀ x, (x < k)%nat → f x = false) ∧ ∀ x, (k <= x < n)%nat → f x = true.
Proof.
  revert i j. induction fuel as [|fuel IH]; intros i j Hf Hij Hlo Hhi Hmono;
    cbv zeta; cbn [search_loop].
  { assert (i = j) as -> by lia. auto with lia. }
  destruct (Nat.ltb_spec i j) as [Hlt|Hge]; [|assert (i = j) as -> by lia; auto with lia].
  assert (i <= (i + j) / 2 < j)%nat as Hh.
  { split; [apply Nat.div_le_lower_bound|apply Nat.div_lt_upper_bound]; lia. }
  cbv zeta. destruct (f ((i + j) / 2)%nat) eqn:E.
  - apply IH; [lia|lia|done| |done]. intros k Hk. by apply (Hmono ((i + j) / 2)%nat).
  - apply IH; [lia|lia| |done|done]. intros k Hk.
    destruct (f k) eqn:Ek; [|done]. rewrite (Hmono k ((i + j) / 2)%nat) in E; [done|lia|done].
Qed.

Lemma sort_Search_spec n f :
  (∀ a b, (a <= b < n)%nat → f a = true → f b = true) →
  (sort_Search n f <= n)%nat ∧ (∀ x, (x < sort_Search n f)%nat → f x = false)
  ∧ ∀ x, (sort_Search n f <= x < n)%nat → f x = true.
Proof. intros Hm. apply search_loop_spec; [lia|lia|lia|lia|done]. Qed.

(** * Layout of a file *)

Lemma blen_concat_take_S (ds : list bytes) i d :
  ds !! i = Some d → blen (concat (take (S i) ds)) = blen (concat (take i ds)) + blen d.
Proof.
  intros Hd. rewrite (take_S_r _ _ _ Hd), concat_app, blen_app. cbn. by rewrite app_nil_r.
Qed.

Lemma blen_concat_take_le (ds : list bytes) i j :
  (i <= j)%nat → blen (concat (take i ds)) <= blen (concat (take j ds)).
Proof.
  intros Hij. replace (take i ds) with (take i (take j ds)) by (rewrite take_take; f_equal; lia).
  rewrite <- (take_drop i (take j ds)) at 2. rewrite concat_app, blen_app.
  pose proof (blen_nonneg (concat (drop i (take j ds)))). lia.
Qed.

Lemma concat_split (ds : list bytes) i d :
  ds !! i = Some d → concat ds = concat (take i ds) ++ d ++ concat (drop (S i) ds).
Proof. intros Hd. rewrite <- (take_drop_middle ds i d Hd) at 1. by rewrite concat_app. Qed.

Lemma concat_covers (ds : list bytes) off :
  0 <= off < blen (concat ds) →
  ∃ i d, ds !! i = Some d ∧ blen (concat (take i ds)) <= off < blen (concat (take i ds)) + blen d.
Proof.
  revert off. induction ds as [|d ds IH]; intros off; [cbn; unfold blen; cbn; lia|].
  cbn [concat]. rewrite blen_app. intros Ho.
  destruct (decide (off < blen d)) as [Hlt|Hge].
  - exists 0%nat, d. split; [done|]. cbn. unfold blen in *. cbn. lia.
  - destruct (IH (off - blen d)) as (i & d' & Hi & Hr); [lia|].
    exists (S i), d'. split; [done|]. cbn [take concat]. rewrite blen_app. lia.
Qed.

(** The next piece of a range, and the rest of it. *)
Lemma take_drop_step (content part : bytes) (o k : nat) :
  part = take k (drop o content) →
  ∀ n, (k <= n)%nat → (length part = k)%nat →
  part ++ take (n - length part) (drop (o + length part) content) = take n (drop o content).
Proof.
  intros -> n Hk Hl. rewrite Hl, <- drop_drop, take_take_drop. f_equal. lia.
Qed.

Section read_lemmas.
Context {bucket : Type → Type} `{BoltOps bucket} {B : Type} `{BackendLaws B} {blake3 : Blake3}.
Context {callback handler : Type}.
Abbreviation repo := (Repo bucket B callback handler).

Lemma entry_offsets_lookup es ds off i d :
  Forall2 entry_of es ds → 0 <= off → off + blen (concat ds) < 2 ^ 63 → ds !! i = Some d →
  entry_offsets off es !! i = Some (off + blen (concat (take i ds))).
Proof.
  intros Hes. revert off i. induction Hes as [|e d' es ds [_ He] Hes IH]; intros off i Ho Hlt; [done|].
  cbn [concat] in Hlt. rewrite blen_app in Hlt.
  pose proof (blen_nonneg (concat ds)). pose proof (blen_nonneg d').
  destruct i as [|i]; cbn [lookup entry_offsets list_lookup].
  - intros _. cbn. f_equal. unfold blen. cbn. lia.
  - intros Hd. rewrite i64_id by (unfold in_i64; lia). rewrite (IH _ i) by (done || lia).
    cbn [take concat]. rewrite blen_app. f_equal. lia.
Qed.

Lemma entry_offsets_length es off : length (entry_offsets off es) = length es.
Proof. revert off. induction es as [|e es IH]; intros off; cbn; [done|]. by rewrite IH. Qed.

(** The bisection finds the chunk that covers the offset. *)
Lemma findEntry_spec m ds off i d :
  Forall2 entry_of (m_Entries m) ds → blen (concat ds) < 2 ^ 63 →
  ds !! i = Some d → blen (concat (take i ds)) <= off < blen (concat (take i ds)) + blen d →
  findEntry m (entry_offsets 0 (m_Entries m)) off = i.
Proof.
  intros Hes Hlt Hd Ho. unfold findEntry. rewrite entry_offsets_length.
  set (f := λ j, _). assert (∀ j d', ds !! j = Some d' →
    f j = (off <? blen (concat (take (S j) ds)))) as Hf.
  { intros j d' Hj. unfold f. rewrite (entry_offsets_lookup _ ds 0 j d') by (done || lia).
    destruct (Forall2_lookup_r _ _ _ _ _ Hes Hj) as (e & He & _ & Hl). rewrite He, Hl.
    rewrite (blen_concat_take_S _ _ _ Hj), Z.add_0_l. f_equal. apply i64_id. unfold in_i64.
    pose proof (blen_concat_take_le ds (S j) (length ds)) as Hle.
    apply lookup_lt_Some in Hj as Hj'.
    rewrite (blen_concat_take_S _ _ _ Hj), (firstn_all ds) in Hle.
    pose proof (blen_nonneg (concat (take j ds))). pose proof (blen_nonneg d'). lia. }
  apply Forall2_length in Hes as Hlen. rewrite Hlen.
  assert (∀ j, (j < length ds)%nat → f j = true ↔ (i <= j)%nat) as Hfi.
  { intros j [d' Hj]%lookup_lt_is_Some. rewrite (Hf j d' Hj), Z.ltb_lt. split.
    - intros Hj'. destruct (decide (i <= j)%nat) as [?|Hn]; [done|].
      pose proof (blen_concat_take_le ds (S j) i). lia.
    - intros Hij. pose proof (blen_concat_take_le ds (S i) (S j)).
      pose proof (blen_concat_take_S _ _ _ Hd). lia. }
  apply lookup_lt_Some in Hd as Hi.
  destruct (sort_Search_spec (length ds) f) as (Hk & Hlo & Hhi).
  { intros a b Hab Ha. apply Hfi; [lia|]. apply Hfi in Ha; lia. }
  destruct (lt_eq_lt_dec (sort_Search (length ds) f) i) as [[Hlt'|Heq]|Hgt]; [exfalso|done|exfalso].
  - specialize (Hhi (sort_Search (length ds) f) ltac:(lia)). apply Hfi in Hhi; lia.
  - specialize (Hlo i Hgt). destruct (Hfi i Hi) as [_ Ht]. rewrite Ht in Hlo by lia. done.
Qed.

(** A locator names one string. *)
Lemma has_chunk_unique (r : repo) d d' :
  has_chunk r d → has_chunk r d' → Sum d = Sum d' → d = d'.
Proof.
  intros (loc & Hl & obj & Ho & _ & _ & _ & Hs) (loc' & Hl' & obj' & Ho' & _ & _ & _ & Hs') E.
  rewrite E in Hl. congruence.
Qed.

Lemma locate_chunk (r : repo) d :
  has_chunk r d → ∃ loc, locate (Sum d) r = Ok loc ∧ stored_at loc d (r_Backend r).
Proof. intros (loc & Hl & Hs). exists loc. unfold locate. by rewrite Hl. Qed.

Lemma readChunkInto_chunk (r : repo) d :
  has_chunk r d → readChunkInto (Sum d) (length d) r = Ok d.
Proof.
  intros (loc & Hl & Hs)%locate_chunk. unfold readChunkInto. rewrite Hl.
  by apply FetchInto_stored.
Qed.

Lemma fr_store_cache id buf fr x b :
  fr_cache (fr_store id buf fr) !! x = Some b →
  fr_cache fr !! x = Some b ∨ (x = id ∧ b = buf).
Proof.
  unfold fr_store. destruct (fr_cache fr !! id) eqn:E; [by left|].
  assert (<[id := buf]> (fr_cache fr) !! x = Some b →
    fr_cache fr !! x = Some b ∨ (x = id ∧ b = buf)) as Hins.
  { rewrite lookup_insert. case_decide; [subst; intros [= ->]; by right|by left]. }
  destruct (_ <? _); [|done]. destruct (fr_cacheQ fr ++ [id]) as [|old q]; [done|].
  cbn. rewrite lookup_delete. case_decide; [done|]. exact Hins.
Qed.

Lemma fr_store_frame id buf fr :
  fr_size (fr_store id buf fr) = fr_size fr ∧ fr_hasInline (fr_store id buf fr) = fr_hasInline fr
  ∧ fr_inline (fr_store id buf fr) = fr_inline fr ∧ fr_m (fr_store id buf fr) = fr_m fr
  ∧ fr_offsets (fr_store id buf fr) = fr_offsets fr.
Proof. unfold fr_store. repeat case_match; done. Qed.

Lemma reader_ok_store ds fr d :
  reader_ok ds fr → (∀ d', d' ∈ ds → Sum d' = Sum d → d' = d) →
  reader_ok ds (fr_store (Sum d) d fr).
Proof.
  intros [Hs Hb Hk Hc] Hu. destruct (fr_store_frame (Sum d) d fr) as (E1 & E2 & E3 & E4 & E5).
  split; [by rewrite E1|by rewrite E1|by rewrite E2, E3, E4, E5|].
  intros d' b Hd' [Hb'|[E ->]]%fr_store_cache; [by eapply Hc|]. symmetry. by apply Hu.
Qed.

Lemma chunkBytes_chunk (r : repo) ds fr d :
  reader_ok ds fr → Forall (has_chunk r) ds → d ∈ ds →
  ∃ fr', chunkBytes (Sum d) r fr = (Ok d, fr') ∧ reader_ok ds fr' ∧
    fr_m fr' = fr_m fr ∧ fr_hasInline fr' = fr_hasInline fr.
Proof.
  intros Hok Hds Hd. unfold chunkBytes, cached.
  destruct (fr_cache fr !! Sum d) as [b|] eqn:E.
  { exists fr. by rewrite (rok_cache _ _ Hok d b Hd E). }
  rewrite Forall_forall in Hds. pose proof (Hds d Hd) as (loc & Hl & Hst)%locate_chunk.
  rewrite Hl. assert (l_Length loc = blen d) as Hlen by (by destruct Hst as (? & ? & ? & ? & _)).
  rewrite Hlen. pose proof (blen_nonneg d). rewrite (proj2 (Z.ltb_ge _ _)) by lia.
  unfold blen. rewrite Nat2Z.id, (FetchInto_stored _ _ _ _ Hst eq_refl).
  exists (fr_store (Sum d) d fr). destruct (fr_store_frame (Sum d) d fr) as (_ & E2 & _ & E4 & _).
  split_and!; try done. apply reader_ok_store; [done|].
  intros d' Hd' HE. apply (has_chunk_unique r); auto.
Qed.

(** What the rest of a file looks like from inside chunk number [i]. *)
Lemma drop_in_chunk (ds : list bytes) i d off :
  ds !! i = Some d → blen (concat (take i ds)) <= off < blen (concat (take i ds)) + blen d →
  drop (Z.to_nat off) (concat ds)
  = drop (Z.to_nat (off - blen (concat (take i ds)))) d ++ concat (drop (S i) ds).
Proof.
  intros Hd Ho. rewrite (concat_split _ _ _ Hd). unfold blen in *.
  rewrite drop_app_ge by lia. rewrite drop_app_le by lia. do 2 f_equal. lia.
Qed.

(** One iteration of the loop: the part of chunk [i] that fits in the [k]
    bytes still wanted is the next piece of the file. *)
Lemma read_step (ds : list bytes) i d off k :
  ds !! i = Some d → blen (concat (take i ds)) <= off < blen (concat (take i ds)) + blen d →
  blen (concat ds) < 2 ^ 63 → (0 < k)%nat →
  let part := take k (drop (Z.to_nat (off - blen (concat (take i ds)))) d) in
  i64 (off + blen part) = off + blen part ∧ (0 < length part <= k)%nat ∧
  part ++ take (k - length part) (drop (Z.to_nat (off + blen part)) (concat ds))
  = take k (drop (Z.to_nat off) (concat ds)).
Proof.
  intros Hd Ho Hsm Hk part. pose proof (drop_in_chunk ds i d off Hd Ho) as Hdrop.
  set (o := blen (concat (take i ds))) in *. assert (0 <= o) by apply blen_nonneg.
  assert (o + blen d <= blen (concat ds)).
  { rewrite (concat_split _ _ _ Hd), !blen_app. pose proof (blen_nonneg (concat (drop (S i) ds))).
    fold o. lia. }
  assert (length part = (length d - Z.to_nat (off - o)) `min` k)%nat as Hpl.
  { unfold part. rewrite length_take, length_drop. lia. }
  assert (0 < length part <= k)%nat by (unfold blen in *; lia).
  split; [apply i64_id; unfold in_i64, blen in *; lia|]. split; [done|].
  replace (Z.to_nat (off + blen part)) with (Z.to_nat off + length part)%nat by (unfold blen; lia).
  apply (take_drop_step _ _ _ (length part)); [|lia|done].
  rewrite Hdrop, take_app_le by (rewrite length_drop; lia).
  unfold part at 1. rewrite Hpl, Nat.min_comm, <- take_take. f_equal.
  symmetry. apply take_ge. rewrite length_drop. lia.
Qed.

Lemma read_loop_ok fuel m ds n got off (r : repo) fr :
  reader_ok ds fr → fr_m fr = Some m → fr_hasInline fr = false → Forall (has_chunk r) ds →
  0 <= off → (length got <= n)%nat → (n - length got < fuel)%nat →
  ∃ fr', read_loop fuel m n got off r fr
         = (got ++ take (n - length got) (drop (Z.to_nat off) (concat ds)), None, fr')
         ∧ reader_ok ds fr'.
Proof.
  revert got off fr. induction fuel as [|fuel IH]; intros got off fr Hok Hm Hin Hds Ho Hg Hf; [lia|].
  cbn [read_loop]. pose proof (rok_kind _ _ Hok) as Hk. rewrite Hin, Hm in Hk. destruct Hk as [Hes Hoff].
  pose proof (rok_size _ _ Hok) as Hsz. pose proof (rok_small _ _ Hok) as Hsm.
  destruct (Nat.ltb_spec (length got) n) as [Hlt|Hge]; cbn [andb].
  2:{ exists fr. replace (n - length got)%nat with 0%nat by lia. by rewrite take_0, app_nil_r. }
  destruct (Z.ltb_spec off (fr_size fr)) as [Hos|Hos].
  2:{ exists fr. rewrite drop_ge, take_nil, app_nil_r; [done|]. unfold blen in *. lia. }
  destruct (concat_covers ds off) as (i & d & Hd & Hr); [lia|].
  rewrite Hoff, (findEntry_spec m ds off i d) by (done || lia).
  destruct (Forall2_lookup_r _ _ _ _ _ Hes Hd) as (e & He & Hid & Hl).
  rewrite He, (entry_offsets_lookup _ ds 0 i d) by (done || lia). rewrite Hid, Hl, Z.add_0_l.
  pose proof (read_step ds i d off (n - length got) Hd Hr ltac:(lia) ltac:(lia)) as (Hi & Hpl & Heq).
  pose proof (blen_nonneg (concat (take i ds))).
  rewrite i64_id by (unfold in_i64; lia).
  set (part := take (n - length got) _) in *.
  assert (d ∈ ds) as Hdin by (by eapply list_elem_of_lookup_2).
  assert (∀ fr1, reader_ok ds fr1 → fr_m fr1 = Some m → fr_hasInline fr1 = false →
    ∃ fr', read_loop fuel m n (got ++ part) (off + blen part) r fr1
      = (got ++ take (n - length got) (drop (Z.to_nat off) (concat ds)), None, fr')
      ∧ reader_ok ds fr') as Hnext.
  { intros fr1 Hok1 Hm1 Hin1. rewrite <- Heq, app_assoc.
    replace (n - length got - length part)%nat with (n - length (got ++ part))%nat
      by (rewrite length_app; lia).
    apply IH; rewrite ?length_app; try done; [pose proof (blen_nonneg part); lia|lia..]. }
  case_match eqn:Hfast.
  - rewrite !andb_true_iff in Hfast. destruct Hfast as [[_ Hz] Hroom].
    apply Z.eqb_eq in Hz. apply Z.leb_le in Hroom. unfold blen at 1. rewrite Nat2Z.id.
    rewrite (readChunkInto_chunk r d) by (rewrite Forall_forall in Hds; auto).
    assert (part = d) as Epart; [|rewrite <- Epart, Hi; by apply Hnext].
    unfold part. rewrite Hz. change (Z.to_nat 0) with 0%nat. rewrite drop_0, take_ge; [done|].
    unfold blen in Hroom. lia.
  - destruct (chunkBytes_chunk r ds fr d Hok Hds Hdin) as (fr1 & Hcb & Hok1 & Em & Ein).
    rewrite Hcb. destruct (Z.ltb_spec (off - blen (concat (take i ds))) 0); [lia|].
    destruct (Z.ltb_spec (blen d) (off - blen (concat (take i ds)))); [lia|]. cbn [orb].
    fold part. rewrite Hi. apply Hnext; congruence.
Qed.

(** The outcome of a read at [off]. *)
Lemma ReadAt_ok ds n off (r : repo) fr :
  reader_ok ds fr → Forall (has_chunk r) ds → 0 <= off →
  ∃ err fr', ReadAt n off r fr = (take n (drop (Z.to_nat off) (concat ds)), err, fr')
    ∧ reader_ok ds fr'
    ∧ (blen (concat ds) <= off → err = Some EOF)
    ∧ (off < blen (concat ds) → (0 < n)%nat → err = None)
    ∧ (err = None ∨ err = Some EOF).
Proof.
  intros Hok Hds Ho. unfold ReadAt. rewrite (proj2 (Z.ltb_ge off 0)) by done.
  pose proof (rok_size _ _ Hok) as Hsz. pose proof (rok_kind _ _ Hok) as Hk.
  destruct (Z.leb_spec (fr_size fr) off) as [Hge|Hlt].
  { exists (Some EOF), fr. rewrite drop_ge, take_nil by (unfold blen in *; lia).
    split_and!; [done|done|done|lia|by right]. }
  destruct (fr_hasInline fr) eqn:Hin.
  - destruct Hk as (d & -> & Hid).
    destruct (chunkBytes_chunk r [d] fr d Hok Hds) as (fr1 & Hcb & Hok1 & _); [by left|].
    rewrite Hid, Hcb. cbn in *. rewrite app_nil_r in *.
    destruct (Z.leb_spec (blen d) off); [lia|]. exists None, fr1.
    split_and!; [done|done|lia|done|by left].
  - destruct (fr_m fr) as [m|] eqn:Hm.
    2:{ subst ds. unfold blen in *. cbn in *. lia. }
    destruct (read_loop_ok (S n) m ds n [] off r fr) as (fr' & Hrun & Hok'); try done; [cbn; lia..|].
    rewrite Hrun. cbn [app length]. rewrite Nat.sub_0_r.
    set (got := take n _). destruct (Nat.eqb_spec (length got) 0) as [E|E].
    + assert (got = []) as Hg by (by apply length_zero_iff_nil). rewrite Hg.
      exists (Some EOF), fr'. split_and!; [done|done|done| |by right].
      unfold got in E. rewrite length_take, length_drop in E. unfold blen in *. lia.
    + exists None, fr'. split_and!; [done|done|lia|done|by left].
Qed.

Lemma readall_loop_ok fuel ds (r : repo) fr (got : bytes) :
  reader_ok ds fr → Forall (has_chunk r) ds → got = take (length got) (concat ds) →
  (length (concat ds) - length got < fuel)%nat →
  ∃ fr', readall_loop fuel got r fr = (Ok (concat ds), fr') ∧ reader_ok ds fr'.
Proof.
  revert got fr. induction fuel as [|fuel IH]; intros got fr Hok Hds Hg Hf; [lia|].
  cbn [readall_loop]. pose proof (rok_size _ _ Hok) as Hsz.
  destruct (Z.ltb_spec (blen got) (fr_size fr)) as [Hlt|Hge].
  2:{ exists fr. split; [|done]. rewrite Hg, take_ge; [done|]. unfold blen in *. lia. }
  destruct (ReadAt_ok ds (Z.to_nat (fr_size fr) - length got) (blen got) r fr Hok Hds)
    as (err & fr' & Hrun & Hok' & _ & Hnone & _); [apply blen_nonneg|].
  rewrite Hrun, Hnone by (unfold blen in *; lia).
  assert (∀ k, (length (concat ds) <= k)%nat → take k (concat ds) = concat ds) as Hall
    by (intros; by apply take_ge).
  assert (got ++ take (Z.to_nat (fr_size fr) - length got) (drop (Z.to_nat (blen got)) (concat ds))
    = concat ds) as Hfull.
  { unfold blen. rewrite Nat2Z.id, take_ge by (rewrite length_drop; unfold blen in *; lia).
    rewrite Hg at 1. by rewrite take_drop. }
  destruct (Nat.eqb_spec (length (take (Z.to_nat (fr_size fr) - length got)
    (drop (Z.to_nat (blen got)) (concat ds)))) 0) as [E|E]; [by exists fr'; rewrite Hfull|].
  rewrite Hfull. apply IH; [done|done|by rewrite Hall|unfold blen in *; lia].
Qed.

Lemma OpenFile_ok (r : repo) rec ds :
  readable r rec ds → ∃ fr, OpenFile rec r = Ok fr ∧ reader_ok ds fr.
Proof.
  intros (Hs & Hlt & Hds & Hk). unfold OpenFile. pose proof (blen_nonneg (concat ds)).
  rewrite i64_id by (unfold in_i64; lia).
  destruct (HasInline rec); [|destruct (HasManifest rec)].
  - eexists. split; [done|]. by split.
  - destruct Hk as (m & (data & Hobj & Hdec) & Hes). unfold getManifest.
    rewrite (b_Get_whole _ data) by done. cbn [ReadAll bytes_reader rd_err rd_data]. rewrite Hdec.
    eexists. split; [done|]. by split.
  - eexists. split; [done|]. by split.
Qed.

Lemma fr_ReadAll_ok (r : repo) ds fr :
  reader_ok ds fr → Forall (has_chunk r) ds →
  ∃ fr', fr_ReadAll r fr = (Ok (concat ds), fr') ∧ reader_ok ds fr'.
Proof.
  intros Hok Hds. unfold fr_ReadAll. pose proof (rok_size _ _ Hok) as Hsz.
  pose proof (blen_nonneg (concat ds)). rewrite (proj2 (Z.ltb_ge _ _)) by lia.
  apply readall_loop_ok; [done|done|done|]. cbn. unfold blen in *. lia.
Qed.

(** C11: a readable record opens, and a read of [n] bytes at [off] returns
    exactly the bytes [off, off+n) of the file that exist: end of file at or
    past its end, no error for a read of at least one byte inside it.  The
    reader stays good: the chunk cache, bounded to sixteen entries, is
    invisible. *)
Theorem ReadAt_reads_content (r : repo) rec ds :
  readable r rec ds →
  (∃ fr, OpenFile rec r = Ok fr ∧ reader_ok ds fr) ∧
  ∀ fr n off, reader_ok ds fr → 0 <= off →
    ∃ err fr', ReadAt n off r fr = (slice off (Z.of_nat n) (concat ds), err, fr')
      ∧ reader_ok ds fr'
      ∧ (blen (concat ds) <= off → err = Some EOF)
      ∧ (off < blen (concat ds) → (0 < n)%nat → err = None).
Proof.
  intros Hr. split; [by apply OpenFile_ok|]. intros fr n off Hok Ho.
  destruct (ReadAt_ok ds n off r fr Hok) as (err & fr' & Hrun & Hok' & He & Hn & _);
    [by destruct Hr as (_ & _ & ? & _)|done|].
  exists err, fr'. unfold slice. rewrite Nat2Z.id. done.
Qed.

(** Reading a whole file returns its content and never fails, whatever
    the reader has already cached. *)
Theorem ReadAll_reads_content (r : repo) rec ds :
  readable r rec ds →
  ∃ fr, OpenFile rec r = Ok fr ∧ reader_ok ds fr ∧
    ∀ fr1, reader_ok ds fr1 → ∃ fr', fr_ReadAll r fr1 = (Ok (concat ds), fr') ∧ reader_ok ds fr'.
Proof.
  intros Hr. destruct (OpenFile_ok r rec ds Hr) as (fr & Ho & Hok). exists fr. split_and!; [done|done|].
  intros fr1 Hok1. apply fr_ReadAll_ok; [done|]. by destruct Hr as (_ & _ & ? & _).
Qed.
End read_lemmas.


Lemma cache_inv_store id b fr : cache_inv fr → cache_inv (fr_store id b fr).
Proof.
  intros (Hnd & Hq & Hlen). unfold fr_store.
  destruct (fr_cache fr !! id) as [b'|] eqn:E; [done|].
  assert (id ∉ fr_cacheQ fr) as Hni by (rewrite Hq, E; by intros [? ?]).
  assert (NoDup (fr_cacheQ fr ++ [id])) as Hnd'.
  { apply NoDup_app. split_and!; [done|set_solver|apply NoDup_singleton]. }
  assert (∀ x, x ∈ fr_cacheQ fr ++ [id] ↔ is_Some (<[id := b]> (fr_cache fr) !! x)) as Hq'.
  { intros x. rewrite elem_of_app, list_elem_of_singleton, lookup_insert, Hq.
    case_decide; subst; naive_solver. }
  destruct (Z.ltb_spec fileReaderCacheEntries (Z.of_nat (length (fr_cacheQ fr ++ [id])))) as [Hlt|Hge].
  - destruct (fr_cacheQ fr ++ [id]) as [|old q] eqn:Eq; [done|].
    apply NoDup_cons in Hnd' as [Hno Hndq]. split_and!; cbn.
    + done.
    + intros x. rewrite lookup_delete. case_decide as Ex.
      * subst x. split; [done|by intros [? ?]].
      * rewrite <- Hq', elem_of_cons. naive_solver.
    + apply (f_equal length) in Eq. rewrite length_app in Eq. cbn in Eq. lia.
  - split_and!; cbn; [done|done|done].
Qed.

(** However many chunks are read through it, a reader caches at most
    sixteen, and its queue lists exactly the cached chunks, so an eviction
    always removes one. *)
Theorem cache_bounded (fr : FileReader) (reads : list (ID * bytes)) :
  fr_cache fr = ∅ → fr_cacheQ fr = [] →
  let fr' := fold_left (λ fr p, fr_store p.1 p.2 fr) reads fr in
  cache_inv fr' ∧ Z.of_nat (size (fr_cache fr')) <= fileReaderCacheEntries.
Proof.
  intros Hc Hq fr'. assert (cache_inv fr') as Hinv.
  { unfold fr'. assert (cache_inv fr) as H0.
    { unfold cache_inv. rewrite Hc, Hq. split_and!; [constructor| |done].
      intros id. rewrite lookup_empty. split; [by intros ?%not_elem_of_nil|by intros [? ?]]. }
    clear -H0. revert fr H0. induction reads as [|p reads IH]; intros fr H0; [done|].
    apply IH. by apply cache_inv_store. }
  split; [done|]. destruct Hinv as (Hnd & Hin & Hlen).
  rewrite <- size_dom. replace (dom (fr_cache fr')) with (list_to_set (C := gset ID) (fr_cacheQ fr')).
  - rewrite size_list_to_set by done. done.
  - apply set_eq. intros x. rewrite elem_of_list_to_set, elem_of_dom. apply Hin.
Qed.

(** A reader to run the cache on. *)
Lemma cache_bounded_witness :
  let fr := mkFileReader 0 false zeroID None [] ∅ [] in
  let reads := (λ n, (@Sum256 pad_hash [byte_of_Z (Z.of_nat n)], [byte_of_Z (Z.of_nat n)])) <$> seq 0 20 in
  let fr' := fold_left (λ fr p, fr_store p.1 p.2 fr) reads fr in
  (fr_cache fr = ∅ ∧ fr_cacheQ fr = []) ∧ cache_inv fr' ∧ length (fr_cacheQ fr') = 16%nat.
Proof.
  intros fr reads fr'. split; [split; reflexivity|]. split.
  - exact (proj1 (cache_bounded fr reads eq_refl eq_refl)).
  - vm_compute. reflexivity.
Defined.
