(* ===== verification/RepoStore.v ===== *)
(** pkg/repo: what the storage path keeps true.

    [repo_inv] says that every locator addresses the bytes it is named after,
    that manifests are stored under the hash of their bytes, and that the
    packer's entries are right.  [extends] is what a step of the storage path
    may do to a repository: add objects and locators, never take a chunk or a
    name away.  Everything is relative to a set [K] of byte strings, the
    chunks and manifests the repository has to do with, on which the hash has
    no collision, and to a bound [N] on the container names drawn, up to
    which they do not repeat. *)
From S2P Require Import Prelude Bolt Chunk Manifest Store Pack MetaDB MetaTree Coherence RepoUtil.
From S2P Require Import Repo RepoRead.

(** * The pieces of a file *)

Section pieces.
Context {blake3 : Blake3}.

(** The chunks of [content], as [storeContent] makes them. *)
Definition pieces_of (size : Z) (content : bytes) : list bytes :=
  pieces (S (length content)) (Z.to_nat (if size <=? 0 then DefaultSize else size)) content.

Definition manifest_of (size : Z) (content : bytes) : Manifest :=
  New (chunk_of <$> pieces_of size content) size.

End pieces.

(** Everything of the metadata store but locators and seal times. *)
Record same_meta {bucket} (d d' : DB bucket) : Prop := mkSameMeta {
  sm_dentry : bDentry d' = bDentry d;
  sm_inode : bInode d' = bInode d;
  sm_meta : bMeta d' = bMeta d;
  sm_quota : bQuota d' = bQuota d;
  sm_gravey : bGravey d' = bGravey d;
  sm_deadcnt : bDeadCnt d' = bDeadCnt d
}.

Section inv.
Context {bucket : Type → Type} `{BoltOps bucket} {B : Type} `{BackendOps B} {blake3 : Blake3}.
Context {callback handler : Type}.
Abbreviation repo := (Repo bucket B callback handler).
Context (K : bytes → Prop) (N : nat).

(** The hash tells the strings of [K] apart, and none of them is empty. *)
Record universe : Prop := mkUniverse {
  K_inj : ∀ a b, K a → K b → Sum256 a = Sum256 b → a = b;
  K_nonempty : ∀ a, K a → a ≠ []
}.

(** The names still to be drawn, up to the bound, are distinct and new. *)
Definition fresh_names (r : repo) : Prop :=
  (∀ i, (r_drawn r <= i < N)%nat →
     b_object (newContainerKey (r_Region r) (r_rand r i)) (r_Backend r) = None) ∧
  (∀ i j, (i < N)%nat → (j < N)%nat → r_rand r i = r_rand r j → i = j).

Record repo_inv (r : repo) : Prop := mkRepoInv {
  ri_locators : ∀ id loc, GetLocator (r_Region r) id (r_DB r) = Some loc →
    ∃ d, K d ∧ Sum d = id ∧ stored_at loc d (r_Backend r);
  ri_manifests : ∀ mid data, b_object (manifestKey mid) (r_Backend r) = Some data →
    K data ∧ Sum256 data = mid;
  ri_pending : Forall (λ e, ∃ d, K d ∧ entry_for (p_buf (r_packer r)) e (chunk_of d))
                 (p_pending (r_packer r));
  ri_region : p_region (r_packer r) = r_Region r;
  ri_fresh : fresh_names r
}.

(** The chunk is waiting in the packer. *)
Definition pending_chunk (r : repo) (d : bytes) : Prop :=
  ∃ e, e ∈ p_pending (r_packer r) ∧ entry_for (p_buf (r_packer r)) e (chunk_of d).

(** The chunk is stored, or will be at the next flush. *)
Definition avail (r : repo) (d : bytes) : Prop := has_chunk r d ∨ pending_chunk r d.

(** The fields no storage operation touches. *)
Record same_config (r r' : repo) : Prop := mkSameConfig {
  sc_region : r_Region r' = r_Region r;
  sc_class : r_Class r' = r_Class r;
  sc_coherence : r_Coherence r' = r_Coherence r;
  sc_chunk : r_ChunkSize r' = r_ChunkSize r;
  sc_threshold : r_SingleObjectThreshold r' = r_SingleObjectThreshold r;
  sc_handles : r_OpenHandles r' = r_OpenHandles r;
  sc_rand : r_rand r' = r_rand r
}.

Record extends (r r' : repo) : Prop := mkExtends {
  ex_objects : ∀ key data, b_object key (r_Backend r) = Some data →
                           b_object key (r_Backend r') = Some data;
  ex_chunks : ∀ d, K d → has_chunk r d → has_chunk r' d;
  ex_avail : ∀ d, K d → avail r d → avail r' d;
  ex_meta : same_meta (r_DB r) (r_DB r');
  ex_config : same_config r r';
  ex_drawn : (r_drawn r <= r_drawn r')%nat
}.

(** A step of the storage path: whatever its result, if it drew no more
    names than the bound allows, it keeps the invariant and only adds; if it
    succeeds, [Q] holds of its result. *)
Definition steps {A} (m : M repo A) (r : repo) (Q : A → repo → Prop) : Prop :=
  ∀ res r', m r = (res, r') → (r_drawn r' <= N)%nat →
    repo_inv r' ∧ extends r r' ∧ match res with Ok a => Q a r' | Err _ => True end.

(** Content the repository can take: sizes and counts fit their fields, and
    its chunks and manifest are among the strings considered. *)
Record storable (r : repo) (content : bytes) : Prop := mkStorable {
  st_chunk : 0 < r_ChunkSize r < 2 ^ 32;
  st_size : blen content < 2 ^ 63;
  st_count : Z.of_nat (length (pieces_of (r_ChunkSize r) content)) < 2 ^ 32;
  st_pieces : Forall K (pieces_of (r_ChunkSize r) content);
  st_manifest : K (EncodeBytes (manifest_of (r_ChunkSize r) content))
}.

(** A property of repositories that the primitive steps of the storage path
    keep. *)
Record storage_closed (P : repo → Prop) : Prop := mkClosed {
  cl_Backend : ∀ r b, P r → P (set_Backend b r);
  cl_packer : ∀ r p, P r → P (set_packer p r);
  cl_drawn : ∀ r, P r → P (set_drawn (S (r_drawn r)) r);
  cl_locator : ∀ r id loc t, P r → P (onDB (PutLocator (r_Region r) id loc t) r).2
}.

(** A computation never takes back a name. *)
Definition draws {A} (m : M repo A) : Prop := ∀ n, keeps (λ r, (n <= r_drawn r)%nat) m.

End inv.

(** * Keys *)

Lemma locatorKey_inj region id id' : locatorKey region id = locatorKey region id' → id = id'.
Proof.
  unfold locatorKey. intros E. apply (inj (app region)), (inj (app [x00])) in E. by apply barray_eq.
Qed.

Lemma manifestKey_inj a b : manifestKey a = manifestKey b → a = b.
Proof.
  unfold manifestKey. intros E. apply (inj (app (str "atlas/m/"))) in E.
  apply app_inj_1 in E as [_ E].
  - apply (inj (app (str "/"))) in E. apply barray_eq. by apply hex_encode_inj.
  - by rewrite !length_take, !length_hex_encode, !barray_length.
Qed.

Lemma container_not_manifest region rnd mid : newContainerKey region rnd ≠ manifestKey mid.
Proof.
  unfold newContainerKey, containerKey, manifestKey. intros E. cbn in E. discriminate E.
Qed.

Section db_locators.
Context `{BoltLaws bucket}.
Implicit Types d : DB bucket.

Lemma same_meta_refl d : same_meta d d.
Proof. done. Qed.

Lemma same_meta_trans d1 d2 d3 : same_meta d1 d2 → same_meta d2 d3 → same_meta d1 d3.
Proof. intros [] []. split; congruence. Qed.

Lemma PutLocator_run region id loc t d :
  ∃ d', PutLocator region id loc t d = (Ok tt, d') ∧ same_meta d d' ∧
    bLocator d' = bk_put (locatorKey region id) loc (bLocator d).
Proof.
  unfold PutLocator. rewrite bolt_update_run. unfold mbind, M_bind, modify, gets. cbn.
  destruct (bk_get (l_Container loc) (bContainer d)); cbn; eexists; by split.
Qed.

Lemma GetLocator_put region id id' loc d d' :
  bLocator d' = bk_put (locatorKey region id) loc (bLocator d) →
  GetLocator region id' d' = if decide (id' = id) then Some loc else GetLocator region id' d.
Proof.
  intros E. unfold GetLocator. rewrite E, bk_get_put.
  destruct (decide (id' = id)) as [->|Hne]; [by rewrite decide_True|].
  rewrite decide_False; [done|]. by intros ?%locatorKey_inj.
Qed.

End db_locators.

(** * What the storage path cannot change *)

Section closed.
Context {bucket : Type → Type} `{BoltOps bucket} {B : Type} `{BackendOps B} {blake3 : Blake3}.
Context {callback handler : Type}.
Abbreviation repo := (Repo bucket B callback handler).
Context (P : repo → Prop) (HP : storage_closed P).

Lemma keeps_each {S A} (Q : S → Prop) (f : A → M S unit) l : (∀ a, keeps Q (f a)) → keeps Q (each f l).
Proof.
  intros Hf. induction l as [|a l IH]; cbn [each]; [apply keeps_ret|]. by apply keeps_bind.
Qed.

Lemma keeps_fold_m {S A C} (Q : S → Prop) (f : C → A → M S C) c l :
  (∀ c a, a ∈ l → keeps Q (f c a)) → keeps Q (fold_m f c l).
Proof.
  revert c. induction l as [|a l IH]; intros c Hf; cbn [fold_m]; [apply keeps_ret|].
  apply keeps_bind; [apply Hf; by left|]. intros c'. apply IH. intros; apply Hf; by right.
Qed.

Lemma keeps_onBackend {A} (m : M B A) : keeps P (onBackend m).
Proof. intros r Hr. unfold onBackend, zoom. destruct (m (r_Backend r)). by apply (cl_Backend P HP). Qed.

Lemma keeps_draw : keeps P draw.
Proof. intros r Hr. by apply (cl_drawn P HP r). Qed.

Lemma keeps_flush clk : keeps P (flushPacker clk).
Proof.
  apply keeps_bind.
  - intros r Hr. unfold sealPacker. destruct (Empty (r_packer r)); [done|].
    unfold draw. cbn [r_Backend r_packer set_drawn].
    destruct (Seal (r_rand r (r_drawn r)) (r_Backend r, r_packer r)) as [res [b p]].
    by apply (cl_packer P HP), (cl_Backend P HP), (cl_drawn P HP).
  - intros locs. apply keeps_each. intros [id loc] r Hr. by apply (cl_locator P HP).
Qed.

Lemma keeps_storeChunk c so clk : keeps P (storeChunk c so clk).
Proof.
  unfold storeChunk. apply keeps_bind; [apply keeps_gets|]. intros [|]; [apply keeps_ret|].
  destruct so.
  - intros r Hr. unfold mbind, M_bind, gets.
    pose proof (keeps_draw r Hr) as Hd. unfold draw in *. cbn [fst snd] in Hd.
    pose proof (keeps_onBackend (PutSingleObject (r_Region r) c (r_rand r (r_drawn r))) _ Hd) as Hb.
    unfold onBackend, zoom in *. destruct (PutSingleObject _ _ _ _) as [[loc|e] b]; [|done].
    apply (cl_locator P HP _ (c_ID c) loc clk Hb).
  - apply keeps_bind; [intros r Hr; by apply (cl_packer P HP)|]. intros _.
    apply keeps_bind; [apply keeps_gets|]. intros [|]; [apply keeps_flush|apply keeps_ret].
Qed.

Lemma keeps_putManifest m : keeps P (putManifest m).
Proof.
  apply keeps_bind; [apply keeps_attempt, keeps_onBackend|]. intros [?|?]; [apply keeps_ret|].
  case_bool_decide; [apply keeps_ret|apply keeps_throw].
Qed.

Lemma keeps_storeContent rd size clk : keeps P (storeContent rd size clk).
Proof.
  unfold storeContent. destruct (size =? 0); [apply keeps_ret|].
  apply keeps_bind; [apply keeps_gets|]. intros r0. apply keeps_bind; [apply keeps_of_result|]. intros cs.
  apply keeps_bind; [apply keeps_each; intros; apply keeps_storeChunk|]. intros _.
  destruct cs as [|c [|c' cs]]; [|destruct (negb _); [apply keeps_ret|]|];
    (apply keeps_bind; [apply keeps_putManifest|]; intros; apply keeps_ret).
Qed.
End closed.

(** * The storage path *)

Section store_path.
Context {bucket : Type → Type} `{BoltLaws bucket} {B : Type} `{BackendLaws B} {blake3 : Blake3}.
Context {callback handler : Type}.
Abbreviation repo := (Repo bucket B callback handler).
Context (K : bytes → Prop) (N : nat) (HK : universe K).
Implicit Types r : repo.

Lemma extends_refl r : extends K r r.
Proof. by split. Qed.

Lemma extends_trans r1 r2 r3 : extends K r1 r2 → extends K r2 r3 → extends K r1 r3.
Proof.
  intros [O1 C1 A1 M1 F1 D1] [O2 C2 A2 M2 F2 D2]. split; [auto..| |lia].
  - by eapply same_meta_trans.
  - destruct F1, F2. split; congruence.
Qed.

Lemma draws_run {A} (m : M repo A) r res r' : draws m → m r = (res, r') → (r_drawn r <= r_drawn r')%nat.
Proof. intros Hm E. specialize (Hm (r_drawn r) r (le_n _)). by rewrite E in Hm. Qed.

Lemma steps_ret {A} (a : A) r (Q : A → repo → Prop) : repo_inv K N r → Q a r → steps K N (mret a) r Q.
Proof. intros Hi HQ res r' [= <- <-] _. split_and!; [done|apply extends_refl|done]. Qed.

Lemma steps_throw {A} e r (Q : A → repo → Prop) : repo_inv K N r → steps K N (throw e) r Q.
Proof. intros Hi res r' [= <- <-] _. split_and!; [done|apply extends_refl|done]. Qed.

Lemma steps_bind {A C} (m : M repo A) (k : A → M repo C) r (Q : A → repo → Prop) Q' :
  steps K N m r Q → (∀ a, draws (k a)) →
  (∀ a r1, repo_inv K N r1 → extends K r r1 → Q a r1 → steps K N (k a) r1 Q') →
  steps K N (m ≫= k) r Q'.
Proof.
  intros Hm Hd Hk res r'. unfold mbind, M_bind.
  destruct (m r) as [[a|e] r1] eqn:E; intros Erun HN.
  - pose proof (draws_run _ _ _ _ (Hd a) Erun).
    destruct (Hm _ _ E ltac:(lia)) as (Hi & Hx & HQ).
    destruct (Hk a r1 Hi Hx HQ _ _ Erun HN) as (Hi' & Hx' & HQ').
    split_and!; [done|by eapply extends_trans|done].
  - injection Erun as <- <-. destruct (Hm _ _ E HN) as (Hi & Hx & _). by split_and!.
Qed.

Lemma steps_mono {A} (m : M repo A) r (Q Q' : A → repo → Prop) :
  steps K N m r Q → (∀ a r', extends K r r' → Q a r' → Q' a r') → steps K N m r Q'.
Proof.
  intros Hm HQ res r' E HN. destruct (Hm _ _ E HN) as (? & ? & Hres). split_and!; [done..|].
  destruct res; [by apply HQ|done].
Qed.

Lemma draws_onDB {A} (m : M (DB bucket) A) : draws (onDB m : M repo A).
Proof. intros n r Hr. unfold onDB, zoom. by destruct (m (r_DB r)). Qed.

Lemma draws_onBackend {A} (m : M B A) : draws (onBackend m : M repo A).
Proof. intros n r Hr. unfold onBackend, zoom. by destruct (m (r_Backend r)). Qed.

Lemma draws_bind {A C} (m : M repo A) (k : A → M repo C) :
  draws m → (∀ a, draws (k a)) → draws (m ≫= k).
Proof. intros Hm Hk n. apply keeps_bind; [apply Hm|]. intros a. apply Hk. Qed.

Lemma draws_attempt {A} (m : M repo A) : draws m → draws (attempt m).
Proof. intros Hm n. apply keeps_attempt, Hm. Qed.

Lemma draws_each {A} (f : A → M repo unit) l : (∀ a, draws (f a)) → draws (each f l).
Proof.
  intros Hf. induction l as [|a l IH]; cbn [each]; [by intros n ?|]. by apply draws_bind.
Qed.

Lemma drawn_closed n : storage_closed (λ r, (n <= r_drawn r)%nat).
Proof. split; intros; cbn; try lia. by apply draws_onDB. Qed.

Lemma draws_flush clk : draws (flushPacker clk : M repo unit).
Proof. intros n. apply keeps_flush, drawn_closed. Qed.

Lemma draws_storeChunk c so clk : draws (storeChunk c so clk : M repo unit).
Proof. intros n. apply keeps_storeChunk, drawn_closed. Qed.

Lemma draws_putManifest m : draws (putManifest m : M repo (barray 32)).
Proof. intros n. apply keeps_putManifest, drawn_closed. Qed.

Lemma draws_pure {A} (m : M repo A) : (∀ r, r_drawn (m r).2 = r_drawn r) → draws m.
Proof. intros Hm n r Hr. by rewrite Hm. Qed.

(** ** Objects and locators *)

(** [grows s s']: no object is lost or changed. *)
Lemma stored_grow loc d (s s' : B) :
  (∀ key data, b_object key s = Some data → b_object key s' = Some data) →
  stored_at loc d s → stored_at loc d s'.
Proof. intros Hg (obj & Ho & Hr). exists obj. split; [by apply Hg|done]. Qed.

(** Putting an object under the next container name. *)
Lemma put_fresh r data o res b' :
  repo_inv K N r → (r_drawn r < N)%nat →
  b_Put (newContainerKey (r_Region r) (r_rand r (r_drawn r))) data o (r_Backend r) = (res, b') →
  (∀ key d, b_object key (r_Backend r) = Some d → b_object key b' = Some d) ∧
  (∀ mid, b_object (manifestKey mid) b' = b_object (manifestKey mid) (r_Backend r)) ∧
  (∀ i, (S (r_drawn r) <= i < N)%nat →
     b_object (newContainerKey (r_Region r) (r_rand r i)) b' = None) ∧
  (is_ok res = true →
     b_object (newContainerKey (r_Region r) (r_rand r (r_drawn r))) b' = Some data).
Proof.
  intros Hi HN Hput. destruct (ri_fresh _ _ _ Hi) as [Hf Hinj].
  set (key0 := newContainerKey (r_Region r) (r_rand r (r_drawn r))) in *.
  assert (∀ k, b_object k b' = b_object k (r_Backend r) ∨ k = key0 ∧ b_object k b' = Some data) as Hob.
  { intros k. destruct res as [oi|e].
    - rewrite (b_Put_ok _ _ _ _ _ _ k Hput). case_decide; [by right|by left].
    - by eapply b_Put_err. }
  split_and!.
  - intros key d Hd. destruct (Hob key) as [->|[-> _]]; [done|]. unfold key0 in Hd. rewrite Hf in Hd by lia. done.
  - intros mid. destruct (Hob (manifestKey mid)) as [|[E _]]; [done|]. symmetry in E. by apply container_not_manifest in E.
  - intros i Hir. destruct (Hob (newContainerKey (r_Region r) (r_rand r i))) as [->|[E _]]; [apply Hf; lia|].
    apply newContainerKey_inj, Hinj in E; lia.
  - intros Hres. destruct res as [oi|e]; [|done]. by rewrite (b_Put_ok _ _ _ _ _ _ _ Hput), decide_True.
Qed.

Lemma putLocators_run (l : list (ID * Locator)) clk r :
  ∃ d', each (λ '(id, loc), λ r, onDB (PutLocator (r_Region r) id loc clk) r) l r
        = (Ok tt, set_DB d' r) ∧
    same_meta (r_DB r) d' ∧
    ∀ id, (GetLocator (r_Region r) id d' = GetLocator (r_Region r) id (r_DB r) ∧ id ∉ l.*1) ∨
          ∃ loc, (id, loc) ∈ l ∧ GetLocator (r_Region r) id d' = Some loc.
Proof.
  revert r. induction l as [|[x loc] l IH]; intros r.
  { exists (r_DB r). split_and!; [by destruct r|done|]. intros id. left. split; [done|].
    apply not_elem_of_nil. }
  cbn [each]. unfold mbind, M_bind. cbn [onDB zoom]. unfold onDB, zoom.
  destruct (PutLocator_run (r_Region r) x loc clk (r_DB r)) as (d1 & -> & Hm1 & Hl1).
  destruct (IH (set_DB d1 r)) as (d2 & Hrun & Hm2 & Hl2). cbn in Hrun, Hm2, Hl2.
  exists d2. split_and!; [exact Hrun|by eapply same_meta_trans|].
  intros id. destruct (Hl2 id) as [[E Hni]|(loc' & Hin & E)].
  - rewrite E, (GetLocator_put _ _ _ _ _ _ Hl1). case_decide as Ex.
    + subst. right. exists loc. split; [by left|done].
    + left. split; [done|]. cbn. by rewrite not_elem_of_cons.
  - right. exists loc'. split; [by right|done].
Qed.

(** ** Sealing the packer *)

(** A flush that finds nothing to seal. *)
Lemma flush_empty clk r :
  Empty (r_packer r) = true → flushPacker clk r = (Ok tt, r).
Proof.
  intros E. unfold flushPacker, mbind, M_bind, sealPacker, putLocators. rewrite E.
  by rewrite map_to_list_empty.
Qed.

Lemma pending_nonempty r d :
  K d → pending_chunk r d → Empty (r_packer r) = false.
Proof.
  intros Hd (e & He & Hid & Hl & Ho & Hr & Hs). unfold Empty. cbn in Hl.
  assert (0 < blen d).
  { unfold blen. destruct d; [by destruct (K_nonempty _ HK [] Hd)|]. cbn. lia. }
  apply Z.eqb_neq. lia.
Qed.


(** The repository after a flush of a non-empty packer. *)
Lemma flush_run clk r :
  Empty (r_packer r) = false →
  ∃ b' res, b_Put (newContainerKey (p_region (r_packer r)) (r_rand r (r_drawn r)))
              (p_buf (r_packer r)) (mkPutOpts false) (r_Backend r) = (res, b') ∧
  match res with
  | Err e => flushPacker clk r = (Err e, set_packer (r_packer r)
               (set_Backend b' (set_drawn (S (r_drawn r)) r)))
  | Ok _ => ∃ d', flushPacker clk r = (Ok tt, set_DB d' (set_packer
               (mkPacker (p_region (r_packer r)) (p_sealSize (r_packer r)) (p_align (r_packer r)) [] [])
               (set_Backend b' (set_drawn (S (r_drawn r)) r)))) ∧
      same_meta (r_DB r) d' ∧
      let locs := seal_locators (newContainerKey (p_region (r_packer r)) (r_rand r (r_drawn r)))
                    (p_pending (r_packer r)) in
      ∀ id, (locs !! id = None ∧ GetLocator (r_Region r) id d' = GetLocator (r_Region r) id (r_DB r)) ∨
            ∃ loc, locs !! id = Some loc ∧ GetLocator (r_Region r) id d' = Some loc
  end.
Proof.
  intros He. unfold flushPacker, mbind, M_bind, sealPacker. rewrite He. unfold draw.
  cbn [r_Backend r_packer set_drawn]. unfold Seal. unfold Empty in He. rewrite He.
  destruct (b_Put _ _ _ _) as [[oi|e] b'] eqn:Hput; exists b'; eexists; (split; [done|]); [|done].
  unfold putLocators. set (locs := seal_locators _ _).
  destruct (putLocators_run (map_to_list locs) clk
    (set_packer (mkPacker (p_region (r_packer r)) (p_sealSize (r_packer r)) (p_align (r_packer r)) [] [])
       (set_Backend b' (set_drawn (S (r_drawn r)) r)))) as (d' & -> & Hm & Hl).
  exists d'. split_and!; [done|done|]. cbn zeta. intros id.
  destruct (Hl id) as [[E Hni]|(loc & Hin & E)].
  - left. split; [|done]. apply not_elem_of_list_to_map in Hni. by rewrite list_to_map_to_list in Hni.
  - right. exists loc. split; [|done]. by apply elem_of_map_to_list.
Qed.

(** What the locators of a sealed container point at. *)
Lemma sealed_chunk r key b' id loc :
  repo_inv K N r → b_object key b' = Some (p_buf (r_packer r)) →
  seal_locators key (p_pending (r_packer r)) !! id = Some loc →
  ∃ d, K d ∧ Sum d = id ∧ stored_at loc d b'.
Proof.
  intros Hi Hobj (e & He & <- & ->)%seal_locators_in.
  pose proof (ri_pending _ _ _ Hi) as Hp. rewrite Forall_forall in Hp.
  destruct (Hp e He) as (d & Kd & Hid & Hl & Ho & Hr & Hs). exists d. split_and!; [done|done|].
  exists (p_buf (r_packer r)). by split_and!.
Qed.

(** Adding or replacing locators by valid ones keeps every chunk. *)
Lemma has_chunk_new_locators (r r' : repo) :
  repo_inv K N r → r_Region r' = r_Region r →
  (∀ key d, b_object key (r_Backend r) = Some d → b_object key (r_Backend r') = Some d) →
  (∀ id, GetLocator (r_Region r) id (r_DB r') = GetLocator (r_Region r) id (r_DB r) ∨
     ∃ loc d, GetLocator (r_Region r) id (r_DB r') = Some loc ∧ K d ∧ Sum d = id
              ∧ stored_at loc d (r_Backend r')) →
  ∀ d, K d → has_chunk r d → has_chunk r' d.
Proof.
  intros Hi Hreg Hg Hl d Kd (loc & Hloc & Hst). unfold has_chunk. rewrite Hreg.
  destruct (Hl (Sum d)) as [E|(loc' & d' & E & Kd' & HS & Hst')].
  - exists loc. rewrite E. split; [done|]. by eapply stored_grow.
  - exists loc'. split; [done|]. by rewrite <- (K_inj _ HK d' d Kd' Kd HS).
Qed.

(** Rebuild the invariant after objects and valid locators were added. *)
Lemma inv_grow (r r' : repo) :
  repo_inv K N r → r_Region r' = r_Region r →
  (∀ key d, b_object key (r_Backend r) = Some d → b_object key (r_Backend r') = Some d) →
  (∀ mid data, b_object (manifestKey mid) (r_Backend r') = Some data → K data ∧ Sum256 data = mid) →
  (∀ id, GetLocator (r_Region r) id (r_DB r') = GetLocator (r_Region r) id (r_DB r) ∨
     ∃ loc d, GetLocator (r_Region r) id (r_DB r') = Some loc ∧ K d ∧ Sum d = id
              ∧ stored_at loc d (r_Backend r')) →
  Forall (λ e, ∃ d, K d ∧ entry_for (p_buf (r_packer r')) e (chunk_of d)) (p_pending (r_packer r')) →
  p_region (r_packer r') = p_region (r_packer r) → fresh_names N r' → repo_inv K N r'.
Proof.
  intros Hi Hreg Hg Hm Hl Hp Hpr Hf. split; [|done|done| |done].
  - intros id loc. rewrite Hreg. destruct (Hl id) as [->|(loc' & d & -> & Kd & HS & Hst)].
    + intros (d & Kd & HS & Hst)%(ri_locators _ _ _ Hi). exists d. split_and!; [done..|].
      by eapply stored_grow.
    + intros [= <-]. by exists d.
  - rewrite Hpr, Hreg. apply (ri_region _ _ _ Hi).
Qed.

(** A step that changes only the backend and the count of names drawn. *)
Lemma inv_backend (r r' : repo) b' n :
  repo_inv K N r → r' = set_packer (r_packer r) (set_Backend b' (set_drawn n r)) → (r_drawn r <= n)%nat →
  (∀ key d, b_object key (r_Backend r) = Some d → b_object key b' = Some d) →
  (∀ mid data, b_object (manifestKey mid) b' = Some data → K data ∧ Sum256 data = mid) →
  (∀ i, (n <= i < N)%nat → b_object (newContainerKey (r_Region r) (r_rand r i)) b' = None) →
  repo_inv K N r' ∧ extends K r r'.
Proof.
  intros Hi -> Hn Hg Hman Hfr. set (r' := set_packer _ _).
  assert (∀ d, K d → has_chunk r d → has_chunk r' d) as Hch.
  { apply (has_chunk_new_locators r r' Hi); try done. by left. }
  split.
  - apply (inv_grow r); try done; [by left|apply (ri_pending _ _ _ Hi)|].
    split; [done|]. apply (ri_fresh _ _ _ Hi).
  - split; try done. intros d Kd [?|?]; [left; auto|by right].
Qed.

Lemma flush_steps clk r :
  repo_inv K N r →
  steps K N (flushPacker clk) r (λ _ r', ∀ d, K d → avail r d → has_chunk r' d).
Proof.
  intros Hi res r' Hrun HN. destruct (Empty (r_packer r)) eqn:He.
  { rewrite flush_empty in Hrun by done. injection Hrun as <- <-. split_and!; [done|apply extends_refl|].
    intros d Kd [?|Hp]; [done|]. by rewrite (pending_nonempty r d Kd Hp) in He. }
  destruct (flush_run clk r He) as (b' & pres & Hput & Hcase). rewrite (ri_region _ _ _ Hi) in Hput.
  assert (r_drawn r' = S (r_drawn r)) as Hdr.
  { destruct pres; [destruct Hcase as (d' & Hcase & _)|]; rewrite Hcase in Hrun; by injection Hrun as <- <-. }
  destruct (put_fresh r _ _ _ _ Hi ltac:(lia) Hput) as (Hg & Hman & Hfr & Hobj).
  assert (∀ mid data, b_object (manifestKey mid) b' = Some data → K data ∧ Sum256 data = mid) as Hman'.
  { intros mid data. rewrite Hman. apply (ri_manifests _ _ _ Hi). }
  destruct pres as [oi|e].
  2:{ rewrite Hcase in Hrun. injection Hrun as <- <-.
      destruct (inv_backend r _ b' (S (r_drawn r)) Hi eq_refl) as [? ?]; try done. lia. }
  destruct Hcase as (d' & Hrun' & Hm & Hl). rewrite Hrun' in Hrun. injection Hrun as <- <-.
  specialize (Hobj eq_refl). cbn zeta in Hl. rewrite (ri_region _ _ _ Hi) in *. set (r' := set_DB d' _) in *.
  assert (∀ id, GetLocator (r_Region r) id d' = GetLocator (r_Region r) id (r_DB r) ∨
    ∃ loc d, GetLocator (r_Region r) id d' = Some loc ∧ K d ∧ Sum d = id ∧ stored_at loc d b') as Hl'.
  { intros id. destruct (Hl id) as [[_ E]|(loc & Hsl & E)]; [by left|]. right.
    destruct (sealed_chunk r _ b' id loc Hi Hobj Hsl) as (d & Kd & HS & Hst). by exists loc, d. }
  assert (∀ d, K d → avail r d → has_chunk r' d) as Hav.
  { intros d Kd [Hc|(e & Hin & Hid & _)]; [by apply (has_chunk_new_locators r r' Hi)|].
    destruct (Hl (Sum d)) as [[E _]|(loc & Hsl & E)].
    - destruct (seal_locators_dom (newContainerKey (r_Region r) (r_rand r (r_drawn r))) _ _ Hin)
        as [loc Hloc]. cbn in Hid. by rewrite Hid, E in Hloc.
    - destruct (sealed_chunk r _ b' _ loc Hi Hobj Hsl) as (d2 & Kd2 & HS & Hst).
      exists loc. split; [done|]. by rewrite <- (K_inj _ HK d2 d Kd2 Kd HS). }
  split_and!; [| |done].
  - apply (inv_grow r); try done.
    + by rewrite (ri_region _ _ _ Hi).
    + split; [done|]. apply (ri_fresh _ _ _ Hi).
  - split; try done; [by intros; apply Hav; [|left]|by left; apply Hav|rewrite Hdr; lia].
Qed.

(** ** Storing a chunk *)

(** A chunk that has a locator is stored. *)
Lemma located_chunk r d loc :
  repo_inv K N r → K d → GetLocator (r_Region r) (Sum d) (r_DB r) = Some loc → has_chunk r d.
Proof.
  intros Hi Kd Hl. destruct (ri_locators _ _ _ Hi _ _ Hl) as (d' & Kd' & HS & Hst).
  exists loc. split; [done|]. by rewrite <- (K_inj _ HK d' d Kd' Kd HS).
Qed.

(** A chunk of a large file goes to an object of its own. *)
Lemma storeSingle_steps d clk r :
  repo_inv K N r → K d →
  steps K N (region ← gets r_Region; rnd ← draw;
             loc ← onBackend (PutSingleObject region (chunk_of d) rnd);
             onDB (PutLocator region (Sum d) loc clk)) r (λ _ r', has_chunk r' d).
Proof.
  intros Hi Kd res r'. unfold mbind, M_bind, gets, draw, onBackend, onDB, zoom, PutSingleObject.
  unfold mbind, M_bind. cbn [r_Backend set_drawn r_DB set_Backend c_Data chunk_of].
  destruct (b_Put _ _ _ (r_Backend r)) as [[oi|e] b'] eqn:Hput; cbn [mret M_ret].
  2:{ intros [= <- <-] HN. cbn in HN. destruct (put_fresh r _ _ _ _ Hi ltac:(lia) Hput) as (Hg & Hman & Hfr & _).
      destruct (inv_backend r (set_Backend b' (set_drawn (S (r_drawn r)) r)) b' (S (r_drawn r)) Hi)
        as [? ?]; try done; [lia|]. intros mid data. rewrite Hman. apply (ri_manifests _ _ _ Hi). }
  destruct (PutLocator_run (r_Region r) (Sum d)
    (mkLocator (newContainerKey (r_Region r) (r_rand r (r_drawn r))) 0 (blen d)) clk (r_DB r))
    as (d' & Hpl & Hm & Hl).
  cbn [r_DB set_Backend set_drawn mret M_ret]. rewrite Hpl. intros [= <- <-] HN. cbn in HN.
  destruct (put_fresh r _ _ _ _ Hi ltac:(lia) Hput) as (Hg & Hman & Hfr & Hobj). specialize (Hobj eq_refl).
  set (r' := set_DB d' _).
  assert (∀ id, GetLocator (r_Region r) id d' = GetLocator (r_Region r) id (r_DB r) ∨
    ∃ loc dd, GetLocator (r_Region r) id d' = Some loc ∧ K dd ∧ Sum dd = id ∧ stored_at loc dd b') as Hl'.
  { intros id. rewrite (GetLocator_put _ _ id _ _ _ Hl). case_decide; [subst|by left].
    right. eexists _, d. split_and!; [done|done|done|].
    exists d. cbn. split_and!; [done|done|done|lia|apply slice_all]. }
  assert (∀ dd, K dd → has_chunk r dd → has_chunk r' dd) as Hch
    by (by apply (has_chunk_new_locators r r' Hi)).
  assert (repo_inv K N r') as Hi'.
  { apply (inv_grow r); try done; [|apply (ri_pending _ _ _ Hi)|split; [done|apply (ri_fresh _ _ _ Hi)]].
    intros mid data. change (r_Backend r') with b'. rewrite Hman. apply (ri_manifests _ _ _ Hi). }
  split_and!; [done| |].
  - split; try done; [|cbn; lia]. intros dd Kdd [?|?]; [left; auto|by right].
  - eapply (located_chunk r'); [done..|]. cbn. rewrite (GetLocator_put _ _ _ _ _ _ Hl).
    by rewrite decide_True.
Qed.

(** The entry [Add] records is right. *)
Lemma Add_entry c (p : Packer) :
  entry_for (p_buf (Add c p)) (mkPending (c_ID c) (blen (pad_buf (p_align p) (p_buf p))) (blen (c_Data c))) c.
Proof.
  pose proof (blen_nonneg (c_Data c)). pose proof (blen_nonneg (pad_buf (p_align p) (p_buf p))).
  unfold entry_for, Add. cbn. rewrite blen_app. split_and!; try done; try lia. by apply slice_app_r.
Qed.

Lemma Add_keeps_entry c e c' (p : Packer) : entry_for (p_buf p) e c' → entry_for (p_buf (Add c p)) e c'.
Proof.
  intros He. destruct (pad_buf_app (p_align p) (p_buf p)) as [z Hz].
  unfold Add. cbn [p_buf]. rewrite Hz, <- app_assoc. by apply entry_for_app.
Qed.

(** Other chunks are packed. *)
Lemma addChunk_steps d r :
  repo_inv K N r → K d →
  steps K N (modify (λ r, set_packer (Add (chunk_of d) (r_packer r)) r)) r (λ _ r', pending_chunk r' d).
Proof.
  intros Hi Kd res r' [= <- <-] HN. split_and!.
  - apply (inv_grow r); try done; [apply (ri_manifests _ _ _ Hi)|by left| |apply (ri_fresh _ _ _ Hi)].
    apply Forall_app. split.
    + eapply Forall_impl; [apply (ri_pending _ _ _ Hi)|]. intros e (dd & ? & ?). exists dd.
      split; [done|]. by apply Add_keeps_entry.
    + apply Forall_singleton. exists d. split; [done|]. apply (Add_entry (chunk_of d)).
  - split; try done. intros dd Kdd [?|(e & He & Hent)]; [by left|]. right. exists e.
    split; [apply elem_of_app; by left|by apply Add_keeps_entry].
  - eexists. split; [apply elem_of_app; right; by apply list_elem_of_singleton|].
    apply (Add_entry (chunk_of d)).
Qed.

Lemma steps_gets {A C} (f : repo → A) (k : A → M repo C) r Q :
  steps K N (k (f r)) r Q → steps K N (gets f ≫= k) r Q.
Proof. done. Qed.

Lemma storeChunk_steps d so clk r :
  repo_inv K N r → K d → steps K N (storeChunk (chunk_of d) so clk) r (λ _ r', avail r' d).
Proof.
  intros Hi Kd. unfold storeChunk. apply steps_gets. unfold HasLocator. cbn [c_ID chunk_of].
  destruct (GetLocator (r_Region r) (Sum d) (r_DB r)) as [loc|] eqn:Hl.
  { apply steps_ret; [done|]. left. by eapply located_chunk. }
  destruct so.
  - eapply steps_mono; [by apply storeSingle_steps|]. cbn. intros ? r' ? Hc. by left.
  - eapply steps_bind; [by apply addChunk_steps| |].
    { intros _. apply draws_bind; [by apply draws_pure|]. intros [|]; [apply draws_flush|by apply draws_pure]. }
    cbn. intros ? r1 Hi1 ? Hp. apply steps_gets. destruct (Full (r_packer r1)).
    + eapply steps_mono; [by apply flush_steps|]. cbn. intros ? r' ? Hav. left. apply Hav; [done|by right].
    + apply steps_ret; [done|by right].
Qed.

Lemma storeChunks_steps (ds : list bytes) so clk r :
  repo_inv K N r → Forall K ds →
  steps K N (each (λ c, storeChunk c so clk) (chunk_of <$> ds)) r (λ _ r', Forall (avail r') ds).
Proof.
  revert r. induction ds as [|d ds IH]; intros r Hi HKs.
  { apply steps_ret; [done|by constructor]. }
  apply Forall_cons in HKs as [Kd Kds]. cbn [each fmap list_fmap].
  eapply steps_bind; [by apply storeChunk_steps| |].
  { intros _. apply draws_each. intros c. apply draws_storeChunk. }
  cbn. intros ? r1 Hi1 ? Hd. eapply steps_mono; [by apply IH|]. cbn. intros ? r' Hx Hds.
  constructor; [|done]. by apply (ex_avail _ _ _ Hx).
Qed.

(** ** Manifests *)

(** Putting a manifest under its key, with any options. *)
Lemma put_manifest_object m o r pres b' :
  repo_inv K N r → manifest_ok m → K (EncodeBytes m) →
  b_Put (manifestKey (Manifest_ID m)) (EncodeBytes m) o (r_Backend r) = (pres, b') →
  repo_inv K N (set_Backend b' r) ∧ extends K r (set_Backend b' r) ∧
  (is_ok pres = true ∨ pres = Err OsErrExist → has_manifest (set_Backend b' r) (Manifest_ID m) m).
Proof.
  intros Hi Hm Km Hput.
  assert (∀ o, b_object (manifestKey (Manifest_ID m)) (r_Backend r) = Some o → o = EncodeBytes m) as Hsame.
  { intros x Ho. apply (ri_manifests _ _ _ Hi) in Ho as [Ko HS]. by apply (K_inj _ HK). }
  assert (∀ k, b_object k b' = b_object k (r_Backend r) ∨
    (k = manifestKey (Manifest_ID m) ∧ b_object k b' = Some (EncodeBytes m))) as Hob.
  { intros k. destruct pres as [oi|e].
    - rewrite (b_Put_ok _ _ _ _ _ _ k Hput). case_decide; [by right|by left].
    - by eapply b_Put_err. }
  assert (repo_inv K N (set_Backend b' r) ∧ extends K r (set_Backend b' r)) as [Hi' Hx].
  { apply (inv_backend r (set_Backend b' r) b' (r_drawn r) Hi); [by destruct r|done| | |].
    - intros k x Ho. destruct (Hob k) as [->|[-> ->]]; [done|]. by rewrite (Hsame x Ho).
    - intros mid data Ho. destruct (Hob (manifestKey mid)) as [E|[E1 E2]].
      + rewrite E in Ho. by apply (ri_manifests _ _ _ Hi).
      + apply manifestKey_inj in E1 as ->. rewrite E2 in Ho. by injection Ho as <-.
    - intros i Hir. destruct (Hob (newContainerKey (r_Region r) (r_rand r i))) as [->|[E _]].
      + by apply (ri_fresh _ _ _ Hi).
      + by apply container_not_manifest in E. }
  split_and!; [done|done|]. intros Hres.
  assert (b_object (manifestKey (Manifest_ID m)) b' = Some (EncodeBytes m)) as E.
  { destruct pres as [oi|e].
    - rewrite (b_Put_ok _ _ _ _ _ _ _ Hput). by rewrite decide_True.
    - destruct Hres as [?|[= ->]]; [done|]. destruct (b_Put_exist _ _ _ _ _ Hput) as [_ [x Ho]].
      destruct (b_Put_err _ _ _ _ _ _ (manifestKey (Manifest_ID m)) Hput) as [->|[_ ?]]; [|done].
      by rewrite Ho, (Hsame x Ho). }
  exists (EncodeBytes m). split; [done|].
  rewrite EncodeBytes_ok, <- (app_nil_r (manifest_bytes m)) by done. by apply decode_manifest_bytes.
Qed.

Lemma putManifest_steps m r :
  repo_inv K N r → manifest_ok m → K (EncodeBytes m) →
  steps K N (putManifest m) r (λ mid r', mid = Manifest_ID m ∧ has_manifest r' mid m).
Proof.
  intros Hi Hm Km res r'. unfold putManifest, mbind, M_bind. rewrite attempt_run.
  unfold onBackend, zoom. destruct (b_Put _ _ _ _) as [pres b'] eqn:Hput. cbn [fst snd].
  destruct (put_manifest_object m _ r pres b' Hi Hm Km Hput) as (Hi' & Hx & Hhas).
  destruct pres as [oi|e].
  - intros [= <- <-] _. split_and!; [done..|]. apply Hhas. by left.
  - case_bool_decide as Ee.
    + intros [= <- <-] _. split_and!; [done..|]. apply Hhas. right. by subst.
    + intros [= <- <-] _. by split_and!.
Qed.

(** ** Storing content *)

Lemma pieces_of_concat size content : concat (pieces_of size content) = content.
Proof.
  apply concat_pieces; [|lia]. destruct (Z.leb_spec size 0); [|lia].
  unfold DefaultSize. change (Z.shiftl 4 20) with 4194304. lia.
Qed.

Lemma pieces_of_bound size content :
  0 < size → Forall (λ p, blen p <= size) (pieces_of size content).
Proof.
  intros Hs. unfold pieces_of. rewrite (proj2 (Z.leb_gt _ _)) by done.
  eapply Forall_impl; [apply (pieces_bound (S (length content)) (Z.to_nat size) content); lia|].
  cbn. intros p Hp. unfold blen. lia.
Qed.

Lemma New_ok (cs : list Chunk) hint : Z.of_nat (length cs) < 2 ^ 32 → manifest_ok (New cs hint).
Proof.
  intros Hn. unfold manifest_ok, New. cbn. split_and!; [done| |apply Z.mod_pos_bound; lia|by rewrite length_fmap|].
  - destruct cs as [|c cs'] using rev_ind; [done|]. rewrite foldl_app. cbn. apply u64_range.
  - apply Forall_fmap, Forall_forall. intros c _. split; cbn; unfold in_u32; [apply Z.mod_pos_bound; lia|unfold FlagNone; lia].
Qed.

Lemma New_entries (ds : list bytes) hint :
  Forall (λ d, blen d < 2 ^ 32) ds → Forall2 entry_of (m_Entries (New (chunk_of <$> ds) hint)) ds.
Proof.
  intros Hds. unfold New. cbn. induction Hds as [|d ds Hd Hds IH]; [constructor|].
  cbn. constructor; [|done]. split; cbn; [done|]. apply u32_id. unfold in_u32.
  pose proof (blen_nonneg d). lia.
Qed.

(** The record a manifest gives. *)
Lemma manifest_content r content rec :
  repo_inv K N r → storable K r content → Forall (avail r) (pieces_of (r_ChunkSize r) content) →
  steps K N (mid ← putManifest (manifest_of (r_ChunkSize r) content);
             mret (mkContentRef (u64 (blen content)) false zeroID true mid)) r
    (λ c r', content_of (avail r') r' (apply c rec) (pieces_of (r_ChunkSize r) content)).
Proof.
  intros Hi [Hcs Hsz Hct Hps Hman] Hav. pose proof (blen_nonneg content).
  eapply steps_bind; [apply putManifest_steps; [done| |done]|intros; by apply draws_pure|].
  { apply New_ok. by rewrite length_fmap. }
  cbv beta. intros mid r1 Hi1 Hx [-> Hm]. apply steps_ret; [done|].
  unfold content_of.
  cbn [Size apply set_content cr_size cr_hasInline cr_hasManifest cr_manifestID HasInline HasManifest ManifestID].
  rewrite pieces_of_concat, u64_id by (unfold in_u64; lia).
  split_and!; [done|done| |].
  - rewrite Forall_forall in *. intros d Hd. apply (ex_avail _ _ _ Hx); auto.
  - eexists. split; [done|]. apply New_entries. eapply Forall_impl; [apply pieces_of_bound; lia|].
    cbn. lia.
Qed.

Lemma steps_of_result {A C} (a : A) (k : A → M repo C) r Q :
  steps K N (k a) r Q → steps K N (of_result (Ok a) ≫= k) r Q.
Proof. done. Qed.

Lemma SplitAll_pieces_of content size :
  SplitAll (bytes_reader content) size = Ok (chunk_of <$> pieces_of size content).
Proof. apply SplitBytes_pieces. Qed.

Lemma storeContent_steps content clk r rec :
  repo_inv K N r → storable K r content →
  steps K N (storeContent (bytes_reader content) (blen content) clk) r
    (λ c r', content_of (avail r') r' (apply c rec) (pieces_of (r_ChunkSize r) content)).
Proof.
  intros Hi Hst. unfold storeContent. destruct (Z.eqb_spec (blen content) 0) as [E|Hne].
  { apply steps_ret; [done|]. destruct content; [|unfold blen in E; cbn in E; lia].
    unfold content_of, pieces_of. cbn. by split_and!. }
  apply steps_gets. rewrite SplitAll_pieces_of. apply steps_of_result.
  set (cs := chunk_of <$> pieces_of (r_ChunkSize (id r)) content).
  eapply steps_bind; [apply storeChunks_steps; [done|apply (st_pieces _ _ _ Hst)]| |].
  { intros _. unfold cs. destruct (chunk_of <$> _) as [|c [|c' cs']];
      [|destruct (negb _); [by apply draws_pure|]|];
      (apply draws_bind; [apply draws_putManifest|]; intros; by apply draws_pure). }
  cbv beta. intros _ r1 Hi1 Hx Hav.
  assert (r_ChunkSize r1 = r_ChunkSize r) as Ecs by (by destruct (ex_config _ _ _ Hx)).
  assert (storable K r1 content) as Hst1 by (destruct Hst; split; by rewrite ?Ecs).
  pose proof (manifest_content r1 content rec Hi1 Hst1) as Hman. rewrite Ecs in Hman. specialize (Hman Hav).
  unfold cs, manifest_of in *. change (id r) with r in *.
  pose proof (pieces_of_concat (r_ChunkSize r) content) as Hcat. pose proof (blen_nonneg content).
  destruct (pieces_of (r_ChunkSize r) content) as [|d [|d' ds]]; [exact Hman| |exact Hman].
  cbn [fmap list_fmap] in *. destruct (negb _); [|exact Hman].
  apply steps_ret; [done|]. unfold content_of.
  cbn [Size apply set_content cr_size cr_hasInline cr_inlineChunk HasInline InlineChunk].
  rewrite Hcat, u64_id by (destruct Hst; unfold in_u64; lia).
  split_and!; [done|apply (st_size _ _ _ Hst)|done|by exists d].
Qed.

(** ** Readability *)

Lemma content_of_mono (P Q : bytes → Prop) r r' rec ds :
  (∀ key data, b_object key (r_Backend r) = Some data → b_object key (r_Backend r') = Some data) →
  (∀ d, d ∈ ds → P d → Q d) → content_of P r rec ds → content_of Q r' rec ds.
Proof.
  intros Hg HPQ (Hs & Hlt & Hds & Hk). split_and!; [done|done| |].
  - rewrite Forall_forall in *. auto.
  - destruct (HasInline rec); [done|]. destruct (HasManifest rec); [|done].
    destruct Hk as (m & (data & Ho & Hd) & Hes). exists m. split; [|done]. exists data. auto.
Qed.

(** What could be read can still be read after a step of the storage path. *)
Lemma readable_extends r r' rec ds :
  extends K r r' → Forall K ds → readable r rec ds → readable r' rec ds.
Proof.
  intros Hx HKs. apply content_of_mono; [apply (ex_objects _ _ _ Hx)|].
  intros d Hd. apply (ex_chunks _ _ _ Hx). rewrite Forall_forall in HKs. auto.
Qed.

(** Storing content and flushing makes it readable. *)
Lemma store_flush_steps content clk r rec :
  repo_inv K N r → storable K r content →
  steps K N (c ← storeContent (bytes_reader content) (blen content) clk;
             flushPacker clk ≫= λ _, mret c) r
    (λ c r', readable r' (apply c rec) (pieces_of (r_ChunkSize r) content)).
Proof.
  intros Hi Hst. eapply steps_bind; [by apply (storeContent_steps content clk r rec)| |].
  { intros c. apply draws_bind; [apply draws_flush|]. intros _. by apply draws_pure. }
  cbv beta. intros c r1 Hi1 Hx1 Hc. eapply steps_bind; [by apply flush_steps|intros; by apply draws_pure|].
  cbv beta. intros _ r2 Hi2 Hx2 Hav. apply steps_ret; [done|].
  eapply content_of_mono; [apply (ex_objects _ _ _ Hx2)| |exact Hc].
  intros d Hd Ha. apply Hav; [|done]. pose proof (st_pieces _ _ _ Hst) as Hps.
  rewrite Forall_forall in Hps. auto.
Qed.
End store_path.
