(* ===== verification/RepoThm.v ===== *)
(** pkg/repo: what a caller of the repository can rely on.

    The theorems put the parts together: a committed file reads back as it
    was written and every other file is still there, a failed commit is
    invisible, and every change tells the lease manager. *)
From S2P Require Import Prelude Bolt Chunk Manifest Store Pack MetaDB MetaSpec MetaRefine MetaTree.
From S2P Require Import MetaInv Coherence RepoUtil Repo RepoRead RepoStore.

(** The parts of the metadata store that describe storage. *)
Record same_storage {bucket} (d d' : DB bucket) : Prop := mkSameStorage {
  ss_locator : bLocator d' = bLocator d;
  ss_deadcnt : bDeadCnt d' = bDeadCnt d;
  ss_container : bContainer d' = bContainer d
}.

(** The operations on names, inodes and quotas. *)
Definition ns_op (o : op) : bool :=
  match o with
  | OPutLocator _ _ _ _ | ODeleteLocator _ _ | OForgetContainer _ | OMarkContainerDead _ _
  | ORemoveDeadContainer _ => false
  | _ => true
  end.

Section statements.
Context {bucket : Type → Type} {B : Type} {callback handler : Type}.
Abbreviation repo := (Repo bucket B callback handler).

(** [m] does not touch storage. *)
Definition no_storage {A} (m : M (DB bucket) A) : Prop := ∀ d0, keeps (same_storage d0) m.

(** The repository with another namespace, or told its lease manager. *)
Definition same_store (r r' : repo) : Prop :=
  r_Region r' = r_Region r ∧ r_Backend r' = r_Backend r ∧ r_packer r' = r_packer r ∧
  r_rand r' = r_rand r ∧ r_drawn r' = r_drawn r ∧ r_ChunkSize r' = r_ChunkSize r ∧
  same_storage (r_DB r) (r_DB r').

(** Bumping versions. *)
Definition bumped (keys dirs : list bytes) (r : repo) : repo :=
  set_Coherence ((λ m, fold_left (λ m k, (Bump k m).2) keys
                        (fold_left (λ m k, (BumpDir k m).2) dirs m)) <$> r_Coherence r)
    (set_fired (r_fired r ++ (keys ≫= λ k, fired_by k r)) r).

(** The record [Commit] builds before the content is put into it. *)
Definition commit_record (h : WriteHandle) (now : time) : InodeRecord :=
  file_record (commit_mode h) (o_Uid (wh_owner h)) (o_Gid (wh_owner h)) now.

(** Two records with the same content. *)
Definition same_content (rec rec' : InodeRecord) : Prop :=
  Size rec' = Size rec ∧ HasInline rec' = HasInline rec ∧ InlineChunk rec' = InlineChunk rec
  ∧ HasManifest rec' = HasManifest rec ∧ ManifestID rec' = ManifestID rec.

End statements.

Section frame.
Context `{BoltLaws bucket}.
Implicit Types d tx : DB bucket.

Lemma no_storage_modify (g : DB bucket → DB bucket) :
  (∀ d, same_storage d (g d)) → no_storage (modify g).
Proof. intros Hg d0 d [E1 E2 E3]. cbn. destruct (Hg d). split; congruence. Qed.

Lemma ns_op_storage o tx : ns_op o = true → same_storage tx (run_op o tx).2.
Proof.
  intros Ho. assert (no_storage (run_op (bucket := bucket) o)) as Hn; [|by apply Hn].
  intros d0. destruct o; try discriminate Ho; cbn [run_op]; unfold CommitFile, commitFileTx, PublishFile,
    publishFileTx, CommitMkdir, commitMkdirTx, RemoveEntry, removeEntryTx, Link, linkTx, Rename, renameTx,
    SetAttr, UpdateInodeContent, DeleteInode, RemoveGraveyardEntry, SetQuotaLimits,
    requireDir, requireAbsent, applyQuotaDeltaTx, putInode, putQuotaTx, setDentryTx,
    touchDirTx, adjustDirLinksTx, dropLinkTx, deleteDentryTx, addToGraveyardTx, renameDisplace,
    renameTargetOk, deleteDentryTx, putInode, putQuotaTx;
    repeat first [apply no_storage_modify; by intros ? | keep].
  all: try (unfold dropLinkTx, applyQuotaDeltaTx, putInode, putQuotaTx, addToGraveyardTx;
            repeat first [apply no_storage_modify; by intros ? | keep]).
  - intros tx' Hs. destruct (bk_get metaKeyClass _); [done|]. destruct Hs. by split.
  - intros tx' Hs. destruct (bk_get metaKeyChunkSize _); [done|]. destruct Hs. by split.
Qed.

(** Dropping the result of a method does not change what it does. *)
Lemma drop_result {S A} (m : M S A) s : ((m ≫= λ _, mret tt) s).2 = (m s).2.
Proof. unfold mbind, M_bind. by destruct (m s) as [[a|e] s']. Qed.

Lemma same_meta_view d d' : same_meta d d' → view d' = view d.
Proof.
  intros []. by apply view_ext.
Qed.

Lemma same_storage_locator d d' region id :
  same_storage d d' → GetLocator region id d' = GetLocator region id d.
Proof. intros [E _ _]. unfold GetLocator. by rewrite E. Qed.
End frame.

Section metadata.
Context {bucket : Type → Type} `{BoltLaws bucket} {B : Type} `{BackendLaws B} {blake3 : Blake3}.
Context {callback handler : Type}.
Abbreviation repo := (Repo bucket B callback handler).
Context (K : bytes → Prop) (N : nat).
Implicit Types r : repo.

Lemma same_store_set_DB r d : same_storage (r_DB r) d → same_store r (set_DB d r).
Proof. intros Hs. by split_and!. Qed.

Lemma same_store_refl r : same_store r r.
Proof. by split_and!. Qed.

Lemma same_store_trans r1 r2 r3 : same_store r1 r2 → same_store r2 r3 → same_store r1 r3.
Proof.
  intros (E1 & E2 & E3 & E4 & E5 & E6 & []) (F1 & F2 & F3 & F4 & F5 & F6 & []).
  repeat split; congruence.
Qed.

Lemma same_store_chunk r r' d : same_store r r' → has_chunk r d → has_chunk r' d.
Proof.
  intros (E1 & E2 & _ & _ & _ & _ & Hs) (loc & Hl & Hst). exists loc.
  rewrite E1, E2, (same_storage_locator _ _ _ _ Hs). done.
Qed.

Lemma same_store_readable r r' rec ds : same_store r r' → readable r rec ds → readable r' rec ds.
Proof.
  intros Hs. apply content_of_mono.
  - destruct Hs as (_ & -> & _). done.
  - intros d _. by apply same_store_chunk.
Qed.

Lemma same_store_inv r r' : same_store r r' → repo_inv K N r → repo_inv K N r'.
Proof.
  intros (E1 & E2 & E3 & E4 & E5 & _ & Hs) [Hl Hm Hp Hr [Hf Hinj]]. split.
  - intros id loc. rewrite E1, E2, (same_storage_locator _ _ _ _ Hs). apply Hl.
  - rewrite E2. done.
  - by rewrite E3.
  - by rewrite E1, E3.
  - unfold fresh_names. by rewrite E1, E2, E4, E5.
Qed.


Lemma bump_run key r : bump key r = (Ok tt, bumped [key] [] r).
Proof. unfold bump, modify, bumped. cbn. by rewrite app_nil_r. Qed.

Lemma bumpDirEntries_run d r :
  bumpDirEntries d r
  = (Ok tt, bumped [DirCoherenceKey d; InodeCoherenceKey d] [DirCoherenceKey d] r).
Proof.
  unfold bumpDirEntries, mbind, M_bind, modify. cbn [fst snd]. rewrite !bump_run. cbn [fst snd].
  unfold bumped. cbn -[Bump BumpDir]. rewrite !app_nil_r, <- app_assoc. unfold fired_by. cbn [r_Coherence set_Coherence set_fired].
  by destruct r as [? ? ? ? [m|]].
Qed.

Lemma same_store_bumped ks ds r : same_store r (bumped ks ds r).
Proof. by split_and!. Qed.

Lemma bumped_DB ks ds r : r_DB (bumped ks ds r) = r_DB r.
Proof. done. Qed.

Lemma onDB_Ok {A} (m : M (DB bucket) A) r a r' :
  onDB m r = (Ok a, r') → ∃ d, m (r_DB r) = (Ok a, d) ∧ r' = set_DB d r.
Proof. unfold onDB, zoom. destruct (m (r_DB r)) as [res d]. intros [= -> <-]. by exists d. Qed.

Lemma onDB_view {A} (f : DB bucket → result A) r : onDB (View f) r = (f (r_DB r), r).
Proof. unfold onDB, zoom, View. by destruct r. Qed.

Lemma commitTarget_run h r : (commitTarget h r).2 = r.
Proof.
  unfold commitTarget, mbind, M_bind. rewrite attempt_run. unfold Lookup, GetInode. rewrite onDB_view.
  cbn [fst snd]. destruct (lookupTx _ _ _) as [i|e].
  - rewrite onDB_view. destruct (getInodeTx i _) as [rec|e]; [|done]. by destruct (IsDir rec).
  - by case_bool_decide.
Qed.

(** Binding the name: the store's outcome, then the lease manager. *)
Lemma commitBind_run h c now r :
  ∃ cres d, CommitFile (wh_dir h) (wh_name h) (apply c (commit_record h now)) now (r_DB r) = (cres, d) ∧
  match cres with
  | Err _ => ∃ e, commitBind h c now r = (Err e, set_DB d r)
  | Ok id => commitBind h c now r =
      (Ok id, bumped [DirCoherenceKey (wh_dir h); InodeCoherenceKey (wh_dir h)]
                [DirCoherenceKey (wh_dir h)] (bumped [InodeCoherenceKey id] [] (set_DB d r)))
  end.
Proof.
  unfold commitBind, mbind, M_bind. rewrite attempt_run. unfold onDB, zoom. fold (commit_record h now).
  destruct (CommitFile _ _ _ _ _) as [[id|e] d]; eexists _, d; (split; [done|]); cbn [fst snd]; [by rewrite bump_run, bumpDirEntries_run|].
  repeat case_bool_decide; by eexists.
Qed.

(** The stages of a commit: checks that change nothing, storing the content,
    binding the name. *)
Lemma commitOpen_run h now clk r res r' :
  commitOpen h now clk r = (res, r') →
  (is_ok res = false ∧ r' = r) ∨
  ∃ sres r1,
    (c ← storeContent (bytes_reader (wh_buf h)) (blen (wh_buf h)) clk;
     flushPacker clk ≫= λ _, mret c) r = (sres, r1) ∧
    match sres with
    | Err _ => is_ok res = false ∧ r' = r1
    | Ok c => commitBind h c now r1 = (res, r')
    end.
Proof.
  unfold commitOpen, mbind, M_bind. pose proof (commitTarget_run h r) as Ht.
  destruct (commitTarget h r) as [[old|e] r0]; cbn in Ht; subst r0; [|intros [= <- <-]; by left].
  cbn [gets]. unfold gets. destruct (CheckQuota _ _ _) as [u|e]; [|intros [= <- <-]; by left].
  intros Hrun. right.
  destruct (storeContent _ _ _ r) as [[c|e] r1]; [|injection Hrun as <- <-; by eexists _, _].
  destruct (flushPacker clk r1) as [[u'|e] r2]; [|injection Hrun as <- <-; by eexists _, _].
  by eexists _, _.
Qed.

Lemma content_same (P : bytes → Prop) r rec rec' ds :
  same_content rec rec' → content_of P r rec ds → content_of P r rec' ds.
Proof. intros (E1 & E2 & E3 & E4 & E5). unfold content_of. by rewrite E1, E2, E3, E4, E5. Qed.

Lemma created_content rec : same_content rec (created_record rec).
Proof. unfold created_record. by destruct (IsZero (ATime rec)). Qed.

(** What [CommitFile] leaves: the name is bound to the inode it returns,
    whose record has the new content; nothing else changes but the
    directory's times. *)
Lemma CommitFile_effect d n rec now tx id (tx' : DB bucket) :
  CommitFile d n rec now tx = (Ok id, tx') →
  fs_names (view tx') = <[(d, n) := id]> (fs_names (view tx)) ∧
  (∃ rec', fs_inodes (view tx') !! id = Some rec' ∧ same_content rec rec') ∧
  (∀ j, j ≠ id → j ≠ d → fs_inodes (view tx') !! j = fs_inodes (view tx) !! j) ∧
  same_storage tx tx'.
Proof.
  intros Hrun. pose proof (ns_op_storage (OCommitFile d n rec now) tx eq_refl) as Hst.
  cbn [run_op] in Hst. rewrite drop_result, Hrun in Hst. cbn in Hst.
  unfold CommitFile in Hrun. apply (proj1 (bolt_update_Ok _ _ _ _)) in Hrun.
  pose proof (commitFileTx_spec d n rec now tx) as Hspec. unfold tx_spec in Hspec.
  destruct (fs_pre (OCommitFile d n rec now) (view tx)) as [[]|e] eqn:Hpre;
    [|destruct Hspec as [tx1 E]; congruence].
  destruct Hspec as (tx1 & E & HV). rewrite Hrun in E. injection E as -> ->.
  rewrite HV. unfold commit_id. cbn [fs_effect fs_pre] in *.
  apply andThen_inv in Hpre as [Hdir Hpre]. split_and!; [| | |done].
  - destruct (fs_names (view tx) !! (d, n)) as [i|] eqn:Hn; cbn [default from_option id].
    + apply need_inode_inv in Hpre as (old & Ho & _). unfold with_inode. rewrite Ho. fsred.
      by rewrite insert_id.
    + done.
  - destruct (fs_names (view tx) !! (d, n)) as [i|] eqn:Hn; cbn [default from_option id].
    + apply need_inode_inv in Hpre as (old & Ho & _). unfold with_inode. rewrite Ho. fsred.
      rewrite lookup_insert_eq. by eexists.
    + fsred. rewrite lookup_alter. case_decide as Ed.
      * rewrite Ed, lookup_insert_eq. eexists. split; [done|].
        destruct (created_content rec) as (? & ? & ? & ? & ?). by split_and!.
      * rewrite lookup_insert_eq. eexists. split; [done|]. apply created_content.
  - intros j Hj Hjd. destruct (fs_names (view tx) !! (d, n)) as [i|] eqn:Hn; cbn [default from_option id] in *.
    + apply need_inode_inv in Hpre as (old & Ho & _). unfold with_inode. rewrite Ho. fsred.
      by rewrite lookup_insert_ne.
    + fsred. rewrite lookup_alter_ne, lookup_insert_ne by done. done.
Qed.

(** What [UpdateInodeContent] leaves. *)
Lemma UpdateInodeContent_effect i rec (tx tx' : DB bucket) :
  UpdateInodeContent i rec tx = (Ok tt, tx') →
  fs_names (view tx') = fs_names (view tx) ∧
  (∃ rec', fs_inodes (view tx') !! i = Some rec' ∧ same_content rec rec') ∧ same_storage tx tx'.
Proof.
  intros Hrun. pose proof (ns_op_storage (OUpdateInodeContent i rec) tx eq_refl) as Hst. cbn [run_op] in Hst.
  rewrite Hrun in Hst. cbn in Hst.
  pose proof (run_op_implements (OUpdateInodeContent i rec) tx eq_refl) as Himp. unfold implements in Himp. cbn [run_op fs_pre] in Himp.
  unfold need_inode in Himp. destruct (fs_inodes (view tx) !! i) as [old|] eqn:Ei; [|congruence].
  destruct Himp as (tx1 & E & Ev). assert (tx1 = tx') as -> by congruence. rewrite Ev. split_and!; [done| |done].
  cbn [fs_effect]. unfold upd_inode. cbn [fs_inodes upd_inodes]. rewrite lookup_alter_eq, Ei. cbn. eexists. split; [done|]. done.
Qed.

(** The record reads back as the file. *)
Lemma readable_reads r rec ds :
  readable r rec ds → ∃ fr fr', OpenFile rec r = Ok fr ∧ fr_ReadAll r fr = (Ok (concat ds), fr').
Proof.
  intros Hr. destruct (OpenFile_ok r rec ds Hr) as (fr & Ho & Hok).
  destruct (fr_ReadAll_ok r ds fr Hok) as (fr' & Hra & _); [by destruct Hr as (_ & _ & ? & _)|].
  by exists fr, fr'.
Qed.

(** A commit that succeeds, under the name or straight to an inode. *)
Lemma commitOpen_stored h now clk r id r' :
  universe K → repo_inv K N r → storable K r (wh_buf h) →
  commitOpen h now clk r = (Ok id, r') → (r_drawn r' <= N)%nat →
  repo_inv K N r' ∧
  fs_names (view (r_DB r')) = <[(wh_dir h, wh_name h) := id]> (fs_names (view (r_DB r))) ∧
  (∀ j, j ≠ id → j ≠ wh_dir h →
     fs_inodes (view (r_DB r')) !! j = fs_inodes (view (r_DB r)) !! j) ∧
  (∃ rec, getInodeTx id (r_DB r') = Ok rec ∧ readable r' rec (pieces_of (r_ChunkSize r) (wh_buf h))) ∧
  (∀ rec ds, Forall K ds → readable r rec ds → readable r' rec ds).
Proof.
  intros HK Hi Hst Hrun HN.
  apply commitOpen_run in Hrun as [[? _]|(sres & r2 & Hstore & Hrun)]; [done|].
  destruct sres as [c|e]; [|by destruct Hrun].
  destruct (commitBind_run h c now r2) as (cres & d & Hcf & Hcb). rewrite Hrun in Hcb.
  destruct cres as [id'|e]; [|by destruct Hcb as [e' ?]]. injection Hcb as <- ->.
  destruct (store_flush_steps K N HK (wh_buf h) clk r (commit_record h now) Hi Hst _ _ Hstore HN)
    as (Hi2 & Hx & Hrd).
  apply CommitFile_effect in Hcf as (Hn & (rec & Hrec & Hsame) & Hoth & Hstor).
  rewrite (same_meta_view _ _ (ex_meta _ _ _ Hx)) in *.
  assert (same_store r2 (bumped [DirCoherenceKey (wh_dir h); InodeCoherenceKey (wh_dir h)]
    [DirCoherenceKey (wh_dir h)] (bumped [InodeCoherenceKey id] [] (set_DB d r2)))) as Hss.
  { do 2 (eapply same_store_trans; [|apply same_store_bumped]). by apply same_store_set_DB. }
  set (r' := bumped _ _ _) in *. change (r_DB r') with d.
  split_and!; [by eapply same_store_inv|done|done| |].
  - exists rec. rewrite getInodeTx_view, Hrec. split; [done|].
    eapply content_same; [exact Hsame|]. by eapply same_store_readable.
  - intros rec' ds HKs Hr. eapply same_store_readable; [done|]. by eapply readable_extends.
Qed.

Lemma commitDetachedOpen_stored h id now clk r u r' :
  universe K → repo_inv K N r → storable K r (wh_buf h) →
  commitDetachedOpen h id now clk r = (Ok u, r') → (r_drawn r' <= N)%nat →
  repo_inv K N r' ∧ fs_names (view (r_DB r')) = fs_names (view (r_DB r)) ∧
  (∃ rec, getInodeTx id (r_DB r') = Ok rec ∧ readable r' rec (pieces_of (r_ChunkSize r) (wh_buf h))) ∧
  (∀ rec ds, Forall K ds → readable r rec ds → readable r' rec ds).
Proof.
  intros HK Hi Hst Hrun HN. unfold commitDetachedOpen in Hrun.
  apply bind_Ok in Hrun as (c & r1 & E1 & Hrun). apply bind_Ok in Hrun as (u1 & r2 & E2 & Hrun).
  apply bind_Ok in Hrun as (u2 & r3 & E3 & Hrun). rewrite bump_run in Hrun. injection Hrun as _ <-.
  apply onDB_Ok in E3 as (d & Hu & ->). destruct u2. cbn [r_drawn bumped set_Coherence set_DB set_fired] in HN.
  assert ((c ← storeContent (bytes_reader (wh_buf h)) (blen (wh_buf h)) clk; flushPacker clk ≫= λ _, mret c) r = (Ok c, r2))
    as Hstore by (unfold mbind, M_bind; by rewrite E1, E2).
  destruct (store_flush_steps K N HK (wh_buf h) clk r (set_NLink 0 (file_record 0 0 0 now)) Hi Hst _ _ Hstore HN)
    as (Hi2 & Hx & Hrd).
  apply UpdateInodeContent_effect in Hu as (Hn & (rec & Hrec & Hsame) & Hstor).
  rewrite (same_meta_view _ _ (ex_meta _ _ _ Hx)) in *.
  assert (same_store r2 (bumped [InodeCoherenceKey id] [] (set_DB d r2))) as Hss.
  { eapply same_store_trans; [|apply same_store_bumped]. by apply same_store_set_DB. }
  set (r' := bumped _ _ _) in *. change (r_DB r') with d.
  split_and!; [by eapply same_store_inv|done| |].
  - exists rec. rewrite getInodeTx_view, Hrec. split; [done|].
    eapply content_same; [exact Hsame|]. by eapply same_store_readable.
  - intros rec' ds HKs Hr. eapply same_store_readable; [done|]. by eapply readable_extends.
Qed.

(** C1: a successful [Commit] binds the name to the inode it returns, and
    reading that inode gives back the bytes written to the handle; no other
    name and no other inode changes except the times of the directory, every
    file that could be read still can, the handle is spent, and the
    repository stays consistent. *)
Theorem commit_then_read r h now clk id h' r' :
  universe K → repo_inv K N r → storable K r (wh_buf h) →
  Commit now clk (h, r) = (Ok id, (h', r')) → (r_drawn r' <= N)%nat →
  repo_inv K N r' ∧ wh_done h' = true ∧
  fs_names (view (r_DB r')) = <[(wh_dir h, wh_name h) := id]> (fs_names (view (r_DB r))) ∧
  (∀ j, j ≠ id → j ≠ wh_dir h →
     fs_inodes (view (r_DB r')) !! j = fs_inodes (view (r_DB r)) !! j) ∧
  (∃ rec fr fr', getInodeTx id (r_DB r') = Ok rec ∧ readable r' rec (pieces_of (r_ChunkSize r) (wh_buf h))
     ∧ OpenFile rec r' = Ok fr ∧ fr_ReadAll r' fr = (Ok (wh_buf h), fr')) ∧
  (∀ rec ds, Forall K ds → readable r rec ds → readable r' rec ds).
Proof.
  intros HK Hi Hst. unfold Commit. destruct (wh_done h); [done|].
  destruct (commitOpen h now clk r) as [res r1] eqn:Hrun. intros [= -> <- <-] HN.
  destruct (commitOpen_stored h now clk r id r1 HK Hi Hst Hrun HN) as (Hi' & Hn & Ho & (rec & Hrec & Hr) & Hm).
  split_and!; try done. destruct (readable_reads _ _ _ Hr) as (fr & fr' & Hof & Hra). rewrite pieces_of_concat in Hra.
  by exists rec, fr, fr'.
Qed.

(** C17: a [Commit] that fails is invisible: names, inodes, quota and leases
    are as before and every file that could be read still can; the
    repository stays consistent, whatever was stored on the way. *)
Theorem commit_failure_invisible r h now clk e h' r' :
  universe K → repo_inv K N r → storable K r (wh_buf h) →
  Commit now clk (h, r) = (Err e, (h', r')) → (r_drawn r' <= N)%nat →
  repo_inv K N r' ∧ view (r_DB r') = view (r_DB r) ∧ r_Coherence r' = r_Coherence r ∧
  ∀ rec ds, Forall K ds → readable r rec ds → readable r' rec ds.
Proof.
  intros HK Hi Hst. unfold Commit. destruct (wh_done h); [by intros [= <- <- <-]|].
  destruct (commitOpen h now clk r) as [res r1] eqn:Hrun. intros [= -> <- <-] HN.
  apply commitOpen_run in Hrun as [[_ ->]|(sres & r2 & Hstore & Hrun)]; [done|].
  pose proof (λ HN, store_flush_steps K N HK (wh_buf h) clk r (commit_record h now) Hi Hst _ _ Hstore HN)
    as Hsteps.
  destruct sres as [c|e1].
  - destruct (commitBind_run h c now r2) as (cres & d & Hcf & Hcb). rewrite Hrun in Hcb.
    destruct cres as [id'|e2]; [done|]. destruct Hcb as [e' [= -> ->]]. apply bolt_update_Err in Hcf as [-> _].
    replace (set_DB (r_DB r2) r2) with r2 in * by (by destruct r2).
    destruct (Hsteps HN) as (Hi2 & Hx & _). destruct (ex_config _ _ _ Hx).
    split_and!; [done|apply same_meta_view, (ex_meta _ _ _ Hx)|done|]. intros. by eapply readable_extends.
  - destruct Hrun as [_ ->]. destruct (Hsteps HN) as (Hi2 & Hx & _). destruct (ex_config _ _ _ Hx).
    split_and!; [done|apply same_meta_view, (ex_meta _ _ _ Hx)|done|]. intros. by eapply readable_extends.
Qed.
End metadata.
