(* ===== verification/RepoCoh.v ===== *)
(** pkg/repo and pkg/coherence: every change tells the lease manager.

    A mutation of the repository is an [rop].  [touched] and [touched_dirs]
    say which inode records and which directories' bindings an operation of
    the metadata store can change; the theorem says that the repository bumps
    the version of each of them that did change. *)
From S2P Require Import Prelude Bolt Chunk Manifest Store Pack MetaDB MetaSpec MetaRefine MetaTree.
From S2P Require Import MetaInv MetaBuilt MetaThm Coherence RepoUtil Repo RepoRead RepoStore RepoThm.

(** The inodes that exist and may change. *)
Definition touched (o : op) (f : fs) : list InodeID :=
  match o with
  | OCommitFile d n _ _ => match fs_names f !! (d, n) with Some i => [i] | None => [d] end
  | OPublishFile d _ _ _ | OCommitMkdir d _ _ _ => [d]
  | ORemoveEntry d n _ => d :: option_list (fs_names f !! (d, n))
  | OLink d _ t _ => [t; d]
  | ORename od on nd nn _ _ =>
      od :: nd :: option_list (fs_names f !! (od, on)) ++ option_list (fs_names f !! (nd, nn))
  | OSetAttr i _ _ | OUpdateInodeContent i _ => [i]
  | _ => []
  end.

(** The directories whose bindings may change. *)
Definition touched_dirs (o : op) : list InodeID :=
  match o with
  | OCommitFile d _ _ _ | OPublishFile d _ _ _ | OCommitMkdir d _ _ _ | ORemoveEntry d _ _
  | OLink d _ _ _ => [d]
  | ORename od _ nd _ _ _ => [od; nd]
  | _ => []
  end.

(** The operations of the metadata store behind the mutable write path. *)
Definition write_op (o : op) : bool :=
  match o with
  | OCommitFile _ _ _ _ | OPublishFile _ _ _ _ | OCommitMkdir _ _ _ _ | ORemoveEntry _ _ _
  | OLink _ _ _ _ | ORename _ _ _ _ _ _ | OSetAttr _ _ _ | OUpdateInodeContent _ _ => true
  | _ => false
  end.

(** A 64-bit version after [n] bumps. *)
Definition ver_after (n : nat) (v : Z) : Z := if (n =? 0)%nat then v else u64 (v + Z.of_nat n).

Definition times (k : bytes) (l : list bytes) : nat := length (filter (λ x, x = k) l).

(** The manager was told of the objects [ks] and the directories [ds]. *)
Definition told {callback handler} (ks ds : list bytes) (m m' : Manager callback handler) : Prop :=
  (∀ k, versionLocked k m' = ver_after (times k ks) (versionLocked k m)) ∧
  (∀ d, DirVersion d m' = ver_after (times d ds) (DirVersion d m)).

(** The mutations of the write path. *)
Inductive rop :=
  | RCommit (h : WriteHandle) (now clk : time)
  | RCommitDetached (h : WriteHandle) (id : InodeID) (now clk : time)
  | RUnlink (dir : InodeID) (name : bytes) (clk : time)
  | RMkdir (dir : InodeID) (name : bytes) (mode : Z) (owner : Owner) (now : time)
  | RRmdir (dir : InodeID) (name : bytes) (clk : time)
  | RRename (oldDir : InodeID) (oldName : bytes) (newDir : InodeID) (newName : bytes) (now clk : time)
  | RLink (dir : InodeID) (name : bytes) (target : InodeID) (now : time)
  | RMknod (dir : InodeID) (name : bytes) (typ rdev mode : Z) (owner : Owner) (now : time)
  | RSymlink (dir : InodeID) (name target : bytes) (owner : Owner) (now : time)
  | RSetAttr (id : InodeID) (mut : AttrMutation) (now : time).

Section rops.
Context {bucket : Type → Type} `{BoltOps bucket} {B : Type} `{BackendOps B} {blake3 : Blake3}.
Context {callback handler : Type}.
Abbreviation repo := (Repo bucket B callback handler).

(** Run a method of a handle, keeping the repository. *)
Definition with_handle {A} (h : WriteHandle) (m : M (WriteHandle * repo) A) : M repo unit := λ r,
  match m (h, r) with
  | (Ok _, (_, r')) => (Ok tt, r')
  | (Err e, (_, r')) => (Err e, r')
  end.

Definition run_rop (o : rop) : M repo unit :=
  match o with
  | RCommit h now clk => with_handle h (Commit now clk)
  | RCommitDetached h id now clk => with_handle h (CommitDetached id now clk)
  | RUnlink d n clk => Unlink d n clk
  | RMkdir d n mode o now => Mkdir d n mode o now ≫= λ _, mret tt
  | RRmdir d n clk => Rmdir d n clk
  | RRename od on nd nn now clk => repo_Rename od on nd nn now clk
  | RLink d n t now => repo_Link d n t now ≫= λ _, mret tt
  | RMknod d n typ rdev mode o now => Mknod d n typ rdev mode o now ≫= λ _, mret tt
  | RSymlink d n t o now => Symlink d n t o now ≫= λ _, mret tt
  | RSetAttr i m now => repo_SetAttr i m now ≫= λ _, mret tt
  end.

(** What the write path does to the metadata and to the manager: some
    storing of content, one operation of the metadata store, and bumps. *)
Definition mutates (mo : op) (ks ds : list bytes) (r r' : repo) : Prop :=
  ∃ d1, same_meta (r_DB r) d1 ∧ run_op mo d1 = (Ok tt, r_DB r') ∧
  ∀ m, r_Coherence r = Some m → ∃ m', r_Coherence r' = Some m' ∧ told ks ds m m'.

(** The operation [mo] with bumps that cover everything it touches. *)
Definition covered (mo : op) (ks ds : list bytes) (r r' : repo) : Prop :=
  write_op mo = true ∧ mutates mo ks ds r r' ∧ (length ks < 16)%nat ∧ (length ds < 16)%nat ∧
  (∀ i, i ∈ touched mo (view (r_DB r)) → InodeCoherenceKey i ∈ ks) ∧
  (∀ d, d ∈ touched_dirs mo → DirCoherenceKey d ∈ ds).

End rops.

(** * Versions *)

Section told.
Context {callback handler : Type}.
Implicit Types m : Manager callback handler.

Lemma ver_after_add a b v : ver_after a (ver_after b v) = ver_after (b + a) v.
Proof.
  unfold ver_after. destruct a, b; cbn [Nat.eqb Nat.add]; try done.
  - by rewrite Nat.add_0_r.
  - unfold u64. rewrite Zplus_mod_idemp_l. f_equal. lia.
Qed.

Lemma ver_after_changes n v : (0 < n)%nat → Z.of_nat n < 2 ^ 64 → ver_after n v ≠ v.
Proof.
  intros Hn Hlt. unfold ver_after. destruct (Nat.eqb_spec n 0); [lia|]. intros E.
  assert (in_u64 v) as Hv by (rewrite <- E; apply u64_range). unfold in_u64, u64 in *.
  destruct (Z_lt_dec (v + Z.of_nat n) (2 ^ 64)).
  - rewrite Z.mod_small in E; lia.
  - replace (v + Z.of_nat n) with ((v + Z.of_nat n - 2 ^ 64) + 1 * 2 ^ 64) in E by lia.
    rewrite Z.mod_add, Z.mod_small in E; lia.
Qed.

Lemma times_app k l l' : times k (l ++ l') = (times k l + times k l')%nat.
Proof. unfold times. by rewrite filter_app, length_app. Qed.

Lemma times_elem k l : k ∈ l → (0 < times k l)%nat.
Proof.
  intros Hk. unfold times. assert (k ∈ filter (λ x, x = k) l) as Hf by (by apply list_elem_of_filter).
  destruct (filter _ l); [by apply not_elem_of_nil in Hf|cbn; lia].
Qed.

Lemma times_le k l : (times k l <= length l)%nat.
Proof. apply length_filter. Qed.

Lemma told_refl m : told [] [] m m.
Proof. done. Qed.

Lemma told_trans ks ds ks' ds' m1 m2 m3 :
  told ks ds m1 m2 → told ks' ds' m2 m3 → told (ks ++ ks') (ds ++ ds') m1 m3.
Proof.
  intros [V1 D1] [V2 D2]. split; intros k; rewrite times_app, <- ver_after_add; [by rewrite V2, V1|].
  by rewrite D2, D1.
Qed.

Lemma times_singleton k k' : times k' [k] = if decide (k = k') then 1%nat else 0%nat.
Proof.
  unfold times. rewrite filter_cons, filter_nil. by destruct (decide (k = k')).
Qed.

Lemma told_Bump k m : told [k] [] m (Bump k m).2.
Proof.
  split; [|done]. intros k'. rewrite times_singleton. unfold Bump, versionLocked, num. cbn.
  rewrite lookup_insert. by destruct (decide (k = k')) as [->|Hne].
Qed.

Lemma told_BumpDir d m : told [] [d] m (BumpDir d m).2.
Proof.
  split; [done|]. intros k'. rewrite times_singleton. unfold BumpDir, DirVersion, num. cbn.
  rewrite lookup_insert. by destruct (decide (d = k')) as [->|Hne].
Qed.

Lemma told_fold_Bump ks m : told ks [] m (fold_left (λ m k, (Bump k m).2) ks m).
Proof.
  revert m. induction ks as [|k ks IH]; intros m; [apply told_refl|].
  cbn. apply (told_trans [k] [] ks []  _ _ _ (told_Bump k m)), IH.
Qed.

Lemma told_fold_BumpDir ds m : told [] ds m (fold_left (λ m k, (BumpDir k m).2) ds m).
Proof.
  revert m. induction ds as [|k ds IH]; intros m; [apply told_refl|].
  cbn. apply (told_trans [] [k] [] ds  _ _ _ (told_BumpDir k m)), IH.
Qed.
End told.

(** * What an operation of the store can change *)

Lemma entries_insert (d d' : InodeID) (n : bytes) (i : InodeID) (f : gmap (InodeID * bytes) InodeID) :
  d ≠ d' → filter (λ kv : InodeID * bytes * InodeID, kv.1.1 = d) (<[(d', n) := i]> f)
           = filter (λ kv : InodeID * bytes * InodeID, kv.1.1 = d) f.
Proof.
  intros Hd. apply map_filter_insert_not. intros y. cbn. congruence.
Qed.

Lemma entries_delete (d d' : InodeID) (n : bytes) (f : gmap (InodeID * bytes) InodeID) :
  d ≠ d' → filter (λ kv : InodeID * bytes * InodeID, kv.1.1 = d) (delete (d', n) f)
           = filter (λ kv : InodeID * bytes * InodeID, kv.1.1 = d) f.
Proof.
  intros Hd. apply map_filter_delete_not. intros y Hy. cbn. congruence.
Qed.

Lemma drop_link_inodes i rec t f j :
  j ≠ i → fs_inodes (drop_link i rec t f) !! j = fs_inodes f !! j.
Proof. intros Hj. unfold drop_link. destruct (last_link rec); fsred; by rewrite lookup_insert_ne. Qed.

Lemma reparent_inodes src od nd f j :
  j ≠ od → j ≠ nd → fs_inodes (reparent src od nd f) !! j = fs_inodes f !! j.
Proof.
  intros. unfold reparent. destruct (_ && _); [|done]. fsred. by rewrite !lookup_alter_ne.
Qed.

Lemma displace_other nd nn t f j :
  (∀ d, fs_names f !! (nd, nn) = Some d → j ≠ d) → fs_inodes (displace nd nn t f) !! j = fs_inodes f !! j.
Proof.
  intros Hj. unfold displace. destruct (fs_names f !! (nd, nn)) as [d|]; [|done].
  unfold with_inode. destruct (fs_inodes f !! d); [|done]. apply drop_link_inodes. by apply Hj.
Qed.

Lemma create_other d n rec size now f i rec0 :
  fs_inodes f !! i = Some rec0 → fs_inodes f !! next_id f = None → i ≠ d →
  fs_inodes (create d n rec size now f) !! i = Some rec0.
Proof.
  intros Hi Hn Hd. fsred. rewrite lookup_alter_ne, lookup_insert_ne; [done| |done].
  intros E. unfold next_id in *. cbn in E. congruence.
Qed.

(** Records outside [touched] stay as they are. *)
Lemma effect_inodes o f i rec :
  fs_inodes f !! next_id f = None → write_op o = true →
  fs_inodes f !! i = Some rec → i ∉ touched o f → fs_inodes (fs_effect o f) !! i = Some rec.
Proof.
  intros Hfresh Ho Hi.
  destruct o; try discriminate Ho; cbn [touched fs_effect]; rewrite ?not_elem_of_cons.
  - destruct (fs_names f !! (dir, name)) as [j|]; rewrite not_elem_of_cons; intros [Hne _].
    + unfold with_inode. destruct (fs_inodes f !! j); [|done]. fsred. by rewrite lookup_insert_ne.
    + by apply create_other.
  - intros [Hne _]. by apply create_other.
  - intros [Hne _]. cbn [upd_inode upd_inodes fs_inodes]. rewrite lookup_alter_ne by done.
    by apply create_other.
  - intros [Hne Hn]. destruct (fs_names f !! (dir, name)) as [j|]; [|done].
    cbn in Hn. apply not_elem_of_cons in Hn as [Hj _].
    unfold with_inode. destruct (fs_inodes f !! j); [|done]. rewrite drop_link_inodes by done.
    fsred. by rewrite !lookup_alter_ne.
  - intros (Ht & Hd & _). unfold with_inode. destruct (fs_inodes f !! target); [|done].
    fsred. by rewrite lookup_alter_ne, lookup_insert_ne.
  - intros (Hod & Hnd & Hs). destruct (_ && _); [done|].
    rewrite not_elem_of_app in Hs. destruct Hs as [Hs Hd].
    destruct (fs_names f !! (oldDir, oldName)) as [s|]; [|done].
    cbn in Hs. apply not_elem_of_cons in Hs as [Hs _].
    unfold with_inode. destruct (fs_inodes f !! s); [|done].
    unfold bind_name. cbn [fs_inodes upd_names upd_inode upd_inodes].
    rewrite lookup_alter_ne, lookup_insert_ne, reparent_inodes by done.
    unfold unbind_name. cbn [fs_inodes upd_names upd_inode upd_inodes]. rewrite lookup_alter_ne by done.
    cbn [fs_inodes upd_names]. rewrite displace_other; [done|]. intros d E. rewrite E in Hd. cbn in Hd.
    by apply not_elem_of_cons in Hd as [? _].
  - intros [Hne _]. fsred. by rewrite lookup_alter_ne.
  - intros [Hne _]. fsred. by rewrite lookup_alter_ne.
Qed.

(** Directories outside [touched_dirs] list what they did. *)
Lemma effect_entries o f d :
  write_op o = true → d ∉ touched_dirs o → entries d (fs_effect o f) = entries d f.
Proof.
  intros Ho. unfold entries.
  destruct o; try discriminate Ho; cbn [touched_dirs fs_effect]; rewrite ?not_elem_of_cons.
  - intros [Hne _]. destruct (fs_names f !! (dir, name)) as [j|].
    + unfold with_inode. by destruct (fs_inodes f !! j).
    + fsred. by rewrite entries_insert.
  - intros [Hne _]. fsred. by rewrite entries_insert.
  - intros [Hne _]. fsred. by rewrite entries_insert.
  - intros [Hne _]. destruct (fs_names f !! (dir, name)) as [j|]; [|done].
    unfold with_inode. destruct (fs_inodes f !! j); [|done]. rewrite drop_link_names.
    fsred. by rewrite entries_delete.
  - intros [Hne _]. unfold with_inode. destruct (fs_inodes f !! target); [|done].
    fsred. by rewrite entries_insert.
  - intros (Hod & Hnd & _). destruct (_ && _); [done|].
    destruct (fs_names f !! (oldDir, oldName)) as [s|]; [|done].
    unfold with_inode. destruct (fs_inodes f !! s); [|done].
    unfold bind_name. cbn [fs_names upd_names upd_inode upd_inodes]. rewrite entries_insert by done.
    rewrite reparent_names. unfold unbind_name. cbn [fs_names upd_names upd_inode upd_inodes].
    by rewrite displace_names, entries_delete.
  - done.
  - done.
Qed.

(** * What the write path does *)

Section shapes.
Context {bucket : Type → Type} `{BoltLaws bucket} {B : Type} `{BackendLaws B} {blake3 : Blake3}.
Context {callback handler : Type}.
Abbreviation repo := (Repo bucket B callback handler).
Implicit Types r : repo.

Lemma bumped_told ks ds r m :
  r_Coherence r = Some m → ∃ m', r_Coherence (bumped ks ds r) = Some m' ∧ told ks ds m m'.
Proof.
  intros Hm. unfold bumped. cbn [r_Coherence set_Coherence]. rewrite Hm. eexists. split; [done|].
  pose proof (told_trans [] ds ks [] _ _ _ (told_fold_BumpDir ds m) (told_fold_Bump ks _)) as Ht.
  by rewrite app_nil_r in Ht.
Qed.

Lemma mutates_bumped mo ks ds r r1 ks' ds' :
  mutates mo ks ds r r1 → mutates mo (ks ++ ks') (ds ++ ds') r (bumped ks' ds' r1).
Proof.
  intros (d1 & Hm & Hrun & Ht). exists d1. split_and!; [done|done|]. intros m Hc.
  destruct (Ht m Hc) as (m1 & Hc1 & T1). destruct (bumped_told ks' ds' r1 m1 Hc1) as (m2 & Hc2 & T2).
  exists m2. split; [done|]. by eapply told_trans.
Qed.

Lemma mutates_op mo r d2 : run_op mo (r_DB r) = (Ok tt, d2) → mutates mo [] [] r (set_DB d2 r).
Proof. intros Hrun. exists (r_DB r). split_and!; [done|done|]. intros m Hc. by exists m. Qed.

(** An operation of the store that returned. *)
Lemma attempt_onDB {A} (m : M (DB bucket) A) r res r' :
  attempt (onDB m) r = (Ok res, r') → ∃ d, m (r_DB r) = (res, d) ∧ r' = set_DB d r.
Proof.
  rewrite attempt_run. unfold onDB, zoom. destruct (m (r_DB r)) as [x d]. intros [= <- <-]. by exists d.
Qed.

Lemma onDB_gets {A} (f : DB bucket → A) r : onDB (gets f) r = (Ok (f (r_DB r)), r).
Proof. unfold onDB, zoom, gets. by destruct r. Qed.

Lemma drop_Ok {S A} (m : M S A) s a s' : m s = (Ok a, s') → (m ≫= λ _, mret tt) s = (Ok tt, s').
Proof. intros E. unfold mbind, M_bind. by rewrite E. Qed.

Lemma requireMutable_Ok r u r' : requireMutable r = (Ok u, r') → r' = r.
Proof. unfold requireMutable. destruct (Mutable _); congruence. Qed.

(** A lookup tells what the name is bound to. *)
Lemma attempt_lookup d n r res r' :
  attempt (onDB (Lookup d n)) r = (Ok res, r') →
  r' = r ∧ match res with
           | Ok i => fs_names (view (r_DB r)) !! (d, n) = Some i
           | Err _ => fs_names (view (r_DB r)) !! (d, n) = None
           end.
Proof.
  rewrite attempt_run. unfold Lookup. rewrite onDB_view. cbn [fst snd]. intros [= <- <-].
  split; [done|]. rewrite lookupTx_view. by destruct (fs_names _ !! _).
Qed.


Lemma bumped_nil r : bumped [] [] r = r.
Proof. unfold bumped. cbn. rewrite app_nil_r. destruct r as [? ? ? ? [m|]]; done. Qed.

(** The keys a bump of an optional inode bumps. *)
Lemma bump_found (x : result InodeID) r u r' :
  match x with Ok i => bump (InodeCoherenceKey i) | Err _ => mret tt end r = (Ok u, r') →
  r' = bumped (match x with Ok i => [InodeCoherenceKey i] | Err _ => [] end) [] r.
Proof. destruct x as [i|e]; [rewrite bump_run|]; intros [= <- <-]; [done|]. by rewrite bumped_nil. Qed.

Lemma bump_other_dir (b : bool) d r u r' :
  (if b then mret tt else bumpDirEntries d) r = (Ok u, r') →
  r' = bumped (if b then [] else [DirCoherenceKey d; InodeCoherenceKey d])
         (if b then [] else [DirCoherenceKey d]) r.
Proof. destruct b; [|rewrite bumpDirEntries_run]; intros [= <- <-]; [by rewrite bumped_nil|done]. Qed.

(** Split a run into its calls. *)
Ltac runs_of H :=
  repeat (lazymatch type of H with bumpDirEntries _ _ = _ => fail | _ => apply bind_Ok in H as (? & ? & ? & H) end);
  repeat match goal with
  | E : requireMutable _ = (Ok _, _) |- _ => apply requireMutable_Ok in E as ->
  | E : attempt (onDB (Lookup _ _)) _ = (Ok _, _) |- _ => apply attempt_lookup in E as [-> ?]
  | E : attempt (onDB _) _ = (Ok _, _) |- _ => apply attempt_onDB in E as (? & ? & ->)
  | E : onDB (View _) _ = (Ok _, _) |- _ => rewrite onDB_view in E; injection E as ? <-
  | E : onDB (gets _) _ = (Ok _, _) |- _ => rewrite onDB_gets in E; injection E as ? <-
  | E : onDB _ _ = (Ok _, _) |- _ => apply onDB_Ok in E as (? & ? & ->)
  | E : bump _ _ = (Ok _, _) |- _ => rewrite bump_run in E; first [injection E as <- <-|injection E as <-]
  | E : bumpDirEntries _ _ = (Ok _, _) |- _ => rewrite bumpDirEntries_run in E;
      first [injection E as <- <-|injection E as <-]
  | E : mret _ _ = (Ok _, _) |- _ => injection E as <- <-
  | E : match _ with Ok _ => bump _ | Err _ => mret tt end _ = (Ok _, _) |- _ => apply bump_found in E as ->
  | E : (if _ then mret tt else bumpDirEntries _) _ = (Ok _, _) |- _ => apply bump_other_dir in E as ->
  end.

(** The bumps recorded so far cover the operation. *)
Ltac cover mo :=
  exists mo; do 2 eexists;
  split; [done|];
  split; [repeat eapply mutates_bumped; apply mutates_op;
          first [eassumption | eapply drop_Ok; eassumption]|];
  split; [rewrite ?length_app; repeat case_match; cbn; lia|];
  split; [rewrite ?length_app; repeat case_match; cbn; lia|]; cbn [touched touched_dirs].

Lemma covered_Unlink d n clk r u r' :
  Unlink d n clk r = (Ok u, r') → ∃ mo ks ds, covered mo ks ds r r'.
Proof.
  intros Hrun. unfold Unlink in Hrun. runs_of Hrun.
  match goal with E : RemoveEntry _ _ _ _ = (Ok ?u, _) |- _ => destruct u end.
  cover (ORemoveEntry d n clk).
  match goal with Hn : match ?x with Ok _ => _ = Some _ | Err _ => _ = None end |- _ =>
    destruct x; rewrite Hn; cbn; set_solver end.
Qed.

Lemma covered_Mkdir d n mode o now r i r' :
  Mkdir d n mode o now r = (Ok i, r') → ∃ mo ks ds, covered mo ks ds r r'.
Proof.
  intros Hrun. unfold Mkdir in Hrun. runs_of Hrun. match type of Hrun with
    match ?x with _ => _ end _ = _ => destruct x as [j|e] end.
  - runs_of Hrun. cover (OCommitMkdir d n (dir_record (Z.land mode mode_7777) (o_Uid o) (o_Gid o) now) now).
    set_solver.
  - repeat case_bool_decide; discriminate Hrun.
Qed.

Lemma covered_Rmdir d n clk r u r' :
  Rmdir d n clk r = (Ok u, r') → ∃ mo ks ds, covered mo ks ds r r'.
Proof.
  intros Hrun. unfold Rmdir, Lookup, GetInode, Readdir in Hrun. runs_of Hrun.
  match goal with E : lookupTx d n _ = Ok ?i |- _ => rewrite lookupTx_view in E;
    destruct (fs_names (view (r_DB r)) !! (d, n)) as [j|] eqn:Hn; [|done]; injection E as -> end.
  destruct (IsDir _); [|done]. cbn [negb] in Hrun. runs_of Hrun.
  destruct (0 <? _); [done|]. runs_of Hrun.
  match goal with E : RemoveEntry _ _ _ _ = (Ok ?u, _) |- _ => destruct u end.
  cover (ORemoveEntry d n clk). rewrite Hn. cbn. set_solver.
Qed.

Lemma covered_Link d n t now r rec r' :
  repo_Link d n t now r = (Ok rec, r') → ∃ mo ks ds, covered mo ks ds r r'.
Proof.
  intros Hrun. unfold repo_Link in Hrun. runs_of Hrun. cover (OLink d n t now). set_solver.
Qed.

Lemma covered_Mknod d n typ rdev mode o now r i r' :
  Mknod d n typ rdev mode o now r = (Ok i, r') → ∃ mo ks ds, covered mo ks ds r r'.
Proof.
  intros Hrun. unfold Mknod, CreateSpecial in Hrun. runs_of Hrun.
  match goal with E : PublishFile _ _ ?rec _ _ = _ |- _ => cover (OPublishFile d n rec now) end. set_solver.
Qed.

Lemma covered_Symlink d n t o now r i r' :
  Symlink d n t o now r = (Ok i, r') → ∃ mo ks ds, covered mo ks ds r r'.
Proof.
  intros Hrun. unfold Symlink, CreateSymlink in Hrun. runs_of Hrun.
  match goal with E : PublishFile _ _ ?rec _ _ = _ |- _ => cover (OPublishFile d n rec now) end. set_solver.
Qed.

Lemma covered_SetAttr i mut now r rec r' :
  repo_SetAttr i mut now r = (Ok rec, r') → ∃ mo ks ds, covered mo ks ds r r'.
Proof.
  intros Hrun. unfold repo_SetAttr in Hrun. runs_of Hrun. cover (OSetAttr i mut now). set_solver.
Qed.

Lemma covered_Rename od on nd nn now clk r u r' :
  repo_Rename od on nd nn now clk r = (Ok u, r') → ∃ mo ks ds, covered mo ks ds r r'.
Proof.
  intros Hrun. unfold repo_Rename in Hrun. runs_of Hrun.
  match goal with E : match ?x with Ok _ => mret tt | Err _ => if _ then _ else _ end r = (Ok _, ?s) |- _ =>
    assert (s = r) as -> by (clear -E; repeat case_match; by inversion E) end.
  match goal with E : Rename _ _ _ _ _ _ _ = (Ok ?u, _) |- _ => destruct u end.
  cover (ORename od on nd nn clk now).
  repeat match goal with Hn : match ?x with Ok _ => _ = Some _ | Err _ => _ = None end |- _ =>
    destruct x; rewrite Hn; clear Hn end;
    (destruct (decide (nd = od)) as [->|Hd];
     [rewrite !(bool_decide_true (od = od)) by done|rewrite !(bool_decide_false (nd = od)) by done]);
    cbn [option_list app]; set_solver.
Qed.

(** Storing content leaves names, inodes and leases alone. *)
Lemma meta_closed r0 :
  storage_closed (λ r, same_meta (r_DB r0) (r_DB r) ∧ r_Coherence r = r_Coherence r0).
Proof.
  split; try done. intros r id loc t [Hm Hc]. unfold onDB, zoom.
  destruct (PutLocator_run (r_Region r) id loc t (r_DB r)) as (d' & -> & Hm' & _).
  split; [by eapply same_meta_trans|done].
Qed.

Lemma store_flush_meta content size clk r res r1 :
  (c ← storeContent (bytes_reader content) size clk; flushPacker clk ≫= λ _, mret c) r = (res, r1) →
  same_meta (r_DB r) (r_DB r1) ∧ r_Coherence r1 = r_Coherence r.
Proof.
  intros E. set (P := λ r', same_meta (r_DB r) (r_DB r') ∧ r_Coherence r' = r_Coherence r).
  assert (keeps P (c ← storeContent (bytes_reader content) size clk; flushPacker clk ≫= λ _, mret c)) as Hk.
  { apply keeps_bind; [apply keeps_storeContent, meta_closed|]. intros c.
    apply keeps_bind; [apply keeps_flush, meta_closed|]. intros _. apply keeps_ret. }
  specialize (Hk r). rewrite E in Hk. by apply Hk.
Qed.

(** The inode a commit returns is the one bound. *)
Lemma CommitFile_id d n rec now (tx tx' : DB bucket) id :
  CommitFile d n rec now tx = (Ok id, tx') → id = commit_id d n (view tx).
Proof.
  intros Hrun. unfold CommitFile in Hrun. apply (proj1 (bolt_update_Ok _ _ _ _)) in Hrun.
  pose proof (commitFileTx_spec d n rec now tx) as Hs. unfold tx_spec in Hs.
  destruct (fs_pre _ _); [|destruct Hs as [? Hs]; congruence].
  destruct Hs as (tx1 & Hs & _). congruence.
Qed.

Lemma covered_Commit h now clk r u r' :
  with_handle h (Commit now clk) r = (Ok u, r') → ∃ mo ks ds, covered mo ks ds r r'.
Proof.
  unfold with_handle, Commit. destruct (wh_done h); [done|].
  destruct (commitOpen h now clk r) as [[id|e] r1] eqn:Hrun; [|done]. intros [= <- <-].
  apply commitOpen_run in Hrun as [[? _]|(sres & r2 & Hstore & Hrun)]; [done|].
  destruct sres as [c|e]; [|by destruct Hrun].
  apply store_flush_meta in Hstore as [Hm Hc].
  destruct (commitBind_run h c now r2) as (cres & d & Hcf & Hcb). rewrite Hrun in Hcb.
  destruct cres as [id'|e]; [|by destruct Hcb as [e' ?]]. injection Hcb as <- ->.
  exists (OCommitFile (wh_dir h) (wh_name h) (apply c (commit_record h now)) now).
  do 2 eexists. split; [done|]. split.
  - do 2 eapply mutates_bumped. exists (r_DB r2). split_and!; [done| |].
    + cbn [run_op]. by eapply drop_Ok.
    + intros m Hm'. exists m. cbn. rewrite Hc. by split; [|apply told_refl].
  - split; [cbn; lia|]. split; [cbn; lia|]. cbn [touched touched_dirs].
    apply CommitFile_id in Hcf. rewrite (same_meta_view _ _ Hm) in Hcf. unfold commit_id in Hcf.
    destruct (fs_names (view (r_DB r)) !! _) as [i|]; cbn in Hcf; subst; set_solver.
Qed.

Lemma covered_CommitDetached h id now clk r u r' :
  with_handle h (CommitDetached id now clk) r = (Ok u, r') → ∃ mo ks ds, covered mo ks ds r r'.
Proof.
  unfold with_handle, CommitDetached. destruct (wh_done h); [done|].
  destruct (commitDetachedOpen h id now clk r) as [[[]|e] r1] eqn:Hrun; [|done]. intros [= <- <-].
  unfold commitDetachedOpen in Hrun.
  apply bind_Ok in Hrun as (c & r2 & Hsc & Hrun). apply bind_Ok in Hrun as ([] & r3 & Hfl & Hrun).
  assert ((c ← storeContent (bytes_reader (wh_buf h)) (blen (wh_buf h)) clk;
           flushPacker clk ≫= λ _, mret c) r = (Ok c, r3)) as Hstore.
  { apply bind_Ok. exists c, r2. split; [done|]. apply bind_Ok. by exists tt, r3. }
  apply store_flush_meta in Hstore as [Hm Hc]. runs_of Hrun.
  match goal with E : UpdateInodeContent _ ?rec _ = (Ok ?u, _) |- _ =>
    destruct u; exists (OUpdateInodeContent id rec) end.
  do 2 eexists. split; [done|]. split.
  - eapply mutates_bumped. exists (r_DB r3). split_and!; [done|done|].
    intros m Hm'. exists m. cbn. rewrite Hc. by split; [|apply told_refl].
  - split; [cbn; lia|]. split; [cbn; lia|]. cbn [touched touched_dirs]. set_solver.
Qed.

Lemma rop_covered o r u r' : run_rop o r = (Ok u, r') → ∃ mo ks ds, covered mo ks ds r r'.
Proof.
  destruct o; cbn [run_rop]; intros Hrun;
    lazymatch type of Hrun with
    | (_ ≫= _) _ = _ => apply bind_Ok in Hrun as (a & r1 & Hrun & E); injection E as <- <-
    | _ => idtac
    end; revert Hrun.
  - apply covered_Commit.
  - apply covered_CommitDetached.
  - apply covered_Unlink.
  - apply covered_Mkdir.
  - apply covered_Rmdir.
  - apply covered_Rename.
  - apply covered_Link.
  - apply covered_Mknod.
  - apply covered_Symlink.
  - apply covered_SetAttr.
Qed.

(** C7: the write path tells the lease manager.  After a successful
    operation of the write path ([rop]: Commit and CommitDetached of a
    handle, Unlink, Mkdir, Rmdir, Rename, Link, Mknod, Symlink, SetAttr) on a
    mutable repository with a lease manager, over any store the database's
    methods can build, the version of every inode whose record changed has
    moved, and so has the directory version of every directory whose bindings
    changed: no holder can take its copy of either for current.  PublishTree
    is not an operation of the write path: it bumps nothing. *)
Theorem mutations_invalidate o r m u r' :
  built (r_DB r) → fs_seq (view (r_DB r)) + 1 < 2 ^ 64 → r_Coherence r = Some m →
  run_rop o r = (Ok u, r') →
  ∃ m', r_Coherence r' = Some m' ∧
  (∀ i rec, fs_inodes (view (r_DB r)) !! i = Some rec → fs_inodes (view (r_DB r')) !! i ≠ Some rec →
     versionLocked (InodeCoherenceKey i) m' ≠ versionLocked (InodeCoherenceKey i) m) ∧
  (∀ d, entries d (view (r_DB r')) ≠ entries d (view (r_DB r)) →
     DirVersion (DirCoherenceKey d) m' ≠ DirVersion (DirCoherenceKey d) m).
Proof.
  intros Hr Hseq Hm Hrun. apply rop_covered in Hrun as (mo & ks & ds & Hw & (d1 & Hsm & Hop & Ht) & Hlk & Hld & Hi & Hd).
  destruct (Ht m Hm) as (m' & Hm' & HV & HD). exists m'. split; [done|].
  apply built_has_inv in Hr as [Hk Hinv]. destruct (built_next _ Hinv Hseq) as (_ & Hfresh & _).
  pose proof (same_meta_view _ _ Hsm) as Ev.
  assert (keys_ok d1) as Hk1 by (destruct Hsm as [E1 _ _ _ E2 _]; unfold keys_ok; by rewrite E1, E2).
  assert (view (r_DB r') = fs_effect mo (view (r_DB r))) as Ev'.
  { pose proof (op_implements mo d1 Hk1) as Himp. rewrite Ev in Himp. specialize (Himp (bi_forest _ Hinv)).
    unfold implements in Himp. rewrite Ev in Himp.
    destruct (fs_pre mo (view (r_DB r))); [|congruence]. destruct Himp as (d2 & E & <-). congruence. }
  rewrite Ev'. split.
  - intros i rec Hrec Hne. rewrite HV. apply ver_after_changes.
    + apply times_elem, Hi. destruct (decide (i ∈ touched mo (view (r_DB r)))) as [?|Hni]; [done|].
      by rewrite (effect_inodes mo _ i rec) in Hne.
    + pose proof (times_le (InodeCoherenceKey i) ks). lia.
  - intros d Hne. rewrite HD. apply ver_after_changes.
    + apply times_elem, Hd. destruct (decide (d ∈ touched_dirs mo)) as [?|Hni]; [done|].
      by rewrite effect_entries in Hne.
    + pose proof (times_le (DirCoherenceKey d) ds). lia.
Qed.
End shapes.
