(* ===== verification/RepoReach.v ===== *)
(** pkg/repo: the write path stays within the states of the metadata store.

    The theorems of MetaThm are about the databases [reachable] by calls that
    respect the protocol [op_ok].  Here the calls are the repository's: under
    the conditions [rop_ok] on its own arguments, every operation of the
    write path, whether it succeeds or fails and wherever it stops, leaves
    the database reachable. *)
From S2P Require Import Prelude Bolt Chunk Manifest Store Pack MetaDB MetaSpec MetaRefine MetaTree.
From S2P Require Import MetaInv MetaThm Coherence RepoUtil Repo RepoRead RepoStore RepoThm RepoCoh.

(** What the caller sees to: directories come from a lookup, files are not
    removed by [Rmdir] nor directories by [Unlink], counters do not overflow. *)
Definition rop_ok (o : rop) (f : fs) : Prop :=
  match o with
  | RCommit h _ _ =>
      live_dir f (wh_dir h) ∧ blen (wh_buf h) < 2 ^ 63 ∧
      bytes_in_use f + blen (wh_buf h) < 2 ^ 64 ∧ counters_ok f
  | RCommitDetached h id _ _ => ¬ live f id ∧ blen (wh_buf h) < 2 ^ 63
  | RUnlink d n _ => ∀ i, fs_names f !! (d, n) = Some i → ¬ is_dir f i
  | RMkdir d _ _ _ _ => live_dir f d ∧ counters_ok f
  | RRmdir _ _ _ => True
  | RRename od on nd nn now clk => op_ok (ORename od on nd nn clk now) f
  | RLink d n t now => op_ok (OLink d n t now) f
  | RMknod d _ _ _ _ _ _ => live_dir f d ∧ counters_ok f
  | RSymlink d _ t _ _ =>
      live_dir f d ∧ blen t < 2 ^ 63 ∧ bytes_in_use f + blen t < 2 ^ 64 ∧ counters_ok f
  | RSetAttr _ _ _ => True
  end.

Section reach.
Context {bucket : Type → Type} `{BoltLaws bucket} {B : Type} `{BackendLaws B} {blake3 : Blake3}.
Context {callback handler : Type}.
Abbreviation repo := (Repo bucket B callback handler).
Implicit Types r : repo.

Definition reach_at (f : fs) (r : repo) : Prop := reachable (r_DB r) ∧ view (r_DB r) = f.
Definition stays (r : repo) : Prop := reachable (r_DB r).

(** From the file system [f], the computation ends in a reachable store. *)
Definition settles {A} (f : fs) (m : M repo A) : Prop := ∀ r, reach_at f r → stays (m r).2.

(** ** Composition *)

Lemma settles_of_keeps {A} f (m : M repo A) : keeps (reach_at f) m → settles f m.
Proof. intros Hm r Hr. by destruct (Hm r Hr). Qed.

Lemma settles_bind {A C} f (m : M repo A) (k : A → M repo C) :
  keeps (reach_at f) m → (∀ a, settles f (k a)) → settles f (m ≫= k).
Proof.
  intros Hm Hk r Hr. specialize (Hm r Hr). unfold mbind, M_bind.
  destruct (m r) as [[a|e] r1]; [by apply Hk|by destruct Hm].
Qed.

(** The one operation on the store, and what follows it. *)
Lemma settles_op {A C} f o (m : M (DB bucket) A) (k : A → M repo C) :
  op_ok o f → (∀ tx, (m tx).2 = (run_op o tx).2) → (∀ a, keeps stays (k a)) → settles f (onDB m ≫= k).
Proof.
  intros Ho Em Hk r [Hr Hv]. unfold mbind, M_bind, onDB, zoom.
  assert (reachable (m (r_DB r)).2) as Hd by (rewrite Em; apply reach_op; [done|by rewrite Hv]).
  destruct (m (r_DB r)) as [[a|e] d]; [by apply Hk|done].
Qed.

Lemma settles_attempt_op {A C} f o (m : M (DB bucket) A) (k : result A → M repo C) :
  op_ok o f → (∀ tx, (m tx).2 = (run_op o tx).2) → (∀ a, keeps stays (k a)) →
  settles f (attempt (onDB m) ≫= k).
Proof.
  intros Ho Em Hk r [Hr Hv]. unfold mbind, M_bind, attempt, onDB, zoom.
  assert (reachable (m (r_DB r)).2) as Hd by (rewrite Em; apply reach_op; [done|by rewrite Hv]).
  destruct (m (r_DB r)) as [res d]. by apply Hk.
Qed.

Lemma run_drop {S A} (m : M S A) s : (m s).2 = ((m ≫= λ _, mret tt) s).2.
Proof. unfold mbind, M_bind. by destruct (m s) as [[a|e] s']. Qed.

Lemma settles_drop {A} f (m : M repo A) : settles f m → settles f (m ≫= λ _, mret tt).
Proof. intros Hm r Hr. rewrite <- run_drop. by apply Hm. Qed.

(** ** Steps that leave the store as it is *)

Lemma reach_view {A} f (g : DB bucket → result A) : keeps (reach_at f) (onDB (View g)).
Proof. intros r Hr. rewrite onDB_view. done. Qed.

Lemma reach_requireMutable f : keeps (reach_at f) requireMutable.
Proof. intros r Hr. unfold requireMutable. by destruct (Mutable _). Qed.

Lemma stays_bump key : keeps stays (bump key).
Proof. by intros r Hr. Qed.

Lemma stays_bumpDirEntries d : keeps stays (bumpDirEntries d).
Proof. by intros r Hr. Qed.

Lemma reach_closed f : storage_closed (reach_at f).
Proof.
  split; try done. intros r id loc t [Hr Hv]. unfold onDB, zoom.
  pose proof (reach_op _ (OPutLocator (r_Region r) id loc t) Hr I) as Hr'. cbn [run_op] in Hr'.
  destruct (PutLocator_run (r_Region r) id loc t (r_DB r)) as (d' & E & Hm & _). rewrite E in *.
  split; [done|]. cbn [snd r_DB set_DB]. by rewrite (same_meta_view _ _ Hm).
Qed.

Ltac stays_tac :=
  repeat lazymatch goal with
    | |- keeps _ (bump _) => apply stays_bump
    | |- keeps _ (bumpDirEntries _) => apply stays_bumpDirEntries
    | |- _ => first [apply keeps_ret | apply keeps_throw | apply keeps_bind; [|intros ?] | case_bool_decide | case_match]
    end.

(** ** The operations *)

Lemma settles_Unlink f d n clk : rop_ok (RUnlink d n clk) f → settles f (Unlink d n clk).
Proof.
  intros Ho. apply settles_bind; [apply reach_requireMutable|]. intros _.
  apply settles_bind; [apply keeps_attempt, reach_view|]. intros res.
  apply (settles_op f (ORemoveEntry d n clk)); [|done|intros; stays_tac].
  intros i Hi Hd. by destruct (Ho i Hi).
Qed.

Lemma settles_Mkdir f d n mode o now : rop_ok (RMkdir d n mode o now) f → settles f (Mkdir d n mode o now).
Proof.
  intros [Hd Hc]. apply settles_bind; [apply reach_requireMutable|]. intros _.
  set (rec := dir_record _ _ _ _).
  apply (settles_attempt_op f (OCommitMkdir d n rec now)); [|intros; apply run_drop|intros; stays_tac].
  destruct Hc. by split_and!.
Qed.

Lemma settles_Rmdir f d n clk : settles f (Rmdir d n clk).
Proof.
  intros r Hr. unfold Rmdir. revert r Hr. apply settles_bind; [apply reach_requireMutable|]. intros _ r Hr.
  unfold mbind, M_bind at 1, Lookup. rewrite onDB_view.
  destruct (lookupTx d n (r_DB r)) as [id|e] eqn:Hl; [|by destruct Hr].
  unfold M_bind at 1, GetInode. rewrite onDB_view.
  destruct (getInodeTx id (r_DB r)) as [rec|e]; [|by destruct Hr].
  destruct (negb (IsDir rec)); [by destruct Hr|].
  unfold M_bind at 1, Readdir. rewrite onDB_gets.
  destruct (Z.ltb_spec 0 (Z.of_nat (length (readdirTx id (r_DB r))))) as [|Hlen]; [by destruct Hr|].
  revert r Hr Hl Hlen. intros r Hr Hl Hlen.
  refine (settles_op f (ORemoveEntry d n clk) _ (λ _, bump (InodeCoherenceKey id) ≫= λ _, bumpDirEntries d) _ _ _ r Hr);
    [|done|intros; stays_tac].
  destruct Hr as [_ <-]. intros i Hi _. rewrite lookupTx_view, Hi in Hl. injection Hl as ->.
  apply (bool_decide_eq_true_1 (entries id (view (r_DB r)) = ∅)). rewrite readdirTx_empty. by rewrite (proj2 (Z.ltb_ge _ _)).
Qed.

Lemma settles_Rename f od on nd nn now clk :
  rop_ok (RRename od on nd nn now clk) f → settles f (repo_Rename od on nd nn now clk).
Proof.
  intros Ho. apply settles_bind; [apply reach_requireMutable|]. intros _.
  apply settles_bind; [apply keeps_attempt, reach_view|]. intros res.
  apply settles_bind.
  { destruct res; [apply keeps_ret|]. case_bool_decide; [apply keeps_ret|apply keeps_throw]. }
  intros _. apply settles_bind; [apply keeps_attempt, reach_view|]. intros moved.
  apply (settles_op f (ORename od on nd nn clk now)); [done|done|intros; stays_tac].
Qed.

Lemma settles_Link f d n t now : rop_ok (RLink d n t now) f → settles f (repo_Link d n t now).
Proof.
  intros Ho. apply settles_bind; [apply reach_requireMutable|]. intros _.
  apply (settles_op f (OLink d n t now)); [done|intros; apply run_drop|intros; stays_tac].
Qed.

Lemma settles_publish {C} f d n rec now (k : InodeID → M repo C) :
  op_ok (OPublishFile d n rec now) f → (∀ i, keeps stays (k i)) →
  settles f (onDB (PublishFile d n rec now) ≫= k).
Proof. intros Ho Hk. apply (settles_op f (OPublishFile d n rec now)); [done|intros; apply run_drop|done]. Qed.

Lemma settles_Mknod f d n typ rdev mode o now :
  fs_inv f → rop_ok (RMknod d n typ rdev mode o now) f → settles f (Mknod d n typ rdev mode o now).
Proof.
  intros I [Hd Hc]. apply settles_bind; [apply reach_requireMutable|]. intros _.
  apply settles_publish; [|intros; stays_tac]. pose proof (inv_bytes_range _ I).
  destruct Hc. split_and!; try done; cbn [Size]; lia.
Qed.

Lemma settles_Symlink f d n t o now :
  rop_ok (RSymlink d n t o now) f → settles f (Symlink d n t o now).
Proof.
  intros (Hd & Ht & Hb & Hc). apply settles_bind; [apply reach_requireMutable|]. intros _.
  apply settles_publish; [|intros; stays_tac]. pose proof (blen_nonneg t).
  destruct Hc. split_and!; try done; cbn [Size]; lia.
Qed.

Lemma settles_SetAttr f i mut now : settles f (repo_SetAttr i mut now).
Proof.
  apply settles_bind; [apply reach_requireMutable|]. intros _.
  apply (settles_op f (OSetAttr i mut now)); [done|intros; apply run_drop|intros; stays_tac].
Qed.

(** ** Commits *)

(** The size a commit records is the size of what was written. *)
Lemma storeContent_size rd size clk r c r' :
  storeContent rd size clk r = (Ok c, r') → cr_size c = u64 size.
Proof.
  unfold storeContent. destruct (Z.eqb_spec size 0) as [->|Hne]; [by intros [= <- <-]|].
  intros Hrun. repeat (apply bind_Ok in Hrun as (? & ? & ? & Hrun)).
  repeat case_match; repeat (apply bind_Ok in Hrun as (? & ? & ? & Hrun)); by injection Hrun as <- <-.
Qed.

(** Storing the buffer of a handle, and then using what was stored. *)
Lemma settles_store {C} f buf clk (k : contentRef → M repo C) :
  (∀ c, cr_size c = u64 (blen buf) → settles f (k c)) →
  settles f (c ← storeContent (bytes_reader buf) (blen buf) clk; flushPacker clk ≫= λ _, k c).
Proof.
  intros Hk r Hr. unfold mbind, M_bind at 1.
  pose proof (keeps_storeContent _ (reach_closed f) (bytes_reader buf) (blen buf) clk r Hr) as Hr1.
  destruct (storeContent _ _ _ r) as [[c|e] r1] eqn:Hsc; [|by destruct Hr1]. cbn [snd] in Hr1.
  apply storeContent_size in Hsc. revert r1 Hr1. apply settles_bind; [|intros _; by apply Hk].
  apply keeps_flush, reach_closed.
Qed.

Lemma settles_Commit f h now clk :
  rop_ok (RCommit h now clk) f → settles f (with_handle h (Commit now clk)).
Proof.
  intros (Hd & Hs & Hb & Hc) r Hr. unfold with_handle, Commit. destruct (wh_done h); [by destruct Hr|].
  assert (stays (commitOpen h now clk r).2) as Hst.
  2:{ by destruct (commitOpen h now clk r) as [[id|e] r1]. }
  revert r Hr. apply settles_bind.
  { apply keeps_bind; [apply keeps_attempt, reach_view|]. intros [id|e].
    - apply keeps_bind; [apply reach_view|]. intros rec. destruct (IsDir rec); [apply keeps_throw|apply keeps_ret].
    - case_bool_decide; [apply keeps_ret|apply keeps_throw]. }
  intros old. apply settles_bind; [apply keeps_gets|]. intros [u|e]; [|apply settles_of_keeps, keeps_throw].
  apply settles_store. intros c Hcs.
  set (rec := apply c (file_record (commit_mode h) (o_Uid (wh_owner h)) (o_Gid (wh_owner h)) now)).
  apply (settles_attempt_op f (OCommitFile (wh_dir h) (wh_name h) rec now));
    [|intros; apply run_drop|intros; stays_tac].
  pose proof (blen_nonneg (wh_buf h)). assert (Size rec = blen (wh_buf h)) as Esz.
  { change (Size rec) with (cr_size c). rewrite Hcs. apply u64_id. unfold in_u64. lia. }
  destruct Hc. split_and!; rewrite ?Esz; done || lia.
Qed.

Lemma settles_CommitDetached f h id now clk :
  rop_ok (RCommitDetached h id now clk) f → settles f (with_handle h (CommitDetached id now clk)).
Proof.
  intros [Hl Hs] r Hr. unfold with_handle, CommitDetached. destruct (wh_done h); [by destruct Hr|].
  assert (stays (commitDetachedOpen h id now clk r).2) as Hst.
  2:{ by destruct (commitDetachedOpen h id now clk r) as [[u|e] r1]. }
  revert r Hr. apply settles_store. intros c Hcs. cbv zeta.
  set (rec := apply c (set_NLink 0 (file_record 0 0 0 now))).
  apply (settles_op f (OUpdateInodeContent id rec)); [|done|intros; stays_tac].
  pose proof (blen_nonneg (wh_buf h)). assert (Size rec = blen (wh_buf h)) as Esz.
  { change (Size rec) with (cr_size c). rewrite Hcs. apply u64_id. unfold in_u64. lia. }
  split; [done|]. rewrite Esz. lia.
Qed.

(** Every operation of the repository's write path, whatever its result,
    takes a database in which the guarantees of the metadata store hold to
    another: under conditions on its own arguments it respects the protocol
    the store's theorems assume. *)
Theorem write_path_reachable o r :
  reachable (r_DB r) → rop_ok o (view (r_DB r)) → reachable (r_DB (run_rop o r).2).
Proof.
  intros Hr Ho. pose proof (reachable_inv _ Hr) as [_ I].
  assert (settles (view (r_DB r)) (run_rop o)) as Hs; [|by apply Hs].
  destruct o; cbn [run_rop]; try apply settles_drop;
    auto using settles_Commit, settles_CommitDetached, settles_Unlink, settles_Mkdir, settles_Rmdir,
      settles_Rename, settles_Link, settles_Mknod, settles_Symlink, settles_SetAttr.
Qed.
End reach.
