(* ===== verification/GC.v ===== *)
(** pkg/repo/gc.go: mark and sweep, compaction and reaping.

    A sweep marks what the namespace, the recent graveyard, the pinned inodes
    and the packer refer to, drops the locators of everything else that is
    old enough, rewrites the containers that are mostly dead, and deletes the
    containers retired long enough ago.  Go's [map]s used as sets are sets;
    the count a function returns beside an error is dropped.  Loops that end
    by a condition carry a bound on their iterations. *)
From Stdlib Require Import SpecFloat.
From S2P Require Import Prelude Bolt Chunk Manifest Store Pack MetaDB Coherence RepoUtil Repo RepoRead.

Definition TWriteMax : duration := 1 * Hour.
Definition DMax : duration := 30 * Second.
Definition Epsilon : duration := 500 * Millisecond.
Definition MinGraceDuration : duration := TWriteMax + DMax + Epsilon.
Definition DefaultGraceDuration : duration := 24 * Hour.

(** [float64(n)] and [float64(live)/float64(size) >= threshold], in IEEE
    double precision. *)
Definition float64 (n : Z) : spec_float := binary_normalize 53 1024 n 0 false.
Definition DefaultLivenessThreshold : spec_float := binary_normalize 53 1024 1 (-1) false.
Definition dense (live size : Z) (threshold : spec_float) : bool :=
  SFleb threshold (SFdiv 53 1024 (float64 live) (float64 size)).

(** A loop over a list that threads a value and may fail. *)
Fixpoint fold_result {A C} (f : C → A → result C) (c : C) (l : list A) : result C :=
  match l with
  | [] => Ok c
  | x :: l' => match f c x with Ok c' => fold_result f c' l' | Err e => Err e end
  end.

(** [containerState]. *)
Record containerState := mkContainerState {
  cs_entries : list LocatorEntry; cs_liveBytes : Z; cs_extent : Z
}.

(** The chunks of each container, and how many bytes they take. *)
Definition addLocator (m : gmap bytes containerState) (e : LocatorEntry) : gmap bytes containerState :=
  let loc := le_Locator e in
  let cs := default (mkContainerState [] 0 0) (m !! l_Container loc) in
  let end_ := i64 (l_Offset loc + l_Length loc) in
  <[l_Container loc := mkContainerState (cs_entries cs ++ [e]) (i64 (cs_liveBytes cs + l_Length loc))
                         (if cs_extent cs <? end_ then end_ else cs_extent cs)]> m.

Definition byContainer (locs : list LocatorEntry) : gmap bytes containerState := foldl addLocator ∅ locs.

Section gc.
Context {bucket : Type → Type} `{BoltOps bucket} {B : Type} `{BackendOps B} {blake3 : Blake3}.
Context {callback handler : Type}.
Abbreviation repo := (Repo bucket B callback handler).

(** A function that reads the repository, and [r.DB.DeleteLocator(r.Region,
    id)]. *)
Definition reading {A} (f : repo → result A) : M repo A := λ r, (f r, r).
Definition dropLocator (id : ID) : M repo unit := λ r, onDB (DeleteLocator (r_Region r) id) r.

(** ** Mark *)

Definition chunkIDsOf (rec : InodeRecord) (r : repo) : result (list ID) :=
  if HasInline rec then Ok [InlineChunk rec]
  else if HasManifest rec then
    match getManifest (ManifestID rec) r with
    | Err e => Err e
    | Ok m => Ok (e_ChunkID <$> m_Entries m)
    end
  else Ok [].

Fixpoint markLiveTree (fuel : nat) (r : repo) (live : gset ID) (dir : InodeID) : result (gset ID) :=
  match fuel with
  | O => Err ErrOutOfFuel
  | S fuel' =>
      fold_result (λ live e,
        match getInodeTx (de_Inode e) (r_DB r) with
        | Err err => Err err
        | Ok rec =>
            if IsDir rec then markLiveTree fuel' r live (de_Inode e)
            else match chunkIDsOf rec r with
                 | Err err => Err err
                 | Ok ids => Ok (live ∪ list_to_set ids)
                 end
        end) live (readdirTx dir (r_DB r))
  end.

(** A path in the tree is no longer than the number of bindings. *)
Definition tree_fuel (r : repo) : nat := S (length (bk_cursor (bDentry (r_DB r)))).

Definition markGrave (cutoff : time) (held : gset InodeID) (r : repo) (live : gset ID)
    (e : GraveyardEntry) : result (gset ID) :=
  if negb (After (ge_DeletedAt e) cutoff) && negb (bool_decide (ge_InodeID e ∈ held)) then Ok live
  else match getInodeTx (ge_InodeID e) (r_DB r) with
       | Err err => Err err
       | Ok rec => match chunkIDsOf rec r with
                   | Err err => Err err
                   | Ok ids => Ok (live ∪ list_to_set ids)
                   end
       end.

Definition graveyard (r : repo) : list GraveyardEntry :=
  match (ListGraveyard (r_DB r)).1 with Ok es => es | Err _ => [] end.

Definition markLive (cutoff : time) (held : gset InodeID) (r : repo) : result (gset ID) :=
  match markLiveTree (tree_fuel r) r ∅ RootInode with
  | Err e => Err e
  | Ok live =>
      match fold_result (markGrave cutoff held r) live (graveyard r) with
      | Err e => Err e
      | Ok live => Ok (live ∪ list_to_set (PendingIDs (r_packer r)))
      end
  end.

(** ** Sweep *)

(** Drop the locators of an inode's chunks that nothing else refers to. *)
Definition dropChunk (live removed : gset ID) (id : ID) : M repo (gset ID) :=
  if bool_decide (id ∈ live) then mret removed
  else if bool_decide (id ∈ removed) then mret removed
  else dropLocator id ≫= λ _, mret (removed ∪ {[id]}).

Definition sweepGrave (cutoff : time) (held : gset InodeID) (live removed : gset ID)
    (e : GraveyardEntry) : M repo (gset ID) :=
  if After (ge_DeletedAt e) cutoff then mret removed
  else if bool_decide (ge_InodeID e ∈ held) then mret removed
  else
    res ← attempt (onDB (GetInode (ge_InodeID e)));
    match res with
    | Err err =>
        if bool_decide (err = ErrNotFound)
        then onDB (RemoveGraveyardEntry e) ≫= λ _, mret removed
        else throw err
    | Ok rec =>
        ids ← reading (chunkIDsOf rec);
        removed ← fold_m (dropChunk live) removed ids;
        onDB (DeleteInode (ge_InodeID e)) ≫= λ _,
        onDB (RemoveGraveyardEntry e) ≫= λ _,
        mret removed
    end.

(** The variables of the loop of [sweepOrphans]: the chunks removed, and the
    seal times looked up so far. *)
Definition sweepOrphan (cutoff : time) (live : gset ID) (st : gset ID * gmap bytes (option time))
    (e : LocatorEntry) : M repo (gset ID * gmap bytes (option time)) :=
  let '(removed, known) := st in
  if bool_decide (le_ChunkID e ∈ live) then mret st
  else if bool_decide (le_ChunkID e ∈ removed) then mret st
  else
    let c := l_Container (le_Locator e) in
    sealed ← gets (λ r : repo, match known !! c with Some s => s | None => ContainerSealedAt c (r_DB r) end);
    let known := <[c := sealed]> known in
    match (sealed : option time) with
    | None => mret (removed, known)
    | Some at_ =>
        if After at_ cutoff then mret (removed, known)
        else dropLocator (le_ChunkID e) ≫= λ _,
             mret (removed ∪ {[le_ChunkID e]}, known)
    end.

Definition sweepOrphans (cutoff : time) (live removed : gset ID) : M repo (gset ID) :=
  entries ← gets (λ r : repo, ListLocators (r_Region r) (r_DB r));
  st ← fold_m (sweepOrphan cutoff live) (removed, ∅) entries;
  mret st.1.

(** ** Compaction *)

(** The loop of [listContainers] over the pages of the listing. *)
Fixpoint list_pages (pages : nat) (prefix cursor : bytes) (out : list ObjectInfo) (r : repo) :
    result (list ObjectInfo) :=
  match pages with
  | O => Err ErrOutOfFuel
  | S pages' =>
      match b_List prefix cursor 0 (r_Backend r) with
      | Err e => Err e
      | Ok page =>
          let out := out ++ lp_Keys page in
          if bool_decide (lp_NextCursor page = []) then Ok out
          else list_pages pages' prefix (lp_NextCursor page) out r
      end
  end.

(** A listing of at most [pages] pages. *)
Definition listContainers (pages : nat) (r : repo) : result (list ObjectInfo) :=
  list_pages pages (str "atlas/c/" ++ r_Region r ++ str "/") [] [] r.

Definition deadContainerSet (r : repo) : gset bytes :=
  list_to_set (dc_Key <$> ListDeadContainers (r_DB r)).

(** Refetch a chunk into the replacement container. *)
Definition repack (p : Packer) (e : LocatorEntry) : M repo Packer := λ r,
  match Fetch (le_ChunkID e) (le_Locator e) (r_Backend r) with
  | Err err => (Err err, r)
  | Ok data => (Ok (Add (mkChunk (le_ChunkID e) data) p), r)
  end.

(** [Seal] of a packer of its own. *)
Definition sealNew (p : Packer) : M repo (gmap ID Locator) := λ r,
  if Empty p then (Ok ∅, r)
  else match draw r with
       | (Err e, r) => (Err e, r)
       | (Ok rnd, r) =>
           match Seal rnd (r_Backend r, p) with
           | (res, (b, _)) => (res, set_Backend b r)
           end
       end.

Definition rewriteContainer (entries : list LocatorEntry) (clk : time) : M repo unit :=
  match entries with
  | [] => mret tt
  | _ =>
      region ← gets r_Region;
      p ← fold_m repack (NewPacker region 0) entries;
      newLocs ← sealNew p;
      putLocators newLocs clk
  end.

(** One container of [Compact]; the count of rewritten ones. *)
Definition compactOne (threshold : spec_float) (byC : gmap bytes containerState)
    (pendingDead : gset bytes) (clk : time) (rewritten : Z) (c : ObjectInfo) : M repo Z :=
  if oi_Size c <=? 0 then mret rewritten
  else if bool_decide (oi_Key c ∈ pendingDead) then mret rewritten
  else
    let '(live, entries) :=
      match byC !! oi_Key c with Some cs => (cs_liveBytes cs, cs_entries cs) | None => (0, []) end in
    if dense live (oi_Size c) threshold then mret rewritten
    else
      rewriteContainer entries clk ≫= λ _,
      onDB (MarkContainerDead (oi_Key c) clk) ≫= λ _,
      mret (rewritten + 1).

Definition Compact (pages : nat) (threshold : spec_float) (clk : time) : M repo Z :=
  locs ← gets (λ r : repo, ListLocators (r_Region r) (r_DB r));
  containers ← reading (listContainers pages);
  pendingDead ← gets deadContainerSet;
  fold_m (compactOne threshold (byContainer locs) pendingDead clk) 0 containers.

(** ** Reaping *)

(** One result of a batch delete. *)
Definition reapResult (res : DeleteResult) : M repo unit :=
  match dr_Err res with
  | Some e => if bool_decide (e = StoreErrNotFound) then onDB (RemoveDeadContainer (dr_Key res)) else throw e
  | None => onDB (RemoveDeadContainer (dr_Key res))
  end.

(** The loop over batches; every batch takes a key. *)
Fixpoint reap_batches (fuel : nat) (batch : nat) (keys : list bytes) : M repo unit :=
  match fuel, keys with
  | _, [] => mret tt
  | O, _ => throw ErrOutOfFuel
  | S fuel', _ =>
      results ← onBackend (b_Delete (take batch keys));
      each reapResult results ≫= λ _,
      reap_batches fuel' batch (drop batch keys)
  end.

Definition reapDeadContainers (cutoff : time) : M repo unit :=
  dead ← gets (λ r : repo, ListDeadContainers (r_DB r));
  let keys := dc_Key <$> filter (λ d, After (dc_RetiredAt d) cutoff = false) dead in
  batch ← gets (λ r : repo, BatchDelete (b_Caps (r_Backend r)));
  reap_batches (length keys) (Z.to_nat (if batch <=? 0 then 1 else batch)) keys.

Definition Sweep (pages : nat) (graceDuration : duration) (clk : time) : M repo Z :=
  if graceDuration <=? MinGraceDuration then throw ErrGraceTooShort
  else
    let cutoff := clk - graceDuration in
    held ← gets (λ r : repo, Snapshot (r_OpenHandles r));
    live ← reading (markLive cutoff held);
    entries ← onDB ListGraveyard;
    removed ← fold_m (sweepGrave cutoff held live) ∅ entries;
    removed ← sweepOrphans cutoff live removed;
    Compact pages DefaultLivenessThreshold clk ≫= λ _,
    reapDeadContainers cutoff ≫= λ _,
    mret (Z.of_nat (size removed)).

End gc.
