(* ===== verification/GCThm.v ===== *)
(** pkg/repo/gc.go: a sweep takes nothing away that is still wanted.

    [gc_state] is what holds at every point of a sweep, also where it stops
    with an error: the repository is consistent, no locator points into a
    retired container, and what was marked is untouched.  Each phase keeps
    it; the mark phase reaches every file that the tree leads to or that has
    a recent graveyard entry or an open handle. *)
From S2P Require Import Prelude Bolt Chunk Manifest Store Pack MetaDB MetaSpec MetaRefine MetaTree.
From S2P Require Import MetaInv MetaBuilt MetaThm Coherence RepoUtil Repo RepoRead RepoStore RepoThm GC.

Section statements.
Context {bucket : Type → Type} `{BoltOps bucket} {B : Type} `{BackendOps B} {blake3 : Blake3}.
Context {callback handler : Type}.
Abbreviation repo := (Repo bucket B callback handler).
Context (K : bytes → Prop) (N : nat).

(** A key that may be deleted: no locator points there, it is not a manifest
    and not a name still to be given to a container. *)
Record unused (r : repo) (key : bytes) : Prop := mkUnused {
  un_locator : ∀ id loc, GetLocator (r_Region r) id (r_DB r) = Some loc → l_Container loc ≠ key;
  un_manifest : ∀ mid, key ≠ manifestKey mid;
  un_fresh : ∀ i, (r_drawn r <= i < N)%nat → key ≠ newContainerKey (r_Region r) (r_rand r i)
}.

(** Retired containers are unused. *)
Definition dead_ok (r : repo) : Prop :=
  ∀ key, is_Some (bk_get key (bDeadCnt (r_DB r))) → unused r key.

(** The store holds the locators of one region. *)
Definition one_region (r : repo) : Prop :=
  ∀ k v, bk_get k (bLocator (r_DB r)) = Some v → ∃ id, k = locatorKey (r_Region r) id.

(** A sweep that started in [r0], has marked the chunks [L] and must keep the
    inodes [keep], has got to [r]. *)
Record gc_state (r0 : repo) (L : gset ID) (keep : InodeID → Prop) (r : repo) : Prop := mkGcState {
  gs_inv : repo_inv K N r;
  gs_dead : dead_ok r;
  gs_keys : one_region r;
  gs_chunks : ∀ d, K d → Sum d ∈ L → has_chunk r0 d → has_chunk r d;
  gs_manifests : ∀ mid data, b_object (manifestKey mid) (r_Backend r0) = Some data →
    b_object (manifestKey mid) (r_Backend r) = Some data;
  gs_names : bDentry (r_DB r) = bDentry (r_DB r0);
  gs_inodes : ∀ i, keep i →
    bk_get (inodeKey i) (bInode (r_DB r)) = bk_get (inodeKey i) (bInode (r_DB r0));
  gs_config : same_config r0 r;
  gs_packer : r_packer r = r_packer r0
}.

(** The same, as long as the supply of container names lasts. *)
Definition sweeping (r0 : repo) (L : gset ID) (keep : InodeID → Prop) (r : repo) : Prop :=
  (r_drawn r0 <= r_drawn r)%nat ∧ ((r_drawn r <= N)%nat → gc_state r0 L keep r).

(** The same, with keys that may all be deleted. *)
Definition reaping (r0 : repo) (L : gset ID) (keep : InodeID → Prop) (keys : list bytes) (r : repo) : Prop :=
  (r_drawn r0 <= r_drawn r)%nat ∧ ((r_drawn r <= N)%nat → gc_state r0 L keep r ∧ Forall (unused r) keys).

(** The chunks of these entries are where the entries say. *)
Definition valid_entries (r : repo) (es : list LocatorEntry) : Prop :=
  Forall (λ e, ∃ d, K d ∧ Sum d = le_ChunkID e ∧ stored_at (le_Locator e) d (r_Backend r)) es.

(** A packer with a right entry for every chunk of [es]. *)
Definition packer_for (region : bytes) (es : list LocatorEntry) (p : Packer) : Prop :=
  p_region p = region ∧
  Forall (λ pe, ∃ d, K d ∧ entry_for (p_buf p) pe (chunk_of d)) (p_pending p) ∧
  ∀ e, e ∈ es → ∃ pe, pe ∈ p_pending p ∧ pe_id pe = le_ChunkID e.

(** A compaction that started in [r1] with the containers [listed]: objects
    are only added, and locators move only to containers that are not
    listed. *)
Record compacted (r0 : repo) (L : gset ID) (keep : InodeID → Prop) (r1 : repo) (listed : list ObjectInfo)
    (r : repo) : Prop := mkCompacted {
  cp_state : gc_state r0 L keep r;
  cp_objects : ∀ key d, b_object key (r_Backend r1) = Some d → b_object key (r_Backend r) = Some d;
  cp_locators : ∀ id loc, GetLocator (r_Region r) id (r_DB r) = Some loc →
    mkLocEntry id loc ∈ ListLocators (r_Region r1) (r_DB r1) ∨ l_Container loc ∉ oi_Key <$> listed
}.

Definition compacting (r0 : repo) (L : gset ID) (keep : InodeID → Prop) (r1 : repo)
    (listed : list ObjectInfo) (r : repo) : Prop :=
  (r_drawn r0 <= r_drawn r)%nat ∧ (r_drawn r1 <= r_drawn r)%nat ∧
  ((r_drawn r <= N)%nat → compacted r0 L keep r1 listed r).

(** The key of the next container. *)
Definition next_key (r : repo) : bytes := newContainerKey (r_Region r) (r_rand r (r_drawn r)).

(** What sealing a replacement container does to a repository. *)
Record resealed (r r' : repo) : Prop := mkResealed {
  rs_inv : repo_inv K N r';
  rs_objects : ∀ key d, b_object key (r_Backend r) = Some d → b_object key (r_Backend r') = Some d;
  rs_chunks : ∀ d, K d → has_chunk r d → has_chunk r' d;
  rs_meta : same_meta (r_DB r) (r_DB r');
  rs_config : same_config r r';
  rs_packer : r_packer r' = r_packer r;
  rs_drawn : (r_drawn r <= r_drawn r')%nat;
  rs_keys : one_region r → one_region r';
  rs_locators : ∀ id loc, GetLocator (r_Region r) id (r_DB r') = Some loc →
    GetLocator (r_Region r) id (r_DB r) = Some loc ∨
    (l_Container loc = next_key r ∧ (r_drawn r < N)%nat ∧ (r_drawn r < r_drawn r')%nat)
}.

(** What the walk of the mark comes to below [a]: the entries of [a] and, below
    those that are directories, theirs. *)
Inductive leads_to (f : fs) : InodeID → InodeID → Prop :=
  | leads_entry a n i : fs_names f !! (a, n) = Some i → leads_to f a i
  | leads_down a n d i : fs_names f !! (a, n) = Some d → is_dir f d → leads_to f d i → leads_to f a i.

(** What a sweep with the given cutoff must leave alone: the inodes that the
    tree leads to or that are in the graveyard, if their graveyard entries
    are all recent or they are held open. *)
Definition protected (cutoff : time) (r : repo) (i : InodeID) : Prop :=
  (leads_to (view (r_DB r)) RootInode i ∨ ∃ e, e ∈ graveyard r ∧ ge_InodeID e = i) ∧
  ∀ e, e ∈ graveyard r → ge_InodeID e = i →
    After (ge_DeletedAt e) cutoff = true ∨ Held i (r_OpenHandles r) = true.

(** What a mark visits: the files the tree leads to, and the inodes of the
    graveyard that went there after the cutoff or are held open. *)
Definition marked (cutoff : time) (r : repo) (i : InodeID) : Prop :=
  (∃ rec, leads_to (view (r_DB r)) RootInode i ∧ getInodeTx i (r_DB r) = Ok rec ∧ IsDir rec = false) ∨
  (∃ e, e ∈ graveyard r ∧ ge_InodeID e = i ∧
     (After (ge_DeletedAt e) cutoff = true ∨ Held i (r_OpenHandles r) = true)).

(** The chunk [id] is part of the content of the inode [i]. *)
Definition refers (r : repo) (i : InodeID) (id : ID) : Prop :=
  ∃ rec ids, getInodeTx i (r_DB r) = Ok rec ∧ chunkIDsOf rec r = Ok ids ∧ id ∈ ids.

(** The chunk [id] is part of a file below [i]. *)
Definition refers_below (r : repo) (i : InodeID) (id : ID) : Prop :=
  ∃ j rec, leads_to (view (r_DB r)) i j ∧ getInodeTx j (r_DB r) = Ok rec ∧ IsDir rec = false ∧ refers r j id.

End statements.

(** * Steps on the metadata store *)

Section gc_db.
Context `{BoltLaws bucket}.
Implicit Types d : DB bucket.

Lemma DeleteLocator_run region id d :
  DeleteLocator region id d = (Ok tt, on_locator (bk_delete (locatorKey region id)) d).
Proof. unfold DeleteLocator. by rewrite bolt_update_run. Qed.

Lemma GetLocator_delete region id id' d :
  GetLocator region id' (on_locator (bk_delete (locatorKey region id)) d)
  = if decide (id' = id) then None else GetLocator region id' d.
Proof.
  unfold GetLocator. cbn. rewrite bk_get_delete.
  destruct (decide (id' = id)) as [->|Hne]; [by rewrite decide_True|].
  rewrite decide_False; [done|]. by intros ?%locatorKey_inj.
Qed.

Lemma DeleteInode_run id d : DeleteInode id d = (Ok tt, on_inode (bk_delete (inodeKey id)) d).
Proof. unfold DeleteInode. by rewrite bolt_update_run. Qed.

Lemma RemoveGraveyardEntry_run e d :
  RemoveGraveyardEntry e d
  = (Ok tt, on_gravey (bk_delete (graveyardKey (ge_DeletedAt e) (ge_InodeID e))) d).
Proof. unfold RemoveGraveyardEntry. by rewrite bolt_update_run. Qed.

Lemma MarkContainerDead_run key t d : MarkContainerDead key t d = (Ok tt, on_deadcnt (bk_put key t) d).
Proof. unfold MarkContainerDead. by rewrite bolt_update_run. Qed.

Lemma RemoveDeadContainer_run key d : RemoveDeadContainer key d = (Ok tt, on_deadcnt (bk_delete key) d).
Proof. unfold RemoveDeadContainer. by rewrite bolt_update_run. Qed.

Lemma inodeKey_inj i j : inodeKey i = inodeKey j → i = j.
Proof.
  intros E. apply (f_equal dec_inode) in E. rewrite !dec_inode_key in E. congruence.
Qed.

End gc_db.

(** * Listings *)

Lemma copyID_ba (id : ID) : copyID (ba id) = id.
Proof.
  unfold copyID, barray_fill. rewrite take_app_length' by (by rewrite barray_length).
  by rewrite barray_of_ba.
Qed.

Lemma byContainer_entries locs c :
  match byContainer locs !! c with
  | Some cs => cs_entries cs = filter (λ e, l_Container (le_Locator e) = c) locs
  | None => filter (λ e, l_Container (le_Locator e) = c) locs = []
  end.
Proof.
  unfold byContainer. induction locs as [|e locs IH] using rev_ind; [done|].
  rewrite foldl_app, filter_app, filter_cons, filter_nil. cbn [foldl]. unfold addLocator at 1.
  rewrite lookup_insert. destruct (decide (l_Container (le_Locator e) = c)) as [->|Hne].
  - cbn [cs_entries]. f_equal.
    destruct (foldl addLocator ∅ locs !! c); cbn [default from_option]; [done|by rewrite IH].
  - by rewrite app_nil_r.
Qed.

(** The entries [Compact] collects for a container. *)
Lemma byContainer_filter locs c :
  match byContainer locs !! c with Some cs => cs_entries cs | None => [] end
  = filter (λ e, l_Container (le_Locator e) = c) locs.
Proof. pose proof (byContainer_entries locs c) as Hb. by destruct (byContainer locs !! c). Qed.

(** * The phases *)

Section phases.
Context {bucket : Type → Type} `{BoltLaws bucket} {B : Type} `{BackendLaws B} {blake3 : Blake3}.
Context {callback handler : Type}.
Abbreviation repo := (Repo bucket B callback handler).
Context (K : bytes → Prop) (N : nat) (HK : universe K).
Context (r0 : repo) (L : gset ID) (keep : InodeID → Prop).
Implicit Types r : repo.

Lemma gs_region r : gc_state K N r0 L keep r → r_Region r = r_Region r0.
Proof. intros Hs. by destruct (gs_config _ _ _ _ _ _ Hs). Qed.

(** ** Steps that change only the metadata *)

(** Fewer locators, the marked ones kept. *)
Lemma gc_fewer_locators r d :
  gc_state K N r0 L keep r →
  (∀ k v, bk_get k (bLocator d) = Some v → bk_get k (bLocator (r_DB r)) = Some v) →
  (∀ id loc, GetLocator (r_Region r) id d = Some loc → GetLocator (r_Region r) id (r_DB r) = Some loc) →
  (∀ id, id ∈ L → GetLocator (r_Region r) id d = GetLocator (r_Region r) id (r_DB r)) →
  bDeadCnt d = bDeadCnt (r_DB r) → bDentry d = bDentry (r_DB r) →
  (∀ i, keep i → bk_get (inodeKey i) (bInode d) = bk_get (inodeKey i) (bInode (r_DB r))) →
  gc_state K N r0 L keep (set_DB d r).
Proof.
  intros [[Hl Hm Hp Hr Hf] Hd Hk Hc Hmm Hn Hi Hcfg Hpk] Hkeys Hsub Hlive Hdead Hdent Hino.
  split; try done.
  - split; try done. intros id loc Hloc. by apply Hl, Hsub.
  - intros key Hkey. cbn in Hkey. rewrite Hdead in Hkey. destruct (Hd key Hkey) as [Hu1 Hu2 Hu3].
    split; [|done|done]. intros id loc Hloc. eapply Hu1, Hsub, Hloc.
  - intros k v Hkv. eapply Hk, Hkeys, Hkv.
  - intros dd Kd HL Hch. destruct (Hc dd Kd HL Hch) as (loc & Hloc & Hst). exists loc. cbn.
    by rewrite Hlive.
  - cbn. by rewrite Hdent.
  - intros i Ki. cbn. by rewrite Hino, Hi.
  - destruct Hcfg. by split.
Qed.

Lemma keeps_onDB {A} (m : M (DB bucket) A) :
  (∀ r, gc_state K N r0 L keep r → gc_state K N r0 L keep (set_DB (m (r_DB r)).2 r)) →
  keeps (sweeping K N r0 L keep) (onDB m).
Proof.
  intros Hm r [Hd Hs]. unfold onDB, zoom. specialize (Hm r).
  destruct (m (r_DB r)) as [res d]. split; [done|]. intros HN. by apply Hm, Hs.
Qed.

Lemma keeps_dropLocator id : id ∉ L → keeps (sweeping K N r0 L keep) (dropLocator id).
Proof.
  intros Hid r [Hd Hs]. unfold dropLocator, onDB, zoom. rewrite DeleteLocator_run. split; [done|]. cbn [snd].
  intros HN. apply gc_fewer_locators; [by apply Hs| | | |done..].
  - intros k v. cbn. rewrite bk_get_delete. by case_decide.
  - intros id' loc. rewrite GetLocator_delete. by case_decide.
  - intros id' Hin. rewrite GetLocator_delete. case_decide; [by subst|done].
Qed.

Lemma keeps_DeleteInode i : ¬ keep i → keeps (sweeping K N r0 L keep) (onDB (DeleteInode i)).
Proof.
  intros Hi. apply keeps_onDB. intros r Hs. rewrite DeleteInode_run.
  apply gc_fewer_locators; try done. intros j Hj. cbn. apply bk_get_delete_ne.
  intros E%inodeKey_inj. by subst.
Qed.

Lemma keeps_RemoveGraveyardEntry e : keeps (sweeping K N r0 L keep) (onDB (RemoveGraveyardEntry e)).
Proof.
  apply keeps_onDB. intros r Hs. rewrite RemoveGraveyardEntry_run. by apply gc_fewer_locators.
Qed.

Lemma keeps_reading {A} (P : repo → Prop) (f : repo → result A) : keeps P (reading f).
Proof. by intros r. Qed.

Lemma keeps_dropChunk removed id : keeps (sweeping K N r0 L keep) (dropChunk L removed id).
Proof.
  unfold dropChunk. case_bool_decide as Hl; [apply keeps_ret|]. case_bool_decide; [apply keeps_ret|].
  apply keeps_bind; [by apply keeps_dropLocator|]. intros _. apply keeps_ret.
Qed.

(** Phase one: graveyard entries past grace and not pinned. *)
Lemma keeps_sweepGrave cutoff held removed e :
  (After (ge_DeletedAt e) cutoff = false → ge_InodeID e ∉ held → ¬ keep (ge_InodeID e)) →
  keeps (sweeping K N r0 L keep) (sweepGrave cutoff held L removed e).
Proof.
  intros He. unfold sweepGrave. destruct (After _ cutoff) eqn:Ha; [apply keeps_ret|].
  case_bool_decide as Hh; [apply keeps_ret|]. specialize (He eq_refl Hh).
  apply keeps_bind; [apply keeps_attempt, keeps_onDB; intros r Hs; by destruct r|]. intros [rec|err].
  - apply keeps_bind; [apply keeps_reading|]. intros ids.
    apply keeps_bind; [apply keeps_fold_m; intros; apply keeps_dropChunk|]. intros removed'.
    apply keeps_bind; [by apply keeps_DeleteInode|]. intros _.
    apply keeps_bind; [apply keeps_RemoveGraveyardEntry|]. intros _. apply keeps_ret.
  - case_bool_decide; [|apply keeps_throw].
    apply keeps_bind; [apply keeps_RemoveGraveyardEntry|]. intros _. apply keeps_ret.
Qed.

(** Phase two: orphans. *)
Lemma keeps_sweepOrphans cutoff removed :
  keeps (sweeping K N r0 L keep) (sweepOrphans cutoff L removed).
Proof.
  unfold sweepOrphans. apply keeps_bind; [apply keeps_gets|]. intros entries.
  apply keeps_bind; [|intros; apply keeps_ret]. apply keeps_fold_m. intros [rem known] e _.
  unfold sweepOrphan. case_bool_decide as Hl; [apply keeps_ret|]. case_bool_decide; [apply keeps_ret|].
  apply keeps_bind; [apply keeps_gets|]. intros [at_|]; [|apply keeps_ret].
  destruct (After at_ cutoff); [apply keeps_ret|].
  apply keeps_bind; [by apply keeps_dropLocator|]. intros _. apply keeps_ret.
Qed.

(** ** Compaction *)

Lemma elem_of_ListLocators r id loc :
  one_region r →
  mkLocEntry id loc ∈ ListLocators (r_Region r) (r_DB r) ↔ GetLocator (r_Region r) id (r_DB r) = Some loc.
Proof.
  intros Ho. unfold ListLocators, GetLocator. rewrite list_elem_of_fmap. split.
  - intros ([k v] & E & [Hp Hk]%elem_of_bk_scan). destruct (Ho _ _ Hk) as [id' ->].
    cbn in E. unfold locatorKey in E. rewrite app_assoc, drop_app_length, copyID_ba in E.
    by injection E as -> ->.
  - intros Hk. exists (locatorKey (r_Region r) id, loc). split.
    + cbn. unfold locatorKey. by rewrite app_assoc, drop_app_length, copyID_ba.
    + apply elem_of_bk_scan. split; [|done]. apply has_prefix_spec. exists (ba id).
      unfold locatorKey. by rewrite <- app_assoc.
Qed.

Lemma putLocators_packer (l : list (ID * Locator)) clk p r :
  each (λ '(id, loc), λ r : repo, onDB (PutLocator (r_Region r) id loc clk) r) l (set_packer p r)
  = ((each (λ '(id, loc), λ r : repo, onDB (PutLocator (r_Region r) id loc clk) r) l r).1,
     set_packer p (each (λ '(id, loc), λ r : repo, onDB (PutLocator (r_Region r) id loc clk) r) l r).2).
Proof.
  revert r. induction l as [|[id loc] l IH]; intros r; [done|].
  cbn [each]. unfold mbind, M_bind. unfold onDB at 1 3 5, zoom. cbn [r_Region r_DB set_packer].
  destruct (PutLocator (r_Region r) id loc clk (r_DB r)) as [[u|e] d]; [|done].
  change (set_DB d (set_packer p r)) with (set_packer p (set_DB d r)). apply IH.
Qed.

(** Sealing a packer of its own is a flush of the repository with that
    packer in place of its own. *)
Lemma sealNew_flush p clk r :
  (sealNew p ≫= λ locs, putLocators locs clk) r
  = ((flushPacker clk (set_packer p r)).1, set_packer (r_packer r) (flushPacker clk (set_packer p r)).2).
Proof.
  unfold flushPacker, mbind, M_bind, sealNew, sealPacker. cbn [r_packer set_packer].
  destruct (Empty p) eqn:He.
  { unfold putLocators. rewrite map_to_list_empty. cbn. by destruct r. }
  unfold draw. cbn [r_Backend r_packer set_packer set_drawn r_rand r_drawn].
  destruct (Seal _ _) as [[locs|e] [b p']]; [|by destruct r].
  unfold putLocators. 
  change (set_packer p' (set_Backend b (set_drawn (S (r_drawn r)) (set_packer p r))))
    with (set_packer p' (set_Backend b (set_drawn (S (r_drawn r)) r))).
  rewrite putLocators_packer. cbn [fst snd].
  set (x := each _ _ _).
  assert (r_packer x.2 = r_packer r) as Hx.
  { unfold x. destruct (putLocators_run (map_to_list locs) clk (set_Backend b (set_drawn (S (r_drawn r)) r)))
      as (d' & -> & _). done. }
  destruct x as [res rx]. cbn in *. f_equal. destruct rx. cbn in *. by rewrite <- Hx.
Qed.

Lemma repack_run es before p r :
  valid_entries K r es → packer_for K (r_Region r) before p →
  ∃ p', fold_m repack p es r = (Ok p', r) ∧ packer_for K (r_Region r) (before ++ es) p'.
Proof.
  revert before p. induction es as [|e es IH]; intros before p Hes Hp.
  { exists p. split; [done|]. by rewrite app_nil_r. }
  apply Forall_cons in Hes as [(d & Kd & HS & Hst) Hes]. cbn [fold_m]. unfold mbind, M_bind, repack.
  rewrite (Fetch_stored _ _ d) by (done || by eapply K_nonempty). rewrite <- HS.
  destruct (IH (before ++ [e]) (Add (chunk_of d) p) Hes) as (p' & Hrun & Hp').
  - destruct Hp as (Hr & Hv & Hall). split_and!; [done| |].
    + apply Forall_app. split; [|apply Forall_singleton; exists d; split; [done|apply (Add_entry (chunk_of d))]].
      eapply Forall_impl; [exact Hv|]. intros pe (dd & ? & ?). exists dd. split; [done|].
      by apply Add_keeps_entry.
    + intros e' [He'| ->%list_elem_of_singleton]%elem_of_app.
      * destruct (Hall e' He') as (pe & ? & ?). exists pe. split; [apply elem_of_app; by left|done].
      * eexists. split; [apply elem_of_app; right; by apply list_elem_of_singleton|done].
  - exists p'. by rewrite <- app_assoc in Hp'.
Qed.

Lemma one_region_closed region :
  storage_closed (λ r : repo, r_Region r = region ∧ one_region r).
Proof.
  split; try done. intros r id loc t [Hr Ho]. unfold onDB, zoom.
  destruct (PutLocator_run (r_Region r) id loc t (r_DB r)) as (d' & -> & _ & Hl). split; [done|].
  intros k v. cbn. rewrite Hl, bk_get_put. case_decide as E; [by exists id|apply Ho].
Qed.

Lemma inv_set_packer r p :
  repo_inv K N r → p_region p = r_Region r →
  Forall (λ e, ∃ d, K d ∧ entry_for (p_buf p) e (chunk_of d)) (p_pending p) → repo_inv K N (set_packer p r).
Proof. intros [? ? ? ? ?] ? ?. by split. Qed.

(** Where a flush moves locators: into the new container only, and there
    for every chunk of the packer. *)
Lemma flush_locators clk r res r' :
  flushPacker clk r = (res, r') → p_region (r_packer r) = r_Region r →
  Forall (λ pe, ∃ d, K d ∧ entry_for (p_buf (r_packer r)) pe (chunk_of d)) (p_pending (r_packer r)) →
  (∀ id loc, GetLocator (r_Region r) id (r_DB r') = Some loc →
     GetLocator (r_Region r) id (r_DB r) = Some loc ∨
     (l_Container loc = next_key r ∧ r_drawn r' = S (r_drawn r))) ∧
  (is_ok res = true → ∀ pe loc, pe ∈ p_pending (r_packer r) →
     GetLocator (r_Region r) (pe_id pe) (r_DB r') = Some loc →
     l_Container loc = next_key r ∧ r_drawn r' = S (r_drawn r)).
Proof.
  intros Hrun Hreg Hv. destruct (Empty (r_packer r)) eqn:He.
  { rewrite flush_empty in Hrun by done. injection Hrun as <- <-. split; [by left|].
    intros _ pe loc Hpe. rewrite Forall_forall in Hv. destruct (Hv pe Hpe) as (d & Kd & Hent).
    assert (pending_chunk r d) as Hpc by (by exists pe).
    by rewrite (pending_nonempty K HK r d Kd Hpc) in He. }
  destruct (flush_run clk r He) as (b' & pres & Hput & Hcase). destruct pres as [oi|e].
  2:{ rewrite Hcase in Hrun. injection Hrun as <- <-. split; [by left|done]. }
  destruct Hcase as (d' & Hrun' & _ & Hl). rewrite Hrun' in Hrun. injection Hrun as <- <-.
  cbn zeta in Hl. cbn [r_DB set_DB r_drawn set_packer set_Backend set_drawn]. rewrite Hreg in Hl. split.
  - intros id loc Hloc. destruct (Hl id) as [[_ E]|(loc' & Hs & E)]; [left; congruence|]. right.
    apply seal_locators_in in Hs as (pe & _ & _ & ->). rewrite E in Hloc. by injection Hloc as <-.
  - intros _ pe loc Hpe Hloc. destruct (Hl (pe_id pe)) as [[E _]|(loc' & Hs & E)].
    + destruct (seal_locators_dom (newContainerKey (r_Region r) (r_rand r (r_drawn r))) _ _ Hpe) as [? Hs].
      congruence.
    + apply seal_locators_in in Hs as (pe' & _ & _ & ->). rewrite E in Hloc. by injection Hloc as <-.
Qed.

Lemma reseal_spec es p clk r res r' :
  repo_inv K N r → packer_for K (r_Region r) es p →
  (sealNew p ≫= λ locs, putLocators locs clk) r = (res, r') → (r_drawn r' <= N)%nat →
  resealed K N r r' ∧
  (is_ok res = true → ∀ e loc, e ∈ es →
     GetLocator (r_Region r) (le_ChunkID e) (r_DB r') = Some loc →
     l_Container loc = next_key r ∧ (r_drawn r < N)%nat).
Proof.
  intros Hi (Hreg & Hv & Hall). rewrite sealNew_flush.
  assert (repo_inv K N (set_packer p r)) as Hip by (by apply inv_set_packer).
  pose proof (flush_steps K N HK clk _ Hip) as Hst.
  pose proof (keeps_flush _ (one_region_closed (r_Region r)) clk (set_packer p r)) as Hone.
  destruct (flushPacker clk (set_packer p r)) as [fres rf] eqn:Hf. cbn [fst snd] in *.
  intros [= -> <-] HN. destruct (Hst _ _ Hf HN) as (Hif & [Ho Hc _ Hm Hcf Hd] & _). cbn in HN, Hd.
  apply flush_locators in Hf as [Hl Hnew]; [|done|done]. split.
  - split; try done.
    + apply inv_set_packer; [done| |apply (ri_pending _ _ _ Hi)].
      destruct Hcf as [E _ _ _ _ _ _]. rewrite E. apply (ri_region _ _ _ Hi).
    + destruct Hcf. by split.
    + intros Hor. by apply Hone.
    + intros id loc Hloc. destruct (Hl id loc Hloc) as [?|[? E]]; [by left|]. right.
      split; [done|]. cbn in *. lia.
  - intros Hok e loc Hin Hloc. destruct (Hall e Hin) as (pe & Hpe & Eid).
    rewrite <- Eid in Hloc. destruct (Hnew Hok pe loc Hpe Hloc) as [? E]. split; [done|]. cbn in E. lia.
Qed.

Lemma gc_resealed r r' : gc_state K N r0 L keep r → resealed K N r r' → gc_state K N r0 L keep r'.
Proof.
  intros [Hi Hd Hk Hc Hmm Hn Hin Hcfg Hpk] [Hi' Ho' Hc' Hm' Hcf' Hp' Hdr' Hk' Hl'].
  assert (r_Region r' = r_Region r ∧ r_rand r' = r_rand r) as [Er Ern] by (by destruct Hcf').
  split; try done.
  - intros key. rewrite (sm_deadcnt _ _ Hm'). intros Hkey. destruct (Hd key Hkey) as [U1 U2 U3].
    split; rewrite ?Er, ?Ern; [|done|intros i Hir; apply U3; lia].
    intros id loc [Hloc|(Ec & HN & _)]%Hl'; [by eapply U1|].
    rewrite Ec. intros <-. by apply (U3 (r_drawn r)); [lia|].
  - by apply Hk'.
  - intros d Kd HL Hch. apply Hc'; auto.
  - intros mid data Hm. apply Ho'; auto.
  - by rewrite (sm_dentry _ _ Hm').
  - intros i Ki. rewrite (sm_inode _ _ Hm'). auto.
  - destruct Hcfg, Hcf'. split; congruence.
  - congruence.
Qed.

Lemma gc_deadcnt r g :
  gc_state K N r0 L keep r → dead_ok N (set_DB (on_deadcnt g (r_DB r)) r) →
  gc_state K N r0 L keep (set_DB (on_deadcnt g (r_DB r)) r).
Proof.
  intros [[Hl Hm Hp Hr Hf] Hd Hk Hc Hmm Hn Hi Hcfg Hpk] Hd'. split; try done.
  destruct Hcfg. by split.
Qed.

(** ** One container *)

Lemma draws_rewrite es clk : draws (rewriteContainer es clk : M repo unit).
Proof.
  destruct es as [|e es]; [by apply draws_pure|]. apply draws_bind; [by apply draws_pure|]. intros region.
  apply draws_bind.
  { intros n. apply keeps_fold_m. intros p e' _ r Hr. unfold repack. by destruct (Fetch _ _ _). }
  intros p. apply draws_bind.
  - intros n r Hr. unfold sealNew. destruct (Empty p); [done|]. unfold draw. cbn [r_Backend set_drawn].
    destruct (Seal (r_rand r (r_drawn r)) (r_Backend r, p)) as [res [b p']]. cbn. lia.
  - intros locs. apply draws_each. intros [id loc] n r Hr. by apply draws_onDB.
Qed.

Lemma draws_compactOne threshold byC dead clk n c : draws (compactOne threshold byC dead clk n c : M repo Z).
Proof.
  unfold compactOne. destruct (_ <=? 0); [by apply draws_pure|]. case_bool_decide; [by apply draws_pure|].
  destruct (byC !! oi_Key c) as [cs|]; (case_match; [by apply draws_pure|]);
    (apply draws_bind; [apply draws_rewrite|]); intros _; (apply draws_bind; [apply draws_onDB|]);
    intros _; by apply draws_pure.
Qed.

Lemma draws_Compact pages threshold clk : draws (Compact pages threshold clk : M repo Z).
Proof.
  apply draws_bind; [by apply draws_pure|]. intros locs. apply draws_bind; [by apply draws_pure|]. intros cs.
  apply draws_bind; [by apply draws_pure|]. intros dead n. apply keeps_fold_m. intros; apply draws_compactOne.
Qed.

Lemma list_pages_spec pages prefix cursor out r l :
  list_pages pages prefix cursor out r = Ok l →
  ∀ c, c ∈ l → c ∈ out ∨
    (has_prefix prefix (oi_Key c) = true ∧ is_Some (b_object (oi_Key c) (r_Backend r))).
Proof.
  revert cursor out. induction pages as [|pages IH]; intros cursor out; cbn [list_pages]; [done|].
  destruct (b_List prefix cursor 0 (r_Backend r)) as [page|e] eqn:Hp; [|done].
  assert (∀ c, c ∈ out ++ lp_Keys page → c ∈ out ∨
    (has_prefix prefix (oi_Key c) = true ∧ is_Some (b_object (oi_Key c) (r_Backend r)))) as Hout.
  { intros c [?|Hc]%elem_of_app; [by left|]. right.
    destruct (b_List_objects _ _ _ _ _ _ Hp Hc) as (? & d & ? & _). eauto. }
  case_bool_decide; [intros [= <-]; exact Hout|]. intros Hl c Hc.
  destruct (IH _ _ Hl c Hc) as [?%Hout|?]; auto.
Qed.

Section compact.
Context (r1 : repo) (listed : list ObjectInfo) (H1g : gc_state K N r0 L keep r1).
Hypothesis H1l : ∀ c, c ∈ listed →
  has_prefix (str "atlas/c/" ++ r_Region r1 ++ str "/") (oi_Key c) = true ∧
  is_Some (b_object (oi_Key c) (r_Backend r1)).
Abbreviation locs1 := (ListLocators (r_Region r1) (r_DB r1)).

Lemma listed_objects r c :
  compacted K N r0 L keep r1 listed r → c ∈ listed → is_Some (b_object (oi_Key c) (r_Backend r)).
Proof. intros Hc Hin. destruct (H1l c Hin) as [_ [d Hd]]. exists d. by apply (cp_objects _ _ _ _ _ _ _ _ Hc). Qed.

Lemma locs1_valid r es :
  compacted K N r0 L keep r1 listed r → (∀ e, e ∈ es → e ∈ locs1) → valid_entries K r es.
Proof.
  intros Hc Hes. apply Forall_forall. intros [id loc] Hin. apply Hes in Hin.
  apply elem_of_ListLocators in Hin; [|apply (gs_keys _ _ _ _ _ _ H1g)].
  destruct (ri_locators _ _ _ (gs_inv _ _ _ _ _ _ H1g) _ _ Hin) as (d & Kd & HS & Hst).
  exists d. split_and!; [done|done|]. eapply stored_grow; [|exact Hst]. apply (cp_objects _ _ _ _ _ _ _ _ Hc).
Qed.

Lemma compacted_resealed r r' :
  compacted K N r0 L keep r1 listed r → resealed K N r r' → compacted K N r0 L keep r1 listed r'.
Proof.
  intros Hc Hrs. pose proof (rs_config _ _ _ _ Hrs) as [Er _ _ _ _ _ _]. split.
  - eapply gc_resealed; [apply (cp_state _ _ _ _ _ _ _ _ Hc)|done].
  - intros key d Hd. apply (rs_objects _ _ _ _ Hrs), (cp_objects _ _ _ _ _ _ _ _ Hc), Hd.
  - intros id loc. rewrite Er. intros [Hl|(Ec & HN & _)]%(rs_locators _ _ _ _ Hrs).
    + by apply (cp_locators _ _ _ _ _ _ _ _ Hc).
    + right. rewrite Ec. intros (c & Ek & Hin)%list_elem_of_fmap.
      destruct (listed_objects r c Hc Hin) as [d Hd]. rewrite <- Ek in Hd.
      destruct (ri_fresh _ _ _ (gs_inv _ _ _ _ _ _ (cp_state _ _ _ _ _ _ _ _ Hc))) as [Hf _].
      unfold next_key in Hd. rewrite Hf in Hd; [done|lia].
Qed.

(** Rewriting a container moves every locator out of it. *)
Lemma rewrite_spec r c clk res r' :
  compacted K N r0 L keep r1 listed r → c ∈ listed →
  rewriteContainer (filter (λ e, l_Container (le_Locator e) = oi_Key c) locs1) clk r = (res, r') →
  (r_drawn r' <= N)%nat →
  compacted K N r0 L keep r1 listed r' ∧
  (is_ok res = true → ∀ id loc, GetLocator (r_Region r') id (r_DB r') = Some loc → l_Container loc ≠ oi_Key c).
Proof.
  intros Hc Hin. set (es := filter _ locs1).
  assert (∀ id loc, GetLocator (r_Region r) id (r_DB r) = Some loc → l_Container loc = oi_Key c →
    mkLocEntry id loc ∈ es) as Hall.
  { intros id loc Hl Ec. apply list_elem_of_filter. split; [done|].
    destruct (cp_locators _ _ _ _ _ _ _ _ Hc id loc Hl) as [?|Hn]; [done|]. destruct Hn.
    rewrite Ec. apply list_elem_of_fmap. by exists c. }
  unfold rewriteContainer. destruct es as [|e es'] eqn:Ees.
  { intros [= <- <-] HN. split; [done|]. intros _ id loc Hl Ec.
    by destruct (not_elem_of_nil _ (Hall id loc Hl Ec)). }
  rewrite <- Ees in Hall. assert (valid_entries K r es) as Hv.
  { apply locs1_valid; [done|]. by intros x [_ ?]%list_elem_of_filter. }
  destruct (repack_run es [] (NewPacker (r_Region r) 0) r Hv) as (p & Hrun & Hp).
  { split_and!; [done|by constructor|by intros ? ?%not_elem_of_nil]. }
  unfold mbind at 1, M_bind, gets. unfold mbind at 1. rewrite <- Ees, Hrun. intros Hrs HN.
  destruct (reseal_spec es p clk r res r') as [Hre Hnew]; try done.
  { apply (gs_inv _ _ _ _ _ _ (cp_state _ _ _ _ _ _ _ _ Hc)). }
  split; [by eapply compacted_resealed|]. intros Hok id loc.
  pose proof (rs_config _ _ _ _ Hre) as [Er _ _ _ _ _ _]. rewrite Er. intros Hl Ec.
  assert (l_Container loc = next_key r ∧ (r_drawn r < N)%nat) as [Enk Hlt].
  { destruct (rs_locators _ _ _ _ Hre id loc Hl) as [Hold|(? & ? & _)]; [|done].
    apply (Hnew Hok (mkLocEntry id loc)); [by apply Hall|done]. }
  destruct (listed_objects r c Hc Hin) as [d Hd]. rewrite <- Ec, Enk in Hd.
  destruct (ri_fresh _ _ _ (gs_inv _ _ _ _ _ _ (cp_state _ _ _ _ _ _ _ _ Hc))) as [Hf _].
  unfold next_key in Hd. rewrite Hf in Hd; [done|lia].
Qed.

Lemma listed_unused r c :
  compacted K N r0 L keep r1 listed r → c ∈ listed →
  (∀ id loc, GetLocator (r_Region r) id (r_DB r) = Some loc → l_Container loc ≠ oi_Key c) →
  unused N r (oi_Key c).
Proof.
  intros Hc Hin Hno. split; [done| |].
  - intros mid E. destruct (H1l c Hin) as [[x Hx]%has_prefix_spec _]. rewrite E in Hx.
    unfold manifestKey in Hx. cbn in Hx. discriminate Hx.
  - intros i Hir E. destruct (listed_objects r c Hc Hin) as [d Hd]. rewrite E in Hd.
    destruct (ri_fresh _ _ _ (gs_inv _ _ _ _ _ _ (cp_state _ _ _ _ _ _ _ _ Hc))) as [Hf _].
    by rewrite Hf in Hd.
Qed.

Lemma keeps_compactOne threshold dead clk n c :
  c ∈ listed →
  keeps (compacting K N r0 L keep r1 listed) (compactOne threshold (byContainer locs1) dead clk n c).
Proof.
  intros Hin r (Hd0 & Hd1 & Hc). unfold compactOne.
  destruct (oi_Size c <=? 0); [done|]. case_bool_decide; [done|].
  pose proof (byContainer_filter locs1 (oi_Key c)) as Hes.
  destruct (match byContainer locs1 !! oi_Key c with
            | Some cs => (cs_liveBytes cs, cs_entries cs) | None => (0, []) end) as [lv es] eqn:El.
  assert (es = filter (λ e, l_Container (le_Locator e) = oi_Key c) locs1) as ->.
  { rewrite <- Hes. by destruct (byContainer locs1 !! oi_Key c); injection El as _ <-. }
  destruct (dense lv _ threshold); [done|]. unfold mbind, M_bind at 1.
  destruct (rewriteContainer _ clk r) as [res r'] eqn:Hrw.
  assert (r_drawn r <= r_drawn r')%nat as Hdr.
  { by eapply (draws_run (rewriteContainer _ clk)), Hrw; apply draws_rewrite. }
  assert ((r_drawn r' <= N)%nat → compacted K N r0 L keep r1 listed r' ∧
    (is_ok res = true → ∀ id loc, GetLocator (r_Region r') id (r_DB r') = Some loc → l_Container loc ≠ oi_Key c))
    as Hsp by (intros HN; eapply rewrite_spec; [apply Hc; lia|done|done|done]).
  destruct res as [u|e]; cbn [snd].
  2:{ split; [cbn; lia|]. split; [cbn; lia|]. intros HN. by apply Hsp. }
  unfold M_bind, onDB, zoom. rewrite MarkContainerDead_run. cbn [snd mret M_ret].
  split; [cbn; lia|]. split; [cbn; lia|]. intros HN. destruct (Hsp HN) as [Hc' Hno]. specialize (Hno eq_refl).
  pose proof (listed_unused r' c Hc' Hin Hno) as [U1 U2 U3]. split.
  - apply gc_deadcnt; [apply (cp_state _ _ _ _ _ _ _ _ Hc')|]. intros key. cbn. rewrite bk_get_put.
    case_decide as E; [subst; by split|]. intros Hk.
    by destruct (gs_dead _ _ _ _ _ _ (cp_state _ _ _ _ _ _ _ _ Hc') key Hk).
  - apply (cp_objects _ _ _ _ _ _ _ _ Hc').
  - apply (cp_locators _ _ _ _ _ _ _ _ Hc').
Qed.
End compact.

(** Phase three. *)
Lemma keeps_Compact pages threshold clk :
  keeps (sweeping K N r0 L keep) (Compact pages threshold clk).
Proof.
  intros r [Hd Hs]. pose proof (draws_Compact pages threshold clk (r_drawn r) r (le_n _)) as Hdr. cbv beta in Hdr.
  destruct (decide (r_drawn r <= N)%nat) as [HN|HN]; [|split; [lia|intros; lia]].
  specialize (Hs HN). unfold Compact, mbind, M_bind, gets, reading.
  destruct (listContainers pages r) as [listed|e] eqn:Hl; [|split; [cbn; lia|done]].
  set (run := fold_m _ _ _). assert (compacting K N r0 L keep r listed (run r).2) as (? & _ & Hc).
  { apply keeps_fold_m.
    - intros n c Hc. apply keeps_compactOne; [done| |done].
      intros c' Hc'. destruct (list_pages_spec _ _ _ _ _ _ Hl c' Hc') as [?%not_elem_of_nil|?]; done.
    - split_and!; [done|done|]. intros _. split; [done|done|]. intros id loc Hloc. left.
      apply elem_of_ListLocators; [apply (gs_keys _ _ _ _ _ _ Hs)|done]. }
  split; [done|]. intros HN'. apply (cp_state _ _ _ _ _ _ _ _ (Hc HN')).
Qed.

(** ** Reaping *)

(** Deleting unused objects. *)
Lemma gc_delete r b' keys :
  gc_state K N r0 L keep r → Forall (unused N r) keys →
  (∀ k, b_object k b' = b_object k (r_Backend r) ∨ (k ∈ keys ∧ b_object k b' = None)) →
  gc_state K N r0 L keep (set_Backend b' r).
Proof.
  intros [[Hl Hm Hp Hr [Hf Hinj]] Hd Hk Hc Hmm Hn Hi Hcfg Hpk] Hun Hob. rewrite Forall_forall in Hun.
  assert (∀ id loc d, GetLocator (r_Region r) id (r_DB r) = Some loc → stored_at loc d (r_Backend r) →
    stored_at loc d b') as Hst.
  { intros id loc d Hloc (obj & Ho & Hrest). exists obj. split; [|done].
    destruct (Hob (l_Container loc)) as [->|[Hin _]]; [done|].
    destruct (Hun _ Hin) as [U1 _ _]. by destruct (U1 id loc Hloc). }
  split; try done.
  - split; try done.
    + intros id loc Hloc. destruct (Hl id loc Hloc) as (d & Kd & HS & Hs). exists d.
      split_and!; [done|done|]. by eapply Hst.
    + intros mid data Ho. cbn [r_Backend set_Backend] in Ho.
      destruct (Hob (manifestKey mid)) as [E|[_ E]]; rewrite E in Ho; [|done].
      by apply Hm.
    + split; [|done]. intros i Hir. cbn [r_Backend set_Backend r_Region r_rand].
      destruct (Hob (newContainerKey (r_Region r) (r_rand r i))) as [->|[_ ->]];
        [by apply Hf|done].
  - intros key Hkey. destruct (Hd key Hkey). by split.
  - intros d Kd HL Hch. destruct (Hc d Kd HL Hch) as (loc & Hloc & Hs). exists loc. split; [done|]. by eapply Hst.
  - intros mid data Ho. cbn [r_Backend set_Backend].
    destruct (Hob (manifestKey mid)) as [->|[Hin _]]; [by apply Hmm|].
    destruct (Hun _ Hin) as [_ U2 _]. by destruct (U2 mid).
  - destruct Hcfg. by split.
Qed.

(** Keys to reap stay unused while the batches go. *)
Lemma keeps_reapResult keys res : keeps (reaping K N r0 L keep keys) (reapResult res).
Proof.
  assert (keeps (reaping K N r0 L keep keys) (onDB (RemoveDeadContainer (dr_Key res)))) as Hrm.
  { intros r [Hd Hs]. unfold onDB, zoom. rewrite RemoveDeadContainer_run. split; [done|]. intros HN.
    destruct (Hs HN) as [Hg Hu]. split.
    - apply gc_deadcnt; [done|]. intros key. cbn. rewrite bk_get_delete. case_decide; [by intros [? ?]|].
      intros Hk. by destruct (gs_dead _ _ _ _ _ _ Hg key Hk).
    - eapply Forall_impl; [exact Hu|]. intros key [? ? ?]. by split. }
  unfold reapResult. destruct (dr_Err res); [|done]. case_bool_decide; [done|apply keeps_throw].
Qed.

Lemma keeps_reap_delete keys batch :
  (∀ k, k ∈ batch → k ∈ keys) → keeps (reaping K N r0 L keep keys) (onBackend (b_Delete batch)).
Proof.
  intros Hsub r [Hd Hs]. unfold onBackend, zoom.
  destruct (b_Delete batch (r_Backend r)) as [dres b'] eqn:Hdel. split; [done|]. intros HN.
  destruct (Hs HN) as [Hg Hu]. split; [|eapply Forall_impl; [exact Hu|]; intros key [? ? ?]; by split].
  apply (gc_delete r b' keys); [done|done|]. intros k. destruct dres as [rs|e].
  - destruct (b_Delete_object _ _ _ _ k Hdel) as (_ & _ & [?|[? ?]]); [by left|right; auto].
  - destruct (b_Delete_err _ _ _ _ k Hdel) as [?|[? ?]]; [by left|right; auto].
Qed.

Lemma keeps_reap_batches keys fuel batch todo :
  (∀ k, k ∈ todo → k ∈ keys) → keeps (reaping K N r0 L keep keys) (reap_batches fuel batch todo).
Proof.
  revert todo. induction fuel as [|fuel IH]; intros todo Hsub; destruct todo as [|k todo]; cbn [reap_batches];
    try apply keeps_ret; try apply keeps_throw.
  apply keeps_bind.
  { apply keeps_reap_delete. intros x Hx. apply Hsub. by eapply subseteq_take, Hx. }
  intros results. apply keeps_bind; [apply keeps_each; intros; apply keeps_reapResult|]. intros _.
  apply IH. intros x Hx. apply Hsub. by eapply subseteq_drop, Hx.
Qed.

(** Phase four. *)
Lemma keeps_reapDeadContainers cutoff : keeps (sweeping K N r0 L keep) (reapDeadContainers cutoff).
Proof.
  intros r [Hd Hs]. unfold reapDeadContainers, mbind, M_bind, gets.
  set (keys := dc_Key <$> _). set (run := reap_batches _ _ _).
  destruct (keeps_reap_batches keys (length keys)
    (Z.to_nat (if BatchDelete (b_Caps (r_Backend r)) <=? 0 then 1 else BatchDelete (b_Caps (r_Backend r))))
    keys (λ _ Hk, Hk) r) as [Hd' Hs']; [|split; [done|]; intros HN; by apply Hs'].
  split; [done|]. intros HN. split; [by apply Hs|]. apply Forall_forall. intros k Hk.
  apply list_elem_of_fmap in Hk as (dc & -> & [_ Hdc]%list_elem_of_filter).
  apply list_elem_of_fmap in Hdc as ([key t] & -> & Hin%bk_cursor_get). cbn.
  apply (gs_dead _ _ _ _ _ _ (Hs HN)). by exists t.
Qed.

(** All that follows the mark. *)
Lemma keeps_Sweep pages grace clk r :
  MinGraceDuration < grace →
  (∀ live, markLive (clk - grace) (Snapshot (r_OpenHandles r)) r = Ok live → live = L) →
  (∀ e, e ∈ graveyard r → After (ge_DeletedAt e) (clk - grace) = false →
     ge_InodeID e ∉ Snapshot (r_OpenHandles r) → ¬ keep (ge_InodeID e)) →
  sweeping K N r0 L keep r → sweeping K N r0 L keep (Sweep pages grace clk r).2.
Proof.
  intros Hg HL Hkeep Hs. unfold Sweep. rewrite (proj2 (Z.leb_gt _ _)) by done.
  unfold mbind, M_bind at 1 2, gets, reading.
  destruct (markLive _ _ r) as [live|e] eqn:Hm; [|done]. rewrite (HL live eq_refl). clear live Hm HL.
  unfold M_bind at 1. unfold onDB at 1, zoom. unfold graveyard in Hkeep.
  assert ((ListGraveyard (r_DB r)).2 = r_DB r) as E2 by done.
  destruct (ListGraveyard (r_DB r)) as [[es|e] d]; cbn [fst snd] in *; subst d; [|by destruct r].
  replace (set_DB (r_DB r) r) with r by (by destruct r). revert r Hs Hkeep. intros r Hs Hkeep.
  generalize (Snapshot (r_OpenHandles r)) as held, Hkeep. clear Hkeep. intros held Hkeep.
  refine (keeps_bind _ _ _ _ _ r Hs).
  - apply keeps_fold_m. intros c a Ha. apply keeps_sweepGrave. auto.
  - intros removed. apply keeps_bind; [apply keeps_sweepOrphans|]. intros removed'.
    apply keeps_bind; [apply keeps_Compact|]. intros _.
    apply keeps_bind; [apply keeps_reapDeadContainers|]. intros _. apply keeps_ret.
Qed.
End phases.

(** * The mark *)

Lemma fold_result_sets {A} (f : gset ID → A → result (gset ID)) (R : A → ID → Prop) l c c' :
  (∀ c x c', x ∈ l → f c x = Ok c' → ∀ id, id ∈ c' ↔ id ∈ c ∨ R x id) →
  fold_result f c l = Ok c' → ∀ id, id ∈ c' ↔ id ∈ c ∨ ∃ x, x ∈ l ∧ R x id.
Proof.
  revert c. induction l as [|x l IH]; intros c Hf; cbn [fold_result].
  { intros [= <-] id. set_solver. }
  destruct (f c x) as [c1|e] eqn:E; [|done]. intros Hl id.
  rewrite (IH c1) by (intros; try eapply Hf; eauto using list_elem_of_further).
  rewrite (Hf c x c1) by (try apply list_elem_of_here; done).
  setoid_rewrite elem_of_cons. naive_solver.
Qed.

Lemma fold_result_ok {A C} (f : C → A → result C) l c :
  (∀ c x, x ∈ l → ∃ c', f c x = Ok c') → ∃ c', fold_result f c l = Ok c'.
Proof.
  revert c. induction l as [|x l IH]; intros c Hf; cbn [fold_result]; [by eexists|].
  destruct (Hf c x) as [c' ->]; [apply list_elem_of_here|]. apply IH. intros. apply Hf.
  by apply list_elem_of_further.
Qed.

Lemma leads_inside f a i : leads_to f a i → inside f a i.
Proof.
  induction 1 as [a n i Hn|a n d i Hn _ _ IH]; apply inside_front; right; [|eauto].
  exists n, i. split; [done|constructor].
Qed.

Lemma leads_last f a i : leads_to f a i → ∃ d n, fs_names f !! (d, n) = Some i.
Proof. induction 1; eauto. Qed.

(** One more step down from a directory. *)
Lemma leads_step f a d n i : leads_to f a d → is_dir f d → fs_names f !! (d, n) = Some i → leads_to f a i.
Proof.
  induction 1 as [a m d Hm|a m e d Hm He _ IH]; intros Hd Hn; [|by econstructor; eauto].
  eapply leads_down; [done|done|by eapply leads_entry].
Qed.

(** In a tree, what has a name is below the root. *)
Lemma named_leads f d n i : tree f → fs_names f !! (d, n) = Some i → leads_to f RootInode i.
Proof.
  intros T Hn. pose proof (tree_edge f T _ _ _ Hn) as [Hd _]. destruct (tree_reach f T d Hd) as [k Hk].
  revert n i Hn Hd. induction Hk as [|k p m d Hp IH Hm]; intros n i Hn Hd; [by eapply leads_entry|].
  eapply leads_step; [|by apply live_dir_is_dir|done]. eapply IH; [done|]. by eapply (tree_edge f T).
Qed.

Section mark.
Context {bucket : Type → Type} `{BoltLaws bucket} {B : Type} `{BackendLaws B} {blake3 : Blake3}.
Context {callback handler : Type}.
Abbreviation repo := (Repo bucket B callback handler).
Context (r : repo).

Lemma getInodeTx_Ok i rec : getInodeTx i (r_DB r) = Ok rec ↔ fs_inodes (view (r_DB r)) !! i = Some rec.
Proof. rewrite getInodeTx_view. case_match; naive_solver. Qed.

Lemma lookupTx_Ok d n i : lookupTx d n (r_DB r) = Ok i ↔ fs_names (view (r_DB r)) !! (d, n) = Some i.
Proof. rewrite lookupTx_view. case_match; naive_solver. Qed.

Lemma refers_ids i rec ids id :
  getInodeTx i (r_DB r) = Ok rec → chunkIDsOf rec r = Ok ids → refers r i id ↔ id ∈ ids.
Proof.
  intros Hi Hids. split; [|intros; by exists rec, ids].
  intros (rec' & ids' & Hi' & Hids' & Hin). congruence.
Qed.

(** Below a directory there is what its entries are and lead to. *)
Lemma refers_below_dir d id :
  refers_below r d id ↔ ∃ e, e ∈ readdirTx d (r_DB r) ∧ ∃ rec, getInodeTx (de_Inode e) (r_DB r) = Ok rec ∧
    if IsDir rec then refers_below r (de_Inode e) id else refers r (de_Inode e) id.
Proof.
  split.
  - intros (j & rec & Hb & Hj & Hf & Hr). inversion Hb as [a n i Hn|a n c i Hn (rc & Hc & Hd) Hci]; subst.
    + exists (mkDirEntry n j). split; [by apply elem_of_readdirTx|]. exists rec. by rewrite Hf.
    + exists (mkDirEntry n c). split; [by apply elem_of_readdirTx|]. exists rc. apply getInodeTx_Ok in Hc.
      rewrite Hd. split; [done|]. by exists j, rec.
  - intros ([n c] & He%elem_of_readdirTx & rc & Hc & Hif). cbn [de_Inode] in *. destruct (IsDir rc) eqn:Hd.
    + destruct Hif as (j & rec & Hb & Hrest). exists j, rec. split; [|done].
      eapply leads_down; [done| |done]. exists rc. by apply getInodeTx_Ok in Hc.
    + exists c, rc. split; [by eapply leads_entry|done].
Qed.

(** The mark of a subtree collects exactly the chunks of its files. *)
Lemma markLiveTree_spec fuel live dir out :
  markLiveTree fuel r live dir = Ok out → ∀ id, id ∈ out ↔ id ∈ live ∨ refers_below r dir id.
Proof.
  revert live dir out. induction fuel as [|fuel IH]; intros live dir out Hm id; [done|].
  cbn [markLiveTree] in Hm. rewrite refers_below_dir. revert id.
  eapply fold_result_sets; [|exact Hm]. cbv beta. intros c e c' He.
  destruct (getInodeTx (de_Inode e) (r_DB r)) as [rec|] eqn:Hi; [|done].
  intros Hc id.
  assert ((∃ rec0, Ok rec = Ok rec0 ∧ if IsDir rec0 then refers_below r (de_Inode e) id else refers r (de_Inode e) id)
    ↔ if IsDir rec then refers_below r (de_Inode e) id else refers r (de_Inode e) id) as -> by naive_solver.
  destruct (IsDir rec) eqn:Hd; [by eapply IH|].
  destruct (chunkIDsOf rec r) as [ids|] eqn:Hids; [|done]. injection Hc as <-.
  by rewrite (refers_ids _ _ _ id Hi Hids), elem_of_union, elem_of_list_to_set.
Qed.

Lemma names_fuel : (size (fs_names (view (r_DB r))) < tree_fuel r)%nat.
Proof.
  unfold tree_fuel. apply Nat.lt_succ_r. 
  change (fs_names (view (r_DB r))) with (decoded dec_dentry getID (bDentry (r_DB r))). unfold decoded.
  set (l := bk_cursor (bDentry (r_DB r))). clearbody l. induction l as [|kv l IH]; [apply Nat.le_refl|].
  cbn [omap list_omap length]. destruct (decode1 _ _ kv) as [[k v]|]; [|by etrans; [exact IH|lia]].
  rewrite list_to_map_cons, map_size_insert. case_match; unfold id; lia.
Qed.

(** The bindings a walk downwards has passed: all lead to where it is now. *)
Definition came_by (d : InodeID) (V : gset (InodeID * bytes)) : Prop :=
  ∀ x, x ∈ V → ∃ c, fs_names (view (r_DB r)) !! x = Some c ∧ inside (view (r_DB r)) c d.

Lemma came_by_bound d V : came_by d V → (size V <= size (fs_names (view (r_DB r))))%nat.
Proof.
  intros HV. rewrite <- size_dom. apply subseteq_size. intros x (c & Hc & _)%HV. by eapply elem_of_dom_2.
Qed.

Lemma came_by_down d V n i :
  forest (view (r_DB r)) → came_by d V → fs_names (view (r_DB r)) !! (d, n) = Some i →
  came_by i ({[(d, n)]} ∪ V) ∧ size ({[(d, n)]} ∪ V) = S (size V).
Proof.
  intros F HV Hn. split.
  - intros x [->%elem_of_singleton|(c & Hc & Hin)%HV]%elem_of_union; [exists i; split; [done|constructor]|].
    exists c. split; [done|by econstructor].
  - rewrite size_union, size_singleton; [done|]. apply disjoint_singleton_l.
    intros (c & Hc & Hin)%HV. simplify_eq. by apply (fo_acyclic _ F _ _ _ Hn) in Hin.
Qed.

(** The fuel is enough: a walk passes no binding twice. *)
Lemma markLiveTree_total fuel live dir V :
  forest (view (r_DB r)) → came_by dir V → (size (fs_names (view (r_DB r))) < fuel + size V)%nat →
  (∀ i, leads_to (view (r_DB r)) dir i → ∃ rec, getInodeTx i (r_DB r) = Ok rec ∧
     (IsDir rec = false → ∃ ids, chunkIDsOf rec r = Ok ids)) →
  ∃ out, markLiveTree fuel r live dir = Ok out.
Proof.
  intros F. revert live dir V. induction fuel as [|fuel IH]; intros live dir V HV Hf Hok.
  { pose proof (came_by_bound dir V HV). lia. }
  cbn [markLiveTree]. apply fold_result_ok. intros c [n i] He%elem_of_readdirTx. cbn [de_Inode].
  destruct (Hok i) as (rec & Hi & Hids); [by eapply leads_entry|]. rewrite Hi.
  destruct (IsDir rec) eqn:Hdir; [|destruct (Hids eq_refl) as [ids ->]; by eexists].
  destruct (came_by_down dir V n i F HV He) as [HV' Hsz].
  apply (IH _ _ _ HV'); [lia|]. intros j Hj. apply Hok. eapply leads_down; [done| |done].
  exists rec. by apply getInodeTx_Ok in Hi.
Qed.

Lemma markGrave_spec cutoff live e out :
  markGrave cutoff (Snapshot (r_OpenHandles r)) r live e = Ok out →
  ∀ id, id ∈ out ↔ id ∈ live ∨
    ((After (ge_DeletedAt e) cutoff = true ∨ Held (ge_InodeID e) (r_OpenHandles r) = true)
     ∧ refers r (ge_InodeID e) id).
Proof.
  unfold markGrave. pose proof (elem_of_Snapshot (ge_InodeID e) (r_OpenHandles r)) as Hs.
  set (skip := negb _ && negb _).
  assert (skip = false ↔ After (ge_DeletedAt e) cutoff = true ∨ Held (ge_InodeID e) (r_OpenHandles r) = true)
    as Hsk.
  { unfold skip. rewrite <- Hs, andb_false_iff, !negb_false_iff, bool_decide_eq_true. done. }
  destruct skip.
  { intros [= <-] id. split; [by left|]. intros [?|[Hw _]]; [done|]. by apply Hsk in Hw. }
  destruct (getInodeTx _ _) as [rec|] eqn:Hi; [|done].
  destruct (chunkIDsOf rec r) as [ids|] eqn:Hids; [|done]. intros [= <-] id.
  rewrite (refers_ids _ _ _ id Hi Hids), elem_of_union, elem_of_list_to_set. tauto.
Qed.

Lemma markLive_spec cutoff out :
  markLive cutoff (Snapshot (r_OpenHandles r)) r = Ok out →
  ∀ id, id ∈ out ↔ (∃ i, marked cutoff r i ∧ refers r i id) ∨ id ∈ PendingIDs (r_packer r).
Proof.
  unfold markLive. destruct (markLiveTree _ r ∅ RootInode) as [l1|] eqn:Hm1; [|done].
  destruct (fold_result _ l1 _) as [l2|] eqn:Hm2; [|done]. intros [= <-] id.
  rewrite elem_of_union, elem_of_list_to_set. apply or_iff_compat_r.
  rewrite (fold_result_sets _ _ _ _ _ (λ c e c' _, markGrave_spec cutoff c e c') Hm2 id).
  rewrite (markLiveTree_spec _ _ _ _ Hm1 id). unfold marked. split.
  - intros [[?|(j & rec & Hin & Hj & Hf & Hr)]|(e & He & Hw & Hr)]; [set_solver| |].
    + exists j. split; [left; eauto|done].
    + exists (ge_InodeID e). split; [right; eauto|done].
  - intros (i & [(rec & Hb & Hi & Hf)|(e & He & <- & Hw)] & Hr); [|by eauto 10].
    left; right. by exists i, rec.
Qed.
End mark.

(** * A whole sweep *)

Section sweep.
Context {bucket : Type → Type} `{BoltLaws bucket} {B : Type} `{BackendLaws B} {blake3 : Blake3}.
Context {callback handler : Type}.
Abbreviation repo := (Repo bucket B callback handler).
Implicit Types r : repo.

Lemma graveyard_dead r e :
  reachable (r_DB r) → e ∈ graveyard r → ¬ live (view (r_DB r)) (ge_InodeID e).
Proof.
  intros Hr He. pose proof (reachable_inv _ Hr) as [[_ Hk] _].
  apply list_elem_of_fmap in He as ([k v] & -> & Hin%bk_cursor_get). cbn [ge_InodeID fst].
  destruct (Hk k v Hin) as [[st i] Hd]. apply dec_grave_Some in Hd as ->.
  assert (getID (drop 8 (enc_grave (st, i))) = i) as ->.
  { unfold enc_grave. cbn. by rewrite drop_app_length' by (by rewrite length_be); rewrite getID_be8. }
  apply (reachable_graves _ Hr st i). rewrite graves_lookup. by rewrite Hin.
Qed.

(** What a sweep may collect is not protected. *)
Lemma collected_unprotected cutoff r e :
  e ∈ graveyard r → After (ge_DeletedAt e) cutoff = false →
  ge_InodeID e ∉ Snapshot (r_OpenHandles r) → ¬ protected cutoff r (ge_InodeID e).
Proof.
  intros He Ha Hh [_ Hall]. destruct (Hall e He eq_refl) as [?|Hheld]; [congruence|].
  by apply elem_of_Snapshot in Hheld.
Qed.

(** In a reachable store every inode with a name is protected. *)
Lemma named_protected cutoff r d n i :
  reachable (r_DB r) → lookupTx d n (r_DB r) = Ok i → protected cutoff r i.
Proof.
  intros Hr Hn%lookupTx_Ok. pose proof (reachable_inv _ Hr) as [_ I]. pose proof (inv_tree _ I) as T. split.
  - left. by eapply named_leads.
  - intros e He <-. destruct (graveyard_dead r e Hr He). by apply (tree_edge _ T) in Hn as [_ ?].
Qed.

Lemma protected_marked cutoff r i rec :
  protected cutoff r i → getInodeTx i (r_DB r) = Ok rec → IsDir rec = false → marked cutoff r i.
Proof.
  intros [[Hb|(e & He & Ei)] Hall] Hi Hd; [left; eauto|]. right. exists e. eauto.
Qed.

Lemma chunkIDsOf_content (P : bytes → Prop) r rec ds :
  content_of P r rec ds → chunkIDsOf rec r = Ok (Sum <$> ds).
Proof.
  intros (_ & _ & _ & Hk). unfold chunkIDsOf. destruct (HasInline rec).
  { destruct Hk as (d & -> & ->). done. }
  destruct (HasManifest rec); [|by subst].
  destruct Hk as (m & (data & Hobj & Hdec) & Hes). unfold getManifest.
  rewrite (b_Get_whole _ data) by done. cbn [ReadAll bytes_reader rd_err rd_data]. rewrite Hdec. f_equal.
  induction Hes as [|e d es ds' [He _] Hes IH]; [done|]. rewrite !fmap_cons. by f_equal.
Qed.

Section safety.
Context (K : bytes → Prop) (N : nat).

(** A stored chunk is one of the strings considered. *)
Lemma has_chunk_K r d : repo_inv K N r → has_chunk r d → K d.
Proof.
  intros Hi (loc & Hl & (obj & Ho & _ & _ & _ & Hs)).
  destruct (ri_locators _ _ _ Hi _ _ Hl) as (d' & Kd & _ & (obj' & Ho' & _ & _ & _ & Hs')). congruence.
Qed.

Lemma gc_start r L keep : repo_inv K N r → dead_ok N r → one_region r → gc_state K N r L keep r.
Proof. intros Hi Hd Ho. by split. Qed.

(** The state a sweep leaves, whatever its result. *)
Lemma Sweep_state pages grace clk r L :
  universe K → repo_inv K N r → dead_ok N r → one_region r →
  (∀ live, markLive (clk - grace) (Snapshot (r_OpenHandles r)) r = Ok live → live = L) →
  sweeping K N r L (protected (clk - grace) r) (Sweep pages grace clk r).2.
Proof.
  intros HK Hi Hd Ho HL. destruct (Z.le_gt_cases grace MinGraceDuration) as [Hg|Hg].
  - unfold Sweep. rewrite (proj2 (Z.leb_le _ _)) by done. split; [done|]. intros _. by apply gc_start.
  - apply keeps_Sweep; [done|done|done| |split; [done|intros _; by apply gc_start]].
    intros e. by apply collected_unprotected.
Qed.

(** The proof of the theorem below, for the files that build on it. *)
Lemma Sweep_protects pages grace clk r res r' :
  universe K → repo_inv K N r → dead_ok N r → one_region r →
  Sweep pages grace clk r = (res, r') → (r_drawn r' <= N)%nat →
  repo_inv K N r' ∧ dead_ok N r' ∧ one_region r' ∧ r_packer r' = r_packer r ∧
  (∀ d n, lookupTx d n (r_DB r') = lookupTx d n (r_DB r)) ∧
  ∀ i rec, protected (clk - grace) r i → getInodeTx i (r_DB r) = Ok rec →
    getInodeTx i (r_DB r') = Ok rec ∧
    (IsDir rec = false → ∀ ds, readable r rec ds → readable r' rec ds).
Proof.
  intros HK Hi Hd Ho Hrun HN.
  set (L := match markLive (clk - grace) (Snapshot (r_OpenHandles r)) r with Ok l => l | Err _ => ∅ end).
  pose proof (Sweep_state pages grace clk r L HK Hi Hd Ho) as Hst.
  rewrite Hrun in Hst. cbn [snd] in Hst.
  destruct Hst as [_ Hst]; [by unfold L; intros ? ->|]. specialize (Hst HN).
  split_and!; [apply Hst..| |].
  { intros d n. unfold lookupTx. by rewrite (gs_names _ _ _ _ _ _ Hst). }
  intros i rec Hp Hget. split; [unfold getInodeTx; by rewrite (gs_inodes _ _ _ _ _ _ Hst)|].
  intros Hf ds Hread. destruct (markLive (clk - grace) (Snapshot (r_OpenHandles r)) r) as [live|e] eqn:Hm.
  2:{ unfold Sweep in Hrun. destruct (_ <=? _); [by injection Hrun as <- <-|].
      unfold mbind, M_bind, gets, reading in Hrun. rewrite Hm in Hrun. by injection Hrun as <- <-. }
  assert (∀ d, d ∈ ds → Sum d ∈ L) as HinL.
  { intros d Hin. unfold L.
    apply (markLive_spec r _ _ Hm). left. exists i. split; [by eapply protected_marked|].
    exists rec, (Sum <$> ds). split_and!; [done|by eapply chunkIDsOf_content|].
    apply list_elem_of_fmap. by exists d. }
  destruct Hread as (Hs1 & Hs2 & Hall & Hk). split_and!; [done|done| |].
  - rewrite Forall_forall in *. intros d Hin. apply (gs_chunks _ _ _ _ _ _ Hst); auto.
    by eapply has_chunk_K, Hall.
  - destruct (HasInline rec); [done|]. destruct (HasManifest rec); [|done].
    destruct Hk as (m & (data & Hobj & Hdec) & Hes). exists m. split; [|done]. exists data.
    split; [|done]. by apply (gs_manifests _ _ _ _ _ _ Hst).
Qed.

(** C2: a sweep, also one that stops with an error, takes nothing away that
    is protected, whatever state the namespace is in.  The names are what
    they were; an inode that the directory tree leads to or that is in the
    graveyard, and whose graveyard entries, if it has any, are all too recent
    or which is held open, keeps its record, and a file of them that could be
    read can still be read, whatever the compaction and the reaping of
    containers did to where its chunks are; and the repository is again in a
    state a sweep can start from.  In a store built by orderly callers
    ([reachable]) every inode with a name is protected; a file linked again
    after its last name was removed has a graveyard entry and is not. *)
Theorem sweep_keeps_protected pages grace clk r res r' :
  universe K → repo_inv K N r → dead_ok N r → one_region r →
  Sweep pages grace clk r = (res, r') → (r_drawn r' <= N)%nat →
  repo_inv K N r' ∧ dead_ok N r' ∧ one_region r' ∧ r_packer r' = r_packer r ∧
  (∀ d n, lookupTx d n (r_DB r') = lookupTx d n (r_DB r)) ∧
  (∀ i rec, protected (clk - grace) r i → getInodeTx i (r_DB r) = Ok rec →
    getInodeTx i (r_DB r') = Ok rec ∧
    (IsDir rec = false → ∀ ds, readable r rec ds → readable r' rec ds)) ∧
  (reachable (r_DB r) → ∀ d n i, lookupTx d n (r_DB r) = Ok i → protected (clk - grace) r i).
Proof.
  intros HK Hi Hd Ho Hrun HN.
  destruct (Sweep_protects pages grace clk r res r' HK Hi Hd Ho Hrun HN) as (? & ? & ? & ? & ? & ?).
  split_and!; try done. intros Hr d n i. by apply named_protected.
Qed.
End safety.

(** C21: whatever state the namespace is in, a mark that succeeds has marked
    exactly the chunks of the files the directory tree leads to, of the
    inodes deleted after the cutoff or held open, and those waiting in the
    packer.  And it does succeed, its walk of the tree having fuel enough,
    in every store of [built] (any calls of the metadata store) in which the
    records of the inodes it comes to and the manifests of the files it
    marks can be read. *)
Theorem mark_exact cutoff r :
  (∀ live, markLive cutoff (Snapshot (r_OpenHandles r)) r = Ok live →
     ∀ id, id ∈ live ↔ (∃ i, marked cutoff r i ∧ refers r i id) ∨ id ∈ PendingIDs (r_packer r)) ∧
  (built (r_DB r) →
   (∀ i, leads_to (view (r_DB r)) RootInode i → ∃ rec, getInodeTx i (r_DB r) = Ok rec) →
   (∀ i, marked cutoff r i → ∃ rec ids, getInodeTx i (r_DB r) = Ok rec ∧ chunkIDsOf rec r = Ok ids) →
   ∃ live, markLive cutoff (Snapshot (r_OpenHandles r)) r = Ok live).
Proof.
  split; [by apply markLive_spec|]. intros [_ I]%built_has_inv Hrec Hok. unfold markLive.
  destruct (markLiveTree_total r (tree_fuel r) ∅ RootInode ∅) as [l1 ->].
  - apply I.
  - by intros ? ?%elem_of_empty.
  - rewrite size_empty. pose proof (names_fuel r). lia.
  - intros i Hb. destruct (Hrec i Hb) as [rec Hi]. exists rec. split; [done|]. intros Hf.
    destruct (Hok i) as (rec' & ids & Hi' & Hids); [left; eauto|]. exists ids. congruence.
  - destruct (fold_result_ok (markGrave cutoff (Snapshot (r_OpenHandles r)) r) (graveyard r) l1) as [l2 ->];
      [|by eexists].
    intros c e He. unfold markGrave. destruct (After _ cutoff) eqn:Ha; cbn [negb andb].
    + destruct (Hok (ge_InodeID e)) as (rec & ids & -> & ->); [right; eauto|by eexists].
    + case_bool_decide as Hh; cbn [negb]; [|by eexists]. apply elem_of_Snapshot in Hh.
      destruct (Hok (ge_InodeID e)) as (rec & ids & -> & ->); [right; eauto|by eexists].
Qed.
End sweep.
