(* ===== verification/GCLive.v ===== *)
(** pkg/repo/gc.go: a sweep that succeeds has collected the garbage.

    [shrunk] is what a sweep may do to the buckets it collects from: nothing
    that is gone comes back.  The graveyard entries past their grace go in
    the first phase, the locators of unmarked chunks in the second, and the
    later phases bring neither back. *)
From S2P Require Import Prelude Bolt Chunk Manifest Store Pack MetaDB MetaSpec MetaRefine MetaTree.
From S2P Require Import MetaInv MetaThm Coherence RepoUtil Repo RepoRead RepoStore RepoThm GC GCThm.

Section statements.
Context {bucket : Type → Type} `{BoltOps bucket} {B : Type} `{BackendOps B} {blake3 : Blake3}.
Context {callback handler : Type}.
Abbreviation repo := (Repo bucket B callback handler).

Record shrunk (r r' : repo) : Prop := mkShrunk {
  sh_region : r_Region r' = r_Region r;
  sh_inode : ∀ k, bk_get k (bInode (r_DB r)) = None → bk_get k (bInode (r_DB r')) = None;
  sh_grave : ∀ k, bk_get k (bGravey (r_DB r)) = None → bk_get k (bGravey (r_DB r')) = None;
  sh_locator : ∀ id, GetLocator (r_Region r) id (r_DB r) = None → GetLocator (r_Region r) id (r_DB r') = None;
  sh_keys : one_region r → one_region r'
}.

(** The first two phases also leave locators where they point and seal times
    alone. *)
Record trimmed (r r' : repo) : Prop := mkTrimmed {
  tr_shrunk : shrunk r r';
  tr_locator : ∀ id loc, GetLocator (r_Region r) id (r_DB r') = Some loc →
    GetLocator (r_Region r) id (r_DB r) = Some loc;
  tr_container : bContainer (r_DB r') = bContainer (r_DB r)
}.

(** The chunk has no locator, or is marked, or its container was sealed too
    recently for the chunk to be collected, as far as [r0] knows. *)
Definition settled (cutoff : time) (live : gset ID) (r0 : repo) (e : LocatorEntry) (r : repo) : Prop :=
  le_ChunkID e ∈ live ∨ GetLocator (r_Region r0) (le_ChunkID e) (r_DB r) = None ∨
  ∀ at_, ContainerSealedAt (l_Container (le_Locator e)) (r_DB r0) = Some at_ → After at_ cutoff = true.

(** The loop of [sweepOrphans] that started in [r0] has gone over [seen]. *)
Record orphan_loop (cutoff : time) (live : gset ID) (r0 : repo) (seen : list LocatorEntry)
    (st : gset ID * gmap bytes (option time)) (r : repo) : Prop := mkOrphanLoop {
  ol_trimmed : trimmed r0 r;
  ol_removed : ∀ id, id ∈ st.1 → GetLocator (r_Region r0) id (r_DB r) = None;
  ol_known : ∀ c t, st.2 !! c = Some t → t = ContainerSealedAt c (r_DB r0);
  ol_seen : ∀ e, e ∈ seen → settled cutoff live r0 e r
}.

(** A loop that started in [r0] and has dropped the locators of the chunks
    [removed]. *)
Definition drop_loop (r0 : repo) (removed : gset ID) (r : repo) : Prop :=
  trimmed r0 r ∧ ∀ id, id ∈ removed → GetLocator (r_Region r0) id (r_DB r) = None.

(** The first loop of [Sweep] that started in [r0] has gone over [seen]. *)
Definition grave_loop (cutoff : time) (held : gset InodeID) (r0 : repo) (seen : list GraveyardEntry)
    (removed : gset ID) (r : repo) : Prop :=
  drop_loop r0 removed r ∧ ∀ e, e ∈ seen → After (ge_DeletedAt e) cutoff = false → ge_InodeID e ∉ held →
    bk_get (inodeKey (ge_InodeID e)) (bInode (r_DB r)) = None ∧
    bk_get (graveyardKey (ge_DeletedAt e) (ge_InodeID e)) (bGravey (r_DB r)) = None.

End statements.

(** A property of a loop, kept from one iteration to the next. *)
Lemma fold_m_seen {S A C} (P : list A → C → S → Prop) (f : C → A → M S C) l c s c' s' :
  (∀ seen c x s c' s', P seen c s → f c x s = (Ok c', s') → P (seen ++ [x]) c' s') →
  P [] c s → fold_m f c l s = (Ok c', s') → P l c' s'.
Proof.
  intros Hf. change l with ([] ++ l) at 2. generalize (@nil A) as seen. revert c s.
  induction l as [|x l IH]; intros c s seen Hs; cbn [fold_m].
  - intros [= <- <-]. by rewrite app_nil_r.
  - unfold mbind, M_bind. destruct (f c x s) as [[c1|e] s1] eqn:E; [|done]. intros Hl.
    change (x :: l) with ([x] ++ l). rewrite app_assoc. eapply IH; [by eapply Hf|done].
Qed.

Lemma keeps_each_in {S A} (P : S → Prop) (f : A → M S unit) l :
  (∀ a, a ∈ l → keeps P (f a)) → keeps P (each f l).
Proof.
  induction l as [|a l IH]; intros Hf; cbn [each]; [apply keeps_ret|].
  apply keeps_bind; [apply Hf, list_elem_of_here|]. intros _. apply IH. intros. apply Hf.
  by apply list_elem_of_further.
Qed.

Section phases.
Context {bucket : Type → Type} `{BoltLaws bucket} {B : Type} `{BackendLaws B} {blake3 : Blake3}.
Context {callback handler : Type}.
Abbreviation repo := (Repo bucket B callback handler).
Implicit Types r : repo.

Lemma shrunk_refl r : shrunk r r.
Proof. by split. Qed.

Lemma shrunk_trans r1 r2 r3 : shrunk r1 r2 → shrunk r2 r3 → shrunk r1 r3.
Proof.
  intros [E1 I1 G1 L1 K1] [E2 I2 G2 L2 K2]. rewrite E1 in *. split; [congruence|eauto..].
Qed.

Lemma trimmed_trans r1 r2 r3 : trimmed r1 r2 → trimmed r2 r3 → trimmed r1 r3.
Proof.
  intros [S1 L1 C1] [S2 L2 C2]. rewrite (sh_region _ _ S1) in L2.
  split; [by eapply shrunk_trans|eauto|congruence].
Qed.

(** Deleting from a bucket. *)
Lemma trimmed_delete g r :
  (∀ d, bk_get d (bInode (r_DB r)) = None → bk_get d (bInode (g (r_DB r))) = None) →
  (∀ d, bk_get d (bGravey (r_DB r)) = None → bk_get d (bGravey (g (r_DB r))) = None) →
  (∀ k v, bk_get k (bLocator (g (r_DB r))) = Some v → bk_get k (bLocator (r_DB r)) = Some v) →
  bContainer (g (r_DB r)) = bContainer (r_DB r) → trimmed r (set_DB (g (r_DB r)) r).
Proof.
  intros Hi Hg Hl Hc. split; [split; try done| |done].
  - intros id Hn. unfold GetLocator in *. cbn. destruct (bk_get _ (bLocator (g _))) eqn:E; [|done].
    apply Hl in E. congruence.
  - intros Ho k v Hk. by eapply Ho, Hl.
  - intros id loc. apply Hl.
Qed.

Lemma delete_none {V} k k' (b : bucket V) : bk_get k b = None → bk_get k (bk_delete k' b) = None.
Proof. rewrite bk_get_delete. by case_decide. Qed.

Lemma trimmed_dropLocator id r :
  ∃ r', dropLocator id r = (Ok tt, r') ∧ trimmed r r' ∧ GetLocator (r_Region r) id (r_DB r') = None.
Proof.
  unfold dropLocator, onDB, zoom. rewrite DeleteLocator_run. eexists. split; [done|]. split.
  - apply trimmed_delete; try done. intros k v. cbn. rewrite bk_get_delete. by case_decide.
  - cbn. rewrite GetLocator_delete. by rewrite decide_True.
Qed.

Lemma trimmed_DeleteInode i r :
  ∃ r', onDB (DeleteInode i) r = (Ok tt, r') ∧ trimmed r r' ∧
    bk_get (inodeKey i) (bInode (r_DB r')) = None.
Proof.
  unfold onDB, zoom. rewrite DeleteInode_run. eexists. split; [done|]. split.
  - apply trimmed_delete; try done. intros k. apply delete_none.
  - apply bk_get_delete_eq.
Qed.

Lemma trimmed_RemoveGraveyardEntry e r :
  ∃ r', onDB (RemoveGraveyardEntry e) r = (Ok tt, r') ∧ trimmed r r' ∧
    bInode (r_DB r') = bInode (r_DB r) ∧
    bk_get (graveyardKey (ge_DeletedAt e) (ge_InodeID e)) (bGravey (r_DB r')) = None.
Proof.
  unfold onDB, zoom. rewrite RemoveGraveyardEntry_run. eexists. split; [done|]. split_and!; [|done|].
  - apply trimmed_delete; try done. intros k. apply delete_none.
  - apply bk_get_delete_eq.
Qed.

(** ** The graveyard *)

Lemma trimmed_dropChunks r0 live ids removed :
  keeps (shrunk r0) (fold_m (dropChunk live) removed ids : M repo (gset ID)).
Proof.
  apply keeps_fold_m. intros c id _ r Hr. unfold dropChunk.
  case_bool_decide; [done|]. case_bool_decide; [done|]. unfold mbind, M_bind.
  destruct (trimmed_dropLocator id r) as (r' & -> & Ht & _). eapply shrunk_trans; [exact Hr|apply Ht].
Qed.

Lemma drop_loop_trimmed r0 removed r r' : drop_loop r0 removed r → trimmed r r' → drop_loop r0 removed r'.
Proof.
  intros [Ht Hr] Ht'. split; [by eapply trimmed_trans|]. intros id Hid.
  destruct Ht' as [[_ _ _ Hl _] _ _]. rewrite (sh_region _ _ (tr_shrunk _ _ Ht)) in Hl. auto.
Qed.

Lemma dropChunks_run r0 live ids removed r removed' r' :
  drop_loop r0 removed r → fold_m (dropChunk live) removed ids r = (Ok removed', r') →
  drop_loop r0 removed' r'.
Proof.
  intros Hd Hrun. refine (fold_m_seen (λ _, drop_loop r0) _ _ _ _ _ _ _ Hd Hrun). clear -H0.
  intros _ c id r c' r' Hd. unfold dropChunk.
  case_bool_decide; [by intros [= <- <-]|]. case_bool_decide; [by intros [= <- <-]|]. unfold mbind, M_bind.
  destruct (trimmed_dropLocator id r) as (r1 & -> & Ht & Hn). intros [= <- <-].
  destruct (drop_loop_trimmed _ _ _ _ Hd Ht) as [Ht1 Hr1]. split; [done|].
  destruct Hd as [[Hsh _ _] _]. rewrite (sh_region _ _ Hsh) in Hn.
  intros id' [?| ->%elem_of_singleton]%elem_of_union; auto.
Qed.

Lemma sweepGrave_run r0 cutoff held live removed e r removed' r' :
  drop_loop r0 removed r → sweepGrave cutoff held live removed e r = (Ok removed', r') →
  drop_loop r0 removed' r' ∧ shrunk r r' ∧ (After (ge_DeletedAt e) cutoff = false → ge_InodeID e ∉ held →
    bk_get (inodeKey (ge_InodeID e)) (bInode (r_DB r')) = None ∧
    bk_get (graveyardKey (ge_DeletedAt e) (ge_InodeID e)) (bGravey (r_DB r')) = None).
Proof.
  intros Hd. assert (trimmed r r) as Hrefl by (split; [apply shrunk_refl|done..]).
  unfold sweepGrave. destruct (After _ cutoff); [by intros [= <- <-]|].
  case_bool_decide as Hh; [by intros [= <- <-]|].
  unfold mbind, M_bind, attempt, onDB at 1, zoom, GetInode, View.
  replace (set_DB (r_DB r) r) with r by (by destruct r).
  destruct (getInodeTx (ge_InodeID e) (r_DB r)) as [rec|err] eqn:Hi; cbn [fst snd].
  - unfold reading. destruct (chunkIDsOf rec r) as [ids|err]; [|done].
    destruct (fold_m _ _ _ r) as [[rem|err] r1] eqn:Hf; [|done].
    pose proof (dropChunks_run r0 live ids removed r rem r1 Hd Hf) as Hd1.
    assert (shrunk r r1) as Hs1.
    { change r1 with (Ok rem, r1).2. rewrite <- Hf. apply trimmed_dropChunks, shrunk_refl. }
    destruct (trimmed_DeleteInode (ge_InodeID e) r1) as (r2 & -> & Ht2 & Hi2).
    destruct (trimmed_RemoveGraveyardEntry e r2) as (r3 & -> & Ht3 & Hi3 & Hg3). intros [= <- <-].
    split; [by eauto using drop_loop_trimmed|]. rewrite Hi3. split; [|done].
    eapply shrunk_trans; [exact Hs1|]. eapply shrunk_trans; [apply Ht2|apply Ht3].
  - case_bool_decide; [|done].
    destruct (trimmed_RemoveGraveyardEntry e r) as (r3 & -> & Ht3 & Hi3 & Hg3). intros [= <- <-].
    split; [by eapply drop_loop_trimmed|]. split; [apply Ht3|]. intros _ _. split; [|done].
    rewrite Hi3. unfold getInodeTx in Hi. by case_match.
Qed.

Lemma sweepGraves_run cutoff held live es r removed' r' :
  fold_m (sweepGrave cutoff held live) ∅ es r = (Ok removed', r') → grave_loop cutoff held r es removed' r'.
Proof.
  intros Hrun. refine (fold_m_seen (grave_loop cutoff held r) _ _ _ _ _ _ _ _ Hrun).
  - intros seen c x s c' s' [Hd Hs] Hx.
    destruct (sweepGrave_run r cutoff held live c x s c' s' Hd Hx) as (Hd' & Hsh & Hx').
    split; [done|]. intros e [He| ->%list_elem_of_singleton]%elem_of_app; [|done]. intros Ha Hh.
    destruct (Hs e He Ha Hh), Hsh. auto.
  - split; [|by intros e ?%not_elem_of_nil]. split; [split; [apply shrunk_refl|done..]|set_solver].
Qed.

(** ** Orphans *)

Lemma settled_trimmed cutoff live r0 e r r' :
  r_Region r = r_Region r0 → trimmed r r' → settled cutoff live r0 e r → settled cutoff live r0 e r'.
Proof.
  intros E [[_ _ _ Hl _] _ _] [?|[Hn|?]]; [by left| |by do 2 right].
  right; left. rewrite E in Hl. auto.
Qed.

Lemma sweepOrphan_run cutoff live r0 seen st e r st' r' :
  orphan_loop cutoff live r0 seen st r → sweepOrphan cutoff live st e r = (Ok st', r') →
  orphan_loop cutoff live r0 (seen ++ [e]) st' r'.
Proof.
  intros [Ht Hr Hk Hs]. destruct st as [removed known]. cbn [fst snd] in *.
  pose proof (sh_region _ _ (tr_shrunk _ _ Ht)) as Ereg.
  assert (∀ known', (∀ c t, known' !! c = Some t → t = ContainerSealedAt c (r_DB r0)) →
    settled cutoff live r0 e r → orphan_loop cutoff live r0 (seen ++ [e]) (removed, known') r) as Hstay.
  { intros known' Hk' He. split; try done. intros e' [?| ->%list_elem_of_singleton]%elem_of_app; auto. }
  unfold sweepOrphan. case_bool_decide as Hl; [intros [= <- <-]; apply Hstay; [done|by left]|].
  case_bool_decide as Hin; [intros [= <- <-]; apply Hstay; [done|right; left; auto]|].
  unfold mbind, M_bind, gets. set (sealed := match known !! _ with Some t => t | None => _ end).
  assert (sealed = ContainerSealedAt (l_Container (le_Locator e)) (r_DB r0)) as Hse.
  { unfold sealed. destruct (known !! _) eqn:E; [by apply Hk|].
    unfold ContainerSealedAt. by rewrite (tr_container _ _ Ht). }
  assert (∀ c t, <[l_Container (le_Locator e) := sealed]> known !! c = Some t →
    t = ContainerSealedAt c (r_DB r0)) as Hk'.
  { intros c t. rewrite lookup_insert. case_decide; [intros [= <-]; by subst c|apply Hk]. }
  destruct sealed as [at_|]; [|intros [= <- <-]; apply Hstay; [done|do 2 right; congruence]].
  destruct (After at_ cutoff) eqn:Ha; [intros [= <- <-]; apply Hstay; [done|do 2 right; congruence]|].
  destruct (trimmed_dropLocator (le_ChunkID e) r) as (r1 & -> & Ht1 & Hn). intros [= <- <-].
  rewrite Ereg in Hn. split; cbn [fst snd].
  - by eapply trimmed_trans.
  - destruct Ht1 as [[_ _ _ Hloc _] _ _]. rewrite Ereg in Hloc.
    intros id [?| ->%elem_of_singleton]%elem_of_union; auto.
  - done.
  - intros e' [He'| ->%list_elem_of_singleton]%elem_of_app; [|by right; left].
    eapply settled_trimmed; eauto.
Qed.

Lemma sweepOrphans_run cutoff live removed r removed' r' :
  (∀ id, id ∈ removed → GetLocator (r_Region r) id (r_DB r) = None) →
  sweepOrphans cutoff live removed r = (Ok removed', r') →
  trimmed r r' ∧ ∀ e, e ∈ ListLocators (r_Region r) (r_DB r) → settled cutoff live r e r'.
Proof.
  intros Hr. unfold sweepOrphans, mbind, M_bind, gets.
  destruct (fold_m _ _ _ r) as [[st|e] r1] eqn:Hrun; [|done]. intros [= <- <-].
  apply (fold_m_seen (orphan_loop cutoff live r)) in Hrun as [Ht _ _ Hs]; [done| |].
  - intros seen c x s c' s'. apply sweepOrphan_run.
  - split; [split; [apply shrunk_refl|done..]|done|by intros c t|by intros e ?%not_elem_of_nil].
Qed.

(** ** The later phases *)

Lemma shrunk_put r0 r id loc t :
  is_Some (GetLocator (r_Region r0) id (r_DB r0)) → shrunk r0 r →
  shrunk r0 (onDB (PutLocator (r_Region r) id loc t) r).2.
Proof.
  intros [loc0 Hid] Hs. eapply shrunk_trans with (r2 := r) in Hs as Hs'; [|apply shrunk_refl].
  destruct Hs as [E I G Lc Ks]. unfold onDB, zoom.
  destruct (PutLocator_run (r_Region r) id loc t (r_DB r)) as (d' & -> & Hm & Hl). cbn [snd].
  split; cbn [r_Region r_DB set_DB]; [done| | | |].
  - rewrite (sm_inode _ _ Hm). done.
  - rewrite (sm_gravey _ _ Hm). done.
  - intros id' Hn. unfold GetLocator. rewrite Hl, bk_get_put, E. case_decide as Ek; [|by apply Lc].
    apply locatorKey_inj in Ek. congruence.
  - intros Ho k v. cbn. rewrite Hl, bk_get_put. case_decide as Ek; [by exists id|by apply (Ks Ho)].
Qed.

Lemma repack_pending p es r p' r' :
  fold_m repack p es r = (Ok p', r') →
  r' = r ∧ ∀ pe, pe ∈ p_pending p' → pe ∈ p_pending p ∨ ∃ e, e ∈ es ∧ pe_id pe = le_ChunkID e.
Proof.
  intros Hrun.
  refine (fold_m_seen (λ seen p' r', r' = r ∧ ∀ pe, pe ∈ p_pending p' →
    pe ∈ p_pending p ∨ ∃ e, e ∈ seen ∧ pe_id pe = le_ChunkID e) _ _ _ _ _ _ _ _ Hrun).
  - intros seen c x s c' s' [-> Hc]. unfold repack. destruct (Fetch _ _ _) as [d|]; [|done].
    intros [= <- <-]. split; [done|]. intros pe [Hpe| ->%list_elem_of_singleton]%elem_of_app.
    + destruct (Hc pe Hpe) as [?|(e & He & ?)]; [by left|]. right. exists e. split; [|done].
      apply elem_of_app. by left.
    + right. exists x. split; [|done]. apply elem_of_app. right. by apply list_elem_of_singleton.
  - split; [done|]. by left.
Qed.

(** Rewriting writes only locators there were. *)
Lemma shrunk_rewrite r0 es clk :
  (∀ e, e ∈ es → is_Some (GetLocator (r_Region r0) (le_ChunkID e) (r_DB r0))) →
  keeps (shrunk r0) (rewriteContainer es clk : M repo unit).
Proof.
  intros Hes r Hs. unfold rewriteContainer. destruct es as [|e0 es0] eqn:Ees; [done|]. rewrite <- Ees in *.
  unfold mbind, M_bind, gets. destruct (fold_m repack _ es r) as [[p|err] r1] eqn:Hf.
  2:{ pose proof (keeps_fold_m (shrunk r0) repack (NewPacker (r_Region r) 0) es) as Hk.
      assert (shrunk r0 (fold_m repack (NewPacker (r_Region r) 0) es r).2) as Hkr.
      { apply Hk; [|done]. intros c a _ s Hss. unfold repack. by destruct (Fetch _ _ _). }
      by rewrite Hf in Hkr. }
  apply repack_pending in Hf as [-> Hp]. unfold sealNew. destruct (Empty p); [done|].
  unfold draw. cbn [r_Backend set_drawn]. unfold Seal.
  destruct (blen (p_buf p) =? 0).
  { unfold putLocators. rewrite map_to_list_empty. by destruct Hs. }
  destruct (b_Put _ _ _ _) as [[oi|err] b]; [|by destruct Hs].
  unfold putLocators. apply keeps_each_in; [|by destruct Hs].
  intros [id loc] Hin r2 Hs2. apply shrunk_put; [|done]. apply elem_of_map_to_list in Hin.
  apply seal_locators_in in Hin as (pe & Hpe & <- & _).
  destruct (Hp pe Hpe) as [?%not_elem_of_nil|(e & He & ->)]; [done|]. auto.
Qed.

Lemma shrunk_deadcnt r0 r g : shrunk r0 r → shrunk r0 (set_DB (on_deadcnt g (r_DB r)) r).
Proof. intros [E I G Lc Ks]. by split. Qed.

Lemma shrunk_Compact pages threshold clk r : one_region r → shrunk r (Compact pages threshold clk r).2.
Proof.
  intros Ho. unfold Compact, mbind, M_bind, gets, reading.
  destruct (listContainers pages r) as [listed|e]; [|apply shrunk_refl].
  apply (keeps_fold_m (shrunk r)); [|apply shrunk_refl]. intros n c _ r1 Hr1. unfold compactOne.
  destruct (oi_Size c <=? 0); [done|]. case_bool_decide; [done|].
  pose proof (byContainer_filter (ListLocators (r_Region r) (r_DB r)) (oi_Key c)) as Hes.
  destruct (match byContainer _ !! _ with Some cs => (cs_liveBytes cs, cs_entries cs) | None => (0, []) end)
    as [lv es] eqn:El.
  destruct (dense _ _ _); [done|]. unfold mbind, M_bind.
  pose proof (shrunk_rewrite r es clk) as Hrw. unfold keeps in Hrw. specialize (Hrw) with (s := r1).
  destruct (rewriteContainer es clk r1) as [res r2]. cbn [snd] in Hrw.
  assert (shrunk r r2) as Hr2.
  { apply Hrw; [|done]. intros [id loc] He. exists loc. apply elem_of_ListLocators; [done|].
    destruct (byContainer _ !! _); injection El as _ <-; [|by apply not_elem_of_nil in He].
    rewrite Hes in He. by apply list_elem_of_filter in He as [_ ?]. }
  destruct res; [|done]. unfold onDB, zoom. rewrite MarkContainerDead_run. by apply shrunk_deadcnt.
Qed.

Lemma shrunk_reap r0 cutoff : keeps (shrunk r0) (reapDeadContainers cutoff : M repo unit).
Proof.
  unfold reapDeadContainers. apply keeps_bind; [apply keeps_gets|]. intros dead.
  apply keeps_bind; [apply keeps_gets|]. intros batch.
  set (keys := dc_Key <$> _). generalize (length keys) as fuel, (Z.to_nat (if batch <=? 0 then 1 else batch)) as n.
  generalize keys. clear keys dead batch. intros keys fuel n. revert keys.
  induction fuel as [|fuel IH]; intros [|k keys]; cbn [reap_batches]; try apply keeps_ret; try apply keeps_throw.
  apply keeps_bind; [|intros rs; apply keeps_bind; [apply keeps_each|intros _; apply IH]].
  - intros r [E I G Lc Ks]. unfold onBackend, zoom. destruct (b_Delete _ _). by split.
  - intros res r Hr. unfold reapResult.
    assert (shrunk r0 (onDB (RemoveDeadContainer (dr_Key res)) r).2) as Hrm.
    { unfold onDB, zoom. rewrite RemoveDeadContainer_run. by apply shrunk_deadcnt. }
    destruct (dr_Err res); [|done]. by case_bool_decide.
Qed.
End phases.

(** * A whole sweep *)

Section sweep.
Context {bucket : Type → Type} `{BoltLaws bucket} {B : Type} `{BackendLaws B} {blake3 : Blake3}.
Context {callback handler : Type}.
Abbreviation repo := (Repo bucket B callback handler).
Implicit Types r : repo.

Lemma u64_i64 z : u64 (i64 z) = u64 z.
Proof.
  unfold u64, i64. rewrite Zminus_mod_idemp_l. f_equal. lia.
Qed.

(** The key of a graveyard entry can be had back from the entry. *)
Lemma grave_entry_key k p :
  k = enc_grave p → graveyardKey (i64 (unbe (take 8 k))) (getID (drop 8 k)) = k.
Proof.
  intros ->. rewrite grave_time. unfold graveyardKey, enc_grave.
  rewrite drop_app_length' by (by rewrite length_be). rewrite getID_be8. f_equal. f_equal.
  unfold UnixNano. rewrite (i64_id (i64 _)) by apply i64_range. rewrite u64_i64. apply u64_id, w64_range.
Qed.

Lemma removed_entry r r' e :
  reachable (r_DB r) → shrunk r r' →
  bk_get (graveyardKey (ge_DeletedAt e) (ge_InodeID e)) (bGravey (r_DB r')) = None → e ∉ graveyard r'.
Proof.
  intros Hr Hs Hn He. pose proof (reachable_inv _ Hr) as [[_ Hk] _].
  apply list_elem_of_fmap in He as ([k v] & -> & Hin%bk_cursor_get). cbn [ge_DeletedAt ge_InodeID fst] in Hn.
  destruct (bk_get k (bGravey (r_DB r))) as [v0|] eqn:E.
  - destruct (Hk k v0 E) as [p Hp%dec_grave_Some]. rewrite (grave_entry_key k p Hp) in Hn. congruence.
  - apply (sh_grave _ _ Hs) in E. congruence.
Qed.

(** C20: a sweep that succeeds has collected the garbage.  The inodes of the
    graveyard entries past their grace and not held open are gone, and so
    are the entries; and a chunk that still has a locator was marked, was
    waiting in the packer, or lay in a container sealed after the cutoff or
    of unknown age. *)
Theorem sweep_collects pages grace clk r n r' :
  reachable (r_DB r) → one_region r → Sweep pages grace clk r = (Ok n, r') →
  (∀ e, e ∈ graveyard r → After (ge_DeletedAt e) (clk - grace) = false →
     Held (ge_InodeID e) (r_OpenHandles r) = false →
     getInodeTx (ge_InodeID e) (r_DB r') = Err ErrNotFound ∧ e ∉ graveyard r') ∧
  (∀ id loc', GetLocator (r_Region r) id (r_DB r') = Some loc' →
     (∃ i, marked (clk - grace) r i ∧ refers r i id) ∨ id ∈ PendingIDs (r_packer r) ∨
     ∃ loc, GetLocator (r_Region r) id (r_DB r) = Some loc ∧
       ∀ at_, ContainerSealedAt (l_Container loc) (r_DB r) = Some at_ → After at_ (clk - grace) = true).
Proof.
  intros Hr Ho. unfold Sweep. destruct (_ <=? _); [done|]. unfold mbind, M_bind at 1 2, gets, reading.
  set (cutoff := clk - grace). destruct (markLive cutoff _ r) as [live|e] eqn:Hm; [|done].
  unfold M_bind at 1. unfold onDB at 1, zoom. unfold ListGraveyard at 1, gets.
  replace (set_DB (r_DB r) r) with r by (by destruct r). fold (graveyard r).
  change ((λ kv, mkGrave (getID (drop 8 kv.1)) (i64 (unbe (take 8 kv.1)))) <$> bk_cursor (bGravey (r_DB r)))
    with (graveyard r).
  unfold M_bind at 1. destruct (fold_m _ ∅ _ r) as [[rem1|e] r1] eqn:H1r; [|done].
  apply sweepGraves_run in H1r as [[Ht1 Hrem] Hg].
  pose proof (sh_region _ _ (tr_shrunk _ _ Ht1)) as E1.
  unfold M_bind at 1. destruct (sweepOrphans cutoff live rem1 r1) as [[rem2|e] r2] eqn:H2r; [|done].
  apply sweepOrphans_run in H2r as [Ht2 Hs2]; [|by rewrite E1].
  pose proof (trimmed_trans _ _ _ Ht1 Ht2) as Ht12.
  pose proof (sh_keys _ _ (tr_shrunk _ _ Ht1) Ho) as Ho1.
  pose proof (sh_keys _ _ (tr_shrunk _ _ Ht2) Ho1) as Ho2.
  pose proof (shrunk_Compact pages DefaultLivenessThreshold clk r2 Ho2) as Hc.
  unfold M_bind at 1. destruct (Compact _ _ _ r2) as [[u|e] r3]; [|done]. cbn [snd] in Hc.
  pose proof (shrunk_reap r2 cutoff r3 Hc) as Hp.
  unfold M_bind. destruct (reapDeadContainers cutoff r3) as [[u'|e] r4]; [|done]. cbn [snd] in Hp.
  intros [= _ <-]. pose proof (shrunk_trans _ _ _ (tr_shrunk _ _ Ht2) Hp) as H14.
  pose proof (shrunk_trans _ _ _ (tr_shrunk _ _ Ht1) H14) as H04. split.
  - intros e He Ha Hh. destruct (Hg e He Ha) as [Hi Hk].
    { rewrite elem_of_Snapshot. congruence. }
    split; [unfold getInodeTx; by rewrite (sh_inode _ _ H14)|].
    apply (removed_entry r); [done|done|]. by apply (sh_grave _ _ H14).
  - intros id loc' Hl. destruct (GetLocator (r_Region r) id (r_DB r2)) as [loc|] eqn:E2.
    2:{ rewrite <- (sh_region _ _ (tr_shrunk _ _ Ht12)) in E2, Hl.
        apply (sh_locator _ _ Hp) in E2. congruence. }
    rewrite <- E1 in E2. pose proof (tr_locator _ _ Ht2 _ _ E2) as E2'.
    destruct (Hs2 (mkLocEntry id loc)) as [Hlv|[Hn|Hat]]; [by apply elem_of_ListLocators|..].
    + apply (markLive_spec r _ _ Hm) in Hlv. tauto.
    + cbn in Hn. congruence.
    + do 2 right. exists loc. split; [rewrite E1 in E2'; by apply (tr_locator _ _ Ht1)|].
      cbn in Hat. unfold ContainerSealedAt in *. by rewrite <- (tr_container _ _ Ht1).
Qed.
End sweep.
