(* ===== verification/RepoDemo.v ===== *)
(** A repository to run the theorems on.

    [repo_check] decides the invariants of RepoStore and GCThm for a
    repository whose store is a finite map; the witnesses evaluate the
    operations of the repository on a small one: chunks of four bytes, a file
    of two chunks and a manifest, a file written and unlinked. *)
From S2P Require Import Prelude Bolt Chunk Manifest Store Pack MetaDB MetaSpec MetaRefine MetaTree.
From S2P Require Import MetaInv MetaBuilt MetaThm Coherence RepoUtil Repo RepoRead RepoStore RepoThm RepoCoh.
From S2P Require Import RepoReach GC GCThm GCLive.

Local Existing Instance pad_hash.

Abbreviation demo_repo := (Repo MapBolt.mapb MemBackend.mem unit unit).

(** * Deciding the invariants *)

Definition stored_check (loc : Locator) (d : bytes) (s : MemBackend.mem) : bool :=
  match s !! l_Container loc with
  | Some obj => (0 <=? l_Offset loc) && (l_Length loc =? blen d)
                && (l_Offset loc + l_Length loc <=? blen obj)
                && bool_decide (slice (l_Offset loc) (l_Length loc) obj = d)
  | None => false
  end.

Definition chunk_check {cb} (r : Repo MapBolt.mapb MemBackend.mem cb unit) (d : bytes) : bool :=
  match GetLocator (r_Region r) (Sum d) (r_DB r) with
  | Some loc => stored_check loc d (r_Backend r)
  | None => false
  end.

Definition repo_check {cb} (l : list bytes) (N : nat) (r : Repo MapBolt.mapb MemBackend.mem cb unit) : bool :=
  forallb (λ kv, existsb (λ d, bool_decide (kv.1 = locatorKey (r_Region r) (Sum d))
                               && stored_check kv.2 d (r_Backend r)) l) (bk_cursor (bLocator (r_DB r)))
  && forallb (λ kv, negb (has_prefix (str "atlas/m/") kv.1)
                    || bool_decide (kv.2 ∈ l) && bool_decide (kv.1 = manifestKey (Sum256 kv.2)))
       (map_to_list (r_Backend r))
  && bool_decide (p_pending (r_packer r) = [])
  && bool_decide (p_region (r_packer r) = r_Region r)
  && forallb (λ i, bool_decide (r_Backend r !! newContainerKey (r_Region r) (r_rand r i) = None))
       (seq (r_drawn r) (N - r_drawn r))
  && bool_decide (NoDup (r_rand r <$> seq 0 N)).

(** * The repository *)

Definition demo_rand (i : nat) : barray 16 :=
  default (@BArray 16 (replicate 16 x00) eq_refl) (barray_of 16 (be 16 (Z.of_nat i))).

Definition demo_open : demo_repo :=
  match OpenWithPolicy (Open 1000 1000 0) ∅ (str "local") ClassRelaxed 4 demo_rand with
  | Ok r => r
  | Err _ => mkRepo (Open 1000 1000 0) ∅ [] [] None 0 (NewPacker [] 0) 0 NewOpenHandles demo_rand 0 []
  end.

Definition demo_write (dir : InodeID) (name content : bytes) : WriteHandle :=
  mkWriteHandle dir name 420 true (mkOwner 1000 1000) content false.

Definition content_a : bytes := str "abcdef".
Definition content_b : bytes := str "xyz".

(** The strings the repository has to do with. *)
Definition demo_strings : list bytes :=
  [str "abcd"; str "ef"; content_b; EncodeBytes (manifest_of 4 content_a); EncodeBytes (manifest_of 4 content_b)].
Definition demo_K (b : bytes) : Prop := b ∈ demo_strings.

Definition commit_a : result InodeID * (WriteHandle * demo_repo) :=
  Commit 5 5 (demo_write RootInode (str "a") content_a, demo_open).
(** The file "a" is there. *)
Definition demo_a : demo_repo := commit_a.2.2.
Definition id_a : InodeID := Word64 2 eq_refl.

(** A commit into a directory that does not exist. *)
Definition commit_nowhere : result InodeID * (WriteHandle * demo_repo) :=
  Commit 5 5 (demo_write (Word64 99 eq_refl) (str "a") content_a, demo_open).

(** Another file "b" is written and unlinked again. *)
Definition demo_ab : demo_repo := (Commit 6 6 (demo_write RootInode (str "b") content_b, demo_a)).2.2.
Definition demo_gone : demo_repo := (Unlink RootInode (str "b") 7 demo_ab).2.
Definition id_b : InodeID := Word64 3 eq_refl.

(** A sweep a hundred hours later. *)
Definition demo_sweep : result Z * demo_repo := Sweep 1 (2 * Hour) (100 * Hour) demo_gone.

Definition demo_inode (i : InodeID) (r : demo_repo) : InodeRecord :=
  match getInodeTx i (r_DB r) with Ok rec => rec | Err _ => demo_rec end.

Definition rec_a : InodeRecord := demo_inode id_a demo_a.

(** Whether the counters have room for a commit of [content]. *)
Definition commit_check (content : bytes) (r : demo_repo) : bool :=
  (blen content <? 2 ^ 63) && (BytesUsed (getQuotaTx (r_DB r)) + blen content <? 2 ^ 64)
  && (InodesUsed (getQuotaTx (r_DB r)) + 1 <? 2 ^ 64) && (bk_sequence (bMeta (r_DB r)) + 1 <? 2 ^ 64).

(** Whether the name is bound to [i], and [i] is a file. *)
Definition file_check (d : InodeID) (n : bytes) (i : InodeID) (r : demo_repo) : bool :=
  match lookupTx d n (r_DB r) with
  | Ok j => bool_decide (j = i) && match getInodeTx i (r_DB r) with Ok rec => negb (IsDir rec) | Err _ => false end
  | Err _ => false
  end.

(** * The stores are reachable *)

Lemma demo_open_reachable : reachable (r_DB demo_open).
Proof.
  change (r_DB demo_open) with
    (run_op (OEnsureChunkSize 4) (run_op (OEnsureClass ClassRelaxed) (Open 1000 1000 0 : DB MapBolt.mapb)).2).2.
  apply reach_op; [apply reach_op; [apply reach_open|exact I]|exact I].
Qed.

Lemma root_live (r : demo_repo) : reachable (r_DB r) → live_dir (view (r_DB r)) RootInode.
Proof. intros Hr. pose proof (reachable_inv _ Hr) as [_ Hi]. apply (tree_root _ (inv_tree _ Hi)). Qed.

Lemma commit_reachable (r : demo_repo) n content now clk :
  reachable (r_DB r) → commit_check content r = true →
  reachable (r_DB (Commit now clk (demo_write RootInode n content, r)).2.2).
Proof.
  intros Hr. unfold commit_check. rewrite !andb_true_iff, !Z.ltb_lt. intros (((Hs & Hb) & Hi) & Hq).
  pose proof (reachable_inv _ Hr) as [_ Hinv].
  change (getQuotaTx (r_DB r)) with (fs_quota (view (r_DB r))) in Hb, Hi.
  change (bk_sequence (bMeta (r_DB r))) with (fs_seq (view (r_DB r))) in Hq.
  rewrite (inv_bytes _ Hinv) in Hb. rewrite (inv_inodes _ Hinv) in Hi.
  assert (rop_ok (RCommit (demo_write RootInode n content) now clk) (view (r_DB r))) as Hok.
  { split_and!; [by apply root_live|done|done|by split]. }
  pose proof (settles_Commit _ _ _ _ Hok r (conj Hr eq_refl)) as Hst. unfold with_handle in Hst.
  by destruct (Commit now clk (demo_write RootInode n content, r)) as [[id|e] [h r']].
Qed.

Lemma demo_a_reachable : reachable (r_DB demo_a).
Proof. apply commit_reachable; [apply demo_open_reachable|]. vm_cast_no_check (eq_refl true). Qed.

Lemma demo_ab_reachable : reachable (r_DB demo_ab).
Proof. apply commit_reachable; [apply demo_a_reachable|]. vm_cast_no_check (eq_refl true). Qed.

Lemma file_check_sound (d : InodeID) (n : bytes) (i : InodeID) (r : demo_repo) :
  file_check d n i r = true → fs_names (view (r_DB r)) !! (d, n) = Some i ∧ ¬ is_dir (view (r_DB r)) i.
Proof.
  unfold file_check. rewrite lookupTx_view, getInodeTx_view.
  destruct (fs_names _ !! _) as [j|]; [|done]. rewrite andb_true_iff, bool_decide_eq_true. intros [-> Hd].
  split; [done|]. intros (rec & Hi & Hdir). rewrite Hi, Hdir in Hd. done.
Qed.

Lemma demo_ab_file : file_check RootInode (str "b") id_b demo_ab = true.
Proof. vm_cast_no_check (eq_refl true). Qed.

Lemma demo_gone_reachable : reachable (r_DB demo_gone).
Proof.
  refine (settles_Unlink _ RootInode (str "b") 7 _ demo_ab (conj demo_ab_reachable eq_refl)).
  intros i Hi. destruct (file_check_sound _ _ _ _ demo_ab_file) as [Hb Hd]. rewrite Hb in Hi. by injection Hi as <-.
Qed.

(** * Soundness of the checks *)

Lemma stored_check_sound (loc : Locator) (d : bytes) (s : MemBackend.mem) : stored_check loc d s = true → stored_at loc d s.
Proof.
  unfold stored_check, stored_at. cbn [b_object MemBackend.mem_backend].
  destruct (s !! l_Container loc) as [obj|] eqn:E; [|done].
  rewrite !andb_true_iff, !Z.leb_le, Z.eqb_eq, bool_decide_eq_true. intros (((?&?)&?)&?). by exists obj.
Qed.

Lemma chunk_check_sound {cb} (r : Repo MapBolt.mapb MemBackend.mem cb unit) (d : bytes) :
  chunk_check r d = true → has_chunk r d.
Proof.
  unfold chunk_check, has_chunk. destruct (GetLocator _ _ _) as [loc|]; [|done].
  intros Hs%stored_check_sound. by exists loc.
Qed.

Lemma repo_check_sound {cb} (l : list bytes) (N : nat) (r : Repo MapBolt.mapb MemBackend.mem cb unit) :
  repo_check l N r = true → repo_inv (λ b, b ∈ l) N r ∧ one_region r.
Proof.
  unfold repo_check. rewrite !andb_true_iff, !forallb_forall, !bool_decide_eq_true.
  intros (((((Hl & Hm) & Hp) & Hr) & Hf) & Hnd).
  assert (∀ k loc, bk_get k (bLocator (r_DB r)) = Some loc → ∃ d, d ∈ l ∧
    k = locatorKey (r_Region r) (Sum d) ∧ stored_at loc d (r_Backend r)) as Hloc.
  { intros k loc Hk. apply bk_cursor_get in Hk. specialize (Hl (k, loc)).
    rewrite <- list_elem_of_In, existsb_exists in Hl. destruct (Hl Hk) as (d & Hd & Hc).
    rewrite andb_true_iff, bool_decide_eq_true in Hc. destruct Hc as [E Hs]. exists d.
    split_and!; [by apply list_elem_of_In|done|by apply stored_check_sound]. }
  split; [split|].
  - intros id loc Hk. destruct (Hloc _ _ Hk) as (d & Hd & E%locatorKey_inj & Hs). by exists d.
  - intros mid data Hk. cbn in Hk. apply elem_of_map_to_list in Hk as Hin. specialize (Hm (manifestKey mid, data)).
    rewrite <- list_elem_of_In in Hm. specialize (Hm Hin). cbn [fst snd] in Hm.
    assert (has_prefix (str "atlas/m/") (manifestKey mid) = true) as E.
    { apply has_prefix_spec. by eexists. }
    rewrite E in Hm. cbn [negb orb] in Hm. rewrite andb_true_iff, !bool_decide_eq_true in Hm.
    destruct Hm as [Hd Ek%manifestKey_inj]. done.
  - rewrite Hp. constructor.
  - done.
  - split.
    + intros i Hi. specialize (Hf i). rewrite <- list_elem_of_In, bool_decide_eq_true in Hf.
      apply Hf, elem_of_seq. lia.
    + intros i j Hi Hj E. apply (NoDup_lookup _ i j (r_rand r i)) in Hnd; [done|..];
        rewrite list_lookup_fmap, lookup_seq_lt by done; [done|]. by rewrite E.
  - intros k v Hk. destruct (Hloc k v Hk) as (d & _ & -> & _). by exists (Sum d).
Qed.

Lemma universe_check l :
  bool_decide (NoDup (Sum256 <$> l)) && negb (bool_decide ([] ∈ l)) = true → universe (λ b, b ∈ l).
Proof.
  rewrite andb_true_iff, negb_true_iff, bool_decide_eq_true, bool_decide_eq_false. intros [Hnd Hne]. split.
  - intros a b [i Hi]%list_elem_of_lookup [j Hj]%list_elem_of_lookup E.
    assert (i = j) as ->; [|congruence].
    apply (NoDup_lookup (Sum256 <$> l) i j (Sum256 a)); [done|..]; rewrite list_lookup_fmap;
      [by rewrite Hi|rewrite Hj; cbn; by rewrite E].
  - by intros a Ha ->.
Qed.

(** * The demonstration repository *)

Lemma demo_universe : universe demo_K.
Proof. apply (universe_check demo_strings). vm_cast_no_check (eq_refl true). Qed.

Lemma demo_open_inv : repo_inv demo_K 6 demo_open.
Proof. apply (repo_check_sound demo_strings). vm_cast_no_check (eq_refl true). Qed.

Lemma demo_gone_inv : repo_inv demo_K 6 demo_gone ∧ one_region demo_gone.
Proof. apply (repo_check_sound demo_strings). vm_cast_no_check (eq_refl true). Qed.

Lemma demo_gone_dead : dead_ok 6 demo_gone.
Proof.
  intros key [v Hk%bk_cursor_get].
  assert (bk_cursor (bDeadCnt (r_DB demo_gone)) = []) as E by (by vm_compute).
  rewrite E in Hk. destruct (not_elem_of_nil _ Hk).
Qed.

Lemma demo_storable : storable demo_K demo_open content_a.
Proof.
  split; [by vm_compute..| |].
  - assert (bool_decide (Forall (.∈ demo_strings) (pieces_of 4 content_a)) = true) as Hb
      by (vm_cast_no_check (eq_refl true)).
    by apply bool_decide_eq_true in Hb.
  - assert (bool_decide (EncodeBytes (manifest_of 4 content_a) ∈ demo_strings) = true) as Hb
      by (vm_cast_no_check (eq_refl true)).
    by apply bool_decide_eq_true in Hb.
Qed.

Lemma demo_readable (r : demo_repo) :
  chunk_check r (str "abcd") && chunk_check r (str "ef") = true →
  b_object (manifestKey (ManifestID rec_a)) (r_Backend r) = Some (EncodeBytes (manifest_of 4 content_a)) →
  readable r rec_a [str "abcd"; str "ef"].
Proof.
  intros [H1%chunk_check_sound H2%chunk_check_sound]%andb_prop Hm. split_and!; [by vm_compute..| |].
  - by repeat constructor.
  - change (HasInline rec_a) with false. change (HasManifest rec_a) with true. cbv iota.
    exists (manifest_of 4 content_a). split.
    + eexists. split; [exact Hm|]. by vm_compute.
    + repeat constructor; by vm_compute.
Qed.

Lemma demo_a_readable : readable demo_a rec_a [str "abcd"; str "ef"].
Proof. apply demo_readable; [vm_cast_no_check (eq_refl true)|by vm_compute]. Qed.

Lemma demo_gone_readable : readable demo_gone rec_a [str "abcd"; str "ef"].
Proof. apply demo_readable; [vm_cast_no_check (eq_refl true)|by vm_compute]. Qed.

(** * Witnesses *)

Lemma ReadAt_reads_content_witness :
  ∃ fr err fr', OpenFile rec_a demo_a = Ok fr ∧ ReadAt 3 2 demo_a fr = (str "cde", err, fr') ∧ err = None.
Proof.
  destruct (ReadAt_reads_content demo_a rec_a [str "abcd"; str "ef"] demo_a_readable)
    as [(fr & Hopen & Hok) Hread].
  destruct (Hread fr 3%nat 2 Hok ltac:(lia)) as (err & fr' & Hr & _ & _ & Hn).
  exists fr, err, fr'. split; [exact Hopen|]. split; [exact Hr|]. apply Hn; [by vm_compute|lia].
Defined.

Lemma ReadAll_reads_content_witness :
  ∃ fr fr', OpenFile rec_a demo_a = Ok fr ∧ fr_ReadAll demo_a fr = (Ok content_a, fr').
Proof.
  destruct (ReadAll_reads_content demo_a rec_a [str "abcd"; str "ef"] demo_a_readable)
    as (fr & Hopen & Hok & Hread).
  destruct (Hread fr Hok) as (fr' & Hr & _). exists fr, fr'. split; [exact Hopen|exact Hr].
Defined.

Lemma commit_then_read_witness :
  commit_a.1 = Ok id_a ∧
  ∃ rec fr fr', getInodeTx id_a (r_DB demo_a) = Ok rec ∧ OpenFile rec demo_a = Ok fr
    ∧ fr_ReadAll demo_a fr = (Ok content_a, fr').
Proof.
  assert (commit_a.1 = Ok id_a) as Ei by (by vm_compute). split; [exact Ei|].
  assert (commit_a = (Ok id_a, (commit_a.2.1, demo_a))) as E.
  { rewrite <- Ei. unfold demo_a. by destruct commit_a as [? [? ?]]. }
  assert (r_drawn demo_a <= 6)%nat as HN by (vm_compute; lia).
  destruct (commit_then_read demo_K 6 demo_open (demo_write RootInode (str "a") content_a) 5 5 id_a
    _ _ demo_universe demo_open_inv demo_storable E HN) as (_ & _ & _ & _ & (rec & fr & fr' & H1 & _ & H3 & H4) & _).
  exists rec, fr, fr'. split; [exact H1|]. split; [exact H3|exact H4].
Defined.

Lemma commit_failure_invisible_witness :
  commit_nowhere.1 = Err ErrNotFound ∧ view (r_DB commit_nowhere.2.2) = view (r_DB demo_open).
Proof.
  assert (commit_nowhere.1 = Err ErrNotFound) as Ei by (by vm_compute). split; [exact Ei|].
  assert (commit_nowhere = (Err ErrNotFound, (commit_nowhere.2.1, commit_nowhere.2.2))) as E.
  { rewrite <- Ei. by destruct commit_nowhere as [? [? ?]]. }
  assert (r_drawn commit_nowhere.2.2 <= 6)%nat as HN by (vm_compute; lia).
  apply (commit_failure_invisible demo_K 6 demo_open (demo_write (Word64 99 eq_refl) (str "a") content_a) 5 5
    ErrNotFound _ _ demo_universe demo_open_inv demo_storable E HN).
Defined.

Lemma mutations_invalidate_witness :
  ∃ m m', r_Coherence demo_ab = Some m ∧ r_Coherence demo_gone = Some m' ∧
    DirVersion (DirCoherenceKey RootInode) m' ≠ DirVersion (DirCoherenceKey RootInode) m.
Proof.
  assert (∃ m, r_Coherence demo_ab = Some m) as [m Hm] by (vm_compute; by eexists).
  assert (run_rop (RUnlink RootInode (str "b") 7) demo_ab = (Ok tt, demo_gone)) as E.
  { unfold demo_gone. cbn [run_rop].
    assert ((Unlink RootInode (str "b") 7 demo_ab).1 = Ok tt) as E1 by (by vm_compute).
    rewrite <- E1. by destruct (Unlink RootInode (str "b") 7 demo_ab). }
  destruct (mutations_invalidate (RUnlink RootInode (str "b") 7) demo_ab m tt demo_gone (reachable_built _ demo_ab_reachable)
    ltac:(by vm_compute) Hm E) as (m' & Hm' & _ & Hd).
  exists m, m'. split; [exact Hm|]. split; [exact Hm'|]. apply Hd. intros Eq.
  apply (f_equal (λ es, es !! (RootInode, str "b"))) in Eq. revert Eq. unfold entries.
  assert (fs_names (view (r_DB demo_gone)) !! (RootInode, str "b") = None) as N1
    by (rewrite names_lookup; by vm_compute).
  assert (fs_names (view (r_DB demo_ab)) !! (RootInode, str "b") = Some id_b) as N2
    by (rewrite names_lookup; by vm_compute).
  rewrite (map_lookup_filter_None_2 _ _ _ (or_introl N1)).
  rewrite (map_lookup_filter_Some_2 _ _ _ _ N2) by done. discriminate.
Defined.

Lemma sweep_keeps_protected_witness :
  demo_sweep.1 = Ok 1 ∧ getInodeTx id_a (r_DB demo_sweep.2) = Ok rec_a ∧
  readable demo_sweep.2 rec_a [str "abcd"; str "ef"].
Proof.
  assert (demo_sweep.1 = Ok 1) as Es by (by vm_compute). split; [exact Es|].
  assert (Sweep 1 (2 * Hour) (100 * Hour) demo_gone = (Ok 1, demo_sweep.2)) as E.
  { rewrite <- Es. unfold demo_sweep. by destruct (Sweep _ _ _ _). }
  assert (r_drawn demo_sweep.2 <= 6)%nat as HN by (vm_compute; lia).
  destruct (sweep_keeps_protected demo_K 6 1 (2 * Hour) (100 * Hour) demo_gone (Ok 1) demo_sweep.2 demo_universe
    (proj1 demo_gone_inv) demo_gone_dead (proj2 demo_gone_inv) E HN)
    as (_ & _ & _ & _ & _ & Hp & Hnamed).
  destruct (Hp id_a rec_a) as [Hi Hr].
  - apply (Hnamed demo_gone_reachable RootInode (str "a")). by vm_compute.
  - by vm_compute.
  - split; [exact Hi|]. apply Hr; [by vm_compute|exact demo_gone_readable].
Defined.

(** The only name there is leads to the file "a". *)
Lemma demo_gone_leads i : leads_to (view (r_DB demo_gone)) RootInode i → i = id_a.
Proof.
  assert (∀ d n j, fs_names (view (r_DB demo_gone)) !! (d, n) = Some j → j = id_a) as Hone.
  { intros d n j Hn%lookupTx_Ok. unfold lookupTx in Hn.
    destruct (bk_get (dentryKey d n) (bDentry (r_DB demo_gone))) as [v|] eqn:Ek; [|discriminate Hn].
    injection Hn as <-. apply bk_cursor_get in Ek.
    assert (snd <$> bk_cursor (bDentry (r_DB demo_gone)) = [be 8 2]) as El by (by vm_compute).
    apply (list_elem_of_fmap_2 snd) in Ek. rewrite El in Ek. apply list_elem_of_singleton in Ek.
    cbn in Ek. subst v. by vm_compute. }
  intros (d & n & Hn)%leads_last. by apply Hone in Hn.
Qed.

Lemma demo_gone_marked i :
  marked (100 * Hour - 2 * Hour) demo_gone i →
  ∃ rec ids, getInodeTx i (r_DB demo_gone) = Ok rec ∧ chunkIDsOf rec demo_gone = Ok ids.
Proof.
  intros [(rec & Hb & Hi & Hf)|(e & He & _ & Hw)].
  - apply demo_gone_leads in Hb as ->.
    exists rec_a, (Sum <$> [str "abcd"; str "ef"]). split; [vm_compute; reflexivity|].
    apply (chunkIDsOf_content _ _ _ _ demo_gone_readable).
  - assert (graveyard demo_gone = [mkGrave id_b 7]) as El by (by vm_compute).
    rewrite El in He. apply list_elem_of_singleton in He as ->.
    destruct Hw as [Hw|Hw]; vm_compute in Hw; discriminate Hw.
Qed.

Lemma mark_exact_witness :
  ∃ live, markLive (100 * Hour - 2 * Hour) (Snapshot (r_OpenHandles demo_gone)) demo_gone = Ok live ∧
    Sum (str "ef") ∈ live ∧ Sum content_b ∉ live.
Proof.
  destruct (mark_exact (100 * Hour - 2 * Hour) demo_gone) as [Hl Hm].
  destruct (Hm (reachable_built _ demo_gone_reachable)) as [live Hlive]; [|exact demo_gone_marked|].
  { intros i ->%demo_gone_leads. exists rec_a. by vm_compute. }
  exists live. split; [exact Hlive|]. split.
  - apply (Hl live Hlive). left. exists id_a. split.
    + left. exists rec_a. split; [|split; vm_compute; reflexivity].
      apply (leads_entry _ _ (str "a")), lookupTx_Ok. vm_compute. reflexivity.
    + exists rec_a, (Sum <$> [str "abcd"; str "ef"]). split; [vm_compute; reflexivity|].
      split; [apply (chunkIDsOf_content _ _ _ _ demo_gone_readable)|]. right. left.
  - assert (match markLive (100 * Hour - 2 * Hour) (Snapshot (r_OpenHandles demo_gone)) demo_gone with
            | Ok l => bool_decide (Sum content_b ∈ l) | Err _ => true end = false) as Hc by (by vm_compute).
    rewrite Hlive in Hc. by apply bool_decide_eq_false in Hc.
Defined.

Lemma sweep_collects_witness :
  demo_sweep.1 = Ok 1 ∧ getInodeTx id_b (r_DB demo_sweep.2) = Err ErrNotFound ∧
  mkGrave id_b 7 ∉ graveyard demo_sweep.2.
Proof.
  assert (demo_sweep.1 = Ok 1) as Es by (by vm_compute). split; [exact Es|].
  assert (Sweep 1 (2 * Hour) (100 * Hour) demo_gone = (Ok 1, demo_sweep.2)) as E.
  { rewrite <- Es. unfold demo_sweep. by destruct (Sweep _ _ _ _). }
  destruct (sweep_collects 1 (2 * Hour) (100 * Hour) demo_gone 1 demo_sweep.2 demo_gone_reachable
    (proj2 demo_gone_inv) E) as [Hg _].
  apply (Hg (mkGrave id_b 7)); [|by vm_compute|by vm_compute].
  assert (graveyard demo_gone = [mkGrave id_b 7]) as -> by (by vm_compute). by apply list_elem_of_singleton.
Defined.

Lemma write_path_reachable_witness :
  rop_ok (RUnlink RootInode (str "b") 7) (view (r_DB demo_ab)) ∧
  reachable (r_DB (run_rop (RUnlink RootInode (str "b") 7) demo_ab).2).
Proof.
  assert (rop_ok (RUnlink RootInode (str "b") 7) (view (r_DB demo_ab))) as Hok.
  { intros i Hi. destruct (file_check_sound _ _ _ _ demo_ab_file) as [Hb Hd]. rewrite Hb in Hi.
    injection Hi as <-. exact Hd. }
  split; [exact Hok|]. exact (write_path_reachable _ demo_ab demo_ab_reachable Hok).
Defined.
