(* ===== verification/MdsServer.v ===== *)
(** pkg/mds: the metadata service, server side (api.go, errno.go, server.go).

    [Server] is one region's authority: a metadata store, a lease manager and
    a push channel per connected holder.  A handler is a function of the
    server's state; the requests' [Holder] is its first argument.  A handler
    of the posix class blocks in the middle, in [Recall]: what the other
    handlers do to the server until the wait ends is the parameter [wait],
    which also says whether the request's context ended first.  Otherwise a
    handler runs without interruption.  The two clocks of the server are one,
    [sv_now].  The text of an error message is the parameter [errorText]. *)
From S2P Require Import Prelude Bolt Chunk Manifest Store Pack MetaDB Coherence RepoUtil Repo.

(** ** Wire types *)

Record Lease := mkWireLease { ln_Object : bytes; ln_Version : Z; ln_TTL : duration }.

Record LookupResponse := mkLookupResponse {
  lr_Found : bool; lr_Inode : InodeID; lr_Record : InodeRecord; lr_Lease : Lease;
  lr_DirVersion : Z; lr_DirLease : Lease
}.

Record GetInodeResponse := mkGetInodeResponse { gi_Record : InodeRecord; gi_Lease : Lease }.
Record ReaddirResponse := mkReaddirResponse { rr_Entries : list DirEntry; rr_Lease : Lease }.
Record CommitResponse := mkCommitResponse {
  cm_Inode : InodeID; cm_Version : Z; cm_RecalledHolders : list bytes; cm_TimedOutHolders : list bytes
}.
Record StatfsResponse := mkStatfsResponse {
  sf_BytesLimit : Z; sf_InodesLimit : Z; sf_BytesUsed : Z; sf_InodesUsed : Z
}.

Inductive EventKind := EventInvalidate | EventRecall.
Record Event := mkEvent { ev_Kind : EventKind; ev_Object : bytes; ev_RecallID : Z }.

(** The zero values of Go. *)
Definition zero_lease : Lease := mkWireLease [] 0 0.
Definition zero_inode : InodeID := Word64 0 eq_refl.
Definition zero_record : InodeRecord :=
  mkInode false 0 0 0 0 zero_time zero_time zero_time 0 false zeroID false zeroID 0 0 false [].

(** ** errno.go *)

Definition errnoPrefix : bytes := str "errno=".

(** The codes of google.golang.org/grpc/codes and the errno of Linux that are
    used. *)
Definition codes_Canceled : Z := 1.
Definition codes_Unknown : Z := 2.
Definition codes_InvalidArgument : Z := 3.
Definition codes_DeadlineExceeded : Z := 4.
Definition codes_NotFound : Z := 5.
Definition codes_AlreadyExists : Z := 6.
Definition codes_ResourceExhausted : Z := 8.
Definition codes_FailedPrecondition : Z := 9.
Definition codes_Internal : Z := 13.
Definition ENOENT : Z := 2.
Definition EEXIST : Z := 17.
Definition ENOTDIR : Z := 20.
Definition EISDIR : Z := 21.
Definition EINVAL : Z := 22.
Definition ENAMETOOLONG : Z := 36.
Definition ENOTEMPTY : Z := 39.
Definition EDQUOT : Z := 122.

(** [strconv.ParseUint(s, 10, 32)]. *)
Definition digit (c : Byte.byte) : option Z :=
  let d := byteZ c - 48 in if (0 <=? d) && (d <=? 9) then Some d else None.

Fixpoint parse_digits (n : Z) (s : bytes) : option Z :=
  match s with
  | [] => Some n
  | c :: s' =>
      match digit c with
      | None => None
      | Some d => let n := n * 10 + d in if n <? 2 ^ 32 then parse_digits n s' else None
      end
  end.

Definition ParseUint32 (s : bytes) : option Z :=
  match s with [] => None | _ => parse_digits 0 s end.

(** [strings.IndexByte(s, c)]; [None] is -1. *)
Fixpoint IndexByte (s : bytes) (c : Byte.byte) : option nat :=
  match s with
  | [] => None
  | b :: s' => if bool_decide (b = c) then Some 0%nat else S <$> IndexByte s' c
  end.

Definition colon : Byte.byte := byte_of_Z 58.

Section errno.
Context (errorText : error → bytes).

Definition withErrno (code e : Z) (err : error) : error :=
  ErrStatus code (errnoPrefix ++ decimal e ++ str ": " ++ errorText err).

(** [status.Convert(err).Message()]. *)
Definition message (err : error) : bytes :=
  match err with ErrStatus _ msg => msg | _ => errorText err end.

(** [None] is Go's [(0, false)], also for a nil error. *)
Definition ErrnoOf (err : error) : option Z :=
  let msg := message err in
  if negb (has_prefix errnoPrefix msg) then None
  else
    let rest := drop (length errnoPrefix) msg in
    match IndexByte rest colon with
    | None => None
    | Some end_ =>
        match ParseUint32 (take end_ rest) with
        | None => None
        | Some n => if n =? 0 then None else Some n
        end
    end.

Definition toStatus (err : error) : error :=
  if bool_decide (err = ErrNotFound) then withErrno codes_NotFound ENOENT err
  else if bool_decide (err = ErrExists) then withErrno codes_AlreadyExists EEXIST err
  else if bool_decide (err = ErrNotDir) then withErrno codes_FailedPrecondition ENOTDIR err
  else if bool_decide (err = ErrIsDirectory) then withErrno codes_FailedPrecondition EISDIR err
  else if bool_decide (err = ErrNotEmpty) then withErrno codes_FailedPrecondition ENOTEMPTY err
  else if bool_decide (err = ErrInvalidRename) then withErrno codes_InvalidArgument EINVAL err
  else if bool_decide (err = ErrNameTooLong) then withErrno codes_InvalidArgument ENAMETOOLONG err
  else if bool_decide (err = ErrQuotaExceeded) then withErrno codes_ResourceExhausted EDQUOT err
  else ErrStatus codes_Internal (errorText err).

(** [status.FromContextError(err).Err()]. *)
Definition fromContextError (err : error) : error :=
  if bool_decide (err = CtxCanceled) then ErrStatus codes_Canceled (errorText err)
  else if bool_decide (err = CtxDeadlineExceeded) then ErrStatus codes_DeadlineExceeded (errorText err)
  else ErrStatus codes_Unknown (errorText err).

End errno.

(** ** server.go *)

Definition DefaultRecallDeadline : duration := 2 * Second.
Definition defaultRegion : bytes := str "local".

Definition inodeObj (id : InodeID) : bytes := str "inode:" ++ decimal (w64 id).
Definition dirObj (id : InodeID) : bytes := str "dir:" ++ decimal (w64 id).

(** [holderStream]: the channel's content, and which stream it is. *)
Record holderStream := mkStream { hs_serial : nat; hs_ch : list Event }.
Definition streamCap : nat := 64.

(** The callbacks a manager keeps for the server: push an event about an
    object to a holder. *)
Abbreviation manager := (Manager (bytes * bytes) (bytes * bytes)).

Section server.
Context {bucket : Type → Type} `{BoltOps bucket} {blake3 : Blake3}.

Record Server := mkServer {
  sv_db : DB bucket;
  sv_coh : option manager;
  sv_posix : bool;
  sv_drecall : duration;
  sv_leaseTTL : duration;
  sv_region : bytes;
  sv_streams : gmap bytes holderStream;
  sv_serial : nat;
  sv_now : time
}.

Definition sv_set_db (d : DB bucket) (s : Server) : Server :=
  mkServer d (sv_coh s) (sv_posix s) (sv_drecall s) (sv_leaseTTL s) (sv_region s) (sv_streams s) (sv_serial s) (sv_now s).
Definition sv_set_coh (m : option manager) (s : Server) : Server :=
  mkServer (sv_db s) m (sv_posix s) (sv_drecall s) (sv_leaseTTL s) (sv_region s) (sv_streams s) (sv_serial s) (sv_now s).
Definition sv_set_streams (x : gmap bytes holderStream) (s : Server) : Server :=
  mkServer (sv_db s) (sv_coh s) (sv_posix s) (sv_drecall s) (sv_leaseTTL s) (sv_region s) x (sv_serial s) (sv_now s).
Definition sv_set_serial (n : nat) (s : Server) : Server :=
  mkServer (sv_db s) (sv_coh s) (sv_posix s) (sv_drecall s) (sv_leaseTTL s) (sv_region s) (sv_streams s) n (sv_now s).

Definition NewServer (db : DB bucket) (leaseDuration : duration) (posix : bool) (recallDeadline : duration)
    (region : bytes) (now : time) : Server :=
  mkServer db (if 0 <? leaseDuration then Some (Manager_New leaseDuration) else None) posix
    (if recallDeadline <=? 0 then DefaultRecallDeadline else recallDeadline) leaseDuration
    (if bool_decide (region = []) then defaultRegion else region) ∅ 0 now.

(** [push]: a full channel, or no stream, drops the event. *)
Definition push (holder : bytes) (ev : Event) (s : Server) : Server :=
  match sv_streams s !! holder with
  | None => s
  | Some hs =>
      if (length (hs_ch hs) <? streamCap)%nat
      then sv_set_streams (<[holder := mkStream (hs_serial hs) (hs_ch hs ++ [ev])]> (sv_streams s)) s
      else s
  end.

(** [Subscribe]: the stream is registered, superseding an older one; an event
    is taken off the channel; the stream ends. *)
Definition srv_Subscribe_open (holder : bytes) (s : Server) : nat * Server :=
  (sv_serial s, sv_set_serial (S (sv_serial s))
                  (sv_set_streams (<[holder := mkStream (sv_serial s) []]> (sv_streams s)) s)).

Definition srv_Subscribe_next (holder : bytes) (serial : nat) (s : Server) : option Event * Server :=
  match sv_streams s !! holder with
  | Some (mkStream n (ev :: evs)) =>
      if (n =? serial)%nat then (Some ev, sv_set_streams (<[holder := mkStream n evs]> (sv_streams s)) s)
      else (None, s)
  | _ => (None, s)
  end.

Definition srv_Subscribe_close (holder : bytes) (serial : nat) (s : Server) : Server :=
  match sv_streams s !! holder with
  | Some hs => if (hs_serial hs =? serial)%nat then sv_set_streams (delete holder (sv_streams s)) s else s
  | None => s
  end.

Definition srv_grant (holder obj : bytes) : M Server Lease := λ s,
  match sv_coh s with
  | None => (Ok (mkWireLease obj 0 0), s)
  | Some m =>
      let '(v, m) := Grant holder obj (sv_now s) m in
      let m := (Subscribe holder obj (holder, obj) m).2 in
      let m := if sv_posix s then SubscribeRecall holder obj (holder, obj) m else m in
      (Ok (mkWireLease obj v (sv_leaseTTL s)), sv_set_coh (Some m) s)
  end.

(** [s.coh.Bump(obj)], with the pushes it makes; 0 without a manager. *)
Definition srv_bump (obj : bytes) : M Server Z := λ s,
  match sv_coh s with
  | None => (Ok 0, s)
  | Some m =>
      let s := foldl (λ s cb, push cb.1 (mkEvent EventInvalidate cb.2 0) s) s (Bump_collect obj m) in
      let '(v, m) := Bump obj m in
      (Ok v, sv_set_coh (Some m) s)
  end.

Definition srv_bumpDir (dir : InodeID) : M Server unit :=
  modify (λ s, sv_set_coh ((λ m, (BumpDir (dirObj dir) m).2) <$> sv_coh s) s) ≫= λ _,
  srv_bump (dirObj dir) ≫= λ _,
  srv_bump (inodeObj dir) ≫= λ _,
  mret tt.

Section handlers.
Context (errorText : error → bytes) (wait : Z → M Server unit).

(** A method of the store, its error as a status. *)
Definition onStore {A} (m : M (DB bucket) A) : M Server A := λ s,
  match m (sv_db s) with
  | (Ok a, d) => (Ok a, sv_set_db d s)
  | (Err e, d) => (Err (toStatus errorText e), sv_set_db d s)
  end.

(** [s.coh.Recall(ctx, obj, holder, s.drecall)]. *)
Definition srv_Recall (obj mutator : bytes) : M Server RecallResult := λ s,
  match sv_coh s with
  | None => (Ok (mkRecallResult [] []), s)
  | Some m =>
      match Recall_issue obj mutator (sv_now s) m with
      | (None, m) => (Ok (mkRecallResult [] []), sv_set_coh (Some m) s)
      | (Some (id, recalled, hs), m) =>
          let s := foldl (λ s h, push h.1 (mkEvent EventRecall h.2 id) s) (sv_set_coh (Some m) s) hs in
          let '(res, s) := wait id s in
          match sv_coh s with
          | None => (Ok (mkRecallResult [] []), s)
          | Some m =>
              let '(rr, m) := Recall_finish id recalled m in
              (match res with Ok _ => Ok rr | Err e => Err (fromContextError errorText e) end,
               sv_set_coh (Some m) s)
          end
      end
  end.

(** [if s.posix && s.coh != nil { Recall }]. *)
Definition recallIfPosix (obj mutator : bytes) : M Server RecallResult := λ s,
  if sv_posix s && bool_decide (is_Some (sv_coh s)) then srv_Recall obj mutator s
  else (Ok (mkRecallResult [] []), s).

Definition srv_GetInode (holder : bytes) (inode : InodeID) : M Server GetInodeResponse :=
  rec ← onStore (GetInode inode);
  l ← srv_grant holder (inodeObj inode);
  mret (mkGetInodeResponse rec l).

Definition srv_Lookup (holder : bytes) (dir : InodeID) (name : bytes) : M Server LookupResponse :=
  s ← gets (λ s : Server, s);
  let '(dirVersion, leased) :=
    match sv_coh s with Some m => (DirVersion (dirObj dir) m, true) | None => (0, false) end in
  dirLease ← (if (leased : bool) then srv_grant holder (dirObj dir) else mret zero_lease);
  res ← gets (λ s, lookupTx dir name (sv_db s));
  match (res : result InodeID) with
  | Err err =>
      if bool_decide (err = ErrNotFound) then
        modify (λ s, sv_set_coh (GrantNegative holder (dirObj dir) name (sv_now s) <$> sv_coh s) s) ≫= λ _,
        mret (mkLookupResponse false zero_inode zero_record zero_lease dirVersion dirLease)
      else throw (toStatus errorText err)
  | Ok id =>
      rec ← onStore (GetInode id);
      l ← srv_grant holder (inodeObj id);
      mret (mkLookupResponse true id rec l dirVersion dirLease)
  end.

Definition srv_Readdir (holder : bytes) (dir : InodeID) : M Server ReaddirResponse :=
  es ← onStore (Readdir dir);
  l ← srv_grant holder (dirObj dir);
  mret (mkReaddirResponse es l).

Definition srv_CommitDetached (holder : bytes) (id : InodeID) (rec : InodeRecord) : M Server CommitResponse :=
  rr ← recallIfPosix (inodeObj id) holder;
  onStore (UpdateInodeContent id rec) ≫= λ _,
  v ← srv_bump (inodeObj id);
  mret (mkCommitResponse id v (Acked rr) (TimedOut rr)).

(** [Commit]: the recall of the inode the name is bound to. *)
Definition recallBound (holder : bytes) (dir : InodeID) (name : bytes) : M Server RecallResult := λ s,
  if sv_posix s && bool_decide (is_Some (sv_coh s)) then
    match lookupTx dir name (sv_db s) with
    | Ok existing => srv_Recall (inodeObj existing) holder s
    | Err e => if bool_decide (e = ErrNotFound) then (Ok (mkRecallResult [] []), s)
               else (Err (toStatus errorText e), s)
    end
  else (Ok (mkRecallResult [] []), s).

Definition srv_Commit (holder : bytes) (dir : InodeID) (name : bytes) (rec : InodeRecord)
    (detachedInode : InodeID) : M Server CommitResponse :=
  if negb (bool_decide (detachedInode = zero_inode)) then srv_CommitDetached holder detachedInode rec
  else
    rr ← recallBound holder dir name;
    now ← gets sv_now;
    id ← onStore (CommitFile dir name rec now);
    v ← srv_bump (inodeObj id);
    srv_bumpDir dir ≫= λ _,
    mret (mkCommitResponse id v (Acked rr) (TimedOut rr)).

Definition srv_Unlink (holder : bytes) (dir : InodeID) (name : bytes) : M Server Z :=
  id ← onStore (Lookup dir name);
  recallIfPosix (inodeObj id) holder ≫= λ _,
  now ← gets sv_now;
  onStore (RemoveEntry dir name now) ≫= λ _,
  v ← srv_bump (inodeObj id);
  srv_bumpDir dir ≫= λ _,
  mret v.

Definition srv_GetLocator (id : ID) : M Server (option Locator) :=
  gets (λ s, GetLocator (sv_region s) id (sv_db s)).

Definition srv_AckRecall (holder : bytes) (recallID : Z) : M Server unit :=
  modify (λ s, sv_set_coh (AckRecall recallID holder <$> sv_coh s) s).

Definition srv_PutLocator (chunkID : ID) (loc : Locator) : M Server unit :=
  s ← gets (λ s : Server, s);
  onStore (PutLocator (sv_region s) chunkID loc (sv_now s)).

Definition srv_HasLocator (id : ID) : M Server bool :=
  gets (λ s, HasLocator (sv_region s) id (sv_db s)).

Definition srv_Mkdir (holder : bytes) (dir : InodeID) (name : bytes) (mode uid gid : Z) : M Server InodeID :=
  now ← gets sv_now;
  id ← onStore (CommitMkdir dir name (dir_record (Z.land mode mode_7777) uid gid now) now);
  srv_bumpDir dir ≫= λ _,
  mret id.

Definition srv_Rmdir (holder : bytes) (dir : InodeID) (name : bytes) : M Server unit :=
  id ← onStore (Lookup dir name);
  rec ← onStore (GetInode id);
  if negb (IsDir rec) then throw (toStatus errorText ErrNotDir)
  else
    es ← onStore (Readdir id);
    if 0 <? Z.of_nat (length es) then throw (toStatus errorText ErrNotEmpty)
    else
      recallIfPosix (inodeObj id) holder ≫= λ _,
      now ← gets sv_now;
      onStore (RemoveEntry dir name now) ≫= λ _,
      srv_bump (inodeObj id) ≫= λ _,
      srv_bumpDir dir.

Definition srv_Rename (holder : bytes) (oldDir : InodeID) (oldName : bytes) (newDir : InodeID)
    (newName : bytes) : M Server unit :=
  (λ s, if sv_posix s && bool_decide (is_Some (sv_coh s)) then
          match lookupTx newDir newName (sv_db s) with
          | Ok dst => srv_Recall (inodeObj dst) holder s
          | Err _ => (Ok (mkRecallResult [] []), s)
          end
        else (Ok (mkRecallResult [] []), s)) ≫= λ _,
  now ← gets sv_now;
  onStore (Rename oldDir oldName newDir newName now now) ≫= λ _,
  srv_bumpDir oldDir ≫= λ _,
  if bool_decide (newDir = oldDir) then mret tt else srv_bumpDir newDir.

Definition srv_SetAttr (holder : bytes) (inode : InodeID) (mut : AttrMutation) : M Server InodeRecord :=
  recallIfPosix (inodeObj inode) holder ≫= λ _,
  now ← gets sv_now;
  rec ← onStore (SetAttr inode mut now);
  srv_bump (inodeObj inode) ≫= λ _,
  mret rec.

Definition srv_Statfs : M Server StatfsResponse :=
  gets (λ s, let '(bl, il) := GetQuotaLimits (sv_db s) in
             let '(bu, iu) := GetQuotaUsage (sv_db s) in mkStatfsResponse bl il bu iu).

Definition srv_Mknod (holder : bytes) (dir : InodeID) (name : bytes) (typ rdev mode uid gid : Z) :
    M Server InodeID :=
  now ← gets sv_now;
  id ← onStore (CreateSpecial dir name typ rdev mode uid gid now);
  srv_bumpDir dir ≫= λ _,
  mret id.

Definition srv_Link (holder : bytes) (dir : InodeID) (name : bytes) (target : InodeID) : M Server InodeRecord :=
  now ← gets sv_now;
  rec ← onStore (Link dir name target now);
  srv_bump (inodeObj target) ≫= λ _,
  srv_bumpDir dir ≫= λ _,
  mret rec.

Definition srv_Symlink (holder : bytes) (dir : InodeID) (name target : bytes) (uid gid : Z) : M Server InodeID :=
  now ← gets sv_now;
  id ← onStore (CreateSymlink dir name target uid gid now);
  srv_bumpDir dir ≫= λ _,
  mret id.

End handlers.
End server.

Arguments Server _ : clear implicits.
