(* ===== verification/MdsClient.v ===== *)
(** pkg/mds: the metadata service, client side (client.go), and the dispatch
    of requests to the server's handlers (servicedesc.go).

    [Client] is one holder's cache.  The connection is the parameter
    [invoke]: a call may take time and fail, and while it is under way the
    stream's goroutine may apply invalidations to the client, so it is a
    computation on the client and the rest of the world together.  [clock]
    reads the client's own clock.  The recall hook, which only tests set, is
    left out, and the goroutine that reads the stream is the function
    [cl_handleEvent] it calls per event. *)
From S2P Require Import Prelude Bolt Chunk Manifest Store Pack MetaDB Coherence RepoUtil Repo MdsServer.

(** ** Requests *)

Inductive request :=
  | QGetInode (inode : InodeID)
  | QLookup (dir : InodeID) (name : bytes)
  | QReaddir (dir : InodeID)
  | QCommit (dir : InodeID) (name : bytes) (rec : InodeRecord) (detachedInode : InodeID)
  | QUnlink (dir : InodeID) (name : bytes)
  | QAckRecall (recallID : Z)
  | QGetLocator (chunkID : ID)
  | QPutLocator (chunkID : ID) (loc : Locator)
  | QHasLocator (chunkID : ID)
  | QMkdir (dir : InodeID) (name : bytes) (mode uid gid : Z)
  | QRmdir (dir : InodeID) (name : bytes)
  | QRename (oldDir : InodeID) (oldName : bytes) (newDir : InodeID) (newName : bytes)
  | QSymlink (dir : InodeID) (name target : bytes) (uid gid : Z)
  | QLink (dir : InodeID) (name : bytes) (target : InodeID)
  | QStatfs
  | QSetAttr (inode : InodeID) (mut : AttrMutation)
  | QMknod (dir : InodeID) (name : bytes) (typ rdev mode uid gid : Z).

Definition response (q : request) : Type :=
  match q with
  | QGetInode _ => GetInodeResponse
  | QLookup _ _ => LookupResponse
  | QReaddir _ => ReaddirResponse
  | QCommit _ _ _ _ => CommitResponse
  | QUnlink _ _ => Z
  | QAckRecall _ | QPutLocator _ _ | QRmdir _ _ | QRename _ _ _ _ => unit
  | QGetLocator _ => option Locator
  | QHasLocator _ => bool
  | QMkdir _ _ _ _ _ | QSymlink _ _ _ _ _ | QMknod _ _ _ _ _ _ _ => InodeID
  | QLink _ _ _ | QSetAttr _ _ => InodeRecord
  | QStatfs => StatfsResponse
  end.

(** The handler of a request. *)
Definition serve {bucket} `{BoltOps bucket} (errorText : error → bytes) (wait : Z → M (Server bucket) unit)
    (holder : bytes) (q : request) : M (Server bucket) (response q) :=
  match q with
  | QGetInode i => srv_GetInode errorText holder i
  | QLookup d n => srv_Lookup errorText holder d n
  | QReaddir d => srv_Readdir errorText holder d
  | QCommit d n rec det => srv_Commit errorText wait holder d n rec det
  | QUnlink d n => srv_Unlink errorText wait holder d n
  | QAckRecall i => srv_AckRecall holder i
  | QGetLocator i => srv_GetLocator i
  | QPutLocator i loc => srv_PutLocator errorText i loc
  | QHasLocator i => srv_HasLocator i
  | QMkdir d n mode uid gid => srv_Mkdir errorText holder d n mode uid gid
  | QRmdir d n => srv_Rmdir errorText wait holder d n
  | QRename od on nd nn => srv_Rename errorText wait holder od on nd nn
  | QSymlink d n t uid gid => srv_Symlink errorText holder d n t uid gid
  | QLink d n t => srv_Link errorText holder d n t
  | QStatfs => srv_Statfs
  | QSetAttr i mut => srv_SetAttr errorText wait holder i mut
  | QMknod d n typ rdev mode uid gid => srv_Mknod errorText holder d n typ rdev mode uid gid
  end.

(** ** The client's state *)

Record cacheEntry := mkCacheEntry {
  ce_record : InodeRecord; ce_version : Z; ce_expiry : time; ce_noExpiry : bool
}.

Record Client := mkClient {
  cl_holder : bytes;
  cl_cache : gmap bytes cacheEntry;
  cl_dentries : gmap bytes (gmap bytes InodeID);
  cl_negatives : gmap bytes (gset bytes);
  cl_epochs : gmap bytes Z
}.

Definition NewClient (holder : bytes) : Client := mkClient holder ∅ ∅ ∅ ∅.

Definition cl_epochOf (obj : bytes) (c : Client) : Z := num (cl_epochs c) obj.

(** The entry's lease covers the time [now]. *)
Definition trusted (now : time) (e : cacheEntry) : bool :=
  ce_noExpiry e || negb (After now (ce_expiry e)).

Definition cl_CachedInode (now : time) (id : InodeID) (c : Client) : option InodeRecord :=
  match cl_cache c !! inodeObj id with
  | None => None
  | Some e => if trusted now e then Some (ce_record e) else None
  end.

Definition cl_store (now : time) (obj : bytes) (rec : InodeRecord) (l : Lease) (since : Z) (c : Client) : Client :=
  if negb (cl_epochOf obj c =? since) then c
  else
    let e := if ln_TTL l <=? 0 then mkCacheEntry rec (ln_Version l) zero_time true
             else mkCacheEntry rec (ln_Version l) (now + ln_TTL l) false in
    mkClient (cl_holder c) (<[obj := e]> (cl_cache c)) (cl_dentries c) (cl_negatives c) (cl_epochs c).

Definition cl_invalidate (obj : bytes) (c : Client) : Client :=
  mkClient (cl_holder c) (delete obj (cl_cache c)) (delete obj (cl_dentries c)) (delete obj (cl_negatives c))
    (<[obj := u64 (cl_epochOf obj c + 1)]> (cl_epochs c)).

Definition cl_invalidateOwnMutation (dir : InodeID) (c : Client) : Client :=
  cl_invalidate (inodeObj dir) (cl_invalidate (dirObj dir) c).

(** The record kept for a directory's lease. *)
Definition dirLeaseRecord : InodeRecord :=
  mkInode true 0 0 0 0 zero_time zero_time zero_time 0 false zeroID false zeroID 0 0 false [].

(** The binding and, in a critical section of its own, the inode's record: as
    one step, since no handler of an event comes between them here. *)
Definition cl_cachedDentry (now : time) (dir : InodeID) (name : bytes) (c : Client) :
    option (InodeID * InodeRecord) :=
  match cl_cache c !! dirObj dir with
  | None => None
  | Some e =>
      if negb (trusted now e) then None
      else match default ∅ (cl_dentries c !! dirObj dir) !! name with
           | None => None
           | Some ino => (λ rec, (ino, rec)) <$> cl_CachedInode now ino c
           end
  end.

Definition cl_cachedNegative (now : time) (dir : InodeID) (name : bytes) (c : Client) : bool :=
  match cl_cache c !! dirObj dir with
  | None => false
  | Some e => if negb (trusted now e) then false
              else bool_decide (name ∈ default ∅ (cl_negatives c !! dirObj dir))
  end.

Definition cl_storeDentry (now : time) (dir : InodeID) (name : bytes) (ino : InodeID) (dirLease : Lease)
    (since : Z) (c : Client) : Client :=
  let c := cl_store now (dirObj dir) dirLeaseRecord dirLease since c in
  if negb (cl_epochOf (dirObj dir) c =? since) then c
  else mkClient (cl_holder c) (cl_cache c)
         (<[dirObj dir := <[name := ino]> (default ∅ (cl_dentries c !! dirObj dir))]> (cl_dentries c))
         (cl_negatives c) (cl_epochs c).

Definition cl_storeNegative (now : time) (dir : InodeID) (name : bytes) (dirLease : Lease) (since : Z)
    (c : Client) : Client :=
  let c := cl_store now (dirObj dir) dirLeaseRecord dirLease since c in
  if negb (cl_epochOf (dirObj dir) c =? since) then c
  else mkClient (cl_holder c) (cl_cache c) (cl_dentries c)
         (<[dirObj dir := {[name]} ∪ default ∅ (cl_negatives c !! dirObj dir)]> (cl_negatives c))
         (cl_epochs c).

Section client.
Context {W : Type} (clock : W → time) (invoke : ∀ q : request, M (Client * W) (response q)).
Abbreviation world := (Client * W)%type.

(** Read, or change, the client under its mutex. *)
Definition reads {A} (f : time → Client → A) : M world A := gets (λ cw : world, f (clock cw.2) cw.1).
Definition changes (f : time → Client → Client) : M world unit :=
  modify (λ cw : world, (f (clock cw.2) cw.1, cw.2)).

Definition cl_GetInode (id : InodeID) : M world InodeRecord :=
  found ← reads (λ now, cl_CachedInode now id);
  match (found : option InodeRecord) with
  | Some rec => mret rec
  | None =>
      since ← reads (λ _, cl_epochOf (inodeObj id));
      resp ← invoke (QGetInode id);
      changes (λ now, cl_store now (inodeObj id) (gi_Record resp) (gi_Lease resp) since) ≫= λ _,
      mret (gi_Record resp)
  end.

(** What [Lookup] keeps of a response. *)
Definition cl_keepLookup (dir : InodeID) (name : bytes) (sinceDir : Z) (resp : LookupResponse) : M world unit :=
  if lr_Found resp then
    changes (λ now c, cl_store now (inodeObj (lr_Inode resp)) (lr_Record resp) (lr_Lease resp)
                        (cl_epochOf (inodeObj (lr_Inode resp)) c) c) ≫= λ _,
    if 0 <? ln_TTL (lr_DirLease resp)
    then changes (λ now, cl_storeDentry now dir name (lr_Inode resp) (lr_DirLease resp) sinceDir)
    else mret tt
  else if 0 <? ln_TTL (lr_DirLease resp)
  then changes (λ now, cl_storeNegative now dir name (lr_DirLease resp) sinceDir)
  else mret tt.

Definition cl_Lookup (dir : InodeID) (name : bytes) : M world LookupResponse :=
  hit ← reads (λ now, cl_cachedDentry now dir name);
  match (hit : option (InodeID * InodeRecord)) with
  | Some (ino, rec) => mret (mkLookupResponse true ino rec zero_lease 0 zero_lease)
  | None =>
      miss ← reads (λ now, cl_cachedNegative now dir name);
      if (miss : bool) then mret (mkLookupResponse false zero_inode zero_record zero_lease 0 zero_lease)
      else
        sinceDir ← reads (λ _, cl_epochOf (dirObj dir));
        resp ← invoke (QLookup dir name);
        cl_keepLookup dir name sinceDir resp ≫= λ _,
        mret (resp : LookupResponse)
  end.

Definition cl_LookupUncached (dir : InodeID) (name : bytes) : M world (bool * InodeID * InodeRecord) :=
  resp ← invoke (QLookup dir name);
  mret (lr_Found resp, lr_Inode resp, lr_Record resp).

Definition cl_Readdir (dir : InodeID) : M world (list DirEntry) :=
  resp ← invoke (QReaddir dir);
  mret (rr_Entries resp).

Definition cl_Commit (dir : InodeID) (name : bytes) (rec : InodeRecord) : M world CommitResponse :=
  resp ← invoke (QCommit dir name rec zero_inode);
  changes (λ _ c, cl_invalidateOwnMutation dir (cl_invalidate (inodeObj (cm_Inode resp)) c)) ≫= λ _,
  mret (resp : CommitResponse).

Definition cl_CommitDetached (id : InodeID) (rec : InodeRecord) : M world CommitResponse :=
  resp ← invoke (QCommit zero_inode [] rec id);
  changes (λ _, cl_invalidate (inodeObj id)) ≫= λ _,
  mret (resp : CommitResponse).

Definition cl_Unlink (dir : InodeID) (name : bytes) : M world unit :=
  invoke (QUnlink dir name) ≫= λ _,
  changes (λ _, cl_invalidateOwnMutation dir).

(** [handleEvent]; the result of the acknowledgement is ignored. *)
Definition cl_handleEvent (ev : Event) : M world unit :=
  changes (λ _, cl_invalidate (ev_Object ev)) ≫= λ _,
  match ev_Kind ev with
  | EventInvalidate => mret tt
  | EventRecall => attempt (invoke (QAckRecall (ev_RecallID ev))) ≫= λ _, mret tt
  end.

Definition cl_GetLocator (id : ID) : M world (option Locator) := invoke (QGetLocator id).

(** One component of [Resolve]. *)
Definition cl_resolveStep (cur : InodeID * InodeRecord) (name : bytes) : M world (InodeID * InodeRecord) :=
  resp ← cl_Lookup cur.1 name;
  if negb (lr_Found resp) then throw ErrNotFound else mret (lr_Inode resp, lr_Record resp).

Definition cl_Resolve (p : bytes) : M world (InodeID * InodeRecord) :=
  rec ← cl_GetInode RootInode;
  fold_m cl_resolveStep (RootInode, rec) (splitPath p).

Definition cl_PutLocator (id : ID) (loc : Locator) : M world unit := invoke (QPutLocator id loc).
Definition cl_HasLocator (id : ID) : M world bool := invoke (QHasLocator id).

Definition cl_Mkdir (dir : InodeID) (name : bytes) (mode uid gid : Z) : M world InodeID :=
  id ← invoke (QMkdir dir name mode uid gid);
  changes (λ _, cl_invalidateOwnMutation dir) ≫= λ _,
  mret (id : InodeID).

Definition cl_Rmdir (dir : InodeID) (name : bytes) : M world unit :=
  invoke (QRmdir dir name) ≫= λ _,
  changes (λ _, cl_invalidateOwnMutation dir).

Definition cl_Rename (oldDir : InodeID) (oldName : bytes) (newDir : InodeID) (newName : bytes) : M world unit :=
  invoke (QRename oldDir oldName newDir newName) ≫= λ _,
  changes (λ _, cl_invalidateOwnMutation oldDir) ≫= λ _,
  if bool_decide (newDir = oldDir) then mret tt else changes (λ _, cl_invalidateOwnMutation newDir).

Definition cl_SetAttr (id : InodeID) (mut : AttrMutation) : M world InodeRecord :=
  rec ← invoke (QSetAttr id mut);
  changes (λ _, cl_invalidate (inodeObj id)) ≫= λ _,
  mret (rec : InodeRecord).

Definition cl_Statfs : M world StatfsResponse := invoke QStatfs.

Definition cl_Mknod (dir : InodeID) (name : bytes) (typ rdev mode uid gid : Z) : M world InodeID :=
  id ← invoke (QMknod dir name typ rdev mode uid gid);
  changes (λ _, cl_invalidateOwnMutation dir) ≫= λ _,
  mret (id : InodeID).

Definition cl_Link (dir : InodeID) (name : bytes) (target : InodeID) : M world InodeRecord :=
  rec ← invoke (QLink dir name target);
  changes (λ _ c, cl_invalidateOwnMutation dir (cl_invalidate (inodeObj target) c)) ≫= λ _,
  mret (rec : InodeRecord).

Definition cl_Symlink (dir : InodeID) (name target : bytes) (uid gid : Z) : M world InodeID :=
  id ← invoke (QSymlink dir name target uid gid);
  changes (λ _, cl_invalidateOwnMutation dir) ≫= λ _,
  mret (id : InodeID).

End client.
