(* ===== verification/MdsThm.v ===== *)
(** pkg/mds: what a client may rely on.

    Errors keep their errno across the wire; a response overtaken by an
    invalidation is not kept; a client sees its own changes; resolving a path
    through the service and its caches gives what the store itself would. *)
From stdpp Require Import pretty.
From S2P Require Import Prelude Bolt Chunk Manifest Store Pack MetaDB Coherence RepoUtil Repo.
From S2P Require Import MetaSpec MetaRefine MetaTree MetaInv MetaThm RepoRead RepoStore RepoThm RepoCoh.
From S2P Require Import MdsServer MdsClient.

(** ** Statements *)

(** Invalidations, in order. *)
Definition invalidated (objs : list bytes) (c : Client) : Client := foldl (λ c o, cl_invalidate o c) c objs.

(** The errno a local file system would return. *)
Definition errno_of (e : error) : option Z :=
  match e with
  | ErrNotFound => Some ENOENT | ErrExists => Some EEXIST | ErrNotDir => Some ENOTDIR
  | ErrIsDirectory => Some EISDIR | ErrNotEmpty => Some ENOTEMPTY | ErrInvalidRename => Some EINVAL
  | ErrNameTooLong => Some ENAMETOOLONG | ErrQuotaExceeded => Some EDQUOT
  | _ => None
  end.

(** The mutating calls of a client. *)
Inductive cop :=
  | CCommit (dir : InodeID) (name : bytes) (rec : InodeRecord)
  | CCommitDetached (id : InodeID) (rec : InodeRecord)
  | CUnlink (dir : InodeID) (name : bytes)
  | CMkdir (dir : InodeID) (name : bytes) (mode uid gid : Z)
  | CRmdir (dir : InodeID) (name : bytes)
  | CRename (oldDir : InodeID) (oldName : bytes) (newDir : InodeID) (newName : bytes)
  | CSetAttr (id : InodeID) (mut : AttrMutation)
  | CMknod (dir : InodeID) (name : bytes) (typ rdev mode uid gid : Z)
  | CLink (dir : InodeID) (name : bytes) (target : InodeID)
  | CSymlink (dir : InodeID) (name target : bytes) (uid gid : Z).

(** The directories a call changes, and the inodes whose records it changes
    under their own names. *)
Definition cop_dirs (o : cop) : list InodeID :=
  match o with
  | CCommit d _ _ | CUnlink d _ | CMkdir d _ _ _ _ | CRmdir d _ | CMknod d _ _ _ _ _ _ | CLink d _ _
  | CSymlink d _ _ _ _ => [d]
  | CRename od _ nd _ => [od; nd]
  | CCommitDetached _ _ | CSetAttr _ _ => []
  end.
Definition cop_inodes (o : cop) : list InodeID :=
  match o with
  | CCommitDetached i _ | CSetAttr i _ => [i]
  | CLink _ _ t => [t]
  | _ => []
  end.

Definition run_cop {W} (clock : W → time) (invoke : ∀ q, M (Client * W) (response q)) (o : cop) :
    M (Client * W) unit :=
  match o with
  | CCommit d n rec => cl_Commit clock invoke d n rec ≫= λ _, mret tt
  | CCommitDetached i rec => cl_CommitDetached clock invoke i rec ≫= λ _, mret tt
  | CUnlink d n => cl_Unlink clock invoke d n
  | CMkdir d n mode uid gid => cl_Mkdir clock invoke d n mode uid gid ≫= λ _, mret tt
  | CRmdir d n => cl_Rmdir clock invoke d n
  | CRename od on nd nn => cl_Rename clock invoke od on nd nn
  | CSetAttr i mut => cl_SetAttr clock invoke i mut ≫= λ _, mret tt
  | CMknod d n typ rdev mode uid gid => cl_Mknod clock invoke d n typ rdev mode uid gid ≫= λ _, mret tt
  | CLink d n t => cl_Link clock invoke d n t ≫= λ _, mret tt
  | CSymlink d n t uid gid => cl_Symlink clock invoke d n t uid gid ≫= λ _, mret tt
  end.

(** Nothing is known of the directory, or of the inode. *)
Definition forgotten_dir (c : Client) (d : InodeID) : Prop :=
  ∀ now name, cl_cachedDentry now d name c = None ∧ cl_cachedNegative now d name c = false.
Definition forgotten_inode (c : Client) (i : InodeID) : Prop := ∀ now, cl_CachedInode now i c = None.

(** The objects have no cached entry. *)
Definition drops (objs : list bytes) (c : Client) : Prop := ∀ o, o ∈ objs → cl_cache c !! o = None.

(** A connection that calls the server's handler at once. *)
Definition direct {bucket} `{BoltOps bucket} (errorText : error → bytes) (wait : Z → M (Server bucket) unit)
    (q : request) : M (Client * Server bucket) (response q) := λ '(c, s),
  let '(res, s') := serve errorText wait (cl_holder c) q s in (res, (c, s')).

(** What the client has cached agrees with the store. *)
Record coherent {bucket} `{BoltOps bucket} (c : Client) (db : DB bucket) : Prop := mkCoherent {
  co_inode : ∀ i e, cl_cache c !! inodeObj i = Some e → getInodeTx i db = Ok (ce_record e);
  co_dentry : ∀ d n ino, default ∅ (cl_dentries c !! dirObj d) !! n = Some ino → lookupTx d n db = Ok ino;
  co_negative : ∀ d n, n ∈ default ∅ (cl_negatives c !! dirObj d) → lookupTx d n db = Err ErrNotFound
}.

(** [res] is the answer [want] of the store as it reaches the client: an error
    means that something was not found, on either side of the wire. *)
Definition answers {A} (errorText : error → bytes) (want res : result A) : Prop :=
  match want with
  | Ok a => res = Ok a
  | Err _ => res = Err ErrNotFound ∨ res = Err (toStatus errorText ErrNotFound)
  end.

(** A connection on which every answer comes with invalidations of the root,
    and every other call fails. *)
Definition racing_objs : list bytes := [inodeObj RootInode; dirObj RootInode].
Definition racing_record : GetInodeResponse :=
  mkGetInodeResponse dirLeaseRecord (mkWireLease (inodeObj RootInode) 1 Second).
Definition racing_lookup : LookupResponse :=
  mkLookupResponse true (Word64 2 eq_refl) zero_record (mkWireLease (inodeObj (Word64 2 eq_refl)) 1 Second) 0
    (mkWireLease (dirObj RootInode) 1 Second).
Definition racing (q : request) : M (Client * unit) (response q) :=
  match q with
  | QGetInode _ => λ '(c, w), (Ok racing_record, (invalidated racing_objs c, w))
  | QLookup _ _ => λ '(c, w), (Ok racing_lookup, (invalidated racing_objs c, w))
  | QUnlink _ _ => λ '(c, w), (Ok 1, (c, w))
  | _ => throw CtxCanceled
  end.

(** ** Decimal numerals *)

Lemma digit_char (x : N) : (x < 10)%N →
  digit (Ascii.byte_of_ascii (pretty_N_char x)) = Some (Z.of_N x).
Proof.
  intros Hx. assert (x = 0 ∨ x = 1 ∨ x = 2 ∨ x = 3 ∨ x = 4 ∨ x = 5 ∨ x = 6 ∨ x = 7 ∨ x = 8 ∨ x = 9)%N as Hc by lia.
  repeat destruct Hc as [->|Hc]; try reflexivity. subst x. reflexivity.
Qed.

Lemma str_cons a s : str (String.String a s) = Ascii.byte_of_ascii a :: str s.
Proof. done. Qed.

Lemma parse_pretty_go (x : N) (s : String.string) :
  Z.of_N x < 2 ^ 32 → parse_digits 0 (str (pretty_N_go x s)) = parse_digits (Z.of_N x) (str s).
Proof.
  revert s. induction (N.lt_wf_0 x) as [x _ IH]; intros s Hx.
  destruct (decide (x = 0)%N) as [->|Hne]; [done|]. rewrite pretty_N_go_step by lia.
  pose proof (N.div_mod x 10 ltac:(lia)) as Hdm. pose proof (N.mod_lt x 10 ltac:(lia)) as Hm.
  assert (x / 10 < x)%N as Hlt by (apply N.div_lt; lia).
  rewrite IH; [|done|apply N2Z.inj_lt in Hlt; lia]. rewrite str_cons. cbn [parse_digits].
  rewrite digit_char by done. replace (Z.of_N (x / 10) * 10 + Z.of_N (x mod 10)) with (Z.of_N x) by (rewrite Hdm at 1; lia).
  by rewrite (proj2 (Z.ltb_lt _ _)).
Qed.

Lemma ParseUint32_decimal n : 0 < n < 2 ^ 32 → ParseUint32 (decimal n) = Some n.
Proof.
  intros Hn. unfold decimal, pretty, pretty_N. rewrite decide_False by lia.
  pose proof (parse_pretty_go (Z.to_N n) String.EmptyString ltac:(lia)) as Hp.
  rewrite Z2N.id in Hp by lia. unfold ParseUint32. destruct (str _) eqn:E; [|done].
  cbn in Hp. injection Hp as Hp. lia.
Qed.

Lemma digits_no_colon b s n : IndexByte s colon = Some b → parse_digits n s = None.
Proof.
  revert b n. induction s as [|c s IH]; intros b n; [done|]. cbn [IndexByte parse_digits].
  case_bool_decide as E.
  - intros _. subst c. reflexivity.
  - destruct (IndexByte s colon) as [k|] eqn:Es; [|done]. intros _.
    destruct (digit c); [|done]. case_match; [by eapply IH|done].
Qed.

Lemma IndexByte_app s c t : IndexByte s c = None → IndexByte (s ++ c :: t) c = Some (length s).
Proof.
  induction s as [|b s IH]; cbn [IndexByte app length].
  - intros _. by rewrite bool_decide_true.
  - case_bool_decide; [done|]. destruct (IndexByte s c) as [k|]; [done|]. intros _. by rewrite IH.
Qed.

Lemma ErrnoOf_withErrno errorText code e err :
  0 < e < 2 ^ 32 → ErrnoOf errorText (withErrno errorText code e err) = Some e.
Proof.
  intros He. unfold ErrnoOf, withErrno. cbn [message].
  assert (has_prefix errnoPrefix (errnoPrefix ++ decimal e ++ str ": " ++ errorText err) = true) as Hp.
  { apply has_prefix_spec. by eexists. }
  rewrite Hp, drop_app_length. cbn [negb].
  assert (IndexByte (decimal e) colon = None) as Hc.
  { destruct (IndexByte (decimal e) colon) as [b|] eqn:E; [|done].
    pose proof (ParseUint32_decimal e He) as Hd. unfold ParseUint32 in Hd.
    destruct (decimal e) as [|d ds] eqn:Ed; [done|]. by rewrite (digits_no_colon b) in Hd. }
  change (str ": " ++ errorText err) with (colon :: str " " ++ errorText err).
  rewrite IndexByte_app by done. rewrite take_app_length, ParseUint32_decimal by done.
  by rewrite (proj2 (Z.eqb_neq _ _)) by lia.
Qed.

(** The errno of a failure survives the trip through a gRPC status, whatever
    the text of the message: every error of the metadata store comes out as
    the errno a local file system would give, also those that share a status
    code. *)
Theorem errno_survives_status (errorText : error → bytes) (e : error) n :
  errno_of e = Some n → ErrnoOf errorText (toStatus errorText e) = Some n.
Proof. destruct e; intros [= <-]; cbn [toStatus]; apply ErrnoOf_withErrno; done. Qed.

Lemma errno_survives_status_witness :
  errno_of ErrNotEmpty = Some ENOTEMPTY ∧
  ErrnoOf (λ _, str "directory not empty: x") (toStatus (λ _, str "directory not empty: x") ErrNotEmpty)
  = Some ENOTEMPTY.
Proof.
  split; [reflexivity|]. exact (errno_survives_status (λ _, str "directory not empty: x") ErrNotEmpty
    ENOTEMPTY eq_refl).
Defined.

(** ** Keys of the client's maps *)

Lemma inode_dir_obj i d : inodeObj i ≠ dirObj d.
Proof. unfold inodeObj, dirObj. cbn. discriminate. Qed.

(** ** Invalidation *)

Lemma invalidated_epoch obj objs c :
  cl_epochOf obj (invalidated objs c) = ver_after (times obj objs) (cl_epochOf obj c).
Proof.
  revert c. induction objs as [|o objs IH]; intros c; [done|]. cbn [invalidated foldl].
  change (foldl (λ c o, cl_invalidate o c) (cl_invalidate o c) objs) with (invalidated objs (cl_invalidate o c)).
  rewrite IH. change (o :: objs) with ([o] ++ objs). rewrite times_app, <- ver_after_add. f_equal.
  unfold times. rewrite filter_cons. unfold cl_epochOf, cl_invalidate, num. cbn [cl_epochs].
  rewrite lookup_insert. case_decide as E; [subst; done|done].
Qed.

Lemma times_notin k l : k ∉ l → times k l = 0%nat.
Proof.
  intros Hk. unfold times. induction l as [|x l IH]; [done|]. rewrite filter_cons.
  rewrite decide_False by set_solver. apply IH. set_solver.
Qed.

Lemma invalidated_epoch_moved obj objs c :
  obj ∈ objs → Z.of_nat (length objs) < 2 ^ 64 → cl_epochOf obj (invalidated objs c) ≠ cl_epochOf obj c.
Proof.
  intros Hin Hlen. rewrite invalidated_epoch. apply ver_after_changes; [by apply times_elem|].
  pose proof (times_le obj objs). lia.
Qed.

Lemma invalidated_cache obj objs c :
  cl_cache (invalidated objs c) !! obj = if decide (obj ∈ objs) then None else cl_cache c !! obj.
Proof.
  revert c. induction objs as [|o objs IH]; intros c; [by rewrite decide_False by (apply not_elem_of_nil)|].
  change (invalidated (o :: objs) c) with (invalidated objs (cl_invalidate o c)). rewrite IH. cbn [cl_cache cl_invalidate].
  rewrite lookup_delete. repeat case_decide; set_solver.
Qed.

Lemma forgotten_dir_cache c d : cl_cache c !! dirObj d = None → forgotten_dir c d.
Proof. intros E now name. unfold cl_cachedDentry, cl_cachedNegative. by rewrite E. Qed.

Lemma forgotten_inode_cache c i : cl_cache c !! inodeObj i = None → forgotten_inode c i.
Proof. intros E now. unfold cl_CachedInode. by rewrite E. Qed.

(** Nothing is kept of a response to a question asked before the last
    invalidation. *)
Lemma store_overtaken now obj rec l since c : cl_epochOf obj c ≠ since → cl_store now obj rec l since c = c.
Proof. intros Hne. unfold cl_store. by rewrite (proj2 (Z.eqb_neq _ _)). Qed.

Lemma store_current now obj rec l c :
  cl_cache (cl_store now obj rec l (cl_epochOf obj c) c) !! obj
  = Some (if ln_TTL l <=? 0 then mkCacheEntry rec (ln_Version l) zero_time true
          else mkCacheEntry rec (ln_Version l) (now + ln_TTL l) false).
Proof. unfold cl_store. rewrite Z.eqb_refl. cbn. apply lookup_insert_eq. Qed.

Lemma store_trusted now rec l v : trusted now
  (if ln_TTL l <=? 0 then mkCacheEntry rec v zero_time true else mkCacheEntry rec v (now + ln_TTL l) false) = true.
Proof.
  unfold trusted, After. destruct (Z.leb_spec (ln_TTL l) 0); cbn; [done|].
  apply negb_true_iff, Z.ltb_ge. lia.
Qed.

Lemma store_other now obj rec l since c obj' : obj ≠ obj' → cl_cache (cl_store now obj rec l since c) !! obj' = cl_cache c !! obj'.
Proof. intros Hne. unfold cl_store. destruct (negb _); [done|]. cbn. by rewrite lookup_insert_ne. Qed.

Lemma store_epoch now obj rec l since c obj' : cl_epochOf obj' (cl_store now obj rec l since c) = cl_epochOf obj' c.
Proof. unfold cl_store. by destruct (negb _). Qed.

Lemma store_answers now i rec l c :
  cl_CachedInode now i (cl_store now (inodeObj i) rec l (cl_epochOf (inodeObj i) c) c) = Some rec.
Proof. unfold cl_CachedInode. rewrite store_current, store_trusted. by destruct (ln_TTL l <=? 0). Qed.

Lemma storeDentry_other now d n k l since c i :
  cl_cache (cl_storeDentry now d n k l since c) !! inodeObj i = cl_cache c !! inodeObj i.
Proof.
  assert (cl_cache (cl_store now (dirObj d) dirLeaseRecord l since c) !! inodeObj i = cl_cache c !! inodeObj i) as E
    by (apply store_other; intros Ed; by apply (inode_dir_obj i d)).
  unfold cl_storeDentry. destruct (negb _); exact E.
Qed.

Section calls.
Context {W : Type} (clock : W → time) (invoke : ∀ q : request, M (Client * W) (response q)).

(** C13: an invalidation that arrives while a call is under way wins over the
    response's leases.  If the inode was invalidated between the request of a
    GetInode and its response, the caller gets the response but nothing of it
    is kept; if it was not, the record is kept and answers at once.  If the
    directory was invalidated while a Lookup was under way, no binding of the
    directory, present or absent, is kept.  The record of the inode found is
    another matter: Lookup keeps it whatever was invalidated meanwhile, for
    it reads the inode's epoch only after the response. *)
Theorem inflight_invalidation_wins c w objs w1 :
  Z.of_nat (length objs) < 2 ^ 64 →
  (∀ id resp, cl_CachedInode (clock w) id c = None →
     invoke (QGetInode id) (c, w) = (Ok resp, (invalidated objs c, w1)) →
     ∃ c', cl_GetInode clock invoke id (c, w) = (Ok (gi_Record resp), (c', w1)) ∧
       cl_CachedInode (clock w1) id c'
       = if decide (inodeObj id ∈ objs) then None else Some (gi_Record resp)) ∧
  (∀ dir name resp, cl_cachedDentry (clock w) dir name c = None → cl_cachedNegative (clock w) dir name c = false →
     invoke (QLookup dir name) (c, w) = (Ok resp, (invalidated objs c, w1)) →
     ∃ c', cl_Lookup clock invoke dir name (c, w) = (Ok resp, (c', w1)) ∧
       (dirObj dir ∈ objs → forgotten_dir c' dir) ∧
       (lr_Found resp = true → cl_CachedInode (clock w1) (lr_Inode resp) c' = Some (lr_Record resp))).
Proof.
  intros Hlen. split.
  - intros id resp Hmiss Hinv. unfold cl_GetInode, reads, changes, mbind, M_bind, gets, modify. cbn [fst snd].
    rewrite Hmiss, Hinv. cbn [fst snd]. eexists. split; [done|]. unfold cl_CachedInode.
    destruct (decide (inodeObj id ∈ objs)) as [Hin|Hout].
    + rewrite store_overtaken by (by apply invalidated_epoch_moved). rewrite invalidated_cache. by rewrite decide_True.
    + assert (cl_epochOf (inodeObj id) c = cl_epochOf (inodeObj id) (invalidated objs c)) as ->.
      { rewrite invalidated_epoch. rewrite (times_notin _ _ Hout). done. }
      apply store_answers.
  - intros dir name resp Hd Hn Hinv. unfold cl_Lookup, reads, changes, mbind, M_bind, gets, modify. cbn [fst snd].
    rewrite Hd. cbv beta iota. cbn [fst snd]. rewrite Hn. cbv beta iota. cbn [fst snd]. rewrite Hinv.
    cbv beta iota. unfold cl_keepLookup, changes, mbind, M_bind, modify. cbn [fst snd].
    pose (c1 := cl_store (clock w1) (inodeObj (lr_Inode resp)) (lr_Record resp) (lr_Lease resp)
      (cl_epochOf (inodeObj (lr_Inode resp)) (invalidated objs c)) (invalidated objs c)).
    assert (∀ c2, cl_cache c2 !! dirObj dir = cl_cache (invalidated objs c) !! dirObj dir →
      dirObj dir ∈ objs → forgotten_dir c2 dir) as Hf.
    { intros c2 E Hin. apply forgotten_dir_cache. rewrite E, invalidated_cache. by rewrite decide_True. }
    assert (cl_cache c1 !! dirObj dir = cl_cache (invalidated objs c) !! dirObj dir) as E1.
    { apply store_other. apply inode_dir_obj. }
    assert (dirObj dir ∈ objs → cl_epochOf (dirObj dir) c1 ≠ cl_epochOf (dirObj dir) c ∧
      cl_epochOf (dirObj dir) (invalidated objs c) ≠ cl_epochOf (dirObj dir) c) as Hep.
    { intros Hin. unfold c1. rewrite store_epoch. split; by apply invalidated_epoch_moved. }
    assert (∀ c2 k, dirObj dir ∈ objs → cl_epochOf (dirObj dir) c2 ≠ cl_epochOf (dirObj dir) c →
      cl_storeDentry (clock w1) dir name k (lr_DirLease resp) (cl_epochOf (dirObj dir) c) c2 = c2 ∧
      cl_storeNegative (clock w1) dir name (lr_DirLease resp) (cl_epochOf (dirObj dir) c) c2 = c2) as Hst.
    { intros c2 k Hin Hne. unfold cl_storeDentry, cl_storeNegative. rewrite !store_overtaken by done.
      by rewrite (proj2 (Z.eqb_neq _ _)). }
    assert (cl_CachedInode (clock w1) (lr_Inode resp) c1 = Some (lr_Record resp)) as Hrec by apply store_answers.
    destruct (lr_Found resp), (0 <? ln_TTL (lr_DirLease resp)); eexists; (split; [reflexivity|]);
      cbn [fst snd]; (split; [intros Hin; destruct (Hep Hin) as [Ha Hb]|]); try done.
    + fold c1. rewrite (proj1 (Hst c1 (lr_Inode resp) Hin Ha)). by apply Hf.
    + intros _. fold c1. unfold cl_CachedInode. by rewrite storeDentry_other.
    + fold c1. by apply Hf.
    + rewrite (proj2 (Hst _ (lr_Inode resp) Hin Hb)). by apply Hf.
    + by apply Hf.
Qed.

(** ** Own changes *)

Lemma changes_run f (c : Client) (w : W) : changes clock f (c, w) = (Ok tt, (f (clock w) c, w)).
Proof. done. Qed.

Lemma invalidate_cache obj obj' c :
  cl_cache (cl_invalidate obj c) !! obj' = if decide (obj' = obj) then None else cl_cache c !! obj'.
Proof. cbn. rewrite lookup_delete. repeat case_decide; congruence. Qed.

Lemma drops_more objs o c : drops objs c → drops (o :: objs) (cl_invalidate o c).
Proof.
  intros Hd x Hx. rewrite invalidate_cache. case_decide; [done|]. apply Hd. set_solver.
Qed.

Lemma drops_sub objs objs' c : (∀ o, o ∈ objs → o ∈ objs') → drops objs' c → drops objs c.
Proof. intros Hs Hd o Ho. auto. Qed.

Lemma drops_nil c : drops [] c.
Proof. by intros o ?%not_elem_of_nil. Qed.

(** Split a call into the request and the invalidations after it. *)
Ltac invalidations :=
  repeat match goal with
  | E : (_ ≫= _) _ = (Ok _, _) |- _ => apply bind_Ok in E as (? & [? ?] & ? & E)
  | E : changes _ _ _ = (Ok _, _) |- _ => rewrite changes_run in E; inversion E; subst; clear E
  | E : mret _ _ = (Ok _, _) |- _ => inversion E; subst; clear E
  end.

(** A client sees its own changes.  After a call that changed a directory
    has succeeded, the client has no answer of its own for any name in that
    directory nor for the directory's attributes, and after one that changed
    an inode none for that inode: the next question goes to the authority,
    whatever was cached and whatever else happened during the call. *)
Theorem own_changes_are_seen o c w c' w' :
  run_cop clock invoke o (c, w) = (Ok tt, (c', w')) →
  (∀ d, d ∈ cop_dirs o → forgotten_dir c' d ∧ forgotten_inode c' d) ∧
  (∀ i, i ∈ cop_inodes o → forgotten_inode c' i).
Proof.
  intros Hrun.
  assert (drops ((d ← cop_dirs o; [inodeObj d; dirObj d]) ++ (inodeObj <$> cop_inodes o)) c') as Hd.
  { destruct o; cbn [run_cop] in Hrun;
      unfold cl_Commit, cl_CommitDetached, cl_Unlink, cl_Mkdir, cl_Rmdir, cl_Rename, cl_SetAttr, cl_Mknod,
        cl_Link, cl_Symlink in Hrun; invalidations; cbn [cop_dirs cop_inodes];
      try (case_bool_decide; invalidations);
      (eapply drops_sub; [|unfold cl_invalidateOwnMutation; repeat apply drops_more; apply drops_nil]);
      cbn [mbind list_bind app fmap list_fmap]; intros obj; rewrite ?elem_of_cons, ?elem_of_nil; subst; tauto. }
  split.
  - intros d Hin. split; [apply forgotten_dir_cache|apply forgotten_inode_cache]; apply Hd, elem_of_app; left;
      apply list_elem_of_bind; exists d; split; set_solver.
  - intros i Hin. apply forgotten_inode_cache, Hd, elem_of_app. right. apply list_elem_of_fmap. by exists i.
Qed.
End calls.

Lemma inflight_invalidation_wins_witness :
  (∃ c', cl_GetInode (λ _, 0) racing RootInode (NewClient [], tt) = (Ok dirLeaseRecord, (c', tt)) ∧
     cl_CachedInode 0 RootInode c' = None) ∧
  (∃ c', cl_Lookup (λ _, 0) racing RootInode (str "a") (NewClient [], tt) = (Ok racing_lookup, (c', tt)) ∧
     forgotten_dir c' RootInode).
Proof.
  destruct (inflight_invalidation_wins (λ _ : unit, 0) racing (NewClient []) tt racing_objs tt eq_refl) as [Hg Hl].
  split.
  - destruct (Hg RootInode racing_record eq_refl eq_refl) as (c' & E & Hc). exists c'. split; [exact E|].
    rewrite Hc. apply decide_True. unfold racing_objs. set_solver.
  - destruct (Hl RootInode (str "a") racing_lookup eq_refl eq_refl eq_refl) as (c' & E & Hc). exists c'.
    split; [exact E|]. apply Hc. unfold racing_objs. set_solver.
Defined.

Lemma own_changes_are_seen_witness :
  ∃ c', run_cop (λ _, 0) racing (CUnlink RootInode (str "a")) (NewClient [], tt) = (Ok tt, (c', tt)) ∧
    forgotten_dir c' RootInode.
Proof.
  eexists. split; [reflexivity|].
  destruct (own_changes_are_seen (λ _ : unit, 0) racing (CUnlink RootInode (str "a")) (NewClient []) tt _ tt eq_refl)
    as [Hd _].
  apply Hd. set_solver.
Defined.

(** ** Resolving a path *)

Lemma str_inj s t : str s = str t → s = t.
Proof.
  intros E. apply (f_equal String.string_of_list_byte) in E. unfold str in E.
  by rewrite !String.string_of_list_byte_of_string in E.
Qed.

Lemma decimal_inj (a b : word64) : decimal (w64 a) = decimal (w64 b) → a = b.
Proof.
  intros E%str_inj%(inj pretty). apply word64_eq. pose proof (w64_range a). pose proof (w64_range b).
  unfold in_u64 in *. lia.
Qed.

Lemma inodeObj_inj i j : inodeObj i = inodeObj j → i = j.
Proof. intros E%(inj (app (str "inode:"))). by apply decimal_inj. Qed.

Lemma dirObj_inj i j : dirObj i = dirObj j → i = j.
Proof. intros E%(inj (app (str "dir:"))). by apply decimal_inj. Qed.

Lemma splitPath_nonempty p : [] ∉ splitPath p.
Proof.
  unfold splitPath. rewrite elem_of_reverse.
  assert (∀ ws stack, [] ∉ stack → [] ∉ fold_left clean_step ws stack) as Hf; [|apply Hf, not_elem_of_nil].
  induction ws as [|w ws IH]; intros stack Hs; [done|]. cbn [fold_left]. apply IH. unfold clean_step.
  destruct (bool_decide (w = [])) eqn:E; [done|]. apply bool_decide_eq_false in E. cbn [orb].
  destruct (bool_decide (w = str ".")); [done|]. destruct (bool_decide (w = str "..")).
  - destruct stack; [done|]. cbn. set_solver.
  - apply not_elem_of_cons. by split; [intros <-|].
Qed.

Section resolve.
Context {bucket : Type → Type} `{BoltLaws bucket}.
Context (errorText : error → bytes) (wait : Z → M (Server bucket) unit).
Implicit Types (c : Client) (s : Server bucket).
Abbreviation rpc := (direct errorText wait).

Lemma getInodeTx_Err i (db : DB bucket) e : getInodeTx i db = Err e → e = ErrNotFound.
Proof. unfold getInodeTx. case_match; congruence. Qed.

Lemma lookupTx_Err d n (db : DB bucket) e : lookupTx d n db = Err e → e = ErrNotFound.
Proof. unfold lookupTx. case_match; congruence. Qed.

Lemma srv_grant_run holder obj s : ∃ l s', srv_grant holder obj s = (Ok l, s') ∧ sv_db s' = sv_db s.
Proof.
  unfold srv_grant. destruct (sv_coh s) as [m|]; [|eauto]. destruct (Grant _ _ _ _) as [v m']. eauto.
Qed.

Lemma onStore_view {A} (g : DB bucket → result A) s :
  onStore errorText (View g) s
  = (match g (sv_db s) with Ok a => Ok a | Err e => Err (toStatus errorText e) end, s).
Proof. unfold onStore, View. destruct (g (sv_db s)); by destruct s. Qed.

Lemma srv_GetInode_run holder i s :
  ∃ s', sv_db s' = sv_db s ∧
  match getInodeTx i (sv_db s) with
  | Ok rec => ∃ l, srv_GetInode errorText holder i s = (Ok (mkGetInodeResponse rec l), s')
  | Err e => srv_GetInode errorText holder i s = (Err (toStatus errorText e), s')
  end.
Proof.
  unfold srv_GetInode, mbind, M_bind, GetInode. rewrite onStore_view.
  destruct (getInodeTx i (sv_db s)) as [rec|e]; [|eauto].
  destruct (srv_grant_run holder (inodeObj i) s) as (l & s' & -> & E). exists s'. split; [done|]. by exists l.
Qed.

Lemma srv_Lookup_run holder d n s :
  ∃ s', sv_db s' = sv_db s ∧
  match lookupTx d n (sv_db s) with
  | Err _ => ∃ resp, srv_Lookup errorText holder d n s = (Ok resp, s') ∧ lr_Found resp = false
  | Ok id =>
      match getInodeTx id (sv_db s) with
      | Ok rec => ∃ resp, srv_Lookup errorText holder d n s = (Ok resp, s') ∧
          lr_Found resp = true ∧ lr_Inode resp = id ∧ lr_Record resp = rec
      | Err e => srv_Lookup errorText holder d n s = (Err (toStatus errorText e), s')
      end
  end.
Proof.
  unfold srv_Lookup, mbind, M_bind, gets.
  destruct (match sv_coh s with Some m => (DirVersion (dirObj d) m, true) | None => (0, false) end) as [dv leased].
  assert (∃ dl s1, (if leased then srv_grant holder (dirObj d) else mret zero_lease) s = (Ok dl, s1)
    ∧ sv_db s1 = sv_db s) as (dl & s1 & E & E1).
  { destruct leased; [apply srv_grant_run|]. exists zero_lease, s. done. }
  rewrite E, E1. destruct (lookupTx d n (sv_db s)) as [id|e] eqn:Hl.
  - unfold GetInode. rewrite onStore_view, E1. destruct (getInodeTx id (sv_db s)) as [rec|e];
      [|exists s1; split; [exact E1|reflexivity]].
    destruct (srv_grant_run holder (inodeObj id) s1) as (l & s2 & -> & E2). exists s2. split; [congruence|].
    eexists. split; [done|]. done.
  - apply lookupTx_Err in Hl as ->. rewrite bool_decide_true by done. unfold modify.
    eexists (sv_set_coh _ s1). split; [exact E1|]. eexists. split; [done|]. done.
Qed.

(** ** The caches stay coherent *)

Lemma coherent_store now i rec l since c (db : DB bucket) :
  coherent c db → getInodeTx i db = Ok rec → coherent (cl_store now (inodeObj i) rec l since c) db.
Proof.
  intros [Hi Hd Hn] Hrec. unfold cl_store. destruct (negb _); [by split|]. split; [|done|done].
  cbn [cl_cache]. intros j e. rewrite lookup_insert. case_decide as E; [|apply Hi].
  apply inodeObj_inj in E as <-. intros [= <-]. by destruct (ln_TTL l <=? 0).
Qed.

Lemma coherent_store_dir now d rec l since c (db : DB bucket) :
  coherent c db → coherent (cl_store now (dirObj d) rec l since c) db.
Proof.
  intros [Hi Hd Hn]. unfold cl_store. destruct (negb _); [by split|]. split; [|done|done].
  cbn [cl_cache]. intros j e. rewrite lookup_insert_ne; [apply Hi|]. intros E. by apply (inode_dir_obj j d).
Qed.

Lemma coherent_storeDentry now d n ino l since c (db : DB bucket) :
  coherent c db → lookupTx d n db = Ok ino → coherent (cl_storeDentry now d n ino l since c) db.
Proof.
  intros Hc Hl. unfold cl_storeDentry. apply (coherent_store_dir now d dirLeaseRecord l since) in Hc.
  set (c1 := cl_store _ _ _ _ _ c) in *. destruct (negb _); [done|]. destruct Hc as [Hi Hd Hn]. split; [done| |done].
  cbn [cl_dentries]. intros d' n' ino'. rewrite lookup_insert. case_decide as E; [|apply Hd].
  apply dirObj_inj in E as <-. cbn [from_option Datatypes.id]. rewrite lookup_insert.
  case_decide; [subst; congruence|apply Hd].
Qed.

Lemma coherent_storeNegative now d n l since c (db : DB bucket) :
  coherent c db → lookupTx d n db = Err ErrNotFound → coherent (cl_storeNegative now d n l since c) db.
Proof.
  intros Hc Hl. unfold cl_storeNegative. apply (coherent_store_dir now d dirLeaseRecord l since) in Hc.
  set (c1 := cl_store _ _ _ _ _ c) in *. destruct (negb _); [done|]. destruct Hc as [Hi Hd Hn]. split; [done|done|].
  cbn [cl_negatives]. intros d' n'. rewrite lookup_insert. case_decide as E; [|apply Hn].
  apply dirObj_inj in E as <-. cbn [from_option Datatypes.id].
  intros [->%elem_of_singleton|?]%elem_of_union; [done|by apply Hn].
Qed.

Lemma cached_inode_coherent now i c (db : DB bucket) rec :
  coherent c db → cl_CachedInode now i c = Some rec → getInodeTx i db = Ok rec.
Proof.
  intros Hc. unfold cl_CachedInode. destruct (cl_cache c !! inodeObj i) as [e|] eqn:E; [|done].
  destruct (trusted now e); [|done]. intros [= <-]. by apply (co_inode _ _ Hc).
Qed.

(** ** The calls *)

Lemma cl_GetInode_run i c s :
  coherent c (sv_db s) → ∃ res c' s', cl_GetInode sv_now rpc i (c, s) = (res, (c', s')) ∧
    sv_db s' = sv_db s ∧ coherent c' (sv_db s) ∧
    match getInodeTx i (sv_db s) with
    | Ok rec => res = Ok rec | Err e => res = Err (toStatus errorText e) end.
Proof.
  intros Hc. unfold cl_GetInode, reads, changes, mbind, M_bind, gets, modify. cbn [fst snd].
  destruct (cl_CachedInode (sv_now s) i c) as [rec|] eqn:E.
  { exists (Ok rec), c, s. split_and!; [done|done|done|]. by rewrite (cached_inode_coherent _ _ _ _ _ Hc E). }
  unfold direct, serve. destruct (srv_GetInode_run (cl_holder c) i s) as (s' & Ed & Hr).
  destruct (getInodeTx i (sv_db s)) as [rec|e] eqn:Hi.
  - destruct Hr as [l ->]. cbn [gi_Record gi_Lease fst snd]. do 3 eexists. split; [done|].
    split_and!; [done| |done]. by apply coherent_store.
  - rewrite Hr. do 3 eexists. done.
Qed.

Lemma cl_Lookup_run d n c s :
  coherent c (sv_db s) → ∃ res c' s', cl_Lookup sv_now rpc d n (c, s) = (res, (c', s')) ∧
    sv_db s' = sv_db s ∧ coherent c' (sv_db s) ∧
    match lookupTx d n (sv_db s) with
    | Err _ => ∃ resp, res = Ok resp ∧ lr_Found resp = false
    | Ok id =>
        match getInodeTx id (sv_db s) with
        | Ok rec => ∃ resp, res = Ok resp ∧ lr_Found resp = true ∧ lr_Inode resp = id ∧ lr_Record resp = rec
        | Err e => res = Err (toStatus errorText e)
        end
    end.
Proof.
  intros Hc. unfold cl_Lookup, reads, mbind, M_bind, gets. cbn [fst snd].
  destruct (cl_cachedDentry (sv_now s) d n c) as [[ino rec]|] eqn:E.
  { unfold cl_cachedDentry in E. destruct (cl_cache c !! dirObj d); [|done]. destruct (negb _); [done|].
    destruct (_ !! n) as [ino'|] eqn:En; [|done]. apply fmap_Some in E as (rec' & Hci & [= <- <-]).
    rewrite (co_dentry _ _ Hc _ _ _ En), (cached_inode_coherent _ _ _ _ _ Hc Hci).
    do 3 eexists. split; [done|]. split_and!; [done|done|]. eexists. split; [done|]. done. }
  cbv beta iota. cbn [fst snd]. destruct (cl_cachedNegative (sv_now s) d n c) eqn:Eneg; cbn [fst snd].
  { unfold cl_cachedNegative in Eneg. destruct (cl_cache c !! dirObj d); [|done]. destruct (negb _); [done|].
    apply bool_decide_eq_true in Eneg. rewrite (co_negative _ _ Hc _ _ Eneg).
    do 3 eexists. split; [done|]. split_and!; [done|done|]. eexists. split; [done|]. done. }
  unfold direct, serve. destruct (srv_Lookup_run (cl_holder c) d n s) as (s' & Ed & Hr).
  unfold cl_keepLookup, changes, mbind, M_bind, modify.
  destruct (lookupTx d n (sv_db s)) as [id|e] eqn:Hl.
  - destruct (getInodeTx id (sv_db s)) as [rec|e] eqn:Hi; [|rewrite Hr; do 3 eexists; done].
    destruct Hr as (resp & -> & Hf & Hid & Hrec). cbn [fst snd]. rewrite Hf, Hid, Hrec.
    assert (∀ since, coherent (cl_store (sv_now s') (inodeObj id) rec (lr_Lease resp) since c) (sv_db s)) as Hs
      by (intros; by apply coherent_store).
    destruct (0 <? _); do 3 eexists; (split; [reflexivity|]); (split; [done|]);
      (split; [|eexists; split; [reflexivity|done]]); cbn [fst snd]; [by apply coherent_storeDentry|done].
  - apply lookupTx_Err in Hl as He. subst e. destruct Hr as (resp & -> & Hf). cbn [fst snd]. rewrite Hf.
    destruct (0 <? _); do 3 eexists; (split; [reflexivity|]); (split; [done|]);
      (split; [|eexists; split; [reflexivity|done]]); cbn [fst snd]; [by apply coherent_storeNegative|done].
Qed.

Lemma resolveStep_run (cur : InodeID * InodeRecord) n (db : DB bucket) : n ≠ [] →
  resolveStep cur n db
  = (match lookupTx cur.1 n db with
     | Ok id => match getInodeTx id db with Ok rec => Ok (id, rec) | Err e => Err e end
     | Err e => Err e
     end, db).
Proof.
  intros Hn. unfold resolveStep. rewrite bool_decide_false by done.
  unfold mbind, M_bind, Lookup, GetInode, View. destruct (lookupTx cur.1 n db) as [id|]; [|done].
  by destruct (getInodeTx id db).
Qed.

Lemma cl_resolveStep_run cur n c s :
  coherent c (sv_db s) → n ≠ [] → ∃ res c' s', cl_resolveStep sv_now rpc cur n (c, s) = (res, (c', s')) ∧
    sv_db s' = sv_db s ∧ coherent c' (sv_db s) ∧ answers errorText (resolveStep cur n (sv_db s)).1 res.
Proof.
  intros Hc Hn. rewrite resolveStep_run by done. unfold cl_resolveStep, mbind, M_bind.
  destruct (cl_Lookup_run cur.1 n c s Hc) as (res & c1 & s1 & -> & Ed & Hc1 & Hr).
  destruct (lookupTx cur.1 n (sv_db s)) as [id|e].
  - destruct (getInodeTx id (sv_db s)) as [rec|e] eqn:Hi.
    + destruct Hr as (resp & -> & -> & -> & ->). do 3 eexists. split; [done|]. done.
    + apply getInodeTx_Err in Hi as ->. subst res. do 3 eexists. split; [done|].
      split_and!; [done|done|by right].
  - destruct Hr as (resp & -> & ->). do 3 eexists. split; [done|]. split_and!; [done|done|by left].
Qed.

Lemma cl_resolve_run names cur c s :
  coherent c (sv_db s) → [] ∉ names →
  ∃ res c' s', fold_m (cl_resolveStep sv_now rpc) cur names (c, s) = (res, (c', s')) ∧
    sv_db s' = sv_db s ∧ coherent c' (sv_db s) ∧
    answers errorText (fold_m resolveStep cur names (sv_db s)).1 res.
Proof.
  revert cur c s. induction names as [|n names IH]; intros cur c s Hc Hne.
  { do 3 eexists. done. }
  apply not_elem_of_cons in Hne as [Hn Hne]. cbn [fold_m]. unfold mbind, M_bind.
  destruct (cl_resolveStep_run cur n c s Hc (not_eq_sym Hn)) as (res & c1 & s1 & E & Ed & Hc1 & Ha).
  rewrite E. rewrite resolveStep_run in Ha |- * by done. cbn [fst] in Ha.
  destruct (match lookupTx cur.1 n (sv_db s) with Ok _ => _ | Err _ => _ end) as [next|e]; cbn in Ha.
  - subst res. rewrite <- Ed in Hc1 |- *. by apply IH.
  - exists res, c1, s1. destruct Ha as [-> | ->]; (split; [done|]); split_and!; [done|done|by left|done|done|by right].
Qed.

(** C12: resolving a path through the service, component by component and
    through the client's caches, is resolving it in the authority's store:
    the same inode and record, or the failure of the one is the failure of
    the other; and what it caches on the way still agrees with the store. *)
Theorem client_Resolve_equiv p c s :
  coherent c (sv_db s) →
  ∃ res c' s', cl_Resolve sv_now rpc p (c, s) = (res, (c', s')) ∧
    answers errorText (Resolve (splitPath p) (sv_db s)).1 res ∧
    sv_db s' = sv_db s ∧ coherent c' (sv_db s').
Proof.
  intros Hc. unfold cl_Resolve, Resolve, mbind, M_bind, GetInode, View.
  destruct (cl_GetInode_run RootInode c s Hc) as (res & c1 & s1 & -> & Ed & Hc1 & Hr).
  destruct (getInodeTx RootInode (sv_db s)) as [rec|e] eqn:Hi; subst res.
  - rewrite <- Ed in Hc1. destruct (cl_resolve_run (splitPath p) (RootInode, rec) c1 s1 Hc1 (splitPath_nonempty p))
      as (res & c2 & s2 & E & Ed2 & Hc2 & Ha).
    rewrite E. exists res, c2, s2. rewrite Ed2, <- Ed. done.
  - apply getInodeTx_Err in Hi as ->. do 3 eexists. split; [done|]. rewrite Ed. split_and!; [by right|done|done].
Qed.
End resolve.

Lemma client_Resolve_equiv_witness :
  let s := NewServer (Open 1000 1000 0 : DB MapBolt.mapb) Second false 0 [] 0 in
  ∃ res c' s', cl_Resolve sv_now (direct (λ _, []) (λ _, mret tt)) (str "/a") (NewClient (str "h"), s)
    = (res, (c', s')) ∧ answers (λ _, []) (Resolve (splitPath (str "/a")) (sv_db s)).1 res ∧
    coherent c' (sv_db s').
Proof.
  intros s.
  destruct (client_Resolve_equiv (λ _, []) (λ _, mret tt) (str "/a") (NewClient (str "h")) s)
    as (res & c' & s' & E & Ha & _ & Hc).
  - split; cbn; [by intros i e ?|by intros d n ino ?|]. intros d n Hn. by apply not_elem_of_empty in Hn.
  - by exists res, c', s'.
Defined.
