(* ===== verification/MdsCoh.v ===== *)
(** pkg/mds and pkg/coherence: a client that has handled its events agrees
    with the authority.

    A [system] is one client and the server.  A [sys_step] is a call of
    another holder, a read or a change of the client's own, the handling of
    an event from the client's stream, somebody else's stream, or time.  The
    class is relaxed or session, so no handler waits.  What the client holds
    is then, at every moment, what the store says or announced by an event
    that waits in its stream, but for the records of inodes that a [Rename] has
    moved or displaced: the server bumps neither of the two. *)
From S2P Require Import Prelude Bolt Chunk Manifest Store Pack MetaDB Coherence RepoUtil Repo.
From S2P Require Import MetaSpec MetaRefine MetaTree MetaInv MetaBuilt MetaThm RepoRead RepoStore RepoThm RepoCoh.
From S2P Require Import MdsServer MdsClient MdsThm.

(** ** Statements *)

Section statements.
Context {bucket : Type → Type} `{BoltOps bucket}.
Context (errorText : error → bytes) (wait : Z → M (Server bucket) unit).
Abbreviation system := (Client * Server bucket)%type.
Abbreviation rpc := (direct errorText wait).

(** The server's own channel to the holder [h] has room for the events of one
    more call, and the store is one the database's methods can build. *)
Definition calm (h : bytes) (s : Server bucket) : Prop :=
  built (sv_db s) ∧ fs_seq (view (sv_db s)) + 1 < 2 ^ 64 ∧
  ∀ hs, sv_streams s !! h = Some hs → (length (hs_ch hs) + 4 <= streamCap)%nat.

(** The inodes a call changes without a word: those a rename moves and
    displaces. *)
Definition bound (d : InodeID) (n : bytes) (db : DB bucket) : gset InodeID :=
  list_to_set (option_list (fs_names (view db) !! (d, n))).
Definition silent (q : request) (db : DB bucket) : gset InodeID :=
  match q with QRename od on nd nn => bound od on db ∪ bound nd nn db | _ => ∅ end.
Definition cop_silent (o : cop) (db : DB bucket) : gset InodeID :=
  match o with CRename od on nd nn => bound od on db ∪ bound nd nn db | _ => ∅ end.

(** One event off the client's stream. *)
Definition handle_next (serial : nat) : M system unit := λ '(c, s),
  match srv_Subscribe_next (cl_holder c) serial s with
  | (Some ev, s') => cl_handleEvent sv_now rpc ev (c, s')
  | (None, s') => (Ok tt, (c, s'))
  end.

(** As many as wait there. *)
Fixpoint drain (n : nat) (serial : nat) (cs : system) : system :=
  match n with O => cs | S n' => drain n' serial (handle_next serial cs).2 end.

Definition set_now (t : time) (s : Server bucket) : Server bucket :=
  mkServer (sv_db s) (sv_coh s) (sv_posix s) (sv_drecall s) (sv_leaseTTL s) (sv_region s) (sv_streams s)
    (sv_serial s) t.

(** [h] is the client, [HS] the holders there are, the set the inodes the
    step changes without a word. *)
Inductive sys_step (h : bytes) (HS : gset bytes) : gset InodeID → system → system → Prop :=
  | st_call h' q res c s s' : calm h s → h' ∈ HS →
      serve errorText wait h' q s = (res, s') → sys_step h HS (silent q (sv_db s)) (c, s) (c, s')
  | st_get i res c s c' s' : cl_GetInode sv_now rpc i (c, s) = (res, (c', s')) →
      sys_step h HS ∅ (c, s) (c', s')
  | st_lookup d n res c s c' s' : cl_Lookup sv_now rpc d n (c, s) = (res, (c', s')) →
      sys_step h HS ∅ (c, s) (c', s')
  | st_change o res c s c' s' : calm h s →
      run_cop sv_now rpc o (c, s) = (res, (c', s')) → sys_step h HS (cop_silent o (sv_db s)) (c, s) (c', s')
  | st_event serial res c s c' s' : handle_next serial (c, s) = (res, (c', s')) →
      sys_step h HS ∅ (c, s) (c', s')
  | st_open h' c s : h' ≠ h → sys_step h HS ∅ (c, s) (c, (srv_Subscribe_open h' s).2)
  | st_next h' serial c s : h' ≠ h → sys_step h HS ∅ (c, s) (c, (srv_Subscribe_next h' serial s).2)
  | st_close h' serial c s : h' ≠ h → sys_step h HS ∅ (c, s) (c, srv_Subscribe_close h' serial s)
  | st_time t c s : sys_step h HS ∅ (c, s) (c, set_now t s).

(** A client that has connected, with nothing cached, and what follows. *)
Inductive sys_run (h : bytes) (HS : gset bytes) : gset InodeID → system → Prop :=
  | run_connect db lease recall region now : 0 < lease →
      sys_run h HS ∅ (NewClient h, (srv_Subscribe_open h (NewServer db lease false recall region now)).2)
  | run_step R R' cs cs' : sys_run h HS R cs → sys_step h HS R' cs cs' → sys_run h HS (R ∪ R') cs'.

(** What the client has cached is what the store says, but for the records of
    the inodes of [R]. *)
Record coherent_but (R : gset InodeID) (c : Client) (db : DB bucket) : Prop := mkCoherentBut {
  cb_inode : ∀ i e, i ∉ R → cl_cache c !! inodeObj i = Some e → getInodeTx i db = Ok (ce_record e);
  cb_dentry : ∀ d n ino, default ∅ (cl_dentries c !! dirObj d) !! n = Some ino → lookupTx d n db = Ok ino;
  cb_negative : ∀ d n, n ∈ default ∅ (cl_negatives c !! dirObj d) → lookupTx d n db = Err ErrNotFound
}.

(** An event about the object waits in the stream of [h]. *)
Definition pending (h obj : bytes) (s : Server bucket) : Prop :=
  ∃ hs ev, sv_streams s !! h = Some hs ∧ ev ∈ hs_ch hs ∧ ev_Object ev = obj.

Definition subs (s : Server bucket) (obj : bytes) : gmap bytes (bytes * bytes) :=
  match sv_coh s with Some m => inner (m_subscribers m) obj | None => ∅ end.

(** The registry is in order: it holds holders of [HS], each with its own
    callback, and the stream of [h] is there. *)
Record registry_ok (h : bytes) (HS : gset bytes) (s : Server bucket) : Prop := mkRegistryOk {
  ro_mgr : is_Some (sv_coh s);
  ro_posix : sv_posix s = false;
  ro_dom : ∀ obj h' cb, subs s obj !! h' = Some cb → h' ∈ HS ∧ cb = (h', obj);
  ro_stream : is_Some (sv_streams s !! h)
}.

(** What the client holds, it is subscribed to, and it is current or
    announced, or a record of [R]. *)
Record client_ok (h : bytes) (R : gset InodeID) (c : Client) (s : Server bucket) : Prop := mkClientOk {
  ck_holder : cl_holder c = h;
  ck_subs : ∀ obj, is_Some (cl_cache c !! obj) ∨ is_Some (cl_dentries c !! obj) ∨ is_Some (cl_negatives c !! obj) →
    is_Some (subs s obj !! h);
  ck_inode : ∀ i e, i ∉ R → cl_cache c !! inodeObj i = Some e →
    getInodeTx i (sv_db s) = Ok (ce_record e) ∨ pending h (inodeObj i) s;
  ck_dentry : ∀ d n ino, default ∅ (cl_dentries c !! dirObj d) !! n = Some ino →
    lookupTx d n (sv_db s) = Ok ino ∨ pending h (dirObj d) s;
  ck_negative : ∀ d n, n ∈ default ∅ (cl_negatives c !! dirObj d) →
    lookupTx d n (sv_db s) = Err ErrNotFound ∨ pending h (dirObj d) s
}.

(** What a call did to the leases and the streams, having bumped [objs]: who
    was subscribed still is, what waited still waits, and a subscriber with
    room is told of each object. *)
Record evolves (h : bytes) (objs : list bytes) (s s' : Server bucket) : Prop := mkEvolves {
  ev_mgr : is_Some (sv_coh s');
  ev_posix : sv_posix s' = sv_posix s;
  ev_subs : ∀ obj, is_Some (subs s obj !! h) → is_Some (subs s' obj !! h);
  ev_stream : ∀ hs, sv_streams s !! h = Some hs → ∃ new, sv_streams s' !! h = Some (mkStream (hs_serial hs) (hs_ch hs ++ new)) ∧
    (length new <= length objs)%nat ∧
    ((length (hs_ch hs) + length objs <= streamCap)%nat →
     ∀ obj, obj ∈ objs → is_Some (subs s obj !! h) → ∃ ev, ev ∈ new ∧ ev_Object ev = obj)
}.

(** The store changed at most in what the bumped objects cover and in the
    records of [R]. *)
Definition covers (R : gset InodeID) (objs : list bytes) (db db' : DB bucket) : Prop :=
  (∀ i rec, i ∉ R → getInodeTx i db = Ok rec → getInodeTx i db' = Ok rec ∨ inodeObj i ∈ objs) ∧
  (∀ d n, lookupTx d n db' = lookupTx d n db ∨ dirObj d ∈ objs).

(** The pushes of one bump. *)
Definition pushes (l : list (bytes * bytes)) (s : Server bucket) : Server bucket :=
  foldl (λ s cb, push cb.1 (mkEvent EventInvalidate cb.2 0) s) s l.

(** A part of a handler: the registry stays in order. *)
Definition shift (h : bytes) (HS : gset bytes) (objs : list bytes) (s s' : Server bucket) : Prop :=
  registry_ok h HS s → registry_ok h HS s' ∧ evolves h objs s s'.

(** What a handler may do. *)
Definition handled (h : bytes) (HS : gset bytes) (R : gset InodeID) (s s' : Server bucket) : Prop :=
  ∃ objs, (length objs <= 4)%nat ∧ registry_ok h HS s' ∧ evolves h objs s s' ∧
    (built (sv_db s) → fs_seq (view (sv_db s)) + 1 < 2 ^ 64 → covers R objs (sv_db s) (sv_db s')).

End statements.

(** Two holders and a new repository. *)
Definition race_text : error → bytes := λ _, [].
Definition race_wait : Z → M (Server MapBolt.mapb) unit := λ _, mret tt.
Definition race_h : bytes := str "h".
Definition race_g : bytes := str "g".
Definition race_HS : gset bytes := {[race_h; race_g]}.
Definition race_s0 : Server MapBolt.mapb :=
  (srv_Subscribe_open race_h (NewServer (Open 1000 1000 0) Second false 0 [] 0)).2.
Definition race_get : result InodeRecord * (Client * Server MapBolt.mapb) :=
  cl_GetInode sv_now (direct race_text race_wait) RootInode (NewClient race_h, race_s0).
Definition race_c1 : Client := race_get.2.1.
Definition race_s1 : Server MapBolt.mapb := race_get.2.2.
Definition race_mknod : request := QMknod RootInode (str "a") 4096 0 420 1000 1000.
Definition race_s2 : Server MapBolt.mapb := (serve race_text race_wait race_g race_mknod race_s1).2.

(** ** Leases and streams *)

Section streams.
Context {bucket : Type → Type} `{BoltLaws bucket}.
Context (errorText : error → bytes) (wait : Z → M (Server bucket) unit).
Context (h : bytes) (HS : gset bytes).
Implicit Types (c : Client) (s : Server bucket).

Lemma push_fields h' ev s :
  sv_db (push h' ev s) = sv_db s ∧ sv_coh (push h' ev s) = sv_coh s ∧ sv_posix (push h' ev s) = sv_posix s.
Proof. unfold push. destruct (sv_streams s !! h'); [|done]. by destruct (_ <? _)%nat. Qed.

Lemma push_other h' ev s : h' ≠ h → sv_streams (push h' ev s) !! h = sv_streams s !! h.
Proof.
  intros Hne. unfold push. destruct (sv_streams s !! h'); [|done]. destruct (_ <? _)%nat; [|done].
  cbn. by rewrite lookup_insert_ne.
Qed.

Lemma push_own ev s hs : sv_streams s !! h = Some hs →
  ∃ new, sv_streams (push h ev s) !! h = Some (mkStream (hs_serial hs) (hs_ch hs ++ new)) ∧
    (length new <= 1)%nat ∧ ((length (hs_ch hs) < streamCap)%nat → ev ∈ new).
Proof.
  intros E. unfold push. rewrite E. destruct (Nat.ltb_spec (length (hs_ch hs)) streamCap).
  - exists [ev]. cbn. rewrite lookup_insert_eq. split_and!; [done|done|]. intros _. set_solver.
  - exists []. rewrite app_nil_r, E. destruct hs. split_and!; [done|cbn; lia|cbn in *; lia].
Qed.

Lemma pushes_fields l s :
  sv_db (pushes l s) = sv_db s ∧ sv_coh (pushes l s) = sv_coh s ∧ sv_posix (pushes l s) = sv_posix s.
Proof.
  revert s. induction l as [|cb l IH]; intros s; [done|]. cbn [pushes foldl].
  destruct (push_fields cb.1 (mkEvent EventInvalidate cb.2 0) s) as (E1 & E2 & E3).
  destruct (IH (push cb.1 (mkEvent EventInvalidate cb.2 0) s)) as (F1 & F2 & F3).
  unfold pushes in *. split_and!; congruence.
Qed.

Lemma pushes_other l s : h ∉ l.*1 → sv_streams (pushes l s) !! h = sv_streams s !! h.
Proof.
  revert s. induction l as [|cb l IH]; intros s; [done|]. cbn. intros [Hne Hl]%not_elem_of_cons.
  unfold pushes in IH. rewrite IH by done. apply push_other. congruence.
Qed.

Lemma pushes_own l s hs : NoDup (l.*1) → sv_streams s !! h = Some hs →
  ∃ new, sv_streams (pushes l s) !! h = Some (mkStream (hs_serial hs) (hs_ch hs ++ new)) ∧
    (length new <= 1)%nat ∧
    ((length (hs_ch hs) < streamCap)%nat → ∀ obj, (h, obj) ∈ l → ∃ ev, ev ∈ new ∧ ev_Object ev = obj).
Proof.
  revert s. induction l as [|cb l IH]; intros s Hnd E.
  { exists []. rewrite app_nil_r. cbn. rewrite E. destruct hs. split_and!; [done|lia|].
    intros _ obj Hin. by apply not_elem_of_nil in Hin. }
  cbn in Hnd. apply NoDup_cons in Hnd as [Hni Hnd]. 
  change (pushes (cb :: l) s) with (pushes l (push cb.1 (mkEvent EventInvalidate cb.2 0) s)).
  destruct (decide (cb.1 = h)) as [Eh|Hne].
  - destruct (push_own (mkEvent EventInvalidate cb.2 0) s hs E) as (new & En & Hlen & Hev). rewrite Eh in *.
    exists new. rewrite pushes_other by done. split_and!; [done|done|].
    intros Hr obj [E1|Hin]%elem_of_cons; [subst cb; by eexists; split; [by apply Hev|]|].
    exfalso. apply Hni. apply list_elem_of_fmap. by exists (h, obj).
  - destruct (IH (push cb.1 (mkEvent EventInvalidate cb.2 0) s)) as (new & En & Hlen & Hev).
    + done.
    + by rewrite push_other.
    + exists new. split_and!; [done|done|]. intros Hr obj [E1|Hin]%elem_of_cons; [|by apply Hev].
      subst cb. done.
Qed.

Lemma evolves_refl s : is_Some (sv_coh s) → evolves h [] s s.
Proof.
  intros Hm. split; [done|done|done|]. intros hs E. exists []. rewrite app_nil_r, E. destruct hs.
  split_and!; [done|done|]. intros _ obj Hin. by apply not_elem_of_nil in Hin.
Qed.

Lemma evolves_trans objs objs' s1 s2 s3 :
  evolves h objs s1 s2 → evolves h objs' s2 s3 → evolves h (objs ++ objs') s1 s3.
Proof.
  intros [M1 P1 S1 T1] [M2 P2 S2 T2]. split; [done|congruence|auto|]. intros hs E.
  destruct (T1 hs E) as (n1 & E1 & L1 & R1). destruct (T2 _ E1) as (n2 & E2 & L2 & R2). cbn in *.
  exists (n1 ++ n2). rewrite (assoc_L app). split; [done|]. rewrite !length_app. split; [lia|].
  intros Hroom obj [Hin|Hin]%elem_of_app Hsub.
  - destruct (R1 ltac:(lia) obj Hin Hsub) as (ev & Hev & Eo). exists ev. split; [set_solver|done].
  - rewrite length_app in R2. destruct (R2 ltac:(lia) obj Hin (S1 _ Hsub)) as (ev & Hev & Eo).
    exists ev. split; [set_solver|done].
Qed.

Lemma shift_refl s : shift h HS [] s s.
Proof. intros Hr. split; [done|]. by apply evolves_refl, (ro_mgr _ _ _ Hr). Qed.

Lemma shift_trans objs objs' s1 s2 s3 : shift h HS objs s1 s2 → shift h HS objs' s2 s3 → shift h HS (objs ++ objs') s1 s3.
Proof.
  intros H1 H2 Hr. destruct (H1 Hr) as [Hr2 E1]. destruct (H2 Hr2) as [Hr3 E2].
  split; [done|]. by eapply evolves_trans.
Qed.

(** Nothing but the store, the clock or the leases changes. *)
Lemma shift_same s s' :
  (∀ obj, subs s' obj = subs s obj) → (is_Some (sv_coh s) → is_Some (sv_coh s')) → sv_posix s' = sv_posix s →
  sv_streams s' = sv_streams s → shift h HS [] s s'.
Proof.
  intros Es Em Ep Et [M P D T]. split.
  - split; [auto|congruence| |by rewrite Et]. intros obj h' cb. rewrite Es. apply D.
  - split; [auto|done|intros obj; by rewrite Es|]. intros hs E. exists []. rewrite app_nil_r, Et, E. destruct hs.
    split_and!; [done|done|]. intros _ obj Hin. by apply not_elem_of_nil in Hin.
Qed.

(** ** The parts of a handler *)

Lemma Subscribe_subs holder obj cb (m : manager) obj' h' :
  inner (m_subscribers (Subscribe holder obj cb m).2) obj' !! h'
  = if bool_decide (obj' = obj ∧ h' = holder) && (Subscribe holder obj cb m).1 then Some cb
    else inner (m_subscribers m) obj' !! h'.
Proof.
  unfold Subscribe. destruct (_ && (_ <=? _)).
  - cbn [fst snd set_subscribers m_subscribers]. rewrite inner_insert, andb_false_r.
    case_decide; [by subst|done].
  - cbn [fst snd set_subscribers m_subscribers]. rewrite inner_insert, andb_true_r. case_decide as E1.
    + subst. rewrite lookup_insert. case_decide; [by subst; rewrite bool_decide_true|].
      rewrite bool_decide_false by naive_solver. done.
    + rewrite inner_insert, bool_decide_false by naive_solver. by rewrite decide_False.
Qed.

Lemma shift_coh s m m' :
  sv_coh s = Some m → m_subscribers m' = m_subscribers m → shift h HS [] s (sv_set_coh (Some m') s).
Proof.
  intros Em E. apply shift_same; [|by intros|done|done]. intros obj. unfold subs. cbn. by rewrite Em, E.
Qed.

Lemma shift_onStore {A} (m : M (DB bucket) A) s res s' : onStore errorText m s = (res, s') → shift h HS [] s s'.
Proof.
  unfold onStore. destruct (m (sv_db s)) as [[a|e] d]; intros [= _ <-]; by apply shift_same.
Qed.

Lemma subs_after_Subscribe s m m' holder obj obj' h' :
  sv_coh s = Some m → m_subscribers m' = m_subscribers (Subscribe holder obj (holder, obj) m).2 →
  subs (sv_set_coh (Some m') s) obj' !! h'
  = if bool_decide (obj' = obj ∧ h' = holder) && (Subscribe holder obj (holder, obj) m).1 then Some (holder, obj)
    else subs s obj' !! h'.
Proof. intros Em E. unfold subs at 1. cbn. rewrite E, Subscribe_subs. unfold subs. by rewrite Em. Qed.

Lemma shift_grant holder obj s l s' :
  holder ∈ HS → srv_grant holder obj s = (l, s') → shift h HS [] s s'.
Proof.
  intros Hin. unfold srv_grant. destruct (sv_coh s) as [m|] eqn:Em; [|intros [= _ <-]; apply shift_refl].
  destruct (Grant holder obj (sv_now s) m) as [v m1] eqn:Eg. intros [= _ <-] [Mg P D T].
  set (m2 := (Subscribe holder obj (holder, obj) m1).2). set (m3 := if sv_posix s then _ else m2).
  assert (∀ o h', subs (sv_set_coh (Some m3) s) o !! h' = if bool_decide (o = obj ∧ h' = holder)
    && (Subscribe holder obj (holder, obj) m1).1 then Some (holder, obj) else subs s o !! h') as Hs.
  { intros o h'. change (sv_set_coh (Some m3) s) with (sv_set_coh (Some m3) (sv_set_coh (Some m1) s)).
    rewrite (subs_after_Subscribe _ m1 m3 holder obj); [|done|unfold m3; by destruct (sv_posix s)].
    replace (subs (sv_set_coh (Some m1) s) o) with (subs s o); [done|]. unfold subs. rewrite Em. cbn.
    injection Eg as _ <-. done. }
  split.
  - split; [done|done| |done]. intros o h' cb. rewrite Hs. case_bool_decide as E; [|apply D].
    destruct (Subscribe _ _ _ _).1; cbn; [|apply D]. destruct E as [-> ->]. by intros [= <-].
  - split; [done|done| |].
    + intros o Ho. rewrite Hs. by destruct (_ && _).
    + intros hs E. exists []. rewrite app_nil_r. cbn. rewrite E. destruct hs. split_and!; [done|done|].
      intros _ o Ho. by apply not_elem_of_nil in Ho.
Qed.

(** With no more holders than a registry takes, a grant subscribes. *)
Lemma grant_subscribes obj s l s' :
  h ∈ HS → Z.of_nat (size HS) <= registryCap → registry_ok h HS s → srv_grant h obj s = (l, s') →
  is_Some (subs s' obj !! h).
Proof.
  intros Hin Hsize [[m Em] P D T]. unfold srv_grant. rewrite Em.
  destruct (Grant h obj (sv_now s) m) as [v m1] eqn:Eg. intros [= _ <-].
  set (m2 := (Subscribe h obj (h, obj) m1).2). set (m3 := if sv_posix s then _ else m2).
  assert (subs s obj = inner (m_subscribers m1) obj) as Es.
  { unfold subs. rewrite Em. injection Eg as _ <-. done. }
  change (sv_set_coh (Some m3) s) with (sv_set_coh (Some m3) (sv_set_coh (Some m1) s)).
  rewrite (subs_after_Subscribe _ m1 m3 h obj); [|done|unfold m3; by destruct (sv_posix s)].
  rewrite bool_decide_true by done. destruct (Subscribe h obj (h, obj) m1).1 eqn:E1; [done|].
  cbn [andb]. change (subs (sv_set_coh (Some m1) s) obj) with (inner (m_subscribers m1) obj).
  unfold Subscribe in E1. rewrite <- Es in E1 |- *.
  destruct (bool_decide (subs s obj !! h = None) && (registryCap <=? Z.of_nat (size (subs s obj)))) eqn:Eb; [|done].
  apply andb_true_iff in Eb as [Eb%bool_decide_eq_true Hfull%Z.leb_le]. exfalso.
  assert (dom (subs s obj) ⊂ HS) as Hsub.
  { split; [intros h' [cb Hcb]%elem_of_dom; by destruct (D _ _ _ Hcb)|]. intros Hc.
    apply Hc in Hin. apply not_elem_of_dom in Eb. done. }
  apply subset_size in Hsub. rewrite size_dom in Hsub. lia.
Qed.

Lemma srv_grant_db holder obj s l s' : srv_grant holder obj s = (l, s') → sv_db s' = sv_db s.
Proof. unfold srv_grant. destruct (sv_coh s); [destruct (Grant _ _ _ _)|]; by intros [= _ <-]. Qed.

Lemma shift_bump obj s v s' :
  srv_bump obj s = (Ok v, s') → sv_db s' = sv_db s ∧ shift h HS [obj] s s'.
Proof.
  unfold srv_bump. destruct (sv_coh s) as [m|] eqn:Em.
  2: { intros [= _ <-]. split; [done|]. intros [[? ?] _ _ _]. congruence. }
  cbn [Bump]. intros [= _ <-].
  change (foldl _ s (Bump_collect obj m)) with (pushes (Bump_collect obj m) s).
  destruct (pushes_fields (Bump_collect obj m) s) as (Ed & Ec & Ep). split; [done|].
  intros [Mg P D T].
  assert (∀ o, subs (sv_set_coh (Some (setVersionLocked obj (u64 (versionLocked obj m + 1)) m))
    (pushes (Bump_collect obj m) s)) o = subs s o) as Es by (intros o; unfold subs; by rewrite Em).
  assert ((Bump_collect obj m).*1 = (map_to_list (subs s obj)).*1 ∧ ∀ o, (h, o) ∈ Bump_collect obj m ↔
    o = obj ∧ is_Some (subs s obj !! h)) as [Ek Hin].
  { unfold Bump_collect. assert (subs s obj = inner (m_subscribers m) obj) as Eo by (unfold subs; by rewrite Em).
    rewrite <- Eo. split.
    - rewrite <- list_fmap_compose. apply Forall_fmap_ext. apply Forall_forall. intros [h' cb] Hel.
      apply elem_of_map_to_list in Hel. destruct (D _ _ _ Hel) as [_ ->]. done.
    - intros o. rewrite list_elem_of_fmap. split.
      + intros ([h' cb] & E & Hel). apply elem_of_map_to_list in Hel. cbn in E. subst cb.
        destruct (D _ _ _ Hel) as [_ [= <- <-]]. split; [done|]. by eexists.
      + intros [-> [cb Hcb]]. exists (h, cb). destruct (D _ _ _ Hcb) as [_ ->]. split; [done|].
        by apply elem_of_map_to_list. }
  assert (∀ hs, sv_streams s !! h = Some hs → ∃ new, sv_streams (pushes (Bump_collect obj m) s) !! h
    = Some (mkStream (hs_serial hs) (hs_ch hs ++ new)) ∧ (length new <= 1)%nat ∧
    ((length (hs_ch hs) < streamCap)%nat → ∀ obj', (h, obj') ∈ Bump_collect obj m → ∃ ev, ev ∈ new ∧ ev_Object ev = obj'))
    as Hpush.
  { intros hs E. apply pushes_own; [|done]. rewrite Ek. apply NoDup_fst_map_to_list. }
  split.
  - split; [done|cbn; congruence| |].
    + intros o h' cb. rewrite Es. apply D.
    + cbn. destruct T as [hs E]. destruct (Hpush hs E) as (new & -> & _). by eexists.
  - split; [done|cbn; congruence|intros o; by rewrite Es|].
    intros hs E. destruct (Hpush hs E) as (new & En & Hlen & Hev). exists new. split_and!; [done|done|].
    intros Hroom o ->%list_elem_of_singleton Hsub. apply Hev; [cbn in Hroom; lia|]. by apply Hin.
Qed.

Lemma bump_total obj s : ∃ v s', srv_bump obj s = (Ok v, s') ∧ sv_db s' = sv_db s ∧ shift h HS [obj] s s'.
Proof.
  assert (∃ v s', srv_bump obj s = (Ok v, s')) as (v & s' & E) by (unfold srv_bump; destruct (sv_coh s); eauto).
  exists v, s'. split; [done|]. by eapply shift_bump.
Qed.

Lemma bumpDir_total d s :
  ∃ s', srv_bumpDir d s = (Ok tt, s') ∧ sv_db s' = sv_db s ∧ shift h HS [dirObj d; inodeObj d] s s'.
Proof.
  unfold srv_bumpDir, mbind, M_bind, modify.
  set (s1 := sv_set_coh _ s). assert (shift h HS [] s s1) as H1.
  { apply shift_same; [|cbn; by destruct (sv_coh s)|done|done]. intros obj. unfold s1, subs. cbn.
    by destruct (sv_coh s). }
  destruct (bump_total (dirObj d) s1) as (v1 & s2 & -> & D2 & H2).
  destruct (bump_total (inodeObj d) s2) as (v2 & s3 & -> & D3 & H3).
  exists s3. split_and!; [done|by rewrite D3, D2|]. exact (shift_trans _ _ _ _ _ H1 (shift_trans _ _ _ _ _ H2 H3)).
Qed.

(** ** Handlers *)

Lemma covers_refl R objs (db : DB bucket) : covers R objs db db.
Proof. split; intros; by left. Qed.

Lemma lookup_entries d n (f g : fs) : entries d f = entries d g → fs_names f !! (d, n) = fs_names g !! (d, n).
Proof.
  intros E. apply (f_equal (lookup (d, n))) in E. unfold entries in E.
  rewrite !map_lookup_filter in E. destruct (fs_names f !! (d, n)), (fs_names g !! (d, n)); cbn in E;
    rewrite ?option_guard_True in E by done; congruence.
Qed.

Lemma covers_op mo R objs (db db' : DB bucket) :
  built db → fs_seq (view db) + 1 < 2 ^ 64 → write_op mo = true → run_op mo db = (Ok tt, db') →
  (∀ i, i ∈ touched mo (view db) → i ∈ R ∨ inodeObj i ∈ objs) → (∀ d, d ∈ touched_dirs mo → dirObj d ∈ objs) →
  covers R objs db db'.
Proof.
  intros Hr Hseq Hw Hrun Hi Hd. apply built_has_inv in Hr as [Hk Hinv].
  destruct (built_next _ Hinv Hseq) as (_ & Hfresh & _).
  pose proof (op_implements mo db Hk (bi_forest _ Hinv)) as Himp. unfold implements in Himp.
  destruct (fs_pre mo (view db)); [|congruence]. destruct Himp as (d2 & E & Ev). assert (d2 = db') as -> by congruence.
  split.
  - intros i rec HR. rewrite !getInodeTx_view, Ev. destruct (fs_inodes (view db) !! i) as [r|] eqn:Er; [|done].
    intros [= <-]. destruct (decide (i ∈ touched mo (view db))) as [?|Hni]; [right; by destruct (Hi i)|].
    left. by rewrite (effect_inodes mo _ i r).
  - intros d n. rewrite !lookupTx_view, Ev. destruct (decide (d ∈ touched_dirs mo)) as [?|Hni]; [right; by apply Hd|].
    left. by rewrite (lookup_entries d n (fs_effect mo (view db)) (view db)) by (by apply effect_entries).
Qed.

Lemma op_refused mo (db db' : DB bucket) e : built db → run_op mo db = (Err e, db') → db' = db.
Proof.
  intros [Hk Hinv]%built_has_inv Hrun. pose proof (op_implements mo db Hk (bi_forest _ Hinv)) as Himp.
  unfold implements in Himp. destruct (fs_pre mo (view db)); [destruct Himp as (d2 & E & _)|]; congruence.
Qed.

Lemma handled_quiet R s s' : registry_ok h HS s → shift h HS [] s s' → sv_db s' = sv_db s → handled h HS R s s'.
Proof.
  intros Hr Hs E. destruct (Hs Hr) as [Hr' He]. exists []. split_and!; [cbn; lia|done|done|]. intros _ _. rewrite E. apply covers_refl.
Qed.

(** One operation of the store, and the bumps after it. *)
Lemma handled_Ok {A} (m : M (DB bucket) A) mo R s a s1 objs s' :
  registry_ok h HS s → onStore errorText m s = (Ok a, s1) →
  (∀ tx, (m ≫= λ _, mret tt) tx = run_op mo tx) → write_op mo = true → shift h HS objs s1 s' → sv_db s' = sv_db s1 →
  (length objs <= 4)%nat → (∀ i, i ∈ touched mo (view (sv_db s)) → i ∈ R ∨ inodeObj i ∈ objs) →
  (∀ d, d ∈ touched_dirs mo → dirObj d ∈ objs) → handled h HS R s s'.
Proof.
  intros Hr E Hm Hw Hs Ed Hlen Hi Hd. pose proof (shift_onStore m s _ s1 E) as H1.
  destruct (shift_trans [] _ _ _ _ H1 Hs Hr) as [Hr' He]. exists objs. split_and!; [done|done|done|].
  intros Hreach Hseq. rewrite Ed. apply (covers_op mo); try done. rewrite <- Hm. unfold onStore in E.
  unfold mbind, M_bind. destruct (m (sv_db s)) as [[b|e] d]; [|done]. injection E as -> <-. done.
Qed.

Lemma handled_Err {A} (m : M (DB bucket) A) mo R s e s1 :
  registry_ok h HS s → onStore errorText m s = (Err e, s1) → (∀ tx, (m ≫= λ _, mret tt) tx = run_op mo tx) → handled h HS R s s1.
Proof.
  intros Hr E Hm. pose proof (shift_onStore m s _ s1 E) as H1. destruct (H1 Hr) as [Hr' He].
  exists []. split_and!; [cbn; lia|done|done|]. intros Hreach Hseq.
  unfold onStore in E. specialize (Hm (sv_db s)). unfold mbind, M_bind in Hm.
  destruct (m (sv_db s)) as [[b|e'] d]; [done|]. injection E as _ <-. cbn.
  rewrite (op_refused mo (sv_db s) d e') by done. apply covers_refl.
Qed.

Lemma no_recall obj mu s : sv_posix s = false → recallIfPosix errorText wait obj mu s = (Ok (mkRecallResult [] []), s).
Proof. intros E. unfold recallIfPosix. by rewrite E. Qed.

Lemma no_recallBound holder d n s :
  sv_posix s = false → recallBound errorText wait holder d n s = (Ok (mkRecallResult [] []), s).
Proof. intros E. unfold recallBound. by rewrite E. Qed.

Lemma unit_op (m : M (DB bucket) unit) mo : (∀ tx, m tx = run_op mo tx) → ∀ tx, (m ≫= λ _, mret tt) tx = run_op mo tx.
Proof. intros E tx. rewrite <- E. unfold mbind, M_bind. by destruct (m tx) as [[[]|e] d]. Qed.

(** A change of the store, and then bumps. *)
Ltac handler_op mo :=
  match goal with |- context [onStore errorText ?m ?s] =>
    destruct (onStore errorText m s) as [[?a|?e] ?s1] eqn:?E end;
  [|intros [= _ <-]; eapply (handled_Err _ mo); [eassumption|eassumption|first [done|apply unit_op; done]]].
Ltac handler_bumps :=
  repeat match goal with
  | |- context [srv_bump ?o ?s] => destruct (bump_total o s) as (?v & ?s' & -> & ?Ed & ?Hsh)
  | |- context [srv_bumpDir ?d ?s] => destruct (bumpDir_total d s) as (?s' & -> & ?Ed & ?Hsh)
  end.
Ltac handler_done mo :=
  intros [= _ <-]; eapply (handled_Ok _ mo ∅);
  [eassumption|eassumption|first [done|apply unit_op; done]|done
  |first [eassumption|eapply shift_trans; [eassumption|eassumption]]|congruence|cbn; lia
  |cbn [touched touched_dirs]; try set_solver|cbn [touched touched_dirs]; try set_solver].

Lemma handled_Mkdir holder d n mode uid gid s res s' : registry_ok h HS s →
  srv_Mkdir errorText holder d n mode uid gid s = (res, s') → handled h HS ∅ s s'.
Proof.
  intros Hr. unfold srv_Mkdir, mbind, M_bind, gets.
  pose (mo := OCommitMkdir d n (dir_record (Z.land mode mode_7777) uid gid (sv_now s)) (sv_now s)).
  handler_op mo. handler_bumps. handler_done mo.
Qed.

Lemma handled_Mknod holder d n typ rdev mode uid gid s res s' : registry_ok h HS s →
  srv_Mknod errorText holder d n typ rdev mode uid gid s = (res, s') → handled h HS ∅ s s'.
Proof.
  intros Hr. unfold srv_Mknod, CreateSpecial, mbind, M_bind, gets.
  match goal with |- context [PublishFile d n ?rec ?now] => pose (mo := OPublishFile d n rec now) end.
  handler_op mo. handler_bumps. handler_done mo.
Qed.

Lemma handled_Symlink holder d n t uid gid s res s' : registry_ok h HS s →
  srv_Symlink errorText holder d n t uid gid s = (res, s') → handled h HS ∅ s s'.
Proof.
  intros Hr. unfold srv_Symlink, CreateSymlink, mbind, M_bind, gets.
  match goal with |- context [PublishFile d n ?rec ?now] => pose (mo := OPublishFile d n rec now) end.
  handler_op mo. handler_bumps. handler_done mo.
Qed.

Lemma handled_Link holder d n t s res s' : registry_ok h HS s →
  srv_Link errorText holder d n t s = (res, s') → handled h HS ∅ s s'.
Proof.
  intros Hr. unfold srv_Link, mbind, M_bind, gets. pose (mo := OLink d n t (sv_now s)).
  handler_op mo. handler_bumps. handler_done mo.
Qed.

Lemma handled_SetAttr holder i mut s res s' : registry_ok h HS s →
  srv_SetAttr errorText wait holder i mut s = (res, s') → handled h HS ∅ s s'.
Proof.
  intros Hr. unfold srv_SetAttr, mbind, M_bind, gets. rewrite no_recall by apply Hr.
  pose (mo := OSetAttr i mut (sv_now s)). handler_op mo. handler_bumps. handler_done mo.
Qed.

Lemma handled_CommitDetached holder i rec s res s' : registry_ok h HS s →
  srv_CommitDetached errorText wait holder i rec s = (res, s') → handled h HS ∅ s s'.
Proof.
  intros Hr. unfold srv_CommitDetached, mbind, M_bind, gets. rewrite no_recall by apply Hr.
  pose (mo := OUpdateInodeContent i rec). handler_op mo. handler_bumps. handler_done mo.
Qed.

Lemma handled_Commit holder d n rec det s res s' : registry_ok h HS s →
  srv_Commit errorText wait holder d n rec det s = (res, s') → handled h HS ∅ s s'.
Proof.
  intros Hr. unfold srv_Commit. destruct (negb _); [by apply handled_CommitDetached|].
  unfold mbind, M_bind, gets. rewrite no_recallBound by apply Hr.
  pose (mo := OCommitFile d n rec (sv_now s)). handler_op mo. handler_bumps. handler_done mo.
  unfold onStore in E. destruct (CommitFile d n rec (sv_now s) (sv_db s)) as [[id|e] db] eqn:Ec; [|done].
  injection E as -> <-. apply CommitFile_id in Ec. subst a. unfold commit_id.
  unfold mo. cbn [touched]. destruct (fs_names (view (sv_db s)) !! (d, n)); cbn [from_option Datatypes.id]; set_solver.
Qed.

Lemma onStore_lookup d n s res s' : onStore errorText (Lookup d n) s = (res, s') →
  s' = s ∧ ∀ i, res = Ok i → fs_names (view (sv_db s)) !! (d, n) = Some i.
Proof.
  unfold Lookup. rewrite onStore_view. intros [= <- <-]. split; [done|]. intros i.
  rewrite lookupTx_view. by destruct (fs_names _ !! _) as [j|]; intros [= ->].
Qed.

Lemma handled_same s : registry_ok h HS s → handled h HS ∅ s s.
Proof. intros Hr. apply handled_quiet; [done|apply shift_refl|done]. Qed.

Lemma handled_Unlink holder d n s res s' : registry_ok h HS s →
  srv_Unlink errorText wait holder d n s = (res, s') → handled h HS ∅ s s'.
Proof.
  intros Hr. unfold srv_Unlink, mbind, M_bind, gets.
  destruct (onStore errorText (Lookup d n) s) as [[id|e] s0] eqn:El; apply onStore_lookup in El as [-> Hn];
    [|intros [= _ <-]; by apply handled_same].
  rewrite no_recall by apply Hr. pose (mo := ORemoveEntry d n (sv_now s)).
  handler_op mo. handler_bumps. handler_done mo.
  unfold mo. cbn [touched]. rewrite (Hn _ eq_refl). cbn [option_list]. set_solver.
Qed.

Lemma handled_Rmdir holder d n s res s' : registry_ok h HS s →
  srv_Rmdir errorText wait holder d n s = (res, s') → handled h HS ∅ s s'.
Proof.
  intros Hr. unfold srv_Rmdir, mbind, M_bind, gets.
  destruct (onStore errorText (Lookup d n) s) as [[id|e] s0] eqn:El; apply onStore_lookup in El as [-> Hn];
    [|intros [= _ <-]; by apply handled_same].
  unfold GetInode, Readdir. rewrite onStore_view.
  destruct (getInodeTx id (sv_db s)) as [rec|e]; [|intros [= _ <-]; by apply handled_same].
  destruct (IsDir rec); [|intros [= _ <-]; by apply handled_same]. cbn [negb].
  destruct (onStore errorText _ s) as [[es|e] s0] eqn:Er.
  2: { unfold onStore, gets in Er. discriminate Er. }
  assert (s0 = s) as -> by (unfold onStore, gets in Er; injection Er as _ <-; by destruct s).
  destruct (0 <? _); [intros [= _ <-]; by apply handled_same|].
  rewrite no_recall by apply Hr. pose (mo := ORemoveEntry d n (sv_now s)).
  handler_op mo. handler_bumps. handler_done mo.
  unfold mo. cbn [touched]. rewrite (Hn _ eq_refl). cbn [option_list]. set_solver.
Qed.

Lemma handled_Rename holder od on nd nn s res s' : registry_ok h HS s →
  srv_Rename errorText wait holder od on nd nn s = (res, s') →
  handled h HS (bound od on (sv_db s) ∪ bound nd nn (sv_db s)) s s'.
Proof.
  intros Hr. unfold srv_Rename, mbind, M_bind, gets. rewrite (ro_posix _ _ _ Hr). cbn [andb].
  pose (mo := ORename od on nd nn (sv_now s) (sv_now s)). handler_op mo.
  assert (∀ i, i ∈ touched mo (view (sv_db s)) →
    i ∈ bound od on (sv_db s) ∪ bound nd nn (sv_db s) ∨ i = od ∨ i = nd) as Ht.
  { intros i. unfold mo, bound. cbn [touched]. rewrite !elem_of_cons, elem_of_app, elem_of_union, !elem_of_list_to_set.
    naive_solver. }
  handler_bumps. case_bool_decide as E1.
  - intros [= _ <-]. eapply (handled_Ok _ mo); [eassumption|eassumption|apply unit_op; done|done|eassumption|congruence
      |cbn; lia| |].
    + intros i [?|?]%Ht; [by left|right]. assert (i = od) as -> by naive_solver. set_solver.
    + unfold mo. cbn [touched_dirs]. subst nd. set_solver.
  - handler_bumps. intros [= _ <-]. eapply (handled_Ok _ mo); [eassumption|eassumption|apply unit_op; done|done
      |eapply shift_trans; [eassumption|eassumption]|congruence|cbn; lia| |].
    + intros i [?|[->| ->]]%Ht; [by left|right; set_solver..].
    + unfold mo. cbn [touched_dirs]. set_solver.
Qed.

(** ** Reads *)

Lemma quiet_GetInode holder i s res s' : holder ∈ HS → srv_GetInode errorText holder i s = (res, s') →
  shift h HS [] s s' ∧ sv_db s' = sv_db s ∧
  (holder = h → Z.of_nat (size HS) <= registryCap → registry_ok h HS s → ∀ resp, res = Ok resp →
   is_Some (subs s' (inodeObj i) !! h)).
Proof.
  intros Hin. unfold srv_GetInode, mbind, M_bind, GetInode. rewrite onStore_view.
  destruct (getInodeTx i (sv_db s)) as [rec|e]; [|intros [= <- <-]; split_and!; [apply shift_refl|done|done]].
  destruct (srv_grant holder (inodeObj i) s) as [[l|e] s1] eqn:Eg.
  - intros [= <- <-]. split_and!; [by eapply shift_grant|by eapply srv_grant_db|].
    intros -> Hsz Hr resp _. by eapply grant_subscribes.
  - intros [= <- <-]. split_and!; [by eapply shift_grant|by eapply srv_grant_db|done].
Qed.

Lemma quiet_Lookup holder d n s res s' : holder ∈ HS → srv_Lookup errorText holder d n s = (res, s') →
  registry_ok h HS s → shift h HS [] s s' ∧ sv_db s' = sv_db s ∧
  (holder = h → Z.of_nat (size HS) <= registryCap → ∀ resp, res = Ok resp →
   is_Some (subs s' (dirObj d) !! h) ∧ (lr_Found resp = true → is_Some (subs s' (inodeObj (lr_Inode resp)) !! h))).
Proof.
  intros Hin Hrun Hr. unfold srv_Lookup, mbind, M_bind, gets in Hrun. destruct (ro_mgr _ _ _ Hr) as [m Em]. rewrite Em in Hrun.
  destruct (srv_grant_run holder (dirObj d) s) as (dl & s1 & Eg & E1). rewrite Eg in Hrun.
  pose proof (shift_grant _ _ _ _ _ Hin Eg) as H1. destruct (H1 Hr) as [Hr1 He1].
  assert (holder = h → Z.of_nat (size HS) <= registryCap → is_Some (subs s1 (dirObj d) !! h)) as Hd1.
  { intros -> Hsz. exact (grant_subscribes _ _ _ _ Hin Hsz Hr Eg). }
  rewrite E1 in Hrun. destruct (lookupTx d n (sv_db s)) as [id|e] eqn:El.
  - unfold GetInode in Hrun. rewrite onStore_view, E1 in Hrun. destruct (getInodeTx id (sv_db s)) as [rec|e].
    2: { injection Hrun as <- <-. split_and!; done. }
    destruct (srv_grant_run holder (inodeObj id) s1) as (l & s2 & Eg2 & E2). rewrite Eg2 in Hrun.
    pose proof (shift_grant _ _ _ _ _ Hin Eg2) as H2. destruct (H2 Hr1) as [Hr2 He2].
    injection Hrun as <- <-. split_and!; [exact (shift_trans _ _ _ _ _ H1 H2)|congruence|].
    intros -> Hsz resp [= <-]. cbn [lr_Found lr_Inode]. split; [by apply (ev_subs _ _ _ _ He2), Hd1|].
    intros _. exact (grant_subscribes _ _ _ _ Hin Hsz Hr1 Eg2).
  - apply lookupTx_Err in El as ->. rewrite bool_decide_true in Hrun by done. unfold modify in Hrun.
    injection Hrun as <- <-. destruct (ro_mgr _ _ _ Hr1) as [m1 Em1]. cbn.
    assert (∀ o, subs (sv_set_coh (GrantNegative holder (dirObj d) n (sv_now s1) <$> sv_coh s1) s1) o = subs s1 o) as Es.
    { intros o. unfold subs. cbn. rewrite Em1. done. }
    split_and!; [|congruence|].
    + apply (shift_trans [] [] s s1); [done|]. apply shift_same; [done|cbn; by rewrite Em1|done|done].
    + intros Hh Hsz resp [= <-]. rewrite Es. cbn [lr_Found]. split; [by apply Hd1|discriminate].
Qed.

Lemma handled_Readdir holder d s res s' : holder ∈ HS → registry_ok h HS s →
  srv_Readdir errorText holder d s = (res, s') → handled h HS ∅ s s'.
Proof.
  intros Hin Hr. unfold srv_Readdir, mbind, M_bind, Readdir.
  destruct (onStore errorText (gets (readdirTx d)) s) as [[es|e] s0] eqn:Er; [|unfold onStore, gets in Er; discriminate Er].
  assert (s0 = s) as -> by (unfold onStore, gets in Er; injection Er as _ <-; by destruct s).
  destruct (srv_grant_run holder (dirObj d) s) as (l & s1 & Eg & E1). rewrite Eg. intros [= _ <-].
  apply handled_quiet; [done|by eapply shift_grant|done].
Qed.

Lemma handled_PutLocator i loc s res s' : registry_ok h HS s →
  srv_PutLocator errorText i loc s = (res, s') → handled h HS ∅ s s'.
Proof.
  intros Hr. unfold srv_PutLocator, mbind, M_bind, gets. intros E. pose proof (shift_onStore _ _ _ _ E) as Hs.
  destruct (Hs Hr) as [Hr' He]. exists []. split_and!; [cbn; lia|done|done|]. intros _ _.
  unfold onStore in E. destruct (PutLocator_run (sv_region s) i loc (sv_now s) (sv_db s)) as (d' & Ep & Hm & _).
  rewrite Ep in E. injection E as _ <-. cbn. unfold covers, getInodeTx, lookupTx.
  rewrite (sm_inode _ _ Hm), (sm_dentry _ _ Hm). split; intros; by left.
Qed.

Lemma serve_handled holder q s res s' : holder ∈ HS → registry_ok h HS s →
  serve errorText wait holder q s = (res, s') → handled h HS (silent q (sv_db s)) s s'.
Proof.
  intros Hin Hr. destruct q; cbn [serve silent];
    eauto using handled_Rename, handled_Commit, handled_Unlink, handled_Rmdir, handled_Mkdir, handled_Mknod, handled_Symlink,
      handled_Link, handled_SetAttr, handled_Readdir, handled_PutLocator.
  - intros E. destruct (quiet_GetInode _ _ _ _ _ Hin E) as (Hs & Ed & _). by apply handled_quiet.
  - intros E. destruct (quiet_Lookup _ _ _ _ _ _ Hin E Hr) as (Hs & Ed & _). by apply handled_quiet.
  - unfold srv_AckRecall, modify. intros [= _ <-]. apply handled_quiet; [done| |done].
    destruct (ro_mgr _ _ _ Hr) as [m Em]. apply shift_same; [|cbn; by rewrite Em|done|done].
    intros o. unfold subs. cbn. rewrite Em. cbn. unfold AckRecall. by destruct (_ !! recallID).
  - intros [= _ <-]. by apply handled_same.
  - intros [= _ <-]. by apply handled_same.
  - intros [= _ <-]. by apply handled_same.
Qed.
End streams.

(** ** The client *)

Section clients.
Context {bucket : Type → Type} `{BoltLaws bucket}.
Context (errorText : error → bytes) (wait : Z → M (Server bucket) unit).
Context (h : bytes) (HS : gset bytes).
Hypothesis h_in : h ∈ HS.
Hypothesis HS_small : Z.of_nat (size HS) <= registryCap.
Implicit Types (c : Client) (s : Server bucket).
Abbreviation rpc := (direct errorText wait).

Lemma pending_evolves objs obj s s' : evolves h objs s s' → pending h obj s → pending h obj s'.
Proof.
  intros He (hs & ev & E & Hev & Eo). destruct (ev_stream _ _ _ _ He hs E) as (new & E' & _ & _).
  exists (mkStream (hs_serial hs) (hs_ch hs ++ new)), ev. cbn. split_and!; [done|set_solver|done].
Qed.

Lemma ok_quiet {R} c s s' : client_ok h R c s → evolves h [] s s' → sv_db s' = sv_db s → client_ok h R c s'.
Proof.
  intros [Ch Cs Ci Cd Cn] He Ed. split; [done| | | |].
  - intros obj Ho. by apply (ev_subs _ _ _ _ He), Cs.
  - intros i e HR E. rewrite Ed. destruct (Ci i e HR E); [by left|right; by eapply pending_evolves].
  - intros d n ino E. rewrite Ed. destruct (Cd d n ino E); [by left|right; by eapply pending_evolves].
  - intros d n E. rewrite Ed. destruct (Cn d n E); [by left|right; by eapply pending_evolves].
Qed.

(** What the store changed is announced. *)
Lemma ok_handled {R} R' c s s' :
  registry_ok h HS s → client_ok h R c s → calm h s → handled h HS R' s s' → client_ok h (R ∪ R') c s'.
Proof.
  intros Hr [Ch Cs Ci Cd Cn] (Hreach & Hseq & Hroom) (objs & Hlen & Hr' & He & Hcov).
  destruct (Hcov Hreach Hseq) as [Hi Hd].
  assert (∀ obj, obj ∈ objs → is_Some (subs s obj !! h) → pending h obj s') as Htold.
  { intros obj Hin Hsub. destruct (ro_stream _ _ _ Hr) as [hs E]. specialize (Hroom hs E).
    destruct (ev_stream _ _ _ _ He hs E) as (new & E' & _ & Hev). destruct (Hev ltac:(lia) obj Hin Hsub) as (ev & Hel & Eo).
    exists (mkStream (hs_serial hs) (hs_ch hs ++ new)), ev. cbn. split_and!; [done|set_solver|done]. }
  split; [done| | | |].
  - intros obj Ho. by apply (ev_subs _ _ _ _ He), Cs.
  - intros i e [HR HR']%not_elem_of_union E. destruct (Ci i e HR E) as [Hg|Hp]; [|right; by eapply pending_evolves].
    destruct (Hi i _ HR' Hg) as [?|Hin]; [by left|]. right. apply Htold; [done|]. apply Cs. left. by eexists.
  - intros d n ino E. destruct (Cd d n ino E) as [Hg|Hp]; [|right; by eapply pending_evolves].
    destruct (Hd d n) as [->|Hin]; [by left|]. right. apply Htold; [done|]. apply Cs. right. left.
    destruct (cl_dentries c !! dirObj d); [by eexists|done].
  - intros d n E. destruct (Cn d n E) as [Hg|Hp]; [|right; by eapply pending_evolves].
    destruct (Hd d n) as [->|Hin]; [by left|]. right. apply Htold; [done|]. apply Cs. right. right.
    destruct (cl_negatives c !! dirObj d); [by eexists|]. cbn in E. by apply not_elem_of_empty in E.
Qed.

Lemma ok_invalidate {R} obj c s : client_ok h R c s → client_ok h R (cl_invalidate obj c) s.
Proof.
  intros [Ch Cs Ci Cd Cn]. split; [done| | | |]; cbn [cl_invalidate cl_cache cl_dentries cl_negatives].
  - intros o Ho. apply Cs. rewrite !lookup_delete in Ho. repeat case_decide; naive_solver.
  - intros i e HR. rewrite lookup_delete. case_decide; [done|by apply Ci].
  - intros d n ino. rewrite lookup_delete. case_decide; [done|apply Cd].
  - intros d n. rewrite lookup_delete. case_decide; [cbn; set_solver|apply Cn].
Qed.

Lemma ok_store {R} now i rec l since c s :
  client_ok h R c s → getInodeTx i (sv_db s) = Ok rec → is_Some (subs s (inodeObj i) !! h) →
  client_ok h R (cl_store now (inodeObj i) rec l since c) s.
Proof.
  intros [Ch Cs Ci Cd Cn] Hrec Hsub. unfold cl_store. destruct (negb _); [by split|].
  split; [done| | |done|done]; cbn [cl_cache cl_dentries cl_negatives].
  - intros o Ho. destruct (decide (o = inodeObj i)) as [->|Hne]; [done|]. apply Cs.
    by rewrite lookup_insert_ne in Ho.
  - intros j e HR. rewrite lookup_insert. case_decide as E; [|by apply Ci]. apply inodeObj_inj in E as <-.
    intros [= <-]. left. by destruct (ln_TTL l <=? 0).
Qed.

Lemma ok_store_dir {R} now d rec l since c s :
  client_ok h R c s → is_Some (subs s (dirObj d) !! h) → client_ok h R (cl_store now (dirObj d) rec l since c) s.
Proof.
  intros [Ch Cs Ci Cd Cn] Hsub. unfold cl_store. destruct (negb _); [by split|].
  split; [done| | |done|done]; cbn [cl_cache cl_dentries cl_negatives].
  - intros o Ho. destruct (decide (o = dirObj d)) as [->|Hne]; [done|]. apply Cs. by rewrite lookup_insert_ne in Ho.
  - intros j e HR. rewrite lookup_insert_ne; [by apply Ci|]. intros E. by apply (inode_dir_obj j d).
Qed.

Lemma ok_storeDentry {R} now d n ino l since c s :
  client_ok h R c s → lookupTx d n (sv_db s) = Ok ino → is_Some (subs s (dirObj d) !! h) →
  client_ok h R (cl_storeDentry now d n ino l since c) s.
Proof.
  intros Hc Hl Hsub. unfold cl_storeDentry. apply (ok_store_dir now d dirLeaseRecord l since) in Hc; [|done].
  set (c1 := cl_store _ _ _ _ _ c) in *. destruct (negb _); [done|]. destruct Hc as [Ch Cs Ci Cd Cn].
  split; [done| |done| |done]; cbn [cl_cache cl_dentries cl_negatives].
  - intros o Ho. destruct (decide (o = dirObj d)) as [->|Hne]; [done|]. apply Cs. by rewrite lookup_insert_ne in Ho.
  - intros d' n' ino'. rewrite lookup_insert. case_decide as E; [|apply Cd].
    apply dirObj_inj in E as <-. cbn [from_option Datatypes.id]. rewrite lookup_insert.
    case_decide; [subst; intros [= <-]; by left|apply Cd].
Qed.

Lemma ok_storeNegative {R} now d n l since c s :
  client_ok h R c s → lookupTx d n (sv_db s) = Err ErrNotFound → is_Some (subs s (dirObj d) !! h) →
  client_ok h R (cl_storeNegative now d n l since c) s.
Proof.
  intros Hc Hl Hsub. unfold cl_storeNegative. apply (ok_store_dir now d dirLeaseRecord l since) in Hc; [|done].
  set (c1 := cl_store _ _ _ _ _ c) in *. destruct (negb _); [done|]. destruct Hc as [Ch Cs Ci Cd Cn].
  split; [done| |done|done|]; cbn [cl_cache cl_dentries cl_negatives].
  - intros o Ho. destruct (decide (o = dirObj d)) as [->|Hne]; [done|]. apply Cs. by rewrite lookup_insert_ne in Ho.
  - intros d' n'. rewrite lookup_insert. case_decide as E; [|apply Cn].
    apply dirObj_inj in E as <-. cbn [from_option Datatypes.id].
    intros [->%elem_of_singleton|?]%elem_of_union; [by left|by apply Cn].
Qed.

Lemma ok_coherent {R} c s hs : client_ok h R c s → sv_streams s !! h = Some hs → hs_ch hs = [] → coherent_but R c (sv_db s).
Proof.
  intros [Ch Cs Ci Cd Cn] E En.
  assert (∀ obj, ¬ pending h obj s) as Hnone.
  { intros obj (hs' & ev & E' & Hev & _). rewrite E in E'. injection E' as <-. rewrite En in Hev.
    by apply not_elem_of_nil in Hev. }
  split.
  - intros i e HR He. destruct (Ci i e HR He) as [?|Hp]; [done|by apply Hnone in Hp].
  - intros d n ino He. destruct (Cd d n ino He) as [?|Hp]; [done|by apply Hnone in Hp].
  - intros d n He. destruct (Cn d n He) as [?|Hp]; [done|by apply Hnone in Hp].
Qed.

(** ** Steps *)

Lemma ok_GetInode {R} i c s res c' s' :
  registry_ok h HS s → client_ok h R c s → cl_GetInode sv_now rpc i (c, s) = (res, (c', s')) →
  registry_ok h HS s' ∧ client_ok h R c' s'.
Proof.
  intros Hr Hc. unfold cl_GetInode, reads, changes, mbind, M_bind, gets, modify. cbn [fst snd].
  destruct (cl_CachedInode (sv_now s) i c); [by intros [= _ <- <-]|].
  unfold direct, serve. rewrite (ck_holder _ _ _ _ Hc).
  destruct (srv_GetInode errorText h i s) as [r1 s1] eqn:Eg.
  destruct (quiet_GetInode errorText h HS h i s r1 s1 h_in Eg) as (Hs & Ed & Hsub). destruct (Hs Hr) as [Hr1 He].
  pose proof (ok_quiet c s s1 Hc He Ed) as Hc1.
  destruct (srv_GetInode_run errorText h i s) as (s1' & _ & Hval). rewrite Eg in Hval.
  destruct (getInodeTx i (sv_db s)) as [rec|e] eqn:Hi.
  - destruct Hval as (l & [= -> <-]). cbn [gi_Record gi_Lease fst snd]. intros [= _ <- <-]. split; [done|].
    apply ok_store; [done|congruence|]. by eapply Hsub.
  - injection Hval as -> <-. by intros [= _ <- <-].
Qed.

Lemma ok_Lookup {R} d n c s res c' s' :
  registry_ok h HS s → client_ok h R c s → cl_Lookup sv_now rpc d n (c, s) = (res, (c', s')) →
  registry_ok h HS s' ∧ client_ok h R c' s'.
Proof.
  intros Hr Hc. unfold cl_Lookup, reads, mbind, M_bind, gets. cbn [fst snd].
  destruct (cl_cachedDentry (sv_now s) d n c) as [[? ?]|]; [by intros [= _ <- <-]|]. cbn [fst snd].
  destruct (cl_cachedNegative (sv_now s) d n c); [by intros [= _ <- <-]|]. cbn [fst snd].
  unfold direct, serve. rewrite (ck_holder _ _ _ _ Hc).
  destruct (srv_Lookup errorText h d n s) as [r1 s1] eqn:Eg.
  destruct (quiet_Lookup errorText h HS h d n s r1 s1 h_in Eg Hr) as (Hs & Ed & Hsub). destruct (Hs Hr) as [Hr1 He].
  pose proof (ok_quiet c s s1 Hc He Ed) as Hc1. specialize (Hsub eq_refl HS_small).
  destruct (srv_Lookup_run errorText h d n s) as (s1' & _ & Hval). rewrite Eg in Hval. rewrite <- Ed in Hval.
  unfold cl_keepLookup, changes, mbind, M_bind, modify. destruct (lookupTx d n (sv_db s1)) as [id|e] eqn:Hl.
  - destruct (getInodeTx id (sv_db s1)) as [rec|e] eqn:Hi.
    2: { injection Hval as -> <-. by intros [= _ <- <-]. }
    destruct Hval as (resp & [= -> <-] & Hf & Hid & Hrec). destruct (Hsub resp eq_refl) as [Hd1 Hi1].
    specialize (Hi1 Hf). rewrite Hf, Hid, Hrec in *. cbn [fst snd].
    assert (∀ now l since, client_ok h R (cl_store now (inodeObj id) rec l since c) s1) as Hst
      by (intros; by apply ok_store).
    destruct (0 <? _); intros [= _ <- <-]; (split; [done|]); cbn [fst snd]; [by apply ok_storeDentry|done].
  - apply lookupTx_Err in Hl as He'. subst e. destruct Hval as (resp & [= -> <-] & Hf).
    destruct (Hsub resp eq_refl) as [Hd1 _]. rewrite Hf. cbn [fst snd].
    destruct (0 <? _); intros [= _ <- <-]; (split; [done|]); cbn [fst snd]; [by apply ok_storeNegative|done].
Qed.

(** A change is one request and some invalidations. *)
Lemma run_cop_request o c s res c' s' :
  run_cop sv_now rpc o (c, s) = (res, (c', s')) →
  ∃ q res' objs, silent q (sv_db s) = cop_silent o (sv_db s) ∧ serve errorText wait (cl_holder c) q s = (res', s') ∧ c' = invalidated objs c.
Proof.
  destruct o; cbn [run_cop];
    unfold cl_Commit, cl_CommitDetached, cl_Unlink, cl_Mkdir, cl_Rmdir, cl_Rename, cl_SetAttr, cl_Mknod, cl_Link, cl_Symlink,
      mbind, M_bind, changes, modify, direct;
    match goal with |- context [serve errorText wait (cl_holder c) ?q s] =>
      destruct (serve errorText wait (cl_holder c) q s) as [[a|e] s1] eqn:E; try case_bool_decide; intros [= _ <- <-];
      exists q; eexists; cbn [fst snd] end.
  all: try (exists []; done).
  - by exists [inodeObj (cm_Inode a); dirObj dir; inodeObj dir].
  - by exists [inodeObj id].
  - by exists [dirObj dir; inodeObj dir].
  - by exists [dirObj dir; inodeObj dir].
  - by exists [dirObj dir; inodeObj dir].
  - by exists [dirObj oldDir; inodeObj oldDir].
  - by exists [dirObj oldDir; inodeObj oldDir; dirObj newDir; inodeObj newDir].
  - by exists [inodeObj id].
  - by exists [dirObj dir; inodeObj dir].
  - by exists [inodeObj target; dirObj dir; inodeObj dir].
  - by exists [dirObj dir; inodeObj dir].
Qed.

Lemma ok_invalidated {R} objs c s : client_ok h R c s → client_ok h R (invalidated objs c) s.
Proof.
  revert c. induction objs as [|o objs IH]; intros c Hc; [done|]. cbn [invalidated foldl].
  by apply (IH (cl_invalidate o c)), ok_invalidate.
Qed.

(** Taking an event off the stream and dropping what it is about. *)
Lemma ok_taken {R} c s serial ev s1 :
  registry_ok h HS s → client_ok h R c s → srv_Subscribe_next h serial s = (Some ev, s1) →
  sv_db s1 = sv_db s ∧ registry_ok h HS s1 ∧ client_ok h R (cl_invalidate (ev_Object ev) c) s1 ∧
  ∃ evs, sv_streams s !! h = Some (mkStream serial (ev :: evs)) ∧ sv_streams s1 !! h = Some (mkStream serial evs).
Proof.
  intros [Mg P D T] Hc. unfold srv_Subscribe_next. destruct (sv_streams s !! h) as [[k [|x evs]]|] eqn:E; [done| |done].
  destruct (Nat.eqb_spec k serial) as [->|]; [|done]. intros [= -> <-]. cbn [sv_set_streams sv_db sv_streams].
  rewrite lookup_insert_eq. split; [done|]. split.
  { split; [done|done|done|]. cbn. rewrite lookup_insert_eq. by eexists. }
  split; [|by exists evs]. destruct Hc as [Ch Cs Ci Cd Cn].
  assert (∀ o, o ≠ ev_Object ev → pending h o s → pending h o (sv_set_streams (<[h := mkStream serial evs]> (sv_streams s)) s))
    as Hp.
  { intros o Ho (hs & ev' & E' & Hev & Eo). rewrite E in E'. injection E' as <-. cbn in Hev.
    apply elem_of_cons in Hev as [->|Hev]; [by subst o|]. exists (mkStream serial evs), ev'. cbn.
    rewrite lookup_insert_eq. done. }
  split; [done| | | |]; cbn [cl_invalidate cl_cache cl_dentries cl_negatives sv_db sv_set_streams].
  - intros o Ho. apply Cs. rewrite !lookup_delete in Ho. repeat case_decide; naive_solver.
  - intros i e HR. rewrite lookup_delete. case_decide; [done|]. intros Hx. destruct (Ci i e HR Hx); [by left|right; auto].
  - intros d n ino. rewrite lookup_delete. case_decide; [done|]. intros Hx. destruct (Cd d n ino Hx); [by left|right; auto].
  - intros d n. rewrite lookup_delete. case_decide; [cbn; set_solver|]. intros Hx. destruct (Cn d n Hx); [by left|right; auto].
Qed.

Lemma ok_handle {R} serial c s res c' s' :
  registry_ok h HS s → client_ok h R c s → handle_next errorText wait serial (c, s) = (res, (c', s')) →
  registry_ok h HS s' ∧ client_ok h R c' s' ∧ sv_db s' = sv_db s ∧
  ∀ evs, sv_streams s !! h = Some (mkStream serial evs) → sv_streams s' !! h = Some (mkStream serial (tail evs)).
Proof.
  intros Hr Hc. unfold handle_next. rewrite (ck_holder _ _ _ _ Hc).
  destruct (srv_Subscribe_next h serial s) as [[ev|] s1] eqn:En.
  - destruct (ok_taken c s serial ev s1 Hr Hc En) as (Ed & Hr1 & Hc1 & evs & E & E1).
    unfold cl_handleEvent, mbind, M_bind, changes, modify. cbn [fst snd].
    assert (∀ l, sv_streams s !! h = Some (mkStream serial l) → sv_streams s1 !! h = Some (mkStream serial (tail l))) as Htl.
    { intros l. rewrite E, E1. by intros [= <-]. }
    destruct (ev_Kind ev); [by intros [= _ <- <-]|]. rewrite attempt_run. unfold direct. cbn [serve fst snd].
    change (cl_holder (cl_invalidate (ev_Object ev) c)) with (cl_holder c). rewrite (ck_holder _ _ _ _ Hc).
    unfold srv_AckRecall, modify. cbn [fst snd]. intros [= _ <- <-].
    assert (shift h HS [] s1 (sv_set_coh (AckRecall (ev_RecallID ev) h <$> sv_coh s1) s1)) as Hs.
    { destruct (ro_mgr _ _ _ Hr1) as [m Em]. apply shift_same; [|cbn; by rewrite Em|done|done].
      intros o. unfold subs. cbn. rewrite Em. cbn. unfold AckRecall. by destruct (m_pending m !! ev_RecallID ev). }
    destruct (Hs Hr1) as [Hr2 He]. split_and!; [done|by eapply ok_quiet|done|done].
  - unfold srv_Subscribe_next in En. intros [= _ <- <-].
    destruct (sv_streams s !! h) as [[k [|ev evs]]|] eqn:E.
    + injection En as <-. split_and!; [done|done|done|]. intros l. rewrite E. by intros [= -> <-].
    + destruct (Nat.eqb_spec k serial) as [|Hk]; [done|]. injection En as <-. split_and!; [done|done|done|]. intros l.
      rewrite E. by intros [= ? _].
    + injection En as <-. split_and!; [done|done|done|]. intros l. rewrite E. done.
Qed.

Lemma ok_drain {R} n serial c s c' s' evs :
  registry_ok h HS s → client_ok h R c s → sv_streams s !! h = Some (mkStream serial evs) → (length evs <= n)%nat →
  drain errorText wait n serial (c, s) = (c', s') → coherent_but R c' (sv_db s') ∧ sv_db s' = sv_db s.
Proof.
  revert c s evs. induction n as [|n IH]; intros c s evs Hr Hc E Hlen; cbn [drain].
  - intros [= <- <-]. split; [|done]. eapply ok_coherent; [done|done|]. destruct evs; [done|cbn in Hlen; lia].
  - destruct (handle_next errorText wait serial (c, s)) as [res [c1 s1]] eqn:Eh. cbn [snd].
    destruct (ok_handle serial c s res c1 s1 Hr Hc Eh) as (Hr1 & Hc1 & Ed & Htl). intros Hdr.
    rewrite <- Ed. eapply IH; [done|done|by apply Htl| |done]. destruct evs; cbn in *; lia.
Qed.

(** Streams of other holders. *)
Lemma ok_other_stream {R} c s s' :
  sv_db s' = sv_db s → sv_coh s' = sv_coh s → sv_posix s' = sv_posix s → sv_streams s' !! h = sv_streams s !! h →
  registry_ok h HS s → client_ok h R c s → registry_ok h HS s' ∧ client_ok h R c s'.
Proof.
  intros Ed Ec Ep Et [Mg P D T] Hc. assert (∀ o, subs s' o = subs s o) as Es by (intros o; unfold subs; by rewrite Ec).
  split.
  - split; [by rewrite Ec|congruence| |by rewrite Et]. intros o h' cb. rewrite Es. apply D.
  - apply (ok_quiet c s); [done| |done]. split; [by rewrite Ec|done|intros o; by rewrite Es|].
    intros hs E. exists []. rewrite app_nil_r, Et, E. destruct hs. split_and!; [done|done|].
    intros _ o Ho. by apply not_elem_of_nil in Ho.
Qed.

Lemma ok_step {R} R' cs cs' :
  sys_step errorText wait h HS R' cs cs' → registry_ok h HS cs.2 ∧ client_ok h R cs.1 cs.2 →
  registry_ok h HS cs'.2 ∧ client_ok h (R ∪ R') cs'.1 cs'.2.
Proof.
  intros Hst [Hr Hc]. destruct Hst as [h' q res c s s' Hcalm Hh' Hrun|i res c s c' s' Hrun|d n res c s c' s' Hrun
    |o res c s c' s' Hcalm Hrun|serial res c s c' s' Hrun|h' c s Hne|h' serial c s Hne|h' serial c s Hne|t c s];
    cbn [fst snd] in *; rewrite ?(right_id_L ∅ (∪)).
  - pose proof (serve_handled errorText wait h HS h' q s res s' Hh' Hr Hrun) as Hh.
    split; [by destruct Hh as (? & ? & ? & _)|]. by eapply ok_handled.
  - by eapply ok_GetInode.
  - by eapply ok_Lookup.
  - destruct (run_cop_request o c s res c' s' Hrun) as (q & res' & objs & <- & Hs & ->).
    rewrite (ck_holder _ _ _ _ Hc) in Hs. pose proof (serve_handled errorText wait h HS h q s res' s' h_in Hr Hs) as Hh.
    split; [by destruct Hh as (? & ? & ? & _)|]. apply ok_invalidated. by eapply ok_handled.
  - destruct (ok_handle serial c s res c' s' Hr Hc Hrun) as (? & ? & _). done.
  - apply (ok_other_stream c s); [done..| |done|done]. cbn. by rewrite lookup_insert_ne.
  - unfold srv_Subscribe_next. destruct (sv_streams s !! h') as [[k [|ev evs]]|]; [done| |done].
    destruct (k =? serial)%nat; [|done]. cbn [snd].
    apply (ok_other_stream c s); [done..| |done|done]. cbn. by rewrite lookup_insert_ne.
  - unfold srv_Subscribe_close. destruct (sv_streams s !! h') as [hs|]; [|done].
    destruct (_ =? _)%nat; [|done]. apply (ok_other_stream c s); [done..| |done|done]. cbn. by rewrite lookup_delete_ne.
  - by apply (ok_other_stream c s).
Qed.

Lemma ok_run R cs : sys_run errorText wait h HS R cs → registry_ok h HS cs.2 ∧ client_ok h R cs.1 cs.2.
Proof.
  induction 1 as [db lease recall region now Hl|R R' cs cs' _ IH Hst]; [|by eapply ok_step].
  unfold NewServer. rewrite (proj2 (Z.ltb_lt 0 lease) Hl). cbn [fst snd srv_Subscribe_open]. split.
  - split; [done|done|intros obj h' cb; done|]. cbn. rewrite lookup_insert_eq. by eexists.
  - split; [done| | | |]; cbn.
    + intros obj. rewrite !lookup_empty. intros [[? ?]|[[? ?]|[? ?]]]; done.
    + intros i e _. by rewrite lookup_empty.
    + intros d n ino. rewrite lookup_empty. done.
    + intros d n. rewrite lookup_empty. cbn. set_solver.
Qed.
End clients.

(** ** Cache coherence *)

(** A run: the client caches the root's record, then another holder changes
    the root. *)

Lemma race_db : sv_db race_s1 = Open 1000 1000 0.
Proof.
  unfold race_s1. destruct (cl_GetInode_run race_text race_wait RootInode (NewClient race_h) race_s0)
    as (res & c' & s' & E & Ed & _).
  - split; cbn; [by intros i e ?|by intros d n ino ?|]. intros d n Hn. by apply not_elem_of_empty in Hn.
  - unfold race_get. rewrite E. exact Ed.
Qed.

Lemma race_room : match sv_streams race_s1 !! race_h with Some hs => (length (hs_ch hs) + 4 <=? streamCap)%nat | None => true end = true.
Proof. vm_cast_no_check (eq_refl true). Qed.

Lemma race_calm : calm race_h race_s1.
Proof.
  unfold calm. rewrite race_db. split_and!; [apply built_open|rewrite view_Open; done|].
  intros hs E. pose proof race_room as Hr. rewrite E in Hr. by apply Nat.leb_le.
Qed.

Lemma race_event : match sv_streams race_s2 !! race_h with
  | Some (mkStream 0 (ev :: _)) => bool_decide (ev_Object ev = inodeObj RootInode) | _ => false end = true.
Proof. vm_cast_no_check (eq_refl true). Qed.

Lemma race_events : ∃ evs, sv_streams race_s2 !! race_h = Some (mkStream 0 evs) ∧ evs ≠ [].
Proof.
  pose proof race_event as He. destruct (sv_streams race_s2 !! race_h) as [[[|k] [|ev evs]]|]; try discriminate He.
  by exists (ev :: evs).
Qed.

Section coherence.
Context {bucket : Type → Type} `{BoltLaws bucket}.
Context (errorText : error → bytes) (wait : Z → M (Server bucket) unit).

End coherence.

