(* ===== verification/MdsFuse.v ===== *)
(** pkg/mdsfuse: the mount over a metadata service (mdsfuse.go, write.go,
    nodewrite.go).

    [Mount] is one mounted file system: its client and whatever the client
    talks to, the object store, the names [crypto/rand] will give, and the
    heap of [Node]s and write handles, by address.  A method of a node takes
    the node's address.  What go-fuse supplies is an argument: the caller's
    uid and gid, the child [GetChild] finds, the attributes a [SetAttrIn]
    carries.  A new [Node] is allocated where the code allocates one, and its
    address is returned in place of the [fs.Inode] go-fuse builds around it.
    The errno a method returns is the error [SysErrno]; notifications to the
    kernel and the mount options are left out.  [reader] has the fields of
    pkg/repo's [FileReader] and keeps its cache in the same way. *)
From S2P Require Import Prelude Bolt Chunk Manifest Store Pack MetaDB Coherence RepoUtil Repo RepoRead.
From S2P Require Import MdsServer MdsClient.

(** ** Constants of the platform *)

Definition EINTR : Z := 4.
Definition EIO : Z := 5.
Definition EACCES : Z := 13.
Definition EXDEV : Z := 18.
Definition ENOSPC : Z := 28.
Definition EROFS : Z := 30.
Definition codes_PermissionDenied : Z := 7.

Definition O_WRONLY : Z := 1.
Definition O_RDWR : Z := 2.
Definition O_CREAT : Z := 64.
Definition O_TRUNC : Z := 512.
Definition O_APPEND : Z := 1024.

Definition S_IFMT : Z := 61440.
Definition S_IFIFO : Z := 4096.
Definition S_IFCHR : Z := 8192.
Definition S_IFDIR : Z := 16384.
Definition S_IFBLK : Z := 24576.
Definition S_IFREG : Z := 32768.
Definition S_IFLNK : Z := 40960.
Definition S_IFSOCK : Z := 49152.

(** The errno of pkg/repo's [errno]. *)
Definition errnoZ (e : errno) : Z :=
  match e with RepoUtil.EINVAL => 22 | EFBIG => 27 | EOPNOTSUPP => 95 end.

Definition readerCacheEntries : Z := fileReaderCacheEntries.
Definition statfsBlockSize : Z := 4096.

Record Config := mkConfig {
  cf_ReadOnly : bool; cf_Region : bytes; cf_ChunkSize : Z; cf_ChunkAlignment : Z
}.

Definition regionOf (cfg : Config) : bytes :=
  if bool_decide (cf_Region cfg = []) then str "local" else cf_Region cfg.

(** ** Attributes *)

(** The fields of [fuse.Attr] that are set. *)
Record Attr := mkAttr {
  at_Size : Z; at_Uid : Z; at_Gid : Z;
  at_Mtime : Z; at_Mtimensec : Z; at_Atime : Z; at_Atimensec : Z; at_Ctime : Z; at_Ctimensec : Z;
  at_Mode : Z; at_Nlink : Z; at_Rdev : Z
}.

Definition set_at_Size (n : Z) (a : Attr) : Attr :=
  mkAttr n (at_Uid a) (at_Gid a) (at_Mtime a) (at_Mtimensec a) (at_Atime a) (at_Atimensec a) (at_Ctime a)
    (at_Ctimensec a) (at_Mode a) (at_Nlink a) (at_Rdev a).

(** [t.Unix()] and [t.Nanosecond()]. *)
Definition Unix (t : time) : Z := i64 (t / 1000000000).
Definition Nanosecond (t : time) : Z := t mod 1000000000.

Definition nsecOf (t : time) : Z := if IsZero t then 0 else u32 (Nanosecond t).
Definition unixOrZero (t : time) : Z := if IsZero t then 0 else u64 (Unix t).
Definition nlinkOf (rec : InodeRecord) : Z := u32 (NLink rec).
Definition permBits (mode : Z) (readOnly : bool) : Z :=
  let perm := Z.land mode mode_7777 in if readOnly then Z.ldiff perm 146 else perm.

Definition direntMode (rec : InodeRecord) : Z :=
  if IsDir rec then S_IFDIR else if IsSymlink rec then S_IFLNK
  else if negb (Type_ rec =? 0) then Type_ rec else S_IFREG.

Definition fillAttrMode (rec : InodeRecord) (readOnly : bool) : Attr :=
  let '(mode, nlink) :=
    if IsDir rec then (Z.lor S_IFDIR (permBits (Mode rec) readOnly), nlinkOf rec)
    else if IsSymlink rec then (Z.lor S_IFLNK mode_777, 1)
    else if negb (Type_ rec =? 0) then (Z.lor (Type_ rec) (permBits (Mode rec) readOnly), nlinkOf rec)
    else (Z.lor S_IFREG (permBits (Mode rec) readOnly), nlinkOf rec) in
  mkAttr (Size rec) (Uid rec) (Gid rec)
    (unixOrZero (MTime rec)) (nsecOf (MTime rec)) (unixOrZero (Atime rec)) (nsecOf (Atime rec))
    (unixOrZero (Ctime rec)) (nsecOf (Ctime rec)) mode nlink (Rdev rec).

(** ** Errors *)

(** [status.Code(err)] of a non-nil error. *)
Definition status_Code (err : error) : Z := match err with ErrStatus code _ => code | _ => codes_Unknown end.

Definition errnoFor (errorText : error → bytes) (err : error) : Z :=
  if bool_decide (err = CtxCanceled) || (status_Code err =? codes_Canceled) then EINTR
  else if bool_decide (err = CtxDeadlineExceeded) || (status_Code err =? codes_DeadlineExceeded) then EINTR
  else if bool_decide (err = SysErrno ENOSPC) then ENOSPC
  else if bool_decide (err = SysErrno EDQUOT) then EDQUOT
  else if bool_decide (err = SysErrno EROFS) then EROFS
  else match ErrnoOf errorText err with
  | Some e => e
  | None =>
      let code := status_Code err in
      if code =? codes_NotFound then ENOENT
      else if code =? codes_AlreadyExists then EEXIST
      else if code =? codes_FailedPrecondition then ENOTEMPTY
      else if code =? codes_InvalidArgument then MdsServer.EINVAL
      else if code =? codes_ResourceExhausted then EDQUOT
      else if code =? codes_PermissionDenied then EACCES
      else EIO
  end.

(** ** Write sessions *)

Record writeSession := mkSession {
  se_dir : InodeID; se_name : bytes; se_node : option nat;
  se_mode : Z; se_modeSet : bool; se_uid : Z; se_gid : Z;
  se_buf : bytes; se_dirty : bool; se_closed : bool
}.

Definition set_buf (b : bytes) (dirty : bool) (w : writeSession) : writeSession :=
  mkSession (se_dir w) (se_name w) (se_node w) (se_mode w) (se_modeSet w) (se_uid w) (se_gid w) b dirty (se_closed w).
Definition set_dirty (d : bool) (w : writeSession) : writeSession := set_buf (se_buf w) d w.
Definition set_closed (w : writeSession) : writeSession :=
  mkSession (se_dir w) (se_name w) (se_node w) (se_mode w) (se_modeSet w) (se_uid w) (se_gid w) (se_buf w)
    (se_dirty w) true.
Definition set_se_node (n : nat) (w : writeSession) : writeSession :=
  mkSession (se_dir w) (se_name w) (Some n) (se_mode w) (se_modeSet w) (se_uid w) (se_gid w) (se_buf w)
    (se_dirty w) (se_closed w).

(** [copy(b[off:], p)], for [off] in range. *)
Definition copy_at (off : nat) (p b : bytes) : bytes :=
  take off b ++ take (length b - off) p ++ drop (off + length p) b.

Definition se_writeAt (p : bytes) (off : Z) (w : writeSession) : result (Z * writeSession) :=
  let need := i64 (off + blen p) in
  let buf := if blen (se_buf w) <? need then se_buf w ++ zeros (need - blen (se_buf w)) else se_buf w in
  if (off <? 0) || (blen buf <? off) then Err ErrPanic
  else Ok (blen p, set_buf (copy_at (Z.to_nat off) p buf) true w).

Definition se_allocate (off size mode : Z) (w : writeSession) : result writeSession :=
  match ApplyFallocate (se_buf w) off size mode with
  | FPanic => Err ErrPanic
  | FReturn buf changed err =>
      match err with
      | Some e => Err (SysErrno (errnoZ e))
      | None => Ok (if (changed : bool) then set_buf buf true w else w)
      end
  end.

Definition se_resize (n : Z) (w : writeSession) : writeSession :=
  let cur := blen (se_buf w) in
  set_buf (if n <? cur then take (Z.to_nat n) (se_buf w)
           else if cur <? n then se_buf w ++ zeros (n - cur) else se_buf w) true w.

(** [writeHandle.Read]: the bytes for a destination of [n]. *)
Definition se_read (n : nat) (off : Z) (w : writeSession) : result bytes :=
  let len := blen (se_buf w) in
  if len <=? off then Ok []
  else
    let end_ := i64 (off + Z.of_nat n) in
    let end_ := if len <? end_ then len else end_ in
    if (off <? 0) || (end_ <? off) then Err ErrPanic
    else Ok (slice off (end_ - off) (se_buf w)).

(** ** The mount *)

Record writeHandle := mkHandle { hd_sess : writeSession; hd_node : option nat }.

Record Node := mkNode {
  nd_ino : InodeID; nd_rec : InodeRecord; nd_parent : InodeID; nd_name : bytes; nd_activeWrite : option nat
}.

Definition set_binding (parent : InodeID) (name : bytes) (n : Node) : Node :=
  mkNode (nd_ino n) (nd_rec n) parent name (nd_activeWrite n).
Definition set_activeWrite (h : option nat) (n : Node) : Node :=
  mkNode (nd_ino n) (nd_rec n) (nd_parent n) (nd_name n) h.

(** The parts of a [fuse.SetAttrIn]. *)
Record SetAttrIn := mkSetAttrIn {
  in_mode : option Z; in_uid : option Z; in_gid : option Z; in_mtime : option time; in_atime : option time;
  in_size : option Z
}.

Section mount.
Context {W : Type} {B : Type} `{BackendOps B} {blake3 : Blake3}.

Record Mount := mkMount {
  mt_client : Client;
  mt_world : W;
  mt_backend : B;
  mt_rand : nat → barray 16;
  mt_drawn : nat;
  mt_nodes : gmap nat Node;
  mt_handles : gmap nat writeHandle;
  mt_next : nat
}.

Definition mt_set_client (cw : Client * W) (m : Mount) : Mount :=
  mkMount cw.1 cw.2 (mt_backend m) (mt_rand m) (mt_drawn m) (mt_nodes m) (mt_handles m) (mt_next m).
Definition mt_set_backend (b : B) (m : Mount) : Mount :=
  mkMount (mt_client m) (mt_world m) b (mt_rand m) (mt_drawn m) (mt_nodes m) (mt_handles m) (mt_next m).
Definition mt_set_drawn (n : nat) (m : Mount) : Mount :=
  mkMount (mt_client m) (mt_world m) (mt_backend m) (mt_rand m) n (mt_nodes m) (mt_handles m) (mt_next m).
Definition mt_set_nodes (x : gmap nat Node) (m : Mount) : Mount :=
  mkMount (mt_client m) (mt_world m) (mt_backend m) (mt_rand m) (mt_drawn m) x (mt_handles m) (mt_next m).
Definition mt_set_handles (x : gmap nat writeHandle) (m : Mount) : Mount :=
  mkMount (mt_client m) (mt_world m) (mt_backend m) (mt_rand m) (mt_drawn m) (mt_nodes m) x (mt_next m).
Definition mt_set_next (n : nat) (m : Mount) : Mount :=
  mkMount (mt_client m) (mt_world m) (mt_backend m) (mt_rand m) (mt_drawn m) (mt_nodes m) (mt_handles m) n.

Context (cfg : Config) (errorText : error → bytes).
Context (clock : W → time) (invoke : ∀ q : request, M (Client * W) (response q)).

(** A call on the client, on the backend, a draw of a name. *)
Definition onClient {A} (m : M (Client * W) A) : M Mount A :=
  zoom (λ s, (mt_client s, mt_world s)) mt_set_client m.
Definition mf_draw : M Mount (barray 16) := λ m, (Ok (mt_rand m (mt_drawn m)), mt_set_drawn (S (mt_drawn m)) m).
Definition mf_now : M Mount time := gets (λ m, clock (mt_world m)).

(** Dereference a node or a handle. *)
Definition nodeAt (n : nat) : M Mount Node := λ m,
  match mt_nodes m !! n with Some nd => (Ok nd, m) | None => (Err ErrPanic, m) end.
Definition handleAt (h : nat) : M Mount writeHandle := λ m,
  match mt_handles m !! h with Some hd => (Ok hd, m) | None => (Err ErrPanic, m) end.
Definition putNode (n : nat) (nd : Node) : M Mount unit := modify (λ m, mt_set_nodes (<[n := nd]> (mt_nodes m)) m).
Definition putHandle (h : nat) (hd : writeHandle) : M Mount unit :=
  modify (λ m, mt_set_handles (<[h := hd]> (mt_handles m)) m).
Definition putSession (h : nat) (hd : writeHandle) (w : writeSession) : M Mount unit :=
  putHandle h (mkHandle w (hd_node hd)).

(** [&Node{...}] and [&writeHandle{...}]. *)
Definition newNode (nd : Node) : M Mount nat := λ m,
  (Ok (mt_next m), mt_set_next (S (mt_next m)) (mt_set_nodes (<[mt_next m := nd]> (mt_nodes m)) m)).
Definition newHandle (hd : writeHandle) : M Mount nat := λ m,
  (Ok (mt_next m), mt_set_next (S (mt_next m)) (mt_set_handles (<[mt_next m := hd]> (mt_handles m)) m)).

(** [return errnoFor(err)]. *)
Definition orErrno {A} (m : M Mount A) : M Mount A := λ s,
  match m s with
  | (Err e, s') => (Err (SysErrno (errnoFor errorText e)), s')
  | ok => ok
  end.

(** [if n.cfg.ReadOnly { return syscall.EROFS }]. *)
Definition writable : M Mount unit := if cf_ReadOnly cfg then throw (SysErrno EROFS) else mret tt.

(** *** Reading *)

Definition mf_current (n : nat) : M Mount InodeRecord :=
  nd ← nodeAt n;
  orErrno (onClient (cl_GetInode clock invoke (nd_ino nd))).

Definition fetchManifest (id : barray 32) (b : B) : result Manifest :=
  match b_Get (manifestKey id) 0 (-1) b with
  | Err e => Err e
  | Ok rc => match ReadAll rc with Err e => Err e | Ok data => DecodeBytes data end
  end.

Definition newReader (rec : InodeRecord) : M Mount FileReader := λ m,
  let size := i64 (Size rec) in
  if HasInline rec then (Ok (mkFileReader size true (InlineChunk rec) None [] ∅ []), m)
  else if HasManifest rec then
    match fetchManifest (ManifestID rec) (mt_backend m) with
    | Err e => (Err e, m)
    | Ok mf => (Ok (mkFileReader size false zeroID (Some mf) (entry_offsets 0 (m_Entries mf)) ∅ []), m)
    end
  else (Ok (mkFileReader size false zeroID None [] ∅ []), m).

(** The reader's state beside the mount's. *)
Definition onMount {A} (m : M Mount A) : M (FileReader * Mount) A := zoom snd (λ s '(fr, _), (fr, s)) m.

Definition mf_chunkBytes (id : ID) : M (FileReader * Mount) bytes := λ '(fr, s),
  match fr_cache fr !! id with
  | Some b => (Ok b, (fr, s))
  | None =>
      (loc ← onMount (onClient (cl_GetLocator invoke id));
       match (loc : option Locator) with
       | None => throw RepoErrNoLocator
       | Some loc =>
           if l_Length loc <? 0 then throw ErrPanic
           else
             buf ← (λ '(fr, s), (FetchInto id loc (Z.to_nat (l_Length loc)) (mt_backend s), (fr, s)));
             modify (λ '(fr, s), (fr_store id buf fr, s)) ≫= λ _,
             mret (buf : bytes)
       end) (fr, s)
  end.

(** The loop of [ReadAt]: [got] are the bytes in the buffer so far, [n] its
    length.  An iteration that copies nothing ends it. *)
Fixpoint mf_read_loop (fuel : nat) (mf : Manifest) (n : nat) (got : bytes) (off : Z) : M (FileReader * Mount) bytes :=
  match fuel with
  | O => throw ErrOutOfFuel
  | S fuel' => λ '(fr, s),
      if (length got <? n)%nat && (off <? fr_size fr) then
        let idx := findEntry mf (fr_offsets fr) off in
        match m_Entries mf !! idx, fr_offsets fr !! idx with
        | Some entry, Some o =>
            (data ← mf_chunkBytes (e_ChunkID entry);
             let localOff := i64 (off - o) in
             if (localOff <? 0) || (blen data <? localOff) then throw ErrPanic
             else
               let part := take (n - length got) (drop (Z.to_nat localOff) data) in
               if (length part =? 0)%nat then mret got
               else mf_read_loop fuel' mf n (got ++ part) (i64 (off + blen part))) (fr, s)
        | _, _ => (Ok got, (fr, s))
        end
      else (Ok got, (fr, s))
  end.

(** [reader.ReadAt] with a buffer of [n] bytes: the bytes it put there.  The
    count that accompanies another error than [EOF] is not used by any caller;
    with [EOF] it is zero. *)
Definition mf_ReadAt (n : nat) (off : Z) : M (FileReader * Mount) bytes := λ '(fr, s),
  if off <? 0 then (Err RepoErrNegativeOffset, (fr, s))
  else if fr_size fr <=? off then (Err EOF, (fr, s))
  else if fr_hasInline fr then
    (data ← mf_chunkBytes (fr_inline fr);
     if blen data <=? off then throw EOF else mret (take n (drop (Z.to_nat off) data))) (fr, s)
  else
    match fr_m fr with
    | None => (Err EOF, (fr, s))
    | Some mf =>
        (got ← mf_read_loop (S n) mf n [] off;
         if (length got =? 0)%nat then throw EOF else mret (got : bytes)) (fr, s)
    end.

(** [fileHandle.Read]. *)
Definition fh_Read (n : nat) (off : Z) : M (FileReader * Mount) bytes := λ st,
  match mf_ReadAt n off st with
  | (Err e, st') => if bool_decide (e = EOF) then (Ok [], st') else (Err (SysErrno (errnoFor errorText e)), st')
  | ok => ok
  end.

(** The whole content through a reader, into a buffer of the record's size:
    what is not read stays zero. *)
Definition readInto (rec : InodeRecord) (rd : FileReader) : M Mount bytes := λ m,
  match mf_ReadAt (Z.to_nat (Size rec)) 0 (rd, m) with
  | (Ok data, (_, m')) => (Ok (data ++ zeros (Size rec - blen data)), m')
  | (Err e, (_, m')) => (Err e, m')
  end.

Definition mf_slurp (rec : InodeRecord) : M Mount bytes :=
  rd ← newReader rec;
  if 0 <? Size rec then readInto rec rd else mret [].

(** *** Storing and committing *)

Definition mf_putManifest (mf : Manifest) : M Mount (barray 32) :=
  zoom mt_backend mt_set_backend
    (b_Put (manifestKey (Manifest_ID mf)) (EncodeBytes mf) (mkPutOpts false)) ≫= λ _,
  mret (Manifest_ID mf).

(** The packer takes a chunk the region does not have. *)
Definition packMissing (st : Packer * Z) (c : Chunk) : M Mount (Packer * Z) :=
  have ← onClient (cl_HasLocator invoke (c_ID c));
  if (have : bool) then mret st else mret (Add c st.1, st.2 + 1).

(** [packer.Seal]; the name is drawn only when there is something to seal. *)
Definition sealWith (p : Packer) (rnd : barray 16) : M Mount (gmap ID Locator) := λ m,
  match Seal rnd (mt_backend m, p) with (res, (b, _)) => (res, mt_set_backend b m) end.

Definition sealAndRegister (p : Packer) : M Mount unit :=
  locs ← (if Empty p then mret ∅ else mf_draw ≫= sealWith p);
  each (λ '(id, loc), onClient (cl_PutLocator invoke id loc)) (map_to_list locs).

(** The loop of [storeContent], and the container of what it packed. *)
Definition storeMissing (packer : Packer) (chunks : list Chunk) : M Mount unit :=
  packed ← fold_m packMissing (packer, 0) chunks;
  if 0 <? packed.2 then sealAndRegister packed.1 else mret tt.

Definition mf_storeContent (data : bytes) : M Mount contentRef :=
  if blen data =? 0 then mret empty_content
  else
    let chunkSize := if cf_ChunkSize cfg <=? 0 then DefaultSize else cf_ChunkSize cfg in
    chunks ← of_result (SplitBytes data chunkSize);
    let packer := NewPacker (regionOf cfg) 0 in
    let packer := if 0 <? cf_ChunkAlignment cfg then SetAlignment (cf_ChunkAlignment cfg) packer else packer in
    storeMissing packer chunks ≫= λ _,
    match (chunks : list Chunk) with
    | [c] => mret (mkContentRef (u64 (blen data)) true (c_ID c) false zeroID)
    | _ => mid ← mf_putManifest (New chunks chunkSize);
           mret (mkContentRef (u64 (blen data)) false zeroID true mid)
    end.

(** [writeSession.target] and [detached]. *)
Definition se_target (w : writeSession) : M Mount (InodeID * bytes) :=
  match se_node w with
  | None => mret (se_dir w, se_name w)
  | Some n => nd ← nodeAt n;
              mret (if bool_decide (nd_name nd = []) then (se_dir w, se_name w) else (nd_parent nd, nd_name nd))
  end.

(** The inode to commit to when the name no longer leads to it. *)
Definition se_detached (w : writeSession) (dir : InodeID) (name : bytes) : M Mount (option InodeID) :=
  match se_node w with
  | None => mret None
  | Some n =>
      nd ← nodeAt n;
      if bool_decide (nd_ino nd = zero_inode) then mret None
      else
        res ← attempt (onClient (cl_LookupUncached invoke dir name));
        match res with
        | Err _ => mret None
        | Ok (found, id, _) =>
            mret (if negb found || negb (bool_decide (id = nd_ino nd)) then Some (nd_ino nd) else None)
        end
  end.

(** [writeSession.commit]: on success the session is clean, otherwise still
    dirty. *)
Definition se_commit (w : writeSession) : M Mount unit :=
  if negb (se_dirty w) then mret tt
  else
    ref ← mf_storeContent (se_buf w);
    now ← mf_now;
    let mode := if se_modeSet w then Z.land (se_mode w) mode_7777 else 420 in
    let rec := apply ref (file_record mode (se_uid w) (se_gid w) now) in
    target ← se_target w;
    det ← se_detached w target.1 target.2;
    match (det : option InodeID) with
    | Some id => onClient (cl_CommitDetached clock invoke id rec) ≫= λ _, mret tt
    | None => onClient (cl_Commit clock invoke target.1 target.2 rec) ≫= λ _, mret tt
    end.

(** Commit the session of a handle. *)
Definition hd_commit (h : nat) : M Mount unit :=
  hd ← handleAt h;
  se_commit (hd_sess hd) ≫= λ _,
  putSession h hd (set_dirty false (hd_sess hd)).

(** *** Methods of a write handle *)

Definition wr_Allocate (h : nat) (off size mode : Z) : M Mount unit :=
  hd ← handleAt h;
  w ← of_result (se_allocate off size mode (hd_sess hd));
  putSession h hd w.

Definition wr_Fsync (h : nat) : M Mount unit := orErrno (hd_commit h).

Definition wr_Write (h : nat) (data : bytes) (off : Z) : M Mount Z :=
  hd ← handleAt h;
  r ← of_result (se_writeAt data off (hd_sess hd));
  putSession h hd r.2 ≫= λ _,
  mret (u32 r.1).

Definition wr_Read (h : nat) (n : nat) (off : Z) : M Mount bytes :=
  hd ← handleAt h;
  of_result (se_read n off (hd_sess hd)).

Definition wr_Flush (h : nat) : M Mount unit := orErrno (hd_commit h).

Definition clearActiveWrite (n h : nat) : M Mount unit :=
  nd ← nodeAt n;
  if bool_decide (nd_activeWrite nd = Some h) then putNode n (set_activeWrite None nd) else mret tt.

Definition wr_Release (h : nat) : M Mount unit :=
  res ← attempt (hd_commit h);
  hd ← handleAt h;
  putSession h hd (set_closed (hd_sess hd)) ≫= λ _,
  match hd_node hd with Some n => clearActiveWrite n h | None => mret tt end ≫= λ _,
  match res with Ok _ => mret tt | Err e => throw (SysErrno (errnoFor errorText e)) end.

Definition wr_size (h : nat) : M Mount Z := hd ← handleAt h; mret (u64 (blen (se_buf (hd_sess hd)))).

(** *** Methods of a node *)

Definition mf_Getattr (n : nat) : M Mount Attr :=
  rec ← mf_current n;
  nd ← nodeAt n;
  let attr := fillAttrMode rec (cf_ReadOnly cfg) in
  match nd_activeWrite nd with
  | None => mret attr
  | Some h => size ← wr_size h; mret (set_at_Size size attr)
  end.

Definition mf_Lookup (n : nat) (name : bytes) : M Mount (nat * Attr) :=
  nd ← nodeAt n;
  if MaxNameLen <? blen name then throw (SysErrno ENAMETOOLONG)
  else
    resp ← orErrno (onClient (cl_Lookup clock invoke (nd_ino nd) name));
    if negb (lr_Found resp) then throw (SysErrno ENOENT)
    else
      child ← newNode (mkNode (lr_Inode resp) (lr_Record resp) (nd_ino nd) name None);
      mret (child, fillAttrMode (lr_Record resp) (cf_ReadOnly cfg)).

(** An entry of a directory stream. *)
Definition mf_direntry (e : DirEntry) : M Mount (bytes * InodeID * Z) :=
  rec ← onClient (cl_GetInode clock invoke (de_Inode e));
  mret (de_Name e, de_Inode e, direntMode rec).

Fixpoint mf_direntries (es : list DirEntry) : M Mount (list (bytes * InodeID * Z)) :=
  match es with
  | [] => mret []
  | e :: es' => x ← mf_direntry e; xs ← mf_direntries es'; mret (x :: xs)
  end.

Definition mf_Readdir (n : nat) : M Mount (list (bytes * InodeID * Z)) :=
  nd ← nodeAt n;
  entries ← orErrno (onClient (cl_Readdir invoke (nd_ino nd)));
  orErrno (mf_direntries entries).

Definition mf_Readlink (n : nat) : M Mount bytes :=
  rec ← mf_current n;
  if negb (IsSymlink rec) then throw (SysErrno MdsServer.EINVAL) else mret (SymlinkTarget rec).

Definition mf_openForWrite (n : nat) (truncate : bool) : M Mount nat :=
  nd ← nodeAt n;
  if bool_decide (nd_name nd = []) then throw (SysErrno MdsServer.EINVAL)
  else
    let sess := mkSession (nd_parent nd) (nd_name nd) (Some n) 0 false 0 0 [] false false in
    sess ← (if truncate then mret (set_dirty true sess)
            else
              rec ← mf_current n;
              if 0 <? Size rec then cur ← orErrno (mf_slurp rec); mret (set_buf cur false sess)
              else mret sess);
    h ← newHandle (mkHandle sess (Some n));
    nd ← nodeAt n;
    putNode n (set_activeWrite (Some h) nd) ≫= λ _,
    mret h.

(** [Open]: a write handle, or a reader. *)
Definition mf_Open (n : nat) (flags : Z) : M Mount (nat + FileReader) :=
  let wantsWrite := negb (Z.land flags (Z.lor O_WRONLY (Z.lor O_RDWR (Z.lor O_APPEND (Z.lor O_CREAT O_TRUNC)))) =? 0) in
  if wantsWrite then
    writable ≫= λ _,
    h ← mf_openForWrite n (negb (Z.land flags O_TRUNC =? 0));
    mret (inl h)
  else
    rec ← mf_current n;
    rd ← orErrno (newReader rec);
    mret (inr rd).

Definition mf_Create (n : nat) (name : bytes) (mode uid gid : Z) : M Mount (nat * nat * Attr) :=
  writable ≫= λ _,
  nd ← nodeAt n;
  h ← newHandle (mkHandle (mkSession (nd_ino nd) name None mode true uid gid [] true false) None);
  orErrno (hd_commit h) ≫= λ _,
  resp ← orErrno (onClient (cl_Lookup clock invoke (nd_ino nd) name));
  if negb (lr_Found resp) then throw (SysErrno EIO)
  else
    child ← newNode (mkNode (lr_Inode resp) (lr_Record resp) (nd_ino nd) name (Some h));
    hd ← handleAt h;
    putHandle h (mkHandle (set_se_node child (hd_sess hd)) (Some child)) ≫= λ _,
    mret (child, h, fillAttrMode (lr_Record resp) (cf_ReadOnly cfg)).

Definition mf_Unlink (n : nat) (name : bytes) : M Mount unit :=
  writable ≫= λ _,
  nd ← nodeAt n;
  orErrno (onClient (cl_Unlink clock invoke (nd_ino nd) name)).

(** A node for an inode just created; [onErr] maps the failure to read it. *)
Definition adopt (onErr : M Mount InodeRecord → M Mount InodeRecord) (nd : Node) (name : bytes) (id : InodeID) :
    M Mount (nat * Attr) :=
  rec ← onErr (onClient (cl_GetInode clock invoke id));
  child ← newNode (mkNode id rec (nd_ino nd) name None);
  mret (child, fillAttrMode rec (cf_ReadOnly cfg)).

Definition orEIO {A} (m : M Mount A) : M Mount A := λ s,
  match m s with (Err _, s') => (Err (SysErrno EIO), s') | ok => ok end.

Definition mf_Mkdir (n : nat) (name : bytes) (mode uid gid : Z) : M Mount (nat * Attr) :=
  writable ≫= λ _,
  nd ← nodeAt n;
  id ← orErrno (onClient (cl_Mkdir clock invoke (nd_ino nd) name mode uid gid));
  adopt orErrno nd name id.

Definition mf_Rmdir (n : nat) (name : bytes) : M Mount unit :=
  writable ≫= λ _,
  nd ← nodeAt n;
  orErrno (onClient (cl_Rmdir clock invoke (nd_ino nd) name)).

(** [rebind]; a child that is no [Node] of this package is [None]. *)
Definition rebind (child : option nat) (newParent : InodeID) (newName : bytes) : M Mount unit :=
  match child with
  | None => mret tt
  | Some c => nd ← nodeAt c; putNode c (set_binding newParent newName nd)
  end.

(** [child] is what [n.GetChild(name)] finds, [newParent] the target directory
    when it is a [Node]. *)
Definition mf_Rename (n : nat) (name : bytes) (child newParent : option nat) (newName : bytes) (flags : Z) :
    M Mount unit :=
  writable ≫= λ _,
  nd ← nodeAt n;
  if negb (flags =? 0) then throw (SysErrno MdsServer.EINVAL)
  else
    match newParent with
    | None => throw (SysErrno EXDEV)
    | Some d =>
        dst ← nodeAt d;
        orErrno (onClient (cl_Rename clock invoke (nd_ino nd) name (nd_ino dst) newName)) ≫= λ _,
        rebind child (nd_ino dst) newName
    end.

(** What [Statfs] reports: block size, blocks, free blocks, files, free files
    and the longest name. *)
Definition mf_Statfs : M Mount (Z * Z * Z * Z * Z * Z) :=
  resp ← orErrno (onClient (cl_Statfs invoke));
  let info := StatfsInfoFrom (sf_BytesLimit resp) (sf_InodesLimit resp) (MdsServer.sf_BytesUsed resp) (sf_InodesUsed resp) in
  mret (statfsBlockSize, sf_Total info / statfsBlockSize, Free info / statfsBlockSize, sf_Files info,
        FilesFree info, 255).

Definition mf_Mknod (n : nat) (name : bytes) (mode rdev uid gid : Z) : M Mount (nat * Attr) :=
  writable ≫= λ _,
  nd ← nodeAt n;
  let typ := Z.land mode S_IFMT in
  if negb ((typ =? S_IFIFO) || (typ =? S_IFSOCK) || (typ =? S_IFCHR) || (typ =? S_IFBLK))
  then throw (SysErrno MdsServer.EINVAL)
  else
    id ← orErrno (onClient (cl_Mknod clock invoke (nd_ino nd) name typ rdev (Z.land mode mode_7777) uid gid));
    adopt orEIO nd name id.

Definition mf_Link (n : nat) (target : option nat) (name : bytes) : M Mount (nat * Attr) :=
  writable ≫= λ _,
  nd ← nodeAt n;
  match target with
  | None => throw (SysErrno EXDEV)
  | Some t =>
      tn ← nodeAt t;
      rec ← orErrno (onClient (cl_Link clock invoke (nd_ino nd) name (nd_ino tn)));
      mret (t, fillAttrMode rec (cf_ReadOnly cfg))
  end.

Definition mf_Symlink (n : nat) (target name : bytes) (uid gid : Z) : M Mount (nat * Attr) :=
  writable ≫= λ _,
  nd ← nodeAt n;
  id ← orErrno (onClient (cl_Symlink clock invoke (nd_ino nd) name target uid gid));
  adopt orEIO nd name id.

(** [Setattr], truncation: the open session, or a session made for it. *)
Definition mf_truncate (n : nat) (size : Z) : M Mount unit :=
  nd ← nodeAt n;
  match nd_activeWrite nd with
  | Some h =>
      hd ← handleAt h;
      putSession h hd (se_resize (i64 size) (hd_sess hd)) ≫= λ _,
      orErrno (hd_commit h)
  | None =>
      rec ← mf_current n;
      if bool_decide (nd_name nd = []) then throw (SysErrno MdsServer.EINVAL)
      else
        cur ← orErrno (mf_slurp rec);
        orErrno (se_commit (se_resize (i64 size)
          (mkSession (nd_parent nd) (nd_name nd) None 0 false 0 0 cur false false)))
  end.

Definition mf_Setattr (n : nat) (x : SetAttrIn) : M Mount Attr :=
  writable ≫= λ _,
  nd ← nodeAt n;
  let mut := mkMut (in_mode x) (in_uid x) (in_gid x) (in_mtime x) (in_atime x) in
  let changes := bool_decide (is_Some (in_mode x)) || bool_decide (is_Some (in_uid x)) || bool_decide (is_Some (in_gid x))
                 || bool_decide (is_Some (in_mtime x)) || bool_decide (is_Some (in_atime x)) in
  attr ← (if changes then rec ← orErrno (onClient (cl_SetAttr clock invoke (nd_ino nd) mut));
                          mret (Some (fillAttrMode rec (cf_ReadOnly cfg)))
          else mret None);
  match in_size x with
  | None =>
      match (attr : option Attr) with
      | Some a => mret a
      | None => rec ← mf_current n; mret (fillAttrMode rec (cf_ReadOnly cfg))
      end
  | Some size =>
      if MaxFileSize <? size then throw (SysErrno (errnoZ EFBIG))
      else
        mf_truncate n size ≫= λ _,
        rec ← mf_current n;
        mret (fillAttrMode rec (cf_ReadOnly cfg))
  end.

End mount.

Arguments Mount : clear implicits.
