(* ===== verification/MdsFuseThm.v ===== *)
(** pkg/mdsfuse: what a process sees through the mount.

    A write session behaves like a file; errors of the authority come out as
    the errno a local file system gives; a read-only mount refuses every
    change; a rename takes an open file along; what is flushed is what any
    mount then reads, and a file unlinked while open is not brought back.
    [mount_repo] is the repository a mount and its authority form together,
    so that the theorems on pkg/repo's storage apply. *)
From S2P Require Import Prelude Bolt Chunk Manifest Store Pack MetaDB Coherence RepoUtil Repo.
From S2P Require Import MetaSpec MetaRefine MetaTree MetaInv MetaThm RepoRead RepoStore RepoThm RepoCoh.
From S2P Require Import MdsServer MdsClient MdsThm MdsCoh MdsFuse.

(** ** Statements *)

(** The byte a position of a file has after [p] was written at [off]. *)
Definition written_byte (buf p : bytes) (off i : Z) : option byte :=
  if (off <=? i) && (i <? off + blen p) then byte_at (i - off) p
  else if i <? blen buf then byte_at i buf
  else if (0 <=? i) && (i <? off) then Some x00 else None.

(** ... and after it was cut or extended to [n] bytes. *)
Definition resized_byte (buf : bytes) (n i : Z) : option byte :=
  if i <? n then (if i <? blen buf then byte_at i buf else if 0 <=? i then Some x00 else None) else None.

(** The changes a mount can be asked for. *)
Inductive mop :=
  | MCreate (name : bytes) (mode uid gid : Z)
  | MUnlink (name : bytes)
  | MMkdir (name : bytes) (mode uid gid : Z)
  | MRmdir (name : bytes)
  | MRename (name : bytes) (child newParent : option nat) (newName : bytes) (flags : Z)
  | MMknod (name : bytes) (mode rdev uid gid : Z)
  | MLink (target : option nat) (name : bytes)
  | MSymlink (target name : bytes) (uid gid : Z)
  | MSetattr (x : SetAttrIn)
  | MOpenWrite (flags : Z).

Section statements.
Context {W : Type} {B : Type} `{BackendOps B} {blake3 : Blake3}.
Context (cfg : Config) (errorText : error → bytes).
Context (clock : W → time) (invoke : ∀ q : request, M (Client * W) (response q)).

Definition run_mop (n : nat) (o : mop) : M (Mount W B) unit :=
  match o with
  | MCreate name mode uid gid => mf_Create cfg errorText clock invoke n name mode uid gid ≫= λ _, mret tt
  | MUnlink name => mf_Unlink cfg errorText clock invoke n name
  | MMkdir name mode uid gid => mf_Mkdir cfg errorText clock invoke n name mode uid gid ≫= λ _, mret tt
  | MRmdir name => mf_Rmdir cfg errorText clock invoke n name
  | MRename name child np nn flags => mf_Rename cfg errorText clock invoke n name child np nn flags
  | MMknod name mode rdev uid gid => mf_Mknod cfg errorText clock invoke n name mode rdev uid gid ≫= λ _, mret tt
  | MLink t name => mf_Link cfg errorText clock invoke n t name ≫= λ _, mret tt
  | MSymlink t name uid gid => mf_Symlink cfg errorText clock invoke n t name uid gid ≫= λ _, mret tt
  | MSetattr x => mf_Setattr cfg errorText clock invoke n x ≫= λ _, mret tt
  | MOpenWrite flags => mf_Open cfg errorText clock invoke n (Z.lor O_WRONLY flags) ≫= λ _, mret tt
  end.
End statements.

(** The repository formed by a mount, its authority and the object store. *)
Section repository.
Context {bucket : Type → Type} {B : Type}.

Definition chunkSizeOf (cfg : Config) : Z := if cf_ChunkSize cfg <=? 0 then DefaultSize else cf_ChunkSize cfg.

Definition mount_repo (cfg : Config) (p : Packer) (m : Mount (Server bucket) B) : Repo bucket B unit unit :=
  mkRepo (sv_db (mt_world m)) (mt_backend m) (sv_region (mt_world m)) [] None (chunkSizeOf cfg) p 0 NewOpenHandles
    (mt_rand m) (mt_drawn m) [].

(** An empty packer. *)
Definition idle (cfg : Config) : Packer := NewPacker (regionOf cfg) 0.

Definition set_world_db (d : DB bucket) (m : Mount (Server bucket) B) : Mount (Server bucket) B :=
  mt_set_client (mt_client m, sv_set_db d (mt_world m)) m.
End repository.
Abbreviation repo_of cfg m := (mount_repo cfg (idle cfg) m).

(** Only the store behind the authority, the object store and the names
    drawn differ. *)
Definition only_stored {bucket B} (m m' : Mount (Server bucket) B) : Prop :=
  mt_nodes m' = mt_nodes m ∧ mt_handles m' = mt_handles m ∧ mt_client m' = mt_client m ∧
  (∃ d, mt_world m' = sv_set_db d (mt_world m)) ∧ (mt_drawn m <= mt_drawn m')%nat.

(** The name a session commits under. *)
Definition session_target {W B} (m : Mount W B) (w : writeSession) : InodeID * bytes :=
  match n ← se_node w; mt_nodes m !! n with
  | Some nd => if bool_decide (nd_name nd = []) then (se_dir w, se_name w) else (nd_parent nd, nd_name nd)
  | None => (se_dir w, se_name w)
  end.

(** The inode of the session, when its name no longer leads to it. *)
Definition detached_from {bucket B} `{BoltOps bucket} (m : Mount (Server bucket) B) (w : writeSession) : option InodeID :=
  nd ← (n ← se_node w; mt_nodes m !! n);
  if bool_decide (nd_ino nd = zero_inode) then None
  else
    let db := sv_db (mt_world m) in
    match lookupTx (session_target m w).1 (session_target m w).2 db with
    | Err _ => Some (nd_ino nd)
    | Ok id => match getInodeTx id db with
               | Err _ => None
               | Ok _ => if bool_decide (id = nd_ino nd) then None else Some (nd_ino nd)
               end
    end.

(** The configuration of a server. *)
Definition same_server {bucket} (s s' : Server bucket) : Prop := sv_posix s' = sv_posix s ∧ sv_region s' = sv_region s.

(** Nobody changes the store while a handler of a posix authority waits for
    its recalls. *)
Definition waits_quietly {bucket} (wait : Z → M (Server bucket) unit) (s : Server bucket) : Prop :=
  sv_posix s = true → ∀ id s1, sv_db (wait id s1).2 = sv_db s1 ∧ same_server s1 (wait id s1).2.

(** A connection on which any request but a lookup may fail, before it
    reaches the authority or after the handler has run. *)
Record lossy {bucket} `{BoltOps bucket} (errorText : error → bytes) (wait : Z → M (Server bucket) unit)
    (invoke : ∀ q : request, M (Client * Server bucket) (response q)) : Prop := mkLossy {
  lo_call q cs : invoke q cs = direct errorText wait q cs ∨ ∃ e, invoke q cs = (Err e, cs) ∨
    invoke q cs = (Err e, (direct errorText wait q cs).2);
  lo_lookup d n cs : invoke (QLookup d n) cs = direct errorText wait (QLookup d n) cs
}.

(** A mount whose storage is in order. *)
Record mount_ok {bucket B} `{BoltOps bucket} `{BackendOps B} {blake3 : Blake3} (cfg : Config)
    (wait : Z → M (Server bucket) unit) (K : bytes → Prop) (N : nat)
    (m : Mount (Server bucket) B) : Prop := mkMountOk {
  mo_region : regionOf cfg = sv_region (mt_world m);
  mo_wait : waits_quietly wait (mt_world m);
  mo_inv : repo_inv K N (repo_of cfg m);
  mo_drawn : (mt_drawn m <= N)%nat
}.

(** Nothing differs but the client's caches and the authority. *)
Definition only_called {bucket B} (m m' : Mount (Server bucket) B) : Prop :=
  mt_nodes m' = mt_nodes m ∧ mt_handles m' = mt_handles m ∧ mt_backend m' = mt_backend m ∧ mt_rand m' = mt_rand m ∧
  mt_drawn m' = mt_drawn m ∧ same_server (mt_world m) (mt_world m').

(** ** A session is a file *)

Lemma byte_at_app_l (a b : bytes) i : i < blen a → byte_at i (a ++ b) = byte_at i a.
Proof. intros Hi. unfold byte_at. destruct (i <? 0) eqn:E; [done|]. apply lookup_app_l. unfold blen in Hi. apply Z.ltb_ge in E. lia. Qed.

Lemma byte_at_app_r (a b : bytes) i : blen a <= i → byte_at i (a ++ b) = byte_at (i - blen a) b.
Proof.
  intros Hi. unfold byte_at, blen in *. rewrite (proj2 (Z.ltb_ge i 0)), (proj2 (Z.ltb_ge (i - _) 0)) by lia.
  rewrite lookup_app_r by lia. f_equal. lia.
Qed.

Lemma byte_at_out (a : bytes) i : blen a <= i → byte_at i a = None.
Proof. intros Hi. unfold byte_at, blen in *. destruct (i <? 0); [done|]. apply lookup_ge_None. lia. Qed.

Lemma byte_at_neg (a : bytes) i : i < 0 → byte_at i a = None.
Proof. intros Hi. unfold byte_at. by rewrite (proj2 (Z.ltb_lt i 0)). Qed.

Lemma zeros_at n i : byte_at i (zeros n) = if (0 <=? i) && (i <? n) then Some x00 else None.
Proof.
  unfold byte_at, zeros. destruct (Z.ltb_spec i 0), (Z.leb_spec 0 i); try lia; cbn; [done|].
  destruct (Z.ltb_spec i n).
  - apply lookup_replicate_2. lia.
  - apply lookup_ge_None. rewrite length_replicate. lia.
Qed.

Lemma taken_at (a : bytes) n i : 0 <= n → byte_at i (take (Z.to_nat n) a) = if i <? n then byte_at i a else None.
Proof.
  intros Hn. unfold byte_at. destruct (Z.ltb_spec i 0); [by destruct (i <? n)|]. destruct (Z.ltb_spec i n).
  - apply lookup_take_lt. lia.
  - apply lookup_take_ge. lia.
Qed.

Lemma dropped_at (a : bytes) n i : 0 <= n → 0 <= i → byte_at i (drop (Z.to_nat n) a) = byte_at (n + i) a.
Proof.
  intros Hn Hi. unfold byte_at. rewrite (proj2 (Z.ltb_ge i 0)), (proj2 (Z.ltb_ge (n + i) 0)) by lia.
  rewrite lookup_drop. f_equal. lia.
Qed.

(** The buffer as it is before the bytes are copied in. *)
Lemma grown_byte (buf : bytes) need i :
  byte_at i (if blen buf <? need then buf ++ zeros (need - blen buf) else buf)
  = if i <? blen buf then byte_at i buf else if (0 <=? i) && (i <? need) then Some x00 else None.
Proof.
  destruct (Z.ltb_spec (blen buf) need).
  - destruct (Z.ltb_spec i (blen buf)); [by apply byte_at_app_l|]. rewrite byte_at_app_r by done.
    rewrite zeros_at. pose proof (blen_nonneg buf).
    destruct (Z.leb_spec 0 (i - blen buf)), (Z.leb_spec 0 i), (Z.ltb_spec (i - blen buf) (need - blen buf)),
      (Z.ltb_spec i need); cbn; try lia; done.
  - destruct (Z.ltb_spec i (blen buf)); [done|]. rewrite byte_at_out by done.
    destruct (Z.ltb_spec i need); [lia|]. by rewrite andb_false_r.
Qed.

Lemma grown_length (buf : bytes) need :
  blen (if blen buf <? need then buf ++ zeros (need - blen buf) else buf) = Z.max (blen buf) need.
Proof.
  destruct (Z.ltb_spec (blen buf) need); [|lia]. rewrite blen_app. unfold blen, zeros in *. rewrite length_replicate. lia.
Qed.

Lemma copy_at_length off p (b : bytes) : (off + length p <= length b)%nat → length (copy_at off p b) = length b.
Proof. intros Hl. unfold copy_at. rewrite !length_app, !length_take, length_drop. lia. Qed.

Lemma copy_at_byte off p (b : bytes) i :
  0 <= off → off + blen p <= blen b →
  byte_at i (copy_at (Z.to_nat off) p b) = if (off <=? i) && (i <? off + blen p) then byte_at (i - off) p else byte_at i b.
Proof.
  intros Ho Hl. pose proof (blen_nonneg p). unfold copy_at. rewrite (take_ge p) by (unfold blen in Hl; lia).
  assert (blen (take (Z.to_nat off) b) = off) as Et by (unfold blen in *; rewrite length_take; lia).
  destruct (Z.leb_spec off i); cbn [andb].
  - rewrite byte_at_app_r by lia. rewrite Et. destruct (Z.ltb_spec i (off + blen p)).
    + apply byte_at_app_l. lia.
    + rewrite byte_at_app_r by lia.
      replace (Z.to_nat off + length p)%nat with (Z.to_nat (off + blen p)) by (unfold blen; lia).
      rewrite dropped_at by lia. f_equal. lia.
  - rewrite byte_at_app_l by lia. rewrite taken_at by done. by rewrite (proj2 (Z.ltb_lt _ _)).
Qed.

(** A write session behaves like a file.  A write succeeds whole and
    changes exactly the bytes of its range, the file growing with zeros when
    the range lies beyond its end; a truncation keeps what is before the new
    end and fills with zeros; a read returns the bytes of its range and stops
    at the end.  So what was written is read back before it is committed. *)
Theorem session_is_a_file (w : writeSession) :
  (∀ p off, 0 <= off → off + blen p < 2 ^ 63 →
     ∃ w', se_writeAt p off w = Ok (blen p, w') ∧ se_dirty w' = true ∧
       blen (se_buf w') = Z.max (blen (se_buf w)) (off + blen p) ∧
       ∀ i, byte_at i (se_buf w') = written_byte (se_buf w) p off i) ∧
  (∀ n, 0 <= n → blen (se_buf (se_resize n w)) = n ∧ se_dirty (se_resize n w) = true ∧
     ∀ i, byte_at i (se_buf (se_resize n w)) = resized_byte (se_buf w) n i) ∧
  (∀ n off, 0 <= off → off + Z.of_nat n < 2 ^ 63 → se_read n off w = Ok (slice off (Z.of_nat n) (se_buf w))).
Proof.
  split_and!.
  - intros p off Ho Hlt. pose proof (blen_nonneg p) as Hp. unfold se_writeAt. rewrite i64_id by (unfold in_i64; lia).
    set (buf := if blen (se_buf w) <? off + blen p then se_buf w ++ zeros (off + blen p - blen (se_buf w)) else se_buf w).
    pose proof (grown_length (se_buf w) (off + blen p)) as Hlen. fold buf in Hlen.
    rewrite (proj2 (Z.ltb_ge off 0)), (proj2 (Z.ltb_ge (blen buf) off)) by lia. cbn [orb].
    eexists. split; [done|]. split; [done|]. cbn [se_buf set_buf]. split.
    + rewrite <- Hlen. unfold blen. rewrite copy_at_length; [done|]. unfold blen in *. lia.
    + intros i. rewrite copy_at_byte by lia. unfold written_byte, buf. rewrite grown_byte.
      destruct (Z.leb_spec off i), (Z.ltb_spec i (off + blen p)), (Z.ltb_spec i (blen (se_buf w))), (Z.leb_spec 0 i),
        (Z.ltb_spec i off); cbn; try lia; done.
  - intros n Hn. unfold se_resize. cbn [se_buf set_buf se_dirty]. unfold resized_byte.
    destruct (Z.ltb_spec n (blen (se_buf w))) as [Hlt|Hge].
    + split_and!; [unfold blen in *; rewrite length_take; lia|done|]. intros i. rewrite taken_at by done.
      destruct (Z.ltb_spec i n); [|done]. by rewrite (proj2 (Z.ltb_lt _ _)) by lia.
    + pose proof (grown_length (se_buf w) n) as Hl. split_and!; [lia|done|]. intros i. rewrite grown_byte.
      destruct (Z.ltb_spec i n), (Z.ltb_spec i (blen (se_buf w))), (Z.leb_spec 0 i); cbn; try lia; done.
  - intros n off Ho Hlt. unfold se_read. destruct (Z.leb_spec (blen (se_buf w)) off) as [Hle|Hgt].
    + f_equal. symmetry. unfold slice. rewrite drop_ge by (unfold blen in Hle; lia). by rewrite take_nil.
    + rewrite i64_id by (unfold in_i64; lia). destruct (Z.ltb_spec (blen (se_buf w)) (off + Z.of_nat n)).
      * rewrite (proj2 (Z.ltb_ge off 0)), (proj2 (Z.ltb_ge (blen _) off)) by lia. cbn [orb]. f_equal.
        unfold slice, blen in *. rewrite !take_ge by (rewrite length_drop; lia). done.
      * rewrite (proj2 (Z.ltb_ge off 0)), (proj2 (Z.ltb_ge (off + _) off)) by lia. cbn [orb]. do 2 f_equal. lia.
Qed.

Lemma session_is_a_file_witness :
  let w := mkSession RootInode (str "a") None 0 false 0 0 (str "abc") false false in
  (0 <= 5 ∧ 5 + blen (str "xy") < 2 ^ 63) ∧
  ∃ w', se_writeAt (str "xy") 5 w = Ok (2, w') ∧ blen (se_buf w') = 7 ∧
    byte_at 4 (se_buf w') = Some x00 ∧ byte_at 6 (se_buf w') = byte_at 1 (str "xy").
Proof.
  intros w. split; [split; reflexivity || discriminate|].
  destruct (session_is_a_file w) as [Hw _]. destruct (Hw (str "xy") 5) as (w' & E & _ & Hl & Hb);
    [discriminate|reflexivity|].
  exists w'. split; [exact E|]. split; [exact Hl|]. split; [rewrite (Hb 4); reflexivity|rewrite (Hb 6); reflexivity].
Defined.

(** ** Errors *)

Lemma errnoFor_status (errorText : error → bytes) e n :
  errno_of e = Some n → errnoFor errorText (toStatus errorText e) = n.
Proof.
  intros Hn. assert (ErrnoOf errorText (toStatus errorText e) = Some n) as Ho.
  { destruct e; try discriminate Hn; injection Hn as <-; cbn [toStatus]; apply ErrnoOf_withErrno; done. }
  unfold errnoFor. rewrite Ho. destruct e; try discriminate Hn; reflexivity.
Qed.

(** Errors keep their meaning through the mount.  Every error of the
    authority's metadata store reaches the process as the errno a local file
    system would return, whatever the text of the message, also where several
    errors share a status code; a request whose context ended reports an
    interrupted call. *)
Theorem mount_errno (errorText : error → bytes) :
  (∀ e n, errno_of e = Some n → errnoFor errorText (toStatus errorText e) = n) ∧
  (∀ e, e = CtxCanceled ∨ e = CtxDeadlineExceeded →
     errnoFor errorText e = EINTR ∧ errnoFor errorText (fromContextError errorText e) = EINTR).
Proof.
  split; [apply errnoFor_status|]. intros e [-> | ->]; split; reflexivity.
Qed.

Lemma mount_errno_witness :
  errno_of ErrNotEmpty = Some ENOTEMPTY ∧
  errnoFor (λ _, str "not empty") (toStatus (λ _, str "not empty") ErrNotEmpty) = ENOTEMPTY ∧
  errnoFor (λ _, []) CtxCanceled = EINTR.
Proof.
  split; [reflexivity|]. split.
  - exact (proj1 (mount_errno (λ _, str "not empty")) ErrNotEmpty ENOTEMPTY eq_refl).
  - exact (proj1 (proj2 (mount_errno (λ _, [])) CtxCanceled (or_introl eq_refl))).
Defined.

(** ** Read-only mounts, and renames *)

Section plain.
Context {W : Type} {B : Type} `{BackendOps B} {blake3 : Blake3}.
Context (cfg : Config) (errorText : error → bytes).
Context (clock : W → time) (invoke : ∀ q : request, M (Client * W) (response q)).
Implicit Types m : Mount W B.

Lemma lor_write_flags flags : Z.land (Z.lor O_WRONLY flags) (Z.lor O_WRONLY (Z.lor O_RDWR (Z.lor O_APPEND (Z.lor O_CREAT O_TRUNC)))) ≠ 0.
Proof.
  intros E. apply (f_equal (λ z, Z.testbit z 0)) in E. rewrite Z.land_spec, Z.lor_spec in E. cbn in E. done.
Qed.

(** A read-only mount changes nothing.  Every call that would change the
    file system, and every open for writing, fails with EROFS before anything
    is asked of the authority or the object store, and leaves no trace in the
    mount. *)
Theorem read_only_refuses n o m :
  cf_ReadOnly cfg = true → run_mop cfg errorText clock invoke n o m = (Err (SysErrno EROFS), m).
Proof.
  intros Hro. destruct o; cbn [run_mop];
    unfold mf_Create, mf_Unlink, mf_Mkdir, mf_Rmdir, mf_Rename, mf_Mknod, mf_Link, mf_Symlink, mf_Setattr, mf_Open;
    try (rewrite (proj2 (Z.eqb_neq _ 0) (lor_write_flags flags)); cbn [negb]);
    unfold writable; rewrite Hro; reflexivity.
Qed.

Lemma onClient_frame {A} (f : M (Client * W) A) m res m' :
  onClient f m = (res, m') → mt_nodes m' = mt_nodes m ∧ mt_handles m' = mt_handles m ∧ mt_next m' = mt_next m ∧
    mt_backend m' = mt_backend m ∧ mt_rand m' = mt_rand m ∧ mt_drawn m' = mt_drawn m.
Proof. unfold onClient, zoom. destruct (f _) as [r [c w]]. by intros [= _ <-]. Qed.

Lemma orErrno_Ok {A} (f : M (Mount W B) A) m a m' : orErrno errorText f m = (Ok a, m') ↔ f m = (Ok a, m').
Proof. unfold orErrno. destruct (f m) as [[b|e] m1]; naive_solver. Qed.

(** A rename takes the open file along.  After a rename has succeeded,
    every session that is open on the moved node commits under the new name
    in the new directory, and no other session's target moves. *)
Theorem rename_moves_open_file n name c np newName m m' dst :
  newName ≠ [] → mt_nodes m !! np = Some dst →
  mf_Rename cfg errorText clock invoke n name (Some c) (Some np) newName 0 m = (Ok tt, m') →
  ∀ w, match se_node w with
       | Some k => if decide (k = c) then se_target w m' = (Ok (nd_ino dst, newName), m')
                   else ∀ res, se_target w m = (res, m) → se_target w m' = (res, m')
       | None => se_target w m' = (Ok (se_dir w, se_name w), m')
       end.
Proof.
  intros Hne Hdst Hrun w. unfold mf_Rename in Hrun.
  apply bind_Ok in Hrun as ([] & m1 & Hw & Hrun). unfold writable in Hw. destruct (cf_ReadOnly cfg); [done|].
  injection Hw as <-. apply bind_Ok in Hrun as (nd & m2 & Hnd & Hrun).
  unfold nodeAt in Hnd. destruct (mt_nodes m !! n) as [nd'|]; [|done]. injection Hnd as -> <-.
  cbn [Z.eqb negb] in Hrun. apply bind_Ok in Hrun as (dst' & m3 & Hd & Hrun).
  unfold nodeAt in Hd. rewrite Hdst in Hd. injection Hd as <- <-.
  apply bind_Ok in Hrun as ([] & m4 & Hcl & Hrun). apply orErrno_Ok, onClient_frame in Hcl as (En & _).
  unfold rebind in Hrun. apply bind_Ok in Hrun as (nc & m5 & Hc & Hrun).
  unfold nodeAt in Hc. destruct (mt_nodes m4 !! c) as [nc'|]; [|done]. injection Hc as -> <-.
  injection Hrun as <-. unfold se_target. destruct (se_node w) as [k|]; [|done].
  unfold mbind, M_bind, nodeAt. cbn [mt_nodes mt_set_nodes]. destruct (decide (k = c)) as [->|Hk].
  - rewrite lookup_insert_eq. cbn. by rewrite bool_decide_false.
  - rewrite lookup_insert_ne by done. rewrite En. intros res. destruct (mt_nodes m !! k) as [x|]; by intros [= <-].
Qed.
End plain.

(** ** Reading through the mount *)

Section reading.
Context {bucket : Type → Type} `{BoltLaws bucket} {B : Type} `{BackendLaws B} {blake3 : Blake3}.
Context (cfg : Config) (errorText : error → bytes) (wait : Z → M (Server bucket) unit).
Abbreviation rpc := (direct errorText wait).
Abbreviation mount := (Mount (Server bucket) B).
Implicit Types m : mount.

Lemma mount_eta m : mt_set_client (mt_client m, mt_world m) m = m.
Proof. by destruct m. Qed.

Lemma rpc_GetLocator id m :
  onClient (cl_GetLocator rpc id) m = (Ok (GetLocator (sv_region (mt_world m)) id (sv_db (mt_world m))), m).
Proof. unfold onClient, zoom, cl_GetLocator, direct. cbn. by rewrite mount_eta. Qed.

Lemma rpc_HasLocator id m :
  onClient (cl_HasLocator rpc id) m = (Ok (HasLocator (sv_region (mt_world m)) id (sv_db (mt_world m))), m).
Proof. unfold onClient, zoom, cl_HasLocator, direct. cbn. by rewrite mount_eta. Qed.

Lemma rpc_PutLocator id loc m :
  ∃ d', PutLocator (sv_region (mt_world m)) id loc (sv_now (mt_world m)) (sv_db (mt_world m)) = (Ok tt, d') ∧
    onClient (cl_PutLocator rpc id loc) m = (Ok tt, set_world_db d' m).
Proof.
  destruct (PutLocator_run (sv_region (mt_world m)) id loc (sv_now (mt_world m)) (sv_db (mt_world m))) as (d' & E & _).
  exists d'. split; [done|]. unfold onClient, zoom, cl_PutLocator, direct, serve, srv_PutLocator, mbind, M_bind, gets, onStore.
  by rewrite E.
Qed.

(** The mount reads as the repository does. *)
Lemma newReader_open rec p m : newReader rec m = (OpenFile rec (mount_repo cfg p m), m).
Proof.
  unfold newReader, OpenFile, fetchManifest, getManifest. destruct (HasInline rec); [done|].
  destruct (HasManifest rec); [|done]. cbn [r_Backend mount_repo].
  destruct (b_Get _ _ _ _) as [rc|e]; [|done]. destruct (ReadAll rc) as [data|e]; [|done].
  by destruct (DecodeBytes data).
Qed.

Lemma mf_chunkBytes_run id p fr m :
  mf_chunkBytes rpc id (fr, m)
  = ((chunkBytes id (mount_repo cfg p m) fr).1, ((chunkBytes id (mount_repo cfg p m) fr).2, m)).
Proof.
  unfold mf_chunkBytes, chunkBytes, cached. destruct (fr_cache fr !! id); [done|].
  unfold mbind, M_bind, onMount, zoom. cbn [snd]. rewrite rpc_GetLocator. unfold locate. cbn [r_Region r_DB r_Backend mount_repo].
  destruct (GetLocator _ _ _) as [loc|]; [|done]. destruct (l_Length loc <? 0); [done|].
  destruct (FetchInto _ _ _ _) as [buf|e]; done.
Qed.

Lemma mf_read_loop_ok fuel mf ds n got off p m fr :
  reader_ok ds fr → fr_m fr = Some mf → fr_hasInline fr = false → Forall (has_chunk (mount_repo cfg p m)) ds →
  0 <= off → (length got <= n)%nat → (n - length got < fuel)%nat →
  ∃ fr', mf_read_loop rpc fuel mf n got off (fr, m)
         = (Ok (got ++ take (n - length got) (drop (Z.to_nat off) (concat ds))), (fr', m)) ∧ reader_ok ds fr'.
Proof.
  revert got off fr. induction fuel as [|fuel IH]; intros got off fr Hok Hm Hin Hds Ho Hg Hf; [lia|].
  cbn [mf_read_loop]. pose proof (rok_kind _ _ Hok) as Hk. rewrite Hin, Hm in Hk. destruct Hk as [Hes Hoff].
  pose proof (rok_size _ _ Hok) as Hsz. pose proof (rok_small _ _ Hok) as Hsm.
  destruct (Nat.ltb_spec (length got) n) as [Hlt|Hge]; cbn [andb].
  2:{ exists fr. replace (n - length got)%nat with 0%nat by lia. by rewrite take_0, app_nil_r. }
  destruct (Z.ltb_spec off (fr_size fr)) as [Hos|Hos].
  2:{ exists fr. rewrite drop_ge, take_nil, app_nil_r; [done|]. unfold blen in *. lia. }
  destruct (concat_covers ds off) as (i & d & Hd & Hr); [lia|].
  rewrite Hoff, (findEntry_spec mf ds off i d) by (done || lia).
  destruct (Forall2_lookup_r _ _ _ _ _ Hes Hd) as (e & He & Hid & Hl).
  rewrite He, (entry_offsets_lookup _ ds 0 i d) by (done || lia). rewrite Hid, Z.add_0_l.
  pose proof (read_step ds i d off (n - length got) Hd Hr ltac:(lia) ltac:(lia)) as (Hi & Hpl & Heq).
  pose proof (blen_nonneg (concat (take i ds))). assert (d ∈ ds) as Hdin by (by eapply list_elem_of_lookup_2).
  unfold mbind, M_bind. rewrite (mf_chunkBytes_run _ p).
  destruct (chunkBytes_chunk _ ds fr d Hok Hds Hdin) as (fr1 & Hcb & Hok1 & Em & Ein). rewrite Hcb. cbn [fst snd].
  rewrite (i64_id (off - _)) by (unfold in_i64; lia).
  destruct (Z.ltb_spec (off - blen (concat (take i ds))) 0); [lia|].
  destruct (Z.ltb_spec (blen d) (off - blen (concat (take i ds)))); [lia|]. cbn [orb].
  set (part := take (n - length got) _) in *. rewrite (proj2 (Nat.eqb_neq (length part) 0)) by lia.
  rewrite Hi, <- Heq, app_assoc.
  replace (n - length got - length part)%nat with (n - length (got ++ part))%nat by (rewrite length_app; lia).
  apply IH; rewrite ?length_app; try congruence; [pose proof (blen_nonneg part); lia|lia..].
Qed.

Lemma mf_ReadAt_ok ds n off p m fr :
  reader_ok ds fr → Forall (has_chunk (mount_repo cfg p m)) ds → 0 <= off →
  ∃ res fr', mf_ReadAt rpc n off (fr, m) = (res, (fr', m)) ∧ reader_ok ds fr' ∧
    (res = Ok (take n (drop (Z.to_nat off) (concat ds))) ∨
     res = Err EOF ∧ take n (drop (Z.to_nat off) (concat ds)) = []) ∧
    (off < blen (concat ds) → (0 < n)%nat → res = Ok (take n (drop (Z.to_nat off) (concat ds)))).
Proof.
  intros Hok Hds Ho. unfold mf_ReadAt. rewrite (proj2 (Z.ltb_ge off 0)) by done.
  pose proof (rok_size _ _ Hok) as Hsz. pose proof (rok_kind _ _ Hok) as Hk.
  destruct (Z.leb_spec (fr_size fr) off) as [Hge|Hlt].
  { exists (Err EOF), fr. rewrite drop_ge, take_nil by (unfold blen in *; lia). split_and!; [done|done|by right|lia]. }
  unfold mbind, M_bind. destruct (fr_hasInline fr) eqn:Hin.
  - destruct Hk as (d & -> & Hid). rewrite (mf_chunkBytes_run _ p).
    destruct (chunkBytes_chunk _ [d] fr d Hok Hds) as (fr1 & Hcb & Hok1 & _); [by left|].
    rewrite Hid, Hcb. cbn in *. rewrite app_nil_r in *. destruct (Z.leb_spec (blen d) off); [lia|].
    do 2 eexists. split; [done|]. split_and!; [done|by left|done].
  - destruct (fr_m fr) as [mf|] eqn:Hm; [|subst ds; unfold blen in *; cbn in *; lia].
    destruct (mf_read_loop_ok (S n) mf ds n [] off p m fr) as (fr' & Hrun & Hok'); try done; [cbn; lia..|].
    rewrite Hrun. cbn [app length]. rewrite Nat.sub_0_r.
    set (got := take n _). destruct (Nat.eqb_spec (length got) 0) as [E|E]; do 2 eexists; (split; [done|]);
      (split; [done|]).
    + assert (got = []) as Hg by (by apply length_zero_iff_nil). split; [by right|].
      intros Hlt' Hn. exfalso. unfold got in E. rewrite length_take, length_drop in E. unfold blen in *. lia.
    + split; [by left|done].
Qed.

(** C19: reading through the mount.  A file whose chunks and manifest are in
    the object store can be opened, and every read at a position inside or
    past its end returns exactly the bytes of the file in that range,
    whatever the reader has cached, without changing anything. *)
Theorem mount_reads_content rec ds m :
  readable (repo_of cfg m) rec ds →
  (∃ fr, newReader rec m = (Ok fr, m) ∧ reader_ok ds fr) ∧
  ∀ fr n off, reader_ok ds fr → 0 <= off →
    ∃ fr', fh_Read errorText rpc n off (fr, m) = (Ok (slice off (Z.of_nat n) (concat ds)), (fr', m)) ∧ reader_ok ds fr'.
Proof.
  intros Hr. split.
  - destruct (OpenFile_ok _ _ _ Hr) as (fr & E & Hok). exists fr. rewrite (newReader_open rec (idle cfg)), E. done.
  - intros fr n off Hok Ho. destruct Hr as (_ & _ & Hds & _).
    destruct (mf_ReadAt_ok ds n off (idle cfg) m fr Hok Hds Ho) as (res & fr' & E & Hok' & Hres & _).
    exists fr'. split; [|done]. unfold fh_Read, slice. rewrite E, Nat2Z.id.
    destruct Hres as [-> | [-> ->]]; [done|]. by rewrite bool_decide_true.
Qed.

(** The whole content, as the write path loads it. *)
Lemma mf_slurp_ok rec ds m :
  readable (repo_of cfg m) rec ds → mf_slurp rpc rec m = (Ok (concat ds), m).
Proof.
  intros Hr. destruct (OpenFile_ok _ _ _ Hr) as (fr & E & Hok). pose proof (blen_nonneg (concat ds)).
  destruct Hr as (Hs & _ & Hds & _). unfold mf_slurp, mbind, M_bind. rewrite (newReader_open rec (idle cfg)), E.
  destruct (Z.ltb_spec 0 (Size rec)) as [Hpos|Hz].
  - unfold readInto. destruct (mf_ReadAt_ok ds (Z.to_nat (Size rec)) 0 (idle cfg) m fr Hok Hds ltac:(lia))
      as (res & fr' & -> & _ & _ & Hres). rewrite Hres by lia. rewrite drop_0, take_ge by (unfold blen in *; lia).
    replace (Size rec - blen (concat ds)) with 0 by lia. by rewrite app_nil_r.
  - destruct (concat ds) eqn:Ec; [done|]. unfold blen in *. cbn in *. lia.
Qed.
End reading.

(** ** Storing through the mount *)

Section storing.
Context {bucket : Type → Type} `{BoltLaws bucket} {B : Type} `{BackendLaws B} {blake3 : Blake3}.
Context (cfg : Config) (errorText : error → bytes) (wait : Z → M (Server bucket) unit).
Context (K : bytes → Prop) (N : nat).
Hypothesis HK : universe K.
Abbreviation rpc := (direct errorText wait).
Abbreviation mount := (Mount (Server bucket) B).
Implicit Types m : mount.

Lemma inv_repack p p' m :
  p_pending p' = [] → p_region p' = sv_region (mt_world m) →
  repo_inv K N (mount_repo cfg p m) → repo_inv K N (mount_repo cfg p' m).
Proof.
  intros Hp Hr [Hl Hm _ _ Hf]. split; [done|done| |done|done]. cbn [r_packer mount_repo]. rewrite Hp. by constructor.
Qed.

Lemma extends_repack p p' q q' m m' :
  p_pending q = [] → extends K (mount_repo cfg p m) (mount_repo cfg p' m') →
  extends K (mount_repo cfg q m) (mount_repo cfg q' m').
Proof.
  intros Hq [Ho Hc Ha Hm [] Hd]. split; [done|done| |done|done|done].
  intros d Kd [Hh|(e & He & _)]; [left; by apply Hc|]. cbn [r_packer mount_repo] in He. rewrite Hq in He.
  by apply not_elem_of_nil in He.
Qed.

Lemma pack_fold ds p k m :
  (mt_drawn m <= N)%nat → repo_inv K N (mount_repo cfg p m) → Forall K ds →
  ∃ p' k', fold_m (packMissing rpc) (p, k) (chunk_of <$> ds) m = (Ok (p', k'), m) ∧
    repo_inv K N (mount_repo cfg p' m) ∧ extends K (mount_repo cfg p m) (mount_repo cfg p' m) ∧
    Forall (avail (mount_repo cfg p' m)) ds ∧ k <= k' ∧ (k' = k → p' = p).
Proof.
  intros HN. revert p k. induction ds as [|d ds IH]; intros p k Hi HKs.
  { exists p, k. split_and!; [done|done|apply extends_refl|by constructor|lia|done]. }
  apply Forall_cons in HKs as [Kd Kds]. cbn [fold_m fmap list_fmap]. unfold mbind at 1, M_bind at 1, packMissing at 1.
  unfold mbind, M_bind. rewrite rpc_HasLocator. cbn [c_ID chunk_of].
  destruct (HasLocator (sv_region (mt_world m)) (Sum d) (sv_db (mt_world m))) eqn:Hh.
  - destruct (IH p k Hi Kds) as (p' & k' & E & Hi' & Hx & Hav & Hle & Hsame). exists p', k'.
    split_and!; [exact E|done|done| |done|done]. constructor; [|done]. apply (ex_avail _ _ _ Hx d Kd). left.
    unfold HasLocator in Hh. destruct (GetLocator (sv_region (mt_world m)) (Sum d) (sv_db (mt_world m))) as [loc|] eqn:El;
      [|done]. by eapply (located_chunk K N HK).
  - destruct (addChunk_steps K N d (mount_repo cfg p m) Hi Kd (Ok tt) (mount_repo cfg (Add (chunk_of d) p) m))
      as (Hi1 & Hx1 & Hp1); [done|done|].
    destruct (IH (Add (chunk_of d) p) (k + 1) Hi1 Kds) as (p' & k' & E & Hi' & Hx & Hav & Hle & Hsame).
    exists p', k'. split_and!; [exact E|done|by eapply extends_trans| |lia|lia].
    constructor; [|done]. apply (ex_avail _ _ _ Hx d Kd). by right.
Qed.

(** Registering locators with the authority, and in the repository. *)
Lemma register_locators (l : list (ID * Locator)) p m :
  ∃ d', each (λ '(id, loc), onClient (cl_PutLocator rpc id loc)) l m = (Ok tt, set_world_db d' m) ∧
    each (λ '(id, loc), λ r, onDB (PutLocator (r_Region r) id loc (sv_now (mt_world m))) r) l (mount_repo cfg p m)
    = (Ok tt, mount_repo cfg p (set_world_db d' m)).
Proof.
  revert m. induction l as [|[id loc] l IH]; intros m.
  { exists (sv_db (mt_world m)). cbn [each]. destruct m as [c [] ? ? ? ? ? ?]. done. }
  cbn [each]. unfold mbind, M_bind. destruct (rpc_PutLocator errorText wait id loc m) as (d1 & E1 & ->).
  destruct (IH (set_world_db d1 m)) as (d' & -> & E2). exists d'.
  unfold onDB at 1, zoom. cbn [r_Region r_DB mount_repo]. rewrite E1. split; [done|exact E2].
Qed.

(** Sealing a container and registering it is flushing the repository's
    packer. *)
Lemma seal_flush p m res m' : sealAndRegister rpc p m = (res, m') →
  ∃ p', flushPacker (sv_now (mt_world m)) (mount_repo cfg p m) = (res, mount_repo cfg p' m') ∧
    mt_nodes m' = mt_nodes m ∧ mt_handles m' = mt_handles m ∧ mt_client m' = mt_client m ∧
    ∃ d, mt_world m' = sv_set_db d (mt_world m).
Proof.
  assert (∃ d, mt_world m = sv_set_db d (mt_world m)) as Hw by (exists (sv_db (mt_world m)); by destruct m as [? []]).
  unfold sealAndRegister, flushPacker, sealPacker, putLocators, mbind, M_bind. cbn [r_packer mount_repo].
  destruct (Empty p) eqn:Ee.
  { unfold mret, M_ret. rewrite map_to_list_empty. intros [= <- <-]. by exists p. }
  unfold mf_draw, draw, sealWith. cbn [r_Backend r_rand r_drawn mount_repo set_drawn r_packer mt_backend mt_set_drawn].
  destruct (Seal (mt_rand m (mt_drawn m)) (mt_backend m, p)) as [[locs|e] [b p']].
  - set (m1 := mt_set_backend b (mt_set_drawn (S (mt_drawn m)) m)).
    destruct (register_locators (map_to_list locs) p' m1) as (d' & E1 & E2). rewrite E1. intros [= <- <-].
    exists p'. split; [exact E2|]. split_and!; [done|done|done|]. by exists d'.
  - intros [= <- <-]. by exists p'.
Qed.

Lemma only_stored_refl m : only_stored m m.
Proof. split_and!; [done|done|done| |lia]. exists (sv_db (mt_world m)). by destruct m as [? []]. Qed.

Lemma only_stored_trans m1 m2 m3 : only_stored m1 m2 → only_stored m2 m3 → only_stored m1 m3.
Proof.
  intros (A1 & A2 & A3 & [d Ad] & A4) (B1 & B2 & B3 & [d' Bd] & B4). split_and!; [congruence..| |lia].
  exists d'. by rewrite Bd, Ad.
Qed.

Lemma seal_steps p m res m' :
  repo_inv K N (mount_repo cfg p m) → sealAndRegister rpc p m = (res, m') →
  only_stored m m' ∧ ((mt_drawn m' <= N)%nat → ∃ p', repo_inv K N (mount_repo cfg p' m') ∧
    extends K (mount_repo cfg p m) (mount_repo cfg p' m') ∧
    (is_ok res = true → ∀ d, K d → avail (mount_repo cfg p m) d → has_chunk (mount_repo cfg p' m') d)).
Proof.
  intros Hi Hs. destruct (seal_flush p m res m' Hs) as (p' & Hf & En & Eh & Ec & Ew). split.
  - split_and!; [done..|]. apply (draws_run _ _ _ _ (draws_flush (sv_now (mt_world m))) Hf).
  - intros HN. destruct (flush_steps K N HK (sv_now (mt_world m)) (mount_repo cfg p m) Hi _ _ Hf HN) as (Hi' & Hx & Hres).
    exists p'. split_and!; [done|done|]. by destruct res.
Qed.

(** The chunks of the content are stored. *)
Lemma store_chunks ds p m res m' :
  p_pending p = [] → repo_inv K N (mount_repo cfg p m) → Forall K ds → (mt_drawn m <= N)%nat →
  storeMissing rpc p (chunk_of <$> ds) m = (res, m') →
  only_stored m m' ∧ ((mt_drawn m' <= N)%nat → ∃ p', repo_inv K N (mount_repo cfg p' m') ∧
    extends K (mount_repo cfg p m) (mount_repo cfg p' m') ∧
    (is_ok res = true → Forall (has_chunk (mount_repo cfg p' m')) ds)).
Proof.
  intros Hp Hi HKs HN. destruct (pack_fold ds p 0 m HN Hi HKs) as (p1 & k & E & Hi1 & Hx1 & Hav & Hle & Hsame).
  unfold storeMissing, mbind, M_bind. rewrite E. cbn [fst snd]. destruct (Z.ltb_spec 0 k).
  - intros Hs. destruct (seal_steps p1 m res m' Hi1 Hs) as [Ho Hrest]. split; [done|]. intros HN'.
    destruct (Hrest HN') as (p' & Hi' & Hx & Hres). exists p'. split_and!; [done|by eapply extends_trans|].
    intros Hok. rewrite Forall_forall in *. intros d Hd. apply Hres; auto.
  - intros [= <- <-]. split; [apply only_stored_refl|]. intros _. assert (p1 = p) as -> by (apply Hsame; lia).
    exists p. split_and!; [done|done|]. intros _. eapply Forall_impl; [exact Hav|].
    intros d [Hh|(e & He & _)]; [done|]. cbn [r_packer mount_repo] in He. rewrite Hp in He. by apply not_elem_of_nil in He.
Qed.

(** The manifest of the content is stored. *)
Lemma store_manifest ds cs p m res m' :
  repo_inv K N (mount_repo cfg p m) → Z.of_nat (length ds) < 2 ^ 32 → K (EncodeBytes (New (chunk_of <$> ds) cs)) →
  mf_putManifest (New (chunk_of <$> ds) cs) m = (res, m') →
  only_stored m m' ∧ repo_inv K N (mount_repo cfg p m') ∧ extends K (mount_repo cfg p m) (mount_repo cfg p m') ∧
  ∀ mid, res = Ok mid → mid = Manifest_ID (New (chunk_of <$> ds) cs) ∧
    has_manifest (mount_repo cfg p m') mid (New (chunk_of <$> ds) cs).
Proof.
  intros Hi Hc Hk. unfold mf_putManifest, mbind, M_bind, zoom.
  destruct (b_Put _ _ _ (mt_backend m)) as [pres b'] eqn:Hput.
  destruct (put_manifest_object K N HK (New (chunk_of <$> ds) cs) (mkPutOpts false) (mount_repo cfg p m) pres b' Hi) as (Hi' & Hx & Hhas);
    [apply New_ok; by rewrite length_fmap|done|exact Hput|].
  destruct pres as [oi|e]; intros [= <- <-];
    (split; [destruct (only_stored_refl m) as (? & ? & ? & ? & ?); by split_and!|]); split_and!; try done.
  intros mid [= <-]. split; [done|]. apply Hhas. by left.
Qed.

(** The record a manifest gives is readable. *)
Lemma readable_manifest ds cs p m rec data mid :
  concat ds = data → blen data < 2 ^ 63 → Forall (λ d, blen d < 2 ^ 32) ds → Forall (has_chunk (mount_repo cfg p m)) ds →
  has_manifest (mount_repo cfg p m) mid (New (chunk_of <$> ds) cs) →
  readable (mount_repo cfg p m) (apply (mkContentRef (u64 (blen data)) false zeroID true mid) rec) ds.
Proof.
  intros Hcat Hsz Hsmall Hds Hm. pose proof (blen_nonneg data). unfold readable, content_of.
  cbn [Size apply set_content cr_size cr_hasInline cr_hasManifest cr_manifestID HasInline HasManifest ManifestID].
  rewrite Hcat, u64_id by (unfold in_u64; lia). split_and!; [done|done|done|].
  eexists. split; [done|]. by apply New_entries.
Qed.

(** The content reference at the end of [storeContent]. *)
Lemma store_tail ds data cs p rec m res m' :
  repo_inv K N (mount_repo cfg p m) → Forall (has_chunk (mount_repo cfg p m)) ds → Forall K ds →
  Z.of_nat (length ds) < 2 ^ 32 → K (EncodeBytes (New (chunk_of <$> ds) cs)) → concat ds = data → blen data < 2 ^ 63 → Forall (λ d, blen d < 2 ^ 32) ds →
  match chunk_of <$> ds with
  | [c] => mret (mkContentRef (u64 (blen data)) true (c_ID c) false zeroID)
  | _ => mid ← mf_putManifest (New (chunk_of <$> ds) cs); mret (mkContentRef (u64 (blen data)) false zeroID true mid)
  end m = (res, m') →
  only_stored m m' ∧ repo_inv K N (mount_repo cfg p m') ∧ extends K (mount_repo cfg p m) (mount_repo cfg p m') ∧
  ∀ c, res = Ok c → readable (mount_repo cfg p m') (apply c rec) ds.
Proof.
  intros Hi Hds HKs Hct Hman Hcat Hsz Hsmall Hrun. pose proof (blen_nonneg data).
  assert ((∃ d, ds = [d]) ∨ (mid ← mf_putManifest (New (chunk_of <$> ds) cs);
    mret (mkContentRef (u64 (blen data)) false zeroID true mid)) m = (res, m')) as [[d ->]|Hm].
  { destruct ds as [|d [|d' ds]]; [by right|left; by exists d|by right]. }
  - injection Hrun as <- <-. split_and!; [apply only_stored_refl|done|apply extends_refl|]. intros c [= <-].
    unfold readable, content_of. cbn [Size apply set_content cr_size cr_hasInline cr_inlineChunk HasInline InlineChunk].
    rewrite Hcat, u64_id by (unfold in_u64; lia). split_and!; [done|done|done|by exists d].
  - unfold mbind, M_bind in Hm. destruct (mf_putManifest (New (chunk_of <$> ds) cs) m) as [r2 m2] eqn:Ep.
    destruct (store_manifest ds cs p m r2 m2 Hi Hct Hman Ep) as (Ho & Hi' & Hx & Hhas).
    destruct r2 as [mid|e]; injection Hm as <- <-; split_and!; try done. intros c [= <-].
    destruct (Hhas mid eq_refl) as [_ Hm]. apply (readable_manifest ds cs); try done.
    rewrite Forall_forall in *. intros d Hd. apply (ex_chunks _ _ _ Hx d); auto.
Qed.

Lemma mf_store_ok data rec m res m' :
  regionOf cfg = sv_region (mt_world m) → repo_inv K N (repo_of cfg m) → storable K (repo_of cfg m) data →
  mf_storeContent cfg rpc data m = (res, m') → (mt_drawn m' <= N)%nat → (mt_drawn m <= N)%nat →
  only_stored m m' ∧ repo_inv K N (repo_of cfg m') ∧ extends K (repo_of cfg m) (repo_of cfg m') ∧
  ∀ c, res = Ok c → readable (repo_of cfg m') (apply c rec) (pieces_of (chunkSizeOf cfg) data).
Proof.
  intros Hreg Hi [Hcs Hsz Hct Hps Hman]. unfold mf_storeContent. cbn [r_ChunkSize mount_repo] in *.
  destruct (Z.eqb_spec (blen data) 0) as [E0|Hne].
  { intros [= <- <-] _ _. split_and!; [apply only_stored_refl|done|apply extends_refl|]. intros c [= <-].
    destruct data; [|unfold blen in E0; cbn in E0; lia]. unfold readable, content_of, pieces_of. cbn. by split_and!. }
  unfold SplitBytes. fold (chunkSizeOf cfg). rewrite SplitAll_pieces_of. unfold of_result at 1, mbind at 1, M_bind at 1.
  set (ds := pieces_of (chunkSizeOf cfg) data) in *. set (pk := if 0 <? cf_ChunkAlignment cfg then _ else _).
  assert (p_pending pk = [] ∧ p_region pk = sv_region (mt_world m)) as [Hpp Hpr] by (unfold pk; by destruct (0 <? _)).
  unfold mbind at 1, M_bind at 1. intros Hrun HN HN0.
  assert (repo_inv K N (mount_repo cfg pk m)) as Hi0 by (by eapply inv_repack).
  destruct (storeMissing rpc pk (chunk_of <$> ds) m) as [r1 m1] eqn:E1.
  destruct (store_chunks ds pk m r1 m1 Hpp Hi0 Hps HN0 E1) as [Ho1 Hrest].
  assert (concat ds = data) as Hcat by apply pieces_of_concat.
  assert (Forall (λ d, blen d < 2 ^ 32) ds) as Hsmall by (eapply Forall_impl; [apply pieces_of_bound; lia|cbn; lia]).
  assert (∀ m2, only_stored m m2 → p_region (idle cfg) = sv_region (mt_world m2)) as Hir
    by (intros m2 (_ & _ & _ & [d ->] & _); done).
  destruct r1 as [[]|e].
  2: { injection Hrun as <- <-. destruct (Hrest HN) as (p' & Hi' & Hx & _). split_and!; [done| | |done].
       - eapply inv_repack; [done|by apply Hir|done].
       - by eapply extends_repack. }
  assert (mt_drawn m1 <= N)%nat as HN1.
  { assert (mt_drawn m' = mt_drawn m1) as <-; [|done].
    destruct (chunk_of <$> ds) as [|c0 [|c1 cs']]; [|by injection Hrun as _ <-|];
      unfold mf_putManifest, mbind, M_bind, zoom in Hrun;
      (destruct (b_Put _ _ _ (mt_backend m1)) as [[oi|e] b']; by injection Hrun as _ <-). }
  destruct (Hrest HN1) as (p' & Hi' & Hx & Hch).
  destruct (store_tail ds data (chunkSizeOf cfg) p' rec m1 res m' Hi' (Hch eq_refl) Hps Hct Hman Hcat Hsz Hsmall Hrun)
    as (Ho2 & Hi2 & Hx2 & Hread).
  assert (only_stored m m') as Ho by (by eapply only_stored_trans). split_and!; [done| | |done].
  - eapply inv_repack; [done|by apply Hir|done].
  - eapply extends_repack; [done|]. by eapply extends_trans.
Qed.
End storing.

(** ** Committing through the mount *)

Section frames.
Context {bucket : Type → Type} `{BoltLaws bucket}.
Context (errorText : error → bytes) (wait : Z → M (Server bucket) unit).
Implicit Types s : Server bucket.

Lemma same_server_trans s1 s2 s3 : same_server s1 s2 → same_server s2 s3 → same_server s1 s3.
Proof. intros [A1 A2] [B1 B2]. split; congruence. Qed.

Lemma same_push h ev s : same_server s (push h ev s).
Proof. unfold push. destruct (sv_streams s !! h); [|done]. by destruct (_ <? _)%nat. Qed.

Lemma same_pushes (g : bytes * bytes → Event) l s :
  let s' := foldl (λ s cb, push cb.1 (g cb) s) s l in same_server s s' ∧ sv_db s' = sv_db s.
Proof.
  revert s. induction l as [|cb l IH]; intros s; [done|]. cbn [foldl].
  destruct (IH (push cb.1 (g cb) s)) as [F1 F2]. destruct (push_fields cb.1 (g cb) s) as (Ed & _).
  split; [|congruence]. eapply same_server_trans; [apply same_push|done].
Qed.

(** A recall leaves the store alone. *)
Lemma Recall_quiet obj mu s res s' :
  sv_posix s = true → waits_quietly wait s → srv_Recall errorText wait obj mu s = (res, s') →
  same_server s s' ∧ sv_db s' = sv_db s.
Proof.
  intros Hp Hq. unfold srv_Recall. destruct (sv_coh s) as [m|]; [|by intros [= _ <-]].
  destruct (Recall_issue obj mu (sv_now s) m) as [[[[id recalled] hs]|] m1]; [|by intros [= _ <-]].
  destruct (same_pushes (λ h, mkEvent EventRecall h.2 id) hs (sv_set_coh (Some m1) s)) as [E1 E2].
  set (s1 := foldl _ _ _) in *. destruct (Hq Hp id s1) as [F1 F2]. destruct (wait id s1) as [r s2]. cbn [snd] in *.
  assert (same_server s s2 ∧ sv_db s2 = sv_db s) as [G1 G2].
  { split; [|by rewrite F1, E2]. eapply same_server_trans; [|exact F2]. exact E1. }
  destruct (sv_coh s2) as [m2|]; [|by intros [= _ <-]]. destruct (Recall_finish id recalled m2). by intros [= _ <-].
Qed.

Lemma recallIfPosix_quiet obj mu s res s' :
  waits_quietly wait s → recallIfPosix errorText wait obj mu s = (res, s') → same_server s s' ∧ sv_db s' = sv_db s.
Proof.
  intros Hq. unfold recallIfPosix. destruct (sv_posix s) eqn:Hp; [|by intros [= _ <-]]. cbn [andb].
  case_bool_decide; [by apply Recall_quiet|by intros [= _ <-]].
Qed.

Lemma recallBound_quiet h d n s res s' :
  waits_quietly wait s → recallBound errorText wait h d n s = (res, s') → same_server s s' ∧ sv_db s' = sv_db s.
Proof.
  intros Hq. unfold recallBound. destruct (sv_posix s) eqn:Hp; [|by intros [= _ <-]]. cbn [andb].
  case_bool_decide; [|by intros [= _ <-]].
  destruct (lookupTx d n (sv_db s)) as [i|e]; [by apply Recall_quiet|]. case_bool_decide; by intros [= _ <-].
Qed.

Lemma same_bump obj s v s' : srv_bump obj s = (Ok v, s') → same_server s s' ∧ sv_db s' = sv_db s.
Proof.
  unfold srv_bump. destruct (sv_coh s) as [m|]; [|by intros [= _ <-]]. cbn [Bump]. intros [= _ <-].
  change (foldl _ s (Bump_collect obj m)) with (pushes (Bump_collect obj m) s).
  apply (same_pushes (λ cb, mkEvent EventInvalidate cb.2 0)).
Qed.

Lemma bump_run' obj s : ∃ v s', srv_bump obj s = (Ok v, s') ∧ same_server s s' ∧ sv_db s' = sv_db s.
Proof.
  assert (∃ v s', srv_bump obj s = (Ok v, s')) as (v & s' & E) by (unfold srv_bump; destruct (sv_coh s); eauto).
  exists v, s'. split; [done|]. by eapply same_bump.
Qed.

Lemma bumpDir_run d s : ∃ s', srv_bumpDir d s = (Ok tt, s') ∧ same_server s s' ∧ sv_db s' = sv_db s.
Proof.
  unfold srv_bumpDir, mbind, M_bind, modify. set (s1 := sv_set_coh _ s).
  destruct (bump_run' (dirObj d) s1) as (v1 & s2 & -> & [A1 A2] & A3).
  destruct (bump_run' (inodeObj d) s2) as (v2 & s3 & -> & [B1 B2] & B3).
  exists s3. split; [done|]. cbn in *. split; [split|]; congruence.
Qed.

Lemma same_grant holder obj s l s' : srv_grant holder obj s = (l, s') → same_server s s'.
Proof. unfold srv_grant. destruct (sv_coh s); [destruct (Grant _ _ _ _)|]; by intros [= _ <-]. Qed.

Lemma same_Lookup holder d n s res s' : srv_Lookup errorText holder d n s = (res, s') → same_server s s'.
Proof.
  unfold srv_Lookup, mbind, M_bind, gets.
  destruct (match sv_coh s with Some m => (DirVersion (dirObj d) m, true) | None => (0, false) end) as [dv leased].
  assert (∃ dl s1, (if leased then srv_grant holder (dirObj d) else mret zero_lease) s = (Ok dl, s1)
    ∧ same_server s s1 ∧ sv_db s1 = sv_db s) as (dl & s1 & -> & [A1 A2] & E1).
  { destruct leased; [|by exists zero_lease, s]. destruct (srv_grant_run holder (dirObj d) s) as (l & s1 & E & Ed).
    exists l, s1. split; [done|]. split; [by eapply same_grant|done]. }
  destruct (lookupTx d n (sv_db s1)) as [id|e].
  - unfold GetInode. rewrite onStore_view. destruct (getInodeTx id (sv_db s1)); [|intros [= _ <-]; done].
    destruct (srv_grant_run holder (inodeObj id) s1) as (l & s2 & E2 & _). rewrite E2.
    apply same_grant in E2 as [B1 B2]. intros [= _ <-]. split; congruence.
  - case_bool_decide; by intros [= _ <-].
Qed.

Lemma CommitFile_refused d n rec now (tx tx' : DB bucket) e : CommitFile d n rec now tx = (Err e, tx') → tx' = tx.
Proof.
  intros Hrun. pose proof (run_op_implements (OCommitFile d n rec now) tx eq_refl) as Himp. unfold implements in Himp.
  cbn [run_op] in Himp. destruct (fs_pre _ _).
  - destruct Himp as (tx1 & E & _). unfold mbind, M_bind in E. rewrite Hrun in E. done.
  - unfold mbind, M_bind in Himp. rewrite Hrun in Himp. congruence.
Qed.

Lemma UpdateInodeContent_refused i rec (tx tx' : DB bucket) e :
  UpdateInodeContent i rec tx = (Err e, tx') → tx' = tx.
Proof.
  intros Hrun. pose proof (run_op_implements (OUpdateInodeContent i rec) tx eq_refl) as Himp. unfold implements in Himp.
  cbn [run_op] in Himp. destruct (fs_pre _ _); [destruct Himp as (tx1 & E & _)|]; congruence.
Qed.

Lemma srv_Commit_run holder d n rec s res s' :
  waits_quietly wait s → srv_Commit errorText wait holder d n rec zero_inode s = (res, s') →
  same_server s s' ∧
  match res with
  | Ok _ => ∃ now id, CommitFile d n rec now (sv_db s) = (Ok id, sv_db s')
  | Err _ => sv_db s' = sv_db s
  end.
Proof.
  intros Hq. unfold srv_Commit. rewrite bool_decide_true by done. cbn [negb]. unfold mbind, M_bind, gets.
  destruct (recallBound errorText wait holder d n s) as [[rr|e] s0] eqn:Er;
    apply recallBound_quiet in Er as [Hs Ed]; [|done| |done]; [|by intros [= <- <-]].
  unfold onStore. rewrite Ed. destruct (CommitFile d n rec (sv_now s0) (sv_db s)) as [[id|e] db'] eqn:Ec.
  2: { apply CommitFile_refused in Ec as ->. by intros [= <- <-]. }
  destruct (bump_run' (inodeObj id) (sv_set_db db' s0)) as (v & s1 & -> & A1 & A3).
  destruct (bumpDir_run d s1) as (s2 & -> & B1 & B3). intros [= <- <-]. cbn [sv_db sv_set_db] in *.
  split; [|exists (sv_now s0), id; by rewrite Ec, B3, A3].
  eapply same_server_trans; [exact Hs|]. eapply same_server_trans; [exact A1|exact B1].
Qed.

Lemma srv_Detached_run holder i rec s res s' :
  waits_quietly wait s → i ≠ zero_inode → srv_Commit errorText wait holder zero_inode [] rec i s = (res, s') →
  same_server s s' ∧
  match res with
  | Ok _ => UpdateInodeContent i rec (sv_db s) = (Ok tt, sv_db s')
  | Err _ => sv_db s' = sv_db s
  end.
Proof.
  intros Hq Hne. unfold srv_Commit. rewrite bool_decide_false by done. cbn [negb].
  unfold srv_CommitDetached, mbind, M_bind.
  destruct (recallIfPosix errorText wait (inodeObj i) holder s) as [[rr|e] s0] eqn:Er;
    apply recallIfPosix_quiet in Er as [Hs Ed]; [|done| |done]; [|by intros [= <- <-]].
  unfold onStore. rewrite Ed. destruct (UpdateInodeContent i rec (sv_db s)) as [[[]|e] db'] eqn:Ec.
  2: { apply UpdateInodeContent_refused in Ec as ->. by intros [= <- <-]. }
  destruct (bump_run' (inodeObj i) (sv_set_db db' s0)) as (v & s1 & -> & A1 & A3). intros [= <- <-].
  cbn [sv_db sv_set_db] in *. split; [|by rewrite A3]. eapply same_server_trans; [exact Hs|exact A1].
Qed.
End frames.

Section committing.
Context {bucket : Type → Type} `{BoltLaws bucket} {B : Type} `{BackendLaws B} {blake3 : Blake3}.
Context (cfg : Config) (errorText : error → bytes) (wait : Z → M (Server bucket) unit).
Abbreviation rpc := (direct errorText wait).
Abbreviation mount := (Mount (Server bucket) B).
Implicit Types m : mount.

Lemma se_target_run w m res m' : se_target w m = (res, m') → m' = m ∧ ∀ t, res = Ok t → t = session_target m w.
Proof.
  unfold se_target, session_target. destruct (se_node w) as [n|]; cbn [mbind option_bind].
  - unfold mbind, M_bind, nodeAt. destruct (mt_nodes m !! n) as [nd|]; intros [= <- <-]; (split; [done|]); [|done].
    by intros t [= <-].
  - intros [= <- <-]. split; [done|]. by intros t [= <-].
Qed.

Lemma se_detached_run w m res m' :
  se_detached rpc w (session_target m w).1 (session_target m w).2 m = (res, m') →
  only_called m m' ∧ sv_db (mt_world m') = sv_db (mt_world m) ∧ ∀ x, res = Ok x → x = detached_from m w.
Proof.
  unfold se_detached. destruct (se_node w) as [n|] eqn:En.
  2: { intros [= <- <-]. split_and!; try done. intros x [= <-]. unfold detached_from. by rewrite En. }
  unfold nodeAt. cbn [mbind M_bind]. unfold mbind at 1, M_bind at 1.
  destruct (mt_nodes m !! n) as [nd|] eqn:Em; [|intros [= <- <-]; split_and!; done].
  assert (detached_from m w = if bool_decide (nd_ino nd = zero_inode) then None
    else match lookupTx (session_target m w).1 (session_target m w).2 (sv_db (mt_world m)) with
         | Err _ => Some (nd_ino nd)
         | Ok id => match getInodeTx id (sv_db (mt_world m)) with
                    | Err _ => None
                    | Ok _ => if bool_decide (id = nd_ino nd) then None else Some (nd_ino nd) end
         end) as Hdet by (unfold detached_from; rewrite En; cbn; by rewrite Em).
  rewrite Hdet. clear Hdet. case_bool_decide as Hz.
  { intros [= <- <-]. split_and!; try done. by intros x [= <-]. }
  unfold mbind, M_bind.
  set (t := session_target m w). rewrite attempt_run. unfold onClient, zoom, cl_LookupUncached, mbind, M_bind, direct, serve.
  destruct (srv_Lookup errorText (cl_holder (mt_client m)) t.1 t.2 (mt_world m)) as [r1 s1] eqn:El.
  pose proof (same_Lookup errorText _ _ _ _ _ _ El) as Hsame.
  destruct (srv_Lookup_run errorText (cl_holder (mt_client m)) t.1 t.2 (mt_world m)) as (s1' & Ed & Hval). rewrite El in Hval.
  destruct (lookupTx t.1 t.2 (sv_db (mt_world m))) as [id|e].
  - destruct (getInodeTx id (sv_db (mt_world m))) as [rec|e].
    + destruct Hval as (resp & [= -> <-] & Hf & Hid & _). cbn [fst snd]. rewrite Hf, Hid. cbn [negb orb].
      intros [= <- <-]. split_and!; try done. intros x [= <-]. case_bool_decide; done.
    + injection Hval as -> <-. cbn [fst snd]. intros [= <- <-]. split_and!; try done. by intros x [= <-].
  - destruct Hval as (resp & [= -> <-] & Hf). cbn [fst snd]. rewrite Hf. intros [= <- <-]. split_and!; try done.
    by intros x [= <-].
Qed.

Lemma called_same_store m m' :
  only_called m m' → same_storage (sv_db (mt_world m)) (sv_db (mt_world m')) → same_store (repo_of cfg m) (repo_of cfg m').
Proof.
  intros (_ & _ & Eb & Er & Ed & _ & Eg) Hs. unfold same_store.
  cbn [r_Region r_Backend r_packer r_rand r_drawn r_ChunkSize r_DB mount_repo]. by rewrite Eb, Er, Ed, Eg.
Qed.

Lemma only_called_trans m1 m2 m3 : only_called m1 m2 → only_called m2 m3 → only_called m1 m3.
Proof.
  intros (A1 & A2 & A3 & A4 & A5 & A6 & A7) (B1 & B2 & B3 & B4 & B5 & B6 & B7). unfold only_called, same_server.
  split_and!; congruence.
Qed.

(** The two ways to commit: under the name, or straight to the inode. *)
Lemma commit_name d n rec m res m' :
  waits_quietly wait (mt_world m) → onClient (cl_Commit sv_now rpc d n rec) m = (res, m') →
  only_called m m' ∧
  match res with
  | Ok _ => ∃ now id, CommitFile d n rec now (sv_db (mt_world m)) = (Ok id, sv_db (mt_world m'))
  | Err _ => sv_db (mt_world m') = sv_db (mt_world m)
  end.
Proof.
  intros Hq. unfold onClient, zoom, cl_Commit, mbind, M_bind, direct. cbn [serve].
  destruct (srv_Commit errorText wait (cl_holder (mt_client m)) d n rec zero_inode (mt_world m)) as [r s1] eqn:E.
  destruct (srv_Commit_run errorText wait _ d n rec (mt_world m) r s1 Hq E) as (Hs & Hr).
  destruct r as [a|e]; intros [= <- <-]; (split; [by split_and!|done]).
Qed.

Lemma commit_inode i rec m res m' :
  waits_quietly wait (mt_world m) → i ≠ zero_inode → onClient (cl_CommitDetached sv_now rpc i rec) m = (res, m') →
  only_called m m' ∧
  match res with
  | Ok _ => UpdateInodeContent i rec (sv_db (mt_world m)) = (Ok tt, sv_db (mt_world m'))
  | Err _ => sv_db (mt_world m') = sv_db (mt_world m)
  end.
Proof.
  intros Hq Hi. unfold onClient, zoom, cl_CommitDetached, mbind, M_bind, direct. cbn [serve].
  destruct (srv_Commit errorText wait (cl_holder (mt_client m)) zero_inode [] rec i (mt_world m)) as [r s1] eqn:E.
  destruct (srv_Detached_run errorText wait _ i rec (mt_world m) r s1 Hq Hi E) as (Hs & Hr).
  destruct r as [a|e]; intros [= <- <-]; (split; [by split_and!|done]).
Qed.

Lemma detached_nonzero m w i : detached_from m w = Some i → i ≠ zero_inode.
Proof.
  unfold detached_from. destruct (n ← se_node w; mt_nodes m !! n) as [nd|]; [|done]. cbn.
  case_bool_decide as Hz; [done|]. repeat case_match; by intros [= <-].
Qed.

(** The change a commit makes to the authority's store. *)
Lemma commit_changes w det rec m res m' :
  waits_quietly wait (mt_world m) → det = detached_from m w →
  match det with
  | Some id => onClient (cl_CommitDetached sv_now rpc id rec) ≫= λ _, mret tt
  | None => onClient (cl_Commit sv_now rpc (session_target m w).1 (session_target m w).2 rec) ≫= λ _, mret tt
  end m = (res, m') →
  only_called m m' ∧ same_storage (sv_db (mt_world m)) (sv_db (mt_world m')) ∧
  let f := view (sv_db (mt_world m)) in let f' := view (sv_db (mt_world m')) in
  match res with
  | Err _ => f' = f
  | Ok _ => ∃ id rec', fs_inodes f' !! id = Some rec' ∧ same_content rec rec' ∧
      match det with
      | Some i => id = i ∧ fs_names f' = fs_names f
      | None => fs_names f' = <[session_target m w := id]> (fs_names f)
      end
  end.
Proof.
  intros Hp -> Hrun. destruct (detached_from m w) as [i|] eqn:Ed; unfold mbind, M_bind in Hrun.
  - destruct (onClient _ m) as [r m1] eqn:E. destruct (commit_inode i rec m r m1 Hp (detached_nonzero _ _ _ Ed) E)
      as (Ho & Hr).
    destruct r as [a|e']; injection Hrun as <- <-.
    + apply UpdateInodeContent_effect in Hr as (Hn & (rec' & Hr & Hc) & Hst). split_and!; [done|done|]. by exists i, rec'.
    + rewrite Hr. split_and!; done.
  - destruct (onClient _ m) as [r m1] eqn:E. destruct (commit_name _ _ rec m r m1 Hp E) as (Ho & Hr).
    destruct r as [a|e']; injection Hrun as <- <-.
    + destruct Hr as (now & id & (Hn & (rec' & Hr & Hc) & _ & Hst)%CommitFile_effect). split_and!; [done|done|].
      exists id, rec'. split_and!; [done|done|]. by rewrite Hn, <- surjective_pairing.
    + rewrite Hr. split_and!; done.
Qed.
End committing.

Section flushing.
Context {bucket : Type → Type} `{BoltLaws bucket} {B : Type} `{BackendLaws B} {blake3 : Blake3}.
Context (cfg : Config) (errorText : error → bytes) (wait : Z → M (Server bucket) unit).
Context (K : bytes → Prop) (N : nat).
Abbreviation rpc := (direct errorText wait).
Abbreviation mount := (Mount (Server bucket) B).
Implicit Types m : mount.

Lemma waits_same (s s' : Server bucket) : sv_posix s' = sv_posix s → waits_quietly wait s → waits_quietly wait s'.
Proof. unfold waits_quietly. by intros ->. Qed.

Lemma target_same m m' w : mt_nodes m' = mt_nodes m → session_target m' w = session_target m w.
Proof. intros E. unfold session_target. by rewrite E. Qed.

Lemma detached_same m m' w :
  mt_nodes m' = mt_nodes m → same_meta (sv_db (mt_world m)) (sv_db (mt_world m')) → detached_from m' w = detached_from m w.
Proof.
  intros E [Ed Ei _ _ _ _]. unfold detached_from. rewrite (target_same m m' w E), E. unfold lookupTx, getInodeTx. by rewrite Ed, Ei.
Qed.

(** The part of a commit after the content is stored: it is all RPCs, so the
storage stays and only the namespace changes. *)
Lemma commit_rest w rec m res m' :
  mount_ok cfg wait K N m →
  (target ← se_target w;
   det ← se_detached rpc w target.1 target.2;
   match (det : option InodeID) with
   | Some id => onClient (cl_CommitDetached sv_now rpc id rec) ≫= λ _, mret tt
   | None => onClient (cl_Commit sv_now rpc target.1 target.2 rec) ≫= λ _, mret tt
   end) m = (res, m') →
  only_called m m' ∧ same_store (repo_of cfg m) (repo_of cfg m') ∧
  let f := view (sv_db (mt_world m)) in let f' := view (sv_db (mt_world m')) in
  match res with
  | Err _ => f' = f
  | Ok _ => ∃ id rec', fs_inodes f' !! id = Some rec' ∧ same_content rec rec' ∧
      match detached_from m w with
      | Some i => id = i ∧ fs_names f' = fs_names f
      | None => fs_names f' = <[session_target m w := id]> (fs_names f)
      end
  end.
Proof.
  intros [_ Hp _ _] Hrun. unfold mbind at 1, M_bind at 1 in Hrun.
  destruct (se_target w m) as [tres m1] eqn:Et. apply se_target_run in Et as [-> Htgt].
  destruct tres as [a|e]; [|injection Hrun as <- <-; split_and!; try done; by apply called_same_store].
  rewrite (Htgt a eq_refl) in Hrun. unfold mbind at 1, M_bind at 1 in Hrun.
  destruct (se_detached rpc w (session_target m w).1 (session_target m w).2 m) as [dres m2] eqn:Ed.
  apply se_detached_run in Ed as (Ho & Edb & Hdet).
  assert (same_meta (sv_db (mt_world m)) (sv_db (mt_world m2))) as Hm by (by rewrite Edb).
  assert (same_storage (sv_db (mt_world m)) (sv_db (mt_world m2))) as Hs by (by rewrite Edb).
  destruct dres as [det|e].
  2: { injection Hrun as <- <-. split_and!; [done|by apply called_same_store|by rewrite Edb]. }
  pose proof Ho as (En & _ & _ & _ & _ & [Ep _]).
  rewrite <- (target_same m m2 w En) in Hrun.
  assert (det = detached_from m2 w) as Hdet2 by (rewrite (Hdet det eq_refl); symmetry; by apply detached_same).
  destruct (commit_changes errorText wait w det rec m2 res m' (waits_same _ _ Ep Hp) Hdet2 Hrun) as (Ho2 & Hs2 & Hres).
  pose proof (only_called_trans _ _ _ Ho Ho2) as Ho3. rewrite Edb in Hs2, Hres. rewrite Hdet2, (target_same m m2 w En) in Hres.
  rewrite (detached_same m m2 w En Hm) in Hres. split_and!; [done|by apply called_same_store|done].
Qed.

Lemma rest_drawn w rec m res m' :
  (target ← se_target w;
   det ← se_detached rpc w target.1 target.2;
   match (det : option InodeID) with
   | Some id => onClient (cl_CommitDetached sv_now rpc id rec) ≫= λ _, mret tt
   | None => onClient (cl_Commit sv_now rpc target.1 target.2 rec) ≫= λ _, mret tt
   end) m = (res, m') → mt_drawn m' = mt_drawn m.
Proof.
  intros Hrun. unfold mbind at 1, M_bind at 1 in Hrun.
  destruct (se_target w m) as [tres m1] eqn:Et. apply se_target_run in Et as [-> Htgt].
  destruct tres as [a|e]; [|by injection Hrun as <- <-].
  rewrite (Htgt a eq_refl) in Hrun. unfold mbind at 1, M_bind at 1 in Hrun.
  destruct (se_detached rpc w (session_target m w).1 (session_target m w).2 m) as [dres m2] eqn:Ed.
  apply se_detached_run in Ed as ((_ & _ & _ & _ & <- & _) & _ & _).
  destruct dres as [[id|]|e]; [| |by injection Hrun as <- <-]; unfold mbind, M_bind in Hrun;
    destruct (onClient _ m2) as [r m3] eqn:E; apply onClient_frame in E as (_ & _ & _ & _ & _ & <-);
    by destruct r; injection Hrun as <- <-.
Qed.

(** A commit of a dirty session: its bytes are stored, and the file it goes to
reads back as them; whatever was readable stays readable. *)
Lemma se_commit_ok w m res m' :
  universe K → mount_ok cfg wait K N m → se_dirty w = true → storable K (repo_of cfg m) (se_buf w) →
  se_commit cfg sv_now rpc w m = (res, m') → (mt_drawn m' <= N)%nat →
  mount_ok cfg wait K N m' ∧ mt_nodes m' = mt_nodes m ∧ mt_handles m' = mt_handles m ∧
  (∀ rec ds, Forall K ds → readable (repo_of cfg m) rec ds → readable (repo_of cfg m') rec ds) ∧
  let f := view (sv_db (mt_world m)) in let f' := view (sv_db (mt_world m')) in
  match res with
  | Err _ => f' = f
  | Ok _ => ∃ id rec, fs_inodes f' !! id = Some rec ∧ readable (repo_of cfg m') rec (pieces_of (chunkSizeOf cfg) (se_buf w)) ∧
      match detached_from m w with
      | Some i => id = i ∧ fs_names f' = fs_names f
      | None => fs_names f' = <[session_target m w := id]> (fs_names f)
      end
  end.
Proof.
  intros HK [Hreg Hp Hi HN0] Hd Hst Hrun HN. unfold se_commit in Hrun. rewrite Hd in Hrun. cbn [negb] in Hrun.
  unfold mbind at 1, M_bind at 1 in Hrun.
  destruct (mf_storeContent cfg rpc (se_buf w) m) as [sres m1] eqn:Es.
  pose (rec0 := file_record (if se_modeSet w then Z.land (se_mode w) mode_7777 else 420) (se_uid w) (se_gid w)
    (sv_now (mt_world m1))).
  pose proof (mf_store_ok cfg errorText wait K N HK (se_buf w) rec0 m sres m1 Hreg Hi Hst Es) as Hstore.
  destruct sres as [ref|e].
  2: { injection Hrun as <- <-. destruct (Hstore HN HN0) as ((En & Eh & _ & [d Ew] & _) & Hi1 & Hx & _).
       split_and!; [split; [by rewrite Ew|apply (waits_same (mt_world m)); [by rewrite Ew|done]|done|done]|done|done| |].
       - intros rec ds Hks Hr. by eapply readable_extends.
       - by apply (same_meta_view _ _ (ex_meta _ _ _ Hx)). }
  unfold mf_now, gets, mbind at 1, M_bind at 1 in Hrun. fold rec0 in Hrun.
  assert (mt_drawn m1 <= N)%nat as HN1 by (by apply (rest_drawn w (apply ref rec0) m1 res m') in Hrun as <-).
  destruct (Hstore HN1 HN0) as ((En & Eh & _ & [d Ew] & _) & Hi1 & Hx & Hread). clear Hstore.
  assert (mount_ok cfg wait K N m1) as Hm1 by (split; [by rewrite Ew|apply (waits_same (mt_world m)); [by rewrite Ew|done]|done|done]).
  destruct (commit_rest w (apply ref rec0) m1 res m' Hm1 Hrun) as ((En' & Eh' & _ & _ & Edr & [Ep' Er']) & Hs & Hres).
  pose proof (ex_meta _ _ _ Hx : same_meta (sv_db (mt_world m)) (sv_db (mt_world m1))) as Hmeta.
  rewrite (same_meta_view _ _ Hmeta), (detached_same m m1 w En Hmeta), (target_same m m1 w En) in Hres.
  destruct Hm1 as [Hreg1 Hp1 _ _].
  split_and!; [split; [congruence|by eapply waits_same|by eapply same_store_inv|congruence]|congruence|congruence| |].
  - intros rec ds Hks Hr. eapply same_store_readable; [done|]. by eapply readable_extends.
  - destruct res as [[]|e]; [|done]. destruct Hres as (id & rec' & Hid & Hc & Hn). exists id, rec'. split_and!; [done| |done].
    eapply same_store_readable; [done|]. eapply content_same; [done|]. by apply Hread.
Qed.
(** A flush of a dirty handle is a commit of its session. *)
Lemma wr_Flush_run h hd m res m' :
  mt_handles m !! h = Some hd → wr_Flush cfg errorText sv_now rpc h m = (res, m') →
  ∃ cres m1, se_commit cfg sv_now rpc (hd_sess hd) m = (cres, m1) ∧ is_ok res = is_ok cres ∧
    m' = match cres with
         | Ok _ => mt_set_handles (<[h := mkHandle (set_dirty false (hd_sess hd)) (hd_node hd)]> (mt_handles m1)) m1
         | Err _ => m1
         end.
Proof.
  intros Hh. unfold wr_Flush, orErrno, hd_commit, handleAt, mbind, M_bind. rewrite Hh.
  destruct (se_commit cfg sv_now rpc (hd_sess hd) m) as [[[]|e] m1]; intros [= <- <-]; by do 2 eexists.
Qed.

(** What a flush that worked has stored, over a connection that answers. *)
Lemma flush_stores h hd m m' :
  universe K → mount_ok cfg wait K N m → mt_handles m !! h = Some hd → se_dirty (hd_sess hd) = true →
  storable K (repo_of cfg m) (se_buf (hd_sess hd)) →
  wr_Flush cfg errorText sv_now rpc h m = (Ok tt, m') → (mt_drawn m' <= N)%nat →
  let f := view (sv_db (mt_world m)) in let f' := view (sv_db (mt_world m')) in
  mount_ok cfg wait K N m' ∧
  mt_handles m' !! h = Some (mkHandle (set_dirty false (hd_sess hd)) (hd_node hd)) ∧
  (∃ id rec, getInodeTx id (sv_db (mt_world m')) = Ok rec ∧
     mf_slurp rpc rec m' = (Ok (se_buf (hd_sess hd)), m') ∧
     match detached_from m (hd_sess hd) with
     | Some i => id = i ∧ fs_names f' = fs_names f
     | None => fs_names f' = <[session_target m (hd_sess hd) := id]> (fs_names f)
     end) ∧
  (∀ rec ds, Forall K ds → readable (repo_of cfg m) rec ds → readable (repo_of cfg m') rec ds).
Proof.
  intros HK Hok Hh Hd Hst Hrun HN f f'. apply (wr_Flush_run h hd) in Hrun as (cres & m1 & Hc & Hres & ->); [|done].
  destruct cres as [[]|e]; [|done].
  destruct (se_commit_ok _ m (Ok tt) m1 HK Hok Hd Hst Hc HN) as ([Hr1 Hp1 Hi1 Hd1] & _ & Eh & Hread & id & rec & Hid & Hr & Hn).
  split_and!; [by split|cbn; by rewrite lookup_insert_eq| |done].
  exists id, rec. split_and!; [| |done].
  - cbn. by rewrite getInodeTx_view, Hid.
  - rewrite (mf_slurp_ok cfg errorText wait rec (pieces_of (chunkSizeOf cfg) (se_buf (hd_sess hd)))) by done.
    by rewrite pieces_of_concat.
Qed.
End flushing.

(** ** Connections that fail *)

(** Where [m1] succeeds, [m2] does the same. *)
Definition succeeds_as {S A} (m1 m2 : M S A) : Prop := ∀ s a s', m1 s = (Ok a, s') → m2 s = (Ok a, s').

Section succeeding.
Context {S : Type}.

Lemma as_refl {A} (m : M S A) : succeeds_as m m.
Proof. by intros s a s'. Qed.

Lemma as_bind {A C} (m1 m2 : M S A) (k1 k2 : A → M S C) :
  succeeds_as m1 m2 → (∀ a, succeeds_as (k1 a) (k2 a)) → succeeds_as (m1 ≫= k1) (m2 ≫= k2).
Proof.
  intros Hm Hk s c s' Hrun. apply bind_Ok in Hrun as (a & s1 & H1 & H2). apply bind_Ok.
  exists a, s1. split; [by apply Hm|by apply Hk].
Qed.

Lemma as_each {A} (f g : A → M S unit) l : (∀ a, succeeds_as (f a) (g a)) → succeeds_as (each f l) (each g l).
Proof. intros Hf. induction l as [|a l IH]; cbn [each]; [apply as_refl|]. by apply as_bind. Qed.

Lemma as_fold_m {A C} (f g : C → A → M S C) c l :
  (∀ c a, succeeds_as (f c a) (g c a)) → succeeds_as (fold_m f c l) (fold_m g c l).
Proof. intros Hf. revert c. induction l as [|a l IH]; intros c; cbn [fold_m]; [apply as_refl|]. by apply as_bind. Qed.

Lemma as_zoom {T A} (get : S → T) put (m1 m2 : M T A) : succeeds_as m1 m2 → succeeds_as (zoom get put m1) (zoom get put m2).
Proof.
  intros Hm s a s'. unfold zoom. destruct (m1 (get s)) as [r t] eqn:E. intros [= -> <-]. by rewrite (Hm _ _ _ E).
Qed.
End succeeding.

Section failing.
Context {bucket : Type → Type} `{BoltLaws bucket} {B : Type} `{BackendLaws B} {blake3 : Blake3}.
Context (cfg : Config) (errorText : error → bytes) (wait : Z → M (Server bucket) unit).
Context (invoke : ∀ q : request, M (Client * Server bucket) (response q)) (Hinv : lossy errorText wait invoke).
Abbreviation rpc := (direct errorText wait).
Abbreviation mount := (Mount (Server bucket) B).
Implicit Types m : mount.

Lemma as_invoke q : succeeds_as (invoke q) (rpc q).
Proof. intros cs a cs' E. destruct (lo_call _ _ _ Hinv q cs) as [E'|(e & [E'|E'])]; congruence. Qed.

(** A flush that worked had every request answered. *)
Lemma as_store data : succeeds_as (mf_storeContent cfg invoke data : M mount _) (mf_storeContent cfg rpc data).
Proof.
  unfold mf_storeContent. destruct (blen data =? 0); [apply as_refl|]. apply as_bind; [apply as_refl|]. intros cs.
  apply as_bind; [|intros _; apply as_refl]. unfold storeMissing. apply as_bind.
  - apply as_fold_m. intros st c. unfold packMissing. apply as_bind; [|intros; apply as_refl].
    apply as_zoom, (as_invoke (QHasLocator (c_ID c))).
  - intros packed. destruct (0 <? packed.2); [|apply as_refl]. unfold sealAndRegister.
    apply as_bind; [apply as_refl|]. intros locs. apply as_each. intros [id loc]. apply as_zoom, (as_invoke (QPutLocator id loc)).
Qed.

Lemma lookup_answered dir name m :
  onClient (cl_LookupUncached invoke dir name) m = onClient (cl_LookupUncached rpc dir name) m.
Proof. unfold onClient, zoom, cl_LookupUncached, mbind, M_bind. by rewrite (lo_lookup _ _ _ Hinv). Qed.

Lemma detached_answered w dir name m : se_detached invoke w dir name m = se_detached rpc w dir name m.
Proof.
  unfold se_detached. destruct (se_node w) as [n|]; [|done]. unfold mbind, M_bind.
  destruct (nodeAt n m) as [[nd|e] m1]; [|done]. case_bool_decide; [done|]. rewrite !attempt_run. by rewrite lookup_answered.
Qed.

Lemma as_commit w : succeeds_as (se_commit cfg sv_now invoke w : M mount unit) (se_commit cfg sv_now rpc w).
Proof.
  unfold se_commit. destruct (negb (se_dirty w)); [apply as_refl|]. apply as_bind; [apply as_store|]. intros ref.
  apply as_bind; [apply as_refl|]. intros now. apply as_bind; [apply as_refl|]. intros target.
  apply as_bind; [intros m a m'; by rewrite detached_answered|]. intros [id|].
  - apply as_bind; [|intros; apply as_refl]. apply as_zoom. apply as_bind; [apply (as_invoke (QCommit zero_inode [] _ id))|intros; apply as_refl].
  - apply as_bind; [|intros; apply as_refl]. apply as_zoom. apply as_bind; [apply (as_invoke (QCommit target.1 target.2 _ zero_inode))|intros; apply as_refl].
Qed.

Lemma as_Flush h : succeeds_as (wr_Flush cfg errorText sv_now invoke h : M mount unit) (wr_Flush cfg errorText sv_now rpc h).
Proof.
  intros m a m'. unfold wr_Flush. rewrite !orErrno_Ok. revert m a m'.
  apply as_bind; [apply as_refl|]. intros hd. apply as_bind; [apply as_commit|intros; apply as_refl].
Qed.

(** ... and one that did not has changed no name before it commits. *)
Definition unchanged m0 m : Prop :=
  mt_nodes m = mt_nodes m0 ∧ same_server (mt_world m0) (mt_world m) ∧ same_meta (sv_db (mt_world m0)) (sv_db (mt_world m)).

Lemma keeps_invoke q m0 :
  (∀ s, same_server s (serve errorText wait (cl_holder (mt_client m0)) q s).2 ∧
        same_meta (sv_db s) (sv_db (serve errorText wait (cl_holder (mt_client m0)) q s).2)) →
  ∀ m, mt_client m = mt_client m0 → unchanged m0 m → unchanged m0 (onClient (invoke q) m).2 ∧
    mt_client (onClient (invoke q) m).2 = mt_client m0.
Proof.
  intros Hs m Hc (Hn & Hsv & Hm). unfold onClient, zoom.
  assert (∀ s', same_server (mt_world m) s' → same_meta (sv_db (mt_world m)) (sv_db s') →
    unchanged m0 (mt_set_client (mt_client m, s') m)) as Hgo.
  { intros s' A1 A2. split; [done|]. split; [by eapply same_server_trans|by eapply same_meta_trans]. }
  specialize (Hs (mt_world m)). rewrite <- Hc in Hs |- *. unfold direct in *.
  destruct (lo_call _ _ _ Hinv q (mt_client m, mt_world m)) as [E|(e & [E|E])]; rewrite E; unfold direct;
    destruct (serve errorText wait (cl_holder (mt_client m)) q (mt_world m)) as [r s']; cbn [fst snd] in *;
    (split; [|done]); apply Hgo; by destruct Hs.
Qed.

Lemma keeps_names_store data m0 :
  keeps (λ m, unchanged m0 m ∧ mt_client m = mt_client m0) (mf_storeContent cfg invoke data : M mount _).
Proof.
  unfold mf_storeContent. destruct (blen data =? 0); [apply keeps_ret|]. apply keeps_bind; [by intros m|]. intros cs.
  apply keeps_bind.
  - unfold storeMissing. apply keeps_bind.
    + apply keeps_fold_m. intros st c _. unfold packMissing. apply keeps_bind.
      * intros m [Hu Hc]. by apply (keeps_invoke (QHasLocator (c_ID c))).
      * intros [|]; apply keeps_ret.
    + intros packed. destruct (0 <? packed.2); [|apply keeps_ret]. unfold sealAndRegister. apply keeps_bind.
      * destruct (Empty packed.1); [apply keeps_ret|]. apply keeps_bind; [by intros m|]. intros rnd m Hm. unfold sealWith.
        by destruct (Seal rnd (mt_backend m, packed.1)) as [res [b p]].
      * intros locs. apply keeps_each. intros [id loc] m [Hu Hc]. apply (keeps_invoke (QPutLocator id loc)); [|done|done].
        intros s. cbn [serve]. unfold srv_PutLocator, mbind, M_bind, gets, onStore.
        destruct (PutLocator_run (sv_region s) id loc (sv_now s) (sv_db s)) as (d' & -> & Hm & _). done.
  - intros _. assert (∀ mf, keeps (λ m, unchanged m0 m ∧ mt_client m = mt_client m0) (mf_putManifest mf : M mount _)) as Hput.
    { intros mf m Hm. unfold mf_putManifest, mbind, M_bind, zoom. by destruct (b_Put _ _ _ (mt_backend m)) as [[oi|e] b]. }
    destruct cs as [|c [|c' cs']]; [|apply keeps_ret|]; (apply keeps_bind; [apply Hput|intros; apply keeps_ret]).
Qed.

Lemma commit_inode_names i rec m :
  waits_quietly wait (mt_world m) → i ≠ zero_inode →
  fs_names (view (sv_db (mt_world (onClient (cl_CommitDetached sv_now invoke i rec) m).2)))
  = fs_names (view (sv_db (mt_world m))).
Proof.
  intros Hq Hi. unfold onClient, zoom, cl_CommitDetached, mbind, M_bind.
  destruct (lo_call _ _ _ Hinv (QCommit zero_inode [] rec i) (mt_client m, mt_world m)) as [E|(e & [E|E])]; rewrite E; [|done|];
    unfold direct; cbn [serve];
    destruct (srv_Commit errorText wait (cl_holder (mt_client m)) zero_inode [] rec i (mt_world m)) as [[a|e'] s1] eqn:Ec;
    apply srv_Detached_run in Ec as [_ Hr]; try done; cbn; rewrite ?Hr; try done;
    by apply UpdateInodeContent_effect in Hr as (-> & _).
Qed.

(** C18: an unlinked file is not brought back.  When the file a handle is open
    on has lost its name (unlinked, or replaced by another file), flushing
    what was written to the handle changes no name, whether the flush
    succeeds or fails, in any consistency class, and whichever requests
    other than the lookup that finds out about the name fail, before or
    after the authority has handled them.  (When that lookup fails the code
    goes on as if the name still led to the file.)  A request is handled
    without another one in between; under posix nobody changes the store
    while the commit waits for its recalls. *)
Theorem unlinked_not_resurrected h hd i m res m' :
  waits_quietly wait (mt_world m) → mt_handles m !! h = Some hd →
  detached_from m (hd_sess hd) = Some i →
  wr_Flush cfg errorText sv_now invoke h m = (res, m') →
  fs_names (view (sv_db (mt_world m'))) = fs_names (view (sv_db (mt_world m))).
Proof.
  intros Hq Hh Hdet Hrun. unfold wr_Flush, orErrno, hd_commit, handleAt, mbind at 1, M_bind at 1 in Hrun. rewrite Hh in Hrun.
  set (w := hd_sess hd) in *.
  assert (fs_names (view (sv_db (mt_world (se_commit cfg sv_now invoke w m).2))) = fs_names (view (sv_db (mt_world m)))) as Hc.
  2: { unfold mbind, M_bind in Hrun. destruct (se_commit cfg sv_now invoke w m) as [[[]|e] m1]; cbn [snd] in Hc;
       by injection Hrun as <- <-. }
  clear Hrun. unfold se_commit. destruct (negb (se_dirty w)); [done|]. unfold mbind at 1, M_bind at 1.
  destruct (keeps_names_store (se_buf w) m m) as [(Hn & Hs & Hm) _]; [done|].
  destruct (mf_storeContent cfg invoke (se_buf w) m) as [[ref|e] m1]; cbn [fst snd] in *; [|by rewrite (same_meta_view _ _ Hm)].
  rewrite <- (same_meta_view _ _ Hm). unfold mf_now, gets, mbind at 1, M_bind at 1.
  set (rec := apply ref _). unfold mbind at 1, M_bind at 1.
  destruct (se_target w m1) as [tres m2] eqn:Et. apply se_target_run in Et as [-> Htgt].
  destruct tres as [tg|e]; [|done]. rewrite (Htgt tg eq_refl). unfold mbind at 1, M_bind at 1. rewrite detached_answered.
  destruct (se_detached rpc w (session_target m1 w).1 (session_target m1 w).2 m1) as [dres m2] eqn:Ed.
  apply se_detached_run in Ed as ((_ & _ & _ & _ & _ & [Ep _]) & Edb & Hd). rewrite <- Edb.
  destruct dres as [det|e]; [|done]. rewrite (Hd det eq_refl), (detached_same m m1 w Hn Hm), Hdet.
  assert (waits_quietly wait (mt_world m2)) as Hq2.
  { eapply waits_same; [|exact Hq]. destruct Hs. congruence. }
  pose proof (commit_inode_names i rec m2 Hq2 (detached_nonzero _ _ _ Hdet)) as Hfin. unfold mbind, M_bind.
  by destruct (onClient (cl_CommitDetached sv_now invoke i rec) m2) as [[a|e] m3].
Qed.

Context (K : bytes → Prop) (N : nat).

(** C4: what is flushed is what is read.  Take a handle with unflushed
    writes, on a mount whose storage is in order, in any consistency class,
    over a connection on which any request other than a lookup may fail,
    before or after the authority has handled it.  When the process flushes
    the handle and is told it worked, the file its session goes to holds
    exactly the session's bytes: there is an inode whose content, read back
    through the mount (over a connection that answers), is the buffer.  The
    name that inode is under is the one the open file has now (so a rename in
    between is honoured), unless the file was unlinked or replaced while
    open, when no name changes and the bytes go to the open inode itself.
    The handle is clean, and every file that could be read before still can.
    A request is handled without another one in between; under posix nobody
    changes the store while the commit waits for its recalls. *)
Theorem flush_then_read h hd m m' :
  universe K → mount_ok cfg wait K N m → mt_handles m !! h = Some hd → se_dirty (hd_sess hd) = true →
  storable K (repo_of cfg m) (se_buf (hd_sess hd)) →
  wr_Flush cfg errorText sv_now invoke h m = (Ok tt, m') → (mt_drawn m' <= N)%nat →
  let f := view (sv_db (mt_world m)) in let f' := view (sv_db (mt_world m')) in
  mount_ok cfg wait K N m' ∧
  mt_handles m' !! h = Some (mkHandle (set_dirty false (hd_sess hd)) (hd_node hd)) ∧
  (∃ id rec, getInodeTx id (sv_db (mt_world m')) = Ok rec ∧
     mf_slurp rpc rec m' = (Ok (se_buf (hd_sess hd)), m') ∧
     match detached_from m (hd_sess hd) with
     | Some i => id = i ∧ fs_names f' = fs_names f
     | None => fs_names f' = <[session_target m (hd_sess hd) := id]> (fs_names f)
     end) ∧
  (∀ rec ds, Forall K ds → readable (repo_of cfg m) rec ds → readable (repo_of cfg m') rec ds).
Proof. intros HK Hok Hh Hd Hst Hrun. apply as_Flush in Hrun. by apply (flush_stores cfg errorText wait K N h). Qed.
End failing.
