(* ===== verification/MdsFuseDemo.v ===== *)
(** A mount to run the theorems on.

    One client over an authority with a fresh store and an object store in
    memory, chunks of four bytes: a file is created, written and flushed;
    then it is unlinked while open, written and flushed again, over a
    connection that loses the answers to commits. *)
From S2P Require Import Prelude Bolt Chunk Manifest Store Pack MetaDB MetaSpec MetaRefine MetaTree.
From S2P Require Import MetaInv MetaThm Coherence RepoUtil Repo RepoRead RepoStore RepoThm RepoCoh RepoDemo.
From S2P Require Import MdsServer MdsClient MdsThm MdsCoh MdsFuse MdsFuseThm.

Local Existing Instance pad_hash.

Abbreviation demo_mount := (Mount (Server MapBolt.mapb) MemBackend.mem).

Definition mcfg : Config := mkConfig false [] 4 0.
Definition mtext (e : error) : bytes := [].
Definition mwait (d : Z) : M (Server MapBolt.mapb) unit := mret tt.
Abbreviation mrpc := (direct mtext mwait).

(** The address of the root's node. *)
Definition mroot : nat := 0.

Definition mboot : demo_mount :=
  mkMount (NewClient (str "h")) (NewServer (Open 1000 1000 0) Second false 0 (str "local") 5) ∅ demo_rand 0
    {[mroot := mkNode RootInode demo_rec zero_inode [] None]} ∅ 1.

(** [creat("a")], and six bytes written. *)
Definition mcreated : result (nat * nat * Attr) * demo_mount := mf_Create mcfg mtext sv_now mrpc mroot (str "a") 420 1000 1000 mboot.
Definition mhandle : nat := 1.
Definition mchild : nat := 2.
Definition mwritten : demo_mount := (wr_Write mhandle content_a 0 mcreated.2).2.
Definition mflush : result unit * demo_mount := wr_Flush mcfg mtext sv_now mrpc mhandle mwritten.

(** The file loses its name while it is open; three bytes are written. *)
Definition munlinked : demo_mount :=
  (wr_Write mhandle content_b 0 (mf_Unlink mcfg mtext sv_now mrpc mroot (str "a") mflush.2).2).2.

(** A connection that loses the answer to every commit, and one that loses
    every lookup. *)
Definition mlossy (q : request) : M (Client * Server MapBolt.mapb) (response q) := λ cs,
  match q with QCommit _ _ _ _ => (Err (ErrStatus codes_DeadlineExceeded []), (mrpc q cs).2) | _ => mrpc q cs end.
Definition mdeaf (q : request) : M (Client * Server MapBolt.mapb) (response q) := λ cs,
  match q with QLookup _ _ => (Err (ErrStatus codes_DeadlineExceeded []), cs) | _ => mrpc q cs end.
Definition mghost : result unit * demo_mount := wr_Flush mcfg mtext sv_now mlossy mhandle munlinked.
Definition mrisen : result unit * demo_mount := wr_Flush mcfg mtext sv_now mdeaf mhandle munlinked.

Definition mhd (m : demo_mount) : writeHandle :=
  default (mkHandle (mkSession zero_inode [] None 0 false 0 0 [] false false) None) (mt_handles m !! mhandle).

(** "xyzdef" is what the second flush stores. *)
Definition content_c : bytes := str "xyzdef".
Definition mstrings : list bytes :=
  [str "abcd"; str "ef"; str "xyzd"; EncodeBytes (manifest_of 4 content_a); EncodeBytes (manifest_of 4 content_c)].
Definition mK (b : bytes) : Prop := b ∈ mstrings.

Definition mount_check (m : demo_mount) : bool :=
  bool_decide (regionOf mcfg = sv_region (mt_world m)) && repo_check mstrings 6 (mount_repo mcfg (idle mcfg) m) && (mt_drawn m <=? 6)%nat.

Definition storable_check (content : bytes) : bool :=
  bool_decide (Forall (.∈ mstrings) (pieces_of 4 content))
  && bool_decide (EncodeBytes (manifest_of 4 content) ∈ mstrings)
  && (blen content <? 2 ^ 63) && (Z.of_nat (length (pieces_of 4 content)) <? 2 ^ 32).

(** A mount whose tables hold a file under its old name. *)
Definition mrenamed : result unit * demo_mount :=
  mf_Rename mcfg mtext sv_now mrpc mroot (str "a") (Some mchild) (Some mroot) (str "b") 0 mflush.2.

(** The handle is released, and the nameless file truncated. *)
Definition mtruncated : result Attr * demo_mount :=
  mf_Setattr mcfg mtext sv_now mrpc mchild (mkSetAttrIn None None None None None (Some 1))
    (wr_Release mcfg mtext sv_now mrpc mhandle munlinked).2.

Lemma mwait_quiet s : waits_quietly mwait s.
Proof. by intros _ id s1. Qed.

Lemma mount_check_sound (m : demo_mount) : mount_check m = true → mount_ok mcfg mwait mK 6 m.
Proof.
  unfold mount_check. rewrite !andb_true_iff, bool_decide_eq_true, Nat.leb_le.
  intros ((Hr & [Hi _]%repo_check_sound) & Hd). split; [done|apply mwait_quiet|done|done].
Qed.

Lemma mrpc_lossy : lossy mtext mwait mrpc.
Proof. split; [by left|done]. Qed.

Lemma mlossy_lossy : lossy mtext mwait mlossy.
Proof. split; [|done]. intros [] cs; cbn; try (by left). right. eexists. by right. Qed.

Lemma storable_check_sound (content : bytes) (m : demo_mount) : storable_check content = true → storable mK (mount_repo mcfg (idle mcfg) m) content.
Proof.
  unfold storable_check. rewrite !andb_true_iff, !bool_decide_eq_true, !Z.ltb_lt. intros (((Hp & Hm) & Hl) & Hn).
  split; [by cbn|done..].
Qed.

Lemma mount_universe : universe mK.
Proof. apply (universe_check mstrings). vm_cast_no_check (eq_refl true). Qed.

Lemma mwritten_ok : mount_ok mcfg mwait mK 6 mwritten.
Proof. apply mount_check_sound. vm_cast_no_check (eq_refl true). Qed.

Lemma mhd_at m : bool_decide (is_Some (mt_handles m !! mhandle)) = true → mt_handles m !! mhandle = Some (mhd m).
Proof. intros [hd E]%bool_decide_eq_true. unfold mhd. by rewrite E. Qed.

Lemma ran {S} (p : result unit * S) : is_ok p.1 = true → p = (Ok tt, p.2).
Proof. by destruct p as [[[]|e] s]. Qed.

(** The flush went through, so its file can be read. *)
Lemma mflush_readable : ∃ rec, readable (mount_repo mcfg (idle mcfg) mflush.2) rec [str "abcd"; str "ef"].
Proof.
  assert (mt_handles mwritten !! mhandle = Some (mhd mwritten)) as Hh by (apply mhd_at; vm_cast_no_check (eq_refl true)).
  assert (is_ok mflush.1 = true) as Hok by (vm_cast_no_check (eq_refl true)).
  destruct (wr_Flush_run mcfg mtext mwait mhandle (mhd mwritten) mwritten (Ok tt) mflush.2 Hh (ran mflush Hok))
    as (cres & m1 & Hc & Hres & E).
  destruct cres as [[]|e]; [|discriminate Hres].
  assert ((mt_drawn mflush.2 <=? 6)%nat = true) as HN by (vm_cast_no_check (eq_refl true)).
  assert (se_dirty (hd_sess (mhd mwritten)) = true) as Hd by (vm_cast_no_check (eq_refl true)).
  assert (bool_decide (pieces_of 4 (se_buf (hd_sess (mhd mwritten))) = [str "abcd"; str "ef"]) = true) as Hp
    by (vm_cast_no_check (eq_refl true)).
  assert (storable_check (se_buf (hd_sess (mhd mwritten))) = true) as Hst by (vm_cast_no_check (eq_refl true)).
  apply bool_decide_eq_true in Hp. apply Nat.leb_le in HN. rewrite E in HN |- *.
  destruct (se_commit_ok mcfg mtext mwait mK 6 _ _ _ _ mount_universe mwritten_ok Hd (storable_check_sound _ _ Hst) Hc HN)
    as (_ & _ & _ & _ & id & rec & _ & Hr & _).
  exists rec. rewrite <- Hp. exact Hr.
Qed.

(** * Witnesses *)

Lemma flush_then_read_witness :
  ∃ id rec, getInodeTx id (sv_db (mt_world mflush.2)) = Ok rec ∧
    mf_slurp mrpc rec mflush.2 = (Ok content_a, mflush.2).
Proof.
  assert (bool_decide (se_buf (hd_sess (mhd mwritten)) = content_a) = true) as Hb by (vm_cast_no_check (eq_refl true)).
  apply bool_decide_eq_true in Hb.
  assert (mflush = (Ok tt, mflush.2)) as Hrun by (apply ran; vm_cast_no_check (eq_refl true)).
  assert ((mt_drawn mflush.2 <=? 6)%nat = true) as HN by (vm_cast_no_check (eq_refl true)).
  assert (storable mK (mount_repo mcfg (idle mcfg) mwritten) (se_buf (hd_sess (mhd mwritten)))) as Hst.
  { rewrite Hb. apply storable_check_sound. vm_cast_no_check (eq_refl true). }
  destruct (flush_then_read mcfg mtext mwait mrpc mrpc_lossy mK 6 mhandle (mhd mwritten) mwritten mflush.2 mount_universe mwritten_ok)
    as (_ & _ & (id & rec & Hid & Hr & _) & _).
  - apply mhd_at. vm_cast_no_check (eq_refl true).
  - vm_cast_no_check (eq_refl true).
  - exact Hst.
  - exact Hrun.
  - by apply Nat.leb_le.
  - rewrite Hb in Hr. exists id, rec. split; [exact Hid|exact Hr].
Defined.

Lemma unlinked_not_resurrected_witness :
  is_ok mghost.1 = false ∧ fs_names (view (sv_db (mt_world mghost.2))) = fs_names (view (sv_db (mt_world munlinked))).
Proof.
  assert (negb (is_ok mghost.1) = true) as Hok by (vm_cast_no_check (eq_refl true)).
  apply negb_true_iff in Hok. split; [exact Hok|].
  assert (bool_decide (detached_from munlinked (hd_sess (mhd munlinked)) = Some id_a) = true) as Hd
    by (vm_cast_no_check (eq_refl true)).
  apply bool_decide_eq_true in Hd.
  apply (unlinked_not_resurrected mcfg mtext mwait mlossy mlossy_lossy mhandle (mhd munlinked) id_a munlinked mghost.1 mghost.2).
  - apply mwait_quiet.
  - apply mhd_at. vm_cast_no_check (eq_refl true).
  - exact Hd.
  - apply surjective_pairing.
Defined.

(** When the lookup fails the name comes back, bound to a new file. *)
Lemma lost_lookup_resurrects :
  is_ok mrisen.1 = true ∧ is_ok (lookupTx RootInode (str "a") (sv_db (mt_world munlinked))) = false ∧
  is_ok (lookupTx RootInode (str "a") (sv_db (mt_world mrisen.2))) = true.
Proof.
  assert (is_ok mrisen.1 && negb (is_ok (lookupTx RootInode (str "a") (sv_db (mt_world munlinked))))
    && is_ok (lookupTx RootInode (str "a") (sv_db (mt_world mrisen.2))) = true) as E by (vm_cast_no_check (eq_refl true)).
  apply andb_true_iff in E as [[E1 E2]%andb_true_iff E3]. apply negb_true_iff in E2.
  exact (conj E1 (conj E2 E3)).
Qed.

Lemma rename_moves_open_file_witness :
  is_ok mrenamed.1 = true ∧
  se_target (hd_sess (mhd mwritten)) mrenamed.2 = (Ok (RootInode, str "b"), mrenamed.2).
Proof.
  assert (is_ok mrenamed.1 = true) as Hok by (vm_cast_no_check (eq_refl true)). split; [exact Hok|].
  assert (match mt_nodes mflush.2 !! mroot with Some nd => bool_decide (nd_ino nd = RootInode) | None => false end = true)
    as Hn by (vm_cast_no_check (eq_refl true)).
  destruct (mt_nodes mflush.2 !! mroot) as [dst|] eqn:Hdst; [|discriminate Hn].
  apply bool_decide_eq_true in Hn. rewrite <- Hn.
  pose proof (rename_moves_open_file mcfg mtext sv_now mrpc mroot (str "a") mchild mroot (str "b") mflush.2 mrenamed.2 dst
    ltac:(discriminate) Hdst (ran mrenamed Hok) (hd_sess (mhd mwritten))) as Hmove.
  assert (bool_decide (se_node (hd_sess (mhd mwritten)) = Some mchild) = true) as Hs by (vm_cast_no_check (eq_refl true)).
  apply bool_decide_eq_true in Hs. rewrite Hs in Hmove. exact Hmove.
Defined.

Lemma read_only_refuses_witness :
  run_mop (mkConfig true [] 4 0) mtext sv_now mrpc mroot (MUnlink (str "a")) mflush.2 = (Err (SysErrno EROFS), mflush.2).
Proof.
  exact (read_only_refuses (mkConfig true [] 4 0) mtext sv_now mrpc mroot (MUnlink (str "a")) mflush.2 eq_refl).
Defined.

Lemma mount_reads_content_witness :
  ∃ rec fr fr', newReader rec mflush.2 = (Ok fr, mflush.2) ∧
    fh_Read mtext mrpc 3 2 (fr, mflush.2) = (Ok (str "cde"), (fr', mflush.2)).
Proof.
  destruct mflush_readable as [rec Hr].
  destruct (mount_reads_content mcfg mtext mwait rec [str "abcd"; str "ef"] mflush.2 Hr) as [(fr & Hnew & Hok) Hread].
  destruct (Hread fr 3%nat 2 Hok ltac:(lia)) as (fr' & E & _).
  exists rec, fr, fr'. split; [exact Hnew|]. exact E.
Defined.

(** Truncating a file that has lost its name brings the name back: the session
    [Setattr] makes for it has no node, so its commit does not look whether
    the name still leads to the inode. *)
Lemma truncate_brings_back :
  lookupTx RootInode (str "a") (sv_db (mt_world munlinked)) = Err ErrNotFound ∧
  is_ok mtruncated.1 = true ∧ is_ok (lookupTx RootInode (str "a") (sv_db (mt_world mtruncated.2))) = true.
Proof.
  assert (is_ok (lookupTx RootInode (str "a") (sv_db (mt_world munlinked))) = false) as Hn by (vm_cast_no_check (eq_refl false)).
  split; [|split; vm_cast_no_check (eq_refl true)]. revert Hn. unfold lookupTx. by destruct (bk_get _ _).
Qed.
