(* ===== verification/FuseServer.v ===== *)
(** pkg/fuseserver: the mount over a repository in the same process.

    [FuMount] is one mounted repository: the repository, the heap of [Node]s
    and of open files by address, and the time.  Methods of a node or of a
    file take its address.  The mount registers with the repository's lease
    manager as the holder "local"; the callback a node subscribes is the
    node's own address, and [onRepo] marks the nodes stale whose callbacks a
    call on the repository has fired: marking reads and writes nothing the
    call does.  What go-fuse supplies is an argument, and the address of a new
    [Node] is returned in place of the [fs.Inode] go-fuse builds around it;
    the notification of the kernel is left out.  Constants of the platform,
    [Attr] and [SetAttrIn] are those of MdsFuse. *)
From S2P Require Import Prelude Bolt Chunk Manifest Store Pack MetaDB Coherence RepoUtil Repo RepoRead.
From S2P Require Import MdsServer MdsFuse.

Definition coherenceHolder : bytes := str "local".

(** The owner of a new inode: the caller go-fuse names, or the process. *)
Definition callerOwner (caller : option Owner) (uid gid : Z) : Owner :=
  match caller with Some c => mkOwner (o_Uid c) (o_Gid c) | None => mkOwner (u32 uid) (u32 gid) end.

(** ** Attributes *)

Definition fu_nsecOf (t : time) : Z := if IsZero t then 0 else u32 (Nanosecond t).
Definition fu_unixOrZero (t : time) : Z := if IsZero t then 0 else u64 (Unix t).
Definition fu_nlinkOf (rec : InodeRecord) : Z := u32 (NLink rec).
Definition fu_permBits (mode : Z) (mutable : bool) : Z :=
  let perm := Z.land mode mode_7777 in if negb mutable then Z.ldiff perm 146 else perm.

Definition fillAttrOut (rec : InodeRecord) (mutable : bool) : Attr :=
  let sec := if negb (IsZero (MTime rec)) then u64 (Unix (MTime rec)) else 0 in
  let '(mode, nlink) :=
    if IsDir rec then (Z.lor S_IFDIR (fu_permBits (Mode rec) mutable), fu_nlinkOf rec)
    else if IsSymlink rec then (Z.lor S_IFLNK mode_777, 1)
    else if negb (Type_ rec =? 0) then (Z.lor (Type_ rec) (fu_permBits (Mode rec) mutable), fu_nlinkOf rec)
    else (Z.lor S_IFREG (fu_permBits (Mode rec) mutable), fu_nlinkOf rec) in
  mkAttr (Size rec) (Uid rec) (Gid rec)
    sec (fu_nsecOf (MTime rec)) (fu_unixOrZero (Atime rec)) (fu_nsecOf (Atime rec))
    (fu_unixOrZero (Ctime rec)) (fu_nsecOf (Ctime rec)) mode nlink (Rdev rec).

Definition fu_direntMode (rec : InodeRecord) : Z :=
  if IsDir rec then S_IFDIR else if IsSymlink rec then S_IFLNK
  else if negb (Type_ rec =? 0) then Type_ rec else S_IFREG.

Definition fu_statfsBlockSize : Z := 4096.

(** Block size, blocks, free blocks, files, free files, longest name. *)
Definition fillStatfs (info : StatfsInfo) : Z * Z * Z * Z * Z * Z :=
  (fu_statfsBlockSize, sf_Total info / fu_statfsBlockSize, Free info / fu_statfsBlockSize,
   sf_Files info, FilesFree info, 255).

Definition fu_errnoFor (err : error) : Z :=
  match err with
  | CtxCanceled | CtxDeadlineExceeded => EINTR
  | RepoErrReadOnly => EROFS
  | ErrNotFound => ENOENT
  | RepoErrExists | ErrExists => EEXIST
  | RepoErrIsDirectory | ErrIsDirectory => EISDIR
  | RepoErrNotDir | ErrNotDir => ENOTDIR
  | RepoErrNotEmpty | ErrNotEmpty => ENOTEMPTY
  | ErrInvalidRename => MdsServer.EINVAL
  | ErrNameTooLong => ENAMETOOLONG
  | RepoErrFileTooBig => errnoZ EFBIG
  | SysErrno e => if e =? ENOSPC then ENOSPC else if e =? EDQUOT then EDQUOT else EIO
  | RepoErrQuotaExceeded | ErrQuotaExceeded => EDQUOT
  | _ => EIO
  end.

(** ** The mount *)

Record fuNode := mkFuNode {
  fn_ino : InodeID; fn_parent : InodeID; fn_name : bytes;
  fn_cachedRec : InodeRecord; fn_stale : bool; fn_activeWrite : option nat
}.

Record writeFileHandle := mkWriteFile {
  wf_parent : InodeID; wf_name : bytes; wf_mode : Z; wf_modeSet : bool;
  wf_node : option nat; wf_release : option nat; wf_buf : bytes; wf_dirty : bool
}.

Record fileHandle := mkFileHandle { fh_fr : FileReader; fh_release : option nat }.

Definition fn_set_cached (rec : InodeRecord) (n : fuNode) : fuNode :=
  mkFuNode (fn_ino n) (fn_parent n) (fn_name n) rec false (fn_activeWrite n).
Definition fn_set_stale (n : fuNode) : fuNode :=
  mkFuNode (fn_ino n) (fn_parent n) (fn_name n) (fn_cachedRec n) true (fn_activeWrite n).
Definition fn_set_binding (parent : InodeID) (name : bytes) (n : fuNode) : fuNode :=
  mkFuNode (fn_ino n) parent name (fn_cachedRec n) (fn_stale n) (fn_activeWrite n).
Definition fn_set_active (h : option nat) (n : fuNode) : fuNode :=
  mkFuNode (fn_ino n) (fn_parent n) (fn_name n) (fn_cachedRec n) (fn_stale n) h.

(** [&Node{repo, ino, parent, name}] after [setCached]. *)
Definition fresh_node (ino parent : InodeID) (name : bytes) (rec : InodeRecord) : fuNode :=
  mkFuNode ino parent name rec false None.

Definition wf_set_buf (buf : bytes) (dirty : bool) (h : writeFileHandle) : writeFileHandle :=
  mkWriteFile (wf_parent h) (wf_name h) (wf_mode h) (wf_modeSet h) (wf_node h) (wf_release h) buf dirty.

(** *** The buffer of an open file *)

Definition wf_resize (sz : Z) (h : writeFileHandle) : writeFileHandle :=
  wf_set_buf (if u64 (blen (wf_buf h)) <? sz then wf_buf h ++ zeros (sz - blen (wf_buf h))
              else take (Z.to_nat sz) (wf_buf h)) true h.

Definition wf_write (data : bytes) (off : Z) (h : writeFileHandle) : result writeFileHandle :=
  let end_ := i64 (off + blen data) in
  let buf := if blen (wf_buf h) <? end_ then wf_buf h ++ zeros (end_ - blen (wf_buf h)) else wf_buf h in
  if (off <? 0) || (blen buf <? off) then Err ErrPanic
  else Ok (wf_set_buf (copy_at (Z.to_nat off) data buf) true h).

Definition wf_read (n : nat) (off : Z) (h : writeFileHandle) : result bytes :=
  let len := blen (wf_buf h) in
  if len <=? off then Ok []
  else
    let end_ := i64 (off + Z.of_nat n) in
    let end_ := if len <? end_ then len else end_ in
    if (off <? 0) || (end_ <? off) then Err ErrPanic
    else Ok (slice off (end_ - off) (wf_buf h)).

Definition wf_allocate (off size mode : Z) (h : writeFileHandle) : result writeFileHandle :=
  match ApplyFallocate (wf_buf h) off size mode with
  | FPanic => Err ErrPanic
  | FReturn buf changed err =>
      match err with
      | Some e => Err (SysErrno (errnoZ e))
      | None => Ok (wf_set_buf buf (if (changed : bool) then true else wf_dirty h) h)
      end
  end.

Section mount.
Context {bucket : Type → Type} `{BoltOps bucket} {B : Type} `{BackendOps B} {blake3 : Blake3}.

(** A callback is the address of the node it marks. *)
Abbreviation repo := (Repo bucket B nat unit).

Record FuMount := mkFuMount {
  fu_repo : repo;
  fu_nodes : gmap nat fuNode;
  fu_writes : gmap nat writeFileHandle;
  fu_reads : gmap nat fileHandle;
  fu_next : nat;
  fu_now : time
}.

Definition fu_set_repo (r : repo) (s : FuMount) : FuMount :=
  mkFuMount r (fu_nodes s) (fu_writes s) (fu_reads s) (fu_next s) (fu_now s).
Definition fu_set_nodes (x : gmap nat fuNode) (s : FuMount) : FuMount :=
  mkFuMount (fu_repo s) x (fu_writes s) (fu_reads s) (fu_next s) (fu_now s).
Definition fu_set_writes (x : gmap nat writeFileHandle) (s : FuMount) : FuMount :=
  mkFuMount (fu_repo s) (fu_nodes s) x (fu_reads s) (fu_next s) (fu_now s).
Definition fu_set_reads (x : gmap nat fileHandle) (s : FuMount) : FuMount :=
  mkFuMount (fu_repo s) (fu_nodes s) (fu_writes s) x (fu_next s) (fu_now s).
Definition fu_set_next (n : nat) (s : FuMount) : FuMount :=
  mkFuMount (fu_repo s) (fu_nodes s) (fu_writes s) (fu_reads s) n (fu_now s).

(** Dereferencing, and allocation. *)
Definition fu_nodeAt (n : nat) : M FuMount fuNode := λ s,
  match fu_nodes s !! n with Some nd => (Ok nd, s) | None => (Err ErrPanic, s) end.
Definition fu_writeAt (h : nat) : M FuMount writeFileHandle := λ s,
  match fu_writes s !! h with Some w => (Ok w, s) | None => (Err ErrPanic, s) end.
Definition fu_readAt (h : nat) : M FuMount fileHandle := λ s,
  match fu_reads s !! h with Some x => (Ok x, s) | None => (Err ErrPanic, s) end.
Definition onNode (n : nat) (f : fuNode → fuNode) : M FuMount unit :=
  modify (λ s, fu_set_nodes (alter f n (fu_nodes s)) s).
Definition putWrite (h : nat) (w : writeFileHandle) : M FuMount unit :=
  modify (λ s, fu_set_writes (<[h := w]> (fu_writes s)) s).
Definition putRead (h : nat) (x : fileHandle) : M FuMount unit :=
  modify (λ s, fu_set_reads (<[h := x]> (fu_reads s)) s).
Definition fu_newNode (nd : fuNode) : M FuMount nat := λ s,
  (Ok (fu_next s), fu_set_next (S (fu_next s)) (fu_set_nodes (<[fu_next s := nd]> (fu_nodes s)) s)).
Definition newWrite (w : writeFileHandle) : M FuMount nat := λ s,
  (Ok (fu_next s), fu_set_next (S (fu_next s)) (fu_set_writes (<[fu_next s := w]> (fu_writes s)) s)).
Definition newRead (x : fileHandle) : M FuMount nat := λ s,
  (Ok (fu_next s), fu_set_next (S (fu_next s)) (fu_set_reads (<[fu_next s := x]> (fu_reads s)) s)).

Definition setCached (n : nat) (rec : InodeRecord) : M FuMount unit := onNode n (fn_set_cached rec).
Definition markStale (n : nat) (s : FuMount) : FuMount := fu_set_nodes (alter fn_set_stale n (fu_nodes s)) s.

(** A call on the repository, and the callbacks it fires. *)
Definition onRepo {A} (m : M repo A) : M FuMount A := λ s,
  let '(res, r) := m (fu_repo s) in
  (res, fold_left (λ s n, markStale n s) (r_fired r) (fu_set_repo (set_fired [] r) s)).

(** [return errnoFor(err)], and [return syscall.EIO] on any error. *)
Definition fu_orErrno {A} (m : M FuMount A) : M FuMount A := λ s,
  match m s with (Err e, s') => (Err (SysErrno (fu_errnoFor e)), s') | ok => ok end.
Definition fu_orEIO {A} (m : M FuMount A) : M FuMount A := λ s,
  match m s with (Err _, s') => (Err (SysErrno EIO), s') | ok => ok end.
Definition fu_throw {A} (e : Z) : M FuMount A := throw (SysErrno e).

Definition fu_mutable : M FuMount bool := gets (λ s, Mutable (r_Class (fu_repo s))).
Definition clockNow : M FuMount time := gets fu_now.
Definition fu_GetInode (id : InodeID) : M FuMount InodeRecord := onRepo (onDB (GetInode id)).

(** Pins of open files: [Acquire], and the function it returned. *)
Definition fu_acquire (id : InodeID) : M FuMount nat := λ s,
  let '(h, o) := Acquire id (r_OpenHandles (fu_repo s)) in (Ok h, fu_set_repo (set_OpenHandles o (fu_repo s)) s).
Definition fu_release (h : option nat) : M FuMount unit :=
  match h with
  | None => mret tt
  | Some h => modify (λ s, fu_set_repo (set_OpenHandles (release h (r_OpenHandles (fu_repo s))) (fu_repo s)) s)
  end.

(** *** Attributes and lookups *)

(** [Grant] and [Subscribe] of [currentRec]. *)
Definition grantSelf (key : bytes) (n : nat) : M FuMount unit :=
  modify (λ s, fu_set_repo (set_Coherence
    ((λ m, (Subscribe coherenceHolder key n (Grant coherenceHolder key (fu_now s) m).2).2) <$> r_Coherence (fu_repo s))
    (fu_repo s)) s).

Definition currentRec (n : nat) : M FuMount InodeRecord :=
  nd ← fu_nodeAt n;
  s ← gets id;
  match r_Coherence (fu_repo s) with
  | None => mret (fn_cachedRec nd)
  | Some m =>
      let key := InodeCoherenceKey (fn_ino nd) in
      if negb (fn_stale nd) && bool_decide (is_Some (TrustedVersion coherenceHolder key (fu_now s) m))
      then mret (fn_cachedRec nd)
      else
        rec ← fu_orEIO (fu_GetInode (fn_ino nd));
        setCached n rec ≫= λ _,
        grantSelf key n ≫= λ _,
        mret rec
  end.

Definition fu_Statfs : M FuMount (Z * Z * Z * Z * Z * Z) := gets (λ s, fillStatfs (Statfs (fu_repo s))).

Definition wf_size (h : nat) : M FuMount Z := w ← fu_writeAt h; mret (u64 (blen (wf_buf w))).

Definition fu_Getattr (n : nat) : M FuMount Attr :=
  rec ← currentRec n;
  mut ← fu_mutable;
  nd ← fu_nodeAt n;
  let attr := fillAttrOut rec mut in
  match fn_activeWrite nd with
  | None => mret attr
  | Some h => size ← wf_size h; mret (set_at_Size size attr)
  end.

Definition fu_Readlink (n : nat) : M FuMount bytes :=
  rec ← currentRec n;
  if negb (IsSymlink rec) then fu_throw MdsServer.EINVAL else mret (SymlinkTarget rec).

(** A node for an inode, with its attributes. *)
Definition fu_adopt (nd : fuNode) (name : bytes) (id : InodeID) : M FuMount (nat * Attr) :=
  rec ← fu_orEIO (fu_GetInode id);
  mut ← fu_mutable;
  child ← fu_newNode (fresh_node id (fn_ino nd) name rec);
  mret (child, fillAttrOut rec mut).

Definition negativeTrusted (dirKey name : bytes) : M FuMount bool :=
  gets (λ s, match r_Coherence (fu_repo s) with
             | None => false
             | Some m => NegativeTrusted coherenceHolder dirKey name (fu_now s) m
             end).
Definition grantNegative (dirKey name : bytes) : M FuMount unit :=
  modify (λ s, fu_set_repo (set_Coherence
    (GrantNegative coherenceHolder dirKey name (fu_now s) <$> r_Coherence (fu_repo s)) (fu_repo s)) s).

Definition fu_Lookup (n : nat) (name : bytes) : M FuMount (nat * Attr) :=
  rec ← currentRec n;
  if negb (IsDir rec) then fu_throw ENOTDIR
  else if MaxNameLen <? blen name then fu_throw ENAMETOOLONG
  else
    nd ← fu_nodeAt n;
    let dirKey := DirCoherenceKey (fn_ino nd) in
    absent ← negativeTrusted dirKey name;
    if (absent : bool) then fu_throw ENOENT
    else
      res ← attempt (onRepo (onDB (Lookup (fn_ino nd) name)));
      match res with
      | Err _ => grantNegative dirKey name ≫= λ _, fu_throw ENOENT
      | Ok childIno => fu_adopt nd name childIno
      end.

(** The entries of a directory stream; an inode that cannot be read is left
    out. *)
Fixpoint fu_direntries (es : list DirEntry) : M FuMount (list (bytes * InodeID * Z)) :=
  match es with
  | [] => mret []
  | e :: es' =>
      res ← attempt (fu_GetInode (de_Inode e));
      xs ← fu_direntries es';
      mret (match res with Ok rec => (de_Name e, de_Inode e, fu_direntMode rec) :: xs | Err _ => xs end)
  end.

Definition fu_Readdir (n : nat) : M FuMount (list (bytes * InodeID * Z)) :=
  rec ← currentRec n;
  if negb (IsDir rec) then fu_throw ENOTDIR
  else
    nd ← fu_nodeAt n;
    entries ← fu_orEIO (onRepo (repo_Readdir (fn_ino nd)));
    fu_direntries entries.

(** *** Open files *)

(** [fr.ReadAll()] of a file just opened. *)
Definition readWhole (rec : InodeRecord) : M FuMount bytes := λ s,
  match OpenFile rec (fu_repo s) with
  | Err e => (Err e, s)
  | Ok fr => ((fr_ReadAll (fu_repo s) fr).1, s)
  end.

Definition fu_openWrite (n : nat) (rec : InodeRecord) (truncate : bool) : M FuMount nat :=
  nd ← fu_nodeAt n;
  pin ← fu_acquire (fn_ino nd);
  let wh := mkWriteFile (fn_parent nd) (fn_name nd) 0 false (Some n) (Some pin) [] false in
  wh ← (if truncate then mret (wf_set_buf [] true wh)
        else if 0 <? Size rec then
          res ← attempt (readWhole rec);
          match res with
          | Err _ => fu_release (Some pin) ≫= λ _, fu_throw EIO
          | Ok data => mret (wf_set_buf data false wh)
          end
        else mret wh);
  h ← newWrite wh;
  onNode n (fn_set_active (Some h)) ≫= λ _,
  mret h.

Definition fu_openRead (n : nat) (rec : InodeRecord) : M FuMount nat :=
  nd ← fu_nodeAt n;
  fr ← fu_orEIO (λ s, (OpenFile rec (fu_repo s), s));
  pin ← fu_acquire (fn_ino nd);
  newRead (mkFileHandle fr (Some pin)).

(** [Open]: the address of a write handle, or of a read handle. *)
Definition fu_Open (n : nat) (flags : Z) : M FuMount (nat + nat) :=
  rec ← currentRec n;
  if IsDir rec then fu_throw EISDIR
  else if IsSymlink rec then fu_throw MdsServer.EINVAL
  else if negb (Z.land flags (Z.lor O_WRONLY O_RDWR) =? 0) then
    mut ← fu_mutable;
    if negb mut then fu_throw EROFS
    else h ← fu_openWrite n rec (negb (Z.land flags O_TRUNC =? 0)); mret (inl h)
  else h ← fu_openRead n rec; mret (inr h).

(** [wh.Commit(ctx)] and [wh.CommitDetached(ctx, id)] of a handle that is not
    used again. *)
Definition commitHandle (h : WriteHandle) : M FuMount InodeID :=
  now ← clockNow;
  onRepo (λ r, let '(res, (_, r')) := Commit now now (h, r) in (res, r')).
Definition commitDetachedHandle (h : WriteHandle) (id : InodeID) : M FuMount unit :=
  now ← clockNow;
  onRepo (λ r, let '(res, (_, r')) := CommitDetached id now now (h, r) in (res, r')).

(** [wh.Write(buf)]. *)
Definition writeInto (h : WriteHandle) (buf : bytes) : M FuMount WriteHandle :=
  match wh_Write buf h with (Ok _, h') => mret h' | (Err e, _) => throw e end.

Definition fu_Create (n : nat) (name : bytes) (mode : Z) (owner : Owner) : M FuMount (nat * nat * Attr) :=
  mut ← fu_mutable;
  if negb mut then fu_throw EROFS
  else
    parentRec ← currentRec n;
    if negb (IsDir parentRec) then fu_throw ENOTDIR
    else
      nd ← fu_nodeAt n;
      h ← fu_orErrno (onRepo (CreateFile (fn_ino nd) name));
      let h := SetOwner owner (SetMode mode h) in
      id ← fu_orErrno (commitHandle h);
      pin ← fu_acquire id;
      res ← attempt (fu_GetInode id);
      match res with
      | Err _ => fu_release (Some pin) ≫= λ _, fu_throw EIO
      | Ok rec =>
          child ← fu_newNode (fresh_node id (fn_ino nd) name rec);
          fh ← newWrite (mkWriteFile (fn_ino nd) name (Z.land mode mode_7777) true (Some child) (Some pin) [] false);
          onNode child (fn_set_active (Some fh)) ≫= λ _,
          mret (child, fh, fillAttrOut rec mut)
      end.

(** [writeFileHandle.target] and [detachedFrom]. *)
Definition wf_target (w : writeFileHandle) : M FuMount (InodeID * bytes) :=
  match wf_node w with
  | None => mret (wf_parent w, wf_name w)
  | Some n => nd ← fu_nodeAt n;
              mret (if bool_decide (fn_name nd = []) then (wf_parent w, wf_name w) else (fn_parent nd, fn_name nd))
  end.

Definition detachedFrom (w : writeFileHandle) (parent : InodeID) (name : bytes) : M FuMount (option InodeID) :=
  match wf_node w with
  | None => mret None
  | Some n =>
      nd ← fu_nodeAt n;
      if bool_decide (fn_ino nd = zero_inode) then mret None
      else
        res ← attempt (onRepo (onDB (Lookup parent name)));
        mret (match res with
              | Ok bound => if bool_decide (bound = fn_ino nd) then None else Some (fn_ino nd)
              | Err _ => Some (fn_ino nd)
              end)
  end.

(** [if rec, err := GetInode(id); err == nil { node.setCached(rec) }]. *)
Definition refresh (n : option nat) (id : InodeID) : M FuMount unit :=
  match n with
  | None => mret tt
  | Some n =>
      res ← attempt (fu_GetInode id);
      match res with Ok rec => setCached n rec | Err _ => mret tt end
  end.

(** [commitIfDirty], once the file is marked clean. *)
Definition commitBuffer (w : writeFileHandle) : M FuMount unit :=
  target ← wf_target w;
  wh ← fu_orErrno (onRepo (CreateFile target.1 target.2));
  let wh := if wf_modeSet w then SetMode (wf_mode w) wh else wh in
  wh ← fu_orEIO (writeInto wh (wf_buf w));
  det ← detachedFrom w target.1 target.2;
  match (det : option InodeID) with
  | Some id =>
      fu_orErrno (commitDetachedHandle wh id) ≫= λ _,
      refresh (wf_node w) id
  | None =>
      id ← fu_orErrno (commitHandle wh);
      refresh (wf_node w) id
  end.

Definition commitIfDirty (h : nat) : M FuMount unit :=
  w ← fu_writeAt h;
  if negb (wf_dirty w) then mret tt
  else
    putWrite h (wf_set_buf (wf_buf w) false w) ≫= λ _,
    commitBuffer w.

Definition fu_Fsync (h : nat) : M FuMount unit := commitIfDirty h.
Definition fu_Flush (h : nat) : M FuMount unit := commitIfDirty h.

Definition fu_Allocate (h : nat) (off size mode : Z) : M FuMount unit :=
  w ← fu_writeAt h;
  w' ← of_result (wf_allocate off size mode w);
  putWrite h w'.

Definition fu_Write (h : nat) (data : bytes) (off : Z) : M FuMount Z :=
  w ← fu_writeAt h;
  w' ← of_result (wf_write data off w);
  putWrite h w' ≫= λ _,
  mret (u32 (blen data)).

Definition fu_ReadBuf (h : nat) (n : nat) (off : Z) : M FuMount bytes :=
  w ← fu_writeAt h;
  of_result (wf_read n off w).

Definition fu_clearActive (n h : nat) : M FuMount unit :=
  onNode n (λ nd, if bool_decide (fn_activeWrite nd = Some h) then fn_set_active None nd else nd).

Definition fu_Release (h : nat) : M FuMount unit :=
  res ← attempt (commitIfDirty h);
  w ← fu_writeAt h;
  match wf_node w with Some n => fu_clearActive n h | None => mret tt end ≫= λ _,
  fu_release (wf_release w) ≫= λ _,
  of_result res.

(** The methods of a read handle. *)
Definition fu_ReadRelease (h : nat) : M FuMount unit :=
  x ← fu_readAt h;
  fu_release (fh_release x).

Definition fu_Read (h : nat) (n : nat) (off : Z) : M FuMount bytes :=
  x ← fu_readAt h;
  s ← gets id;
  let '(got, err, fr) := ReadAt n off (fu_repo s) (fh_fr x) in
  putRead h (mkFileHandle fr (fh_release x)) ≫= λ _,
  match err with
  | Some e => if bool_decide (e = EOF) then mret got else fu_throw (fu_errnoFor e)
  | None => mret got
  end.

(** *** Changes to the name space *)

Definition fu_Unlink (n : nat) (name : bytes) : M FuMount unit :=
  nd ← fu_nodeAt n;
  now ← clockNow;
  fu_orErrno (onRepo (Unlink (fn_ino nd) name now)).

Definition fu_Mkdir (n : nat) (name : bytes) (mode : Z) (owner : Owner) : M FuMount (nat * Attr) :=
  nd ← fu_nodeAt n;
  now ← clockNow;
  id ← fu_orErrno (onRepo (Mkdir (fn_ino nd) name mode owner now));
  fu_adopt nd name id.

Definition fu_Rmdir (n : nat) (name : bytes) : M FuMount unit :=
  nd ← fu_nodeAt n;
  now ← clockNow;
  fu_orErrno (onRepo (Rmdir (fn_ino nd) name now)).

(** [child] is what [n.GetChild(name)] finds, [newParent] the target directory
    when it is a [Node]. *)
Definition fu_Rename (n : nat) (name : bytes) (child newParent : option nat) (newName : bytes) (flags : Z) :
    M FuMount unit :=
  mut ← fu_mutable;
  if negb mut then fu_throw EROFS
  else if negb (flags =? 0) then fu_throw MdsServer.EINVAL
  else
    match newParent with
    | None => fu_throw EXDEV
    | Some d =>
        nd ← fu_nodeAt n;
        dst ← fu_nodeAt d;
        now ← clockNow;
        fu_orErrno (onRepo (repo_Rename (fn_ino nd) name (fn_ino dst) newName now now)) ≫= λ _,
        match child with
        | None => mret tt
        | Some c => onNode c (fn_set_binding (fn_ino dst) newName)
        end
    end.

Definition fu_Link (n : nat) (target : option nat) (name : bytes) : M FuMount (nat * Attr) :=
  match target with
  | None => fu_throw EXDEV
  | Some t =>
      nd ← fu_nodeAt n;
      tn ← fu_nodeAt t;
      now ← clockNow;
      rec ← fu_orErrno (onRepo (repo_Link (fn_ino nd) name (fn_ino tn) now));
      setCached t rec ≫= λ _,
      mut ← fu_mutable;
      mret (t, fillAttrOut rec mut)
  end.

Definition fu_Mknod (n : nat) (name : bytes) (mode rdev : Z) (owner : Owner) : M FuMount (nat * Attr) :=
  let typ := Z.land mode S_IFMT in
  if negb ((typ =? S_IFIFO) || (typ =? S_IFSOCK) || (typ =? S_IFCHR) || (typ =? S_IFBLK))
  then fu_throw MdsServer.EINVAL
  else
    nd ← fu_nodeAt n;
    now ← clockNow;
    id ← fu_orErrno (onRepo (Mknod (fn_ino nd) name typ rdev (Z.land mode mode_7777) owner now));
    fu_adopt nd name id.

Definition fu_Symlink (n : nat) (target name : bytes) (owner : Owner) : M FuMount (nat * Attr) :=
  nd ← fu_nodeAt n;
  now ← clockNow;
  id ← fu_orErrno (onRepo (Symlink (fn_ino nd) name target owner now));
  fu_adopt nd name id.

(** *** Setattr *)

(** Truncation without an open handle: read, resize, commit.  The record to
    report afterwards. *)
Definition truncateFile (n : nat) (rec : InodeRecord) (sz : Z) : M FuMount InodeRecord :=
  data ← (if 0 <? Size rec then fu_orEIO (readWhole rec) else mret []);
  let data := if u64 (blen data) <? sz then data ++ zeros (sz - blen data) else take (Z.to_nat sz) data in
  nd ← fu_nodeAt n;
  wh ← fu_orErrno (onRepo (CreateFile (fn_parent nd) (fn_name nd)));
  wh ← fu_orEIO (writeInto wh data);
  id ← fu_orErrno (commitHandle wh);
  res ← attempt (fu_GetInode id);
  match res with
  | Ok newRec => setCached n newRec ≫= λ _, mret newRec
  | Err _ => mret rec
  end.

(** The mode, ownership and time changes, and the record to report. *)
Definition changeAttrs (n : nat) (x : SetAttrIn) (rec : InodeRecord) : M FuMount InodeRecord :=
  let mut := mkMut (in_mode x) (in_uid x) (in_gid x) (in_mtime x) (in_atime x) in
  if bool_decide (is_Some (in_mode x)) || bool_decide (is_Some (in_uid x)) || bool_decide (is_Some (in_gid x))
     || bool_decide (is_Some (in_mtime x)) || bool_decide (is_Some (in_atime x))
  then
    m ← fu_mutable;
    if negb m then fu_throw EROFS
    else
      nd ← fu_nodeAt n;
      now ← clockNow;
      updated ← fu_orErrno (onRepo (repo_SetAttr (fn_ino nd) mut now));
      setCached n updated ≫= λ _,
      mret updated
  else mret rec.

Definition fu_Setattr (n : nat) (x : SetAttrIn) : M FuMount Attr :=
  rec ← currentRec n;
  mut ← fu_mutable;
  match in_size x with
  | None => rec ← changeAttrs n x rec; mret (fillAttrOut rec mut)
  | Some sz =>
      if negb mut then fu_throw EROFS
      else if MaxFileSize <? sz then fu_throw (errnoZ EFBIG)
      else if IsDir rec then fu_throw EISDIR
      else
        nd ← fu_nodeAt n;
        match fn_activeWrite nd with
        | Some h =>
            w ← fu_writeAt h;
            putWrite h (wf_resize sz w) ≫= λ _,
            mret (set_at_Size sz (fillAttrOut rec mut))
        | None =>
            rec ← truncateFile n rec sz;
            rec ← changeAttrs n x rec;
            mret (fillAttrOut rec mut)
        end
  end.

(** *** Mounting *)

(** The root node [Mount] starts from. *)
Definition mountRoot : M FuMount nat :=
  root ← onRepo (repo_Resolve (str "/"));
  fu_newNode (mkFuNode RootInode zero_inode [] root.2 false None).

(** The options and the source name of the mount. *)
Definition mountOptions (mutable allowOther : bool) : list bytes :=
  (if mutable then [] else [str "ro"]) ++ [str "default_permissions"] ++ (if allowOther then [str "allow_other"] else []).
Definition mountName (fsName : bytes) : bytes := if bool_decide (fsName = []) then str "atlasfs" else fsName.

End mount.
Arguments FuMount : clear implicits.
