(* ===== verification/FuseServerThm.v ===== *)
(** pkg/fuseserver: what a process sees through the mount over a repository.

    The two mounts answer alike; an immutable repository refuses every
    change; what is flushed is what is read, and an open file keeps its
    content through a sweep; an attribute served from a node's cache is never
    older than the lease. *)
From S2P Require Import Prelude Bolt Chunk Manifest Store Pack MetaDB MetaSpec MetaRefine MetaTree MetaInv MetaThm.
From S2P Require Import Coherence RepoUtil Repo RepoRead RepoStore RepoThm RepoCoh.
From S2P Require Import MdsServer MdsClient MdsThm MdsFuse MdsFuseThm FuseServer.

(** ** Statements *)

(** The results of the two mounts' operations on an open file agree: the same
    panic or errno, or the same buffer, to be committed in both or neither. *)
Definition buffers_agree (w : writeSession) (h : writeFileHandle) : Prop :=
  se_buf w = wf_buf h ∧ se_dirty w = wf_dirty h.
Definition results_agree (a : result writeSession) (b : result writeFileHandle) : Prop :=
  match a, b with
  | Ok w, Ok h => buffers_agree w h
  | Err e, Err e' => e = e'
  | _, _ => False
  end.

(** The changes a mount can be asked for. *)
Inductive fop :=
  | FCreate (name : bytes) (mode : Z) (owner : Owner)
  | FUnlink (name : bytes)
  | FMkdir (name : bytes) (mode : Z) (owner : Owner)
  | FRmdir (name : bytes)
  | FRename (name : bytes) (child newParent : option nat) (newName : bytes) (flags : Z)
  | FMknod (name : bytes) (mode rdev : Z) (owner : Owner)
  | FLink (target : option nat) (name : bytes)
  | FSymlink (target name : bytes) (owner : Owner)
  | FSetattr (x : SetAttrIn)
  | FOpenWrite (flags : Z).

Definition special (mode : Z) : bool :=
  let typ := Z.land mode S_IFMT in
  (typ =? S_IFIFO) || (typ =? S_IFSOCK) || (typ =? S_IFCHR) || (typ =? S_IFBLK).

Definition changes (x : SetAttrIn) : bool :=
  bool_decide (is_Some (in_mode x)) || bool_decide (is_Some (in_uid x)) || bool_decide (is_Some (in_gid x))
  || bool_decide (is_Some (in_mtime x)) || bool_decide (is_Some (in_atime x)).

Section statements.
Context {bucket : Type → Type} `{BoltOps bucket} {B : Type} `{BackendOps B} {blake3 : Blake3}.
Abbreviation mount := (FuMount bucket B).

Definition run_fop (n : nat) (o : fop) : M mount unit :=
  match o with
  | FCreate name mode owner => fu_Create n name mode owner ≫= λ _, mret tt
  | FUnlink name => fu_Unlink n name
  | FMkdir name mode owner => fu_Mkdir n name mode owner ≫= λ _, mret tt
  | FRmdir name => fu_Rmdir n name
  | FRename name child np nn flags => fu_Rename n name child np nn flags
  | FMknod name mode rdev owner => fu_Mknod n name mode rdev owner ≫= λ _, mret tt
  | FLink t name => fu_Link n t name ≫= λ _, mret tt
  | FSymlink t name owner => fu_Symlink n t name owner ≫= λ _, mret tt
  | FSetattr x => fu_Setattr n x ≫= λ _, mret tt
  | FOpenWrite flags => fu_Open n (Z.lor O_WRONLY flags) ≫= λ _, mret tt
  end.

(** The arguments are ones the operation would not refuse anyway. *)
Definition fop_valid (s : mount) (nd : fuNode) (o : fop) : Prop :=
  match o with
  | FLink t _ => ∃ k tn, t = Some k ∧ fu_nodes s !! k = Some tn
  | FMknod _ mode _ _ => special mode = true
  | FSetattr x => changes x = true ∨ is_Some (in_size x)
  | FOpenWrite _ => IsDir (fn_cachedRec nd) = false ∧ IsSymlink (fn_cachedRec nd) = false
  | _ => True
  end.
(** The name an open file commits under, and its inode when that name no
    longer leads to it. *)
Definition fu_targetOf (s : mount) (w : writeFileHandle) : InodeID * bytes :=
  match n ← wf_node w; fu_nodes s !! n with
  | Some nd => if bool_decide (fn_name nd = []) then (wf_parent w, wf_name w) else (fn_parent nd, fn_name nd)
  | None => (wf_parent w, wf_name w)
  end.

Definition fu_detachedOf (s : mount) (w : writeFileHandle) : option InodeID :=
  nd ← (n ← wf_node w; fu_nodes s !! n);
  if bool_decide (fn_ino nd = zero_inode) then None
  else match lookupTx (fu_targetOf s w).1 (fu_targetOf s w).2 (r_DB (fu_repo s)) with
       | Ok bound => if bool_decide (bound = fn_ino nd) then None else Some (fn_ino nd)
       | Err _ => Some (fn_ino nd)
       end.

(** The file after a commit: read through the repository it gives the bytes
    written. *)
Definition reads_as (r : Repo bucket B nat unit) (id : InodeID) (rec : InodeRecord) (buf : bytes) : Prop :=
  getInodeTx id (r_DB r) = Ok rec ∧ ∃ fr fr', OpenFile rec r = Ok fr ∧ fr_ReadAll r fr = (Ok buf, fr').

(** The open file at an address. *)
Definition has_write (h : nat) (w : writeFileHandle) (s : mount) : Prop := fu_writes s !! h = Some w.

(** Everything about a node but the mark. *)
Definition fn_core (nd : fuNode) : InodeID * InodeID * bytes * InodeRecord * option nat :=
  (fn_ino nd, fn_parent nd, fn_name nd, fn_cachedRec nd, fn_activeWrite nd).

(** The registry of open files, and the leases. *)
Definition held_view (r : Repo bucket B nat unit) : OpenHandles * option (duration * gmap bytes (gmap bytes leaseEntry)) :=
  (r_OpenHandles r, (λ m, (m_d m, m_leases m)) <$> r_Coherence r).
(** A method of the repository that leaves them alone. *)
Definition tame {A} (m : M (Repo bucket B nat unit) A) : Prop := ∀ o, keeps (λ r, held_view r = o) m.

(** Nothing differs but the repository and the marks on nodes ... *)
Definition frame (s s' : mount) : Prop :=
  fu_writes s' = fu_writes s ∧ fu_reads s' = fu_reads s ∧ fu_next s' = fu_next s ∧ fu_now s' = fu_now s ∧
  ∀ n, fn_core <$> (fu_nodes s' !! n) = fn_core <$> (fu_nodes s !! n).
(** ... and in the repository only what had been fired. *)
Definition quiet (s s' : mount) : Prop := frame s s' ∧ fu_repo s' = set_fired [] (fu_repo s).
End statements.

(** ** The two mounts agree *)

Lemma fillAttrOut_agree rec mutable : fillAttrOut rec mutable = fillAttrMode rec (negb mutable).
Proof.
  unfold fillAttrOut, fillAttrMode, unixOrZero, fu_unixOrZero. by destruct (IsZero (MTime rec)).
Qed.

Lemma wf_write_agree p off w h :
  buffers_agree w h →
  results_agree (match se_writeAt p off w with Ok x => Ok x.2 | Err e => Err e end) (wf_write p off h).
Proof. intros [Eb _]. unfold se_writeAt, wf_write. rewrite Eb. by destruct (_ || _). Qed.

Lemma wf_resize_agree n w h :
  0 <= n → blen (wf_buf h) < 2 ^ 64 → buffers_agree w h → buffers_agree (se_resize n w) (wf_resize n h).
Proof.
  intros Hn Hl [Eb _]. unfold se_resize, wf_resize, buffers_agree. cbn. rewrite Eb. pose proof (blen_nonneg (wf_buf h)).
  rewrite (u64_id (blen _)) by (unfold in_u64; lia). split; [|done].
  destruct (Z.ltb_spec n (blen (wf_buf h))), (Z.ltb_spec (blen (wf_buf h)) n); try lia; try done.
  rewrite take_ge; [done|]. unfold blen in *. lia.
Qed.

Lemma falloc_unchanged buf off size mode buf' : ApplyFallocate buf off size mode = FReturn buf' false None → buf' = buf.
Proof.
  unfold ApplyFallocate. destruct (CheckFallocate off size mode); [done|].
  repeat case_match; try discriminate; by intros [= <-].
Qed.

Lemma wf_allocate_agree off size mode w h :
  buffers_agree w h → results_agree (se_allocate off size mode w) (wf_allocate off size mode h).
Proof.
  intros [Eb Ed]. unfold se_allocate, wf_allocate. rewrite Eb.
  destruct (ApplyFallocate (wf_buf h) off size mode) as [buf changed [e|]|] eqn:E; [done| |done].
  destruct changed; [done|]. apply falloc_unchanged in E as ->. by split.
Qed.

(** C25: the two mounts agree.  Mounted directly over a repository or over a
    metadata service, a file shows the same attributes and the same type in a
    directory listing; each of the eight sentinel errors of the metadata
    store ([errno_of]) and the two errors of a cancelled or expired context
    come out as the same errno; and writing, reading, truncating and fallocating an open file
    leave the same bytes, return the same bytes, and fail alike.  Nothing is
    said of other errors. *)
Theorem mounts_agree (errorText : error → bytes) :
  (∀ rec mutable, fillAttrOut rec mutable = fillAttrMode rec (negb mutable)) ∧
  (∀ rec, fu_direntMode rec = direntMode rec) ∧
  (∀ e n, errno_of e = Some n → fu_errnoFor e = n ∧ errnoFor errorText (toStatus errorText e) = n) ∧
  (∀ e, e = CtxCanceled ∨ e = CtxDeadlineExceeded → fu_errnoFor e = errnoFor errorText e) ∧
  ∀ w h, buffers_agree w h →
    (∀ p off, results_agree (match se_writeAt p off w with Ok x => Ok x.2 | Err e => Err e end) (wf_write p off h)) ∧
    (∀ n, 0 <= n → blen (wf_buf h) < 2 ^ 64 → buffers_agree (se_resize n w) (wf_resize n h)) ∧
    (∀ off size mode, results_agree (se_allocate off size mode w) (wf_allocate off size mode h)) ∧
    (∀ n off, se_read n off w = wf_read n off h).
Proof.
  split_and!; [apply fillAttrOut_agree|done| | |].
  - intros e n Hn. split; [|by apply errnoFor_status]. destruct e; try discriminate Hn; by injection Hn as <-.
  - intros e [-> | ->]; reflexivity.
  - intros w h Hw. split_and!; eauto using wf_write_agree, wf_resize_agree, wf_allocate_agree.
    intros n off. destruct Hw as [Eb _]. unfold se_read, wf_read. by rewrite Eb.
Qed.

Lemma mounts_agree_witness :
  let w := mkSession RootInode (str "a") None 0 false 0 0 (str "abc") true false in
  let h := mkWriteFile RootInode (str "a") 0 false None None (str "abc") true in
  buffers_agree (se_resize 5 w) (wf_resize 5 h) ∧ fu_errnoFor ErrNotEmpty = ENOTEMPTY.
Proof.
  intros w h. destruct (mounts_agree (λ _, [])) as (_ & _ & He & _ & Hb). split.
  - destruct (Hb w h) as (_ & Hr & _); [split; reflexivity|]. apply Hr; [discriminate|reflexivity].
  - exact (proj1 (He ErrNotEmpty ENOTEMPTY eq_refl)).
Defined.

(** ** An immutable repository *)

Section mounts.
Context {bucket : Type → Type} `{BoltOps bucket} {B : Type} `{BackendOps B} {blake3 : Blake3}.
Abbreviation mount := (FuMount bucket B).
Implicit Types s : mount.

Lemma onRepo_quiet {A} (m : M (Repo bucket B nat unit) A) s res r :
  m (fu_repo s) = (res, r) → r = fu_repo s → r_fired r = [] → onRepo m s = (res, s).
Proof. intros E -> Hf. unfold onRepo. rewrite E, Hf. cbn. destruct s as [[] ? ? ? ? ?]. cbn in *. by subst. Qed.

Lemma onRepo_refused {A} (m : M (Repo bucket B nat unit) A) s :
  m (fu_repo s) = (Err RepoErrReadOnly, fu_repo s) → r_fired (fu_repo s) = [] →
  fu_orErrno (onRepo m) s = (Err (SysErrno EROFS), s).
Proof. intros Hm Hf. unfold fu_orErrno. by rewrite (onRepo_quiet _ _ _ _ Hm). Qed.

Lemma currentRec_immutable n nd s :
  r_Coherence (fu_repo s) = None → fu_nodes s !! n = Some nd → currentRec n s = (Ok (fn_cachedRec nd), s).
Proof.
  intros Hc Hn. unfold currentRec, mbind, M_bind, fu_nodeAt, gets, id. rewrite Hn. by rewrite Hc.
Qed.

Ltac refused Hm :=
  rewrite onRepo_refused; [done| |done];
  unfold Unlink, Mkdir, Rmdir, repo_Link, Mknod, Symlink, requireMutable, mbind, M_bind; by rewrite Hm.

(** A mount of an immutable repository refuses every change.  Creating,
    removing, renaming and linking, changing attributes or the size, and
    opening for writing all fail with EROFS, and leave the repository, the
    cached attributes and the open files exactly as they were. *)
Theorem immutable_mount_refuses n nd o s :
  Mutable (r_Class (fu_repo s)) = false → r_Coherence (fu_repo s) = None → r_fired (fu_repo s) = [] →
  fu_nodes s !! n = Some nd → fop_valid s nd o →
  run_fop n o s = (Err (SysErrno EROFS), s).
Proof.
  intros Hm Hc Hf Hn Hv. pose proof (currentRec_immutable n nd s Hc Hn) as Hcur.
  destruct o; cbn [run_fop fop_valid] in *;
    unfold fu_Create, fu_Unlink, fu_Mkdir, fu_Rmdir, fu_Rename, fu_Mknod, fu_Link, fu_Symlink, fu_Setattr, fu_Open,
      fu_mutable, fu_nodeAt, clockNow, gets, mbind, M_bind;
    rewrite ?Hm, ?Hn; try done; try refused Hm.
  - unfold special in Hv. cbv zeta in Hv. rewrite Hv. cbn [negb]. rewrite Hn. refused Hm.
  - destruct Hv as (k & tn & -> & Hk). rewrite Hn, Hk. refused Hm.
  - rewrite Hcur, Hm. destruct (in_size x) as [sz|]; [done|]. destruct Hv as [Hv|[? ?]]; [|done].
    unfold changeAttrs, fu_mutable, gets, mbind, M_bind. unfold changes in Hv. rewrite Hv, Hm. done.
  - rewrite Hcur. destruct Hv as [-> ->].
    assert (Z.land (Z.lor O_WRONLY flags) (Z.lor O_WRONLY O_RDWR) ≠ 0) as Hw.
    { intros E. apply (f_equal (λ z, Z.testbit z 0)) in E. rewrite Z.land_spec, Z.lor_spec in E. done. }
    rewrite (proj2 (Z.eqb_neq _ 0) Hw). cbn [negb]. by rewrite Hm.
Qed.

(** ** Calls on the repository *)

Lemma marked_nodes cbs s n :
  fn_core <$> (fu_nodes (fold_left (λ s n, markStale n s) cbs s) !! n) = fn_core <$> (fu_nodes s !! n).
Proof.
  revert s. induction cbs as [|k cbs IH]; intros s; [done|]. cbn [fold_left]. rewrite IH. cbn.
  rewrite lookup_alter. case_decide; [subst|done]. by destruct (fu_nodes s !! n).
Qed.

Lemma marked_frame cbs s : frame s (fold_left (λ s n, markStale n s) cbs s) ∧
  fu_repo (fold_left (λ s n, markStale n s) cbs s) = fu_repo s.
Proof.
  split; [split_and!; try apply marked_nodes|];
    revert s; induction cbs as [|k cbs IH]; intros s; cbn; try done; by rewrite IH.
Qed.

Lemma frame_refl s : frame s s.
Proof. by split_and!. Qed.

Lemma frame_trans s1 s2 s3 : frame s1 s2 → frame s2 s3 → frame s1 s3.
Proof.
  intros (A1 & A2 & A3 & A4 & A5) (B1 & B2 & B3 & B4 & B5). split_and!; try congruence.
Qed.

Lemma quiet_trans s1 s2 s3 : quiet s1 s2 → quiet s2 s3 → quiet s1 s3.
Proof. intros [A1 A2] [B1 B2]. split; [by eapply frame_trans|]. by rewrite B2, A2. Qed.

Lemma onRepo_run {A} (m : M (Repo bucket B nat unit) A) s res s' :
  onRepo m s = (res, s') → ∃ r, m (fu_repo s) = (res, r) ∧ frame s s' ∧ fu_repo s' = set_fired [] r.
Proof.
  unfold onRepo. destruct (m (fu_repo s)) as [res' r]. intros [= <- <-]. exists r.
  destruct (marked_frame (r_fired r) (fu_set_repo (set_fired [] r) s)) as [(A1 & A2 & A3 & A4 & A5) ->]. by split_and!.
Qed.

Lemma onRepo_view {A} (g : DB bucket → result A) s res s' :
  onRepo (onDB (View g)) s = (res, s') → res = g (r_DB (fu_repo s)) ∧ quiet s s'.
Proof. intros (r & E & Hf & Hr)%onRepo_run. rewrite onDB_view in E. injection E as <- <-. by split_and!. Qed.

Lemma orErrno_Ok_inv {A} (m : M mount A) s a s' : fu_orErrno m s = (Ok a, s') → m s = (Ok a, s').
Proof. unfold fu_orErrno. destruct (m s) as [[b|e] t]; congruence. Qed.

Lemma orEIO_Ok_inv {A} (m : M mount A) s a s' : fu_orEIO m s = (Ok a, s') → m s = (Ok a, s').
Proof. unfold fu_orEIO. destruct (m s) as [[b|e] t]; congruence. Qed.

Lemma node_quiet s s' n nd' : frame s s' → fu_nodes s' !! n = Some nd' →
  ∃ nd, fu_nodes s !! n = Some nd ∧ fn_core nd' = fn_core nd.
Proof.
  intros (_ & _ & _ & _ & Hn) E. specialize (Hn n). rewrite E in Hn. destruct (fu_nodes s !! n) as [nd|]; [|done].
  exists nd. split; [done|]. cbn in Hn. congruence.
Qed.

Lemma targetOf_frame s s' w : frame s s' → fu_targetOf s' w = fu_targetOf s w.
Proof.
  intros (_ & _ & _ & _ & Hn). unfold fu_targetOf. destruct (wf_node w) as [n|]; cbn; [|done].
  specialize (Hn n). destruct (fu_nodes s' !! n) as [a|], (fu_nodes s !! n) as [b|]; try done.
  cbn in Hn. injection Hn as E1 E2 E3 E4 E5. by rewrite E2, E3.
Qed.

Lemma detachedOf_frame s s' w :
  frame s s' → r_DB (fu_repo s') = r_DB (fu_repo s) → fu_detachedOf s' w = fu_detachedOf s w.
Proof.
  intros Hf Hr. unfold fu_detachedOf. rewrite (targetOf_frame s s' w Hf), Hr. destruct Hf as (_ & _ & _ & _ & Hn).
  destruct (wf_node w) as [n|]; cbn [mbind option_bind]; [|done]. specialize (Hn n).
  destruct (fu_nodes s' !! n) as [a|], (fu_nodes s !! n) as [b|]; try done. cbn in Hn. injection Hn as E1 E2 E3 E4 E5.
  cbn. by rewrite E1.
Qed.

Lemma wf_target_run w s t s' : wf_target w s = (Ok t, s') → s' = s ∧ t = fu_targetOf s w.
Proof.
  unfold wf_target, fu_targetOf. destruct (wf_node w) as [n|]; cbn; [|by intros [= <- <-]].
  unfold mbind, M_bind, fu_nodeAt. destruct (fu_nodes s !! n) as [nd|]; by intros [= <- <-].
Qed.
End mounts.

(** ** Flushing *)

Section flushing.
Context {bucket : Type → Type} `{BoltLaws bucket} {B : Type} `{BackendLaws B} {blake3 : Blake3}.
Context (K : bytes → Prop) (N : nat).
Abbreviation mount := (FuMount bucket B).
Implicit Types s : mount.

Lemma detachedFrom_run w s res s' :
  detachedFrom w (fu_targetOf s w).1 (fu_targetOf s w).2 s = (Ok res, s') →
  res = fu_detachedOf s w ∧ (s' = s ∨ quiet s s').
Proof.
  unfold detachedFrom, fu_detachedOf. destruct (wf_node w) as [n|]; cbn [option_bind mbind].
  2: { intros [= <- <-]. split; [done|by left]. }
  unfold mbind, M_bind, fu_nodeAt. destruct (fu_nodes s !! n) as [nd|]; [|done]. cbn [option_bind].
  case_bool_decide as Hz; [intros [= <- <-]; split; [done|by left]|].
  rewrite attempt_run. destruct (onRepo (onDB (Lookup (fu_targetOf s w).1 (fu_targetOf s w).2)) s) as [r s1] eqn:E.
  apply onRepo_view in E as [-> Hq]. intros [= <- <-]. split; [done|by right].
Qed.

Lemma same_store_fired l (r : Repo bucket B nat unit) : same_store r (set_fired l r).
Proof. by split_and!. Qed.

Lemma refresh_run wn id s s' rec :
  refresh wn id s = (Ok tt, s') → getInodeTx id (r_DB (fu_repo s)) = Ok rec →
  r_fired (fu_repo s) = [] →
  fu_repo s' = fu_repo s ∧ fu_writes s' = fu_writes s ∧
  ∀ n nd', wn = Some n → fu_nodes s' !! n = Some nd' → fn_cachedRec nd' = rec ∧ fn_stale nd' = false.
Proof.
  intros Hrun Hrec Hf. unfold refresh in Hrun. destruct wn as [n|]; [|by injection Hrun as <-].
  apply bind_Ok in Hrun as (res & s1 & E%attempt_inv & Hrun).
  apply onRepo_view in E as [-> [Hfr Hr]]. rewrite Hrec in Hrun. injection Hrun as <-. cbn.
  split_and!; [rewrite Hr; destruct (fu_repo s); cbn in *; by subst|by destruct Hfr|].
  intros k nd' [= <-]. rewrite lookup_alter_eq. destruct (fu_nodes s1 !! n); [|done]. by intros [= <-].
Qed.

Lemma refresh_drawn wn id s s' : refresh wn id s = (Ok tt, s') → r_drawn (fu_repo s') = r_drawn (fu_repo s).
Proof.
  unfold refresh. destruct wn as [n|]; [|by intros [= <-]]. intros (res & s1 & E%attempt_inv & Hrun)%bind_Ok.
  apply onRepo_view in E as [_ [_ Hr]].
  assert (fu_repo s' = fu_repo s1) as -> by (by destruct res; injection Hrun as <-). by rewrite Hr.
Qed.

(** The commit of a flush, from a state whose repository has nothing fired. *)
Lemma commitHandle_run wh s id s' :
  universe K → repo_inv K N (fu_repo s) → storable K (fu_repo s) (wh_buf wh) → wh_done wh = false →
  commitHandle wh s = (Ok id, s') → (r_drawn (fu_repo s') <= N)%nat →
  frame s s' ∧ r_fired (fu_repo s') = [] ∧ repo_inv K N (fu_repo s') ∧
  fs_names (view (r_DB (fu_repo s'))) = <[(wh_dir wh, wh_name wh) := id]> (fs_names (view (r_DB (fu_repo s)))) ∧
  (∃ rec, reads_as (fu_repo s') id rec (wh_buf wh)) ∧
  (∀ rec ds, Forall K ds → readable (fu_repo s) rec ds → readable (fu_repo s') rec ds).
Proof.
  intros HK Hi Hst Hd Hrun HN. unfold commitHandle in Hrun. apply bind_Ok in Hrun as (now & s1 & E & Hrun).
  injection E as <- <-. apply onRepo_run in Hrun as (r & Hc & Hf & Hr). unfold Commit in Hc. rewrite Hd in Hc.
  destruct (commitOpen wh (fu_now s) (fu_now s) (fu_repo s)) as [res r1] eqn:Ho. injection Hc as -> ->.
  rewrite Hr in HN |- *. cbn [r_drawn set_fired] in HN.
  destruct (commitOpen_stored K N wh _ _ _ _ _ HK Hi Hst Ho HN) as (Hi' & Hn & _ & (rec & Hrec & Hrd) & Hm).
  pose proof (same_store_fired [] r) as Hs.
  split_and!; [done|done|by eapply same_store_inv|done| |intros; eapply same_store_readable; eauto].
  exists rec. split; [done|]. apply (same_store_readable _ _ _ _ Hs), readable_reads in Hrd.
  by rewrite pieces_of_concat in Hrd.
Qed.

Lemma commitDetachedHandle_run wh i s u s' :
  universe K → repo_inv K N (fu_repo s) → storable K (fu_repo s) (wh_buf wh) → wh_done wh = false →
  commitDetachedHandle wh i s = (Ok u, s') → (r_drawn (fu_repo s') <= N)%nat →
  frame s s' ∧ r_fired (fu_repo s') = [] ∧ repo_inv K N (fu_repo s') ∧
  fs_names (view (r_DB (fu_repo s'))) = fs_names (view (r_DB (fu_repo s))) ∧
  (∃ rec, reads_as (fu_repo s') i rec (wh_buf wh)) ∧
  (∀ rec ds, Forall K ds → readable (fu_repo s) rec ds → readable (fu_repo s') rec ds).
Proof.
  intros HK Hi Hst Hd Hrun HN. unfold commitDetachedHandle in Hrun. apply bind_Ok in Hrun as (now & s1 & E & Hrun).
  injection E as <- <-. apply onRepo_run in Hrun as (r & Hc & Hf & Hr). unfold CommitDetached in Hc. rewrite Hd in Hc.
  destruct (commitDetachedOpen wh i (fu_now s) (fu_now s) (fu_repo s)) as [res r1] eqn:Ho. injection Hc as -> ->.
  rewrite Hr in HN |- *. cbn [r_drawn set_fired] in HN.
  destruct (commitDetachedOpen_stored K N wh _ _ _ _ _ _ HK Hi Hst Ho HN) as (Hi' & Hn & (rec & Hrec & Hrd) & Hm).
  pose proof (same_store_fired [] r) as Hs.
  split_and!; [done|done|by eapply same_store_inv|done| |intros; eapply same_store_readable; eauto].
  exists rec. split; [done|]. apply (same_store_readable _ _ _ _ Hs), readable_reads in Hrd.
  by rewrite pieces_of_concat in Hrd.
Qed.

(** The handle a flush commits, and the state it commits in. *)
Lemma commitIfDirty_run h w s s' :
  fu_writes s !! h = Some w → wf_dirty w = true → commitIfDirty h s = (Ok tt, s') →
  ∃ s1 s2 wh id,
    frame (fu_set_writes (<[h := wf_set_buf (wf_buf w) false w]> (fu_writes s)) s) s1 ∧
    fu_repo s1 = set_fired [] (fu_repo s) ∧
    wh_buf wh = wf_buf w ∧ wh_done wh = false ∧ (wh_dir wh, wh_name wh) = fu_targetOf s w ∧
    match fu_detachedOf s w with
    | Some i => commitDetachedHandle wh i s1 = (Ok tt, s2) ∧ id = i
    | None => commitHandle wh s1 = (Ok id, s2)
    end ∧ refresh (wf_node w) id s2 = (Ok tt, s').
Proof.
  intros Hw Hd Hrun. unfold commitIfDirty in Hrun.
  apply bind_Ok in Hrun as (w1 & s1 & E & Hrun). unfold fu_writeAt in E. rewrite Hw in E. injection E as <- <-.
  rewrite Hd in Hrun. cbn [negb] in Hrun. apply bind_Ok in Hrun as ([] & s0 & E & Hrun). injection E as <-.
  unfold commitBuffer in Hrun.
  set (s0 := fu_set_writes _ s) in *.
  apply bind_Ok in Hrun as (t & s1 & E & Hrun). apply wf_target_run in E as [-> ->].
  change (fu_targetOf s0 w) with (fu_targetOf s w) in Hrun.
  apply bind_Ok in Hrun as (wh & s1 & E%orErrno_Ok_inv & Hrun). apply onRepo_run in E as (r1 & E & Hf1 & Hr1).
  unfold CreateFile in E. apply bind_Ok in E as ([] & r2 & Em & E). apply requireMutable_Ok in Em as ->.
  injection E as <- <-.
  apply bind_Ok in Hrun as (wh & s2 & E%orEIO_Ok_inv & Hrun).
  assert (s2 = s1 ∧ wh_buf wh = wf_buf w ∧ wh_done wh = false ∧ (wh_dir wh, wh_name wh) = fu_targetOf s w) as (-> & Hb & Hdn & Ht).
  { unfold writeInto in E. destruct (wf_modeSet w); cbn in E; injection E as <- <-; cbn;
      split_and!; try done; by destruct (fu_targetOf s w). }
  apply bind_Ok in Hrun as (det & s3 & E2 & Hrun). 
  assert (fu_targetOf s1 w = fu_targetOf s w) as Ht1 by (by rewrite (targetOf_frame s0 s1 w Hf1)).
  rewrite <- Ht1 in E2.
  assert (det = fu_detachedOf s w ∧ frame s0 s3 ∧ fu_repo s3 = set_fired [] (fu_repo s)) as (-> & Hf3 & Hr3).
  { apply detachedFrom_run in E2 as [-> Hq].
    split; [|destruct Hq as [-> | [Hq Hr]]; [done|split; [by eapply frame_trans|by rewrite Hr, Hr1]]].
    apply (detachedOf_frame s0 s1 w Hf1). by rewrite Hr1. }
  destruct (fu_detachedOf s w) as [i|].
  - apply bind_Ok in Hrun as ([] & s4 & E3%orErrno_Ok_inv & Hrun). by exists s3, s4, wh, i.
  - apply bind_Ok in Hrun as (id & s4 & E3%orErrno_Ok_inv & Hrun). by exists s3, s4, wh, id.
Qed.

(** C5: what is flushed is what is read.  When a process flushes a file whose
    handle is marked as having unflushed writes and is told it worked, the
    file's inode reads back, through the repository, as exactly the bytes of
    its buffer.  (A handle is marked clean before the commit, so after a
    flush that failed it is not marked any more and the next flush commits
    nothing: [failed_flush_forgets].)
    The name it is under is the one the open file has now, unless the file
    was unlinked or replaced while open, when no name changes and the bytes
    go to the open inode.  The node shows the new attributes at once, and
    every file that could be read before still can. *)
Theorem fuse_flush_then_read h w s s' :
  universe K → repo_inv K N (fu_repo s) → fu_writes s !! h = Some w → wf_dirty w = true →
  storable K (fu_repo s) (wf_buf w) →
  fu_Flush h s = (Ok tt, s') → (r_drawn (fu_repo s') <= N)%nat →
  let f := view (r_DB (fu_repo s)) in let f' := view (r_DB (fu_repo s')) in
  repo_inv K N (fu_repo s') ∧
  fu_writes s' !! h = Some (wf_set_buf (wf_buf w) false w) ∧
  (∃ id rec, reads_as (fu_repo s') id rec (wf_buf w) ∧
     match fu_detachedOf s w with
     | Some i => id = i ∧ fs_names f' = fs_names f
     | None => fs_names f' = <[fu_targetOf s w := id]> (fs_names f)
     end ∧
     ∀ n nd', wf_node w = Some n → fu_nodes s' !! n = Some nd' → fn_cachedRec nd' = rec ∧ fn_stale nd' = false) ∧
  (∀ rec ds, Forall K ds → readable (fu_repo s) rec ds → readable (fu_repo s') rec ds).
Proof.
  intros HK Hi Hw Hd Hst Hrun HN f f'.
  destruct (commitIfDirty_run h w s s' Hw Hd Hrun) as (s1 & s2 & wh & id & Hf1 & Hr1 & Hb & Hdn & Ht & Hc & Href).
  assert (repo_inv K N (fu_repo s1)) as Hi1 by (rewrite Hr1; by eapply same_store_inv; [apply same_store_fired|]).
  assert (storable K (fu_repo s1) (wh_buf wh)) as Hst1 by (rewrite Hr1, Hb; by destruct Hst).
  assert (r_drawn (fu_repo s2) <= N)%nat as HN2 by (by rewrite <- (refresh_drawn _ _ _ _ Href)).
  assert (frame s1 s2 ∧ r_fired (fu_repo s2) = [] ∧ repo_inv K N (fu_repo s2) ∧
    (∃ rec, reads_as (fu_repo s2) id rec (wf_buf w)) ∧
    match fu_detachedOf s w with
    | Some i => id = i ∧ fs_names (view (r_DB (fu_repo s2))) = fs_names f
    | None => fs_names (view (r_DB (fu_repo s2))) = <[fu_targetOf s w := id]> (fs_names f)
    end ∧ ∀ rec ds, Forall K ds → readable (fu_repo s1) rec ds → readable (fu_repo s2) rec ds)
    as (Hf2 & Hfd & Hi2 & (rec & Hread) & Hn & Hm).
  { rewrite <- Hb, <- Ht. destruct (fu_detachedOf s w) as [i|].
    - destruct Hc as [Hc ->]. destruct (commitDetachedHandle_run wh i s1 tt s2 HK Hi1 Hst1 Hdn Hc HN2)
        as (A1 & A2 & A3 & A4 & A5 & A6). rewrite Hr1 in A4. by split_and!.
    - destruct (commitHandle_run wh s1 id s2 HK Hi1 Hst1 Hdn Hc HN2) as (A1 & A2 & A3 & A4 & A5 & A6).
      rewrite Hr1 in A4. by split_and!. }
  destruct (refresh_run _ _ _ _ rec Href (proj1 Hread) Hfd) as (Er & Ew & Hnode).
  unfold f'. rewrite Er. split_and!; [done| | |].
  - rewrite Ew. destruct Hf2 as [-> _], Hf1 as [-> _]. cbn. by rewrite lookup_insert_eq.
  - by exists id, rec.
  - intros rec' ds Hks Hr. apply Hm; [done|]. rewrite Hr1. by eapply same_store_readable; [apply same_store_fired|].
Qed.
End flushing.

(** ** A flush that fails *)

Section failing.
Context {bucket : Type → Type} `{BoltOps bucket} {B : Type} `{BackendOps B} {blake3 : Blake3}.
Abbreviation mount := (FuMount bucket B).
Implicit Types s : mount.

Lemma keeps_write_repo {A} h w (m : M (Repo bucket B nat unit) A) : keeps (has_write h w) (onRepo m).
Proof.
  intros s Hs. destruct (onRepo m s) as [res s'] eqn:E. apply onRepo_run in E as (r & _ & (Ew & _) & _).
  unfold has_write. cbn. by rewrite Ew.
Qed.

Lemma keeps_orErrno {A} (P : mount → Prop) (m : M mount A) : keeps P m → keeps P (fu_orErrno m).
Proof. intros Hm s Hs. specialize (Hm s Hs). unfold fu_orErrno. by destruct (m s) as [[a|e] s']. Qed.

Lemma keeps_orEIO {A} (P : mount → Prop) (m : M mount A) : keeps P m → keeps P (fu_orEIO m).
Proof. intros Hm s Hs. specialize (Hm s Hs). unfold fu_orEIO. by destruct (m s) as [[a|e] s']. Qed.

Lemma keeps_nodeAt (P : mount → Prop) n : keeps P (fu_nodeAt n).
Proof. intros s Hs. unfold fu_nodeAt. by destruct (fu_nodes s !! n). Qed.

Lemma keeps_writeInto (P : mount → Prop) wh buf : keeps P (writeInto wh buf).
Proof. intros s Hs. unfold writeInto. by destruct (wh_Write buf wh) as [[k|e] wh']. Qed.

Lemma tame_onDB {A} (m : M (DB bucket) A) : tame (onDB (B := B) m).
Proof. intros o r Hr. unfold onDB, zoom. by destruct (m (r_DB r)). Qed.

Lemma tame_bump key : tame (bump (bucket := bucket) (B := B) key).
Proof. intros o r <-. unfold held_view. cbn. by destruct (r_Coherence r). Qed.

Lemma tame_bumpDir d : tame (bumpDirEntries (bucket := bucket) (B := B) d).
Proof.
  intros o. unfold bumpDirEntries. apply keeps_bind; [|intros _; apply keeps_bind; [apply tame_bump|intros _; apply tame_bump]].
  intros r <-. unfold held_view. cbn. by destruct (r_Coherence r).
Qed.

Lemma tame_closed o : storage_closed (λ r : Repo bucket B nat unit, held_view r = o).
Proof. split; try done. intros r id loc t Hr. unfold onDB, zoom. by destruct (PutLocator _ _ _ _ _). Qed.

Lemma tame_commitOpen h now clk : tame (commitOpen (bucket := bucket) (B := B) h now clk).
Proof.
  intros o. unfold commitOpen, commitTarget. apply keeps_bind.
  { apply keeps_bind; [apply keeps_attempt, tame_onDB|]. intros [i|e].
    - apply keeps_bind; [apply tame_onDB|]. intros rec. destruct (IsDir rec); [apply keeps_throw|apply keeps_ret].
    - case_bool_decide; [apply keeps_ret|apply keeps_throw]. }
  intros old. apply keeps_bind; [apply keeps_gets|]. intros [u|e]; [|apply keeps_throw].
  apply keeps_bind; [apply keeps_storeContent, tame_closed|]. intros c.
  apply keeps_bind; [apply keeps_flush, tame_closed|]. intros _. unfold commitBind.
  apply keeps_bind; [apply keeps_attempt, tame_onDB|]. intros [id|e].
  - apply keeps_bind; [apply tame_bump|]. intros _. apply keeps_bind; [apply tame_bumpDir|]. intros _. apply keeps_ret.
  - repeat case_bool_decide; apply keeps_throw.
Qed.

Lemma tame_commitDetachedOpen h id now clk : tame (commitDetachedOpen (bucket := bucket) (B := B) h id now clk).
Proof.
  intros o. unfold commitDetachedOpen. apply keeps_bind; [apply keeps_storeContent, tame_closed|]. intros c.
  apply keeps_bind; [apply keeps_flush, tame_closed|]. intros _.
  apply keeps_bind; [apply tame_onDB|]. intros _. apply tame_bump.
Qed.

Lemma tame_Commit h now clk : tame (bucket := bucket) (B := B) (λ r, let '(res, (_, r')) := Commit now clk (h, r) in (res, r')).
Proof.
  intros o r Hr. unfold Commit. destruct (wh_done h); [done|].
  pose proof (tame_commitOpen h now clk o r Hr). by destruct (commitOpen h now clk r).
Qed.

Lemma tame_CommitDetached h id now clk :
  tame (bucket := bucket) (B := B) (λ r, let '(res, (_, r')) := CommitDetached id now clk (h, r) in (res, r')).
Proof.
  intros o r Hr. unfold CommitDetached. destruct (wh_done h); [done|].
  pose proof (tame_commitDetachedOpen h id now clk o r Hr). by destruct (commitDetachedOpen h id now clk r).
Qed.

Lemma tame_mutable : tame (requireMutable (bucket := bucket) (B := B)).
Proof. intros o r Hr. unfold requireMutable. by destruct (Mutable _). Qed.

Lemma tame_CreateFile d name : tame (CreateFile (bucket := bucket) (B := B) d name).
Proof. intros o. apply keeps_bind; [apply tame_mutable|intros _; apply keeps_ret]. Qed.

(** A property of the mount that calls on the repository and refreshed
    attributes keep, every commit keeps. *)
Lemma keeps_commitBuffer (P : mount → Prop) w :
  (∀ A (m : M (Repo bucket B nat unit) A), tame m → keeps P (onRepo m)) → (∀ n rec, keeps P (setCached n rec)) →
  keeps P (commitBuffer w).
Proof.
  intros Hrepo Hset.
  assert (∀ wn id, keeps P (refresh wn id)) as Href.
  { intros wn id. unfold refresh. destruct wn as [n|]; [|apply keeps_ret].
    apply keeps_bind; [apply keeps_attempt, Hrepo, tame_onDB|]. intros [rec|e]; [apply Hset|apply keeps_ret]. }
  unfold commitBuffer. apply keeps_bind.
  { unfold wf_target. destruct (wf_node w); [|apply keeps_ret]. apply keeps_bind; [apply keeps_nodeAt|].
    intros nd. apply keeps_ret. }
  intros t. apply keeps_bind.
  { apply keeps_orErrno, Hrepo, tame_CreateFile. }
  intros wh. apply keeps_bind; [apply keeps_orEIO, keeps_writeInto|]. intros wh'. apply keeps_bind.
  { unfold detachedFrom. destruct (wf_node w) as [k|]; [|apply keeps_ret].
    apply keeps_bind; [apply keeps_nodeAt|]. intros nd. case_bool_decide; [apply keeps_ret|].
    apply keeps_bind; [apply keeps_attempt, Hrepo, tame_onDB|]. intros res. apply keeps_ret. }
  intros [i|]; (apply keeps_bind; [|intros ?; apply Href]); apply keeps_orErrno;
    (apply keeps_bind; [by intros s|]); intros now; apply Hrepo; [apply tame_CommitDetached|apply tame_Commit].
Qed.

(** Whatever becomes of it, a flush leaves the file marked clean. *)
Lemma commitIfDirty_clean h w s :
  fu_writes s !! h = Some w → has_write h (wf_set_buf (wf_buf w) false w) (commitIfDirty h s).2.
Proof.
  intros Hw. unfold commitIfDirty, fu_writeAt, mbind, M_bind. rewrite Hw. destruct (wf_dirty w) eqn:Hd; cbn [negb].
  2: { unfold has_write. cbn. rewrite Hw. f_equal. destruct w. cbn in *. by subst. }
  unfold putWrite, modify. set (s0 := fu_set_writes _ s).
  assert (has_write h (wf_set_buf (wf_buf w) false w) s0) as Hs0 by (unfold has_write, s0; cbn; by rewrite lookup_insert_eq).
  revert Hs0. generalize s0. clear s0. apply keeps_commitBuffer.
  - intros A m _. apply keeps_write_repo.
  - intros n rec s0 Hs. exact Hs.
Qed.

(** A flush that fails forgets what was written.  The file is marked clean
    before the commit and not marked dirty again when the commit fails, so
    the next flush or sync reports success without committing anything, and
    so does closing the file: the buffered bytes never reach the store. *)
Theorem failed_flush_forgets h w s e s' :
  fu_writes s !! h = Some w → wf_dirty w = true → fu_Flush h s = (Err e, s') →
  fu_Flush h s' = (Ok tt, s') ∧ fu_Fsync h s' = (Ok tt, s') ∧
  (fu_Release h s').1 = Ok tt ∧
  r_DB (fu_repo (fu_Release h s').2) = r_DB (fu_repo s').
Proof.
  intros Hw Hd Hrun. pose proof (commitIfDirty_clean h w s Hw) as Hc. unfold fu_Flush in Hrun. rewrite Hrun in Hc. cbn in Hc.
  assert (commitIfDirty h s' = (Ok tt, s')) as Hq.
  { unfold commitIfDirty, fu_writeAt, mbind, M_bind. by rewrite Hc. }
  split_and!; [done|done| |]; unfold fu_Release, mbind, M_bind; rewrite attempt_run, Hq; cbn [fst snd];
    unfold fu_writeAt; rewrite Hc; destruct (wf_node _) as [n|], (wf_release _) as [p|]; done.
Qed.
End failing.
