(* ===== verification/FuseOpen.v ===== *)
(** pkg/fuseserver, open files: every open pins its inode, exactly while the
    file is open, and a pinned file keeps its content through a sweep. *)
From S2P Require Import Prelude Bolt Chunk Manifest Store Pack MetaDB MetaSpec MetaRefine MetaTree MetaInv MetaThm.
From S2P Require Import Coherence RepoUtil Repo RepoRead RepoStore RepoThm RepoCoh GC GCThm.
From S2P Require Import MdsServer MdsFuse FuseServer FuseServerThm.

(** ** Statements *)

(** The registry counts its open handles, as every registry does that starts
    empty and is only acquired from and released to. *)
Definition pins_exact (o : OpenHandles) : Prop := ∀ id, default 0 (oh_n o !! id) = still_open id o.

(** The pin [p] is held, on the inode [i]. *)
Definition pinned (o : OpenHandles) (p : nat) (i : InodeID) : Prop := oh_given o !! p = Some (i, false).

(** [o'] has [k i] more pins on [i] than [o]. *)
Definition more_pins (o o' : OpenHandles) (k : InodeID → Z) : Prop :=
  pins_exact o' ∧ ∀ i, still_open i o' = still_open i o + k i.

Definition one (i j : InodeID) : Z := if decide (i = j) then 1 else 0.

Section statements.
Context {bucket : Type → Type} {B : Type}.
Abbreviation mount := (FuMount bucket B).

Definition pins (s : mount) : OpenHandles := r_OpenHandles (fu_repo s).

(** The pin of an open file. *)
Definition pin_of (s : mount) (h : nat + nat) : option nat :=
  match h with
  | inl h => w ← fu_writes s !! h; wf_release w
  | inr h => x ← fu_reads s !! h; fh_release x
  end.

(** The registry is [o], and the node [n] is of the inode [i]. *)
Definition at_node (o : OpenHandles) (n : nat) (i : InodeID) (s : mount) : Prop :=
  pins s = o ∧ fn_ino <$> (fu_nodes s !! n) = Some i.
End statements.

(** ** The registry *)

Lemma acquire_pins i o :
  pins_exact o → more_pins o (Acquire i o).2 (one i) ∧ pinned (Acquire i o).2 (Acquire i o).1 i.
Proof.
  intros Ho. split; [split|].
  - exact (handle_step_count o (HAcquire i) Ho).
  - intros j. unfold still_open, Acquire. cbn [oh_given snd]. rewrite sum_of_app. unfold sum_of at 2, open_on, one. cbn.
    case_decide; [rewrite bool_decide_true by done|rewrite bool_decide_false by done]; cbn; lia.
  - unfold pinned, Acquire. cbn. by rewrite list_lookup_middle.
Qed.

Lemma release_pins i p o : pins_exact o → pinned o p i → more_pins o (release p o) (λ j, - one i j).
Proof.
  intros Ho Hp. split; [exact (handle_step_count o (HRelease p) Ho)|]. intros j. unfold still_open.
  assert (oh_given (release p o) = <[p := (i, true)]> (oh_given o)) as ->.
  { unfold release. rewrite Hp. by destruct (_ <=? _). }
  rewrite (sum_of_insert _ _ _ _ _ Hp). unfold open_on, one. cbn.
  case_decide; [rewrite bool_decide_true by done|rewrite bool_decide_false by done]; cbn; lia.
Qed.

Lemma no_more_pins o : pins_exact o → more_pins o o (λ _, 0).
Proof. intros Ho. split; [done|]. intros i. lia. Qed.

(** ** Opening and closing *)

Section opening.
Context {bucket : Type → Type} `{BoltOps bucket} {B : Type} `{BackendOps B} {blake3 : Blake3}.
Abbreviation mount := (FuMount bucket B).
Implicit Types s : mount.

Lemma at_node_frame o n i s s' : frame s s' → pins s' = pins s → at_node o n i s → at_node o n i s'.
Proof.
  intros (_ & _ & _ & _ & Hn) Hp [E1 E2]. split; [congruence|]. specialize (Hn n).
  destruct (fu_nodes s' !! n) as [a|], (fu_nodes s !! n) as [b|]; try done. cbn in *. injection Hn as E _. congruence.
Qed.

Lemma keeps_at_view {A} o n i (g : DB bucket → result A) :
  keeps (at_node (bucket := bucket) (B := B) o n i) (onRepo (onDB (View g))).
Proof.
  intros s Hs. destruct (onRepo (onDB (View g)) s) as [res s'] eqn:E. apply onRepo_view in E as [_ [Hf Hr]].
  eapply at_node_frame; [done| |done]. cbn [snd]. unfold pins. by rewrite Hr.
Qed.

Lemma keeps_at_currentRec o n i k : keeps (at_node (bucket := bucket) (B := B) o n i) (currentRec k).
Proof.
  unfold currentRec. apply keeps_bind; [apply keeps_nodeAt|]. intros nd. apply keeps_bind; [apply keeps_gets|]. intros s0.
  destruct (r_Coherence (fu_repo s0)) as [m|]; [|apply keeps_ret]. destruct (_ && _); [apply keeps_ret|].
  apply keeps_bind; [apply keeps_orEIO, keeps_at_view|]. intros rec.
  apply keeps_bind; [|intros _; apply keeps_bind; [by intros s [Ho Hn]|intros _; apply keeps_ret]].
  intros s [Ho Hn]. split; [done|]. cbn. rewrite lookup_alter. case_decide; [subst|done]. by destruct (fu_nodes s !! n).
Qed.

Lemma openWrite_pins n rec tr i s res s' :
  pins_exact (pins s) → at_node (pins s) n i s → fu_openWrite n rec tr s = (res, s') →
  match res with
  | Ok h => more_pins (pins s) (pins s') (one i) ∧ ∃ p, pin_of s' (inl h) = Some p ∧ pinned (pins s') p i
  | Err _ => more_pins (pins s) (pins s') (λ _, 0)
  end.
Proof.
  intros Ho [_ Hn]. destruct (fu_nodes s !! n) as [nd|] eqn:En; [|done]. injection Hn as Hi.
  destruct (acquire_pins i (pins s) Ho) as [Hm Hp]. unfold fu_openWrite, mbind, M_bind, fu_nodeAt. rewrite En, Hi.
  unfold fu_acquire. fold (pins s). destruct (Acquire i (pins s)) as [p o] eqn:Ea. cbn [fst snd] in *.
  set (s1 := fu_set_repo (set_OpenHandles o (fu_repo s)) s).
  assert (∀ w, wf_release w = Some p → ∀ s'', (newWrite w ≫= λ h, onNode n (fn_set_active (Some h)) ≫= λ _, mret h) s1 = (res, s'') →
    ∃ h, res = Ok h ∧ more_pins (pins s) (pins s'') (one i) ∧ pin_of s'' (inl h) = Some p ∧ pinned (pins s'') p i) as Hnew.
  { intros w Hw s'' [= <- <-]. eexists. split; [done|]. split; [done|]. split; [|done]. cbn. by rewrite lookup_insert_eq. }
  destruct tr; [|destruct (0 <? Size rec)].
  - intros Hrun. apply Hnew in Hrun as (h & -> & ? & ? & ?); [|done]. split; [done|]. by exists p.
  - rewrite attempt_run. destruct (readWhole rec s1) as [rd s2] eqn:Er.
    assert (s2 = s1) as -> by (unfold readWhole in Er; destruct (OpenFile _ _); congruence). cbn [fst snd].
    destruct rd as [data|e].
    + intros Hrun. apply Hnew in Hrun as (h & -> & ? & ? & ?); [|done]. split; [done|]. by exists p.
    + intros [= <- <-]. cbn. destruct Hm as [Hx Hc]. destruct (release_pins i p o Hx Hp) as [Hx' Hc'].
      split; [done|]. intros j. change (still_open j (release p o) = still_open j (pins s) + 0). rewrite Hc', Hc. lia.
  - intros Hrun. apply Hnew in Hrun as (h & -> & ? & ? & ?); [|done]. split; [done|]. by exists p.
Qed.

Lemma openRead_pins n rec i s res s' :
  pins_exact (pins s) → at_node (pins s) n i s → fu_openRead n rec s = (res, s') →
  match res with
  | Ok h => more_pins (pins s) (pins s') (one i) ∧ ∃ p, pin_of s' (inr h) = Some p ∧ pinned (pins s') p i
  | Err _ => more_pins (pins s) (pins s') (λ _, 0)
  end.
Proof.
  intros Ho [_ Hn]. destruct (fu_nodes s !! n) as [nd|] eqn:En; [|done]. injection Hn as Hi.
  destruct (acquire_pins i (pins s) Ho) as [Hm Hp]. unfold fu_openRead, mbind, M_bind, fu_nodeAt, fu_orEIO. rewrite En.
  destruct (OpenFile rec (fu_repo s)) as [fr|e]; [|intros [= <- <-]; by apply no_more_pins].
  rewrite Hi. unfold fu_acquire. fold (pins s). destruct (Acquire i (pins s)) as [p o] eqn:Ea. cbn [fst snd] in *.
  intros [= <- <-]. split; [done|]. exists p. split; [|done]. cbn. by rewrite lookup_insert_eq.
Qed.

Lemma fu_Open_pins n nd flags s res s' :
  pins_exact (pins s) → fu_nodes s !! n = Some nd → fu_Open n flags s = (res, s') →
  match res with
  | Ok h => more_pins (pins s) (pins s') (one (fn_ino nd)) ∧
            ∃ p, pin_of s' h = Some p ∧ pinned (pins s') p (fn_ino nd)
  | Err _ => more_pins (pins s) (pins s') (λ _, 0)
  end.
Proof.
  intros Ho Hn. assert (at_node (pins s) n (fn_ino nd) s) as Hat by (split; [done|by rewrite Hn]).
  unfold fu_Open, mbind, M_bind. pose proof (keeps_at_currentRec (pins s) n (fn_ino nd) n s Hat) as Hk.
  destruct (currentRec n s) as [rr s1]. cbn in Hk. pose proof (proj1 Hk) as Ep.
  assert (more_pins (pins s) (pins s1) (λ _, 0)) as Hno by (rewrite Ep; by apply no_more_pins).
  destruct rr as [rec|e]; [|by intros [= <- <-]].
  destruct (IsDir rec); [by intros [= <- <-]|]. destruct (IsSymlink rec); [by intros [= <- <-]|].
  rewrite <- Ep in Hk, Ho |- *. destruct (negb (Z.land flags _ =? 0)).
  - unfold fu_mutable, gets. destruct (Mutable _); [|intros [= <- <-]; by apply no_more_pins]. cbn [negb].
    destruct (fu_openWrite n rec _ s1) as [r2 s2] eqn:E. apply (openWrite_pins _ _ _ (fn_ino nd)) in E; [|done..].
    destruct r2; by intros [= <- <-].
  - destruct (fu_openRead n rec s1) as [r2 s2] eqn:E. apply (openRead_pins _ _ (fn_ino nd)) in E; [|done..].
    destruct r2; by intros [= <- <-].
Qed.

Lemma keeps_pins_repo {A} o (m : M (Repo bucket B nat unit) A) : tame m → keeps (λ s, pins s = o) (onRepo m).
Proof.
  intros Hm s Hs. destruct (onRepo m s) as [res s'] eqn:E. apply onRepo_run in E as (r & Er & _ & Hr).
  specialize (Hm _ (fu_repo s) eq_refl). rewrite Er in Hm. cbn in *. injection Hm as Hm _. subst o. unfold pins. by rewrite Hr.
Qed.

Lemma commitIfDirty_pins h s : pins (commitIfDirty h s).2 = pins s.
Proof.
  assert (keeps (λ s', pins s' = pins s) (commitIfDirty h)) as Hk; [|by apply Hk].
  unfold commitIfDirty. apply keeps_bind.
  { intros s1 Hs. unfold fu_writeAt. by destruct (fu_writes s1 !! h). }
  intros w. destruct (negb (wf_dirty w)); [apply keeps_ret|]. apply keeps_bind; [by intros s1|]. intros _.
  apply keeps_commitBuffer; [intros A m Hm; by apply keeps_pins_repo|by intros n rec s1].
Qed.

Lemma fu_Release_pins h w p i s :
  pins_exact (pins s) → fu_writes s !! h = Some w → wf_release w = Some p → pinned (pins s) p i →
  more_pins (pins s) (pins (fu_Release h s).2) (λ j, - one i j).
Proof.
  intros Ho Hw Hp Hi. pose proof (commitIfDirty_clean h w s Hw) as Hc. pose proof (commitIfDirty_pins h s) as Hpin.
  unfold fu_Release, mbind, M_bind. rewrite attempt_run. destruct (commitIfDirty h s) as [res s1]. cbn [fst snd] in *.
  unfold fu_writeAt. rewrite Hc. cbn [wf_node wf_release wf_set_buf]. rewrite Hp.
  rewrite <- Hpin in Ho, Hi |- *. by destruct (wf_node w) as [n|], res; apply release_pins.
Qed.

(** C24: files pin their inodes exactly while they are open.  A successful
    open, for reading or writing, adds one pin on the inode of the node, held
    by the handle that is returned, and no other; an open that fails, at
    whatever point, leaves every count as it was, so no inode is pinned for
    good; closing a file gives back its pin and no other, also when the
    commit on the way out fails. *)
Theorem open_files_pinned :
  (∀ n nd flags s res s', pins_exact (pins s) → fu_nodes s !! n = Some nd → fu_Open n flags s = (res, s') →
    match res with
    | Ok h => more_pins (pins s) (pins s') (one (fn_ino nd)) ∧
              ∃ p, pin_of s' h = Some p ∧ pinned (pins s') p (fn_ino nd)
    | Err _ => more_pins (pins s) (pins s') (λ _, 0)
    end) ∧
  (∀ h p i s, pins_exact (pins s) → pin_of s h = Some p → pinned (pins s) p i →
    more_pins (pins s) (pins (match h with inl h => fu_Release h | inr h => fu_ReadRelease h end s).2) (λ j, - one i j)).
Proof.
  split; [apply fu_Open_pins|]. intros [h|h] p i s Ho Hh Hi; unfold pin_of in Hh; cbn in Hh.
  - destruct (fu_writes s !! h) as [w|] eqn:Hw; [|done]. by apply (fu_Release_pins h w p).
  - destruct (fu_reads s !! h) as [x|] eqn:Hx; [|done]. cbn in Hh.
    unfold fu_ReadRelease, fu_readAt, mbind, M_bind. rewrite Hx, Hh. by apply release_pins.
Qed.
End opening.

(** ** Open files and the collector *)

Section sweeping.
Context {bucket : Type → Type} `{BoltLaws bucket} {B : Type} `{BackendLaws B} {blake3 : Blake3}.
Context (K : bytes → Prop) (N : nat).
Abbreviation mount := (FuMount bucket B).
Implicit Types s : mount.

Lemma pinned_held o p i : pins_exact o → pinned o p i → Held i o = true.
Proof.
  intros Ho Hp. unfold Held. rewrite Z.ltb_lt, Ho. unfold still_open.
  pose proof (sum_of_elem (open_on i) (oh_given o) p (i, false) (open_on_nonneg i) Hp) as Hle.
  unfold open_on in Hle at 1. cbn in Hle. rewrite bool_decide_true in Hle by done. cbn in Hle. lia.
Qed.

Lemma fu_Read_ok h x ds n off s :
  fu_reads s !! h = Some x → reader_ok ds (fh_fr x) → Forall (has_chunk (fu_repo s)) ds → 0 <= off →
  ∃ s', fu_Read h n off s = (Ok (slice off (Z.of_nat n) (concat ds)), s').
Proof.
  intros Hx Hok Hds Ho. unfold fu_Read, fu_readAt, mbind, M_bind, gets, id. rewrite Hx.
  destruct (ReadAt_ok ds n off (fu_repo s) (fh_fr x) Hok Hds Ho) as (err & fr' & E & _ & _ & _ & Herr). rewrite E.
  unfold putRead, modify. unfold slice. rewrite Nat2Z.id. destruct Herr as [-> | ->]; by eexists.
Qed.

(** C15: an open file outlives its name.  Whatever a sweep collects, and
    whether or not it finishes, a file that is open for reading when the
    sweep starts can be read from the handle afterwards with exactly the
    content it had, also when its last name is long gone.  The file is one
    the directory tree leads to or that is in the graveyard, and the content
    the handle reads is that of its record: a file overwritten since it was
    opened is not covered, because the sweep marks the new content only. *)
Theorem open_file_survives_sweep h x p i rec ds pages grace clk s res r' :
  universe K → repo_inv K N (fu_repo s) → dead_ok N (fu_repo s) → one_region (fu_repo s) →
  pins_exact (pins s) → fu_reads s !! h = Some x → fh_release x = Some p → pinned (pins s) p i →
  leads_to (view (r_DB (fu_repo s))) RootInode i ∨ (∃ e, e ∈ graveyard (fu_repo s) ∧ ge_InodeID e = i) →
  getInodeTx i (r_DB (fu_repo s)) = Ok rec → IsDir rec = false → readable (fu_repo s) rec ds → reader_ok ds (fh_fr x) →
  Sweep pages grace clk (fu_repo s) = (res, r') → (r_drawn r' <= N)%nat →
  getInodeTx i (r_DB r') = Ok rec ∧
  ∀ n off, 0 <= off → ∃ s', fu_Read h n off (fu_set_repo r' s) = (Ok (slice off (Z.of_nat n) (concat ds)), s').
Proof.
  intros HK Hi Hd Ho Hpe Hx Hp Hpin Hnamed Hrec Hf Hread Hok Hrun HN.
  assert (protected (clk - grace) (fu_repo s) i) as Hprot.
  { split; [done|]. intros e He Ei. right. by apply (pinned_held _ p). }
  destruct (Sweep_protects K N pages grace clk (fu_repo s) res r' HK Hi Hd Ho Hrun HN) as (_ & _ & _ & _ & _ & Hkeep).
  destruct (Hkeep i rec Hprot Hrec) as [Hrec' Hread']. split; [done|]. intros n off Hoff.
  destruct (Hread' Hf ds Hread) as (_ & _ & Hds & _). by apply (fu_Read_ok h x).
Qed.
End sweeping.
