(* ===== verification/FuseStale.v ===== *)
(** pkg/fuseserver, cached attributes: a node serves its cached record while
    the lease manager grants it a lease, so what it serves is never older than
    the lease of the repository's class.

    [serving] collects the states a mount passes through: time goes on, an
    operation runs on a node go-fuse knows or on an open file.  go-fuse keeps
    one node per inode number and may forget nodes at any time; which nodes it
    knows is the set [L]. *)
From S2P Require Import Prelude Bolt Chunk Manifest Store Pack MetaDB MetaSpec MetaRefine MetaTree MetaInv MetaThm.
From S2P Require Import Coherence RepoUtil Repo RepoRead RepoStore RepoThm RepoCoh.
From S2P Require Import MdsServer MdsThm MdsFuse FuseServer FuseServerThm.

(** ** Statements *)

(** The operations on a node, and on an open file. *)
Inductive gop :=
  | GGetattr | GReadlink | GLookup (name : bytes) | GReaddir | GOpen (flags : Z) | GChange (o : fop).
Inductive hop :=
  | HWrite (data : bytes) (off : Z) | HReadBuf (n : nat) (off : Z) | HAllocate (off size mode : Z)
  | HFlush | HFsync | HClose | HRead (n : nat) (off : Z) | HReadClose.

Section statements.
Context {bucket : Type → Type} `{BoltOps bucket} {B : Type} `{BackendOps B} {blake3 : Blake3}.
Abbreviation mount := (FuMount bucket B).

Definition run_gop (n : nat) (g : gop) : M mount unit :=
  match g with
  | GGetattr => fu_Getattr n ≫= λ _, mret tt
  | GReadlink => fu_Readlink n ≫= λ _, mret tt
  | GLookup name => fu_Lookup n name ≫= λ _, mret tt
  | GReaddir => fu_Readdir n ≫= λ _, mret tt
  | GOpen flags => fu_Open n flags ≫= λ _, mret tt
  | GChange o => run_fop n o
  end.

Definition run_hop (h : nat) (o : hop) : M mount unit :=
  match o with
  | HWrite data off => fu_Write h data off ≫= λ _, mret tt
  | HReadBuf n off => fu_ReadBuf h n off ≫= λ _, mret tt
  | HAllocate off size mode => fu_Allocate h off size mode
  | HFlush => fu_Flush h
  | HFsync => fu_Fsync h
  | HClose => fu_Release h
  | HRead n off => fu_Read h n off ≫= λ _, mret tt
  | HReadClose => fu_ReadRelease h
  end.

Definition db_of (s : mount) : DB bucket := r_DB (fu_repo s).
Definition leases_of (s : mount) : option (duration * gmap bytes (gmap bytes leaseEntry)) :=
  (λ m, (m_d m, m_leases m)) <$> r_Coherence (fu_repo s).
Definition fu_set_now (t : time) (s : mount) : mount :=
  mkFuMount (fu_repo s) (fu_nodes s) (fu_writes s) (fu_reads s) (fu_next s) t.

(** Addresses are not used twice. *)
Definition alloc_ok (s : mount) : Prop := ∀ n, (fu_next s <= n)%nat → fu_nodes s !! n = None.

(** go-fuse knows at most one node per inode. *)
Definition one_each (L : gset nat) (s : mount) : Prop :=
  ∀ n n' nd nd', n ∈ L → n' ∈ L → fu_nodes s !! n = Some nd → fu_nodes s !! n' = Some nd' →
    fn_ino nd = fn_ino nd' → n = n'.

(** What becomes of the nodes go-fuse knows: it may forget some, and learn of
    nodes that are new. *)
Definition known_after (L : gset nat) (s : mount) (L' : gset nat) (s' : mount) : Prop :=
  (∀ n, n ∈ L' → (n ∈ L ∨ fu_nodes s !! n = None) ∧ is_Some (fu_nodes s' !! n)) ∧ one_each L' s'.

(** A mount of a mutable repository as it starts, with the node of the root. *)
Definition mount_start (root : nat) (s : mount) : Prop :=
  ∃ m rec, r_Coherence (fu_repo s) = Some m ∧ m_leases m = ∅ ∧ getInodeTx RootInode (db_of s) = Ok rec ∧
    fu_nodes s = {[root := mkFuNode RootInode zero_inode [] rec false None]} ∧ (root < fu_next s)%nat.

(** A truncation without an open file goes by the node's name.  The node when
    the name leads elsewhere: it then shows the record of another file. *)
Definition strays (n : nat) (g : gop) (s : mount) : gset nat :=
  match g, fu_nodes s !! n with
  | GChange (FSetattr x), Some nd =>
      if bool_decide (is_Some (in_size x)) && bool_decide (fn_activeWrite nd = None)
         && negb (match lookupTx (fn_parent nd) (fn_name nd) (db_of s) with
                  | Ok i => bool_decide (i = fn_ino nd) | Err _ => false end)
      then {[n]} else ∅
  | _, _ => ∅
  end.

(** Others leave the mount's leases alone, or revoke them. *)
Definition leases_left (s s' : mount) : Prop :=
  ∃ d ls ls', leases_of s = Some (d, ls) ∧ leases_of s' = Some (d, ls') ∧
    ∀ obj l, inner ls' obj !! coherenceHolder = Some l → inner ls obj !! coherenceHolder = Some l.

(** The states of a mount, with the store at every time so far, the nodes
    go-fuse knows, and those that have strayed. *)
Inductive serving : list (time * DB bucket) → gset nat → gset nat → mount → Prop :=
  | serving_start root s : mount_start root s → serving [(fu_now s, db_of s)] {[root]} ∅ s
  | serving_tick hist L X s t :
      serving hist L X s → fu_now s <= t → serving ((t, db_of s) :: hist) L X (fu_set_now t s)
  | serving_other hist L X s r :
      serving hist L X s → leases_left s (fu_set_repo r s) →
      serving ((fu_now s, r_DB r) :: hist) L X (fu_set_repo r s)
  | serving_node hist L X s n g res s' L' :
      serving hist L X s → n ∈ L → run_gop n g s = (res, s') → known_after L s L' s' →
      serving ((fu_now s', db_of s') :: hist) L' (X ∪ strays n g s) s'
  | serving_file hist L X s h o res s' L' :
      serving hist L X s → run_hop h o s = (res, s') → known_after L s L' s' →
      serving ((fu_now s', db_of s') :: hist) L' X s'.

(** *** What the operations do to nodes and leases *)

Definition shown (nd : fuNode) : InodeID * InodeRecord := (fn_ino nd, fn_cachedRec nd).
Definition up_to_date (s : mount) (nd : fuNode) : Prop :=
  fn_ino nd ≠ zero_inode → getInodeTx (fn_ino nd) (db_of s) = Ok (fn_cachedRec nd).

(** Time and leases stand. *)
Definition steady (s s' : mount) : Prop := fu_now s' = fu_now s ∧ leases_of s' = leases_of s.
(** So do the nodes, all but perhaps [n]. *)
Definition still (s s' : mount) : Prop :=
  steady s s' ∧ ∀ n, shown <$> (fu_nodes s' !! n) = shown <$> (fu_nodes s !! n).
Definition same_but (n : nat) (s s' : mount) : Prop :=
  steady s s' ∧ (∀ k, fn_ino <$> (fu_nodes s' !! k) = fn_ino <$> (fu_nodes s !! k)) ∧
  ∀ k, k ≠ n → shown <$> (fu_nodes s' !! k) = shown <$> (fu_nodes s !! k).
(** The node [n] now shows what the store has. *)
Definition renewed (n : nat) (s s' : mount) : Prop :=
  same_but n s s' ∧ ∀ nd, fu_nodes s' !! n = Some nd → up_to_date s' nd.

(** Nodes are as before, or are new or refreshed and show what the store has. *)
Definition calm (s s' : mount) : Prop :=
  steady s s' ∧
  (∀ n nd, fu_nodes s !! n = Some nd → ∃ nd', fu_nodes s' !! n = Some nd' ∧ fn_ino nd' = fn_ino nd) ∧
  (∀ n nd', fu_nodes s' !! n = Some nd' →
     (∃ nd, fu_nodes s !! n = Some nd ∧ shown nd' = shown nd) ∨ up_to_date s' nd').
Definition kept (s s' : mount) : Prop := calm s s' ∧ db_of s' = db_of s.
(** ... all but those of [Y]. *)
Definition calm_but (Y : gset nat) (s s' : mount) : Prop :=
  steady s s' ∧
  (∀ n nd, fu_nodes s !! n = Some nd → ∃ nd', fu_nodes s' !! n = Some nd' ∧ fn_ino nd' = fn_ino nd) ∧
  (∀ n nd', n ∉ Y → fu_nodes s' !! n = Some nd' →
     (∃ nd, fu_nodes s !! n = Some nd ∧ shown nd' = shown nd) ∨ up_to_date s' nd').

(** Changes that leave nodes, leases and the store alone. *)
Definition aside (s s' : mount) : Prop :=
  fu_nodes s' = fu_nodes s ∧ (fu_next s <= fu_next s')%nat ∧ fu_now s' = fu_now s ∧ leases_of s' = leases_of s ∧ db_of s' = db_of s.

(** The node [n] fetches its record and takes a lease. *)
Definition fetched (n : nat) (s s' : mount) : Prop :=
  fu_now s' = fu_now s ∧ db_of s' = db_of s ∧
  (∀ k, fn_ino <$> (fu_nodes s' !! k) = fn_ino <$> (fu_nodes s !! k)) ∧
  (∀ k, k ≠ n → shown <$> (fu_nodes s' !! k) = shown <$> (fu_nodes s !! k)) ∧
  ∃ nd d ls ls', fu_nodes s' !! n = Some nd ∧ up_to_date s' nd ∧
    leases_of s = Some (d, ls) ∧ leases_of s' = Some (d, ls') ∧
    ∀ obj l, inner ls' obj !! coherenceHolder = Some l →
      inner ls obj !! coherenceHolder = Some l ∨ (obj = InodeCoherenceKey (fn_ino nd) ∧ ls_expiry l = fu_now s + d).
Definition unmoved (s s' : mount) : Prop := still s s' ∧ db_of s' = db_of s.
Definition granted (n : nat) (s s' : mount) : Prop := unmoved s s' ∨ fetched n s s'.
Definition served (n : nat) (s s' : mount) : Prop := ∃ s1, granted n s s1 ∧ alloc_ok s1 ∧ calm s1 s'.
Definition served_but (Y : gset nat) (n : nat) (s s' : mount) : Prop :=
  ∃ s1, granted n s s1 ∧ alloc_ok s1 ∧ calm_but Y s1 s'.

(** Every run of [m] is an [R]; every failing run is; addresses stay fresh. *)
Definition respects {A} (R : mount → mount → Prop) (m : M mount A) : Prop :=
  ∀ s res s', alloc_ok s → m s = (res, s') → R s s' ∧ alloc_ok s'.
Definition failing {A} (R : mount → mount → Prop) (m : M mount A) : Prop :=
  ∀ s e s', alloc_ok s → m s = (Err e, s') → R s s' ∧ alloc_ok s'.

(** The store, and what a node is bound to. *)
Definition bound_in (db : DB bucket) (n : nat) (b : option (InodeID * InodeID * bytes * option nat)) (s : mount) : Prop :=
  db_of s = db ∧ (λ nd, (fn_ino nd, fn_parent nd, fn_name nd, fn_activeWrite nd)) <$> (fu_nodes s !! n) = b.

(** Every run of [m], an operation on the node [n], serves it. *)
Definition serves {A} (n : nat) (m : M mount A) : Prop :=
  ∀ s res s', is_Some (leases_of s) → alloc_ok s → m s = (res, s') → served n s s' ∧ alloc_ok s'.

(** What is known of the nodes, all but those of [X]: each shows a record the store had at a time
    that no lease on it outlives by more than its duration. *)
Record recent (hist : list (time * DB bucket)) (L X : gset nat) (s : mount) : Prop := mkRecent {
  rc_now : (fu_now s, db_of s) ∈ hist;
  rc_alloc : alloc_ok s;
  rc_known : ∀ n, n ∈ L → is_Some (fu_nodes s !! n);
  rc_each : one_each L s;
  rc_leased : is_Some (leases_of s);
  rc_bound : ∀ d ls obj l, leases_of s = Some (d, ls) → inner ls obj !! coherenceHolder = Some l →
               ls_expiry l <= fu_now s + d;
  rc_seen : ∀ n nd, n ∈ L → n ∉ X → fu_nodes s !! n = Some nd → fn_ino nd ≠ zero_inode →
    ∃ t db, (t, db) ∈ hist ∧ t <= fu_now s ∧ getInodeTx (fn_ino nd) db = Ok (fn_cachedRec nd) ∧
      ∀ d ls l, leases_of s = Some (d, ls) → inner ls (InodeCoherenceKey (fn_ino nd)) !! coherenceHolder = Some l →
        ls_expiry l <= t + d
}.
End statements.

(** ** Runs *)

Section runs.
Context {bucket : Type → Type} `{BoltOps bucket} {B : Type} `{BackendOps B} {blake3 : Blake3}.
Abbreviation mount := (FuMount bucket B).
Implicit Types s : mount.

#[global] Instance steady_preorder : PreOrder (steady (bucket := bucket) (B := B)).
Proof. split; [done|]. intros s1 s2 s3 [A1 A2] [B1 B2]. split; congruence. Qed.

#[global] Instance still_preorder : PreOrder (still (bucket := bucket) (B := B)).
Proof. split; [done|]. intros s1 s2 s3 [A1 A2] [B1 B2]. split; [by etrans|congruence]. Qed.

#[global] Instance same_but_preorder n : PreOrder (same_but (bucket := bucket) (B := B) n).
Proof.
  split; [done|]. intros s1 s2 s3 (A1 & A2 & A3) (B1 & B2 & B3). split_and!; [by etrans|congruence|].
  intros k Hk. by rewrite B3, A3.
Qed.

Lemma shown_ino (a b : option fuNode) : shown <$> a = shown <$> b → fn_ino <$> a = fn_ino <$> b.
Proof. destruct a, b; try done. unfold shown. cbn. by intros [= -> _]. Qed.

Lemma still_same_but n s s' : still s s' → same_but n s s'.
Proof. intros [A1 A2]. split_and!; [done| |done]. intros k. apply shown_ino, A2. Qed.

(** Nodes that show the same, and nodes of the same inode. *)
Lemma same_shown (s s' : mount) k nd' :
  shown <$> (fu_nodes s' !! k) = shown <$> (fu_nodes s !! k) → fu_nodes s' !! k = Some nd' →
  ∃ nd, fu_nodes s !! k = Some nd ∧ shown nd' = shown nd.
Proof. intros E Hk. rewrite Hk in E. destruct (fu_nodes s !! k) as [nd|]; [|done]. exists nd. split; [done|]. cbn in E. congruence. Qed.

Lemma same_ino (s s' : mount) k nd :
  fn_ino <$> (fu_nodes s' !! k) = fn_ino <$> (fu_nodes s !! k) → fu_nodes s !! k = Some nd →
  ∃ nd', fu_nodes s' !! k = Some nd' ∧ fn_ino nd' = fn_ino nd.
Proof. intros E Hk. rewrite Hk in E. destruct (fu_nodes s' !! k) as [nd'|]; [|done]. exists nd'. by injection E. Qed.

Lemma calm_of_still s s' : still s s' → calm s s'.
Proof.
  intros [A1 A2]. split_and!; [done| |].
  - intros n nd. apply same_ino, shown_ino, A2.
  - intros n nd' Hn. left. by apply (same_shown s s' n nd' (A2 n)).
Qed.

Lemma calm_renewed n s s' : renewed n s s' → calm s s'.
Proof.
  intros [(A1 & A2 & A3) A4]. split_and!; [done| |].
  - intros k nd. apply same_ino, A2.
  - intros k nd' Hk. destruct (decide (k = n)) as [-> |Hne]; [right; eauto|]. left. by apply (same_shown s s' k nd' (A3 k Hne)).
Qed.

Lemma calm_trans s1 s2 s3 : still s1 s2 → calm s2 s3 → calm s1 s3.
Proof.
  intros [A1 A2] (B1 & B2 & B3). split_and!; [by etrans| |].
  - intros n nd Hn. destruct (same_ino s1 s2 n nd (shown_ino _ _ (A2 n)) Hn) as (nd2 & H2 & E2).
    destruct (B2 n nd2 H2) as (nd3 & H3 & E3). exists nd3. split; congruence.
  - intros n nd3 H3. destruct (B3 n nd3 H3) as [(nd2 & H2 & E2)|]; [|by right]. left.
    destruct (same_shown s1 s2 n nd2 (A2 n) H2) as (nd1 & H1' & E1). exists nd1. split; congruence.
Qed.

Lemma calm_kept s1 s2 s3 : calm s1 s2 → kept s2 s3 → calm s1 s3.
Proof.
  intros (A1 & A2 & A3) [(B1 & B2 & B3) B4]. split_and!; [by etrans| |].
  - intros n nd Hn. destruct (A2 n nd Hn) as (nd2 & H2 & E2). destruct (B2 n nd2 H2) as (nd3 & H3 & E3). exists nd3.
    split; congruence.
  - intros n nd3 H3. destruct (B3 n nd3 H3) as [(nd2 & H2 & E2)|]; [|by right].
    destruct (A3 n nd2 H2) as [(nd1 & H1' & E1)|Hu]; [left; exists nd1; split; congruence|].
    right. unfold up_to_date in *. injection E2 as -> ->. by rewrite B4.
Qed.

Lemma calm_but_calm Y s s' : calm s s' → calm_but Y s s'.
Proof. intros (A1 & A2 & A3). split_and!; [done..|]. intros n nd' _. apply A3. Qed.

(** The node [n] shows something else, and then perhaps its record. *)
Lemma calm_but_same n s s1 s2 : same_but n s s1 → kept s1 s2 ∨ renewed n s1 s2 → calm_but {[n]} s s2.
Proof.
  intros (A1 & A2 & A3) Hs. assert (calm s1 s2) as (B1 & B2 & B3) by (destruct Hs as [[]|]; [done|by eapply calm_renewed]).
  split_and!; [by etrans| |].
  - intros k nd Hk. destruct (same_ino s s1 k nd (A2 k) Hk) as (nd1 & H1' & E1).
    destruct (B2 k nd1 H1') as (nd2 & H2 & E2). exists nd2. split; congruence.
  - intros k nd2 Hk%not_elem_of_singleton H2. destruct (B3 k nd2 H2) as [(nd1 & H1' & E1)|]; [|by right]. left.
    destruct (same_shown s s1 k nd1 (A3 k Hk) H1') as (nd & Hn & E). exists nd. split; congruence.
Qed.

#[global] Instance kept_preorder : PreOrder (kept (bucket := bucket) (B := B)).
Proof.
  split; [intros s; split; [by apply calm_of_still|done]|].
  intros s1 s2 s3 [A1 A2] B1. split; [by eapply calm_kept|]. destruct B1. congruence.
Qed.

#[global] Instance unmoved_refl : Reflexive (unmoved (bucket := bucket) (B := B)).
Proof. done. Qed.

Lemma bind_cases {A C} (m : M mount A) (k : A → M mount C) s res s' :
  (m ≫= k) s = (res, s') → (∃ e, res = Err e ∧ m s = (Err e, s')) ∨ ∃ a s1, m s = (Ok a, s1) ∧ k a s1 = (res, s').
Proof. unfold mbind, M_bind. destruct (m s) as [[a|e] s1]; [eauto|]. intros [= <- <-]. left. eauto. Qed.

Lemma respects_weaken {A} (R R' : mount → mount → Prop) (m : M mount A) :
  (∀ s s', R s s' → R' s s') → respects R m → respects R' m.
Proof. intros Hw Hm s res s' Ha E. destruct (Hm s res s' Ha E). eauto. Qed.

Lemma respects_seq {A C} (R1 R2 R3 : mount → mount → Prop) (m : M mount A) (k : A → M mount C) :
  (∀ s1 s2 s3, R1 s1 s2 → R2 s2 s3 → R3 s1 s3) → (∀ s s', R1 s s' → R3 s s') →
  respects R1 m → (∀ a, respects R2 (k a)) → respects R3 (m ≫= k).
Proof.
  intros Ht Hw Hm Hk s res s' Ha [(e & -> & E)|(a & s1 & E & E2)]%bind_cases.
  - destruct (Hm s _ _ Ha E). eauto.
  - destruct (Hm s _ _ Ha E) as [H1' Ha1]. destruct (Hk a s1 _ _ Ha1 E2). eauto.
Qed.

Lemma respects_bind {A C} (R : mount → mount → Prop) `{!Transitive R} (m : M mount A) (k : A → M mount C) :
  respects R m → (∀ a, respects R (k a)) → respects R (m ≫= k).
Proof. apply respects_seq; [apply transitivity|done]. Qed.

Lemma failing_bind {A C} (R : mount → mount → Prop) `{!Transitive R} (m : M mount A) (k : A → M mount C) :
  respects R m → (∀ a, failing R (k a)) → failing R (m ≫= k).
Proof.
  intros Hm Hk s e s' Ha [(e' & _ & E)|(a & s1 & E & E2)]%bind_cases; [by apply (Hm s _ _ Ha E)|].
  destruct (Hm s _ _ Ha E) as [H1' Ha1]. destruct (Hk a s1 _ _ Ha1 E2). split; [by etrans|done].
Qed.

Lemma respects_pure {A} (R : mount → mount → Prop) `{!Reflexive R} (m : M mount A) : (∀ s, (m s).2 = s) → respects R m.
Proof. intros Hm s res s' Ha E. specialize (Hm s). rewrite E in Hm. cbn in Hm. subst. by split. Qed.

Lemma respects_attempt {A} (R : mount → mount → Prop) (m : M mount A) : respects R m → respects R (attempt m).
Proof. intros Hm s res s' Ha. unfold attempt. destruct (m s) as [r s1] eqn:E. intros [= <- <-]. by apply (Hm s r). Qed.

Lemma respects_orErrno {A} (R : mount → mount → Prop) (m : M mount A) : respects R m → respects R (fu_orErrno m).
Proof.
  intros Hm s res s' Ha. unfold fu_orErrno. destruct (m s) as [[a|e] s1] eqn:E; intros [= <- <-]; by apply (Hm s _ _ Ha E).
Qed.

Lemma respects_orEIO {A} (R : mount → mount → Prop) (m : M mount A) : respects R m → respects R (fu_orEIO m).
Proof.
  intros Hm s res s' Ha. unfold fu_orEIO. destruct (m s) as [[a|e] s1] eqn:E; intros [= <- <-]; by apply (Hm s _ _ Ha E).
Qed.

(** The store first, then the nodes. *)
Lemma calm_first {A C} (m : M mount A) (k : A → M mount C) :
  respects still m → (∀ a, respects calm (k a)) → respects calm (m ≫= k).
Proof. apply respects_seq; [apply calm_trans|apply calm_of_still]. Qed.

Lemma calm_last {A C} (m : M mount A) (k : A → M mount C) :
  respects calm m → (∀ a, respects kept (k a)) → respects calm (m ≫= k).
Proof. apply respects_seq; [apply calm_kept|done]. Qed.

(** *** Calls *)

Lemma alloc_frame s s' : frame s s' → alloc_ok s → alloc_ok s'.
Proof.
  intros (_ & _ & En & _ & Hn) Ha n Hle. rewrite En in Hle. specialize (Hn n). rewrite (Ha n Hle) in Hn.
  by destruct (fu_nodes s' !! n).
Qed.

Lemma frame_shown s s' n : frame s s' → shown <$> (fu_nodes s' !! n) = shown <$> (fu_nodes s !! n).
Proof.
  intros (_ & _ & _ & _ & Hn). specialize (Hn n). destruct (fu_nodes s' !! n), (fu_nodes s !! n); try done.
  cbn in *. unfold fn_core in Hn. unfold shown. by injection Hn as -> _ _ -> _.
Qed.

Lemma respects_repo {A} (m : M (Repo bucket B nat unit) A) : tame m → respects still (onRepo m).
Proof.
  intros Hm s res s' Ha E. apply onRepo_run in E as (r & Er & Hf & Hr). split; [|by eapply alloc_frame].
  specialize (Hm _ (fu_repo s) eq_refl). rewrite Er in Hm. cbn in Hm. injection Hm as _ Hl.
  split; [split|intros n; by apply frame_shown]; [by destruct Hf as (_ & _ & _ & ? & _)|].
  unfold leases_of. by rewrite Hr.
Qed.

Lemma unmoved_view {A} (g : DB bucket → result A) : respects unmoved (onRepo (B := B) (onDB (View g))).
Proof.
  intros s res s' Ha E. destruct (respects_repo _ (tame_onDB _) s res s' Ha E) as [Hs Ha'].
  apply onRepo_view in E as [_ [_ Hr]]. split; [|done]. split; [done|]. unfold db_of. by rewrite Hr.
Qed.

Lemma respects_view {A} (g : DB bucket → result A) : respects kept (onRepo (B := B) (onDB (View g))).
Proof.
  apply (respects_weaken unmoved); [|apply unmoved_view]. intros s s' [Hs Hd]. split; [by apply calm_of_still|done].
Qed.

Lemma calm_keeping {A} (m : M mount A) : respects kept m → respects calm m.
Proof. apply respects_weaken. by intros s s' []. Qed.

(** A change of a node that does not show. *)
Lemma still_onNode n f : (∀ nd, shown (f nd) = shown nd) → respects still (onNode (bucket := bucket) (B := B) n f).
Proof.
  intros Hf s res s' Ha [= _ <-]. split.
  - split; [done|]. intros k. cbn. rewrite lookup_alter. case_decide; [subst|done].
    destruct (fu_nodes s !! k) as [nd|]; [|done]. cbn. by rewrite Hf.
  - intros k Hk. cbn in *. rewrite lookup_alter. case_decide; [subst|by apply Ha]. by rewrite Ha.
Qed.

Lemma respects_onNode n f : (∀ nd, shown (f nd) = shown nd) → respects kept (onNode (bucket := bucket) (B := B) n f).
Proof.
  intros Hf s res s' Ha E. destruct (still_onNode n f Hf s res s' Ha E) as [Hs Ha']. injection E as _ <-.
  split; [|done]. split; [by apply calm_of_still|done].
Qed.
End runs.

(** ** Commits and records *)

Section records.
Context {bucket : Type → Type} `{BoltLaws bucket} {B : Type} `{BackendOps B} {blake3 : Blake3}.
Implicit Types r : Repo bucket B nat unit.

(** A commit under a name that leads to an inode goes to that inode. *)
Lemma commitOpen_id h now clk r id r' i :
  lookupTx (wh_dir h) (wh_name h) (r_DB r) = Ok i → commitOpen h now clk r = (Ok id, r') → id = i.
Proof.
  intros Hl Hrun. apply commitOpen_run in Hrun as [[? _]|(sres & r1 & Hstore & Hrun)]; [done|].
  destruct sres as [c|e]; [|by destruct Hrun].
  destruct (store_flush_meta _ _ _ _ _ _ Hstore) as [Hm _].
  destruct (commitBind_run h c now r1) as (cres & d & Hcf & Hcb). rewrite Hrun in Hcb.
  destruct cres as [id'|e]; [|by destruct Hcb]. injection Hcb as <- _. rewrite (CommitFile_id _ _ _ _ _ _ _ Hcf).
  unfold commit_id. rewrite (same_meta_view _ _ Hm). rewrite lookupTx_view in Hl.
  destruct (fs_names _ !! _) as [j|]; [|done]. by injection Hl as ->.
Qed.

(** The records [Link] and [SetAttr] return are those they store. *)
Lemma SetAttr_record i mut now (tx tx' : DB bucket) rec : SetAttr i mut now tx = (Ok rec, tx') → getInodeTx i tx' = Ok rec.
Proof.
  unfold SetAttr. rewrite bolt_update_Ok. intros E. unfold mbind, M_bind, View in E.
  destruct (getInodeTx i tx) as [rec0|e]; [|done]. injection E as <- <-. unfold getInodeTx, on_inode. cbn.
  by rewrite bk_get_put_eq.
Qed.
Lemma Link_record d n i now (tx tx' : DB bucket) rec : Link d n i now tx = (Ok rec, tx') → getInodeTx i tx' = Ok rec.
Proof.
  unfold Link. rewrite bolt_update_Ok. intros E. destruct (fs_inodes (view tx) !! i) as [old|] eqn:Hi.
  2: { unfold linkTx, mbind, M_bind, View in E. by rewrite getInodeTx_view, Hi in E. }
  pose proof (linkTx_spec d n i now old tx Hi) as Hs. unfold tx_spec in Hs. destruct (fs_pre _ _) as [[]|e] eqn:Hp.
  2: { destruct Hs as [? Hs]. by rewrite E in Hs. }
  destruct Hs as (tx2 & E2 & V). rewrite E in E2. injection E2 as -> ->. rewrite getInodeTx_view, V. cbn in Hp |- *.
  unfold need_inode in Hp. unfold with_inode. rewrite Hi in Hp |- *. unfold need_dir, need_inode in Hp. fsred.
  assert (d ≠ i) as Hne.
  { intros ->. rewrite Hi in Hp. by destruct (IsDir old). }
  rewrite lookup_alter_ne by done. by rewrite lookup_insert_eq.
Qed.
End records.

(** ** Operations *)

Section operations.
Context {bucket : Type → Type} `{BoltLaws bucket} {B : Type} `{BackendOps B} {blake3 : Blake3}.
Abbreviation mount := (FuMount bucket B).
Implicit Types s : mount.

Ltac tame_tac :=
  repeat match goal with
  | |- keeps _ (mbind _ _) => apply keeps_bind; [|intros ?]
  | |- keeps _ (attempt _) => apply keeps_attempt
  | |- keeps _ (mret _) => apply keeps_ret
  | |- keeps _ (throw _) => apply keeps_throw
  | |- keeps _ requireMutable => apply tame_mutable
  | |- keeps _ (onDB _) => apply tame_onDB
  | |- keeps _ (bumpDirEntries _) => apply tame_bumpDir
  | |- keeps _ (bump _) => apply tame_bump
  | |- keeps _ (match ?x with _ => _ end) => destruct x
  end.

Lemma tame_Unlink d n clk : tame (Unlink (bucket := bucket) (B := B) d n clk).
Proof. intros o. unfold Unlink. tame_tac. Qed.
Lemma tame_Mkdir d n mode ow now : tame (Mkdir (bucket := bucket) (B := B) d n mode ow now).
Proof. intros o. unfold Mkdir. tame_tac. Qed.
Lemma tame_Rmdir d n clk : tame (Rmdir (bucket := bucket) (B := B) d n clk).
Proof. intros o. unfold Rmdir. tame_tac. Qed.
Lemma tame_Rename d n d' n' now clk : tame (repo_Rename (bucket := bucket) (B := B) d n d' n' now clk).
Proof. intros o. unfold repo_Rename. tame_tac. Qed.
Lemma tame_Link d n i now : tame (repo_Link (bucket := bucket) (B := B) d n i now).
Proof. intros o. unfold repo_Link. tame_tac. Qed.
Lemma tame_Mknod d n typ rdev mode ow now : tame (Mknod (bucket := bucket) (B := B) d n typ rdev mode ow now).
Proof. intros o. unfold Mknod. tame_tac. Qed.
Lemma tame_Symlink d n t ow now : tame (Symlink (bucket := bucket) (B := B) d n t ow now).
Proof. intros o. unfold Symlink. tame_tac. Qed.
Lemma tame_SetAttr i mut now : tame (repo_SetAttr (bucket := bucket) (B := B) i mut now).
Proof. intros o. unfold repo_SetAttr. tame_tac. Qed.

(** A node whose record is set to what the store has is renewed. *)
Lemma renewed_setCached n rec s s1 res s' :
  still s s1 → alloc_ok s1 → setCached n rec s1 = (res, s') →
  (∀ nd, fu_nodes s1 !! n = Some nd → fn_ino nd ≠ zero_inode → getInodeTx (fn_ino nd) (db_of s1) = Ok rec) →
  renewed n s s' ∧ alloc_ok s'.
Proof.
  intros [Hs Hn] Ha [= _ <-] Hrec. cbn. split; [split; [split_and!|]|].
  - done.
  - intros k. cbn. rewrite <- (shown_ino _ _ (Hn k)), lookup_alter. case_decide; [subst|done]. by destruct (fu_nodes s1 !! k).
  - intros k Hk. cbn. rewrite <- Hn. by rewrite lookup_alter_ne.
  - intros nd. cbn. rewrite lookup_alter_eq. destruct (fu_nodes s1 !! n) as [nd1|] eqn:E; [|done].
    intros [= <-] Hz. cbn in *. by apply (Hrec nd1).
  - intros k Hk. cbn in *. rewrite lookup_alter. case_decide; [subst|by apply Ha]. by rewrite Ha.
Qed.

Lemma respects_clock (R : mount → mount → Prop) `{!Reflexive R} : respects R clockNow.
Proof. by apply respects_pure. Qed.
Lemma respects_mutable (R : mount → mount → Prop) `{!Reflexive R} : respects R fu_mutable.
Proof. by apply respects_pure. Qed.
Lemma respects_nodeAt (R : mount → mount → Prop) `{!Reflexive R} n : respects R (fu_nodeAt n).
Proof. apply respects_pure; [done|]. intros s. unfold fu_nodeAt. by destruct (fu_nodes s !! n). Qed.
Lemma respects_writeAt (R : mount → mount → Prop) `{!Reflexive R} h : respects R (fu_writeAt h).
Proof. apply respects_pure; [done|]. intros s. unfold fu_writeAt. by destruct (fu_writes s !! h). Qed.
Lemma respects_readAt (R : mount → mount → Prop) `{!Reflexive R} h : respects R (fu_readAt h).
Proof. apply respects_pure; [done|]. intros s. unfold fu_readAt. by destruct (fu_reads s !! h). Qed.
Lemma respects_ret {A} (R : mount → mount → Prop) `{!Reflexive R} (a : A) : respects R (mret a).
Proof. by apply respects_pure. Qed.
Lemma respects_throw {A} (R : mount → mount → Prop) `{!Reflexive R} e : respects R (throw e : M mount A).
Proof. by apply respects_pure. Qed.
Lemma respects_of_result {A} (R : mount → mount → Prop) `{!Reflexive R} (r : result A) : respects R (of_result r : M mount A).
Proof. apply respects_pure; [done|]. by destruct r. Qed.

Lemma still_aside {A} (m : M mount A) : (∀ s, aside s (m s).2) → respects still m.
Proof.
  intros Hm s res s' Ha E. specialize (Hm s). rewrite E in Hm. destruct Hm as (En & Ex & Et & El & Ed). cbn in *.
  split; [split; [done|by rewrite En]|]. intros k Hk. rewrite En. apply Ha. lia.
Qed.

Lemma kept_aside {A} (m : M mount A) : (∀ s, aside s (m s).2) → respects kept m.
Proof.
  intros Hm s res s' Ha E. destruct (still_aside m Hm s res s' Ha E) as [Hs Ha']. split; [|done].
  split; [by apply calm_of_still|]. specialize (Hm s). rewrite E in Hm. by destruct Hm as (_ & _ & _ & _ & ?).
Qed.

Lemma aside_acquire i s : aside s (fu_acquire i s).2.
Proof. unfold fu_acquire. by destruct (Acquire i _). Qed.
Lemma aside_release p s : aside s (fu_release p s).2.
Proof. by destruct p. Qed.
Lemma aside_newWrite w s : aside s (newWrite w s).2.
Proof. split_and!; try done. cbn. lia. Qed.
Lemma aside_newRead x s : aside s (newRead x s).2.
Proof. split_and!; try done. cbn. lia. Qed.
Lemma aside_readWhole rec s : aside s (readWhole rec s).2.
Proof. unfold readWhole. by destruct (OpenFile rec _). Qed.
Lemma aside_negative k n s : aside s (grantNegative k n s).2.
Proof. split_and!; try done. unfold leases_of. cbn. by destruct (r_Coherence _). Qed.
Lemma aside_writeInto wh buf s : aside s (writeInto wh buf s).2.
Proof. unfold writeInto. by destruct (wh_Write buf wh) as [[]]. Qed.

(** A new node that shows what the store has. *)
Lemma newNode_kept nd s res s' : alloc_ok s → up_to_date s nd → fu_newNode nd s = (res, s') → kept s s' ∧ alloc_ok s'.
Proof.
  intros Ha Hu [= _ <-]. pose proof (Ha _ (le_n (fu_next s))) as Hnone. split; [split; [split_and!|]|]; try done.
  - intros k nd0 Hk. cbn. rewrite lookup_insert_ne by congruence. eauto.
  - intros k nd'. cbn. rewrite lookup_insert. case_decide; [intros [= <-]; by right|]. intros Hk. left. eauto.
  - intros k. cbn. intros Hk. rewrite lookup_insert_ne by lia. apply Ha. lia.
Qed.

Lemma GetInode_Ok id s rec s' :
  fu_GetInode id s = (Ok rec, s') → getInodeTx id (db_of s) = Ok rec ∧ db_of s' = db_of s.
Proof. intros E. apply onRepo_view in E as [Hr [_ Hq]]. split; [done|]. unfold db_of. by rewrite Hq. Qed.

Lemma respects_GetInode id : respects kept (fu_GetInode (bucket := bucket) (B := B) id).
Proof. apply respects_view. Qed.

Lemma respects_adopt nd name id : respects kept (fu_adopt (bucket := bucket) (B := B) nd name id).
Proof.
  intros s res s' Ha. unfold fu_adopt. intros [(e & -> & E)|(rec & s1 & E & Hrun)]%bind_cases.
  { by apply (respects_orEIO _ _ (respects_GetInode id) s _ _ Ha E). }
  destruct (respects_orEIO _ _ (respects_GetInode id) s _ _ Ha E) as [Hk Ha1].
  apply orEIO_Ok_inv, GetInode_Ok in E as [Hrec Hd].
  apply bind_cases in Hrun as [(e & _ & [=])|(mut & s2 & [= <- <-] & Hrun)].
  apply bind_cases in Hrun as [(e & _ & [=])|(c & s2 & E & Hrun)]. injection Hrun as _ <-.
  apply newNode_kept in E as [Hk2 Ha2]; [|done|intros _; cbn; by rewrite Hd]. split; [by etrans|done].
Qed.

Lemma grantSelf_run key n s res s' d ls :
  grantSelf key n s = (res, s') → leases_of s = Some (d, ls) →
  fu_nodes s' = fu_nodes s ∧ fu_now s' = fu_now s ∧ db_of s' = db_of s ∧ fu_next s' = fu_next s ∧
  ∃ ls', leases_of s' = Some (d, ls') ∧
    ∀ obj l, inner ls' obj !! coherenceHolder = Some l →
      inner ls obj !! coherenceHolder = Some l ∨ (obj = key ∧ ls_expiry l = fu_now s + d).
Proof.
  intros [= _ <-] Hl. split_and!; try done. unfold leases_of in *. destruct (r_Coherence (fu_repo s)) as [m|] eqn:Hm; [|done].
  injection Hl as <- <-.
  set (m' := (Subscribe coherenceHolder key n (Grant coherenceHolder key (fu_now s) m).2).2).
  assert (m_d m' = m_d m ∧ m_leases m' = m_leases (Grant coherenceHolder key (fu_now s) m).2) as [Ed El].
  { unfold m', Subscribe. by destruct (_ && _). }
  exists (m_leases m'). split; [|rewrite El].
  { change (Some (m_d m', m_leases m') = Some (m_d m, m_leases m')). by rewrite Ed. }
  intros obj l. unfold Grant. cbn [snd m_leases set_leases]. rewrite inner_insert. case_decide as E; [subst obj|by left].
  rewrite lookup_insert. case_decide; [|done]. intros [= <-]. by right.
Qed.

(** A node that fetches its record. *)
Lemma fetch_run n nd s res s' :
  is_Some (leases_of s) → alloc_ok s → fu_nodes s !! n = Some nd →
  (rec ← fu_orEIO (fu_GetInode (fn_ino nd));
   setCached n rec ≫= λ _, grantSelf (InodeCoherenceKey (fn_ino nd)) n ≫= λ _, mret rec) s = (res, s') →
  alloc_ok s' ∧
  ((unmoved s s' ∧ is_ok res = false) ∨ (fetched n s s' ∧ res = getInodeTx (fn_ino nd) (db_of s))).
Proof.
  intros [[d ls] Hl] Ha Hn [(e & -> & E)|(rec & s2 & E & Hrun)]%bind_cases.
  { destruct (respects_orEIO _ _ (unmoved_view _) s _ _ Ha E) as [Hk Ha1]. split; [done|by left]. }
  apply orEIO_Ok_inv in E. destruct (respects_repo _ (tame_onDB _) s _ _ Ha E) as [Hs2 Ha2].
  apply GetInode_Ok in E as [Hrec Hd2].
  apply bind_cases in Hrun as [(e & _ & [=])|([] & s3 & E3 & Hrun)].
  assert (db_of s3 = db_of s2) as Ed3 by by injection E3 as <-.
  destruct (renewed_setCached n rec s s2 _ s3 Hs2 Ha2 E3) as [[([Et3 El3] & Hino & Hoth) Hup] Ha3].
  { intros nd2 H2 Hz. destruct (same_shown s s2 n nd2 (proj2 Hs2 n) H2) as (nd1 & E1 & Esh). rewrite Hn in E1.
    injection E1 as <-. injection Esh as -> _. by rewrite Hd2. }
  apply bind_cases in Hrun as [(e & _ & [=])|([] & s4 & E4 & Hrun)]. injection Hrun as <- <-.
  rewrite <- El3 in Hl. destruct (grantSelf_run _ n s3 _ s4 d ls E4 Hl) as (En4 & Et4 & Ed4 & Ex4 & ls' & El4 & Hls).
  split; [intros k Hk; rewrite En4; apply Ha3; by rewrite <- Ex4|]. right. split; [|done].
  destruct (same_ino s s3 n nd (Hino n) Hn) as (nd3 & Hn3 & Ei3).
  split_and!; [congruence|congruence|by rewrite En4|by rewrite En4|]. exists nd3, d, ls, ls'. rewrite En4, Ei3, <- Et3, <- El3.
  split_and!; try done. intros Hz. rewrite Ed4. by apply Hup.
Qed.

(** The record a node serves is the one it shows, under a lease, or it is
    fetched. *)
Lemma currentRec_run n s res s' :
  is_Some (leases_of s) → alloc_ok s → currentRec n s = (res, s') →
  (granted n s s' ∧ alloc_ok s') ∧
  ∀ nd rec, fu_nodes s !! n = Some nd → res = Ok rec →
    (rec = fn_cachedRec nd ∧
       ∃ d ls l, leases_of s = Some (d, ls) ∧ inner ls (InodeCoherenceKey (fn_ino nd)) !! coherenceHolder = Some l ∧
         fu_now s <= ls_expiry l) ∨
    getInodeTx (fn_ino nd) (db_of s) = Ok rec.
Proof.
  intros Hl Ha. unfold currentRec. intros [(e & -> & E)|(nd & s1 & E & Hrun)]%bind_cases.
  { destruct (respects_nodeAt unmoved n s _ _ Ha E). split; [split; [by left|done]|done]. }
  unfold fu_nodeAt in E. destruct (fu_nodes s !! n) as [nd0|] eqn:Hn; [|done]. injection E as -> ->.
  apply bind_cases in Hrun as [(e & _ & [=])|(s2 & s3 & [= <- <-] & Hrun)]. unfold id in Hrun.
  destruct (r_Coherence (fu_repo s1)) as [m|] eqn:Hm; [|unfold leases_of in Hl; rewrite Hm in Hl; by destruct Hl].
  destruct (negb _ && _) eqn:Hc in Hrun.
  - injection Hrun as <- <-. split; [split; [by left|done]|]. intros nd' rec [= <-] [= <-]. left. split; [done|].
    apply andb_true_iff in Hc as [_ Hc]. apply bool_decide_eq_true in Hc as [v Hv]. unfold TrustedVersion in Hv.
    destruct (inner (m_leases m) _ !! coherenceHolder) as [l|] eqn:El; [|done]. unfold After in Hv.
    destruct (Z.ltb_spec (ls_expiry l) (fu_now s1)); [done|]. eexists _, _, l.
    split_and!; [unfold leases_of; by rewrite Hm|done..].
  - destruct (fetch_run n nd s1 res s' Hl Ha Hn Hrun) as [Ha' [[Hk Hf]|[Hf ->]]]; (split; [split; [|done]|]).
    + by left.
    + intros nd' rec _ ->. done.
    + by right.
    + intros nd' rec [= <-] Hr. by right.
Qed.

(** The record first, then the rest. *)
Lemma serves_after {A} n (k : InodeRecord → M mount A) : (∀ rec, respects calm (k rec)) → serves n (currentRec n ≫= k).
Proof.
  intros Hk s res s' Hl Ha [(e & -> & E)|(rec & s1 & E & Hrun)]%bind_cases;
    destruct (currentRec_run n s _ _ Hl Ha E) as [[Hg Ha1] _].
  - split; [|done]. exists s'. split_and!; [done..|]. by apply calm_of_still.
  - destruct (Hk rec s1 _ _ Ha1 Hrun) as [Hc Ha2]. split; [by exists s1|done].
Qed.

Lemma serves_calm {A} n (m : M mount A) : respects calm m → serves n m.
Proof. intros Hm s res s' _ Ha E. destruct (Hm s _ _ Ha E). split; [|done]. exists s. split_and!; [by left|done..]. Qed.

Lemma serves_mutable {A} n (k : bool → M mount A) : (∀ b, serves n (k b)) → serves n (fu_mutable ≫= k).
Proof. intros Hk s res s' Hl Ha. apply Hk; done. Qed.

Lemma serves_done {A} n (m : M mount A) : serves n m → serves n (m ≫= λ _, mret tt).
Proof.
  intros Hm s res s' Hl Ha [(e & -> & E)|(a & s1 & E & [= _ <-])]%bind_cases; by apply (Hm s _ _ Hl Ha E).
Qed.

Ltac resp :=
  repeat match goal with
  | |- respects _ (let _ := _ in _) => cbv zeta
  | |- respects _ (mbind _ _) => apply respects_bind; [apply _| |intros ?]
  | |- respects _ (attempt _) => apply respects_attempt
  | |- respects _ (fu_orErrno _) => apply respects_orErrno
  | |- respects _ (fu_orEIO _) => apply respects_orEIO
  | |- respects _ (mret _) => apply respects_ret; apply _
  | |- respects _ (throw _) => apply respects_throw; apply _
  | |- respects _ (fu_throw _) => apply respects_throw; apply _
  | |- respects _ (of_result _) => apply respects_of_result; apply _
  | |- respects _ (fu_nodeAt _) => apply respects_nodeAt; apply _
  | |- respects _ (fu_writeAt _) => apply respects_writeAt; apply _
  | |- respects _ (fu_readAt _) => apply respects_readAt; apply _
  | |- respects _ fu_mutable => apply respects_mutable; apply _
  | |- respects _ clockNow => apply respects_clock; apply _
  | |- respects _ (fu_GetInode _) => apply respects_GetInode
  | |- respects _ (fu_adopt _ _ _) => apply respects_adopt
  | |- respects kept (fu_acquire _) => apply kept_aside, aside_acquire
  | |- respects kept (fu_release _) => apply kept_aside, aside_release
  | |- respects kept (newWrite _) => apply kept_aside, aside_newWrite
  | |- respects kept (newRead _) => apply kept_aside, aside_newRead
  | |- respects kept (readWhole _) => apply kept_aside, aside_readWhole
  | |- respects kept (grantNegative _ _) => apply kept_aside, aside_negative
  | |- respects kept (negativeTrusted _ _) => by apply kept_aside
  | |- respects kept (putWrite _ _) => by apply kept_aside
  | |- respects kept (putRead _ _) => by apply kept_aside
  | |- respects still (fu_acquire _) => apply still_aside, aside_acquire
  | |- respects still (readWhole _) => apply still_aside, aside_readWhole
  | |- respects still (writeInto _ _) => apply still_aside, aside_writeInto
  | |- respects kept (onNode _ _) => by apply respects_onNode
  | |- respects kept (onRepo (onDB _)) => apply respects_view
  | |- respects still (onRepo _) => apply respects_repo
  | |- respects _ (match ?x with _ => _ end) => destruct x
  end.

(** *** Reading *)

Lemma serves_Getattr n : serves n (fu_Getattr (bucket := bucket) (B := B) n).
Proof.
  apply serves_after. intros rec. apply calm_keeping. resp. unfold wf_size. resp.
Qed.

Lemma serves_Readlink n : serves n (fu_Readlink (bucket := bucket) (B := B) n).
Proof. apply serves_after. intros rec. apply calm_keeping. resp. Qed.

Lemma serves_Lookup n name : serves n (fu_Lookup (bucket := bucket) (B := B) n name).
Proof. apply serves_after. intros rec. apply calm_keeping. resp. Qed.

Lemma kept_direntries es : respects kept (fu_direntries (bucket := bucket) (B := B) es).
Proof. induction es as [|e es IH]; cbn [fu_direntries]; resp. apply IH. Qed.

Lemma serves_Readdir n : serves n (fu_Readdir (bucket := bucket) (B := B) n).
Proof.
  apply serves_after. intros rec. apply calm_keeping. unfold repo_Readdir. resp.
  apply kept_direntries.
Qed.

Lemma serves_Open n flags : serves n (fu_Open (bucket := bucket) (B := B) n flags).
Proof.
  apply serves_after. intros rec. apply calm_keeping.
  resp; unfold fu_openWrite, fu_openRead; resp. by apply kept_aside.
Qed.
(** *** Committing *)

Lemma still_commitHandle wh : respects still (commitHandle (bucket := bucket) (B := B) wh).
Proof. unfold commitHandle. resp. apply tame_Commit. Qed.

Lemma still_commitDetached wh i : respects still (commitDetachedHandle (bucket := bucket) (B := B) wh i).
Proof. unfold commitDetachedHandle. resp. apply tame_CommitDetached. Qed.

Lemma commitHandle_id wh s id s' i :
  commitHandle wh s = (Ok id, s') → lookupTx (wh_dir wh) (wh_name wh) (db_of s) = Ok i → id = i.
Proof.
  unfold commitHandle. intros (now & s1 & E & Hrun)%bind_Ok Hl. injection E as <- <-.
  apply onRepo_run in Hrun as (r & Hc & _). unfold Commit in Hc. destruct (wh_done wh); [done|].
  destruct (commitOpen wh _ _ (fu_repo s)) as [res r1] eqn:Ho. injection Hc as -> ->. by eapply commitOpen_id.
Qed.

(** The inode's record is read again, for its node. *)
Lemma refetch n id s s2 r s3 :
  still s s2 → alloc_ok s2 → (∀ nd, fu_nodes s !! n = Some nd → fn_ino nd ≠ zero_inode → id = fn_ino nd) →
  attempt (fu_GetInode id) s2 = (Ok r, s3) →
  still s s3 ∧ alloc_ok s3 ∧
  ∀ rec res s', r = Ok rec → setCached n rec s3 = (res, s') → renewed n s s' ∧ alloc_ok s'.
Proof.
  intros Hs Ha Hid E%attempt_inv. destruct (respects_repo _ (tame_onDB _) s2 _ _ Ha E) as [Hs3 Ha3].
  assert (still s s3) as Hs13 by by etrans. split_and!; [done..|]. intros rec res s' -> Hset.
  apply (renewed_setCached n rec s s3 res); [done..|]. intros nd3 H3 Hz.
  destruct (same_shown s s3 n nd3 (proj2 Hs13 n) H3) as (nd & Hn & [= Ei _]).
  apply GetInode_Ok in E as [Hr Hd]. rewrite Hd, Ei, <- (Hid nd); congruence.
Qed.

Lemma refresh_calm wn id s s2 res s' :
  still s s2 → alloc_ok s2 →
  (∀ n nd, wn = Some n → fu_nodes s !! n = Some nd → fn_ino nd ≠ zero_inode → id = fn_ino nd) →
  refresh wn id s2 = (res, s') → calm s s' ∧ alloc_ok s'.
Proof.
  intros Hs Ha Hid. unfold refresh. destruct wn as [n|]; [|intros [= _ <-]; split; [by apply calm_of_still|done]].
  intros [(e & _ & [=])|(r & s3 & E & Hrun)]%bind_cases.
  destruct (refetch n id s s2 r s3 Hs Ha (λ nd, Hid n nd eq_refl) E) as (Hs3 & Ha3 & Hset). destruct r as [rec|e].
  - destruct (Hset rec _ _ eq_refl Hrun) as [Hr Ha']. split; [by eapply calm_renewed|done].
  - injection Hrun as _ <-. split; [by apply calm_of_still|done].
Qed.

Lemma failing_commitBuffer w : failing still (commitBuffer (bucket := bucket) (B := B) w).
Proof.
  assert (∀ id, failing still (refresh (bucket := bucket) (B := B) (wf_node w) id)) as Hr.
  { intros id s e s' Ha. unfold refresh, mbind, M_bind. destruct (wf_node w) as [n|]; [|done]. rewrite attempt_run.
    by destruct (fu_GetInode id s).1. }
  unfold commitBuffer. apply failing_bind; [apply _|unfold wf_target; resp|]. intros t.
  apply failing_bind; [apply _|resp; apply tame_CreateFile|]. intros wh. cbv zeta.
  apply failing_bind; [apply _|resp|]. intros wh'.
  apply failing_bind; [apply _|unfold detachedFrom; resp; apply tame_onDB|]. intros [i|].
  - apply failing_bind; [apply _|apply respects_orErrno, still_commitDetached|]. intros _. apply Hr.
  - apply failing_bind; [apply _|apply respects_orErrno, still_commitHandle|]. intros id. apply Hr.
Qed.

(** A commit goes to the inode of the open file's node. *)
Lemma committed_id w s s1 s2 wh id n nd :
  fu_repo s1 = set_fired [] (fu_repo s) → (wh_dir wh, wh_name wh) = fu_targetOf s w →
  match fu_detachedOf s w with
  | Some i => commitDetachedHandle wh i s1 = (Ok tt, s2) ∧ id = i
  | None => commitHandle wh s1 = (Ok id, s2)
  end →
  wf_node w = Some n → fu_nodes s !! n = Some nd → fn_ino nd ≠ zero_inode → id = fn_ino nd.
Proof.
  intros Hr1 Ht Hc Hn Hnd Hz. unfold fu_detachedOf in Hc. rewrite Hn in Hc. cbn [option_bind mbind] in Hc. rewrite Hnd in Hc.
  cbn [option_bind mbind] in Hc. rewrite bool_decide_false in Hc by done. rewrite <- Ht in Hc. cbn [fst snd] in Hc.
  destruct (lookupTx _ _ _) as [i|e] eqn:El; [|by destruct Hc]. case_bool_decide as Ei; [|by destruct Hc]. subst i.
  apply (commitHandle_id wh s1 id s2); [done|]. unfold db_of. by rewrite Hr1.
Qed.

Lemma respects_commitIfDirty h : respects calm (commitIfDirty (bucket := bucket) (B := B) h).
Proof.
  intros s res s' Ha Hrun. destruct (fu_writes s !! h) as [w|] eqn:Hw.
  2: { unfold commitIfDirty, fu_writeAt, mbind, M_bind in Hrun. rewrite Hw in Hrun. injection Hrun as _ <-.
       split; [by apply calm_of_still|done]. }
  destruct (wf_dirty w) eqn:Hd.
  2: { unfold commitIfDirty, fu_writeAt, mbind, M_bind in Hrun. rewrite Hw, Hd in Hrun. injection Hrun as _ <-.
       split; [by apply calm_of_still|done]. }
  destruct res as [[]|e].
  2: { unfold commitIfDirty, fu_writeAt, mbind, M_bind in Hrun. rewrite Hw, Hd in Hrun. cbn [negb putWrite modify] in Hrun.
       apply failing_commitBuffer in Hrun as [Hs Ha']; [split; [by apply calm_of_still|done]|done]. }
  destruct (commitIfDirty_run h w s s' Hw Hd Hrun) as (s1 & s2 & wh & id & Hf1 & Hr1 & _ & _ & Ht & Hc & Href).
  assert (still s s1) as Hs1.
  { split; [split; [by destruct Hf1 as (_ & _ & _ & ? & _)|unfold leases_of; by rewrite Hr1]|].
    intros n. apply (frame_shown _ s1 n Hf1). }
  pose proof (alloc_frame _ s1 Hf1 Ha) as Ha1.
  assert (still s1 s2 ∧ alloc_ok s2) as [Hs2 Ha2].
  { destruct (fu_detachedOf s w) as [i|].
    - destruct Hc as [Hc _]. by apply (still_commitDetached wh i s1 _ _ Ha1 Hc).
    - by apply (still_commitHandle wh s1 _ _ Ha1 Hc). }
  apply (refresh_calm (wf_node w) id s s2 (Ok tt) s'); [by etrans|done| |done]. intros n nd Hn Hnd Hz.
  by apply (committed_id w s s1 s2 wh id n nd).
Qed.
(** *** Changing *)

Lemma kept_create_tail pin id nd name w mut :
  respects kept (B := B) (bucket := bucket)
    (res ← attempt (fu_GetInode id);
     match res with
     | Err _ => fu_release (Some pin) ≫= λ _, fu_throw EIO
     | Ok rec =>
         child ← fu_newNode (fresh_node id (fn_ino nd) name rec);
         fh ← newWrite (w child);
         onNode child (fn_set_active (Some fh)) ≫= λ _,
         mret (child, fh, fillAttrOut rec mut)
     end).
Proof.
  intros s res s' Ha [(e & _ & [=])|(r & s1 & E & Hrun)]%bind_cases.
  destruct (respects_attempt _ _ (respects_GetInode id) s _ _ Ha E) as [Hk Ha1]. apply attempt_inv in E. destruct r as [rec|e].
  - apply GetInode_Ok in E as [Hrec Hd]. apply bind_cases in Hrun as [(e & _ & [=])|(child & s2 & E & Hrun)].
    apply newNode_kept in E as [Hk2 Ha2]; [|done|intros _; cbn; by rewrite Hd].
    assert (respects kept (fh ← newWrite (B := B) (bucket := bucket) (w child);
      onNode child (fn_set_active (Some fh)) ≫= λ _, mret (child, fh, fillAttrOut rec mut))) as Hr by resp.
    destruct (Hr s2 _ _ Ha2 Hrun) as [Hk3 Ha3]. split; [etrans; [done|by etrans]|done].
  - assert (respects kept (fu_release (B := B) (bucket := bucket) (Some pin) ≫= λ _, fu_throw (A := nat * nat * Attr) EIO))
      as Hr by resp.
    destruct (Hr s1 _ _ Ha1 Hrun) as [Hk3 Ha3]. split; [by etrans|done].
Qed.

Lemma serves_Create n name mode owner : serves n (fu_Create (bucket := bucket) (B := B) n name mode owner).
Proof.
  apply serves_mutable. intros mut. destruct (negb mut).
  { apply serves_calm, calm_keeping; resp. }
  apply serves_after. intros rec. destruct (negb (IsDir rec)).
  { apply calm_keeping; resp. }
  apply calm_first; [resp|]. intros nd. apply calm_first; [resp; apply tame_CreateFile|]. intros h. cbv zeta.
  apply calm_first; [apply respects_orErrno, still_commitHandle|]. intros id. apply calm_first; [resp|]. intros pin.
  apply calm_keeping. apply kept_create_tail.
Qed.

(** A change of the store, then perhaps a new node. *)
Lemma calm_still {A} (m : M mount A) : respects still m → respects calm m.
Proof. apply respects_weaken, calm_of_still. Qed.

Lemma calm_adopt (m : M mount InodeID) nd name :
  respects still m → respects calm (m ≫= λ id, fu_adopt nd name id).
Proof.
  intros Hm. apply calm_first; [done|]. intros id. apply calm_keeping, respects_adopt.
Qed.

Lemma Link_calm n t name : respects calm (fu_Link (bucket := bucket) (B := B) n t name).
Proof.
  unfold fu_Link. destruct t as [t|]; [|apply calm_still; resp].
  apply calm_first; [resp|]. intros nd. intros s res s' Ha [(e & -> & E)|(tn & s1 & E & Hrun)]%bind_cases.
  { by apply (calm_still _ (respects_nodeAt still t) s _ _ Ha E). }
  unfold fu_nodeAt in E. destruct (fu_nodes s !! t) as [tn'|] eqn:Ht; [|done]. injection E as -> ->.
  apply bind_cases in Hrun as [(e & _ & [=])|(now & s2 & [= <- <-] & Hrun)].
  apply bind_cases in Hrun as [(e & -> & E)|(rec & s3 & E & Hrun)].
  { refine (calm_still _ _ s1 _ _ Ha E). resp. apply tame_Link. }
  apply orErrno_Ok_inv in E. destruct (respects_repo _ (tame_Link _ _ _ _) s1 _ _ Ha E) as [Hs3 Ha3].
  assert (getInodeTx (fn_ino tn) (db_of s3) = Ok rec) as Hrec.
  { apply onRepo_run in E as (r & E & _ & Hr). unfold repo_Link in E. apply bind_Ok in E as ([] & r1 & E1 & E).
    apply bind_Ok in E as (rec1 & r2 & E2%onDB_Ok & E). destruct E2 as (d & E2 & ->). apply Link_record in E2.
    unfold mbind, M_bind in E. rewrite bump_run, bumpDirEntries_run in E. injection E as <- <-.
    unfold db_of. rewrite Hr. exact E2. }
  apply bind_cases in Hrun as [(e & _ & [=])|([] & s4 & E4 & Hrun)].
  assert (s' = s4) as -> by by injection Hrun.
  destruct (renewed_setCached t rec s1 s3 _ s4 Hs3 Ha3 E4) as [Hren Ha4]; [|split; [by eapply calm_renewed|done]].
  intros nd3 H3 Hz. destruct (same_shown s1 s3 t nd3 (proj2 Hs3 t) H3) as (nd1 & E1 & [= Ei _]).
  rewrite Ht in E1. injection E1 as <-. by rewrite Ei.
Qed.

Lemma failing_truncate n rec sz : failing still (truncateFile (bucket := bucket) (B := B) n rec sz).
Proof.
  unfold truncateFile. apply failing_bind; [apply _|resp|]. intros data. cbv zeta.
  apply failing_bind; [apply _|resp|]. intros nd. apply failing_bind; [apply _|resp; apply tame_CreateFile|]. intros wh.
  apply failing_bind; [apply _|resp|]. intros wh'.
  apply failing_bind; [apply _|apply respects_orErrno, still_commitHandle|]. intros id.
  intros s e s' Ha. unfold mbind, M_bind. rewrite attempt_run. by destruct (fu_GetInode id s).1.
Qed.

Lemma setCached_same_but n rec s s1 res s' :
  still s s1 → alloc_ok s1 → setCached n rec s1 = (res, s') → same_but n s s' ∧ alloc_ok s'.
Proof.
  intros [Hs Hn] Ha [= _ <-]. cbn. split; [split_and!|].
  - done.
  - intros k. cbn. rewrite <- (shown_ino _ _ (Hn k)), lookup_alter. case_decide; [subst|done]. by destruct (fu_nodes s1 !! k).
  - intros k Hk. cbn. rewrite <- Hn. by rewrite lookup_alter_ne.
  - intros k Hk. cbn in *. rewrite lookup_alter. case_decide; [subst|by apply Ha]. by rewrite Ha.
Qed.

(** A truncation by name, of any file and of one that has the name. *)
Lemma truncate_run n rec sz nd s res s' :
  alloc_ok s → fu_nodes s !! n = Some nd → truncateFile n rec sz s = (res, s') →
  same_but n s s' ∧ alloc_ok s' ∧
  (lookupTx (fn_parent nd) (fn_name nd) (db_of s) = Ok (fn_ino nd) → still s s' ∨ renewed n s s').
Proof.
  intros Ha Hn Hrun. destruct res as [rec'|e].
  2: { apply failing_truncate in Hrun as [? ?]; [|done]. split_and!; [by apply still_same_but|done|by left]. }
  unfold truncateFile in Hrun. apply bind_Ok in Hrun as (data & s1 & E & Hrun).
  assert (s1 = s) as ->.
  { destruct (0 <? Size rec); [apply orEIO_Ok_inv in E; unfold readWhole in E; destruct (OpenFile rec _)|]; by injection E. }
  apply bind_Ok in Hrun as (nd1 & s1 & E1 & Hrun). unfold fu_nodeAt in E1. rewrite Hn in E1. injection E1 as <- <-.
  apply bind_Ok in Hrun as (wh & s1 & E1%orErrno_Ok_inv & Hrun).
  destruct (respects_repo _ (tame_CreateFile _ _) s _ _ Ha E1) as [Hs1 Ha1].
  apply onRepo_run in E1 as (r & E1 & _ & Hr). unfold CreateFile in E1. apply bind_Ok in E1 as ([] & r1 & E1 & E2).
  apply requireMutable_Ok in E1 as ->. injection E2 as <- <-.
  apply bind_Ok in Hrun as (wh & s2 & E2%orEIO_Ok_inv & Hrun). cbn in E2. injection E2 as <- <-.
  apply bind_Ok in Hrun as (id & s3 & E3%orErrno_Ok_inv & Hrun).
  destruct (still_commitHandle _ s1 _ _ Ha1 E3) as [Hs3 Ha3].
  apply bind_Ok in Hrun as (r & s4 & E4 & Hrun). pose proof E4 as E4'%attempt_inv.
  destruct (respects_repo _ (tame_onDB _) s3 _ _ Ha3 E4') as [Hs4 Ha4].
  assert (still s s3) as Hs by (by etrans). assert (still s s4) as Hs' by (by etrans).
  destruct r as [rec4|e].
  2: { injection Hrun as _ <-. split_and!; [by apply still_same_but|done|by left]. }
  apply bind_Ok in Hrun as ([] & s5 & E5 & Hrun). injection Hrun as _ <-.
  destruct (setCached_same_but n rec4 s s4 _ s5 Hs' Ha4 E5). split_and!; [done|done|]. intros Hl. right.
  apply (commitHandle_id _ s1 id s3 (fn_ino nd)) in E3 as ->; [|unfold db_of; by rewrite Hr].
  destruct (refetch n (fn_ino nd) s s3 (Ok rec4) s4) as (_ & _ & Hset); [done|done|intros nd' E' _; congruence|done|].
  by destruct (Hset rec4 _ _ eq_refl E5).
Qed.

Lemma repo_SetAttr_run i mut now (r r' : Repo bucket B nat unit) res :
  repo_SetAttr i mut now r = (res, r') →
  match res with Ok rec => getInodeTx i (r_DB r') = Ok rec | Err _ => r_DB r' = r_DB r end.
Proof.
  unfold repo_SetAttr, mbind, M_bind, requireMutable. destruct (Mutable _); [|by intros [= <- <-]]. unfold onDB, zoom.
  destruct (SetAttr i mut now (r_DB r)) as [[rec|e] d] eqn:E.
  - rewrite bump_run. intros [= <- <-]. by apply SetAttr_record in E.
  - intros [= <- <-]. unfold SetAttr in E. rewrite bolt_update_Err in E. by destruct E as [-> _].
Qed.

Lemma changeAttrs_run n x rec s res s' :
  alloc_ok s → changeAttrs n x rec s = (res, s') → (kept s s' ∨ renewed n s s') ∧ alloc_ok s'.
Proof.
  intros Ha. unfold changeAttrs. destruct (_ || _); [|intros [= _ <-]; split; [by left|done]].
  unfold mbind at 1, M_bind at 1, fu_mutable, gets. cbn.
  destruct (negb _); [intros [= _ <-]; split; [by left|done]|]. intros [(e & -> & E)|(nd & s1 & E & Hrun)]%bind_cases.
  { destruct (respects_nodeAt kept n s _ _ Ha E). split; [by left|done]. }
  unfold fu_nodeAt in E. destruct (fu_nodes s !! n) as [nd'|] eqn:Hn; [|done]. injection E as -> ->.
  apply bind_cases in Hrun as [(e & _ & [=])|(now & s2 & [= <- <-] & Hrun)].
  apply bind_cases in Hrun as [(e & -> & E)|(upd & s2 & E & Hrun)].
  - unfold fu_orErrno in E. destruct (onRepo _ s1) as [[a|e'] s2] eqn:Eo; [done|]. injection E as _ ->.
    destruct (respects_repo _ (tame_SetAttr _ _ _) s1 _ _ Ha Eo) as [Hs Ha']. split; [|done]. left.
    split; [by apply calm_of_still|]. apply onRepo_run in Eo as (r & Er%repo_SetAttr_run & _ & Hr). unfold db_of. by rewrite Hr.
  - apply orErrno_Ok_inv in E. destruct (respects_repo _ (tame_SetAttr _ _ _) s1 _ _ Ha E) as [Hs Ha2].
    apply onRepo_run in E as (r & Er%repo_SetAttr_run & _ & Hr).
    apply bind_cases in Hrun as [(e & _ & [=])|([] & s3 & E3 & Hrun)]. injection Hrun as _ <-.
    destruct (renewed_setCached n upd s1 s2 _ s3 Hs Ha2 E3) as [Hren Ha3]; [|split; [by right|done]].
    intros nd2 H2 Hz. destruct (same_shown s1 s2 n nd2 (proj2 Hs n) H2) as (nd1 & E1 & [= Ei _]).
    rewrite Hn in E1. injection E1 as <-. rewrite Ei. unfold db_of. by rewrite Hr.
Qed.

(** A truncation and a change of attributes, one after the other. *)
Lemma calm_both n s s1 s2 : still s s1 ∨ renewed n s s1 → kept s1 s2 ∨ renewed n s1 s2 → calm s s2.
Proof.
  intros Hfirst [Hk|Hr].
  - eapply calm_kept; [|done]. destruct Hfirst; [by apply calm_of_still|by eapply calm_renewed].
  - eapply (calm_renewed n). destruct Hr as [Hb Hu]. split; [|done]. etrans; [|done].
    destruct Hfirst as [|[]]; [by apply still_same_but|done].
Qed.

Lemma keeps_bound_currentRec db n b k : keeps (bound_in (bucket := bucket) (B := B) db n b) (currentRec k).
Proof.
  unfold currentRec. apply keeps_bind; [apply keeps_nodeAt|]. intros nd. apply keeps_bind; [apply keeps_gets|]. intros s0.
  destruct (r_Coherence (fu_repo s0)) as [m|]; [|apply keeps_ret]. destruct (_ && _); [apply keeps_ret|].
  apply keeps_bind.
  { apply keeps_orEIO. intros s [Hd Hb]. destruct (fu_GetInode _ s) as [r s1] eqn:E. apply onRepo_view in E as [_ [Hf Hr]].
    split; [cbn; unfold db_of in *; by rewrite Hr|]. destruct Hf as (_ & _ & _ & _ & Hn). specialize (Hn n). cbn.
    rewrite <- Hb. destruct (fu_nodes s1 !! n), (fu_nodes s !! n); try done. cbn in *. unfold fn_core in Hn. congruence. }
  intros rec. apply keeps_bind; [|intros _; apply keeps_bind; [by intros s Hs|intros _; apply keeps_ret]].
  intros s [Hd Hb]. split; [done|]. rewrite <- Hb. cbn. rewrite lookup_alter. case_decide; [subst|done].
  by destruct (fu_nodes s !! n).
Qed.

(** [Setattr], once the node has its record. *)
Lemma Setattr_calm n x rec mut s res s' :
  alloc_ok s →
  match in_size x with
  | None => rec ← changeAttrs n x rec; mret (fillAttrOut rec mut)
  | Some sz =>
      if negb mut then fu_throw EROFS
      else if MaxFileSize <? sz then fu_throw (errnoZ EFBIG)
      else if IsDir rec then fu_throw EISDIR
      else
        nd ← fu_nodeAt n;
        match fn_activeWrite nd with
        | Some h => w ← fu_writeAt h; putWrite h (wf_resize sz w) ≫= λ _, mret (set_at_Size sz (fillAttrOut rec mut))
        | None => rec ← truncateFile n rec sz; rec ← changeAttrs n x rec; mret (fillAttrOut rec mut)
        end
  end s = (res, s') → calm_but (strays n (GChange (FSetattr x)) s) s s' ∧ alloc_ok s'.
Proof.
  intros Ha.
  assert (∀ rec s1 res s', alloc_ok s1 → (rec ← changeAttrs n x rec; mret (fillAttrOut rec mut)) s1 = (res, s') →
    (kept s1 s' ∨ renewed n s1 s') ∧ alloc_ok s') as Hchange.
  { intros rec1 s1 res1 s1' Ha1 [(e & _ & E)|(a & s2 & E & [= _ <-])]%bind_cases; by apply changeAttrs_run in E. }
  assert (∀ s1 : mount, still s1 s1 ∨ renewed n s1 s1) as Hsame by by left.
  assert (∀ s1, still s s1 → calm_but (strays n (GChange (FSetattr x)) s) s s1) as Hstill
    by (intros s1 Hs; by apply calm_but_calm, calm_of_still).
  destruct (in_size x) as [sz|] eqn:Hx.
  2: { intros E. apply Hchange in E as [Hc Ha']; [|done]. split; [by eapply calm_but_calm, calm_both|done]. }
  destruct (negb mut); [intros [= _ <-]; split; [by apply Hstill|done]|].
  destruct (MaxFileSize <? sz); [intros [= _ <-]; split; [by apply Hstill|done]|].
  destruct (IsDir rec); [intros [= _ <-]; split; [by apply Hstill|done]|].
  intros [(e & -> & E)|(nd & s1 & E & Hrun)]%bind_cases.
  { destruct (respects_nodeAt still n s _ _ Ha E). split; [by apply Hstill|done]. }
  unfold fu_nodeAt in E. destruct (fu_nodes s !! n) as [nd'|] eqn:Hn; [|done]. injection E as -> ->.
  destruct (fn_activeWrite nd) as [h|] eqn:Hact.
  - assert (calm s1 s' ∧ alloc_ok s') as [Hc Ha']; [|split; [by apply calm_but_calm|done]].
    revert Hrun. apply calm_keeping; [resp|done].
  - assert (∃ r1 s2, truncateFile n rec sz s1 = (r1, s2) ∧
      (alloc_ok s2 → (kept s2 s' ∨ renewed n s2 s') ∧ alloc_ok s')) as (r1 & s2 & E & Hlast).
    { apply bind_cases in Hrun as [(e & -> & E)|(rec1 & s2 & E & Hrun)]; eexists _, _; (split; [exact E|]); intros Ha2.
      - split; [by left|done].
      - by apply Hchange in Hrun. }
    destruct (truncate_run n rec sz nd s1 _ _ Ha Hn E) as (Hsame1 & Ha2 & Hown).
    destruct (Hlast Ha2) as [Hc Ha']. split; [|done].
    unfold strays. rewrite Hn, Hx, Hact, (bool_decide_true (is_Some _)), (bool_decide_true (_ = None)) by done. cbn [andb].
    destruct (lookupTx (fn_parent nd) (fn_name nd) (db_of s1)) as [i|e]; [|by eapply calm_but_same].
    case_bool_decide as Ei; [subst i|by eapply calm_but_same]. apply calm_but_calm, (calm_both n s1 s2 s'); auto.
Qed.

(** Taking the lease first changes nothing of this. *)
Lemma strays_bound n g s s1 :
  bound_in (db_of s) n ((λ nd, (fn_ino nd, fn_parent nd, fn_name nd, fn_activeWrite nd)) <$> (fu_nodes s !! n)) s1 →
  strays n g s1 = strays n g s.
Proof.
  intros [Hd Hb]. unfold strays. rewrite Hd. destruct g as [| | | | |[]]; try done.
  destruct (fu_nodes s1 !! n) as [nd1|], (fu_nodes s !! n) as [nd|]; try done. cbn in Hb. by injection Hb as -> -> -> ->.
Qed.

Lemma Setattr_serves n x s res s' :
  is_Some (leases_of s) → alloc_ok s → fu_Setattr n x s = (res, s') →
  served_but (strays n (GChange (FSetattr x)) s) n s s' ∧ alloc_ok s'.
Proof.
  intros Hl Ha. unfold fu_Setattr. intros [(e & -> & E)|(rec & s1 & E & Hrun)]%bind_cases;
    destruct (currentRec_run n s _ _ Hl Ha E) as [[Hg Ha1] _].
  { split; [|done]. exists s'. split_and!; [done..|]. by apply calm_but_calm, calm_of_still. }
  apply bind_cases in Hrun as [(e & _ & [=])|(mut & s2 & [= <- <-] & Hrun)].
  apply Setattr_calm in Hrun as [Hc Ha2]; [|done]. split; [|done]. exists s1. split_and!; [done..|].
  pose proof (keeps_bound_currentRec (db_of s) n _ n s (conj eq_refl eq_refl)) as Hb. rewrite E in Hb. cbn [snd] in Hb.
  by rewrite <- (strays_bound n _ s s1).
Qed.

Lemma served_served_but Y n s s' : served n s s' → served_but Y n s s'.
Proof. intros (s1 & Hg & Ha & Hc). exists s1. split_and!; [done..|]. by apply calm_but_calm. Qed.

Lemma serves_gop n g s res s' :
  is_Some (leases_of s) → alloc_ok s → run_gop n g s = (res, s') → served_but (strays n g s) n s s' ∧ alloc_ok s'.
Proof.
  intros Hl Ha Hrun. assert ((∃ x, g = GChange (FSetattr x)) ∨ served n s s' ∧ alloc_ok s') as [[x ->]|[Hs ?]].
  2: { apply bind_cases in Hrun as [(e & _ & E)|(a & s1 & E & [= _ <-])]; by apply Setattr_serves in E. }
  2: { split; [by apply served_served_but|done]. }
  destruct g as [| |name| |flags|o]; cbn [run_gop] in Hrun.
  - right. by apply (serves_done n _ (serves_Getattr n) s res).
  - right. by apply (serves_done n _ (serves_Readlink n) s res).
  - right. by apply (serves_done n _ (serves_Lookup n name) s res).
  - right. by apply (serves_done n _ (serves_Readdir n) s res).
  - right. by apply (serves_done n _ (serves_Open n flags) s res).
  - destruct o as [name mode owner|name|name mode owner|name|name child np nn flags|name mode rdev owner|t name|t name owner|x|flags];
      cbn [run_fop] in Hrun.
    + right. by apply (serves_done n _ (serves_Create n name mode owner) s res).
    + right. refine (serves_calm n _ _ s res s' Hl Ha Hrun). apply calm_still. unfold fu_Unlink. resp. apply tame_Unlink.
    + right. refine (serves_done n _ (serves_calm n _ _) s res s' Hl Ha Hrun). do 2 (apply calm_first; [resp|intros ?]).
      apply calm_adopt. resp. apply tame_Mkdir.
    + right. refine (serves_calm n _ _ s res s' Hl Ha Hrun). apply calm_still. unfold fu_Rmdir. resp. apply tame_Rmdir.
    + right. refine (serves_calm n _ _ s res s' Hl Ha Hrun). apply calm_still. unfold fu_Rename. resp; [apply tame_Rename|].
      by apply still_onNode.
    + right. refine (serves_done n _ (serves_calm n _ _) s res s' Hl Ha Hrun). unfold fu_Mknod. cbv zeta.
      destruct (negb _); [apply calm_still; resp|]. do 2 (apply calm_first; [resp|intros ?]).
      apply calm_adopt. resp. apply tame_Mknod.
    + right. by apply (serves_done n _ (serves_calm n _ (Link_calm n t name)) s res).
    + right. refine (serves_done n _ (serves_calm n _ _) s res s' Hl Ha Hrun). do 2 (apply calm_first; [resp|intros ?]).
      apply calm_adopt. resp. apply tame_Symlink.
    + left. by exists x.
    + right. by apply (serves_done n _ (serves_Open n (Z.lor O_WRONLY flags)) s res).
Qed.

Lemma calm_hop h o : respects calm (run_hop (bucket := bucket) (B := B) h o).
Proof.
  destruct o as [data off|k off|off size mode| | | |k off|]; cbn [run_hop].
  - apply calm_keeping. unfold fu_Write. resp.
  - apply calm_keeping. unfold fu_ReadBuf. resp.
  - apply calm_keeping. unfold fu_Allocate. resp.
  - apply respects_commitIfDirty.
  - apply respects_commitIfDirty.
  - unfold fu_Release. apply calm_last; [apply respects_attempt, respects_commitIfDirty|]. intros res. resp.
    unfold fu_clearActive. apply respects_onNode. intros nd. by case_bool_decide.
  - apply calm_keeping. unfold fu_Read. resp. by apply kept_aside.
  - apply calm_keeping. unfold fu_ReadRelease. resp.
Qed.
End operations.

(** ** Bounded staleness *)

Section stale.
Context {bucket : Type → Type} `{BoltLaws bucket} {B : Type} `{BackendOps B} {blake3 : Blake3}.
Abbreviation mount := (FuMount bucket B).
Implicit Types s : mount.

Lemma key_inj i j : InodeCoherenceKey i = InodeCoherenceKey j → i = j.
Proof. intros E%(inj (app (str "inode:"))). by apply decimal_inj. Qed.

Lemma recent_start root s : mount_start root s → recent [(fu_now s, db_of s)] {[root]} ∅ s.
Proof.
  intros (m & rec & Hm & Hl & Hrec & Hn & Hx).
  assert (∀ obj, inner (∅ : gmap bytes (gmap bytes leaseEntry)) obj !! coherenceHolder = None) as He.
  { intros obj. unfold inner. by rewrite !lookup_empty. }
  assert (leases_of s = Some (m_d m, ∅)) as Hls by (unfold leases_of; rewrite Hm; cbn; by rewrite Hl).
  split.
  - apply list_elem_of_here.
  - intros n Hle. rewrite Hn, lookup_singleton_ne by lia. done.
  - intros n ->%elem_of_singleton. rewrite Hn, lookup_singleton_eq. by eexists.
  - intros n n' nd nd' ->%elem_of_singleton ->%elem_of_singleton. done.
  - rewrite Hls. by eexists.
  - intros d ls obj l. rewrite Hls. intros [= <- <-]. by rewrite He.
  - intros n nd ->%elem_of_singleton _. rewrite Hn, lookup_singleton_eq. intros [= <-] _. eexists _, _.
    split_and!; [apply list_elem_of_here|done|done|]. intros d ls l. rewrite Hls. intros [= <- <-]. by rewrite He.
Qed.

(** An operation after which go-fuse knows [L']. *)
Lemma recent_calm_but hist L X Y s L' s' :
  recent hist L X s → calm_but Y s s' → alloc_ok s' → known_after L s L' s' →
  recent ((fu_now s', db_of s') :: hist) L' (X ∪ Y) s'.
Proof.
  intros [R1 R2 R3 R4 R5 R6 R7] ([Et El] & C1 & C2) Ha [K1 K2]. split; rewrite ?Et, ?El; try done.
  - apply list_elem_of_here.
  - intros n Hn. by apply K1.
  - intros n nd' Hn [HX HY]%not_elem_of_union Hnd' Hz. destruct (C2 n nd' HY Hnd') as [(nd & Hnd & [= Ei Er])|Hu].
    + destruct (K1 n Hn) as [[HnL|Hno] _]; [|congruence]. rewrite Ei in Hz |- *. rewrite Er.
      destruct (R7 n nd HnL HX Hnd Hz) as (t & db & Hin & Hrest). exists t, db. split; [by apply list_elem_of_further|done].
    + exists (fu_now s), (db_of s'). split_and!; [apply list_elem_of_here|lia|by apply Hu|]. eauto.
Qed.

Lemma recent_calm hist L X s L' s' :
  recent hist L X s → calm s s' → alloc_ok s' → known_after L s L' s' → recent ((fu_now s', db_of s') :: hist) L' X s'.
Proof.
  intros Hr Hc Ha HK. rewrite <- (right_id_L ∅ (∪) X). eapply recent_calm_but; [done|by apply calm_but_calm|done..].
Qed.

Lemma recent_unmoved hist L X s s' : recent hist L X s → unmoved s s' → alloc_ok s' → recent hist L X s'.
Proof.
  intros [R1 R2 R3 R4 R5 R6 R7] [[[Et El] Hsh] Ed] Ha. split; rewrite ?Et, ?El, ?Ed; try done.
  - intros n Hn. destruct (R3 n Hn) as [x Hx]. destruct (same_ino s s' n x (shown_ino _ _ (Hsh n)) Hx) as (y & -> & _).
    by eexists.
  - intros n n' x x' Hn Hn' E E' Hi. destruct (same_shown s s' n x (Hsh n) E) as (y & Hy & [= Ei _]).
    destruct (same_shown s s' n' x' (Hsh n') E') as (y' & Hy' & [= Ei' _]). apply (R4 n n' y y'); congruence.
  - intros n x Hn HX Hx Hz. destruct (same_shown s s' n x (Hsh n) Hx) as (y & Hy & [= Ei Er]). rewrite Ei in Hz |- *. rewrite Er.
    eauto.
Qed.

Lemma recent_fetched hist L X n s s' :
  recent hist L X s → n ∈ L → fetched n s s' → alloc_ok s' → recent hist L X s'.
Proof.
  intros [R1 R2 R3 R4 R5 R6 R7] HnL (Et & Ed & F1 & F2 & nd & d & ls & ls' & Hn & Hu & El & El' & Hls) Ha.
  split; rewrite ?Et, ?Ed; try done.
  - intros k Hk. destruct (R3 k Hk) as [x Hx]. destruct (same_ino s s' k x (F1 k) Hx) as (y & -> & _). by eexists.
  - intros k k' x x' Hk Hk' E E' Hi. pose proof (F1 k) as G. pose proof (F1 k') as G'. rewrite E in G. rewrite E' in G'.
    destruct (fu_nodes s !! k) as [y|] eqn:Ey, (fu_nodes s !! k') as [y'|] eqn:Ey'; try done. cbn in G, G'.
    apply (R4 k k' y y'); congruence.
  - intros d0 ls0 obj l. rewrite El'. intros [= <- <-] Hl. destruct (Hls obj l Hl) as [Ho|[_ ->]]; [eauto|lia].
  - intros k x Hk HX Hx Hz. destruct (decide (k = n)) as [-> |Hne].
    + assert (x = nd) as -> by congruence. exists (fu_now s), (db_of s). split_and!; [done|lia|rewrite <- Ed; by apply Hu|].
      intros d0 ls0 l. rewrite El'. intros [= <- <-] Hl. destruct (Hls _ l Hl) as [Ho|[_ ->]]; [eauto|lia].
    + destruct (same_shown s s' k x (F2 k Hne) Hx) as (y & Hy & [= Ei Er]). rewrite Ei in Hz |- *. rewrite Er.
      destruct (R7 k y Hk HX Hy Hz) as (t & db & Hin & Ht & Hrec & Hb). exists t, db. split_and!; [done..|].
      intros d0 ls0 l. rewrite El'. intros [= <- <-] Hl. destruct (Hls _ l Hl) as [Ho|[Ek _]]; [eauto|].
      destruct Hne. destruct (R3 n HnL) as [z Hz']. apply (R4 k n y z); [done..|]. apply key_inj in Ek. rewrite Ek.
      destruct (same_ino s s' n z (F1 n) Hz') as (nd2 & E2 & E3). congruence.
Qed.

Lemma recent_served hist L X Y n s L' s' :
  recent hist L X s → n ∈ L → served_but Y n s s' → alloc_ok s' → known_after L s L' s' →
  recent ((fu_now s', db_of s') :: hist) L' (X ∪ Y) s'.
Proof.
  intros Hr Hn (s1 & Hg & Ha1 & Hc) Ha' [K1 K2].
  assert (∀ k, fn_ino <$> (fu_nodes s1 !! k) = fn_ino <$> (fu_nodes s !! k)) as Hino.
  { destruct Hg as [[[_ Hsh] _]|(_ & _ & Hi & _)]; [intros k; apply shown_ino, Hsh|done]. }
  apply (recent_calm_but hist L X Y s1); [|done..|].
  - destruct Hg; [by eapply recent_unmoved|by eapply recent_fetched].
  - split; [|done]. intros k Hk. destruct (K1 k Hk) as [[HkL|Hno] Hs]; (split; [|done]); [by left|right].
    specialize (Hino k). rewrite Hno in Hino. by destruct (fu_nodes s1 !! k).
Qed.

(** Time goes on. *)
Lemma recent_tick hist L X s t : recent hist L X s → fu_now s <= t → recent ((t, db_of s) :: hist) L X (fu_set_now t s).
Proof.
  intros [R1 R2 R3 R4 R5 R6 R7] Ht. split; try done.
  - apply list_elem_of_here.
  - intros d ls obj l E El. cbn. specialize (R6 d ls obj l E El). lia.
  - intros n nd Hn HX Hnd Hz. destruct (R7 n nd Hn HX Hnd Hz) as (t0 & db & Hin & Hle & Hrec & Hb). exists t0, db.
    split_and!; [by apply list_elem_of_further|cbn; lia|done..].
Qed.

(** Others change the store. *)
Lemma recent_other hist L X s r :
  recent hist L X s → leases_left s (fu_set_repo r s) → recent ((fu_now s, r_DB r) :: hist) L X (fu_set_repo r s).
Proof.
  intros [R1 R2 R3 R4 R5 R6 R7] (d & ls & ls' & El & El' & Hls). split; try done.
  - apply list_elem_of_here.
  - intros d0 ls0 obj l. rewrite El'. intros [= <- <-] Hl. eauto.
  - intros n nd Hn HX Hnd Hz. destruct (R7 n nd Hn HX Hnd Hz) as (t & db & Hin & Hle & Hrec & Hb). exists t, db.
    split_and!; [by apply list_elem_of_further|done..|]. intros d0 ls0 l. rewrite El'. intros [= <- <-] Hl. eauto.
Qed.

Lemma serving_recent hist L X s : serving hist L X s → recent hist L X s.
Proof.
  induction 1 as [root s Hs|hist L X s t _ IH Ht|hist L X s r _ IH Hl|hist L X s n g res s' L' _ IH Hn Hrun HK
                 |hist L X s h o res s' L' _ IH Hrun HK].
  - by apply recent_start.
  - by apply recent_tick.
  - by apply recent_other.
  - destruct (serves_gop n g s res s' (rc_leased _ _ _ _ IH) (rc_alloc _ _ _ _ IH) Hrun). by eapply recent_served.
  - destruct (calm_hop h o s res s' (rc_alloc _ _ _ _ IH) Hrun). by eapply recent_calm.
Qed.

(** C14: attributes are at most a lease old.  However operations on the mount,
    the passing of time and changes of the store by others interleave, the
    record a node serves is one the store had for its inode at some time
    no further back than the duration of the repository's leases: also when
    a node was forgotten and found again under a lease of the node before,
    or missed an invalidation.  It is so for every node that go-fuse knows
    but those ([X]) that were once truncated, without an open file, when the
    name they were found by no longer led to their inode: such a truncation
    goes to another file and the node shows that file's record.  Others may
    revoke the mount's leases, not grant it any. *)
Theorem served_record_is_recent hist L X s n nd rec s' m :
  serving hist L X s → n ∈ L → n ∉ X → fu_nodes s !! n = Some nd → fn_ino nd ≠ zero_inode →
  r_Coherence (fu_repo s) = Some m → currentRec n s = (Ok rec, s') →
  ∃ t db, (t, db) ∈ hist ∧ fu_now s - Z.max 0 (m_d m) <= t <= fu_now s ∧ getInodeTx (fn_ino nd) db = Ok rec.
Proof.
  intros Hs%serving_recent Hn HX Hnd Hz Hm Hrun. destruct Hs as [R1 R2 R3 R4 R5 R6 R7].
  destruct (currentRec_run n s _ _ R5 R2 Hrun) as [_ Hc].
  assert (leases_of s = Some (m_d m, m_leases m)) as Hls by (unfold leases_of; by rewrite Hm).
  destruct (Hc nd rec Hnd eq_refl) as [(-> & d & ls & l & El & Hl & Hle)|Hr].
  - rewrite Hls in El. injection El as <- <-. destruct (R7 n nd Hn HX Hnd Hz) as (t & db & Hin & Ht & Hrec & Hb).
    exists t, db. specialize (Hb _ _ l Hls Hl). split_and!; [done|lia|lia|done].
  - exists (fu_now s), (db_of s). split_and!; [done|lia|lia|done].
Qed.
End stale.
