(* ===== verification/FuseDemo.v ===== *)
(** A mount over a repository to run the theorems on.

    The repository of RepoDemo, with its files "a" and "b", is opened again
    and mounted: "b" is opened for reading and unlinked while open; a file
    "c" is created, written and flushed, once with room and once over the
    quota. *)
From S2P Require Import Prelude Bolt Chunk Manifest Store Pack MetaDB MetaSpec MetaRefine MetaTree.
From S2P Require Import MetaInv MetaThm Coherence RepoUtil Repo RepoRead RepoStore RepoThm RepoCoh RepoReach GC GCThm RepoDemo.
From S2P Require Import MdsServer MdsFuse FuseServer FuseServerThm FuseOpen FuseStale.

Local Existing Instance pad_hash.

Abbreviation fu_demo := (FuMount MapBolt.mapb MemBackend.mem).

(** The addresses of the first nodes. *)
Definition froot : nat := 0.

Definition fopen (db : DB MapBolt.mapb) (class : bytes) : Repo MapBolt.mapb MemBackend.mem nat unit :=
  mkRepo db (r_Backend demo_ab) (str "local") class
    (if 0 <? leaseDuration class then Some (Manager_New (leaseDuration class)) else None)
    4 (NewPacker (str "local") DefaultSealSize) SingleObjectThreshold NewOpenHandles demo_rand (r_drawn demo_ab) [].

(** The reopened repository, mounted: the root has its node. *)
Definition froot_rec : InodeRecord := demo_inode RootInode demo_ab.
Definition fmount (class : bytes) : fu_demo :=
  mkFuMount (fopen (r_DB demo_ab) class) {[froot := mkFuNode RootInode zero_inode [] froot_rec false None]} ∅ ∅ 1 7.
Definition fboot : fu_demo := fmount ClassRelaxed.
Definition fboot_ro : fu_demo := fmount ClassImmutable.

(** [open("b")], and [unlink("b")]. *)
Definition flooked : result (nat * Attr) * fu_demo := fu_Lookup froot (str "b") fboot.
Definition fnode_b : nat := 1.
Definition fopened : result (nat + nat) * fu_demo := fu_Open fnode_b 0 flooked.2.
Definition fread_b : nat := 2.
Definition fgone : result unit * fu_demo := fu_Unlink froot (str "b") fopened.2.
Definition fswept : result Z * Repo MapBolt.mapb MemBackend.mem nat unit :=
  Sweep 1 (2 * Hour) (100 * Hour) (fu_repo fgone.2).

(** [creat("c")], and three bytes written. *)
Definition fcreated : result (nat * nat * Attr) * fu_demo := fu_Create froot (str "c") 420 (mkOwner 1000 1000) fboot.
Definition fnode_c : nat := 1.
Definition fwrite_c : nat := 2.
Definition fwritten : fu_demo := (fu_Write fwrite_c content_a 0 fcreated.2).2.
Definition fflush : result unit * fu_demo := fu_Flush fwrite_c fwritten.
(** The quota leaves no room for it. *)
Definition fpoor : fu_demo := (onRepo (SetQuota 10 0) fwritten).2.
Definition ffail : result unit * fu_demo := fu_Flush fwrite_c fpoor.
Definition fwrite (s : fu_demo) : writeFileHandle :=
  default (mkWriteFile zero_inode [] 0 false None None [] false) (fu_writes s !! fwrite_c).

(** The root's attributes are asked for, and then "b" is unlinked by someone
    who does not tell the mount. *)
Definition fasked : result unit * fu_demo := run_gop froot GGetattr fboot.
Definition fbehind : fu_demo := fu_set_repo (set_DB (r_DB demo_gone) (fu_repo fasked.2)) fasked.2.
Definition fserved : result InodeRecord * fu_demo := currentRec froot fbehind.


Definition storable_ok (l : list bytes) (content : bytes) : bool :=
  bool_decide (Forall (.∈ l) (pieces_of 4 content)) && bool_decide (EncodeBytes (manifest_of 4 content) ∈ l)
  && (blen content <? 2 ^ 63) && (Z.of_nat (length (pieces_of 4 content)) <? 2 ^ 32).

(** A reader of one inline chunk that has read nothing yet. *)
Definition reader_check (d : bytes) (fr : FileReader) : bool :=
  (fr_size fr =? blen d) && (fr_size fr <? 2 ^ 63) && fr_hasInline fr && bool_decide (fr_inline fr = Sum d)
  && bool_decide (fr_cache fr = ∅).
Definition inline_check (d : bytes) (rec : InodeRecord) : bool :=
  (Size rec =? blen d) && (Size rec <? 2 ^ 63) && HasInline rec && bool_decide (InlineChunk rec = Sum d)
  && negb (IsDir rec).

Definition fdead : InodeRecord :=
  match getInodeTx id_b (r_DB (fu_repo fgone.2)) with Ok rec => rec | Err _ => demo_rec end.
Definition fhandle : fileHandle :=
  default (mkFileHandle (mkFileReader 0 false (Sum []) None [] ∅ []) None) (fu_reads fgone.2 !! fread_b).

(** "c" is closed, linked as "d" and unlinked; then the file is truncated. *)
Definition flinked : fu_demo :=
  (fu_Unlink froot (str "c") (fu_Link froot (Some fnode_c) (str "d") (fu_Release fwrite_c fflush.2).2).2).2.
Definition ftruncated : result Attr * fu_demo :=
  fu_Setattr fnode_c (mkSetAttrIn None None None None None (Some 1)) flinked.
Definition size_of (name : bytes) (s : fu_demo) : option Z :=
  match lookupTx RootInode name (db_of s) with
  | Ok i => match getInodeTx i (db_of s) with Ok rec => Some (Size rec) | Err _ => None end
  | Err _ => None
  end.

(** * Soundness of the checks *)

Lemma reader_check_sound (d : bytes) (fr : FileReader) : reader_check d fr = true → reader_ok [d] fr.
Proof.
  unfold reader_check. rewrite !andb_true_iff, Z.eqb_eq, Z.ltb_lt, !bool_decide_eq_true.
  intros ((((Hs & Hm) & Hi) & Hd) & Hc). split; [cbn; by rewrite app_nil_r|done| |].
  - rewrite Hi. by exists d.
  - intros x b _. rewrite Hc. by rewrite lookup_empty.
Qed.

Lemma inline_check_sound (d : bytes) (rec : InodeRecord) (r : Repo MapBolt.mapb MemBackend.mem nat unit) :
  inline_check d rec = true → chunk_check r d = true → readable r rec [d] ∧ IsDir rec = false.
Proof.
  unfold inline_check. rewrite !andb_true_iff, negb_true_iff, Z.eqb_eq, Z.ltb_lt, bool_decide_eq_true.
  intros ((((Hs & Hm) & Hi) & Hd) & Hf) Hc%chunk_check_sound. split; [|done]. split_and!; [cbn; by rewrite app_nil_r|done|by constructor|].
  rewrite Hi. by exists d.
Qed.

Lemma pins_none o : bool_decide (oh_given o = []) && bool_decide (oh_n o = ∅) = true → pins_exact o.
Proof.
  rewrite andb_true_iff, !bool_decide_eq_true. intros [Hg Hn] i. unfold still_open. rewrite Hg, Hn, lookup_empty. done.
Qed.

Lemma pins_one o p j : bool_decide (oh_given o = [(j, false)]) && bool_decide (oh_n o = {[j := 1]}) && bool_decide (p = 0%nat) = true →
  pins_exact o ∧ pinned o p j.
Proof.
  rewrite !andb_true_iff, !bool_decide_eq_true. intros [[Hg Hn] ->]. split; [|by unfold pinned; rewrite Hg].
  intros i. unfold still_open. rewrite Hg, Hn. unfold sum_of, open_on. cbn. destruct (decide (j = i)) as [-> |Hne].
  - rewrite lookup_singleton_eq, bool_decide_true by done. done.
  - rewrite lookup_singleton_ne, bool_decide_false by done. done.
Qed.

Lemma storable_ok_sound (content : bytes) (r : Repo MapBolt.mapb MemBackend.mem nat unit) :
  storable_ok demo_strings content = true → r_ChunkSize r = 4 → storable demo_K r content.
Proof.
  unfold storable_ok. rewrite !andb_true_iff, !bool_decide_eq_true, !Z.ltb_lt. intros (((Hp & Hm) & Hl) & Hn) Hc.
  split; rewrite ?Hc; done.
Qed.

Lemma node_at (s : fu_demo) n (P : fuNode → bool) :
  match fu_nodes s !! n with Some nd => P nd | None => false end = true →
  ∃ nd, fu_nodes s !! n = Some nd ∧ P nd = true.
Proof. destruct (fu_nodes s !! n) as [nd|]; [|done]. by exists nd. Qed.

Lemma fwrite_at (s : fu_demo) : bool_decide (is_Some (fu_writes s !! fwrite_c)) = true → fu_writes s !! fwrite_c = Some (fwrite s).
Proof. intros [w E]%bool_decide_eq_true. unfold fwrite. by rewrite E. Qed.

(** * Witnesses *)

Lemma immutable_mount_refuses_witness :
  run_fop froot (FMkdir (str "d") 493 (mkOwner 1000 1000)) fboot_ro = (Err (SysErrno EROFS), fboot_ro).
Proof.
  destruct (node_at fboot_ro froot (λ _, true)) as (nd & Hn & _); [vm_cast_no_check (eq_refl true)|].
  apply (immutable_mount_refuses froot nd); [| | |exact Hn|exact I].
  - vm_cast_no_check (eq_refl false).
  - by vm_compute.
  - by vm_compute.
Defined.

Lemma fuse_flush_then_read_witness :
  is_ok fflush.1 = true ∧ ∃ id rec, reads_as (fu_repo fflush.2) id rec content_a.
Proof.
  assert (is_ok fflush.1 = true) as Hok by (vm_cast_no_check (eq_refl true)). split; [exact Hok|].
  assert (fflush = (Ok tt, fflush.2)) as Hrun by (revert Hok; by destruct fflush as [[[]|e] s]).
  assert (bool_decide (wf_buf (fwrite fwritten) = content_a) = true) as Hb by (vm_cast_no_check (eq_refl true)).
  apply bool_decide_eq_true in Hb.
  assert (repo_inv demo_K 6 (fu_repo fwritten)) as Hi.
  { apply (repo_check_sound demo_strings 6). vm_cast_no_check (eq_refl true). }
  assert ((r_drawn (fu_repo fflush.2) <=? 6)%nat = true) as HN by (vm_cast_no_check (eq_refl true)).
  assert (storable demo_K (fu_repo fwritten) (wf_buf (fwrite fwritten))) as Hst.
  { rewrite Hb. apply storable_ok_sound; [vm_cast_no_check (eq_refl true)|vm_cast_no_check (eq_refl 4)]. }
  destruct (fuse_flush_then_read demo_K 6 fwrite_c (fwrite fwritten) fwritten fflush.2 demo_universe Hi)
    as (_ & _ & (id & rec & Hr & _) & _).
  - apply fwrite_at. vm_cast_no_check (eq_refl true).
  - vm_cast_no_check (eq_refl true).
  - exact Hst.
  - exact Hrun.
  - by apply Nat.leb_le.
  - rewrite Hb in Hr. exists id, rec. exact Hr.
Defined.

Lemma failed_flush_forgets_witness :
  ffail.1 = Err (SysErrno EDQUOT) ∧ fu_Flush fwrite_c ffail.2 = (Ok tt, ffail.2).
Proof.
  assert (ffail.1 = Err (SysErrno EDQUOT)) as He by (by vm_compute). split; [exact He|].
  refine (proj1 (failed_flush_forgets fwrite_c (fwrite fpoor) fpoor (SysErrno EDQUOT) ffail.2 _ _ _)).
  - apply fwrite_at. vm_cast_no_check (eq_refl true).
  - vm_cast_no_check (eq_refl true).
  - rewrite <- He. apply surjective_pairing.
Defined.

Lemma open_files_pinned_witness : ∃ h p, fopened.1 = Ok h ∧ pin_of fopened.2 h = Some p ∧ pinned (pins fopened.2) p id_b.
Proof.
  destruct (node_at flooked.2 fnode_b (λ nd, bool_decide (fn_ino nd = id_b))) as (nd & Hn & Hi);
    [vm_cast_no_check (eq_refl true)|]. apply bool_decide_eq_true in Hi.
  destruct open_files_pinned as [Ho _].
  assert (pins_exact (pins flooked.2)) as Hp by (apply pins_none; vm_cast_no_check (eq_refl true)).
  specialize (Ho fnode_b nd 0 flooked.2 fopened.1 fopened.2 Hp Hn (surjective_pairing _)).
  assert (is_ok fopened.1 = true) as Hok by (vm_cast_no_check (eq_refl true)).
  destruct fopened.1 as [h|e]; [|discriminate Hok]. destruct Ho as (_ & p & H1 & H2). rewrite Hi in H2.
  exists h, p. split; [reflexivity|]. split; [exact H1|exact H2].
Defined.

(** Looking up and opening for reading leave the store alone. *)
Lemma keeps_db_view {A} d (g : DB MapBolt.mapb → result A) :
  keeps (λ s : fu_demo, db_of s = d) (onRepo (onDB (View g))).
Proof.
  intros s Hs. destruct (onRepo (onDB (View g)) s) as [res s'] eqn:E. apply onRepo_view in E as [_ [_ Hr]].
  cbn. unfold db_of in *. by rewrite Hr.
Qed.

Lemma keeps_db_currentRec d n : keeps (λ s : fu_demo, db_of s = d) (currentRec n).
Proof. intros s Hs. by destruct (keeps_bound_currentRec d n _ n s (conj Hs eq_refl)). Qed.

Lemma keeps_db_Lookup d n name : keeps (λ s : fu_demo, db_of s = d) (fu_Lookup n name).
Proof.
  apply keeps_bind; [apply keeps_db_currentRec|]. intros rec. destruct (negb (IsDir rec)); [apply keeps_throw|].
  destruct (_ <? _); [apply keeps_throw|]. apply keeps_bind; [apply keeps_nodeAt|]. intros nd. cbv zeta.
  apply keeps_bind; [apply keeps_gets|]. intros [|]; [apply keeps_throw|].
  apply keeps_bind; [apply keeps_attempt, keeps_db_view|]. intros [i|e].
  - apply keeps_bind; [apply keeps_orEIO, keeps_db_view|]. intros rec'. apply keeps_bind; [apply keeps_gets|]. intros b.
    apply keeps_bind; [by intros s|]. intros c. apply keeps_ret.
  - apply keeps_bind; [by intros s|]. intros _. apply keeps_throw.
Qed.

Lemma keeps_db_Open d n : keeps (λ s : fu_demo, db_of s = d) (fu_Open n 0).
Proof.
  apply keeps_bind; [apply keeps_db_currentRec|]. intros rec. destruct (IsDir rec); [apply keeps_throw|].
  destruct (IsSymlink rec); [apply keeps_throw|]. cbn [Z.land Z.eqb negb].
  apply keeps_bind; [|intros h; apply keeps_ret]. apply keeps_bind; [apply keeps_nodeAt|]. intros nd.
  apply keeps_bind; [by apply keeps_orEIO; intros s|]. intros fr. apply keeps_bind; [|intros p; by intros s].
  intros s Hs. unfold fu_acquire. by destruct (Acquire _ _).
Qed.

Lemma fopened_db : db_of fopened.2 = r_DB demo_ab.
Proof. apply keeps_db_Open, keeps_db_Lookup. reflexivity. Qed.

Lemma fu_Unlink_reachable (s : fu_demo) (n : nat) (nd : fuNode) (name : bytes) :
  fu_nodes s !! n = Some nd → reachable (db_of s) →
  (∀ i, fs_names (view (db_of s)) !! (fn_ino nd, name) = Some i → ¬ is_dir (view (db_of s)) i) →
  reachable (db_of (fu_Unlink n name s).2).
Proof.
  intros Hn Hr Hf. unfold fu_Unlink, mbind, M_bind, fu_nodeAt, clockNow, gets, fu_orErrno. rewrite Hn.
  destruct (onRepo _ s) as [res s'] eqn:E. apply onRepo_run in E as (r & E & _ & Hr').
  assert (reachable (db_of s')) as Hs'; [|by destruct res].
  pose proof (settles_Unlink (view (db_of s)) (fn_ino nd) name (fu_now s) Hf (fu_repo s) (conj Hr eq_refl)) as Hst.
  rewrite E in Hst. unfold db_of. rewrite Hr'. exact Hst.
Qed.

Lemma fgone_reachable : reachable (r_DB (fu_repo fgone.2)).
Proof.
  destruct (node_at fopened.2 froot (λ nd, bool_decide (fn_ino nd = RootInode))) as (nd & Hn & Hi);
    [vm_cast_no_check (eq_refl true)|]. apply bool_decide_eq_true in Hi.
  apply (fu_Unlink_reachable fopened.2 froot nd (str "b") Hn); rewrite fopened_db; [exact demo_ab_reachable|].
  intros i. rewrite Hi. destruct (file_check_sound _ _ _ _ demo_ab_file) as [Hb Hd]. rewrite Hb. by intros [= <-].
Qed.

Lemma fgone_dead : dead_ok 6 (fu_repo fgone.2).
Proof.
  intros key [v Hk%bk_cursor_get].
  assert (bk_cursor (bDeadCnt (r_DB (fu_repo fgone.2))) = []) as E by (by vm_compute).
  rewrite E in Hk. destruct (not_elem_of_nil _ Hk).
Qed.

Lemma open_file_survives_sweep_witness :
  ∃ s', fu_Read fread_b 3 0 (fu_set_repo fswept.2 fgone.2) = (Ok content_b, s').
Proof.
  assert (repo_inv demo_K 6 (fu_repo fgone.2) ∧ one_region (fu_repo fgone.2)) as [Hi Ho].
  { apply (repo_check_sound demo_strings 6). vm_cast_no_check (eq_refl true). }
  destruct (pins_one (pins fgone.2) 0 id_b) as [Hpe Hpin]; [vm_cast_no_check (eq_refl true)|].
  destruct (inline_check_sound content_b fdead (fu_repo fgone.2)) as [Hread Hf]; [vm_cast_no_check (eq_refl true)..|].
  assert ((r_drawn fswept.2 <=? 6)%nat = true) as HN by (vm_cast_no_check (eq_refl true)).
  assert (graveyard (fu_repo fgone.2) = [mkGrave id_b 7]) as Hg by (by vm_compute).
  destruct (open_file_survives_sweep demo_K 6 fread_b fhandle 0 id_b fdead [content_b] 1 (2 * Hour) (100 * Hour)
    fgone.2 fswept.1 fswept.2 demo_universe Hi fgone_dead Ho Hpe) as [_ Hr].
  - by vm_compute.
  - by vm_compute.
  - exact Hpin.
  - right. exists (mkGrave id_b 7). split; [rewrite Hg; apply list_elem_of_here|reflexivity].
  - by vm_compute.
  - exact Hf.
  - exact Hread.
  - apply reader_check_sound. vm_cast_no_check (eq_refl true).
  - exact (surjective_pairing fswept).
  - by apply Nat.leb_le.
  - destruct (Hr 3%nat 0 (Z.le_refl 0)) as [s' Hs']. exists s'. exact Hs'.
Defined.

Lemma fboot_start : mount_start froot fboot.
Proof.
  exists (Manager_New (leaseDuration ClassRelaxed)), froot_rec.
  split_and!; [by vm_compute|reflexivity|by vm_compute|reflexivity|]. apply Nat.ltb_lt. reflexivity.
Qed.

Lemma serving_behind (hist : list (time * DB MapBolt.mapb)) (L X : gset nat) (s : fu_demo) (db : DB MapBolt.mapb) :
  serving hist L X s → is_Some (leases_of s) → serving ((fu_now s, db) :: hist) L X (fu_set_repo (set_DB db (fu_repo s)) s).
Proof.
  intros Hs [[d ls] Hl]. apply (serving_other hist L X s (set_DB db (fu_repo s)) Hs). by exists d, ls, ls.
Qed.

Lemma serving_root (hist : list (time * DB MapBolt.mapb)) (s : fu_demo) (nd : fuNode) (g : gop) res s' :
  serving hist {[froot]} ∅ s → strays froot g s = ∅ → run_gop froot g s = (res, s') → fu_nodes s' !! froot = Some nd →
  serving ((fu_now s', db_of s') :: hist) {[froot]} ∅ s'.
Proof.
  intros Hs Hown Hrun Hn. pose proof (serving_node hist {[froot]} ∅ s froot g res s' {[froot]}) as Hstep.
  rewrite Hown, (right_id_L ∅ (∪)) in Hstep. apply Hstep; [done|set_solver|done|]. split.
  - intros n ->%elem_of_singleton. split; [left; set_solver|]. by rewrite Hn.
  - intros n n' x x' ->%elem_of_singleton ->%elem_of_singleton. done.
Qed.

Lemma fbehind_serving :
  serving [(fu_now fasked.2, r_DB demo_gone); (fu_now fasked.2, db_of fasked.2); (fu_now fboot, db_of fboot)] {[froot]} ∅ fbehind.
Proof.
  destruct (node_at fasked.2 froot (λ _, true)) as (nd & Hn & _); [vm_cast_no_check (eq_refl true)|].
  assert (bool_decide (is_Some (leases_of fasked.2)) = true) as Hl by (vm_cast_no_check (eq_refl true)).
  unfold fbehind. apply serving_behind; [|by apply bool_decide_eq_true in Hl].
  exact (serving_root _ fboot nd GGetattr fasked.1 fasked.2 (serving_start froot fboot fboot_start) eq_refl (surjective_pairing fasked) Hn).
Qed.

Lemma served_record_is_recent_witness :
  ∃ rec t db, fserved.1 = Ok rec ∧ getInodeTx RootInode db = Ok rec ∧
    fu_now fbehind - Z.max 0 (leaseDuration ClassRelaxed) <= t <= fu_now fbehind.
Proof.
  destruct (node_at fbehind froot (λ nd, bool_decide (fn_ino nd = RootInode))) as (nd & Hn & Hi);
    [vm_cast_no_check (eq_refl true)|]. apply bool_decide_eq_true in Hi.
  assert (match r_Coherence (fu_repo fbehind) with Some m => m_d m =? leaseDuration ClassRelaxed | None => false end = true) as Hm
    by (vm_cast_no_check (eq_refl true)).
  destruct (r_Coherence (fu_repo fbehind)) as [m|] eqn:Ec; [|discriminate Hm]. apply Z.eqb_eq in Hm.
  assert (is_ok fserved.1 = true) as Hok by (vm_cast_no_check (eq_refl true)).
  assert (currentRec froot fbehind = (fserved.1, fserved.2)) as Hrun by exact (surjective_pairing fserved).
  destruct fserved.1 as [rec|e]; [|discriminate Hok].
  destruct (served_record_is_recent _ _ _ fbehind froot nd rec fserved.2 m fbehind_serving) as (t & db & _ & Ht & Hrec).
  - by apply elem_of_singleton.
  - apply not_elem_of_empty.
  - exact Hn.
  - rewrite Hi. discriminate.
  - exact Ec.
  - exact Hrun.
  - rewrite Hi in Hrec. rewrite Hm in Ht. exists rec, t, db. split_and!; [reflexivity|exact Hrec|exact (proj1 Ht)|exact (proj2 Ht)].
Defined.

(** * Truncating by a name that is gone *)

(** A truncation without an open file commits under the name the node was
    found by.  When that name was unlinked and the file lives on under
    another, the call succeeds, the file keeps its size, and a new file of
    the length asked for appears under the unlinked name. *)
Lemma truncate_goes_astray :
  size_of (str "c") flinked = None ∧ size_of (str "d") flinked = Some 6 ∧
  (at_Size <$> match ftruncated.1 with Ok a => Some a | Err _ => None end) = Some 1 ∧
  size_of (str "c") ftruncated.2 = Some 1 ∧ size_of (str "d") ftruncated.2 = Some 6.
Proof. by vm_compute. Qed.
