(* ===== verification/Repoopen.v ===== *)
(** pkg/repoopen, and the flags of cmd/atlas that fill its parameters.

    [Params] selects a backend; [Open] and [OpenBackend] build it.  The
    constructors of the backends, the AWS configuration and the Dragonfly
    client are code of SDKs or I/O, and so arguments: [openEnv].  The metadata
    store of a directory is one too; what [OpenWithPolicy] does with it is in
    Repo. *)
From S2P Require Import Prelude Bolt Chunk Store Pack MetaDB Coherence RepoUtil Repo MdsServer.

Record Params := mkParams {
  pa_Backend : bytes;
  pa_S3Bucket : bytes; pa_S3Region : bytes; pa_S3Endpoint : bytes; pa_S3Prefix : bytes;
  pa_GCSBucket : bytes; pa_GCSPrefix : bytes;
  pa_AzureServiceURL : bytes; pa_AzureContainer : bytes; pa_AzurePrefix : bytes;
  pa_DragonflyProxy : bytes; pa_DragonflyTag : bytes;
  pa_MDSAddr : bytes;
  pa_Region : bytes; pa_Class : bytes; pa_ChunkSize : Z
}.

#[global] Instance Params_eq_dec : EqDecision Params.
Proof. solve_decision. Defined.

(** ** Parameters from a map *)

Definition KeyRepoPath : bytes := str "repoPath".
Definition KeyBackend : bytes := str "backend".
Definition KeyS3Bucket : bytes := str "s3Bucket".
Definition KeyS3Region : bytes := str "s3Region".
Definition KeyS3Endpoint : bytes := str "s3Endpoint".
Definition KeyS3Prefix : bytes := str "s3Prefix".
Definition KeyGCSBucket : bytes := str "gcsBucket".
Definition KeyGCSPrefix : bytes := str "gcsPrefix".
Definition KeyAzureServiceURL : bytes := str "azureServiceURL".
Definition KeyAzureContainer : bytes := str "azureContainer".
Definition KeyAzurePrefix : bytes := str "azurePrefix".
Definition KeyDragonflyProxy : bytes := str "dragonflyProxy".
Definition KeyDragonflyTag : bytes := str "dragonflyTag".
Definition KeyMDSAddr : bytes := str "mdsAddr".
Definition KeyRegion : bytes := str "region".
Definition KeyClass : bytes := str "class".
Definition KeyChunkSize : bytes := str "chunkSize".

(** [strconv.Atoi]. *)
Fixpoint digits_value (n : Z) (s : bytes) : option Z :=
  match s with
  | [] => Some n
  | c :: s' => match digit c with Some d => digits_value (n * 10 + d) s' | None => None end
  end.
Definition Atoi (s : bytes) : option Z :=
  let '(neg, ds) := match s with
                    | c :: s' => if bool_decide (c = x2d) then (true, s')
                                 else if bool_decide (c = x2b) then (false, s') else (false, s)
                    | [] => (false, [])
                    end in
  match ds with
  | [] => None
  | _ => match digits_value 0 ds with
         | Some n => let n := if neg : bool then - n else n in
                     if (- 2 ^ 63 <=? n) && (n <? 2 ^ 63) then Some n else None
         | None => None
         end
  end.

(** A key that is missing reads as the empty string. *)
Definition param (m : gmap bytes bytes) (k : bytes) : bytes := default [] (m !! k).

Definition ParamsFromMap (m : gmap bytes bytes) : result (bytes * Params) :=
  let repoDir := param m KeyRepoPath in
  if bool_decide (repoDir = []) then Err OpenErrMissingParam
  else
    let p (chunkSize : Z) := mkParams (param m KeyBackend) (param m KeyS3Bucket) (param m KeyS3Region)
      (param m KeyS3Endpoint) (param m KeyS3Prefix) (param m KeyGCSBucket) (param m KeyGCSPrefix)
      (param m KeyAzureServiceURL) (param m KeyAzureContainer) (param m KeyAzurePrefix)
      (param m KeyDragonflyProxy) (param m KeyDragonflyTag) (param m KeyMDSAddr)
      (param m KeyRegion) (param m KeyClass) chunkSize in
    let v := param m KeyChunkSize in
    if bool_decide (v = []) then Ok (repoDir, p 0)
    else match Atoi v with
         | None => Err OpenErrChunkSize
         | Some n => if n <? 0 then Err OpenErrChunkSize else Ok (repoDir, p n)
         end.

(** The flags of cmd/atlas. *)
Record backendFlags := mkBackendFlags {
  bf_kind : bytes;
  bf_s3Bucket : bytes; bf_s3Region : bytes; bf_s3Endpoint : bytes; bf_s3Prefix : bytes;
  bf_gcsBucket : bytes; bf_gcsPrefix : bytes;
  bf_azureServiceURL : bytes; bf_azureContainer : bytes; bf_azurePrefix : bytes;
  bf_dragonflyProxy : bytes; bf_dragonflyTag : bytes; bf_gdsAlign : bool;
  bf_region : bytes; bf_class : bytes; bf_chunkSize : Z
}.

(** What they are when none is given. *)
Definition addBackendFlags : backendFlags :=
  mkBackendFlags (str "local") [] (str "us-east-1") [] [] [] [] [] [] [] [] [] false DefaultRegion ClassImmutable 0.

Definition flag_params (bf : backendFlags) : Params :=
  mkParams (bf_kind bf) (bf_s3Bucket bf) (bf_s3Region bf) (bf_s3Endpoint bf) (bf_s3Prefix bf)
    (bf_gcsBucket bf) (bf_gcsPrefix bf) (bf_azureServiceURL bf) (bf_azureContainer bf) (bf_azurePrefix bf)
    (bf_dragonflyProxy bf) (bf_dragonflyTag bf) [] (bf_region bf) (bf_class bf) (bf_chunkSize bf).

(** ** Opening *)

Definition objectsDir (repoDir : bytes) : bytes := repoDir ++ str "/objects".

Section open.
Context {bucket : Type → Type} `{BoltOps bucket} {B : Type} `{BackendOps B} {blake3 : Blake3}.
Context {callback handler : Type} {Aws Df : Type}.
Abbreviation repo := (Repo bucket B callback handler).

Record openEnv := mkOpenEnv {
  oe_local : bytes → result B;
  oe_awsConfig : bytes → result Aws;
  oe_dragonfly : bytes → bytes → result Df;
  oe_dragonflyDefault : bytes;
  oe_s3 : Aws → option Df → option bytes → bytes → bytes → result B;
  oe_gcs : bytes → bytes → result B;
  oe_azure : bytes → bytes → bytes → result B;
  (** [os.MkdirAll] of the directory and [metadb.Open] of its store. *)
  oe_db : bytes → result (DB bucket);
  oe_rand : nat → barray 16
}.

(** [repo.OpenWithPolicy] on the directory. *)
Definition openPolicy (env : openEnv) (repoDir : bytes) (backend : B) (region class : bytes) (chunkSize : Z) : result repo :=
  match oe_db env repoDir with
  | Err e => Err e
  | Ok db => OpenWithPolicy db backend region class chunkSize (oe_rand env)
  end.

(** [Open]; wrapping an error with [%w] leaves what [errors.Is] sees. *)
Definition open_Open (env : openEnv) (repoDir : bytes) (p : Params) : result repo :=
  let region := if bool_decide (pa_Region p = []) then DefaultRegion else pa_Region p in
  let class := if bool_decide (pa_Class p = []) then ClassImmutable else pa_Class p in
  if bool_decide (class = ClassPosix) then Err OpenErrPosix
  else if bool_decide (pa_Backend p = []) || bool_decide (pa_Backend p = str "local") then
    match oe_local env (objectsDir repoDir) with
    | Err e => Err e
    | Ok backend => openPolicy env repoDir backend region class (pa_ChunkSize p)
    end
  else if bool_decide (pa_Backend p = str "s3") then
    if bool_decide (pa_S3Bucket p = []) then Err OpenErrBucket
    else
      let s3Region := if bool_decide (pa_S3Region p = []) then str "us-east-1" else pa_S3Region p in
      match oe_awsConfig env s3Region with
      | Err e => Err e
      | Ok awsCfg =>
          let client := if bool_decide (pa_DragonflyProxy p = []) then Ok None
                        else
                          let proxy := if bool_decide (pa_DragonflyProxy p = str "auto") then oe_dragonflyDefault env
                                       else pa_DragonflyProxy p in
                          match oe_dragonfly env proxy (pa_DragonflyTag p) with
                          | Err e => Err e
                          | Ok dfClient => Ok (Some dfClient)
                          end in
          match client with
          | Err e => Err e
          | Ok client =>
              let endpoint := if bool_decide (pa_S3Endpoint p = []) then None else Some (pa_S3Endpoint p) in
              match oe_s3 env awsCfg client endpoint (pa_S3Bucket p) (pa_S3Prefix p) with
              | Err e => Err e
              | Ok backend => openPolicy env repoDir backend region class (pa_ChunkSize p)
              end
          end
      end
  else if bool_decide (pa_Backend p = str "gcs") then
    if bool_decide (pa_GCSBucket p = []) then Err OpenErrBucket
    else match oe_gcs env (pa_GCSBucket p) (pa_GCSPrefix p) with
         | Err e => Err e
         | Ok backend => openPolicy env repoDir backend region class (pa_ChunkSize p)
         end
  else if bool_decide (pa_Backend p = str "azure") then
    if bool_decide (pa_AzureServiceURL p = []) || bool_decide (pa_AzureContainer p = []) then Err OpenErrBucket
    else match oe_azure env (pa_AzureServiceURL p) (pa_AzureContainer p) (pa_AzurePrefix p) with
         | Err e => Err e
         | Ok backend => openPolicy env repoDir backend region class (pa_ChunkSize p)
         end
  else Err OpenErrUnknownBackend.

Definition openCloudBackend (env : openEnv) (p : Params) : result B :=
  if bool_decide (pa_Backend p = str "s3") then
    if bool_decide (pa_S3Bucket p = []) then Err OpenErrBucket
    else
      let s3Region := if bool_decide (pa_S3Region p = []) then str "us-east-1" else pa_S3Region p in
      match oe_awsConfig env s3Region with
      | Err e => Err e
      | Ok awsCfg =>
          let client := if bool_decide (pa_DragonflyProxy p = []) then Ok None
                        else
                          let proxy := if bool_decide (pa_DragonflyProxy p = str "auto") then oe_dragonflyDefault env
                                       else pa_DragonflyProxy p in
                          match oe_dragonfly env proxy (pa_DragonflyTag p) with
                          | Err e => Err e
                          | Ok dfClient => Ok (Some dfClient)
                          end in
          match client with
          | Err e => Err e
          | Ok client =>
              let endpoint := if bool_decide (pa_S3Endpoint p = []) then None else Some (pa_S3Endpoint p) in
              oe_s3 env awsCfg client endpoint (pa_S3Bucket p) (pa_S3Prefix p)
          end
      end
  else if bool_decide (pa_Backend p = str "gcs") then
    if bool_decide (pa_GCSBucket p = []) then Err OpenErrBucket
    else oe_gcs env (pa_GCSBucket p) (pa_GCSPrefix p)
  else if bool_decide (pa_Backend p = str "azure") then
    if bool_decide (pa_AzureServiceURL p = []) || bool_decide (pa_AzureContainer p = []) then Err OpenErrBucket
    else oe_azure env (pa_AzureServiceURL p) (pa_AzureContainer p) (pa_AzurePrefix p)
  else Err OpenErrUnknownBackend.

Definition OpenBackend (env : openEnv) (repoDir : bytes) (p : Params) : result B :=
  if bool_decide (pa_Backend p = []) || bool_decide (pa_Backend p = str "local") then oe_local env (objectsDir repoDir)
  else if bool_decide (pa_Backend p = str "s3") || bool_decide (pa_Backend p = str "gcs") || bool_decide (pa_Backend p = str "azure")
  then openCloudBackend env p
  else Err OpenErrUnknownBackend.

(** [openRepo] of cmd/atlas. *)
Definition openRepo (env : openEnv) (repoDir : bytes) (bf : backendFlags) : result repo :=
  match open_Open env repoDir (flag_params bf) with
  | Err e => Err e
  | Ok r => Ok (if bf_gdsAlign bf then SetChunkAlignment GDSAlignment r else r)
  end.
End open.
Arguments openEnv : clear implicits.
