(* ===== verification/RepoopenThm.v ===== *)
(** pkg/repoopen: one choice of backend.

    The switch over backends is written out twice in the code; both copies
    choose alike.  A volume's parameters survive the trip through the map of a
    volume context, and a class is a hint for a new repository only. *)
From stdpp Require Import pretty.
From S2P Require Import Prelude Bolt Chunk Store Pack MetaDB MetaSpec Coherence RepoUtil Repo MdsServer MdsClient MdsThm.
From S2P Require Import Repoopen.

(** ** Statements *)

(** A volume context that says [p]. *)
Definition params_map (repoDir : bytes) (p : Params) : gmap bytes bytes :=
  list_to_map [(KeyRepoPath, repoDir); (KeyBackend, pa_Backend p); (KeyS3Bucket, pa_S3Bucket p);
    (KeyS3Region, pa_S3Region p); (KeyS3Endpoint, pa_S3Endpoint p); (KeyS3Prefix, pa_S3Prefix p);
    (KeyGCSBucket, pa_GCSBucket p); (KeyGCSPrefix, pa_GCSPrefix p); (KeyAzureServiceURL, pa_AzureServiceURL p);
    (KeyAzureContainer, pa_AzureContainer p); (KeyAzurePrefix, pa_AzurePrefix p);
    (KeyDragonflyProxy, pa_DragonflyProxy p); (KeyDragonflyTag, pa_DragonflyTag p); (KeyMDSAddr, pa_MDSAddr p);
    (KeyRegion, pa_Region p); (KeyClass, pa_Class p); (KeyChunkSize, decimal (pa_ChunkSize p))].

(** The class asked for. *)
Definition class_hint (p : Params) : bytes := if bool_decide (pa_Class p = []) then ClassImmutable else pa_Class p.

(** A machine where everything opens, on a store just made. *)
Definition demo_env : openEnv MapBolt.mapb MemBackend.mem unit unit :=
  mkOpenEnv (λ _, Ok ∅) (λ _, Ok tt) (λ _ _, Ok tt) (str "http://127.0.0.1:65001") (λ _ _ _ _ _, Ok ∅) (λ _ _, Ok ∅) (λ _ _ _, Ok ∅)
    (λ _, Ok (Open 1000 1000 0)) (λ _, @BArray 16 (replicate 16 x00) eq_refl).
Definition demo_params (class : bytes) : Params := mkParams [] [] [] [] [] [] [] [] [] [] [] [] [] [] class 0.

(** ** Numerals *)

Lemma digits_pretty_go (x : N) (s : String.string) :
  digits_value 0 (str (pretty_N_go x s)) = digits_value (Z.of_N x) (str s).
Proof.
  revert s. induction (N.lt_wf_0 x) as [x _ IH]; intros s.
  destruct (decide (x = 0)%N) as [->|Hne]; [done|]. rewrite pretty_N_go_step by lia.
  pose proof (N.div_mod x 10 ltac:(lia)) as Hdm. pose proof (N.mod_lt x 10 ltac:(lia)) as Hm.
  assert (x / 10 < x)%N as Hlt by (apply N.div_lt; lia).
  rewrite IH by done. rewrite str_cons. cbn [digits_value].
  rewrite digit_char by done. by replace (Z.of_N (x / 10) * 10 + Z.of_N (x mod 10)) with (Z.of_N x) by (rewrite Hdm at 1; lia).
Qed.

Lemma digits_decimal n : 0 <= n → digits_value 0 (decimal n) = Some n.
Proof.
  intros Hn. unfold decimal, pretty, pretty_N. case_decide as E.
  - replace n with 0 by lia. done.
  - rewrite digits_pretty_go. cbn. f_equal. lia.
Qed.

(** A numeral starts with a digit. *)
Lemma decimal_head n c s : 0 <= n → decimal n = c :: s → is_Some (digit c).
Proof.
  intros Hn E. pose proof (digits_decimal n Hn) as Hd. rewrite E in Hd. cbn in Hd. destruct (digit c); [by eexists|done].
Qed.

Lemma Atoi_decimal n : 0 <= n < 2 ^ 63 → decimal n ≠ [] ∧ Atoi (decimal n) = Some n.
Proof.
  intros Hn. pose proof (digits_decimal n ltac:(lia)) as Hd. pose proof (decimal_head n) as Hh.
  unfold Atoi. destruct (decimal n) as [|c s] eqn:E.
  - cbn in Hd. injection Hd as <-. vm_compute in E. discriminate E.
  - split; [done|]. destruct (Hh c s ltac:(lia) eq_refl) as [d Hc].
    rewrite !bool_decide_false by (intros ->; discriminate Hc). rewrite Hd.
    by rewrite (proj2 (Z.leb_le _ _)), (proj2 (Z.ltb_lt _ _)) by lia.
Qed.

Lemma Atoi_range s n : Atoi s = Some n → - 2 ^ 63 <= n < 2 ^ 63.
Proof.
  unfold Atoi. destruct (match s with [] => _ | _ => _ end) as [neg ds]. destruct ds as [|c ds]; [done|].
  destruct (digits_value 0 (c :: ds)) as [x|]; [|done]. cbv zeta. destruct (_ && _) eqn:E; [|done]. intros [= <-].
  apply andb_prop in E as [E1%Z.leb_le E2%Z.ltb_lt]. done.
Qed.

(** ** Properties *)

Section properties.
Context {bucket : Type → Type} `{BoltLaws bucket} {B : Type} `{BackendOps B} {blake3 : Blake3}.
Context {callback handler Aws Df : Type}.
Abbreviation env := (openEnv bucket B Aws Df).

(** The shape of [Open]. *)
Lemma open_backend_eq (e : env) repoDir p :
  open_Open (callback := callback) (handler := handler) e repoDir p =
  if bool_decide (class_hint p = ClassPosix) then Err OpenErrPosix
  else match OpenBackend e repoDir p with
       | Err err => Err err
       | Ok backend => openPolicy e repoDir backend (if bool_decide (pa_Region p = []) then DefaultRegion else pa_Region p)
                         (class_hint p) (pa_ChunkSize p)
       end.
Proof.
  unfold open_Open, OpenBackend, openCloudBackend, class_hint. cbv zeta. case_bool_decide; [done|].
  repeat (case_bool_decide; simplify_eq/=; try done); repeat case_match; simplify_eq/=; done.
Qed.

(** C37: The two copies of the switch over backends agree: a repository is
    opened on exactly the backend [OpenBackend] builds from the same
    parameters, fails with exactly its error, and is refused before anything
    is opened when the class asked for is [posix]. *)
Theorem open_uses_backend (e : env) repoDir p :
  open_Open (callback := callback) (handler := handler) e repoDir p =
  if bool_decide (class_hint p = ClassPosix) then Err OpenErrPosix
  else match OpenBackend e repoDir p with
       | Err err => Err err
       | Ok backend => openPolicy e repoDir backend (if bool_decide (pa_Region p = []) then DefaultRegion else pa_Region p)
                         (class_hint p) (pa_ChunkSize p)
       end.
Proof. apply open_backend_eq. Qed.

(** A class is a hint for a new repository only: the class of a
    repository that is there is the one it was made with, whatever is asked
    for; a new one gets the class asked for, which is not [posix]. *)
Theorem open_class (e : env) repoDir p r :
  open_Open (callback := callback) (handler := handler) e repoDir p = Ok r →
  ∃ db, oe_db e repoDir = Ok db ∧
    match bk_get metaKeyClass (bMeta db) with
    | Some c => r_Class r = c
    | None => r_Class r = class_hint p ∧ r_Class r ≠ ClassPosix
    end.
Proof.
  rewrite open_backend_eq. case_bool_decide as Hc; [done|]. destruct (OpenBackend e repoDir p) as [b|]; [|done].
  unfold openPolicy. destruct (oe_db e repoDir) as [db|]; [|done]. intros Hr. exists db. split; [done|].
  revert Hr. unfold OpenWithPolicy, EnsureClass. destruct (bk_get metaKeyClass (bMeta db)) as [c|] eqn:Hk.
  all: erewrite bolt_update_ok by (by rewrite Hk); cbv zeta.
  all: match goal with |- context [EnsureChunkSize ?n ?d] => destruct (EnsureChunkSize n d) as [[sz|] db'] end; [|done].
  all: by intros [= <-].
Qed.
End properties.

(** A volume's parameters written into a volume context are read back as
    they were; a context without a directory, or whose chunk size is no
    non-negative number of 63 bits, is refused. *)
Theorem params_roundtrip repoDir p m :
  (repoDir ≠ [] → 0 <= pa_ChunkSize p < 2 ^ 63 → ParamsFromMap (params_map repoDir p) = Ok (repoDir, p)) ∧
  (param m KeyRepoPath = [] → ParamsFromMap m = Err OpenErrMissingParam) ∧
  (∀ dir p', ParamsFromMap m = Ok (dir, p') → dir = param m KeyRepoPath ∧ dir ≠ [] ∧ 0 <= pa_ChunkSize p' < 2 ^ 63 ∧
     (param m KeyChunkSize = [] ∧ pa_ChunkSize p' = 0 ∨ Atoi (param m KeyChunkSize) = Some (pa_ChunkSize p'))).
Proof.
  split_and!.
  - intros Hd Hc. destruct (Atoi_decimal _ Hc) as [Hne Ha]. unfold ParamsFromMap.
    unfold param, params_map. cbn [list_to_map foldr fst snd].
    repeat (rewrite lookup_insert_eq || rewrite lookup_insert_ne by (vm_compute; discriminate)). cbn [default]. unfold id.
    rewrite !bool_decide_false, Ha by done. rewrite (proj2 (Z.ltb_ge _ _)) by lia. by destruct p.
  - intros E. unfold ParamsFromMap. by rewrite bool_decide_true.
  - intros dir p'. unfold ParamsFromMap. case_bool_decide; [done|]. case_bool_decide.
    + intros [= <- <-]. cbn. split_and!; try done; lia || auto.
    + destruct (Atoi (param m KeyChunkSize)) as [n|] eqn:Ha; [|done]. destruct (Z.ltb_spec n 0); [done|]. intros [= <- <-]. cbn.
      pose proof (Atoi_range _ _ Ha). split_and!; try done; [lia|by right].
Qed.

(** ** Witnesses *)

Lemma params_roundtrip_witness :
  let p := mkParams (str "s3") (str "bucket") [] [] (str "p/") [] [] [] [] [] (str "auto") [] [] [] ClassRelaxed 65536 in
  ParamsFromMap (params_map (str "/var/atlas") p) = Ok (str "/var/atlas", p).
Proof.
  intros p. apply (proj1 (params_roundtrip (str "/var/atlas") p ∅)); [discriminate|split; [discriminate|reflexivity]].
Defined.

Lemma open_class_witness :
  ∃ r : Repo MapBolt.mapb MemBackend.mem unit unit,
    open_Open demo_env (str "/var/atlas") (demo_params ClassRelaxed) = Ok r ∧ r_Class r = ClassRelaxed.
Proof.
  assert (∃ r : Repo MapBolt.mapb MemBackend.mem unit unit,
    open_Open demo_env (str "/var/atlas") (demo_params ClassRelaxed) = Ok r) as [r Hr] by (eexists; vm_compute; reflexivity).
  exists r. split; [exact Hr|]. destruct (open_class demo_env (str "/var/atlas") (demo_params ClassRelaxed) r Hr) as (db & Hdb & Hc).
  assert (match oe_db demo_env (str "/var/atlas") with
          | Ok db => bool_decide (bk_get metaKeyClass (bMeta db) = None) | Err _ => false end = true) as Hn
    by (vm_cast_no_check (eq_refl true)).
  rewrite Hdb in Hn. apply bool_decide_eq_true in Hn. rewrite Hn in Hc. exact (proj1 Hc).
Defined.
