(* ===== verification/CsiDriver.v ===== *)
(** pkg/csidriver: the CSI node service.

    A volume is published by opening its repository, or connecting to its
    metadata service, and mounting it at a path.  What a call opens is a
    resource with a number: [csiWorld] holds the resources that are open
    beside the table of mounts.  Calls run side by side: [csi_advance] takes
    one from one critical section to the next; [csiRun] is what the rest of
    the system answers to a step. *)
From S2P Require Import Prelude Bolt Chunk Store Pack MetaDB Coherence RepoUtil Repo MdsServer Repoopen.

Definition DriverName : bytes := str "csi.atlas.io".
Definition PluginVersion : bytes := str "0.1.0-phase1-slice".

(** ** The Identity service and what the Node service does not offer *)

Definition GetPluginInfo : bytes * bytes := (DriverName, PluginVersion).
Definition GetPluginCapabilities : list Z := [].
Definition Probe : bool := true.
Definition NodeGetCapabilities : list Z := [].

(** gRPC status codes; messages are left out. *)
Definition InvalidArgument : error := ErrStatus 3 [].
Definition DeadlineExceeded : error := ErrStatus 4 [].
Definition Unimplemented : error := ErrStatus 12 [].
Definition Internal : error := ErrStatus 13 [].

Definition NodeStageVolume : result unit := Err Unimplemented.
Definition NodeUnstageVolume : result unit := Err Unimplemented.
Definition NodeExpandVolume : result unit := Err Unimplemented.
Definition NodeGetVolumeStats : result unit := Err Unimplemented.

(** ** Requests *)

Inductive accessMode :=
  | SINGLE_NODE_WRITER | SINGLE_NODE_READER_ONLY | MULTI_NODE_READER_ONLY
  | MULTI_NODE_SINGLE_WRITER | MULTI_NODE_MULTI_WRITER | SINGLE_NODE_SINGLE_WRITER | SINGLE_NODE_MULTI_WRITER
  | MODE_UNKNOWN.

Record publishRequest := mkPublishRequest {
  pq_VolumeId : bytes; pq_TargetPath : bytes; pq_Readonly : bool;
  pq_Capability : option accessMode; pq_VolumeContext : gmap bytes bytes
}.

Definition isReadOnlyRequest (req : publishRequest) : bool :=
  if pq_Readonly req then true
  else match pq_Capability req with
       | None => false
       | Some MULTI_NODE_READER_ONLY | Some SINGLE_NODE_READER_ONLY => true
       | Some _ => false
       end.

Definition rwxContractDisjointWriters : bytes := str "disjoint-writers".
Definition disjointWriters (req : publishRequest) : bool :=
  bool_decide (param (pq_VolumeContext req) (str "rwxContract") = rwxContractDisjointWriters).

(** ** State *)

Record activeMount := mkActiveMount {
  am_volumeID : bytes; am_repo : option nat; am_server : nat; am_closers : list nat
}.

Record NodeServer := mkNodeServer { ns_NodeID : bytes; ns_mounts : gmap bytes activeMount }.

Definition NewNodeServer (nodeID : bytes) : NodeServer := mkNodeServer nodeID ∅.
Definition NodeGetInfo (n : NodeServer) : bytes := ns_NodeID n.

(** What can be open: a repository of a class, a connection, a client with
    its holder's name, a mount at a path for a request. *)
Inductive resource :=
  | ResRepo (class : bytes)
  | ResConn
  | ResClient (holder : bytes)
  | ResMount (target : bytes) (writable : bool) (req : publishRequest) (class : option bytes).

Record csiWorld := mkCsiWorld { cw_node : NodeServer; cw_live : gmap nat resource; cw_next : nat }.

Definition set_cw_mounts (x : gmap bytes activeMount) (w : csiWorld) : csiWorld :=
  mkCsiWorld (mkNodeServer (ns_NodeID (cw_node w)) x) (cw_live w) (cw_next w).
Definition set_cw_live (x : gmap nat resource) (w : csiWorld) : csiWorld := mkCsiWorld (cw_node w) x (cw_next w).
(** A resource is opened under the next number. *)
Definition cw_open (x : resource) (w : csiWorld) : csiWorld :=
  mkCsiWorld (cw_node w) (<[cw_next w := x]> (cw_live w)) (S (cw_next w)).
Definition cw_close (l : list nat) (w : csiWorld) : csiWorld := set_cw_live (foldr delete (cw_live w) l) w.

(** How a mount ends up: mounted, refused, or not there when the context
    ends; in the last case it may come up later. *)
Inductive mountOutcome := Mounted | MountFailed | TimedOut (late : bool).

Section csi.
Context {bucket : Type → Type} `{BoltOps bucket} {B : Type} `{BackendOps B} {blake3 : Blake3}.
Context {callback handler Aws Df : Type}.
Abbreviation env := (openEnv bucket B Aws Df).

Record csiRun := mkCsiRun {
  cr_env : env; cr_mkdir : option error; cr_dial : option error; cr_subscribe : option error;
  cr_mount : mountOutcome; cr_unmount : option error; cr_closeRepo : option error
}.

(** A call: past its checks, waiting for its mount, with its mount up, ended;
    or taken out of the table and to be unmounted. *)
Inductive csiThread :=
  | CPublish (req : publishRequest)
  | CChecked (req : publishRequest) (repoDir : bytes) (p : Params)
  | CMounting (req : publishRequest) (repo : option nat) (closers : list nat) (class : option bytes)
  | CMounted (req : publishRequest) (m : activeMount)
  | CUnpublish (target : bytes)
  | CUnmounting (m : activeMount)
  | CEnd (res : result unit).

(** [NodePublishVolume] up to the look into the table. *)
Definition publish_check (req : publishRequest) (w : csiWorld) : csiThread :=
  if bool_decide (pq_VolumeId req = []) then CEnd (Err InvalidArgument)
  else if bool_decide (pq_TargetPath req = []) then CEnd (Err InvalidArgument)
  else if negb (isReadOnlyRequest req) && negb (disjointWriters req) then CEnd (Err InvalidArgument)
  else match ParamsFromMap (pq_VolumeContext req) with
       | Err _ => CEnd (Err InvalidArgument)
       | Ok (repoDir, p) =>
           match ns_mounts (cw_node w) !! pq_TargetPath req with
           | Some _ => CEnd (Ok tt)
           | None => CChecked req repoDir p
           end
       end.

Definition holderName (req : publishRequest) (w : csiWorld) : bytes :=
  ns_NodeID (cw_node w) ++ str "/" ++ pq_VolumeId req.

(** [publishViaMDS] up to the mount. *)
Definition publishViaMDS (o : csiRun) (req : publishRequest) (repoDir : bytes) (p : Params) (w : csiWorld) : csiThread * csiWorld :=
  match cr_dial o with
  | Some _ => (CEnd (Err Internal), w)
  | None =>
      let cc := cw_next w in
      let w := cw_open ResConn w in
      match cr_subscribe o with
      | Some _ => (CEnd (Err Internal), cw_close [cc] w)
      | None =>
          let client := cw_next w in
          let w := cw_open (ResClient (holderName req w)) w in
          match OpenBackend (cr_env o) repoDir p with
          | Err _ => (CEnd (Err Internal), cw_close [client; cc] w)
          | Ok _ => (CMounting req None [client; cc] None, w)
          end
      end
  end.

(** The rest of [NodePublishVolume] up to the mount. *)
Definition publish_open (o : csiRun) (req : publishRequest) (repoDir : bytes) (p : Params) (w : csiWorld) : csiThread * csiWorld :=
  match cr_mkdir o with
  | Some _ => (CEnd (Err Internal), w)
  | None =>
      if negb (bool_decide (pa_MDSAddr p = [])) then publishViaMDS o req repoDir p w
      else match open_Open (callback := callback) (handler := handler) (cr_env o) repoDir p with
           | Err _ => (CEnd (Err Internal), w)
           | Ok r =>
               let repo := cw_next w in
               let w := cw_open (ResRepo (r_Class r)) w in
               if negb (isReadOnlyRequest req) && negb (bool_decide (r_Class r = ClassRelaxed))
               then (CEnd (Err InvalidArgument), cw_close [repo] w)
               else (CMounting req (Some repo) [] (Some (r_Class r)), w)
           end
  end.

(** [fuseserver.Mount] is writable by the repository's class, [mdsfuse.Mount]
    by the request. *)
Definition mount_writable (req : publishRequest) (class : option bytes) : bool :=
  match class with
  | Some c => Mutable c
  | None => negb (isReadOnlyRequest req)
  end.

(** The wait for the mount.  The repository is closed on failure, or the
    client and the connection. *)
Definition publish_mount (o : csiRun) (req : publishRequest) (repo : option nat) (closers : list nat) (class : option bytes)
    (w : csiWorld) : csiThread * csiWorld :=
  let mount := ResMount (pq_TargetPath req) (mount_writable req class) req class in
  let owned := closers ++ option_list repo in
  match cr_mount o with
  | Mounted => (CMounted req (mkActiveMount (pq_VolumeId req) repo (cw_next w) closers), cw_open mount w)
  | MountFailed => (CEnd (Err Internal), cw_close owned w)
  | TimedOut late => (CEnd (Err DeadlineExceeded), let w := cw_close owned w in if late then cw_open mount w else w)
  end.

Definition publish_register (req : publishRequest) (m : activeMount) (w : csiWorld) : csiWorld :=
  set_cw_mounts (<[pq_TargetPath req := m]> (ns_mounts (cw_node w))) w.

(** [NodeUnpublishVolume] up to the end of its critical section. *)
Definition unpublish_take (target : bytes) (w : csiWorld) : csiThread * csiWorld :=
  if bool_decide (target = []) then (CEnd (Err InvalidArgument), w)
  else match ns_mounts (cw_node w) !! target with
       | None => (CEnd (Ok tt), w)
       | Some m => (CUnmounting m, set_cw_mounts (delete target (ns_mounts (cw_node w))) w)
       end.

(** The rest of it; a repository whose [Close] fails is not open any more
    either. *)
Definition unpublish_close (o : csiRun) (m : activeMount) (w : csiWorld) : csiThread * csiWorld :=
  match cr_unmount o with
  | Some _ => (CEnd (Err Internal), w)
  | None =>
      let w := cw_close (am_server m :: am_closers m) w in
      match am_repo m with
      | None => (CEnd (Ok tt), w)
      | Some repo =>
          let w := cw_close [repo] w in
          (CEnd (match cr_closeRepo o with Some _ => Err Internal | None => Ok tt end), w)
      end
  end.

Definition csi_advance (o : csiRun) (t : csiThread) (w : csiWorld) : option (csiThread * csiWorld) :=
  match t with
  | CPublish req => Some (publish_check req w, w)
  | CChecked req repoDir p => Some (publish_open o req repoDir p w)
  | CMounting req repo closers class => Some (publish_mount o req repo closers class w)
  | CMounted req m => Some (CEnd (Ok tt), publish_register req m w)
  | CUnpublish target => Some (unpublish_take target w)
  | CUnmounting m => Some (unpublish_close o m w)
  | CEnd _ => None
  end.
End csi.
Arguments csiRun : clear implicits.
