(* ===== verification/CsiThm.v ===== *)
(** pkg/csidriver: what a node promises about its mounts.

    [serving] collects the states in which any calls are under way.  A mount
    made for a request that wants to write has the contract and the class it
    needs, whatever interleaves.  When publications of one path do not
    overlap, unmounts do not fail and no mount comes up after its deadline,
    nothing leaks: what is open belongs to a mount of the table or to a call
    under way.  Without these conditions it does leak; CsiDemo runs the
    cases. *)
From S2P Require Import Prelude Bolt Chunk Store Pack MetaDB Coherence RepoUtil Repo MdsServer Repoopen CsiDriver.

(** ** Statements *)

Definition handles (m : activeMount) : list nat := option_list (am_repo m) ++ am_closers m ++ [am_server m].

(** What a call holds. *)
Definition thread_handles (th : csiThread) : list nat :=
  match th with
  | CMounting _ repo closers _ => option_list repo ++ closers
  | CMounted _ m | CUnmounting m => handles m
  | _ => []
  end.

(** The call is publishing at the path. *)
Definition publishing (target : bytes) (th : csiThread) : Prop :=
  match th with
  | CPublish req | CChecked req _ _ | CMounting req _ _ _ | CMounted req _ => pq_TargetPath req = target
  | _ => False
  end.
Definition past_check (target : bytes) (th : csiThread) : Prop :=
  match th with
  | CChecked req _ _ | CMounting req _ _ _ | CMounted req _ => pq_TargetPath req = target
  | _ => False
  end.

Definition ended (th : csiThread) : Prop := match th with CEnd _ => True | _ => False end.

Section statements.
Context {bucket : Type → Type} `{BoltOps bucket} {B : Type} `{BackendOps B} {blake3 : Blake3}.
Context {callback handler Aws Df : Type}.
Abbreviation run := (csiRun bucket B Aws Df).
Abbreviation step_of := (csi_advance (callback := callback) (handler := handler) (bucket := bucket) (B := B) (Aws := Aws) (Df := Df)).

(** [calm]: publications of one path do not overlap, unmounts succeed, and a
    mount that misses its deadline does not come up. *)
Inductive serving (calm : bool) : csiWorld → gmap nat csiThread → Prop :=
  | sv_new id : serving calm (mkCsiWorld (NewNodeServer id) ∅ 0) ∅
  | sv_publish w ths t req :
      serving calm w ths → ths !! t = None →
      (calm = true → ∀ t' th', ths !! t' = Some th' → ¬ publishing (pq_TargetPath req) th') →
      serving calm w (<[t := CPublish req]> ths)
  | sv_unpublish w ths t target :
      serving calm w ths → ths !! t = None → serving calm w (<[t := CUnpublish target]> ths)
  | sv_step w ths t th (o : run) th' w' :
      serving calm w ths → ths !! t = Some th → (calm = true → cr_unmount o = None ∧ cr_mount o ≠ TimedOut true) →
      step_of o th w = Some (th', w') → serving calm w' (<[t := th']> ths).

(** *** Ownership *)

(** A path of the table, or a call. *)
Abbreviation owner := (bytes + nat)%type.

Definition holding (w : csiWorld) (ths : gmap nat csiThread) (o : owner) : list nat :=
  match o with
  | inl target => match ns_mounts (cw_node w) !! target with Some m => handles m | None => [] end
  | inr t => match ths !! t with Some th => thread_handles th | None => [] end
  end.

Record owns (live : gmap nat resource) (next : nat) (H : owner → list nat) : Prop := mkOwns {
  ow_fresh x : is_Some (live !! x) → (x < next)%nat;
  ow_owned x : is_Some (live !! x) → ∃ o, x ∈ H o;
  ow_live o x : x ∈ H o → is_Some (live !! x);
  ow_one o o' x : x ∈ H o → x ∈ H o' → o = o'
}.

Definition upd (H : owner → list nat) (a : owner) (l : list nat) (o : owner) : list nat :=
  if decide (o = a) then l else H o.

(** What the numbers stand for. *)
Definition closer_ok (live : gmap nat resource) (x : nat) : Prop := live !! x = Some ResConn ∨ ∃ h, live !! x = Some (ResClient h).
Definition parts_ok (live : gmap nat resource) (repo : option nat) (closers : list nat) : Prop :=
  (∀ x, repo = Some x → ∃ c, live !! x = Some (ResRepo c)) ∧ Forall (closer_ok live) closers.
Definition mount_ok (live : gmap nat resource) (target : bytes) (m : activeMount) : Prop :=
  parts_ok live (am_repo m) (am_closers m) ∧ ∃ wr req c, live !! am_server m = Some (ResMount target wr req c).
Definition thread_typed (live : gmap nat resource) (th : csiThread) : Prop :=
  match th with
  | CMounting _ repo closers _ => parts_ok live repo closers
  | CMounted req m => mount_ok live (pq_TargetPath req) m
  | _ => True
  end.

Record calm_ok (w : csiWorld) (ths : gmap nat csiThread) : Prop := mkCalmOk {
  ca_owns : owns (cw_live w) (cw_next w) (holding w ths);
  ca_free t th target : ths !! t = Some th → past_check target th → ns_mounts (cw_node w) !! target = None;
  ca_single t t' th th' target : ths !! t = Some th → ths !! t' = Some th' → publishing target th → publishing target th' → t = t';
  ca_mounts target m : ns_mounts (cw_node w) !! target = Some m → mount_ok (cw_live w) target m;
  ca_threads t th : ths !! t = Some th → thread_typed (cw_live w) th
}.

(** *** Access *)

Definition asked_well (req : publishRequest) : Prop := isReadOnlyRequest req = true ∨ disjointWriters req = true.
Definition class_well (req : publishRequest) (class : option bytes) : Prop :=
  isReadOnlyRequest req = true ∨ ∀ c, class = Some c → c = ClassRelaxed.
Definition access_ok (th : csiThread) : Prop :=
  match th with
  | CChecked req _ _ => asked_well req
  | CMounting req _ _ class => asked_well req ∧ class_well req class
  | _ => True
  end.
Definition mounts_access (live : gmap nat resource) : Prop :=
  ∀ x target wr req class, live !! x = Some (ResMount target wr req class) →
    asked_well req ∧ class_well req class ∧ target = pq_TargetPath req ∧ wr = mount_writable req class.
End statements.

(** ** Ownership *)

Section owns.
Abbreviation owner := (bytes + nat)%type.
Implicit Types (live : gmap nat resource) (H : owner → list nat).

Lemma owns_ext live next H H' : (∀ o x, x ∈ H o ↔ x ∈ H' o) → owns live next H → owns live next H'.
Proof.
  intros E [F O L U]. split; [done| | |].
  - intros x Hx. destruct (O x Hx) as [o Ho]. exists o. by apply E.
  - intros o x Hx. apply (L o). by apply E.
  - intros o o' x Hx Hx'. apply (U o o' x); by apply E.
Qed.

(** A new resource for [a]. *)
Lemma owns_open live next H a r :
  owns live next H → owns (<[next := r]> live) (S next) (upd H a (H a ++ [next])).
Proof.
  intros [F O L U].
  assert (∀ o x, x ∈ upd H a (H a ++ [next]) o ↔ x ∈ H o ∨ (x = next ∧ o = a)) as Hu.
  { intros o x. unfold upd. case_decide as E; [subst|]; set_solver. }
  assert (∀ o, next ∉ H o) as Hn by (intros o Hx%L%F; lia).
  split.
  - intros x [y [[<- _]|[_ Hx]]%lookup_insert_Some]; [lia|]. specialize (F x ltac:(by eexists)). lia.
  - intros x [y [[<- _]|[_ Hx]]%lookup_insert_Some]; [exists a; apply Hu; auto|].
    destruct (O x ltac:(by eexists)) as [o Ho]. exists o. apply Hu. auto.
  - intros o x [Hx|[-> _]]%Hu; [|by rewrite lookup_insert_eq]. rewrite lookup_insert_ne; [by apply (L o)|]. intros <-. by apply (Hn o).
  - intros o o' x [Hx|[-> ->]]%Hu [Hx'|[E E']]%Hu; [by eapply U|subst; by destruct (Hn o)|by destruct (Hn o')|done].
Qed.

Lemma foldr_delete_live (l : list nat) live x : foldr delete live l !! x = if decide (x ∈ l) then None else live !! x.
Proof.
  induction l as [|y l IH]; cbn; [by rewrite decide_False by apply not_elem_of_nil|].
  destruct (decide (x = y)) as [->|Hne].
  - rewrite lookup_delete_eq, decide_True; [done|apply list_elem_of_here].
  - rewrite lookup_delete_ne, IH by done. repeat case_decide; set_solver.
Qed.

(** [a] closes all it holds. *)
Lemma owns_close live next H a l :
  (∀ x, x ∈ l ↔ x ∈ H a) → owns live next H → owns (foldr delete live l) next (upd H a []).
Proof.
  intros Hl [F O L U].
  assert (∀ x, is_Some (foldr delete live l !! x) ↔ is_Some (live !! x) ∧ x ∉ H a) as Hlive.
  { intros x. rewrite foldr_delete_live. case_decide as E; rewrite Hl in E; [|tauto]. split; [by intros []%is_Some_None|tauto]. }
  assert (∀ o x, x ∈ upd H a [] o ↔ x ∈ H o ∧ o ≠ a) as Hu.
  { intros o x. unfold upd. case_decide as E; [subst; split; [by intros []%not_elem_of_nil|tauto]|tauto]. }
  split.
  - intros x [Hx _]%Hlive. by apply F.
  - intros x [Hx Hn]%Hlive. destruct (O x Hx) as [o Ho]. exists o. apply Hu. split; [done|]. by intros ->.
  - intros o x [Hx Ho]%Hu. apply Hlive. split; [by apply (L o)|]. intros Ha. apply Ho. by apply (U o a x).
  - intros o o' x [Hx _]%Hu [Hx' _]%Hu. by apply (U o o' x).
Qed.

(** What [b] holds goes to [a]. *)
Lemma owns_move live next H a b :
  a ≠ b → H a = [] → owns live next H → owns live next (upd (upd H a (H b)) b []).
Proof.
  intros Hab Ha [F O L U].
  assert (∀ o x, x ∈ upd (upd H a (H b)) b [] o ↔ (x ∈ H o ∧ o ≠ b) ∨ (o = a ∧ x ∈ H b)) as Hu.
  { intros o x. unfold upd. repeat case_decide; subst; rewrite ?Ha; set_solver. }
  split; [done| | |].
  - intros x Hx. destruct (O x Hx) as [o Ho]. destruct (decide (o = b)) as [->|Hne]; [exists a|exists o]; apply Hu; auto.
  - intros o x [[Hx _]|[_ Hx]]%Hu; by eapply L.
  - intros o o' x [[Hx Ho]|[-> Hx]]%Hu [[Hx' Ho']|[-> Hx']]%Hu; [by eapply U| | |done].
    + exfalso. apply Ho. by apply (U o b x).
    + exfalso. apply Ho'. by apply (U o' b x).
Qed.
End owns.

(** ** The invariant of calm service *)

Section calm.
Context {bucket : Type → Type} `{BoltOps bucket} {B : Type} `{BackendOps B} {blake3 : Blake3}.
Context {callback handler Aws Df : Type}.
Abbreviation run := (csiRun bucket B Aws Df).
Abbreviation step_of := (csi_advance (callback := callback) (handler := handler) (bucket := bucket) (B := B) (Aws := Aws) (Df := Df)).
Implicit Types (w : csiWorld) (ths : gmap nat csiThread) (o : run).

Lemma holding_step w w' ths t th' :
  ns_mounts (cw_node w') = ns_mounts (cw_node w) →
  ∀ a, holding w' (<[t := th']> ths) a = upd (holding w ths) (inr t) (thread_handles th') a.
Proof.
  intros Hm [target|u]; unfold holding, upd; [by rewrite Hm, decide_False|].
  destruct (decide (u = t)) as [->|Hne]; [by rewrite lookup_insert_eq, decide_True|].
  by rewrite lookup_insert_ne, decide_False by congruence.
Qed.

Lemma parts_same live live' repo closers :
  (∀ x, x ∈ option_list repo ++ closers → live' !! x = live !! x) → parts_ok live repo closers → parts_ok live' repo closers.
Proof.
  intros E [Hr Hc]. split.
  - intros x ->. rewrite E by (cbn; apply list_elem_of_here). by apply Hr.
  - rewrite Forall_forall in *. intros x Hx. unfold closer_ok. rewrite E by (apply elem_of_app; auto). by apply Hc.
Qed.

Lemma mount_same live live' target m :
  (∀ x, x ∈ handles m → live' !! x = live !! x) → mount_ok live target m → mount_ok live' target m.
Proof.
  intros E [Hp Hs]. unfold handles in E. split.
  - eapply parts_same; [|done]. intros x Hx. apply E. set_solver.
  - rewrite E; [done|set_solver].
Qed.

Lemma typed_same live live' th :
  (∀ x, x ∈ thread_handles th → live' !! x = live !! x) → thread_typed live th → thread_typed live' th.
Proof.
  destruct th; cbn [thread_handles thread_typed]; try done; intros E; [by apply parts_same|by apply mount_same].
Qed.

(** One call's step, as the others see it. *)
Lemma calm_step w w' ths t th th' :
  calm_ok w ths → ths !! t = Some th →
  owns (cw_live w') (cw_next w') (holding w' (<[t := th']> ths)) →
  (∀ a x, a ≠ inr t → x ∈ holding w ths a → cw_live w' !! x = cw_live w !! x) →
  thread_typed (cw_live w') th' →
  (∀ target m, ns_mounts (cw_node w') !! target = Some m →
     ns_mounts (cw_node w) !! target = Some m ∨ past_check target th ∧ ¬ past_check target th' ∧ mount_ok (cw_live w') target m) →
  (∀ target, past_check target th' → ns_mounts (cw_node w') !! target = None) →
  (∀ target, publishing target th' → publishing target th) →
  calm_ok w' (<[t := th']> ths).
Proof.
  intros [O F S M T] Ht HO Hsame Htyped Hmounts Hfree Hpub. split; [done|..].
  - intros u x target [[<- <-]|[Hne Hu]]%lookup_insert_Some Hpast; [by apply Hfree|].
    destruct (ns_mounts (cw_node w') !! target) as [m|] eqn:Hm; [|done]. exfalso.
    pose proof (F u x target Hu Hpast) as Hn. destruct (Hmounts target m Hm) as [?|(Hp & _)]; [congruence|].
    apply Hne. apply (S t u th x target); [done..| |].
    + by destruct th.
    + by destruct x.
  - intros u u' x x' target [[<- <-]|[Hne Hu]]%lookup_insert_Some [[<- <-]|[Hne' Hu']]%lookup_insert_Some Hp Hp'; [done|..|by eapply S].
    + apply (S t u' th x' target); auto.
    + apply (S u t x th target); auto.
  - intros target m Hm. destruct (Hmounts target m Hm) as [Hold|(_ & _ & Hok)]; [|done].
    eapply mount_same; [|by apply M]. intros x Hx. apply (Hsame (inl target)); [done|]. cbn. by rewrite Hold.
  - intros u x [[<- <-]|[Hne Hu]]%lookup_insert_Some; [done|]. eapply typed_same; [|by eapply T].
    intros y Hy. apply (Hsame (inr u)); [congruence|]. cbn. by rewrite Hu.
Qed.

(** A step that leaves the table alone. *)
Lemma calm_local w w' ths t th th' :
  calm_ok w ths → ths !! t = Some th → ns_mounts (cw_node w') = ns_mounts (cw_node w) →
  owns (cw_live w') (cw_next w') (upd (holding w ths) (inr t) (thread_handles th')) →
  (∀ a x, a ≠ inr t → x ∈ holding w ths a → cw_live w' !! x = cw_live w !! x) →
  thread_typed (cw_live w') th' → (∀ target, past_check target th' → past_check target th ∨ ns_mounts (cw_node w) !! target = None) →
  (∀ target, publishing target th' → publishing target th) →
  calm_ok w' (<[t := th']> ths).
Proof.
  intros Hok Ht Hm HO Hsame Htyped Hpast Hpub. eapply calm_step; try done.
  - eapply owns_ext; [|exact HO]. intros a x. by rewrite (holding_step w w') by done.
  - intros target m. rewrite Hm. auto.
  - intros target Hp. rewrite Hm. destruct (Hpast target Hp) as [?|?]; [by eapply (ca_free _ _ Hok)|done].
Qed.

Lemma live_open w r x : (x < cw_next w)%nat → cw_live (cw_open r w) !! x = cw_live w !! x.
Proof. intros Hx. cbn. apply lookup_insert_ne. lia. Qed.

Lemma live_close w l x : x ∉ l → cw_live (cw_close l w) !! x = cw_live w !! x.
Proof. intros Hx. cbn. rewrite foldr_delete_live. by rewrite decide_False. Qed.

Lemma held_below w ths a x : calm_ok w ths → x ∈ holding w ths a → (x < cw_next w)%nat.
Proof. intros Hok Hx. apply (ow_fresh _ _ _ (ca_owns _ _ Hok)). by eapply (ow_live _ _ _ (ca_owns _ _ Hok)). Qed.

Lemma held_apart w ths a a' x : calm_ok w ths → a ≠ a' → x ∈ holding w ths a → x ∉ holding w ths a'.
Proof. intros Hok Hne Hx Hx'. apply Hne. by eapply (ow_one _ _ _ (ca_owns _ _ Hok)). Qed.

(** Comparing who holds what. *)
Ltac holders := let b := fresh in let x := fresh in intros b x; unfold upd; repeat case_decide; subst; try done; set_solver.

Lemma own_nothing w ths t th :
  calm_ok w ths → ths !! t = Some th → thread_handles th = [] → owns (cw_live w) (cw_next w) (upd (holding w ths) (inr t) []).
Proof.
  intros Hok Ht Hth. eapply owns_ext; [|exact (ca_owns _ _ Hok)]. intros a x. unfold upd. case_decide; [|done].
  subst a. cbn. by rewrite Ht, Hth.
Qed.

(** A call that holds nothing and opens nothing. *)
Lemma calm_quiet w ths t th th' :
  calm_ok w ths → ths !! t = Some th → thread_handles th = [] → thread_handles th' = [] → thread_typed (cw_live w) th' →
  (∀ target, past_check target th' → past_check target th ∨ ns_mounts (cw_node w) !! target = None) →
  (∀ target, publishing target th' → publishing target th) → calm_ok w (<[t := th']> ths).
Proof.
  intros Hok Ht Hth Hth' Htyped Hpast Hpub. eapply calm_local; try done. rewrite Hth'. by eapply own_nothing.
Qed.

(** A call that holds nothing opens a resource. *)
Lemma own_one w ths t th r :
  calm_ok w ths → ths !! t = Some th → thread_handles th = [] →
  owns (cw_live (cw_open r w)) (cw_next (cw_open r w)) (upd (holding w ths) (inr t) [cw_next w]).
Proof.
  intros Hok Ht Hth. pose proof (owns_open _ _ _ (inr t) r (own_nothing w ths t th Hok Ht Hth)) as Ho.
  eapply owns_ext; [|exact Ho]. holders.
Qed.

(** ... or two. *)
Lemma own_two w ths t th r r' :
  calm_ok w ths → ths !! t = Some th → thread_handles th = [] →
  let w2 := cw_open r' (cw_open r w) in
  owns (cw_live w2) (cw_next w2) (upd (holding w ths) (inr t) [S (cw_next w); cw_next w]).
Proof.
  intros Hok Ht Hth w2. pose proof (owns_open _ _ _ (inr t) r' (own_one w ths t th r Hok Ht Hth)) as Ho.
  eapply owns_ext; [|exact Ho]. holders.
Qed.

(** What was opened is closed again. *)
Lemma own_closed w2 (H2 : (bytes + nat) → list nat) t l :
  owns (cw_live w2) (cw_next w2) (upd H2 (inr t) l) →
  owns (cw_live (cw_close l w2)) (cw_next w2) (upd H2 (inr t) []).
Proof.
  intros Ho. eapply owns_ext; [|apply (owns_close _ _ (upd H2 (inr t) l) (inr t) l); [|exact Ho]].
  - holders.
  - intros x. unfold upd. by rewrite decide_True.
Qed.

Lemma calm_mds o w ths t req dir p th' w' :
  calm_ok w ths → ths !! t = Some (CChecked req dir p) → publishViaMDS o req dir p w = (th', w') → calm_ok w' (<[t := th']> ths).
Proof.
  intros Hok Ht. unfold publishViaMDS. destruct (cr_dial o); [intros [= <- <-]; by eapply calm_quiet|]. cbv zeta.
  assert (∀ a x, x ∈ holding w ths a → (x < cw_next w)%nat) as Hlt by (intros a x; by apply held_below).
  destruct (cr_subscribe o).
  { intros [= <- <-]. eapply (calm_local w); try done.
    - apply (own_closed (cw_open ResConn w) (holding w ths) t [cw_next w]). by eapply own_one.
    - intros a x _ Hx%Hlt. rewrite live_close; [|rewrite list_elem_of_singleton; lia]. by apply live_open. }
  set (r' := ResClient _). destruct (OpenBackend _ _ _) as [b|e]; intros [= <- <-].
  - eapply (calm_local w); [done|exact Ht|done|..].
    + by eapply own_two.
    + intros a x _ Hx%Hlt. rewrite live_open by (cbn; lia). by apply live_open.
    + split; [done|]. constructor; [right; eexists; by cbn; rewrite lookup_insert_eq|]. constructor; [|done]. left. cbn.
      by rewrite lookup_insert_ne, lookup_insert_eq by lia.
    + intros target Hp. by left.
    + done.
  - eapply (calm_local w); try done.
    + apply (own_closed (cw_open r' (cw_open ResConn w)) (holding w ths) t [S (cw_next w); cw_next w]). by eapply own_two.
    + intros a x _ Hx%Hlt. rewrite live_close; [|cbn; rewrite elem_of_cons, list_elem_of_singleton; lia].
      rewrite live_open by (cbn; lia). by apply live_open.
Qed.

Lemma calm_open o w ths t req dir p th' w' :
  calm_ok w ths → ths !! t = Some (CChecked req dir p) →
  publish_open (callback := callback) (handler := handler) o req dir p w = (th', w') → calm_ok w' (<[t := th']> ths).
Proof.
  intros Hok Ht. unfold publish_open. destruct (cr_mkdir o); [intros [= <- <-]; by eapply calm_quiet|].
  case_bool_decide; cbn [negb]; [|by apply calm_mds].
  destruct (open_Open _ _ _) as [r|]; [|intros [= <- <-]; by eapply calm_quiet]. cbv zeta.
  assert (∀ a x, x ∈ holding w ths a → (x < cw_next w)%nat) as Hlt by (intros a x; by apply held_below).
  destruct (_ && _); intros [= <- <-].
  - eapply (calm_local w); try done.
    + apply (own_closed (cw_open (ResRepo (r_Class r)) w) (holding w ths) t [cw_next w]). by eapply own_one.
    + intros a x _ Hx%Hlt. rewrite live_close; [|rewrite list_elem_of_singleton; lia]. by apply live_open.
  - eapply (calm_local w); [done|exact Ht|done|..].
    + by eapply own_one.
    + intros a x _ Hx%Hlt. by apply live_open.
    + split; [|constructor]. intros x [= <-]. exists (r_Class r). cbn. by rewrite lookup_insert_eq.
    + intros target Hp. by left.
    + done.
Qed.

(** A call closes all it holds. *)
Lemma calm_close w ths t th l res :
  calm_ok w ths → ths !! t = Some th → (∀ x, x ∈ l ↔ x ∈ thread_handles th) → calm_ok (cw_close l w) (<[t := CEnd res]> ths).
Proof.
  intros Hok Ht Hl. assert (∀ x, x ∈ l ↔ x ∈ holding w ths (inr t)) as Hl' by (intros x; cbn; by rewrite Ht).
  eapply (calm_local w); try done.
  - apply owns_close; [done|apply (ca_owns _ _ Hok)].
  - intros a x Hne Hx. apply live_close. rewrite Hl'. by eapply held_apart.
Qed.

Lemma calm_mount o w ths t req repo closers class th' w' :
  calm_ok w ths → ths !! t = Some (CMounting req repo closers class) → cr_mount o ≠ TimedOut true →
  publish_mount o req repo closers class w = (th', w') → calm_ok w' (<[t := th']> ths).
Proof.
  intros Hok Ht Hlate. unfold publish_mount. destruct (cr_mount o) as [| |late].
  - intros [= <- <-]. set (r := ResMount _ _ _ _).
    assert (∀ a x, x ∈ holding w ths a → (x < cw_next w)%nat) as Hlt by (intros a x; by apply held_below).
    eapply (calm_local w); [done|exact Ht|done|..].
    + pose proof (owns_open _ _ _ (inr t) r (ca_owns _ _ Hok)) as Ho. eapply owns_ext; [|exact Ho].
      intros a x. unfold upd. case_decide; [|done]. subst a. cbn. rewrite Ht. unfold handles. cbn. set_solver.
    + intros a x _ Hx%Hlt. by apply live_open.
    + split; [|eexists _, _, _; cbn; by rewrite lookup_insert_eq].
      eapply parts_same; [|by apply (ca_threads _ _ Hok _ _ Ht)]. intros x Hx. apply live_open, (Hlt (inr t)). cbn. by rewrite Ht.
    + intros target Hp. by left.
    + done.
  - intros [= <- <-]. eapply calm_close; [done|exact Ht|]. intros x. cbn. rewrite !elem_of_app. tauto.
  - destruct late; [done|]. intros [= <- <-]. eapply calm_close; [done|exact Ht|]. intros x. cbn. rewrite !elem_of_app. tauto.
Qed.

Lemma calm_register w ths t req m :
  calm_ok w ths → ths !! t = Some (CMounted req m) → calm_ok (publish_register req m w) (<[t := CEnd (Ok tt)]> ths).
Proof.
  intros Hok Ht. pose proof (ca_free _ _ Hok t _ (pq_TargetPath req) Ht eq_refl) as Hfree. set (target := pq_TargetPath req) in *.
  eapply (calm_step w); [done|exact Ht|..]; cbn [publish_register set_cw_mounts cw_live cw_next cw_node ns_mounts]; fold target; try done.
  - pose proof (owns_move (cw_live w) (cw_next w) (holding w ths) (inl target) (inr t)) as Hmove.
    eapply owns_ext; [|apply Hmove; [done|cbn; by rewrite Hfree|apply (ca_owns _ _ Hok)]].
    intros [tg|u] x; unfold upd; cbn; fold target.
    + destruct (decide (tg = target)) as [->|Hne].
      * rewrite decide_False, decide_True, lookup_insert_eq, Ht by done. done.
      * rewrite !decide_False, lookup_insert_ne by congruence. done.
    + destruct (decide (u = t)) as [->|Hne].
      * rewrite decide_True, lookup_insert_eq by done. done.
      * rewrite !decide_False, lookup_insert_ne by congruence. done.
  - intros tg m' [[<- <-]|[_ Hm]]%lookup_insert_Some; [|by left]. right. split_and!; [done|by intros []|].
    apply (ca_threads _ _ Hok _ _ Ht).
Qed.

Lemma calm_take w ths t target th' w' :
  calm_ok w ths → ths !! t = Some (CUnpublish target) → unpublish_take target w = (th', w') → calm_ok w' (<[t := th']> ths).
Proof.
  intros Hok Ht. unfold unpublish_take. case_bool_decide; [intros [= <- <-]; by eapply calm_quiet|].
  destruct (ns_mounts (cw_node w) !! target) as [m|] eqn:Hm; [|intros [= <- <-]; by eapply calm_quiet]. intros [= <- <-].
  eapply (calm_step w); [done|exact Ht|..]; cbn [set_cw_mounts cw_live cw_next cw_node ns_mounts]; try done.
  - pose proof (owns_move (cw_live w) (cw_next w) (holding w ths) (inr t) (inl target)) as Hmove.
    eapply owns_ext; [|apply Hmove; [done|cbn; by rewrite Ht|apply (ca_owns _ _ Hok)]].
    intros [tg|u] x; unfold upd; cbn.
    + destruct (decide (tg = target)) as [->|Hne].
      * rewrite decide_True, lookup_delete_eq by done. done.
      * rewrite !decide_False, lookup_delete_ne by congruence. done.
    + destruct (decide (u = t)) as [->|Hne].
      * rewrite decide_False, decide_True, lookup_insert_eq, Hm by done. done.
      * rewrite !decide_False, lookup_insert_ne by congruence. done.
  - intros tg m' [_ Hm']%lookup_delete_Some. by left.
Qed.

Lemma close_close l l' w : cw_close l (cw_close l' w) = cw_close (l ++ l') w.
Proof. unfold cw_close, set_cw_live. cbn. by rewrite foldr_app. Qed.

Lemma calm_unmount o w ths t m th' w' :
  calm_ok w ths → ths !! t = Some (CUnmounting m) → cr_unmount o = None → unpublish_close o m w = (th', w') →
  calm_ok w' (<[t := th']> ths).
Proof.
  intros Hok Ht Hu. unfold unpublish_close. rewrite Hu. cbv zeta. destruct (am_repo m) as [r|] eqn:Hr.
  - rewrite close_close. intros [= <- <-]. eapply calm_close; [done|exact Ht|]. intros x. cbn. unfold handles. rewrite Hr. set_solver.
  - intros [= <- <-]. eapply calm_close; [done|exact Ht|]. intros x. cbn. unfold handles. rewrite Hr. set_solver.
Qed.

Lemma calm_check w ths t req :
  calm_ok w ths → ths !! t = Some (CPublish req) → calm_ok w (<[t := publish_check req w]> ths).
Proof.
  intros Hok Ht. unfold publish_check. repeat (case_bool_decide; [by eapply calm_quiet|]).
  destruct (_ && _); [by eapply calm_quiet|]. destruct (ParamsFromMap _) as [[dir p]|]; [|by eapply calm_quiet].
  destruct (ns_mounts (cw_node w) !! pq_TargetPath req) eqn:Hm; [by eapply calm_quiet|].
  eapply calm_quiet; [done|exact Ht|done|done|done| |done]. intros target <-. by right.
Qed.

(** A new call. *)
Lemma calm_new w ths t th :
  calm_ok w ths → ths !! t = None → thread_handles th = [] → (∀ target, ¬ past_check target th) → thread_typed (cw_live w) th →
  (∀ target, publishing target th → ∀ t' th', ths !! t' = Some th' → ¬ publishing target th') → calm_ok w (<[t := th]> ths).
Proof.
  intros [O F S M T] Ht Hh Hp Hty Hpub. split; [| | |done|].
  - eapply owns_ext; [|exact O]. intros [tg|u] x; [done|]. cbn. destruct (decide (u = t)) as [->|Hne].
    + by rewrite lookup_insert_eq, Ht, Hh.
    + by rewrite lookup_insert_ne.
  - intros u x target [[<- <-]|[_ Hu]]%lookup_insert_Some Hx; [by destruct (Hp target)|by eapply F].
  - intros u u' x x' target [[<- <-]|[Hne Hu]]%lookup_insert_Some [[<- <-]|[Hne' Hu']]%lookup_insert_Some Hx Hx'; [done|..|by eapply S].
    + by destruct (Hpub target Hx u' x').
    + by destruct (Hpub target Hx' u x).
  - intros u x [[<- <-]|[_ Hu]]%lookup_insert_Some; [done|by eapply T].
Qed.

Lemma serving_calm w ths :
  serving (callback := callback) (handler := handler) (bucket := bucket) (B := B) (Aws := Aws) (Df := Df) true w ths → calm_ok w ths.
Proof.
  induction 1 as [id|w ths t req _ IH Ht Hfree|w ths t target _ IH Ht|w ths t th o th' w' _ IH Ht Hcalm Hadv].
  - split; try done. split; cbn [cw_live cw_next].
    + intros x. rewrite lookup_empty. by intros []%is_Some_None.
    + intros x. rewrite lookup_empty. by intros []%is_Some_None.
    + intros [tg|u] x Hx; by apply not_elem_of_nil in Hx.
    + intros [tg|u] a x Hx; by apply not_elem_of_nil in Hx.
  - apply calm_new; [done|done|done|by intros ? []|done|]. cbn [publishing]. intros target <- t' th'. by apply Hfree.
  - apply calm_new; [done|done|done|by intros ? []|done|by intros ? []].
  - destruct (Hcalm eq_refl) as [Hu Hl].
    destruct th as [req|req dir p|req repo closers class|req m|target|m|res]; cbn [csi_advance] in Hadv; try done.
    + injection Hadv as <- <-. by eapply calm_check.
    + injection Hadv as Hadv. by eapply calm_open.
    + injection Hadv as Hadv. by eapply calm_mount.
    + injection Hadv as <- <-. by apply calm_register.
    + injection Hadv as Hadv. by eapply calm_take.
    + injection Hadv as Hadv. by eapply calm_unmount.
Qed.

(** *** Access *)

Lemma mounts_access_open w r :
  mounts_access (cw_live w) → (∀ target wr req class, r = ResMount target wr req class →
    asked_well req ∧ class_well req class ∧ target = pq_TargetPath req ∧ wr = mount_writable req class) →
  mounts_access (cw_live (cw_open r w)).
Proof.
  intros Hm Hr x target wr req class. cbn [cw_open cw_live]. intros [[_ E]|[_ Hx]]%lookup_insert_Some; [by apply Hr|by eapply Hm].
Qed.

Lemma mounts_access_close w l : mounts_access (cw_live w) → mounts_access (cw_live (cw_close l w)).
Proof.
  intros Hm x target wr req class. cbn. rewrite foldr_delete_live. case_decide; [done|]. apply Hm.
Qed.

Lemma check_access req w : access_ok (publish_check req w).
Proof.
  unfold publish_check. repeat (case_bool_decide; [done|]). destruct (isReadOnlyRequest req) eqn:Hr, (disjointWriters req) eqn:Hd; cbn [negb andb]; try done.
  all: destruct (ParamsFromMap _) as [[dir p]|]; [|done]; destruct (_ !! _); [done|]; cbn; unfold asked_well; auto.
Qed.

Lemma open_access o req dir p w th' w' :
  asked_well req → mounts_access (cw_live w) →
  publish_open (callback := callback) (handler := handler) o req dir p w = (th', w') →
  access_ok th' ∧ mounts_access (cw_live w').
Proof.
  intros Hask Hm. unfold publish_open, publishViaMDS. destruct (cr_mkdir o); [by intros [= <- <-]|].
  case_bool_decide; cbn [negb].
  - destruct (open_Open _ _ _) as [r|]; [|by intros [= <- <-]]. cbv zeta.
    assert (mounts_access (cw_live (cw_open (ResRepo (r_Class r)) w))) as Hopen by by apply mounts_access_open.
    destruct (isReadOnlyRequest req) eqn:Hro; cbn [negb andb].
    + intros [= <- <-]. split; [|done]. split; [done|by left].
    + case_bool_decide; cbn [negb]; intros [= <- <-]; [|by split; [|apply mounts_access_close]].
      split; [|done]. split; [done|]. right. by intros c [= <-].
  - destruct (cr_dial o); [by intros [= <- <-]|]. cbv zeta.
    assert (mounts_access (cw_live (cw_open ResConn w))) as Hopen by by apply mounts_access_open.
    destruct (cr_subscribe o); [intros [= <- <-]; split; [done|by apply mounts_access_close]|].
    set (w2 := cw_open (ResClient _) _). assert (mounts_access (cw_live w2)) as Hopen2 by by apply mounts_access_open.
    destruct (OpenBackend _ _ _); intros [= <- <-]; [|by split; [|apply mounts_access_close]].
    split; [|done]. split; [done|]. by right.
Qed.

Lemma mount_access o req repo closers class w th' w' :
  asked_well req → class_well req class → mounts_access (cw_live w) → publish_mount o req repo closers class w = (th', w') →
  access_ok th' ∧ mounts_access (cw_live w').
Proof.
  intros Hask Hcl Hm. unfold publish_mount. set (r := ResMount _ _ _ _).
  assert (∀ w, mounts_access (cw_live w) → mounts_access (cw_live (cw_open r w))) as Hopen.
  { intros w2 Hw2. apply mounts_access_open; [done|]. intros target wr req' class' [= <- <- <- <-]. done. }
  destruct (cr_mount o) as [| |late]; intros [= <- <-].
  - split; [done|by apply Hopen].
  - split; [done|by apply mounts_access_close].
  - split; [done|]. destruct late; [apply Hopen|]; by apply mounts_access_close.
Qed.

Lemma serving_access calm w ths :
  serving (callback := callback) (handler := handler) (bucket := bucket) (B := B) (Aws := Aws) (Df := Df) calm w ths →
  mounts_access (cw_live w) ∧ ∀ t th, ths !! t = Some th → access_ok th.
Proof.
  induction 1 as [id|w ths t req _ [Hm IH] Ht Hfree|w ths t target _ [Hm IH] Ht|w ths t th o th' w' _ [Hm IH] Ht Hcalm Hadv].
  - split; [|done]. intros x target wr req class. cbn [cw_live]. by rewrite lookup_empty.
  - split; [done|]. intros u x [[<- <-]|[_ Hu]]%lookup_insert_Some; [done|by eapply IH].
  - split; [done|]. intros u x [[<- <-]|[_ Hu]]%lookup_insert_Some; [done|by eapply IH].
  - assert (mounts_access (cw_live w') ∧ access_ok th') as [Hm' Ha].
    { pose proof (IH t th Ht) as Hth. destruct th as [req|req dir p|req repo closers class|req m|target|m|res]; cbn [csi_advance] in Hadv; try done.
      - injection Hadv as <- <-. split; [done|apply check_access].
      - injection Hadv as Hadv. by destruct (open_access o req dir p w th' w' Hth Hm Hadv).
      - injection Hadv as Hadv. destruct Hth as [Hask Hcl]. by destruct (mount_access o req repo closers class w th' w' Hask Hcl Hm Hadv).
      - by injection Hadv as <- <-.
      - injection Hadv as Hadv. unfold unpublish_take in Hadv. case_bool_decide; [by injection Hadv as <- <-|].
        destruct (ns_mounts (cw_node w) !! target); by injection Hadv as <- <-.
      - injection Hadv as Hadv. unfold unpublish_close in Hadv. destruct (cr_unmount o); [by injection Hadv as <- <-|].
        destruct (am_repo m); injection Hadv as <- <-; split; try done; repeat apply mounts_access_close; done. }
    split; [done|]. intros u x [[<- <-]|[_ Hu]]%lookup_insert_Some; [done|by eapply IH].
Qed.
End calm.

(** ** Properties *)

Section properties.
Context {bucket : Type → Type} `{BoltOps bucket} {B : Type} `{BackendOps B} {blake3 : Blake3}.
Context {callback handler Aws Df : Type}.
Abbreviation service := (serving (callback := callback) (handler := handler) (bucket := bucket) (B := B) (Aws := Aws) (Df := Df)).

(** C31: However calls interleave and fail, whatever is mounted for a
    request that wants to write has the disjoint-writers contract declared
    and, when a local repository backs it, a repository of the relaxed
    class; every mount is at the path of its request. *)
Theorem write_access_needs_contract calm w ths x target wr req class :
  service calm w ths → cw_live w !! x = Some (ResMount target wr req class) →
  target = pq_TargetPath req ∧
  (isReadOnlyRequest req = false → disjointWriters req = true ∧ ∀ c, class = Some c → c = ClassRelaxed).
Proof.
  intros [Hm _]%serving_access Hx. destruct (Hm _ _ _ _ _ Hx) as (Hask & Hcl & -> & _). split; [done|].
  intros Hro. destruct Hask as [?|?], Hcl as [?|?]; congruence || done.
Qed.

(** C30: In calm service nothing leaks: once every call has ended, what is
    open is exactly what the mounts of the table hold, each resource held by
    one mount, and each path has one live mount if it is in the table and
    none otherwise. *)
Theorem calm_service_leaks_nothing w ths :
  service true w ths → (∀ t th, ths !! t = Some th → ended th) →
  (∀ x, is_Some (cw_live w !! x) ↔ ∃ target m, ns_mounts (cw_node w) !! target = Some m ∧ x ∈ handles m) ∧
  (∀ target target' m m' x, ns_mounts (cw_node w) !! target = Some m → ns_mounts (cw_node w) !! target' = Some m' →
     x ∈ handles m → x ∈ handles m' → target = target') ∧
  (∀ target x, (∃ wr req class, cw_live w !! x = Some (ResMount target wr req class)) ↔
     ∃ m, ns_mounts (cw_node w) !! target = Some m ∧ x = am_server m).
Proof.
  intros Hok%serving_calm Hend. destruct (ca_owns _ _ Hok) as [F O L U].
  assert (∀ t, holding w ths (inr t) = []) as Hidle.
  { intros t. cbn. destruct (ths !! t) as [th|] eqn:Ht; [|done]. specialize (Hend t th Ht). by destruct th. }
  assert (∀ x, is_Some (cw_live w !! x) ↔ ∃ target m, ns_mounts (cw_node w) !! target = Some m ∧ x ∈ handles m) as Hlive.
  { intros x. split.
    - intros [[target|t] Hx]%O; [|rewrite Hidle in Hx; by apply not_elem_of_nil in Hx]. cbn in Hx.
      destruct (ns_mounts (cw_node w) !! target) as [m|] eqn:Hm; [by exists target, m|by apply not_elem_of_nil in Hx].
    - intros (target & m & Hm & Hx). apply (L (inl target)). cbn. by rewrite Hm. }
  assert (∀ target target' m m' x, ns_mounts (cw_node w) !! target = Some m → ns_mounts (cw_node w) !! target' = Some m' →
    x ∈ handles m → x ∈ handles m' → target = target') as Hone.
  { intros target target' m m' x Hm Hm' Hx Hx'. assert (inl target = inl (B := nat) target') as [= ->]; [|done].
    apply (U _ _ x); cbn; by rewrite ?Hm, ?Hm'. }
  split_and!; [done..|]. intros target x. split.
  - intros (wr & req & class & Hx). destruct (proj1 (Hlive x)) as (target' & m & Hm & Hin); [by eexists|].
    destruct (ca_mounts _ _ Hok _ _ Hm) as [[Hr Hc] (wr' & req' & class' & Hs)]. exists m.
    unfold handles in Hin. rewrite !elem_of_app, list_elem_of_singleton in Hin. destruct Hin as [Hin|[Hin| ->]].
    + destruct (am_repo m) as [r|]; [|by apply not_elem_of_nil in Hin]. apply list_elem_of_singleton in Hin as ->.
      destruct (Hr r eq_refl) as [c Hc']. congruence.
    + rewrite Forall_forall in Hc. destruct (Hc x Hin) as [?|[h ?]]; congruence.
    + split; [congruence|done].
  - intros (m & Hm & ->). by destruct (ca_mounts _ _ Hok _ _ Hm) as [_ Hs].
Qed.
End properties.
