(* ===== verification/CsiDemo.v ===== *)
(** A node to run the theorems on.

    A volume of a relaxed repository is published at /mnt/a and unpublished:
    once undisturbed; once twice at the same time; once with an unmount that
    fails. *)
From S2P Require Import Prelude Bolt Chunk Store Pack MetaDB Coherence RepoUtil Repo MdsServer Repoopen RepoopenThm CsiDriver CsiThm.

Abbreviation csi_run := (csiRun MapBolt.mapb MemBackend.mem unit unit).
Abbreviation csi_step := (csi_advance (callback := unit) (handler := unit) (bucket := MapBolt.mapb) (B := MemBackend.mem) (Aws := unit) (Df := unit)).
Abbreviation csi_service := (serving (callback := unit) (handler := unit) (bucket := MapBolt.mapb) (B := MemBackend.mem) (Aws := unit) (Df := unit)).

Definition csi_target : bytes := str "/mnt/a".
Definition csi_context : gmap bytes bytes :=
  list_to_map [(KeyRepoPath, str "/var/atlas"); (KeyClass, ClassRelaxed); (str "rwxContract", rwxContractDisjointWriters)].
Definition csi_write : publishRequest := mkPublishRequest (str "vol") csi_target false (Some MULTI_NODE_MULTI_WRITER) csi_context.
Definition csi_read : publishRequest := mkPublishRequest (str "vol") csi_target true (Some MULTI_NODE_READER_ONLY) csi_context.

(** Everything works, or the unmount fails. *)
Definition csi_fine : csi_run := mkCsiRun demo_env None None None Mounted None None.
Definition csi_busy : csi_run := mkCsiRun demo_env None None None Mounted (Some (SysErrno 16)) None.

Definition csi_boot : csiWorld := mkCsiWorld (NewNodeServer (str "node")) ∅ 0.

(** A script: new calls and steps. *)
Inductive csi_move := MPublish (t : nat) (req : publishRequest) | MUnpublish (t : nat) (target : bytes) | MStep (t : nat) (fine : bool).
Definition play_one (mv : csi_move) (w : csiWorld) (ths : gmap nat csiThread) : option (csiWorld * gmap nat csiThread) :=
  match mv with
  | MPublish t req => match ths !! t with None => Some (w, <[t := CPublish req]> ths) | Some _ => None end
  | MUnpublish t target => match ths !! t with None => Some (w, <[t := CUnpublish target]> ths) | Some _ => None end
  | MStep t fine =>
      match ths !! t with
      | Some th => match csi_step (if fine then csi_fine else csi_busy) th w with
                   | Some (th', w') => Some (w', <[t := th']> ths)
                   | None => None
                   end
      | None => None
      end
  end.
Fixpoint play (l : list csi_move) (w : csiWorld) (ths : gmap nat csiThread) : option (csiWorld * gmap nat csiThread) :=
  match l with
  | [] => Some (w, ths)
  | mv :: l' => match play_one mv w ths with Some (w, ths) => play l' w ths | None => None end
  end.
Definition played (l : list csi_move) : csiWorld * gmap nat csiThread := default (csi_boot, ∅) (play l csi_boot ∅).

Definition steps (t : nat) (n : nat) : list csi_move := replicate n (MStep t true).

Definition csi_published : csiWorld * gmap nat csiThread := played (MPublish 0 csi_write :: steps 0 4).
Definition csi_published_ro : csiWorld * gmap nat csiThread := played (MPublish 0 csi_read :: steps 0 4).
(** Two publications at once, and one unpublication. *)
Definition csi_twice : csiWorld * gmap nat csiThread :=
  played ([MPublish 0 csi_write; MPublish 1 csi_write] ++ steps 0 1 ++ steps 1 1 ++ steps 0 3 ++ steps 1 3 ++ MUnpublish 2 csi_target :: steps 2 2).
(** The unmount fails, and is tried again. *)
Definition csi_stuck : csiWorld * gmap nat csiThread :=
  played (MPublish 0 csi_write :: steps 0 4 ++ MUnpublish 1 csi_target :: MStep 1 true :: MStep 1 false :: MUnpublish 2 csi_target :: steps 2 1).

(** A script in which publications do not overlap and nothing fails. *)
Definition calm_move (mv : csi_move) (ths : gmap nat csiThread) : bool :=
  match mv with
  | MPublish _ _ => forallb (λ x, match x.2 with CEnd _ => true | _ => false end) (map_to_list ths)
  | MUnpublish _ _ => true
  | MStep _ fine => fine
  end.
Fixpoint calm_play (l : list csi_move) (w : csiWorld) (ths : gmap nat csiThread) : bool :=
  match l with
  | [] => true
  | mv :: l' => calm_move mv ths && match play_one mv w ths with Some (w, ths) => calm_play l' w ths | None => false end
  end.

Definition ended_all (ths : gmap nat csiThread) : bool :=
  forallb (λ x, match x.2 with CEnd _ => true | _ => false end) (map_to_list ths).
Definition ended_ok (t : nat) (ths : gmap nat csiThread) : bool :=
  match ths !! t with Some (CEnd (Ok _)) => true | _ => false end.
(** How many mounts are live, and whether one lets write for a request that
    wants to read. *)
Definition mounts_live (w : csiWorld) : nat :=
  length (filter (λ x, match x.2 with ResMount _ _ _ _ => true | _ => false end = true) (map_to_list (cw_live w))).
Definition writable_for_reader (w : csiWorld) : bool :=
  existsb (λ x, match x.2 with ResMount _ wr req _ => wr && isReadOnlyRequest req | _ => false end) (map_to_list (cw_live w)).

(** * Soundness of the checks *)

Lemma play_one_serving (calm : bool) (mv : csi_move) (w : csiWorld) (ths : gmap nat csiThread) w' ths' :
  csi_service calm w ths → (calm = true → calm_move mv ths = true) → play_one mv w ths = Some (w', ths') → csi_service calm w' ths'.
Proof.
  intros Hs Hc. destruct mv as [t req|t target|t fine]; cbn [play_one].
  - destruct (ths !! t) eqn:Ht; [done|]. intros [= <- <-]. apply sv_publish; [done..|]. intros E u x Hu Hp.
    specialize (Hc E). cbn in Hc. rewrite forallb_forall in Hc. apply elem_of_map_to_list, list_elem_of_In, Hc in Hu. by destruct x.
  - destruct (ths !! t) eqn:Ht; [done|]. intros [= <- <-]. by apply sv_unpublish.
  - destruct (ths !! t) as [th|] eqn:Ht; [|done]. destruct (csi_step _ _ _) as [[th' w2]|] eqn:Ha; [|done]. intros [= <- <-].
    eapply sv_step; [exact Hs|exact Ht| |exact Ha]. intros E. specialize (Hc E). cbn in Hc. by subst fine.
Qed.

Lemma play_serving (calm : bool) (l : list csi_move) (w : csiWorld) (ths : gmap nat csiThread) w' ths' :
  csi_service calm w ths → (calm = true → calm_play l w ths = true) → play l w ths = Some (w', ths') → csi_service calm w' ths'.
Proof.
  revert w ths. induction l as [|mv l IH]; intros w ths Hs Hc; cbn [play]; [by intros [= <- <-]|].
  destruct (play_one mv w ths) as [[w2 ths2]|] eqn:Hp; [|done]. cbn [calm_play] in Hc. rewrite Hp in Hc. apply IH.
  - eapply play_one_serving; [exact Hs| |exact Hp]. intros E. by destruct (andb_prop _ _ (Hc E)).
  - intros E. by destruct (andb_prop _ _ (Hc E)).
Qed.

Lemma played_serving (calm : bool) (l : list csi_move) :
  bool_decide (is_Some (play l csi_boot ∅)) && (negb calm || calm_play l csi_boot ∅) = true → csi_service calm (played l).1 (played l).2.
Proof.
  intros [[[w ths] E]%bool_decide_eq_true Hc]%andb_prop. unfold played. rewrite E.
  apply (play_serving calm l csi_boot ∅); [apply sv_new| |done]. intros ->. exact Hc.
Qed.

Lemma ended_all_sound (ths : gmap nat csiThread) : ended_all ths = true → ∀ t th, ths !! t = Some th → ended th.
Proof.
  unfold ended_all. rewrite forallb_forall. intros Hall t th Ht. apply elem_of_map_to_list, list_elem_of_In, Hall in Ht. by destruct th.
Qed.

(** * What goes wrong *)

(** A request that wants to read gets a mount that lets write, when the
    repository is mutable. *)
Lemma reader_gets_writable_mount :
  csi_service true csi_published_ro.1 csi_published_ro.2 ∧ writable_for_reader csi_published_ro.1 = true.
Proof. split; [apply played_serving|]; vm_cast_no_check (eq_refl true). Qed.

(** Two publications of one path at once leave a mount nobody knows of. *)
Lemma overlapping_publications_leak :
  csi_service false csi_twice.1 csi_twice.2 ∧
  ended_all csi_twice.2 && ended_ok 0 csi_twice.2 && ended_ok 1 csi_twice.2 && ended_ok 2 csi_twice.2 &&
  bool_decide (size (ns_mounts (cw_node csi_twice.1)) = 0%nat) && (mounts_live csi_twice.1 =? 1)%nat = true.
Proof. split; [apply played_serving|]; vm_cast_no_check (eq_refl true). Qed.

(** After an unmount that failed, unpublishing succeeds and the mount is
    still there. *)
Lemma failed_unmount_is_forgotten :
  csi_service false csi_stuck.1 csi_stuck.2 ∧
  ended_all csi_stuck.2 && negb (ended_ok 1 csi_stuck.2) && ended_ok 2 csi_stuck.2 &&
  bool_decide (size (ns_mounts (cw_node csi_stuck.1)) = 0%nat) && (mounts_live csi_stuck.1 =? 1)%nat = true.
Proof. split; [apply played_serving|]; vm_cast_no_check (eq_refl true). Qed.

(** * Witnesses *)

Lemma csi_published_serving : csi_service true csi_published.1 csi_published.2.
Proof. apply played_serving. vm_cast_no_check (eq_refl true). Qed.

Lemma write_access_needs_contract_witness :
  ∃ class, cw_live csi_published.1 !! 1%nat = Some (ResMount csi_target true csi_write class) ∧ disjointWriters csi_write = true.
Proof.
  assert (∃ class, cw_live csi_published.1 !! 1%nat = Some (ResMount csi_target true csi_write class)) as [class Hx]
    by (eexists; vm_compute; reflexivity).
  exists class. split; [exact Hx|].
  apply (proj2 (write_access_needs_contract true csi_published.1 csi_published.2 1 csi_target true csi_write class csi_published_serving Hx)).
  vm_compute. reflexivity.
Defined.

Lemma calm_service_leaks_nothing_witness :
  ∃ m, ns_mounts (cw_node csi_published.1) !! csi_target = Some m ∧ 1%nat = am_server m.
Proof.
  assert (∃ class, cw_live csi_published.1 !! 1%nat = Some (ResMount csi_target true csi_write class)) as [class Hx]
    by (eexists; vm_compute; reflexivity).
  apply (calm_service_leaks_nothing csi_published.1 csi_published.2 csi_published_serving).
  - apply ended_all_sound. vm_cast_no_check (eq_refl true).
  - exists true, csi_write, class. exact Hx.
Defined.
