(* ===== verification/LocalStore.v ===== *)
(** pkg/store/local: objects in a directory.

    A path under the root is the list of its components, and the tree below
    the root a map from such paths to files and directories.  [putRun] and the
    other arguments of this kind are what the operating system answers; the
    operations that succeed have the effect POSIX gives them. *)
From S2P Require Import Prelude Bolt Chunk Store MetaDB RepoUtil Repo.

Inductive node := NFile (data : bytes) | NDir.

Abbreviation tree := (gmap (list bytes) node).

Record localBackend := mkLocal { lb_root : bytes; lb_tree : tree }.

Definition set_lb_tree (t : tree) (b : localBackend) : localBackend := mkLocal (lb_root b) t.

(** ** Paths *)

Fixpoint join_slash (ws : list bytes) : bytes :=
  match ws with
  | [] => []
  | [w] => w
  | w :: ws' => w ++ str "/" ++ join_slash ws'
  end.

(** [strings.Contains]. *)
Fixpoint contains (sub s : bytes) : bool :=
  has_prefix sub s || match s with [] => false | _ :: s' => contains sub s' end.

(** [filepath.Clean] of a rooted path. *)
Definition CleanRooted (p : bytes) : bytes := str "/" ++ join_slash (splitPath p).

(** [filepath.Abs]; [cwd] is what [os.Getwd] answers. *)
Definition FilepathAbs (cwd : result bytes) (dir : bytes) : result bytes :=
  if has_prefix (str "/") dir then Ok (CleanRooted dir)
  else match cwd with Ok wd => Ok (CleanRooted (wd ++ str "/" ++ dir)) | Err e => Err e end.

(** [New], over what the directory holds already. *)
Definition local_New (mkdir : option error) (cwd : result bytes) (dir : bytes) (t : tree) : result localBackend :=
  match mkdir with
  | Some e => Err e
  | None => match FilepathAbs cwd dir with Ok abs => Ok (mkLocal abs t) | Err e => Err e end
  end.

(** [Backend.path]: the components below the root; the path the code returns
    is these joined to the root's. *)
Definition local_path (key : bytes) (b : localBackend) : result (list bytes) :=
  let clean := drop 1 (CleanRooted (str "/" ++ key)) in
  if bool_decide (clean = []) || bool_decide (clean = str ".") then Err LocalErrEmptyKey
  else
    let p := CleanRooted (lb_root b ++ str "/" ++ clean) in
    if has_prefix (lb_root b ++ str "/") p then Ok (split_slash clean)
    else Err LocalErrEscapes.

(** [filepath.Dir], and the directories above a path. *)
Definition dir_of (p : list bytes) : list bytes := take (length p - 1) p.
Definition dirs_above (p : list bytes) : list (list bytes) := (λ i, take i p) <$> seq 1 (length p - 1).

Definition tmpMarker : bytes := str ".atlas-tmp-".

(** ** The operating system *)

Definition ENOENT_ : error := SysErrno 2.
Definition ENOTDIR_ : error := SysErrno 20.
Definition EISDIR_ : error := SysErrno 21.
Definition EINVAL_ : error := SysErrno 22.
Definition ENOTEMPTY_ : error := SysErrno 39.

Definition is_file (x : option node) : bool := match x with Some (NFile _) => true | _ => false end.

(** What a path leads to. *)
Definition at_path (t : tree) (p : list bytes) : result node :=
  if existsb (λ q, is_file (t !! q)) (dirs_above p) then Err ENOTDIR_
  else match t !! p with
       | Some n => Ok n
       | None => if bool_decide (p = []) then Ok NDir else Err ENOENT_
       end.

(** [errors.Is(err, fs.ErrNotExist)]. *)
Definition not_exist (e : error) : bool := bool_decide (e = ENOENT_).

(** [os.Open], [os.Stat] and the mapping of their errors. *)
Definition local_open (o : option error) (p : list bytes) (b : localBackend) : result node :=
  match o with
  | Some e => Err e
  | None => match at_path (lb_tree b) p with
            | Ok n => Ok n
            | Err e => Err (if not_exist e then StoreErrNotFound else e)
            end
  end.

(** [os.MkdirAll], which may fail after some directories. *)
Fixpoint mkdirs (l : list (list bytes)) (t : tree) : option error * tree :=
  match l with
  | [] => (None, t)
  | p :: l' => match t !! p with
               | Some NDir => mkdirs l' t
               | Some (NFile _) => (Some ENOTDIR_, t)
               | None => mkdirs l' (<[p := NDir]> t)
               end
  end.
Definition MkdirAll (o : option (nat * error)) (p : list bytes) (t : tree) : option error * tree :=
  match o with
  | Some (n, e) => (Some e, (mkdirs (take n (dirs_above p)) t).2)
  | None => mkdirs (dirs_above p) t
  end.

(** [os.Remove]. *)
Definition has_child (p : list bytes) (t : tree) : bool :=
  existsb (λ x, bool_decide (dir_of x.1 = p) && negb (bool_decide (x.1 = []))) (map_to_list t).
Definition os_Remove (p : list bytes) (t : tree) : option error * tree :=
  match at_path t p with
  | Err e => (Some e, t)
  | Ok (NFile _) => (None, delete p t)
  | Ok NDir => if has_child p t then (Some ENOTEMPTY_, t) else (None, delete p t)
  end.

(** ** Reading *)

Definition local_Get (o : option error) (key : bytes) (off length_ : Z) (b : localBackend) : result reader :=
  match local_path key b with
  | Err e => Err e
  | Ok p =>
      match local_open o p b with
      | Err e => Err e
      | Ok (NFile data) =>
          let rest := if 0 <? off then drop (Z.to_nat off) data else data in
          Ok (bytes_reader (if length_ <? 0 then rest else take (Z.to_nat length_) rest))
      | Ok NDir => Ok (Reader [] (if length_ =? 0 then None else Some EISDIR_))
      end
  end.

(** [GetInto] with a buffer of [n] bytes. *)
Definition local_GetInto (o : option error) (key : bytes) (off : Z) (n : nat) (b : localBackend) : result bytes :=
  match local_path key b with
  | Err e => Err e
  | Ok p =>
      match local_open o p b with
      | Err e => Err e
      | Ok x =>
          if off <? 0 then Err EINVAL_
          else if (n =? 0)%nat then Ok []
          else match x with
               | NFile data =>
                   if off + Z.of_nat n <=? blen data then Ok (slice off (Z.of_nat n) data) else Err EOF
               | NDir => Err EISDIR_
               end
      end
  end.

(** The size of a directory is the operating system's business. *)
Definition local_Stat (o : option error) (dirSize : Z) (key : bytes) (b : localBackend) : result ObjectInfo :=
  match local_path key b with
  | Err e => Err e
  | Ok p =>
      match local_open o p b with
      | Err e => Err e
      | Ok (NFile data) => Ok (mkObjectInfo key (blen data))
      | Ok NDir => Ok (mkObjectInfo key dirSize)
      end
  end.

(** ** Writing *)

Record putRun := mkPutRun {
  pr_mkdir : option (nat * error); pr_temp : result bytes; pr_write : option error; pr_sync : option error;
  pr_place : option error; pr_stat : option error
}.

(** [os.Link] for a conditional put, [os.Rename] otherwise. *)
Definition place (cond : bool) (tmp p : list bytes) (data : bytes) (t : tree) : option error * tree :=
  match t !! p, cond with
  | Some _, true => (Some OsErrExist, t)
  | Some NDir, false => (Some OsErrExist, t)
  | None, true => (None, <[p := NFile data]> t)
  | _, false => (None, <[p := NFile data]> (delete tmp t))
  end.

Definition local_Put (o : putRun) (key : bytes) (r : reader) (po : PutOpts) : M localBackend ObjectInfo := λ b,
  match local_path key b with
  | Err e => (Err e, b)
  | Ok p =>
      match MkdirAll (pr_mkdir o) p (lb_tree b) with
      | (Some e, t) => (Err e, set_lb_tree t b)
      | (None, t) =>
          match pr_temp o with
          | Err e => (Err e, set_lb_tree t b)
          | Ok suffix =>
              let tmp := dir_of p ++ [tmpMarker ++ suffix] in
              let leave (t : tree) := set_lb_tree (delete tmp t) b in
              let t := <[tmp := NFile []]> t in
              match rd_err r, pr_write o, pr_sync o with
              | Some e, _, _ => (Err e, leave t)
              | None, Some e, _ => (Err e, leave t)
              | None, None, Some e => (Err e, leave t)
              | None, None, None =>
                  let t := <[tmp := NFile (rd_data r)]> t in
                  match pr_place o with
                  | Some e => (Err e, leave t)
                  | None =>
                      match place (IfAbsent po) tmp p (rd_data r) t with
                      | (Some e, t) => (Err e, leave t)
                      | (None, t) =>
                          match pr_stat o with
                          | Some e => (Err e, leave t)
                          | None => (Ok (mkObjectInfo key (blen (rd_data r))), leave t)
                          end
                      end
                  end
              end
          end
      end
  end.

(** [Delete]; [o] makes the removal of a key fail. *)
Definition delete_one (o : bytes → option error) (k : bytes) (b : localBackend) : DeleteResult * localBackend :=
  match local_path k b with
  | Err e => (mkDeleteResult k (Some e), b)
  | Ok p =>
      match o k with
      | Some e => (mkDeleteResult k (if not_exist e then None else Some e), b)
      | None =>
          let '(err, t) := os_Remove p (lb_tree b) in
          (mkDeleteResult k (match err with
                             | Some e => if not_exist e then None else Some e
                             | None => None
                             end), set_lb_tree t b)
      end
  end.
Fixpoint delete_all (o : bytes → option error) (keys : list bytes) (b : localBackend) : list DeleteResult * localBackend :=
  match keys with
  | [] => ([], b)
  | k :: keys' =>
      let '(r, b) := delete_one o k b in
      let '(rs, b) := delete_all o keys' b in
      (r :: rs, b)
  end.
Definition local_Delete (o : bytes → option error) (keys : list bytes) : M localBackend (list DeleteResult) := λ b,
  let '(rs, b) := delete_all o keys b in (Ok rs, b).

(** ** Listing *)

(** The files below [q], through the directories that can be read; their
    keys and sizes. *)
Definition below (q p : list bytes) : bool := bool_decide (take (length q) p = q) && (length q <? length p)%nat.
Definition walk_entry (readable : list bytes → bool) (prefix : bytes) (q : list bytes) (x : list bytes * node) : option ObjectInfo :=
  match x.2 with
  | NDir => None
  | NFile data =>
      let key := join_slash x.1 in
      if below q x.1 && forallb readable (filter (λ d, (length q <= length d)%nat) (([] : list bytes) :: dirs_above x.1))
         && has_prefix prefix key && negb (contains tmpMarker (default [] (last x.1)))
      then Some (mkObjectInfo key (blen data)) else None
  end.
Definition info_le (x y : ObjectInfo) : Prop := bytes_le (oi_Key x) (oi_Key y).
#[global] Instance info_le_dec : RelDecision info_le := λ x y, bytes_le_dec (oi_Key x) (oi_Key y).

(** Whether the error of [path] mentions an empty key: that of an escaping
    key quotes the key. *)
Definition mentions_empty (key : bytes) (e : error) : bool :=
  bool_decide (e = LocalErrEmptyKey) || bool_decide (e = LocalErrEscapes) && contains (str "empty key") key.

Definition list_all (readable : list bytes → bool) (prefix : bytes) (prefixPath : list bytes) (b : localBackend) : list ObjectInfo :=
  let walkRoot := match at_path (lb_tree b) prefixPath with Ok NDir => prefixPath | _ => dir_of prefixPath end in
  merge_sort info_le (omap (walk_entry readable prefix walkRoot) (map_to_list (lb_tree b))).

(** A page of the sorted list. *)
Definition page_of (all : list ObjectInfo) (cursor : bytes) (limit : Z) : ListPage :=
  let start := if bool_decide (cursor = []) then 0%nat
               else length (take_while (λ x, bytes_leb (oi_Key x) cursor) all) in
  let rest := Z.of_nat (length all - start) in
  let limit := if (limit <=? 0) || (rest <? limit) then rest else limit in
  let page := take (Z.to_nat limit) (drop start all) in
  mkListPage page (if Z.of_nat start + limit <? Z.of_nat (length all)
                   then match last page with Some x => oi_Key x | None => [] end else []).

Definition local_List (readable : list bytes → bool) (prefix cursor : bytes) (limit : Z) (b : localBackend) : result ListPage :=
  match local_path prefix b with
  | Ok p => Ok (page_of (list_all readable prefix p b) cursor limit)
  | Err e => if mentions_empty prefix e then Ok (page_of (list_all readable prefix [] b) cursor limit) else Err e
  end.

Definition local_Caps : Caps := mkCaps true 0.
