(* ===== verification/LocalStoreThm.v ===== *)
(** pkg/store/local: a directory as an object store.

    Whatever a key looks like, its path stays below the root.  On a set of
    keys none of which lies below another, the directory behaves as the map
    of MemBackend does, whatever the operating system fails; paging through a
    listing gives every object under the prefix once and in order. *)
From S2P Require Import Prelude Bolt Chunk Store Pack MetaDB RepoUtil Repo LocalStore.

(** ** Statements *)

(** A component of a clean path. *)
Definition plain (w : bytes) : Prop := w ≠ [] ∧ w ≠ str "." ∧ w ≠ str ".." ∧ x2f ∉ w.

(** The root is not the file system's own. *)
Definition rooted (b : localBackend) : Prop := ∃ r, lb_root b = CleanRooted r ∧ splitPath r ≠ [].

(** Keys in clean form, none below another. *)
Record key_space (U : bytes → Prop) : Prop := mkKeySpace {
  ks_clean k : U k → splitPath k ≠ [] ∧ join_slash (splitPath k) = k;
  ks_temp k : U k → contains tmpMarker (default [] (last (splitPath k))) = false;
  ks_flat k k' x : U k → U k' → splitPath k' = splitPath k ++ x → x = []
}.

(** The directory holds the objects of the map. *)
Record sim (U : bytes → Prop) (b : localBackend) (s : MemBackend.mem) : Prop := mkSim {
  sm_root : rooted b;
  sm_file p d : lb_tree b !! p = Some (NFile d) ↔ ∃ k, U k ∧ p = splitPath k ∧ s !! k = Some d;
  sm_dir p : lb_tree b !! p = Some NDir → ∃ k x, U k ∧ x ≠ [] ∧ splitPath k = p ++ x;
  sm_dom k d : s !! k = Some d → U k
}.

(** An operation, with what the operating system answers to it. *)
Inductive lop :=
  | LoGet (o : option error) (k : bytes) (off n : Z)
  | LoGetInto (o : option error) (k : bytes) (off : Z) (n : nat)
  | LoStat (o : option error) (dirSize : Z) (k : bytes)
  | LoPut (o : putRun) (k : bytes) (r : reader) (po : PutOpts)
  | LoDelete (o : bytes → option error) (keys : list bytes).

Inductive lres :=
  | RReader (r : result reader)
  | RBytes (r : result bytes)
  | RInfo (r : result ObjectInfo)
  | RDeleted (r : result (list DeleteResult)).

Definition run_lop (op : lop) (b : localBackend) : lres * localBackend :=
  match op with
  | LoGet o k off n => (RReader (local_Get o k off n b), b)
  | LoGetInto o k off n => (RBytes (local_GetInto o k off n b), b)
  | LoStat o sz k => (RInfo (local_Stat o sz k b), b)
  | LoPut o k r po => let '(res, b) := local_Put o k r po b in (RInfo res, b)
  | LoDelete o keys => let '(res, b) := local_Delete o keys b in (RDeleted res, b)
  end.

Fixpoint run_lops (ops : list lop) (b : localBackend) : list lres * localBackend :=
  match ops with
  | [] => ([], b)
  | op :: ops' =>
      let '(r, b) := run_lop op b in
      let '(rs, b) := run_lops ops' b in (r :: rs, b)
  end.

(** The keys belong to the space, and temporary files are new. *)
Definition lop_ok (U : bytes → Prop) (op : lop) (b : localBackend) : Prop :=
  match op with
  | LoGet _ k _ _ | LoGetInto _ k _ _ | LoStat _ _ k => U k
  | LoPut o k _ _ =>
      U k ∧
      ∀ suffix, pr_temp o = Ok suffix → lb_tree b !! (dir_of (splitPath k) ++ [tmpMarker ++ suffix]) = None
  | LoDelete o keys => Forall U keys
  end.

Fixpoint lops_ok (U : bytes → Prop) (ops : list lop) (b : localBackend) : Prop :=
  match ops with
  | [] => True
  | op :: ops' => lop_ok U op b ∧ lops_ok U ops' (run_lop op b).2
  end.

(** What the map answers.  An operation the system fails gives that error and
    changes nothing; only a put whose last step, the [Stat] of the new file,
    fails has stored the object.  A deletion fails key by key, and one that
    the system answers with [ENOENT] counts as done. *)
Definition failing (o : option error) {A} (r : result A) : result A := match o with Some e => Err e | None => r end.

Definition mem_GetInto (k : bytes) (off : Z) (n : nat) (s : MemBackend.mem) : result bytes :=
  match s !! k with
  | None => Err StoreErrNotFound
  | Some data => if off <? 0 then Err EINVAL_
                 else if (n =? 0)%nat then Ok []
                 else if off + Z.of_nat n <=? blen data then Ok (slice off (Z.of_nat n) data) else Err EOF
  end.

Definition put_error (o : putRun) (r : reader) : option error :=
  match pr_mkdir o, pr_temp o, rd_err r, pr_write o, pr_sync o, pr_place o with
  | Some (_, e), _, _, _, _, _ | None, Err e, _, _, _, _ | None, Ok _, Some e, _, _, _
  | None, Ok _, None, Some e, _, _ | None, Ok _, None, None, Some e, _ | None, Ok _, None, None, None, Some e => Some e
  | None, Ok _, None, None, None, None => None
  end.

Definition delete_error (o : option error) : option error :=
  match o with Some e => if not_exist e then None else Some e | None => None end.

Fixpoint mem_delete (o : bytes → option error) (keys : list bytes) (s : MemBackend.mem) : MemBackend.mem :=
  match keys with
  | [] => s
  | k :: keys' => mem_delete o keys' (match o k with Some _ => s | None => delete k s end)
  end.

Definition mem_lop (op : lop) (s : MemBackend.mem) : lres * MemBackend.mem :=
  match op with
  | LoGet o k off n => (RReader (failing o (MemBackend.mem_Get k off n s)), s)
  | LoGetInto o k off n => (RBytes (failing o (mem_GetInto k off n s)), s)
  | LoStat o _ k => (RInfo (failing o (b_Stat k s)), s)
  | LoPut o k r po =>
      match put_error o r with
      | Some e => (RInfo (Err e), s)
      | None =>
          let '(res, s) := MemBackend.mem_Put k (rd_data r) po s in
          (RInfo (if is_ok res then failing (pr_stat o) res else res), s)
      end
  | LoDelete o keys => (RDeleted (Ok ((λ k, mkDeleteResult k (delete_error (o k))) <$> keys)), mem_delete o keys s)
  end.

Fixpoint mem_lops (ops : list lop) (s : MemBackend.mem) : list lres * MemBackend.mem :=
  match ops with
  | [] => ([], s)
  | op :: ops' =>
      let '(r, s) := mem_lop op s in
      let '(rs, s) := mem_lops ops' s in (r :: rs, s)
  end.

(** *** Listing *)

(** A prefix that names a directory, or nothing. *)
Definition dir_prefix (prefix : bytes) : Prop :=
  prefix = [] ∨ ∃ q, q ≠ [] ∧ Forall plain q ∧ prefix = join_slash q ++ str "/".

(** Page after page, as callers list. *)
Fixpoint local_pages (readable : list bytes → bool) (fuel : nat) (prefix : bytes) (limit : Z) (cursor : bytes) (b : localBackend) : result (list ObjectInfo) :=
  match fuel with
  | O => Err ErrOutOfFuel
  | S fuel' =>
      match local_List readable prefix cursor limit b with
      | Err e => Err e
      | Ok page =>
          if bool_decide (lp_NextCursor page = []) then Ok (lp_Keys page)
          else match local_pages readable fuel' prefix limit (lp_NextCursor page) b with
               | Err e => Err e
               | Ok rest => Ok (lp_Keys page ++ rest)
               end
      end
  end.

(** The objects under a prefix. *)
Definition mem_under (prefix : bytes) (s : MemBackend.mem) (oi : ObjectInfo) : Prop :=
  ∃ d, s !! oi_Key oi = Some d ∧ oi_Size oi = blen d ∧ has_prefix prefix (oi_Key oi) = true.

Definition info_lt (x y : ObjectInfo) : Prop := bytes_leb (oi_Key y) (oi_Key x) = false.

(** Neither a slash nor a dot. *)
Definition hex_char (c : byte) : Prop := c ≠ x2f ∧ c ≠ x2e.

(** The keys of a repository's containers and manifests. *)
Definition atlas_key (region : bytes) (k : bytes) : Prop :=
  (∃ rnd, k = newContainerKey region rnd) ∨ ∃ id, k = manifestKey id.

(** ** Paths *)

Lemma split_slash_nonempty p : split_slash p ≠ [].
Proof. destruct p as [|c p]; cbn; [done|]. case_bool_decide; [done|]. by destruct (split_slash p). Qed.

Lemma split_slash_free p : Forall (λ w, x2f ∉ w) (split_slash p).
Proof.
  induction p as [|c p IH]; cbn; [by repeat constructor; apply not_elem_of_nil|].
  case_bool_decide as Hc; [constructor; [apply not_elem_of_nil|done]|].
  destruct (split_slash p) as [|w ws]; [constructor; [set_solver|done]|].
  apply Forall_cons in IH as [Hw Hws]. constructor; [set_solver|done].
Qed.

Lemma split_slash_app a b : split_slash (a ++ str "/" ++ b) = split_slash a ++ split_slash b.
Proof.
  induction a as [|c a IH]; cbn [app split_slash]; [done|]. rewrite IH. case_bool_decide; [done|].
  pose proof (split_slash_nonempty a). by destruct (split_slash a).
Qed.

Lemma split_slash_word w : x2f ∉ w → split_slash w = [w].
Proof.
  induction w as [|c w IH]; [done|]. rewrite not_elem_of_cons. intros [Hc Hw]. cbn.
  rewrite bool_decide_false by (intros ->; done). by rewrite IH.
Qed.

Lemma split_join ws : ws ≠ [] → Forall (λ w, x2f ∉ w) ws → split_slash (join_slash ws) = ws.
Proof.
  intros Hne Hws. induction Hws as [|w ws Hw Hws IH]; [done|]. destruct ws as [|w' ws]; [by apply split_slash_word|].
  change (join_slash (w :: w' :: ws)) with (w ++ str "/" ++ join_slash (w' :: ws)).
  rewrite split_slash_app, split_slash_word, IH by done. done.
Qed.

Lemma clean_plain ws st : Forall plain ws → fold_left clean_step ws st = reverse ws ++ st.
Proof.
  intros Hws. revert st. induction Hws as [|w ws (H1 & H2 & H3 & _) _ IH]; intros st; [done|]. cbn [fold_left].
  rewrite IH, reverse_cons, <- app_assoc. unfold clean_step. by rewrite !bool_decide_false by done.
Qed.

Lemma clean_step_plain st w : x2f ∉ w → Forall plain st → Forall plain (clean_step st w).
Proof.
  intros Hw Hst. unfold clean_step. repeat case_bool_decide; cbn [orb]; try done.
  - destruct Hst; cbn; [constructor|done].
  - by constructor.
Qed.

Lemma splitPath_plain p : Forall plain (splitPath p).
Proof.
  unfold splitPath. apply Forall_reverse. generalize (split_slash_free p). generalize (split_slash p) as ws.
  assert (Forall plain []) as Hst by constructor. revert Hst. generalize ([] : list bytes) as st.
  intros st Hst ws. revert st Hst. induction ws as [|w ws IH]; intros st Hst Hws; [done|].
  apply Forall_cons in Hws as [Hw Hws]. cbn. apply IH; [by apply clean_step_plain|done].
Qed.

Lemma plain_free ws : Forall plain ws → Forall (λ w, x2f ∉ w) ws.
Proof. intros Hws. eapply Forall_impl; [exact Hws|]. by intros w (_ & _ & _ & ?). Qed.

Lemma splitPath_root p : splitPath (str "/" ++ p) = splitPath p.
Proof. done. Qed.

Lemma splitPath_join ws : Forall plain ws → splitPath (join_slash ws) = ws.
Proof.
  intros Hws. destruct (decide (ws = [])) as [->|Hne]; [done|]. unfold splitPath.
  rewrite split_join, clean_plain by auto using plain_free. by rewrite app_nil_r, reverse_involutive.
Qed.

Lemma splitPath_under root ws : Forall plain ws → ws ≠ [] → splitPath (root ++ str "/" ++ join_slash ws) = splitPath root ++ ws.
Proof.
  intros Hws Hne. unfold splitPath. rewrite split_slash_app, fold_left_app, split_join by auto using plain_free.
  by rewrite clean_plain, reverse_app, reverse_involutive.
Qed.

Lemma join_app a b : a ≠ [] → b ≠ [] → join_slash (a ++ b) = join_slash a ++ str "/" ++ join_slash b.
Proof.
  intros Ha Hb. induction a as [|w a IH]; [done|]. destruct a as [|w' a].
  - cbn [app]. destruct b as [|w' b]; done.
  - change (join_slash ((w :: w' :: a) ++ b)) with (w ++ str "/" ++ join_slash ((w' :: a) ++ b)).
    rewrite IH by done. change (join_slash (w :: w' :: a)) with (w ++ str "/" ++ join_slash (w' :: a)).
    by rewrite <- !app_assoc.
Qed.

Lemma join_nonempty ws : Forall plain ws → ws ≠ [] → join_slash ws ≠ [] ∧ join_slash ws ≠ str ".".
Proof.
  intros Hws Hne. split; intros E.
  - apply Hne. rewrite <- (splitPath_join ws Hws), E. done.
  - apply Hne. rewrite <- (splitPath_join ws Hws), E. done.
Qed.

(** *** Keys *)

Lemma clean_key key : drop 1 (CleanRooted (str "/" ++ key)) = join_slash (splitPath key).
Proof. unfold CleanRooted. by rewrite splitPath_root. Qed.

Lemma splitPath_CleanRooted r : splitPath (CleanRooted r) = splitPath r.
Proof. unfold CleanRooted. rewrite splitPath_root. apply splitPath_join, splitPath_plain. Qed.

(** Every path below a proper root is [root/key], the key cleaned. *)
Lemma local_path_rooted key b :
  rooted b → local_path key b = if bool_decide (splitPath key = []) then Err LocalErrEmptyKey else Ok (splitPath key).
Proof.
  intros (r & Hr & Hne). unfold local_path. rewrite clean_key. pose proof (splitPath_plain key) as Hp.
  destruct (decide (splitPath key = [])) as [Hk|Hk]; [by rewrite Hk|]. destruct (join_nonempty _ Hp Hk) as [H1 H2].
  rewrite !bool_decide_false by done. cbn [orb]. rewrite split_join by auto using plain_free. rewrite (proj2 (has_prefix_spec _ _)); [done|].
  exists (join_slash (splitPath key)). unfold CleanRooted at 1. rewrite splitPath_under, Hr, splitPath_CleanRooted by done.
  rewrite join_app by done. unfold CleanRooted. by rewrite <- !app_assoc.
Qed.

Lemma local_path_top key b : lb_root b = str "/" → ∃ e, local_path key b = Err e.
Proof.
  intros Hr. unfold local_path. rewrite clean_key, Hr. case_bool_decide as H1; [by eexists|].
  case_bool_decide; [by eexists|]. cbn [orb].
  assert (splitPath key ≠ []) as Hk by (intros E; by rewrite E in H1).
  replace (CleanRooted _) with (str "/" ++ join_slash (splitPath key)).
  - destruct (has_prefix _ _) eqn:Hp; [|by eexists]. exfalso. apply has_prefix_spec in Hp as [s Hs].
    pose proof (splitPath_plain key) as Hpl. destruct (splitPath key) as [|w ws]; [done|].
    apply Forall_cons in Hpl as [(Hw & _ & _ & Hsl) _]. destruct w as [|c w]; [done|].
    destruct ws; injection Hs as Hc _; rewrite Hc in Hsl; apply Hsl, list_elem_of_here.
  - unfold CleanRooted. by rewrite splitPath_under by auto using splitPath_plain.
Qed.

(** ** The directory and the map *)

Section sim.
Context (U : bytes → Prop) (HU : key_space U).

Lemma objkey_inj k k' : U k → U k' → splitPath k = splitPath k' → k = k'.
Proof.
  intros Hk Hk' E. destruct (ks_clean _ HU k Hk) as [_ <-], (ks_clean _ HU k' Hk') as [_ <-]. by rewrite E.
Qed.

Lemma path_of b s k : sim U b s → U k → local_path k b = Ok (splitPath k).
Proof.
  intros Hs Hk. rewrite local_path_rooted by apply Hs. rewrite bool_decide_false; [done|]. by apply (ks_clean _ HU).
Qed.

Lemma elem_dirs_above q p : q ∈ dirs_above p ↔ ∃ x, x ≠ [] ∧ q ≠ [] ∧ p = q ++ x.
Proof.
  unfold dirs_above. rewrite list_elem_of_fmap. setoid_rewrite elem_of_seq. split.
  - intros (i & -> & Hi). exists (drop i p). split_and!; [| |by rewrite take_drop].
    + intros E%(f_equal length). rewrite length_drop in E. cbn in E. lia.
    + intros E%(f_equal length). rewrite length_take in E. cbn in E. lia.
  - intros (x & Hx & Hq & ->). exists (length q). rewrite take_app_length. split; [done|]. rewrite length_app.
    destruct q, x; cbn; try done; lia.
Qed.

(** A directory above a key is no file. *)
Lemma above_no_file b s k q d x :
  sim U b s → U k → splitPath k = q ++ x → x ≠ [] → lb_tree b !! q ≠ Some (NFile d).
Proof.
  intros Hs Hk E Hx Hq. apply (sm_file _ _ _ Hs) in Hq as (k' & Hk' & -> & _). apply Hx. by apply (ks_flat _ HU k' k).
Qed.

Lemma at_key b s k : sim U b s → U k →
  at_path (lb_tree b) (splitPath k) = match s !! k with Some d => Ok (NFile d) | None => Err ENOENT_ end.
Proof.
  intros Hs Hk. unfold at_path. replace (existsb _ _) with false.
  2: { symmetry. apply not_true_iff_false. rewrite existsb_exists. intros (q & Hq & Hf). apply list_elem_of_In in Hq.
       apply elem_dirs_above in Hq as (x & Hx & _ & E). unfold is_file in Hf.
       destruct (lb_tree b !! q) as [[d|]|] eqn:Ht; try done. by eapply above_no_file. }
  destruct (lb_tree b !! splitPath k) as [[d|]|] eqn:Ht.
  - apply (sm_file _ _ _ Hs) in Ht as (k' & Hk' & E & Hd). apply objkey_inj in E as <-; [|done..]. by rewrite Hd.
  - exfalso. apply (sm_dir _ _ _ Hs) in Ht as (k' & x & Hk' & Hx & E). apply Hx. by apply (ks_flat _ HU k k').
  - rewrite bool_decide_false by by apply (ks_clean _ HU). destruct (s !! k) as [d|] eqn:Hd; [|done].
    assert (lb_tree b !! splitPath k = Some (NFile d)); [|congruence]. apply (sm_file _ _ _ Hs). by exists k.
Qed.

Lemma open_key b s k o : sim U b s → U k →
  local_open o (splitPath k) b = failing o (match s !! k with Some d => Ok (NFile d) | None => Err StoreErrNotFound end).
Proof.
  intros Hs Hk. unfold local_open. destruct o; [done|]. rewrite (at_key b s k) by done. by destruct (s !! k).
Qed.

(** *** Reading *)

Lemma Get_sim b s o k off n : sim U b s → U k → local_Get o k off n b = failing o (MemBackend.mem_Get k off n s).
Proof.
  intros Hs Hk. unfold local_Get, MemBackend.mem_Get. rewrite (path_of b s k), (open_key b s k) by done.
  destruct o; [done|]. cbn. destruct (s !! k) as [d|]; [|done]. unfold slice. repeat f_equal.
  destruct (Z.ltb_spec 0 off); [done|]. by replace (Z.to_nat off) with 0%nat by lia.
Qed.

Lemma GetInto_sim b s o k off n : sim U b s → U k → local_GetInto o k off n b = failing o (mem_GetInto k off n s).
Proof.
  intros Hs Hk. unfold local_GetInto, mem_GetInto. rewrite (path_of b s k), (open_key b s k) by done.
  destruct o; [done|]. cbn. by destruct (s !! k).
Qed.

Lemma Stat_sim b s o sz k : sim U b s → U k → local_Stat o sz k b = failing o (b_Stat k s).
Proof.
  intros Hs Hk. unfold local_Stat. rewrite (path_of b s k), (open_key b s k) by done.
  destruct o; [done|]. cbn. by destruct (s !! k).
Qed.

(** *** Writing *)

(** Directories made above keys. *)
Lemma mkdirs_sim l b s :
  sim U b s → (∀ q, q ∈ l → ∃ k x, U k ∧ x ≠ [] ∧ splitPath k = q ++ x) →
  ∃ t, mkdirs l (lb_tree b) = (None, t) ∧ sim U (set_lb_tree t b) s ∧ ∀ p, p ∉ l → t !! p = lb_tree b !! p.
Proof.
  revert b. induction l as [|q l IH]; intros b Hs Hl; cbn [mkdirs]; [by exists (lb_tree b); destruct b|].
  destruct (Hl q (list_elem_of_here _ _)) as (k & x & Hk & Hx & E).
  assert (∀ q', q' ∈ l → ∃ k x, U k ∧ x ≠ [] ∧ splitPath k = q' ++ x) as Hl' by (intros; apply Hl; by right).
  destruct (lb_tree b !! q) as [[d|]|] eqn:Hq.
  - by destruct (above_no_file b s k q d x Hs Hk E Hx).
  - destruct (IH b Hs Hl') as (t & -> & Ht & Hother). exists t. split_and!; [done..|]. intros p Hp. apply Hother. set_solver.
  - destruct (IH (set_lb_tree (<[q := NDir]> (lb_tree b)) b)) as (t & Hrun & Ht & Hother); [|done|].
    { destruct Hs as [R F D M]. split; cbn; [done| | |done].
      - intros p d. rewrite <- F, lookup_insert_Some. split; [by intros [[_ ?]|[_ ?]]|]. intros Hp. right. split; [congruence|done].
      - intros p [[<- _]|[_ Hp]]%lookup_insert_Some; [by exists k, x|by apply D]. }
    exists t. split_and!; [done..|]. intros p Hp. rewrite Hother by set_solver. cbn. rewrite lookup_insert_ne; [done|set_solver].
Qed.

(** The object put. *)
Lemma sim_insert b s k d : sim U b s → U k → sim U (set_lb_tree (<[splitPath k := NFile d]> (lb_tree b)) b) (<[k := d]> s).
Proof.
  intros [R F D M] Hk. split; cbn; [done|..].
  - intros p d'. rewrite lookup_insert_Some, F. split.
    + intros [[<- [= ->]]|[Hne (k' & Hk' & -> & Hd)]].
      * exists k. by rewrite lookup_insert_eq.
      * exists k'. rewrite lookup_insert_ne by congruence. done.
    + intros (k' & Hk' & -> & Hd). destruct (decide (k = k')) as [->|Hne].
      * rewrite lookup_insert_eq in Hd. injection Hd as ->. by left.
      * right. rewrite lookup_insert_ne in Hd by done. split; [|by exists k']. intros E. apply Hne. by apply objkey_inj.
  - intros p [[_ ?]|[_ Hp]]%lookup_insert_Some; [done|by apply D].
  - intros k' d' [[<- _]|[_ Hk']]%lookup_insert_Some; [done|by apply (M k' d')].
Qed.

Lemma sim_delete b s k : sim U b s → U k → sim U (set_lb_tree (delete (splitPath k) (lb_tree b)) b) (delete k s).
Proof.
  intros [R F D M] Hk. split; cbn; [done|..].
  - intros p d'. rewrite lookup_delete_Some, F. split.
    + intros [Hne (k' & Hk' & -> & Hd)]. exists k'. rewrite lookup_delete_ne by congruence. done.
    + intros (k' & Hk' & -> & [Hne Hd]%lookup_delete_Some). split; [|by exists k']. intros E. apply Hne. by apply objkey_inj.
  - intros p [_ Hp]%lookup_delete_Some. by apply D.
  - intros k' d' [_ Hk']%lookup_delete_Some. by apply (M k' d').
Qed.

Lemma above_key k q : U k → q ∈ dirs_above (splitPath k) → ∃ k' x, U k' ∧ x ≠ [] ∧ splitPath k' = q ++ x.
Proof. intros Hk (x & Hx & _ & E)%elem_dirs_above. by exists k, x. Qed.

Lemma elem_take {A} (x : A) n l : x ∈ take n l → x ∈ l.
Proof. intros Hx. rewrite <- (take_drop n l). apply elem_of_app. by left. Qed.

Lemma MkdirAll_sim o k b s :
  sim U b s → U k →
  ∃ t, MkdirAll o (splitPath k) (lb_tree b) = (snd <$> o, t) ∧ sim U (set_lb_tree t b) s ∧
    ∀ p, p ∉ dirs_above (splitPath k) → t !! p = lb_tree b !! p.
Proof.
  intros Hs Hk. unfold MkdirAll. destruct o as [[n e]|]; cbn [fmap option_fmap option_map snd].
  - destruct (mkdirs_sim (take n (dirs_above (splitPath k))) b s) as (t & Hrun & Ht & Ho); [done| |].
    { intros q Hq. apply (above_key k); [done|]. by eapply elem_take. }
    exists t. rewrite Hrun. split_and!; [done..|]. intros p Hp. apply Ho. intros Hin. apply Hp. by eapply elem_take.
  - apply mkdirs_sim; [done|]. intros q. by apply above_key.
Qed.

(** A temporary file is neither the object nor a directory above it. *)
Lemma temp_apart k suffix :
  U k → let tmp := dir_of (splitPath k) ++ [tmpMarker ++ suffix] in tmp ≠ splitPath k ∧ tmp ∉ dirs_above (splitPath k).
Proof.
  intros Hk tmp. destruct (ks_clean _ HU k Hk) as [Hne _]. split.
  - intros E. pose proof (ks_temp _ HU k Hk) as Ht. rewrite <- E in Ht. unfold tmp in Ht. rewrite last_snoc in Ht. discriminate Ht.
  - intros (x & Hx & _ & E%(f_equal length))%elem_dirs_above. unfold tmp, dir_of in E.
    rewrite !length_app, length_take in E. destruct x; [done|]. destruct (splitPath k); [done|]. cbn in E. lia.
Qed.

(** What is left of the tree when the temporary file goes. *)
Lemma place_leaves (cond : bool) (tmp p : list bytes) (data : bytes) (t : tree) :
  t !! tmp = None → tmp ≠ p → t !! p ≠ Some NDir →
  let r := place cond tmp p data (<[tmp := NFile data]> (<[tmp := NFile []]> t)) in
  if cond && bool_decide (is_Some (t !! p)) then r.1 = Some OsErrExist ∧ delete tmp r.2 = t
  else r.1 = None ∧ delete tmp r.2 = <[p := NFile data]> t.
Proof.
  intros Hf Hne Hd r. unfold r, place. rewrite insert_insert_eq, lookup_insert_ne by done.
  assert (delete tmp (<[tmp := NFile data]> t) = t) as Hdel by by apply delete_insert_id.
  destruct (t !! p) as [[d|]|] eqn:Hp; [|done|]; destruct cond; cbn [andb fst snd];
    rewrite ?Hdel; try done; (split; [done|]); rewrite delete_insert_ne by done; f_equal; try done.
  all: by apply delete_id.
Qed.

Lemma Put_sim o k r po b s :
  sim U b s → lop_ok U (LoPut o k r po) b →
  ∃ s', mem_lop (LoPut o k r po) s = (RInfo (local_Put o k r po b).1, s') ∧ sim U (local_Put o k r po b).2 s'.
Proof.
  intros Hs (Hk & Hfresh). cbn [mem_lop]. unfold local_Put, put_error. rewrite (path_of b s k) by done.
  destruct (MkdirAll_sim (pr_mkdir o) k b s Hs Hk) as (t & -> & Ht & Hother).
  destruct (pr_mkdir o) as [[n e]|]; cbn [fmap option_fmap option_map snd]; [by exists s|].
  destruct (pr_temp o) as [suffix|e]; [|by exists s]. specialize (Hfresh suffix eq_refl).
  destruct (temp_apart k suffix Hk) as [Hne Habove]. set (tmp := dir_of _ ++ _) in *.
  assert (t !! tmp = None) as Hf by (rewrite Hother; done).
  assert (∀ x, delete tmp (<[tmp := x]> t) = t) as Hdel by (intros; by apply delete_insert_id).
  destruct (rd_err r) as [e|]; [rewrite Hdel; by exists s|].
  destruct (pr_write o) as [e|]; [rewrite Hdel; by exists s|].
  destruct (pr_sync o) as [e|]; [rewrite Hdel; by exists s|].
  destruct (pr_place o) as [e|]; [rewrite insert_insert_eq, Hdel; by exists s|].
  assert (t !! splitPath k = NFile <$> s !! k) as Hobj.
  { pose proof (at_key (set_lb_tree t b) s k Ht Hk) as Hat. unfold at_path in Hat. cbn [lb_tree set_lb_tree] in Hat.
    destruct (existsb _ _); [by destruct (s !! k)|]. destruct (t !! splitPath k) as [x|].
    - destruct (s !! k); [by injection Hat as ->|done].
    - case_bool_decide; destruct (s !! k); done. }
  pose proof (place_leaves (IfAbsent po) tmp (splitPath k) (rd_data r) t Hf Hne) as Hpl.
  rewrite Hobj in Hpl. unfold MemBackend.mem_Put. replace (bool_decide (is_Some (NFile <$> s !! k))) with (bool_decide (is_Some (s !! k))) in Hpl.
  2: { by destruct (s !! k). }
  specialize (Hpl ltac:(by destruct (s !! k))). cbv zeta in Hpl.
  destruct (place _ _ _ _ _) as [err t']. cbn [fst snd] in Hpl. destruct (IfAbsent po && _); destruct Hpl as [-> Hleft].
  - rewrite Hleft. by exists s.
  - rewrite Hleft. eexists. split; [by destruct (pr_stat o)|].
    destruct (pr_stat o); apply (sim_insert (set_lb_tree t b)); done.
Qed.

Lemma Delete_sim o keys b s :
  sim U b s → Forall U keys →
  (delete_all o keys b).1 = (λ k, mkDeleteResult k (delete_error (o k))) <$> keys ∧ sim U (delete_all o keys b).2 (mem_delete o keys s).
Proof.
  intros Hs Hkeys. revert b s Hs. induction Hkeys as [|k keys Hk _ IH]; intros b s Hs; [done|]. cbn [delete_all mem_delete].
  assert (∃ b', delete_one o k b = (mkDeleteResult k (delete_error (o k)), b') ∧ sim U b' (match o k with Some _ => s | None => delete k s end)) as (b' & -> & Hs').
  { unfold delete_one. rewrite (path_of b s k) by done. destruct (o k) as [e|] eqn:Hok; [by exists b|].
    unfold os_Remove. rewrite (at_key b s k) by done. destruct (s !! k) as [d|] eqn:Hd.
    - eexists. split; [done|]. by apply sim_delete.
    - exists b. cbn. destruct b. split; [done|]. by rewrite delete_id. }
  destruct (IH b' _ Hs') as [Hr Hsim]. destruct (delete_all o keys b') as [rs b2]. cbn in *. by rewrite Hr.
Qed.

(** Every operation answers as the map does. *)
Lemma lop_sim op b s :
  sim U b s → lop_ok U op b → (run_lop op b).1 = (mem_lop op s).1 ∧ sim U (run_lop op b).2 (mem_lop op s).2.
Proof.
  intros Hs Hok. destruct op as [o k off n|o k off n|o sz k|o k r po|o keys].
  - cbn. by rewrite (Get_sim b s).
  - cbn. by rewrite (GetInto_sim b s).
  - cbn. by rewrite (Stat_sim b s).
  - destruct (Put_sim o k r po b s Hs Hok) as (s' & -> & Hs'). cbn [run_lop].
    by destruct (local_Put o k r po b) as [res b'].
  - destruct (Delete_sim o keys b s Hs Hok) as [Hr Hs'].
    cbn [run_lop mem_lop]. unfold local_Delete. destruct (delete_all o keys b) as [rs b']. cbn in *. by rewrite Hr.
Qed.
End sim.

Lemma run_sim U ops b s :
  key_space U → sim U b s → lops_ok U ops b →
  (run_lops ops b).1 = (mem_lops ops s).1 ∧ sim U (run_lops ops b).2 (mem_lops ops s).2.
Proof.
  intros HU. revert b s. induction ops as [|op ops IH]; intros b s Hs; [done|]. cbn [lops_ok run_lops mem_lops]. intros [Hop Hops].
  destruct (lop_sim U HU op b s Hs Hop) as [Hr Hs']. destruct (run_lop op b) as [r b1], (mem_lop op s) as [r' s1]. cbn [fst snd] in *.
  destruct (IH b1 s1 Hs' Hops) as [Hrs Hs2]. destruct (run_lops ops b1), (mem_lops ops s1). cbn in *. by subst.
Qed.

(** ** Listing *)

Lemma take_while_upto (l1 l2 : list ObjectInfo) x :
  StronglySorted info_lt ((l1 ++ [x]) ++ l2) →
  take_while (λ y, bytes_leb (oi_Key y) (oi_Key x)) ((l1 ++ [x]) ++ l2) = l1 ++ [x].
Proof.
  induction l1 as [|y l1 IH]; cbn [app take_while]; intros Hs.
  - rewrite bytes_leb_refl. destruct l2 as [|z l2]; [done|]. cbn [take_while]. apply StronglySorted_inv in Hs as [_ Hx].
    apply Forall_cons in Hx as [Hz _]. unfold info_lt in Hz. by rewrite Hz.
  - apply StronglySorted_inv in Hs as [Hs Hy]. rewrite Forall_forall in Hy.
    assert (info_lt y x) as Hyx by (apply Hy; set_solver). unfold info_lt in Hyx.
    destruct (bytes_leb_total (oi_Key y) (oi_Key x)) as [->|E]; [|congruence]. f_equal. by apply IH.
Qed.

Section paging.
Context (readable : list bytes → bool) (prefix : bytes) (limit : Z) (b : localBackend) (all : list ObjectInfo).
Context (Hlist : ∀ cursor, local_List readable prefix cursor limit b = Ok (page_of all cursor limit)).
Context (Hsorted : StronglySorted info_lt all) (Hkeys : ∀ x, x ∈ all → oi_Key x ≠ []).

(** From a cursor to the end. *)
Lemma pages_from fuel l1 l2 :
  all = l1 ++ l2 → (length l2 < fuel)%nat →
  local_pages readable fuel prefix limit (match last l1 with Some x => oi_Key x | None => [] end) b = Ok l2.
Proof.
  revert l1 l2. induction fuel as [|fuel IH]; intros l1 l2 Hall Hf; [lia|]. cbn [local_pages]. rewrite Hlist.
  set (cursor := match last l1 with Some x => oi_Key x | None => [] end).
  assert ((if bool_decide (cursor = []) then 0%nat else length (take_while (λ x, bytes_leb (oi_Key x) cursor) all)) = length l1) as Hstart.
  { unfold cursor. destruct l1 as [|x0 l0]; [done|]. destruct (exists_last (l := x0 :: l0) ltac:(done)) as (l & x & E).
    rewrite E in *. rewrite last_snoc, bool_decide_false by (apply Hkeys; rewrite Hall; set_solver).
    rewrite Hall. f_equal. apply take_while_upto. by rewrite <- Hall. }
  unfold page_of. rewrite Hstart. cbn [lp_NextCursor lp_Keys]. rewrite Hall, drop_app_length, length_app.
  replace (length l1 + length l2 - length l1)%nat with (length l2) by lia.
  set (lim := if _ || _ then _ else _).
  destruct (Z.ltb_spec (Z.of_nat (length l1) + lim) (Z.of_nat (length l1 + length l2))) as [Hlt|Hge].
  - assert (lim = limit ∧ 0 < limit) as [Hlim Hpos].
    { unfold lim in *. destruct (Z.leb_spec limit 0); cbn [orb] in *; [lia|]. destruct (Z.ltb_spec (Z.of_nat (length l2)) limit); lia. }
    rewrite Hlim in *. set (n := Z.to_nat limit) in *.
    assert (take n l2 ≠ []) as Hne by (intros E%(f_equal length); rewrite length_take in E; cbn in E; lia).
    destruct (exists_last Hne) as (l & x & E). rewrite E, last_snoc.
    rewrite bool_decide_false.
    2: { apply Hkeys. rewrite Hall, <- (take_drop n l2), E. set_solver. }
    specialize (IH (l1 ++ take n l2) (drop n l2)). rewrite E, app_assoc, last_snoc in IH.
    rewrite IH; [by rewrite <- E, take_drop| |rewrite length_drop; lia].
    rewrite Hall, <- !app_assoc. f_equal. by rewrite app_assoc, <- E, take_drop.
  - rewrite bool_decide_true by done. rewrite take_ge; [done|]. lia.
Qed.

Lemma pages_all : local_pages readable (S (length all)) prefix limit [] b = Ok all.
Proof. apply (pages_from (S (length all)) []); [done|lia]. Qed.
End paging.

#[global] Instance info_le_trans : Transitive info_le.
Proof. intros x y z. apply bytes_leb_trans. Qed.
#[global] Instance info_le_total : Total info_le.
Proof. intros x y. apply bytes_leb_total. Qed.

Lemma below_spec q p : below q p = true ↔ ∃ x, x ≠ [] ∧ p = q ++ x.
Proof.
  unfold below. rewrite andb_true_iff, bool_decide_eq_true, Nat.ltb_lt. split.
  - intros [E Hl]. exists (drop (length q) p). split; [|by rewrite <- E at 1; rewrite take_drop].
    intros Ed%(f_equal length). rewrite length_drop in Ed. cbn in Ed. lia.
  - intros (x & Hx & ->). rewrite take_app_length, length_app. destruct x; [done|]. cbn. split; [done|lia].
Qed.

Lemma omap_keys_NoDup {A} (f : A → option ObjectInfo) (l : list A) :
  NoDup l → (∀ x y u v, x ∈ l → y ∈ l → f x = Some u → f y = Some v → oi_Key u = oi_Key v → x = y) →
  NoDup (oi_Key <$> omap f l).
Proof.
  intros Hl. induction Hl as [|x l Hx Hl IH]; intros Hinj; cbn; [constructor|].
  assert (NoDup (oi_Key <$> omap f l)) as Hnd by (apply IH; intros; eapply Hinj; eauto using list_elem_of_further).
  destruct (f x) as [u|] eqn:Hu; [|done]. cbn. constructor; [|done]. intros (v & E & Hv)%list_elem_of_fmap.
  apply list_elem_of_omap in Hv as (y & Hy & Hfy). apply Hx.
  rewrite (Hinj x y u v) by eauto using list_elem_of_here, list_elem_of_further. done.
Qed.

Lemma sorted_strict (l : list ObjectInfo) : StronglySorted info_le l → NoDup (oi_Key <$> l) → StronglySorted info_lt l.
Proof.
  induction 1 as [|x l Hl IH Hx]; cbn; [constructor|]. rewrite NoDup_cons. intros [Hn Hnd]. constructor; [by apply IH|].
  rewrite Forall_forall in *. intros y Hy. specialize (Hx y Hy). unfold info_lt. apply not_true_iff_false. intros E.
  apply Hn. rewrite (bytes_leb_antisym (oi_Key x) (oi_Key y)) by done. by apply list_elem_of_fmap_2.
Qed.

Section listing.
Context (U : bytes → Prop) (HU : key_space U).

Lemma key_under k q x : U k → q ≠ [] → Forall plain q → k = join_slash q ++ str "/" ++ x → splitPath k = q ++ split_slash x.
Proof.
  intros Hk Hq Hp E. destruct (ks_clean _ HU k Hk) as [Hne Hj].
  rewrite <- (split_join (splitPath k) Hne (plain_free _ (splitPath_plain k))), Hj, E, split_slash_app.
  by rewrite split_join by auto using plain_free.
Qed.

(** What a walk finds is there and under the prefix. *)
Lemma walk_sound readable b s prefix w oi :
  sim U b s → oi ∈ omap (walk_entry readable prefix w) (map_to_list (lb_tree b)) → mem_under prefix s oi.
Proof.
  intros Hs. rewrite list_elem_of_omap. intros ([p n] & Hin & He). apply elem_of_map_to_list in Hin. unfold walk_entry in He. cbn [fst snd] in He.
  destruct n as [d|]; [|done]. destruct (_ && _) eqn:Hc; [|done]. injection He as <-.
  rewrite !andb_true_iff in Hc. destruct Hc as [[_ Hp] _].
  apply (sm_file _ _ _ Hs) in Hin as (k & Hk & -> & Hd). rewrite (proj2 (ks_clean _ HU k Hk)) in *. by exists d.
Qed.

(** From a directory at or above the one of the prefix it finds everything,
    if it can read every directory. *)
Lemma walk_found readable b s prefix w oi :
  sim U b s → (∀ k, U k → has_prefix prefix k = true → below w (splitPath k) = true) → (∀ d, readable d = true) →
  mem_under prefix s oi → oi ∈ omap (walk_entry readable prefix w) (map_to_list (lb_tree b)).
Proof.
  intros Hs Hw Hr. rewrite list_elem_of_omap.
  intros (d & Hd & Hsz & Hp). pose proof (sm_dom _ _ _ Hs _ _ Hd) as Hk. exists (splitPath (oi_Key oi), NFile d).
  split; [apply elem_of_map_to_list, (sm_file _ _ _ Hs); by exists (oi_Key oi)|]. unfold walk_entry. cbn [fst snd].
  rewrite (proj2 (ks_clean _ HU _ Hk)), (Hw _ Hk Hp), Hp, (ks_temp _ HU _ Hk). rewrite <- Hsz.
  replace (forallb _ _) with true; [by destruct oi|]. symmetry. apply forallb_forall. auto.
Qed.

Lemma walk_NoDup readable b s prefix w :
  sim U b s → NoDup (oi_Key <$> omap (walk_entry readable prefix w) (map_to_list (lb_tree b))).
Proof.
  intros Hs. apply omap_keys_NoDup; [apply NoDup_map_to_list|].
  assert (∀ x u, x ∈ map_to_list (lb_tree b) → walk_entry readable prefix w x = Some u →
    ∃ d, x = (splitPath (oi_Key u), NFile d)) as Hback.
  { intros [p n] u Hin He. apply elem_of_map_to_list in Hin. unfold walk_entry in He. cbn [fst snd] in He.
    destruct n as [d|]; [|done]. destruct (_ && _); [|done]. injection He as <-. exists d. cbn.
    apply (sm_file _ _ _ Hs) in Hin as (k & Hk & -> & _). by rewrite (proj2 (ks_clean _ HU k Hk)). }
  intros x y u v Hx Hy Hu Hv E. destruct (Hback x u Hx Hu) as [d Ex], (Hback y v Hy Hv) as [d' Ey]. rewrite Ex, Ey, E in *.
  apply elem_of_map_to_list in Hx, Hy. congruence.
Qed.

Lemma splitPath_dir q : q ≠ [] → Forall plain q → splitPath (join_slash q ++ str "/") = q.
Proof.
  intros Hq Hp. unfold splitPath. rewrite <- (app_nil_r (str "/")), split_slash_app, split_join by auto using plain_free.
  rewrite fold_left_app, (clean_plain q), app_nil_r by done. transitivity (reverse (reverse q)); [done|]. apply reverse_involutive.
Qed.

(** Where the walk starts: for the prefix of a directory, at or above it. *)
Lemma walk_root readable b s prefix :
  sim U b s →
  ∃ w, (∀ cursor limit, local_List readable prefix cursor limit b =
      Ok (page_of (merge_sort info_le (omap (walk_entry readable prefix w) (map_to_list (lb_tree b)))) cursor limit)) ∧
    (dir_prefix prefix → ∀ k, U k → has_prefix prefix k = true → below w (splitPath k) = true).
Proof.
  intros Hs. unfold local_List. rewrite local_path_rooted by apply Hs. unfold list_all.
  set (w := match at_path (lb_tree b) (splitPath prefix) with Ok NDir => splitPath prefix | _ => dir_of (splitPath prefix) end).
  exists w. split.
  { intros cursor limit. case_bool_decide as E; [|done]. unfold w. rewrite E. done. }
  intros [->|(q & Hq & Hp & ->)] k Hk.
  - intros _. apply below_spec. exists (splitPath k). split; [by apply (ks_clean _ HU)|].
    assert (w = []) as -> by (unfold w; by destruct (at_path (lb_tree b) (splitPath [])) as [[]|]). done.
  - intros [x Hx]%has_prefix_spec. rewrite <- app_assoc in Hx. apply below_spec.
    rewrite (key_under k q x) by done. pose proof (split_slash_nonempty x) as Hne.
    assert (w = q ∨ w = dir_of q) as [->| ->].
    { unfold w. rewrite splitPath_dir by done. destruct (at_path _ q) as [[d|]|e]; [by right|by left|by right]. }
    + by exists (split_slash x).
    + exists (drop (length q - 1) q ++ split_slash x). split; [by destruct (drop _ _)|].
      unfold dir_of. by rewrite app_assoc, take_drop.
Qed.

Lemma list_all_spec readable b s prefix :
  sim U b s →
  ∃ all, (∀ cursor limit, local_List readable prefix cursor limit b = Ok (page_of all cursor limit)) ∧
    StronglySorted info_lt all ∧ (∀ oi, oi ∈ all → mem_under prefix s oi) ∧
    (dir_prefix prefix → (∀ d, readable d = true) → ∀ oi, mem_under prefix s oi → oi ∈ all).
Proof.
  intros Hs. destruct (walk_root readable b s prefix Hs) as (w & Hrun & Hw).
  exists (merge_sort info_le (omap (walk_entry readable prefix w) (map_to_list (lb_tree b)))). split_and!; [done|..].
  - apply sorted_strict; [apply (StronglySorted_merge_sort info_le)|].
    rewrite merge_sort_Permutation. by eapply walk_NoDup.
  - intros oi. rewrite merge_sort_Permutation. by apply walk_sound.
  - intros Hp Hr oi. rewrite merge_sort_Permutation. apply walk_found; auto.
Qed.
End listing.

(** ** The keys of a repository *)

Lemma hex_digit_char n : 0 <= n < 16 → hex_char (hex_digit n).
Proof. intros Hn. pose proof (from_hex_digit n Hn) as Hd. split; intros E; rewrite E in Hd; discriminate Hd. Qed.

Lemma hex_encode_chars b : Forall hex_char (hex_encode b).
Proof.
  induction b as [|x b IH]; [constructor|].
  change (hex_encode (x :: b)) with (hex_digit (byteZ x / 16) :: hex_digit (byteZ x mod 16) :: hex_encode b).
  pose proof (byteZ_range x). constructor; [apply hex_digit_char; Z.to_euclidean_division_equations; lia|].
  constructor; [apply hex_digit_char; Z.to_euclidean_division_equations; lia|done].
Qed.

Lemma hex_word w : w ≠ [] → Forall hex_char w → plain w ∧ contains tmpMarker w = false.
Proof.
  intros Hne Hw. split.
  - split_and!; [done| | |].
    + intros ->. apply Forall_cons in Hw as [[_ Hc] _]. done.
    + intros ->. apply Forall_cons in Hw as [[_ Hc] _]. done.
    + intros Hin. rewrite Forall_forall in Hw. by destruct (Hw _ Hin).
  - clear Hne. induction Hw as [|c w [_ Hc] _ IH]; [done|]. cbn [contains]. rewrite IH.
    change (has_prefix tmpMarker (c :: w)) with (bool_decide (x2e = c) && has_prefix (tail tmpMarker) w).
    by rewrite bool_decide_false by congruence.
Qed.

Lemma hex_of_array {n} (a : barray n) :
  (0 < n)%nat → let w := hex_encode (ba a) in
  (plain w ∧ contains tmpMarker w = false) ∧ plain (take 2 w).
Proof.
  intros Hn w. assert (length w = 2 * n)%nat as Hl by (unfold w; by rewrite length_hex_encode, barray_length).
  pose proof (hex_encode_chars (ba a)) as Hc. split.
  - apply hex_word; [|done]. fold w. intros E. rewrite E in Hl. cbn in Hl. lia.
  - apply hex_word; [|by apply Forall_take]. fold w. intros E%(f_equal length). rewrite length_take, Hl in E. cbn [length] in E. lia.
Qed.

(** The components of the keys. *)
Lemma atlas_parts region k :
  plain region → atlas_key region k →
  ∃ ws, k = join_slash ws ∧ Forall plain ws ∧ contains tmpMarker (default [] (last ws)) = false ∧
    ((∃ x, ws = [str "atlas"; str "c"] ++ x ∧ length x = 3%nat) ∨ (∃ x, ws = [str "atlas"; str "m"] ++ x ∧ length x = 2%nat)).
Proof.
  intros Hr. assert (∀ c, c = str "atlas" ∨ c = str "c" ∨ c = str "m" → plain c) as Hconst.
  { intros c Hc. assert (bool_decide (x2f ∈ c) = false) as Hs by (by destruct Hc as [->|[->| ->]]).
    apply bool_decide_eq_false in Hs. by destruct Hc as [->|[->| ->]]; split_and!. }
  intros [[rnd ->]|[id ->]].
  - destruct (hex_of_array rnd ltac:(lia)) as [[Hid Ht] Hsh].
    exists [str "atlas"; str "c"; region; take 2 (hex_encode (ba rnd)); hex_encode (ba rnd)]. split_and!.
    + unfold newContainerKey, containerKey, newContainerID. cbn [join_slash]. by rewrite <- ?app_assoc.
    + do 2 (apply Forall_cons_2; [apply Hconst; auto|]). repeat (apply Forall_cons_2; [done|]). apply Forall_nil_2.
    + done.
    + left. eexists. split; [done|done].
  - destruct (hex_of_array id ltac:(lia)) as [[Hid Ht] Hsh].
    exists [str "atlas"; str "m"; take 2 (hex_encode (ba id)); hex_encode (ba id)]. split_and!.
    + unfold manifestKey. cbn [join_slash]. by rewrite <- ?app_assoc.
    + do 2 (apply Forall_cons_2; [apply Hconst; auto|]). repeat (apply Forall_cons_2; [done|]). apply Forall_nil_2.
    + done.
    + right. eexists. split; [done|done].
Qed.

(** They are clean, and none lies below another. *)
Lemma atlas_key_space region : plain region → key_space (atlas_key region).
Proof.
  intros Hr. assert (∀ k, atlas_key region k → ∃ ws, splitPath k = ws ∧ k = join_slash ws ∧
    contains tmpMarker (default [] (last ws)) = false ∧ ((∃ x, ws = [str "atlas"; str "c"] ++ x ∧ length x = 3%nat) ∨
    (∃ x, ws = [str "atlas"; str "m"] ++ x ∧ length x = 2%nat))) as Hparts.
  { intros k Hk. destruct (atlas_parts region k Hr Hk) as (ws & -> & Hp & Ht & Hshape). exists ws.
    split; [by apply splitPath_join|done]. }
  split.
  - intros k (ws & -> & -> & _ & Hs)%Hparts. split; [|done]. by destruct Hs as [(x & -> & _)|(x & -> & _)].
  - intros k (ws & -> & _ & Ht & _)%Hparts. done.
  - intros k k' x (ws & -> & _ & _ & Hs)%Hparts (ws' & -> & _ & _ & Hs')%Hparts E.
    destruct Hs as [(y & -> & Hy)|(y & -> & Hy)], Hs' as [(y' & -> & Hy')|(y' & -> & Hy')]; try discriminate E;
      apply (f_equal length) in E; rewrite !length_app in E; cbn in E; apply length_zero_iff_nil; lia.
Qed.

(** ** Properties *)

(** C36: No key leads out of the store's directory: whatever [..], [.] and
    slashes it holds, its path is the root followed by plain components, those
    of the cleaned key, or the key is refused.  A store at the file system's
    own root refuses every key. *)
Theorem path_confined mkdir cwd dir t b key :
  local_New mkdir cwd dir t = Ok b →
  (∀ p, local_path key b = Ok p → p ≠ [] ∧ Forall plain p ∧ p = splitPath key) ∧
  (lb_root b ≠ str "/" → local_path key b = if bool_decide (splitPath key = []) then Err LocalErrEmptyKey else Ok (splitPath key)) ∧
  (lb_root b = str "/" → ∃ e, local_path key b = Err e).
Proof.
  intros Hnew. assert (lb_root b ≠ str "/" → rooted b) as Hroot.
  { intros Hne. assert (∃ r, lb_root b = CleanRooted r) as [r Hr].
    { unfold local_New, FilepathAbs in Hnew. destruct mkdir; [done|].
      destruct (has_prefix _ _); [|destruct cwd; [|done]]; injection Hnew as <-; by eexists. }
    exists r. split; [done|]. intros E. apply Hne. rewrite Hr. unfold CleanRooted. by rewrite E. }
  assert (lb_root b ≠ str "/" → local_path key b = if bool_decide (splitPath key = []) then Err LocalErrEmptyKey else Ok (splitPath key)) as Hne
    by (intros Hb; by apply local_path_rooted, Hroot).
  split_and!; [|done|apply local_path_top]. intros p Hp. destruct (decide (lb_root b = str "/")) as [Hb|Hb].
  - destruct (local_path_top key b Hb) as [e He]. congruence.
  - rewrite (Hne Hb) in Hp. case_bool_decide; [done|]. injection Hp as <-. split_and!; [done|apply splitPath_plain|done].
Qed.

(** C29: On a set of clean keys none of which lies below another, and with new
    names for temporary files, the directory is a map: any sequence of gets,
    puts, conditional puts, stats and deletions returns exactly what the map
    returns and leaves it holding the same objects, wherever the operating
    system fails.  An operation that fails returns the error and leaves every
    object as it was, except that a put whose last step, the [Stat] of the
    file it has placed, fails returns the error with the object stored; and a
    deletion the system answers with [ENOENT] counts as done. *)
Theorem local_refines_map U ops b s :
  key_space U → sim U b s → lops_ok U ops b →
  (run_lops ops b).1 = (mem_lops ops s).1 ∧ sim U (run_lops ops b).2 (mem_lops ops s).2.
Proof. intros HU. by apply run_sim. Qed.

(** C35: Paging through a listing of a directory that holds a set of clean keys
    none of which lies below another ends, whatever the prefix, the page size
    and the directories that cannot be read, and gives objects under the
    prefix only, each at most once, sorted by key.  It gives all of them when
    the prefix is empty or that of a directory, ending in a slash, and every
    directory can be read; for other prefixes, and where a directory cannot
    be read, the listing may be incomplete without an error. *)
Theorem listing_pages U readable b s prefix limit :
  key_space U → sim U b s →
  ∃ all, local_pages readable (S (length all)) prefix limit [] b = Ok all ∧
    StronglySorted info_lt all ∧ (∀ oi, oi ∈ all → mem_under prefix s oi) ∧
    (dir_prefix prefix → (∀ d, readable d = true) → ∀ oi, mem_under prefix s oi → oi ∈ all).
Proof.
  intros HU Hs. destruct (list_all_spec U HU readable b s prefix Hs) as (all & Hrun & Hsort & Hmem & Hall). exists all.
  split_and!; [|done..]. apply pages_all; [by intros|done|]. intros x (d & Hd & _)%Hmem E.
  destruct (ks_clean _ HU _ (sm_dom _ _ _ Hs _ _ Hd)) as [Hne _]. apply Hne. by rewrite E.
Qed.
