(* ===== verification/LocalStoreDemo.v ===== *)
(** A directory of objects to run the theorems on.

    The store of a repository in the region "local" under /data: two
    containers are put, one of them a second time under the condition that it
    is absent, read, listed in pages of one and deleted. *)
From S2P Require Import Prelude Bolt Chunk Store Pack MetaDB RepoUtil Repo LocalStore LocalStoreThm.

Definition ls_root : bytes := str "/data".
Definition ls_empty : localBackend := mkLocal ls_root ∅.
Definition ls_rand (i : Z) : barray 16 :=
  default (@BArray 16 (replicate 16 x00) eq_refl) (barray_of 16 (be 16 i)).
Definition ls_key (i : Z) : bytes := newContainerKey (str "local") (ls_rand i).

(** Nothing fails; the temporary file's name is [x]. *)
Definition ls_fine (x : bytes) : putRun := mkPutRun None (Ok x) None None None None.
(** The disk is full. *)
Definition ls_full : putRun := mkPutRun None (Ok (str "9")) (Some (SysErrno 28)) None None None.
(** The file cannot be seen after it has been placed. *)
Definition ls_unseen (x : bytes) : putRun := mkPutRun None (Ok x) None None None (Some (SysErrno 5)).

Definition ls_ops : list lop :=
  [LoPut (ls_fine (str "1")) (ls_key 1) (bytes_reader (str "first")) (mkPutOpts true);
   LoPut (ls_fine (str "2")) (ls_key 2) (bytes_reader (str "second")) (mkPutOpts false);
   LoPut ls_full (ls_key 2) (bytes_reader (str "lost")) (mkPutOpts false);
   LoPut (ls_fine (str "3")) (ls_key 1) (bytes_reader (str "again")) (mkPutOpts true);
   LoGet None (ls_key 1) 1 3;
   LoDelete (λ _, None) [ls_key 1];
   LoStat None 4096 (ls_key 1);
   LoPut (ls_unseen (str "4")) (ls_key 1) (bytes_reader (str "there")) (mkPutOpts true);
   LoStat None 4096 (ls_key 1)].
Definition ls_after : localBackend := (run_lops (take 2 ls_ops) ls_empty).2.
Definition ls_objects : MemBackend.mem := (mem_lops (take 2 ls_ops) ∅).2.

(** A directory "a" beside a file "ab". *)
Definition ls_siblings : localBackend :=
  mkLocal ls_root {[ [str "a"] := NDir; [str "a"; str "x"] := NFile []; [str "ab"] := NFile [] ]}.

Definition results_check (rs : list lres) : bool :=
  match rs with
  | [RInfo (Ok i1); RInfo (Ok i2); RInfo (Err e3); RInfo (Err e4); RReader (Ok r); RDeleted (Ok [d]); RInfo (Err e7); RInfo (Err e8); RInfo (Ok i9)] =>
      (oi_Size i1 =? 5) && (oi_Size i2 =? 6) && bool_decide (e3 = SysErrno 28) && bool_decide (e4 = OsErrExist)
      && bool_decide (rd_data r = str "irs") && bool_decide (dr_Err d = None) && bool_decide (e7 = StoreErrNotFound)
      && bool_decide (e8 = SysErrno 5) && (oi_Size i9 =? 5)
  | _ => false
  end.

(** Whether the temporary names of the puts are free. *)
Fixpoint temps_check (ops : list lop) (b : localBackend) : bool :=
  match ops with
  | [] => true
  | op :: ops' =>
      match op with
      | LoPut o k _ _ =>
          match pr_temp o with
          | Ok x => bool_decide (lb_tree b !! (dir_of (splitPath k) ++ [tmpMarker ++ x]) = None)
          | Err _ => true
          end
      | _ => true
      end && temps_check ops' (run_lop op b).2
  end.

(** The keys of an operation. *)
Definition lop_in (U : bytes → Prop) (op : lop) : Prop :=
  match op with
  | LoGet _ k _ _ | LoGetInto _ k _ _ | LoStat _ _ k | LoPut _ k _ _ => U k
  | LoDelete o keys => Forall U keys
  end.

Lemma temps_check_sound (U : bytes → Prop) (ops : list lop) (b : localBackend) :
  Forall (lop_in U) ops → temps_check ops b = true → lops_ok U ops b.
Proof.
  intros Hops. revert b. induction Hops as [|op ops Hop _ IH]; intros b; cbn [temps_check lops_ok]; [done|].
  intros [H1 H2]%andb_prop. split; [|by apply IH]. destruct op as [| | |o k r po|o keys]; cbn in *; try done.
  split; [done|]. intros x Hx. rewrite Hx in H1. by apply bool_decide_eq_true in H1.
Qed.

Lemma plain_check (w : bytes) :
  negb (bool_decide (w = [])) && negb (bool_decide (w = str ".")) && negb (bool_decide (w = str "..")) && negb (bool_decide (x2f ∈ w)) = true →
  plain w.
Proof. rewrite !andb_true_iff, !negb_true_iff, !bool_decide_eq_false. intros [[[H1 H2] H3] H4]. by split_and!. Qed.

Lemma local_plain : plain (str "local").
Proof. apply plain_check. vm_cast_no_check (eq_refl true). Qed.

Lemma ls_space : key_space (atlas_key (str "local")).
Proof. apply atlas_key_space, local_plain. Qed.

Lemma ls_empty_sim : sim (atlas_key (str "local")) ls_empty ∅.
Proof.
  split; [exists ls_root; by split|..]; cbn.
  - intros p d. rewrite lookup_empty. split; [done|]. intros (k & _ & _ & E). by rewrite lookup_empty in E.
  - intros p. by rewrite lookup_empty.
  - intros k d. by rewrite lookup_empty.
Qed.

Lemma ls_key_in (i : Z) : atlas_key (str "local") (ls_key i).
Proof. left. by eexists. Qed.

Lemma ls_ops_ok : lops_ok (atlas_key (str "local")) ls_ops ls_empty.
Proof.
  apply temps_check_sound; [|vm_cast_no_check (eq_refl true)]. pose proof ls_key_in as Hk.
  repeat (apply Forall_cons_2; [first [apply Hk | apply Forall_cons_2; [apply Hk|apply Forall_nil_2]]|]). apply Forall_nil_2.
Qed.

(** Listing "a" misses the key "ab", which has that prefix: the walk starts
    in the directory of that name. *)
Lemma list_misses_sibling :
  match local_List (λ _, true) (str "a") [] 0 ls_siblings with
  | Ok page => bool_decide (oi_Key <$> lp_Keys page = [str "a/x"])
  | Err _ => false
  end = true.
Proof. vm_cast_no_check (eq_refl true). Qed.

(** * Witnesses *)

Lemma path_confined_witness :
  local_New None (Ok (str "/")) (str "/data/../data") ∅ = Ok ls_empty ∧ local_path (str "../../etc/x") ls_empty = Ok [str "etc"; str "x"].
Proof.
  assert (local_New None (Ok (str "/")) (str "/data/../data") ∅ = Ok ls_empty) as Hn by done. split; [exact Hn|].
  destruct (path_confined None (Ok (str "/")) (str "/data/../data") ∅ ls_empty (str "../../etc/x") Hn) as (_ & Hp & _).
  rewrite Hp by done. done.
Defined.

Lemma local_refines_map_witness :
  results_check (run_lops ls_ops ls_empty).1 = true ∧
  sim (atlas_key (str "local")) (run_lops ls_ops ls_empty).2 (mem_lops ls_ops ∅).2.
Proof.
  destruct (local_refines_map (atlas_key (str "local")) ls_ops ls_empty ∅ ls_space ls_empty_sim ls_ops_ok) as [Hr Hs].
  split; [|exact Hs]. rewrite Hr. vm_cast_no_check (eq_refl true).
Defined.

Lemma listing_pages_witness :
  ∃ all, local_pages (λ _, true) (S (length all)) (str "atlas/c/local/") 1 [] ls_after = Ok all ∧
    (mkObjectInfo (ls_key 1) 5 ∈ all) ∧ mkObjectInfo (ls_key 2) 6 ∈ all.
Proof.
  assert (sim (atlas_key (str "local")) ls_after ls_objects) as Hs.
  { assert (lops_ok (atlas_key (str "local")) (take 2 ls_ops) ls_empty) as Hok.
    { destruct ls_ops_ok as (H1 & H2 & _). by split_and!. }
    assert (∀ ops b s, sim (atlas_key (str "local")) b s → lops_ok (atlas_key (str "local")) ops b →
      sim (atlas_key (str "local")) (run_lops ops b).2 (mem_lops ops s).2) as Hrun.
    { intros ops b s H1 H2. by apply (run_sim _ ops b s ls_space). }
    exact (Hrun _ _ _ ls_empty_sim Hok). }
  assert (dir_prefix (str "atlas/c/local/")) as Hp.
  { right. exists [str "atlas"; str "c"; str "local"]. split_and!; [done| |done].
    repeat (apply Forall_cons_2; [apply plain_check; vm_cast_no_check (eq_refl true)|]). apply Forall_nil_2. }
  destruct (listing_pages (atlas_key (str "local")) (λ _, true) ls_after ls_objects (str "atlas/c/local/") 1 ls_space Hs)
    as (all & Hrun & _ & _ & Hm).
  exists all. split; [exact Hrun|]. split; apply (Hm Hp (λ _, eq_refl)); eexists; split_and!; by vm_compute.
Defined.
