(* ===== verification/CloudStore.v ===== *)
(** pkg/store/s3, gcs and azure: backends over the clients of three services.

    A client is code of a vendor's SDK, and so an interface: [S3Client],
    [GCSClient] and [AzureClient] have the calls the packages make, on a
    service that is the state [C].  What the packages look at in an error is
    [s3Error], [gcsError] and [azError].  [S3Laws], [GCSLaws] and [AzureLaws]
    state what the services document: an object is read back as it was
    written, a request that is refused changes nothing, and the pages of a
    listing come in the order of the names.  [*_object] is the object under a
    name, and what a continuation token stands for is a relation; neither is a
    call.  Entity tags, modification times, storage tiers and prices are left
    out. *)
From S2P Require Import Prelude Bolt Chunk Store MetaDB RepoUtil Repo LocalStore.

(** [strings.TrimPrefix]. *)
Definition trim_prefix (p s : bytes) : bytes := if has_prefix p s then drop (length p) s else s.

(** The key of a probe, from the clock and [rand.Int63]. *)
Definition probeKey (prefix : bytes) (now rnd : Z) : bytes :=
  prefix ++ str "atlas/.probe-" ++ decimal now ++ str "-" ++ decimal rnd.

(** The shape of all three probes: two conditional puts of one key, and the
    deferred deletion. *)
Definition probe_twice {C E R} (put : C → (E + R) * C) (del : C → C) (rejected : E → bool) (c : C) : result bool * C :=
  match put c with
  | (inl _, c) => (Err StoreErrProbe, del c)
  | (inr _, c) =>
      match put c with
      | (inr _, c) => (Ok false, del c)
      | (inl e, c) => (Ok (rejected e), del c)
      end
  end.

(** The loop of the three [Delete]s. *)
Fixpoint delete_each {B} (del : bytes → B → option error * B) (keys : list bytes) (b : B) : list DeleteResult * B :=
  match keys with
  | [] => ([], b)
  | k :: keys' =>
      let '(e, b) := del k b in
      let '(rs, b) := delete_each del keys' b in
      (mkDeleteResult k e :: rs, b)
  end.

(** Names in order, all those of a set of objects that start with [p] and come
    after a name. *)
Definition bytes_lt (a b : bytes) : Prop := bytes_leb b a = false.
Definition keys_after (obj : bytes → option bytes) (p : bytes) (after : option bytes) (ks : list bytes) : Prop :=
  StronglySorted bytes_lt ks ∧
  ∀ k, k ∈ ks ↔ is_Some (obj k) ∧ has_prefix p k = true ∧ ∀ a, after = Some a → bytes_lt a k.

(** ** S3 *)

(** What [errors.As] finds in an error, and its text. *)
Record s3Error := mkS3Error {
  se_NoSuchKey : bool;              (** a [types.NoSuchKey] *)
  se_Code : option bytes;           (** the code of a [smithy.APIError] *)
  se_Status : option Z;             (** the status of a [smithyhttp.ResponseError] *)
  se_Text : bytes
}.

(** [bytes=first-last], or [bytes=first-]. *)
Record httpRange := mkRange { hr_first : Z; hr_last : option Z }.

Record s3Item := mkS3Item { si_Key : option bytes; si_Size : option Z }.

Class S3Client (C : Type) := {
  PutObject : bytes → bytes → reader → Z → bool → C → (s3Error + unit) * C;
  GetObject : bytes → bytes → option httpRange → C → s3Error + reader;
  DeleteObject : bytes → bytes → C → option s3Error * C;
  HeadObject : bytes → bytes → C → s3Error + option Z;
  ListObjectsV2 : bytes → bytes → option bytes → option Z → C → s3Error + (list s3Item * option bool);
  s3_object : bytes → bytes → C → option bytes;
  (** Whether the endpoint honours [If-None-Match]. *)
  s3_enforces : C → bool
}.

Definition s3_isPreconditionFailed (e : s3Error) : bool :=
  match se_Code e with
  | Some code => bool_decide (code = str "PreconditionFailed") || bool_decide (code = str "ConditionalRequestConflict")
  | None => contains (str "PreconditionFailed") (se_Text e) || contains (str "412") (se_Text e)
  end.

Definition s3_isNotFound (e : s3Error) : bool :=
  se_NoSuchKey e ||
  match se_Code e with
  | Some code => bool_decide (code = str "NoSuchKey") || bool_decide (code = str "NotFound")
  | None => false
  end ||
  match se_Status e with Some st => st =? 404 | None => false end.

Record s3Config := mkS3Config { s3_Bucket : bytes; s3_Prefix : bytes }.

Record s3Backend (C : Type) := mkS3Backend { s3_client : C; s3_bucket : bytes; s3_prefix : bytes; s3_caps : Caps }.
Arguments mkS3Backend {C}.
Arguments s3_client {C}. Arguments s3_bucket {C}. Arguments s3_prefix {C}. Arguments s3_caps {C}.

Definition set_s3_client {C} (c : C) (b : s3Backend C) : s3Backend C := mkS3Backend c (s3_bucket b) (s3_prefix b) (s3_caps b).

Section s3.
Context `{S3Client C}.

Definition s3_probeConditionalPut (bucket prefix : bytes) (now rnd : Z) (c : C) : result bool * C :=
  let key := probeKey prefix now rnd in
  let body := str "probe" in
  probe_twice (PutObject bucket key (bytes_reader body) (blen body) true) (λ c, (DeleteObject bucket key c).2)
    s3_isPreconditionFailed c.

Definition s3_New (cfg : s3Config) (now rnd : Z) (c : C) : result (s3Backend C) * C :=
  match s3_probeConditionalPut (s3_Bucket cfg) (s3_Prefix cfg) now rnd c with
  | (Err e, c) => (Err e, c)
  | (Ok condPut, c) => (Ok (mkS3Backend c (s3_Bucket cfg) (s3_Prefix cfg) (mkCaps condPut 0)), c)
  end.

Definition s3_fullKey (b : s3Backend C) (key : bytes) : bytes := s3_prefix b ++ key.

Definition s3_Get (key : bytes) (off length : Z) (b : s3Backend C) : result reader :=
  let range := if (0 <? off) || (0 <=? length)
               then Some (mkRange off (if 0 <=? length then Some (i64 (off + length - 1)) else None)) else None in
  match GetObject (s3_bucket b) (s3_fullKey b key) range (s3_client b) with
  | inl e => Err (if s3_isNotFound e then StoreErrNotFound else StoreErrSdk)
  | inr body => Ok body
  end.

Definition s3_Put (key : bytes) (r : reader) (size : Z) (o : PutOpts) : M (s3Backend C) ObjectInfo := λ b,
  if IfAbsent o && negb (ConditionalPut (s3_caps b)) then (Err StoreErrNoConditionalPut, b)
  else
    match PutObject (s3_bucket b) (s3_fullKey b key) r size (IfAbsent o) (s3_client b) with
    | (inl e, c) => (Err (if IfAbsent o && s3_isPreconditionFailed e then OsErrExist else StoreErrSdk), set_s3_client c b)
    | (inr _, c) => (Ok (mkObjectInfo key size), set_s3_client c b)
    end.

Definition s3_delete (key : bytes) (b : s3Backend C) : option error * s3Backend C :=
  let '(e, c) := DeleteObject (s3_bucket b) (s3_fullKey b key) (s3_client b) in
  (match e with Some _ => Some StoreErrSdk | None => None end, set_s3_client c b).
Definition s3_Delete (keys : list bytes) : M (s3Backend C) (list DeleteResult) := λ b,
  let '(rs, b) := delete_each s3_delete keys b in (Ok rs, b).

Definition s3_Stat (key : bytes) (b : s3Backend C) : result ObjectInfo :=
  match HeadObject (s3_bucket b) (s3_fullKey b key) (s3_client b) with
  | inl e => Err (if s3_isNotFound e then StoreErrNotFound else StoreErrSdk)
  | inr size => Ok (mkObjectInfo key (default 0 size))
  end.

Definition s3_List (prefix cursor : bytes) (limit : Z) (b : s3Backend C) : result ListPage :=
  let startAfter := if bool_decide (cursor = []) then None else Some (s3_fullKey b cursor) in
  let maxKeys := if 0 <? limit then Some (i32 limit) else None in
  match ListObjectsV2 (s3_bucket b) (s3_fullKey b prefix) startAfter maxKeys (s3_client b) with
  | inl _ => Err StoreErrSdk
  | inr (contents, truncated) =>
      let keys := merge_sort info_le
        ((λ it, mkObjectInfo (trim_prefix (s3_prefix b) (default [] (si_Key it))) (default 0 (si_Size it))) <$> contents) in
      let next := if (0 <? length keys)%nat && default false truncated
                  then match last keys with Some x => oi_Key x | None => [] end else [] in
      Ok (mkListPage keys next)
  end.

Definition s3_Caps (b : s3Backend C) : Caps := s3_caps b.

#[global] Instance s3_backend : BackendOps (s3Backend C) := {|
  b_Get := s3_Get;
  b_Put key data o := s3_Put key (bytes_reader data) (blen data) o;
  b_Delete := s3_Delete;
  b_List := s3_List;
  b_Stat := s3_Stat;
  b_Caps := s3_Caps;
  b_GetInto := None;
  b_object key b := s3_object (s3_bucket b) (s3_fullKey b key) (s3_client b)
|}.
End s3.

(** ** Google Cloud Storage *)

Record gcsError := mkGcsError {
  ge_NotExist : bool;               (** [storage.ErrObjectNotExist] *)
  ge_Code : option Z;               (** the code of a [googleapi.Error] *)
  ge_Text : bytes
}.

(** A writer takes bytes and uploads what it has when it is closed. *)
Class GCSClient (C : Type) := {
  NewRangeReader : bytes → bytes → Z → Z → C → gcsError + reader;
  WriterWrite : bytes → bytes → bytes → bool → C → option gcsError;
  WriterClose : bytes → bytes → bytes → bool → C → (gcsError + Z) * C;
  ObjectDelete : bytes → bytes → C → option gcsError * C;
  ObjectAttrs : bytes → bytes → C → gcsError + Z;
  NextPage : bytes → bytes → Z → bytes → C → gcsError + (list (bytes * Z) * bytes);
  gcs_object : bytes → bytes → C → option bytes;
  gcs_enforces : C → bool;
  (** A token of a listing resumes after a name. *)
  gcs_token : bytes → bytes → bytes → option bytes → C → Prop
}.

Definition gcs_isPreconditionFailed (e : gcsError) : bool :=
  match ge_Code e with
  | Some code => code =? 412
  | None => contains (str "412") (ge_Text e) || contains (str "Precondition Failed") (ge_Text e)
  end.

Definition gcs_isNotFound (e : gcsError) : bool := ge_NotExist e.

Record gcsConfig := mkGcsConfig { gcs_Bucket : bytes; gcs_Prefix : bytes }.

Record gcsBackend (C : Type) := mkGcsBackend { gcs_client : C; gcs_bucket : bytes; gcs_prefix : bytes; gcs_caps : Caps }.
Arguments mkGcsBackend {C}.
Arguments gcs_client {C}. Arguments gcs_bucket {C}. Arguments gcs_prefix {C}. Arguments gcs_caps {C}.

Definition set_gcs_client {C} (c : C) (b : gcsBackend C) : gcsBackend C :=
  mkGcsBackend c (gcs_bucket b) (gcs_prefix b) (gcs_caps b).

Definition maxInt32 : Z := 2 ^ 31 - 1.

Section gcs.
Context `{GCSClient C}.

(** [put] of the probe: an error of [Write] returns before the writer is
    closed. *)
Definition gcs_probePut (bucket key : bytes) (c : C) : (gcsError + Z) * C :=
  match WriterWrite bucket key (str "probe") true c with
  | Some e => (inl e, c)
  | None => WriterClose bucket key (str "probe") true c
  end.

Definition gcs_probeConditionalPut (bucket prefix : bytes) (now rnd : Z) (c : C) : result bool * C :=
  let key := probeKey prefix now rnd in
  probe_twice (gcs_probePut bucket key) (λ c, (ObjectDelete bucket key c).2) gcs_isPreconditionFailed c.

(** [New]; [client] is what [storage.NewClient] answers. *)
Definition gcs_New (cfg : gcsConfig) (now rnd : Z) (client : result unit) (c : C) : result (gcsBackend C) * C :=
  match client with
  | Err e => (Err e, c)
  | Ok _ =>
      match gcs_probeConditionalPut (gcs_Bucket cfg) (gcs_Prefix cfg) now rnd c with
      | (Err e, c) => (Err e, c)
      | (Ok condPut, c) => (Ok (mkGcsBackend c (gcs_Bucket cfg) (gcs_Prefix cfg) (mkCaps condPut 0)), c)
      end
  end.

Definition gcs_fullKey (b : gcsBackend C) (key : bytes) : bytes := gcs_prefix b ++ key.

Definition gcs_Get (key : bytes) (off length : Z) (b : gcsBackend C) : result reader :=
  match NewRangeReader (gcs_bucket b) (gcs_fullKey b key) off length (gcs_client b) with
  | inl e => Err (if gcs_isNotFound e then StoreErrNotFound else StoreErrSdk)
  | inr rc => Ok rc
  end.

(** [Put].  When the copy fails, because the writer or the reader does, the
    writer is closed all the same. *)
Definition gcs_Put (key : bytes) (r : reader) (size : Z) (o : PutOpts) : M (gcsBackend C) ObjectInfo := λ b,
  if IfAbsent o && negb (ConditionalPut (gcs_caps b)) then (Err StoreErrNoConditionalPut, b)
  else
    let full := gcs_fullKey b key in
    let cond := IfAbsent o in
    let copied := match WriterWrite (gcs_bucket b) full (rd_data r) cond (gcs_client b) with
                  | Some _ => Some StoreErrSdk
                  | None => rd_err r
                  end in
    match copied, WriterClose (gcs_bucket b) full (rd_data r) cond (gcs_client b) with
    | Some e, (_, c) => (Err e, set_gcs_client c b)
    | None, (inl e, c) => (Err (if cond && gcs_isPreconditionFailed e then OsErrExist else StoreErrSdk), set_gcs_client c b)
    | None, (inr attrsSize, c) => (Ok (mkObjectInfo key attrsSize), set_gcs_client c b)
    end.

Definition gcs_delete (key : bytes) (b : gcsBackend C) : option error * gcsBackend C :=
  let '(e, c) := ObjectDelete (gcs_bucket b) (gcs_fullKey b key) (gcs_client b) in
  (match e with Some _ => Some StoreErrSdk | None => None end, set_gcs_client c b).
Definition gcs_Delete (keys : list bytes) : M (gcsBackend C) (list DeleteResult) := λ b,
  let '(rs, b) := delete_each gcs_delete keys b in (Ok rs, b).

Definition gcs_Stat (key : bytes) (b : gcsBackend C) : result ObjectInfo :=
  match ObjectAttrs (gcs_bucket b) (gcs_fullKey b key) (gcs_client b) with
  | inl e => Err (if gcs_isNotFound e then StoreErrNotFound else StoreErrSdk)
  | inr size => Ok (mkObjectInfo key size)
  end.

Definition gcs_List (prefix cursor : bytes) (limit : Z) (b : gcsBackend C) : result ListPage :=
  let pageSize := if limit <=? 0 then maxInt32 else limit in
  match NextPage (gcs_bucket b) (gcs_fullKey b prefix) pageSize cursor (gcs_client b) with
  | inl _ => Err StoreErrSdk
  | inr (page, next) =>
      Ok (mkListPage ((λ '(name, size), mkObjectInfo (trim_prefix (gcs_prefix b) name) size) <$> page) next)
  end.

Definition gcs_Caps (b : gcsBackend C) : Caps := gcs_caps b.

#[global] Instance gcs_backend : BackendOps (gcsBackend C) := {|
  b_Get := gcs_Get;
  b_Put key data o := gcs_Put key (bytes_reader data) (blen data) o;
  b_Delete := gcs_Delete;
  b_List := gcs_List;
  b_Stat := gcs_Stat;
  b_Caps := gcs_Caps;
  b_GetInto := None;
  b_object key b := gcs_object (gcs_bucket b) (gcs_fullKey b key) (gcs_client b)
|}.
End gcs.

(** ** Azure Blob Storage *)

(** The code [bloberror.HasCode] compares. *)
Record azError := mkAzError { aze_Code : option bytes }.

(** A count of 0 reads to the end. *)
Record azRange := mkAzRange { az_Offset : Z; az_Count : Z }.

Record azItem := mkAzItem { ai_Name : bytes; ai_ContentLength : option Z }.

Class AzureClient (C : Type) := {
  az_Upload : bytes → bytes → reader → bool → C → (azError + unit) * C;
  az_UploadBuffer : bytes → bytes → bytes → bool → C → (azError + unit) * C;
  az_DownloadStream : bytes → bytes → azRange → C → azError + reader;
  az_DeleteBlob : bytes → bytes → C → option azError * C;
  az_GetProperties : bytes → bytes → C → azError + option Z;
  az_ListPage : bytes → bytes → option bytes → option Z → C → azError + (list azItem * option bytes);
  az_object : bytes → bytes → C → option bytes;
  az_enforces : C → bool;
  (** A marker resumes after a name and has at most so many pages to come. *)
  az_marker : bytes → bytes → option bytes → option bytes → nat → C → Prop
}.

Definition az_HasCode (e : azError) (codes : list bytes) : bool :=
  match aze_Code e with Some code => bool_decide (code ∈ codes) | None => false end.
Definition az_isBlobExists (e : azError) : bool := az_HasCode e [str "BlobAlreadyExists"; str "ConditionNotMet"].
Definition az_isNotFound (e : azError) : bool := az_HasCode e [str "BlobNotFound"].

Record azConfig := mkAzConfig { az_Container : bytes; az_Prefix : bytes }.

Record azureBackend (C : Type) := mkAzureBackend { az_client : C; az_container : bytes; az_prefix : bytes; az_caps : Caps }.
Arguments mkAzureBackend {C}.
Arguments az_client {C}. Arguments az_container {C}. Arguments az_prefix {C}. Arguments az_caps {C}.

Definition set_az_client {C} (c : C) (b : azureBackend C) : azureBackend C :=
  mkAzureBackend c (az_container b) (az_prefix b) (az_caps b).

Section azure.
Context `{AzureClient C}.

Definition az_probeConditionalPut (container prefix : bytes) (now rnd : Z) (c : C) : result bool * C :=
  let key := probeKey prefix now rnd in
  probe_twice (az_UploadBuffer container key (str "probe") true) (λ c, (az_DeleteBlob container key c).2) az_isBlobExists c.

(** [New]; [client] is what [azblob.NewClientWithNoCredential] answers. *)
Definition az_New (cfg : azConfig) (now rnd : Z) (client : result unit) (c : C) : result (azureBackend C) * C :=
  match client with
  | Err e => (Err e, c)
  | Ok _ =>
      match az_probeConditionalPut (az_Container cfg) (az_Prefix cfg) now rnd c with
      | (Err e, c) => (Err e, c)
      | (Ok condPut, c) => (Ok (mkAzureBackend c (az_Container cfg) (az_Prefix cfg) (mkCaps condPut 0)), c)
      end
  end.

Definition az_fullKey (b : azureBackend C) (key : bytes) : bytes := az_prefix b ++ key.

Definition az_Get (key : bytes) (off length : Z) (b : azureBackend C) : result reader :=
  let range := if (0 <? off) || (0 <=? length) then mkAzRange off (if 0 <=? length then length else 0) else mkAzRange 0 0 in
  match az_DownloadStream (az_container b) (az_fullKey b key) range (az_client b) with
  | inl e => Err (if az_isNotFound e then StoreErrNotFound else StoreErrSdk)
  | inr body => Ok body
  end.

(** [io.LimitReader]. *)
Definition limit_reader (r : reader) (n : Z) : reader :=
  if n <=? blen (rd_data r) then bytes_reader (take (Z.to_nat n) (rd_data r)) else r.

(** [Put]; [seekable] tells whether the reader is an [io.ReadSeeker]. *)
Definition az_Put (seekable : bool) (key : bytes) (r : reader) (size : Z) (o : PutOpts) : M (azureBackend C) ObjectInfo := λ b,
  match (if seekable then Ok r
         else match ReadAll (limit_reader r size) with Ok data => Ok (bytes_reader data) | Err e => Err e end) with
  | Err e => (Err e, b)
  | Ok body =>
      if IfAbsent o && negb (ConditionalPut (az_caps b)) then (Err StoreErrNoConditionalPut, b)
      else
        match az_Upload (az_container b) (az_fullKey b key) body (IfAbsent o) (az_client b) with
        | (inl e, c) => (Err (if IfAbsent o && az_isBlobExists e then OsErrExist else StoreErrSdk), set_az_client c b)
        | (inr _, c) => (Ok (mkObjectInfo key size), set_az_client c b)
        end
  end.

Definition az_delete (key : bytes) (b : azureBackend C) : option error * azureBackend C :=
  let '(e, c) := az_DeleteBlob (az_container b) (az_fullKey b key) (az_client b) in
  (match e with Some _ => Some StoreErrSdk | None => None end, set_az_client c b).
Definition az_Delete (keys : list bytes) : M (azureBackend C) (list DeleteResult) := λ b,
  let '(rs, b) := delete_each az_delete keys b in (Ok rs, b).

Definition az_Stat (key : bytes) (b : azureBackend C) : result ObjectInfo :=
  match az_GetProperties (az_container b) (az_fullKey b key) (az_client b) with
  | inl e => Err (if az_isNotFound e then StoreErrNotFound else StoreErrSdk)
  | inr size => Ok (mkObjectInfo key (default 0 size))
  end.

(** [List]: the first page of a new pager, which always has one. *)
Definition az_List (prefix cursor : bytes) (limit : Z) (b : azureBackend C) : result ListPage :=
  let marker := if bool_decide (cursor = []) then None else Some cursor in
  let maxResults := if 0 <? limit then Some (i32 limit) else None in
  match az_ListPage (az_container b) (az_fullKey b prefix) marker maxResults (az_client b) with
  | inl _ => Err StoreErrSdk
  | inr (items, nextMarker) =>
      let keys := merge_sort info_le
        ((λ it, mkObjectInfo (trim_prefix (az_prefix b) (ai_Name it)) (default 0 (ai_ContentLength it))) <$> items) in
      Ok (mkListPage keys (default [] nextMarker))
  end.

Definition az_Caps (b : azureBackend C) : Caps := az_caps b.

(** Every caller puts a [bytes.Reader]. *)
#[global] Instance azure_backend : BackendOps (azureBackend C) := {|
  b_Get := az_Get;
  b_Put key data o := az_Put true key (bytes_reader data) (blen data) o;
  b_Delete := az_Delete;
  b_List := az_List;
  b_Stat := az_Stat;
  b_Caps := az_Caps;
  b_GetInto := None;
  b_object key b := az_object (az_container b) (az_fullKey b key) (az_client b)
|}.
End azure.

(** ** What the services document *)

Class S3Laws (C : Type) `{S3Client C} : Prop := {
  s3_size b k d (c : C) : s3_object b k c = Some d → blen d <= 5 * 2 ^ 40;
  s3_get_whole b k d (c : C) : s3_object b k c = Some d → GetObject b k None c = inr (bytes_reader d);
  s3_get_range b k d f l (c : C) :
    s3_object b k c = Some d → 0 <= f <= l → l < blen d →
    GetObject b k (Some (mkRange f (Some l))) c = inr (bytes_reader (slice f (l - f + 1) d));
  s3_get_missing b k rg (c : C) :
    s3_object b k c = None →
    (∀ r, rg = Some r → 0 <= hr_first r ∧ ∀ l, hr_last r = Some l → hr_first r <= l) →
    ∃ e, GetObject b k rg c = inl e ∧ se_NoSuchKey e = true;
  (** A request that is granted has its effect; one that fails may have had
      it, on its own object. *)
  s3_put_ok b k d cond (c : C) u c' b' k' :
    PutObject b k (bytes_reader d) (blen d) cond c = (inr u, c') →
    s3_object b' k' c' = if decide ((b', k') = (b, k)) then Some d else s3_object b' k' c;
  s3_put_err b k d cond (c : C) e c' b' k' :
    PutObject b k (bytes_reader d) (blen d) cond c = (inl e, c') →
    s3_object b' k' c' = s3_object b' k' c ∨ (b', k') = (b, k) ∧ s3_object b' k' c' = Some d;
  (** [PreconditionFailed] answers a conditional put of an object that is
      there, and only where the condition is honoured. *)
  s3_put_failed b k r n cond (c : C) e c' :
    PutObject b k r n cond c = (inl e, c') → se_Code e = Some (str "PreconditionFailed") →
    cond = true ∧ is_Some (s3_object b k c) ∧ s3_enforces c = true;
  (** [ConditionalRequestConflict] answers a conditional put that another
      request of the same object overtook. *)
  s3_put_conflict b k r n cond (c : C) e c' :
    PutObject b k r n cond c = (inl e, c') → se_Code e = Some (str "ConditionalRequestConflict") →
    cond = true ∧ s3_enforces c = true;
  (** Where the condition is honoured an object that is there stays. *)
  s3_put_cond b k r n (c : C) :
    s3_enforces c = true → is_Some (s3_object b k c) →
    ∃ e c', PutObject b k r n true c = (inl e, c') ∧ ∀ b' k', s3_object b' k' c' = s3_object b' k' c;
  s3_put_enforces b k r n cond (c : C) : s3_enforces (PutObject b k r n cond c).2 = s3_enforces c;
  s3_delete_ok b k (c c' : C) b' k' :
    DeleteObject b k c = (None, c') →
    s3_object b' k' c' = if decide ((b', k') = (b, k)) then None else s3_object b' k' c;
  s3_delete_err b k (c : C) e c' b' k' :
    DeleteObject b k c = (Some e, c') →
    s3_object b' k' c' = s3_object b' k' c ∨ (b', k') = (b, k) ∧ s3_object b' k' c' = None;
  s3_delete_enforces b k (c : C) : s3_enforces (DeleteObject b k c).2 = s3_enforces c;
  s3_head b k d (c : C) : s3_object b k c = Some d → HeadObject b k c = inr (Some (blen d));
  s3_head_missing b k (c : C) : s3_object b k c = None → ∃ e, HeadObject b k c = inl e ∧ se_Status e = Some 404;
  (** What a listing shows is there. *)
  s3_list_sound b p after n (c : C) items tr it :
    ListObjectsV2 b p after n c = inr (items, tr) → it ∈ items →
    ∃ k d, it = mkS3Item (Some k) (Some (blen d)) ∧ has_prefix p k = true ∧ s3_object b k c = Some d;
  (** A page has the first names after [StartAfter], and is truncated when
      some are left. *)
  s3_list_page b p after (c : C) :
    ∃ items tr rest, ListObjectsV2 b p after None c = inr (items, tr) ∧
      keys_after (λ k, s3_object b k c) p after (omap si_Key items ++ rest) ∧
      (rest = [] ↔ default false tr = false) ∧ (items = [] → rest = [])
}.

(** No error that carries no code has a text that reads like a refused
    condition. *)
Definition s3_plain (C : Type) `{S3Client C} : Prop :=
  ∀ b k r n cond (c : C) e c', PutObject b k r n cond c = (inl e, c') →
    s3_isPreconditionFailed e = true → is_Some (se_Code e).

(** No put is answered with a conflict with one under way. *)
Definition s3_alone (C : Type) `{S3Client C} : Prop :=
  ∀ b k r n cond (c : C) e c', PutObject b k r n cond c = (inl e, c') →
    se_Code e ≠ Some (str "ConditionalRequestConflict").

Class GCSLaws (C : Type) `{GCSClient C} : Prop := {
  gcs_get_whole b k d (c : C) : gcs_object b k c = Some d → NewRangeReader b k 0 (-1) c = inr (bytes_reader d);
  gcs_get_range b k d off n (c : C) :
    gcs_object b k c = Some d → 0 <= off → 0 < n → off + n <= blen d →
    NewRangeReader b k off n c = inr (bytes_reader (slice off n d));
  gcs_get_missing b k off n (c : C) :
    gcs_object b k c = None → 0 <= off → n ≠ 0 → ∃ e, NewRangeReader b k off n c = inl e ∧ ge_NotExist e = true;
  gcs_close_ok b k d cond (c : C) n c' b' k' :
    WriterClose b k d cond c = (inr n, c') →
    n = blen d ∧ gcs_object b' k' c' = if decide ((b', k') = (b, k)) then Some d else gcs_object b' k' c;
  gcs_close_err b k d cond (c : C) e c' b' k' :
    WriterClose b k d cond c = (inl e, c') →
    gcs_object b' k' c' = gcs_object b' k' c ∨ (b', k') = (b, k) ∧ gcs_object b' k' c' = Some d;
  (** A writer that has failed does not upload anything. *)
  gcs_write_err b k d cond (c : C) e : WriterWrite b k d cond c = Some e → ∃ e', (WriterClose b k d cond c).1 = inl e';
  (** 412 answers a conditional upload of an object that is there. *)
  gcs_close_failed b k d cond (c : C) e c' :
    WriterClose b k d cond c = (inl e, c') → ge_Code e = Some 412 →
    cond = true ∧ is_Some (gcs_object b k c) ∧ gcs_enforces c = true;
  gcs_write_failed b k d cond (c : C) e : WriterWrite b k d cond c = Some e → ge_Code e ≠ Some 412;
  gcs_close_cond b k d (c : C) :
    gcs_enforces c = true → is_Some (gcs_object b k c) →
    ∃ e c', WriterClose b k d true c = (inl e, c') ∧ ∀ b' k', gcs_object b' k' c' = gcs_object b' k' c;
  gcs_close_enforces b k d cond (c : C) : gcs_enforces (WriterClose b k d cond c).2 = gcs_enforces c;
  gcs_delete_ok b k (c c' : C) b' k' :
    ObjectDelete b k c = (None, c') →
    gcs_object b' k' c' = if decide ((b', k') = (b, k)) then None else gcs_object b' k' c;
  gcs_delete_err b k (c : C) e c' b' k' :
    ObjectDelete b k c = (Some e, c') →
    gcs_object b' k' c' = gcs_object b' k' c ∨ (b', k') = (b, k) ∧ gcs_object b' k' c' = None;
  gcs_delete_enforces b k (c : C) : gcs_enforces (ObjectDelete b k c).2 = gcs_enforces c;
  (** An object that is not there cannot be deleted. *)
  gcs_delete_missing b k (c : C) :
    gcs_object b k c = None → ∃ e, (ObjectDelete b k c).1 = Some e ∧ ge_NotExist e = true;
  gcs_attrs b k d (c : C) : gcs_object b k c = Some d → ObjectAttrs b k c = inr (blen d);
  gcs_attrs_missing b k (c : C) : gcs_object b k c = None → ∃ e, ObjectAttrs b k c = inl e ∧ ge_NotExist e = true;
  gcs_page_sound b p size tok (c : C) items next k n :
    NextPage b p size tok c = inr (items, next) → (k, n) ∈ items →
    has_prefix p k = true ∧ ∃ d, gcs_object b k c = Some d ∧ n = blen d;
  (** The empty token starts a listing, and an empty token ends it. *)
  gcs_token_start b p (c : C) : gcs_token b p [] None c;
  gcs_page b p tok after (c : C) :
    gcs_token b p tok after c →
    ∃ items next rest, NextPage b p maxInt32 tok c = inr (items, next) ∧
      keys_after (λ k, gcs_object b k c) p after (items.*1 ++ rest) ∧
      (rest = [] ↔ next = []) ∧ (items = [] → rest = []) ∧ (next ≠ [] → gcs_token b p next (last items.*1) c)
}.

(** No error without a code reads like a refused condition. *)
Definition gcs_plain (C : Type) `{GCSClient C} : Prop :=
  ∀ b k d cond (c : C) e,
    (WriterWrite b k d cond c = Some e ∨ ∃ c', WriterClose b k d cond c = (inl e, c')) →
    gcs_isPreconditionFailed e = true → ge_Code e = Some 412.

Class AzureLaws (C : Type) `{AzureClient C} : Prop := {
  az_get_all b k d (c : C) : az_object b k c = Some d → az_DownloadStream b k (mkAzRange 0 0) c = inr (bytes_reader d);
  az_get_range b k d off n (c : C) :
    az_object b k c = Some d → 0 <= off → 0 < n → off + n <= blen d →
    az_DownloadStream b k (mkAzRange off n) c = inr (bytes_reader (slice off n d));
  az_get_missing b k rg (c : C) :
    az_object b k c = None → 0 <= az_Offset rg → 0 <= az_Count rg →
    ∃ e, az_DownloadStream b k rg c = inl e ∧ aze_Code e = Some (str "BlobNotFound");
  az_upload_buffer b k d cond (c : C) : az_UploadBuffer b k d cond c = az_Upload b k (bytes_reader d) cond c;
  az_put_ok b k d cond (c : C) u c' b' k' :
    az_Upload b k (bytes_reader d) cond c = (inr u, c') →
    az_object b' k' c' = if decide ((b', k') = (b, k)) then Some d else az_object b' k' c;
  az_put_err b k d cond (c : C) e c' b' k' :
    az_Upload b k (bytes_reader d) cond c = (inl e, c') →
    az_object b' k' c' = az_object b' k' c ∨ (b', k') = (b, k) ∧ az_object b' k' c' = Some d;
  az_put_failed b k r cond (c : C) e c' :
    az_Upload b k r cond c = (inl e, c') → aze_Code e = Some (str "BlobAlreadyExists") ∨ aze_Code e = Some (str "ConditionNotMet") →
    cond = true ∧ is_Some (az_object b k c) ∧ az_enforces c = true;
  az_put_cond b k r (c : C) :
    az_enforces c = true → is_Some (az_object b k c) →
    ∃ e c', az_Upload b k r true c = (inl e, c') ∧ ∀ b' k', az_object b' k' c' = az_object b' k' c;
  az_put_enforces b k r cond (c : C) : az_enforces (az_Upload b k r cond c).2 = az_enforces c;
  az_delete_ok b k (c c' : C) b' k' :
    az_DeleteBlob b k c = (None, c') →
    az_object b' k' c' = if decide ((b', k') = (b, k)) then None else az_object b' k' c;
  az_delete_err b k (c : C) e c' b' k' :
    az_DeleteBlob b k c = (Some e, c') →
    az_object b' k' c' = az_object b' k' c ∨ (b', k') = (b, k) ∧ az_object b' k' c' = None;
  az_delete_enforces b k (c : C) : az_enforces (az_DeleteBlob b k c).2 = az_enforces c;
  az_delete_missing b k (c : C) :
    az_object b k c = None → ∃ e, (az_DeleteBlob b k c).1 = Some e ∧ aze_Code e = Some (str "BlobNotFound");
  az_props b k d (c : C) : az_object b k c = Some d → az_GetProperties b k c = inr (Some (blen d));
  az_props_missing b k (c : C) :
    az_object b k c = None → ∃ e, az_GetProperties b k c = inl e ∧ aze_Code e = Some (str "BlobNotFound");
  az_page_sound b p mk n (c : C) items next it :
    az_ListPage b p mk n c = inr (items, next) → it ∈ items →
    ∃ d, has_prefix p (ai_Name it) = true ∧ az_object b (ai_Name it) c = Some d ∧ ai_ContentLength it = Some (blen d);
  (** A page may be empty although the listing goes on. *)
  az_marker_start b p (c : C) : ∃ n, az_marker b p None None n c;
  az_page b p mk after n (c : C) :
    az_marker b p mk after n c →
    ∃ items next rest, az_ListPage b p mk None c = inr (items, next) ∧
      keys_after (λ k, az_object b k c) p after ((ai_Name <$> items) ++ rest) ∧
      match default [] next with
      | [] => rest = []
      | tok => ∃ n', (n' < n)%nat ∧
          az_marker b p (Some tok) (match last (ai_Name <$> items) with Some k => Some k | None => after end) n' c
      end
}.
