(* ===== verification/CloudStoreThm.v ===== *)
(** The cloud backends: each satisfies the contract of pkg/store when its
    service behaves as documented; a conditional put never overwrites,
    whatever the probe found; listings are complete; and what the contract
    says of an endpoint without conditional puts is not what the code does. *)
From S2P Require Import Prelude Bolt Chunk Manifest Store Pack MetaDB Coherence RepoUtil Repo GC LocalStore LocalStoreThm CloudStore.

(** ** Names under a prefix *)

Lemma trim_prefix_app p k : trim_prefix p (p ++ k) = k.
Proof. unfold trim_prefix. rewrite (proj2 (has_prefix_spec _ _)) by eauto. by rewrite drop_app_length. Qed.

Lemma has_prefix_app p q k : has_prefix (p ++ q) (p ++ k) = has_prefix q k.
Proof.
  apply eq_true_iff_eq. rewrite !has_prefix_spec. split; intros [s E]; exists s.
  - rewrite <- app_assoc in E. by apply (inj (app p)) in E.
  - by rewrite <- app_assoc, <- E.
Qed.

Lemma trim_full p q k : has_prefix (p ++ q) k = true → ∃ k', k = p ++ k' ∧ trim_prefix p k = k' ∧ has_prefix q k' = true.
Proof.
  intros [s ->]%has_prefix_spec. exists (q ++ s). rewrite <- app_assoc, trim_prefix_app.
  split_and!; [done|done|]. apply has_prefix_spec. eauto.
Qed.

Lemma bytes_leb_prefix p a b : bytes_leb (p ++ a) (p ++ b) = bytes_leb a b.
Proof. induction p as [|x p IH]; [done|]. cbn. by rewrite !Z.ltb_irrefl. Qed.

Lemma decide_full {A B} `{EqDecision A, EqDecision B} (x : A) (p k k' : list B) {T} (u v : T) :
  (if decide ((x, p ++ k') = (x, p ++ k)) then u else v) = if decide (k' = k) then u else v.
Proof. apply decide_ext. split; [by intros [= E%(inj (app p))]|by intros ->]. Qed.

(** ** Deletions *)

Section delete_each.
Context {B : Type} (obj : bytes → B → option bytes) (del : bytes → B → option error * B).
Context (Hok : ∀ k b b' k', del k b = (None, b') → obj k' b' = if decide (k' = k) then None else obj k' b).
Context (Herr : ∀ k b e b' k', del k b = (Some e, b') → obj k' b' = obj k' b ∨ k' = k ∧ obj k' b' = None).

Lemma delete_each_objects keys b rs b' :
  delete_each del keys b = (rs, b') →
  dr_Key <$> rs = keys ∧ ∀ k, (mkDeleteResult k None ∈ rs → obj k b' = None) ∧ (obj k b' = obj k b ∨ k ∈ keys ∧ obj k b' = None).
Proof.
  revert b rs. induction keys as [|k keys IH]; intros b rs; cbn [delete_each].
  { intros [= <- <-]. split; [done|]. intros k. split; [by intros ?%not_elem_of_nil|by left]. }
  destruct (del k b) as [e b1] eqn:Hd. destruct (delete_each del keys b1) as [rs1 b2] eqn:Hr. intros [= <- <-].
  destruct (IH _ _ Hr) as [Hk Ho]. cbn. split; [by rewrite Hk|]. intros k'. destruct (Ho k') as [Hin Hc]. split.
  - intros [[= -> <-]|?]%elem_of_cons; [|by apply Hin].
    pose proof (Hok _ _ _ k Hd) as E. rewrite decide_True in E by done. destruct Hc as [->|[_ ?]]; done.
  - destruct Hc as [->|[? ?]]; [|right; split; [set_solver|done]]. destruct e as [e|].
    + destruct (Herr _ _ _ _ k' Hd) as [?|[-> ?]]; [by left|right; split; [set_solver|done]].
    + rewrite (Hok _ _ _ k' Hd). case_decide; [right; split; [set_solver|done]|by left].
Qed.
End delete_each.

(** ** The contract *)

Ltac full_key := unfold s3_fullKey, gcs_fullKey, az_fullKey in *; rewrite ?decide_full.

(** Two keys under one prefix. *)
Tactic Notation "full_key_inj" hyp(E) := unfold s3_fullKey, gcs_fullKey, az_fullKey in *; injection E as E%(inj (app _)).

Section s3_laws.
Context `{S3Laws C}.

Lemma s3_delete_objects keys (b : s3Backend C) rs b' :
  delete_each s3_delete keys b = (rs, b') →
  dr_Key <$> rs = keys ∧ ∀ k, (mkDeleteResult k None ∈ rs → b_object k b' = None) ∧
    (b_object k b' = b_object k b ∨ k ∈ keys ∧ b_object k b' = None).
Proof.
  apply (delete_each_objects (λ k b, b_object k b)); [intros k b0 b1 k'|intros k b0 e b1 k'];
    unfold s3_delete; destruct (DeleteObject _ _ _) as [[e'|] c] eqn:Hd; try done; intros [= <-]; subst; cbn.
  - rewrite (s3_delete_ok _ _ _ _ _ _ Hd). by full_key.
  - destruct (s3_delete_err _ _ _ _ _ (s3_bucket b0) (s3_fullKey b0 k') Hd) as [?|[E ?]]; [by left|right]. by full_key_inj E.
Qed.

Lemma s3_listed prefix cursor limit (b : s3Backend C) page oi :
  s3_List prefix cursor limit b = Ok page → oi ∈ lp_Keys page →
  has_prefix prefix (oi_Key oi) = true ∧ ∃ data, b_object (oi_Key oi) b = Some data ∧ oi_Size oi = blen data.
Proof.
  unfold s3_List. destruct (ListObjectsV2 _ _ _ _ _) as [e|[items tr]] eqn:Hl; [done|]. intros [= <-]. cbn [lp_Keys].
  rewrite merge_sort_Permutation. intros (it & -> & Hit)%list_elem_of_fmap.
  destruct (s3_list_sound _ _ _ _ _ _ _ _ Hl Hit) as (k & d & -> & Hp & Ho). cbn.
  destruct (trim_full _ _ _ Hp) as (k' & -> & -> & Hp'). eauto.
Qed.

(** A refusal that is one. *)
Lemma s3_refused b k r n cond (c : C) e c' :
  s3_plain C → PutObject b k r n cond c = (inl e, c') → s3_isPreconditionFailed e = true →
  cond = true ∧ s3_enforces c = true ∧ (s3_alone C → is_Some (s3_object b k c)).
Proof.
  intros Hp Hput Hf. destruct (Hp _ _ _ _ _ _ _ _ Hput Hf) as [code Hc].
  unfold s3_isPreconditionFailed in Hf. rewrite Hc in Hf. apply orb_true_iff in Hf as [E|E]; apply bool_decide_eq_true in E as ->.
  - by destruct (s3_put_failed _ _ _ _ _ _ _ _ Hput Hc) as (? & ? & ?).
  - destruct (s3_put_conflict _ _ _ _ _ _ _ _ Hput Hc) as [? ?]. split_and!; [done..|].
    intros Ha. by apply Ha in Hput.
Qed.

Lemma s3_lawful : s3_plain C → s3_alone C → BackendLaws (s3Backend C).
Proof.
  intros Hplain Halone. split; cbn.
  - intros key off n data b Ho Hoff Hn Hr. pose proof (s3_size _ _ _ _ Ho). unfold s3_Get.
    rewrite (proj2 (Z.leb_le 0 n)) by lia. rewrite orb_true_r, i64_id by (unfold in_i64; lia).
    erewrite s3_get_range by (done || lia). by replace (off + n - 1 - off + 1) with n by lia.
  - intros key data b Ho. unfold s3_Get. cbn. by erewrite s3_get_whole.
  - intros key off n b Ho Hoff Hn Hb. unfold s3_Get.
    set (range := if _ || _ then _ else _).
    destruct (s3_get_missing _ _ range _ Ho) as (e & -> & He); [|unfold s3_isNotFound; by rewrite He].
    intros r Hr. unfold range in Hr. destruct (_ || _); [|done]. injection Hr as <-. cbn. split; [lia|].
    intros l Hl. destruct (Z.leb_spec 0 n); [|done]. injection Hl as <-. rewrite i64_id; [|unfold in_i64]; lia.
  - done.
  - done.
  - intros key data o b oi b' k. unfold s3_Put. destruct (_ && _); [done|].
    destruct (PutObject _ _ _ _ _ _) as [[e|u] c] eqn:Hput; [done|]. intros [= <- <-]. cbn.
    rewrite (s3_put_ok _ _ _ _ _ _ _ _ _ Hput). by full_key.
  - intros key data o b e b' k. unfold s3_Put. destruct (_ && _); [intros [= <- <-]; by left|].
    destruct (PutObject _ _ _ _ _ _) as [[e'|u] c] eqn:Hput; [|done]. intros [= <- <-]. cbn.
    destruct (s3_put_err _ _ _ _ _ _ _ (s3_bucket b) (s3_fullKey b k) Hput) as [?|[E ?]]; [by left|right]. by full_key_inj E.
  - intros key data o b b'. unfold s3_Put. destruct (_ && _); [done|].
    destruct (PutObject _ _ _ _ _ _) as [[e'|u] c] eqn:Hput; [|done].
    destruct (IfAbsent o && s3_isPreconditionFailed e') eqn:He; [|done]. apply andb_true_iff in He as [-> He]. intros _.
    destruct (s3_refused _ _ _ _ _ _ _ _ Hplain Hput He) as (_ & _ & ?). auto.
  - intros keys b rs b' k. unfold s3_Delete. destruct (delete_each _ _ _) as [rs1 b1] eqn:Hd. intros [= <- <-].
    destruct (s3_delete_objects _ _ _ _ Hd) as [Hk Ho]. split; [done|apply Ho].
  - intros keys b e b' k. unfold s3_Delete. by destruct (delete_each _ _ _).
  - intros prefix cursor limit b page oi. apply s3_listed.
Qed.
End s3_laws.

Section gcs_laws.
Context `{GCSLaws C}.

Lemma gcs_delete_objects keys (b : gcsBackend C) rs b' :
  delete_each gcs_delete keys b = (rs, b') →
  dr_Key <$> rs = keys ∧ ∀ k, (mkDeleteResult k None ∈ rs → b_object k b' = None) ∧
    (b_object k b' = b_object k b ∨ k ∈ keys ∧ b_object k b' = None).
Proof.
  apply (delete_each_objects (λ k b, b_object k b)); [intros k b0 b1 k'|intros k b0 e b1 k'];
    unfold gcs_delete; destruct (ObjectDelete _ _ _) as [[e'|] c] eqn:Hd; try done; intros [= <-]; subst; cbn.
  - rewrite (gcs_delete_ok _ _ _ _ _ _ Hd). by full_key.
  - destruct (gcs_delete_err _ _ _ _ _ (gcs_bucket b0) (gcs_fullKey b0 k') Hd) as [?|[E ?]]; [by left|right]. by full_key_inj E.
Qed.

Lemma gcs_listed prefix cursor limit (b : gcsBackend C) page oi :
  gcs_List prefix cursor limit b = Ok page → oi ∈ lp_Keys page →
  has_prefix prefix (oi_Key oi) = true ∧ ∃ data, b_object (oi_Key oi) b = Some data ∧ oi_Size oi = blen data.
Proof.
  unfold gcs_List. destruct (NextPage _ _ _ _ _) as [e|[items next]] eqn:Hl; [done|]. intros [= <-]. cbn [lp_Keys].
  intros ([k n] & -> & Hit)%list_elem_of_fmap.
  destruct (gcs_page_sound _ _ _ _ _ _ _ _ _ Hl Hit) as (Hp & d & Ho & ->). cbn.
  destruct (trim_full _ _ _ Hp) as (k' & -> & -> & Hp'). eauto.
Qed.

(** A put of a whole byte string; only [Close] stores anything. *)
Lemma gcs_put_run key data o (b : gcsBackend C) :
  let close := WriterClose (gcs_bucket b) (gcs_fullKey b key) data (IfAbsent o) (gcs_client b) in
  (gcs_Put key (bytes_reader data) (blen data) o b = (Err StoreErrNoConditionalPut, b) ∧
     IfAbsent o = true ∧ ConditionalPut (gcs_caps b) = false) ∨
  (∃ e err c, close = (inl e, c) ∧ gcs_Put key (bytes_reader data) (blen data) o b = (Err err, set_gcs_client c b) ∧
     (err = OsErrExist → IfAbsent o = true ∧ gcs_isPreconditionFailed e = true)) ∨
  (∃ n c, close = (inr n, c) ∧ gcs_Put key (bytes_reader data) (blen data) o b = (Ok (mkObjectInfo key n), set_gcs_client c b)).
Proof.
  intros close. unfold gcs_Put. destruct (IfAbsent o && negb (ConditionalPut (gcs_caps b))) eqn:Hc.
  { left. apply andb_true_iff in Hc as [? ?%negb_true_iff]. done. }
  right. cbn [bytes_reader rd_data rd_err]. fold close.
  destruct (WriterWrite _ _ _ _ _) as [e|] eqn:Hw; destruct close as [[e'|n] c] eqn:Hcl.
  - left. exists e', StoreErrSdk, c. split_and!; done.
  - destruct (gcs_write_err _ _ _ _ _ _ Hw) as [e'' He]. fold close in He. by rewrite Hcl in He.
  - left. eexists e', _, c. split_and!; [done..|]. destruct (IfAbsent o), (gcs_isPreconditionFailed e'); done.
  - right. eauto.
Qed.

Lemma gcs_lawful : gcs_plain C → BackendLaws (gcsBackend C).
Proof.
  intros Hcalm. split; cbn.
  - intros key off n data b Ho Hoff Hn Hr. unfold gcs_Get. by erewrite gcs_get_range.
  - intros key data b Ho. unfold gcs_Get. by erewrite gcs_get_whole.
  - intros key off n b Ho Hoff Hn Hb. unfold gcs_Get.
    destruct (gcs_get_missing _ _ off n _ Ho) as (e & -> & He); [done..|]. unfold gcs_isNotFound. by rewrite He.
  - done.
  - done.
  - intros key data o b oi b' k Hput.
    destruct (gcs_put_run key data o b) as [(E & _)|[(e & err & c & _ & E & _)|(n & c & Hcl & E)]]; rewrite E in Hput; try done.
    injection Hput as <- <-. cbn. rewrite (proj2 (gcs_close_ok _ _ _ _ _ _ _ _ _ Hcl)). by full_key.
  - intros key data o b e b' k Hput.
    destruct (gcs_put_run key data o b) as [(E & _)|[(e' & err & c & Hcl & E & _)|(n & c & Hcl & E)]]; rewrite E in Hput; try done.
    + injection Hput as <- <-. by left.
    + injection Hput as <- <-. cbn.
      destruct (gcs_close_err _ _ _ _ _ _ _ (gcs_bucket b) (gcs_fullKey b k) Hcl) as [?|[E' ?]]; [by left|right]. by full_key_inj E'.
  - intros key data o b b' Hput.
    destruct (gcs_put_run key data o b) as [(E & _)|[(e' & err & c & Hcl & E & Hex)|(n & c & Hcl & E)]]; rewrite E in Hput; try done.
    injection Hput as -> _. destruct (Hex eq_refl) as [Ho Hp]. split; [done|].
    by destruct (gcs_close_failed _ _ _ _ _ _ _ Hcl (Hcalm _ _ _ _ _ _ (or_intror (ex_intro _ _ Hcl)) Hp)) as (_ & ? & _).
  - intros keys b rs b' k. unfold gcs_Delete. destruct (delete_each _ _ _) as [rs1 b1] eqn:Hd. intros [= <- <-].
    destruct (gcs_delete_objects _ _ _ _ Hd) as [Hk Ho]. split; [done|apply Ho].
  - intros keys b e b' k. unfold gcs_Delete. by destruct (delete_each _ _ _).
  - intros prefix cursor limit b page oi. apply gcs_listed.
Qed.
End gcs_laws.

Section azure_laws.
Context `{AzureLaws C}.

Lemma az_delete_objects keys (b : azureBackend C) rs b' :
  delete_each az_delete keys b = (rs, b') →
  dr_Key <$> rs = keys ∧ ∀ k, (mkDeleteResult k None ∈ rs → b_object k b' = None) ∧
    (b_object k b' = b_object k b ∨ k ∈ keys ∧ b_object k b' = None).
Proof.
  apply (delete_each_objects (λ k b, b_object k b)); [intros k b0 b1 k'|intros k b0 e b1 k'];
    unfold az_delete; destruct (az_DeleteBlob _ _ _) as [[e'|] c] eqn:Hd; try done; intros [= <-]; subst; cbn.
  - rewrite (az_delete_ok _ _ _ _ _ _ Hd). by full_key.
  - destruct (az_delete_err _ _ _ _ _ (az_container b0) (az_fullKey b0 k') Hd) as [?|[E ?]]; [by left|right]. by full_key_inj E.
Qed.

Lemma az_listed prefix cursor limit (b : azureBackend C) page oi :
  az_List prefix cursor limit b = Ok page → oi ∈ lp_Keys page →
  has_prefix prefix (oi_Key oi) = true ∧ ∃ data, b_object (oi_Key oi) b = Some data ∧ oi_Size oi = blen data.
Proof.
  unfold az_List. destruct (az_ListPage _ _ _ _ _) as [e|[items next]] eqn:Hl; [done|]. intros [= <-]. cbn [lp_Keys].
  rewrite merge_sort_Permutation. intros (it & -> & Hit)%list_elem_of_fmap.
  destruct (az_page_sound _ _ _ _ _ _ _ _ Hl Hit) as (d & Hp & Ho & Hs). cbn. rewrite Hs.
  destruct (trim_full _ _ _ Hp) as (k' & E & -> & Hp'). rewrite E in Ho. eauto.
Qed.

Lemma az_exists_code e : az_isBlobExists e = true → aze_Code e = Some (str "BlobAlreadyExists") ∨ aze_Code e = Some (str "ConditionNotMet").
Proof.
  unfold az_isBlobExists, az_HasCode. destruct (aze_Code e) as [code|]; [|done]. rewrite bool_decide_eq_true.
  intros [->|[->|[]%not_elem_of_nil]%elem_of_cons]%elem_of_cons; auto.
Qed.

Lemma az_notfound_code e : aze_Code e = Some (str "BlobNotFound") → az_isNotFound e = true.
Proof. intros E. unfold az_isNotFound, az_HasCode. rewrite E. by rewrite bool_decide_true by set_solver. Qed.

Lemma az_lawful : BackendLaws (azureBackend C).
Proof.
  split; cbn.
  - intros key off n data b Ho Hoff Hn Hr. unfold az_Get. rewrite (proj2 (Z.leb_le 0 n)) by lia. rewrite orb_true_r.
    by erewrite az_get_range.
  - intros key data b Ho. unfold az_Get. cbn. by erewrite az_get_all.
  - intros key off n b Ho Hoff Hn Hb. unfold az_Get. set (range := if _ || _ then _ else _).
    destruct (az_get_missing _ _ range _ Ho) as (e & -> & He); [| |by rewrite az_notfound_code].
    + unfold range. destruct (_ || _); cbn; lia.
    + unfold range. destruct (_ || _); cbn; [|lia]. destruct (Z.leb_spec 0 n); lia.
  - done.
  - done.
  - intros key data o b oi b' k. unfold az_Put. destruct (_ && _); [done|].
    destruct (az_Upload _ _ _ _ _) as [[e|u] c] eqn:Hput; [done|]. intros [= <- <-]. cbn.
    rewrite (az_put_ok _ _ _ _ _ _ _ _ _ Hput). by full_key.
  - intros key data o b e b' k. unfold az_Put. destruct (_ && _); [intros [= <- <-]; by left|].
    destruct (az_Upload _ _ _ _ _) as [[e'|u] c] eqn:Hput; [|done]. intros [= <- <-]. cbn.
    destruct (az_put_err _ _ _ _ _ _ _ (az_container b) (az_fullKey b k) Hput) as [?|[E ?]]; [by left|right]. by full_key_inj E.
  - intros key data o b b'. unfold az_Put. destruct (_ && _); [done|].
    destruct (az_Upload _ _ _ _ _) as [[e'|u] c] eqn:Hput; [|done].
    destruct (IfAbsent o && az_isBlobExists e') eqn:He; [|done]. apply andb_true_iff in He as [-> He]. intros _.
    destruct (az_put_failed _ _ _ _ _ _ _ Hput (az_exists_code _ He)) as (_ & ? & _). done.
  - intros keys b rs b' k. unfold az_Delete. destruct (delete_each _ _ _) as [rs1 b1] eqn:Hd. intros [= <- <-].
    destruct (az_delete_objects _ _ _ _ Hd) as [Hk Ho]. split; [done|apply Ho].
  - intros keys b e b' k. unfold az_Delete. by destruct (delete_each _ _ _).
  - intros prefix cursor limit b page oi. apply az_listed.
Qed.
End azure_laws.

(** ** Listings *)

Lemma bytes_lt_irrefl a : ¬ bytes_lt a a.
Proof. unfold bytes_lt. by rewrite bytes_leb_refl. Qed.

#[global] Instance bytes_lt_trans : Transitive bytes_lt.
Proof.
  unfold bytes_lt. intros a b c Hab Hbc. apply not_true_iff_false. intros Hca.
  destruct (bytes_leb_total b c) as [Hb|]; [|congruence]. by rewrite (bytes_leb_trans b c a) in Hab.
Qed.

Lemma sorted_unique {A} (lt : A → A → Prop) (Hirr : ∀ x, ¬ lt x x) (Htr : Transitive lt) (l l' : list A) :
  StronglySorted lt l → StronglySorted lt l' → l ≡ₚ l' → l = l'.
Proof.
  intros Hl Hl'. apply (StronglySorted_unique_strong lt); [|done..].
  intros x y _ _ Hxy Hyx. destruct (Hirr x). by transitivity y.
Qed.

Lemma sorted_NoDup {A} (lt : A → A → Prop) (Hirr : ∀ x, ¬ lt x x) (l : list A) : StronglySorted lt l → NoDup l.
Proof.
  induction 1 as [|x l Hl IH Hx]; constructor; [|done]. intros Hin. rewrite Forall_forall in Hx. exact (Hirr x (Hx x Hin)).
Qed.

Section keys_after.
Context (obj : bytes → option bytes) (p : bytes).

Lemma keys_after_unique after ks ks' : keys_after obj p after ks → keys_after obj p after ks' → ks = ks'.
Proof.
  intros [Hs Hk] [Hs' Hk']. apply (sorted_unique bytes_lt); [apply bytes_lt_irrefl|apply _|done..|].
  apply NoDup_Permutation; [by apply (sorted_NoDup bytes_lt bytes_lt_irrefl)..|]. intros k. by rewrite Hk, Hk'.
Qed.

Lemma keys_after_rest after names rest :
  keys_after obj p after (names ++ rest) →
  keys_after obj p (match last names with Some k => Some k | None => after end) rest.
Proof.
  destruct names as [|x names] using rev_ind; [done|]. rewrite last_snoc, <- app_assoc. cbn [app]. intros [Hs Hk]. split.
  { apply StronglySorted_app_1_r in Hs. by apply StronglySorted_inv in Hs as []. }
  intros k. split.
  - intros Hin. destruct (proj1 (Hk k)) as (Ho & Hp & Ha); [set_solver|]. split_and!; [done..|]. intros a [= <-].
    apply StronglySorted_app_1_r, StronglySorted_inv in Hs as [_ Hx]. rewrite Forall_forall in Hx. by apply Hx.
  - intros (Ho & Hp & Ha). specialize (Ha x eq_refl).
    assert (k ∈ names ++ x :: rest) as Hin.
    { apply Hk. split_and!; [done..|]. intros a Ha'. transitivity x; [|done]. apply (proj1 (Hk x)); [set_solver|done]. }
    apply elem_of_app in Hin as [Hin|[->|?]%elem_of_cons]; [|by apply bytes_lt_irrefl in Ha|done].
    exfalso. apply StronglySorted_app_1_elem_of with (x1 := k) (x2 := x) in Hs; [|done|apply list_elem_of_here].
    apply (bytes_lt_irrefl k). by transitivity x.
Qed.
End keys_after.

(** A listing from a cursor, page after page. *)
Inductive paged `{BackendOps B} (b : B) (prefix : bytes) : bytes → list ObjectInfo → nat → Prop :=
  | paged_last cursor page :
      b_List prefix cursor 0 b = Ok page → lp_NextCursor page = [] → paged b prefix cursor (lp_Keys page) 1
  | paged_more cursor page rest n :
      b_List prefix cursor 0 b = Ok page → lp_NextCursor page ≠ [] → paged b prefix (lp_NextCursor page) rest n →
      paged b prefix cursor (lp_Keys page ++ rest) (S n).

(** The entries of a listing are those of the names. *)
Definition infos (obj : bytes → option bytes) (pfx : bytes) : list bytes → list ObjectInfo → Prop :=
  Forall2 (λ k oi, k = pfx ++ oi_Key oi ∧ ∃ d, obj k = Some d ∧ oi_Size oi = blen d).

Section infos.
Context (obj : bytes → option bytes) (pfx q : bytes).

Lemma infos_sorted ks l : infos obj pfx ks l → StronglySorted bytes_lt ks → StronglySorted info_lt l.
Proof.
  induction 1 as [|k oi ks l [Hk _] Hl IH]; [constructor|]. intros [Hs Hx]%StronglySorted_inv. constructor; [by apply IH|].
  apply Forall_forall. intros y Hy. pose proof (proj1 (Forall_forall _ _) Hx) as Hx1. apply list_elem_of_lookup in Hy as [i Hy].
  destruct (Forall2_lookup_r _ _ _ _ _ Hl Hy) as (k' & Hk' & -> & _). apply list_elem_of_lookup_2 in Hk'.
  specialize (Hx1 _ Hk'). rewrite Hk in Hx1. unfold bytes_lt in Hx1. by rewrite bytes_leb_prefix in Hx1.
Qed.

Lemma infos_merge_sort ks l : infos obj pfx ks l → StronglySorted bytes_lt ks → merge_sort info_le l = l.
Proof.
  intros Hi Hs. pose proof (infos_sorted _ _ Hi Hs) as Hl.
  assert (∀ x, ¬ info_lt x x) as Hirr by (intros x; apply bytes_lt_irrefl).
  assert (NoDup (oi_Key <$> l)) as Hnd.
  { clear Hi Hs. induction Hl as [|x l Hl IH Hx]; cbn; constructor; [|done].
    intros (y & E & Hy)%list_elem_of_fmap. rewrite Forall_forall in Hx. specialize (Hx y Hy). unfold info_lt in Hx. rewrite <- E in Hx.
    by apply bytes_lt_irrefl in Hx. }
  apply (sorted_unique info_lt Hirr).
  - intros x y z. unfold info_lt. apply bytes_lt_trans.
  - apply sorted_strict; [apply (StronglySorted_merge_sort info_le)|]. by rewrite merge_sort_Permutation.
  - done.
  - apply merge_sort_Permutation.
Qed.

Lemma infos_complete ks l :
  infos obj pfx ks l → keys_after obj (pfx ++ q) None ks →
  StronglySorted info_lt l ∧
  ∀ oi, oi ∈ l ↔ has_prefix q (oi_Key oi) = true ∧ ∃ d, obj (pfx ++ oi_Key oi) = Some d ∧ oi_Size oi = blen d.
Proof.
  intros Hi [Hs Hk]. split; [by eapply infos_sorted|]. intros oi. split.
  - intros Hin. apply list_elem_of_lookup in Hin as [i Hin]. destruct (Forall2_lookup_r _ _ _ _ _ Hi Hin) as (k & Hk' & -> & Hd).
    apply list_elem_of_lookup_2, Hk in Hk' as (_ & Hp & _). by rewrite has_prefix_app in Hp.
  - intros (Hp & d & Ho & Hsz). assert (pfx ++ oi_Key oi ∈ ks) as Hin.
    { apply Hk. rewrite has_prefix_app, Ho. split_and!; [by eexists|done|done]. }
    apply list_elem_of_lookup in Hin as [i Hin]. destruct (Forall2_lookup_l _ _ _ _ _ Hi Hin) as (oi' & Hin' & E & d' & Ho' & Hsz').
    apply list_elem_of_lookup_2 in Hin'. apply (inj (app pfx)) in E. rewrite Ho in Ho'. injection Ho' as <-.
    destruct oi, oi'. cbn in *. by subst.
Qed.
End infos.

Section paging.
Context `{BackendOps B} (b : B) (obj : bytes → option bytes) (pfx q : bytes).
(** From this cursor the listing goes on after a name, for at most so many
    more pages. *)
Context (resumes : bytes → option bytes → nat → Prop).
Context (Hstep : ∀ cursor after n, resumes cursor after n →
  ∃ page names rest, b_List q cursor 0 b = Ok page ∧ keys_after obj (pfx ++ q) after (names ++ rest) ∧
    infos obj pfx names (lp_Keys page) ∧
    (lp_NextCursor page = [] → rest = []) ∧
    (lp_NextCursor page ≠ [] → ∃ n', (n' < n)%nat ∧
       resumes (lp_NextCursor page) (match last names with Some k => Some k | None => after end) n')).

Lemma paged_all n cursor after :
  resumes cursor after n → ∃ m l ks, paged b q cursor l m ∧ keys_after obj (pfx ++ q) after ks ∧ infos obj pfx ks l.
Proof.
  revert cursor after. induction (lt_wf n) as [n _ IH]; intros cursor after Hr.
  destruct (Hstep _ _ _ Hr) as (page & names & rest & Hl & Hk & Hi & Hend & Hmore).
  destruct (decide (lp_NextCursor page = [])) as [E|E].
  - rewrite (Hend E), app_nil_r in Hk. exists 1%nat, (lp_Keys page), names. split; [by constructor|done].
  - destruct (Hmore E) as (n' & Hn & Hr'). destruct (IH n' Hn _ _ Hr') as (m & l & ks & Hp & Hk' & Hi').
    rewrite (keys_after_unique _ _ _ _ _ Hk' (keys_after_rest _ _ _ _ _ Hk)) in Hi'.
    exists (S m), (lp_Keys page ++ l), (names ++ rest). split_and!; [by constructor|done|by apply Forall2_app].
Qed.

(** The collector's loop gives what the pages hold. *)
Lemma paged_list_pages {bucket callback handler} (r : Repo bucket B callback handler) cursor l n :
  paged b q cursor l n → r_Backend r = b → ∀ m out, (n <= m)%nat → list_pages m q cursor out r = Ok (out ++ l).
Proof.
  intros Hp Hb. induction Hp as [cursor page Hl E|cursor page rest n Hl E Hp IH]; intros [|m] out Hm; try lia;
    cbn [list_pages]; rewrite Hb, Hl.
  - by rewrite bool_decide_true.
  - rewrite bool_decide_false, IH by (done || lia). by rewrite <- app_assoc.
Qed.
End paging.

(** What a complete listing of the objects under a prefix is. *)
Definition listing_of `{BackendOps B} (b : B) (q : bytes) (l : list ObjectInfo) : Prop :=
  StronglySorted info_lt l ∧
  ∀ oi, oi ∈ l ↔ has_prefix q (oi_Key oi) = true ∧ ∃ d, b_object (oi_Key oi) b = Some d ∧ oi_Size oi = blen d.

(** Entries of a page: [g] is how the code reads one, [h] its name. *)
Lemma infos_page {I} (obj : bytes → option bytes) (pfx q : bytes) (h : I → option bytes) (g : I → ObjectInfo) (items : list I) :
  (∀ it, it ∈ items → ∃ k d, h it = Some k ∧ g it = mkObjectInfo (trim_prefix pfx k) (blen d) ∧
     has_prefix (pfx ++ q) k = true ∧ obj k = Some d) →
  infos obj pfx (omap h items) (g <$> items).
Proof.
  induction items as [|it items IH]; intros Hit; cbn; [constructor|].
  destruct (Hit it) as (k & d & -> & -> & Hp & Ho); [set_solver|]. constructor; [|apply IH; set_solver].
  destruct (trim_full _ _ _ Hp) as (k' & -> & -> & _). eauto.
Qed.

Lemma keys_after_page_sorted obj p after names rest : keys_after obj p after (names ++ rest) → StronglySorted bytes_lt names.
Proof. intros [Hs _]. by apply StronglySorted_app_1_l in Hs. Qed.

Lemma omap_Some_fmap {A B} (f : A → B) (l : list A) : omap (λ x, Some (f x)) l = f <$> l.
Proof. induction l as [|x l IH]; cbn; [done|]. by f_equal. Qed.

(** The last entry has the last name. *)
Lemma infos_last obj pfx names l : infos obj pfx names l → last names = app pfx ∘ oi_Key <$> last l.
Proof.
  intros Hi. destruct l as [|oi l _] using rev_ind.
  { by apply Forall2_nil_inv_r in Hi as ->. }
  apply Forall2_app_inv_r in Hi as (ks & ks' & _ & (k & ? & [-> _] & ->%Forall2_nil_inv_r & ->)%Forall2_cons_inv_r & ->).
  by rewrite !last_snoc.
Qed.

Section s3_paging.
Context `{S3Laws C} (b : s3Backend C) (q : bytes).
Let obj : bytes → option bytes := λ k, s3_object (s3_bucket b) k (s3_client b).
Let p : bytes := s3_prefix b ++ q.

Definition s3_resumes (cursor : bytes) (after : option bytes) (n : nat) : Prop :=
  after = (if bool_decide (cursor = []) then None else Some (s3_fullKey b cursor)) ∧
  ∃ ks, keys_after obj p after ks ∧ length ks = n.

Lemma s3_page_step cursor after n : q ≠ [] → s3_resumes cursor after n →
  ∃ page names rest, b_List q cursor 0 b = Ok page ∧ keys_after obj p after (names ++ rest) ∧
    infos obj (s3_prefix b) names (lp_Keys page) ∧
    (lp_NextCursor page = [] → rest = []) ∧
    (lp_NextCursor page ≠ [] → ∃ n', (n' < n)%nat ∧
       s3_resumes (lp_NextCursor page) (match last names with Some k => Some k | None => after end) n').
Proof.
  intros Hq (Ha & ks & Hks & Hn).
  destruct (s3_list_page (s3_bucket b) p after (s3_client b)) as (items & tr & rest & Hl & Hk & Htr & Hne).
  assert (infos obj (s3_prefix b) (omap si_Key items)
    ((λ it, mkObjectInfo (trim_prefix (s3_prefix b) (default [] (si_Key it))) (default 0 (si_Size it))) <$> items)) as Hi.
  { apply (infos_page obj _ q). intros it Hit. destruct (s3_list_sound _ _ _ _ _ _ _ _ Hl Hit) as (k & d & -> & ? & ?).
    exists k, d. done. }
  rewrite (keys_after_unique _ _ _ _ _ Hks Hk) in Hn.
  eexists _, (omap si_Key items), rest. split.
  { cbn. unfold s3_List. rewrite <- Ha. cbn. change (s3_fullKey b q) with p. rewrite Hl.
    rewrite (infos_merge_sort _ _ _ _ Hi) by (by eapply keys_after_page_sorted). done. }
  cbn [lp_Keys lp_NextCursor]. split_and!; [done|done|..].
  all: pose proof (infos_last _ _ _ _ Hi) as Hlast; pose proof (Forall2_length _ _ _ Hi) as Hlen; revert Hi Hlast Hlen.
  all: generalize ((λ it, mkObjectInfo (trim_prefix (s3_prefix b) (default [] (si_Key it))) (default 0 (si_Size it))) <$> items).
  all: intros l Hi Hlast Hlen.
  - destruct l as [|oi0 l0] eqn:El0.
    { intros _. apply Hne. destruct items as [|it items]; [done|]. exfalso.
      destruct (s3_list_sound _ _ _ _ _ _ _ it Hl) as (k & d & -> & _); [set_solver|]. done. }
    assert (length l = S (length l0)) as Hl1 by (by rewrite El0). rewrite <- El0 in *. rewrite Hl1.
    destruct (default false tr); cbn; [|by intros _; apply Htr].
    intros E. exfalso. destruct (last l) as [oi|] eqn:El; [|apply last_None in El; by rewrite El in El0].
    assert (has_prefix q (oi_Key oi) = true) as Hp.
    { apply last_Some_elem_of in El. apply list_elem_of_lookup in El as [i El].
      destruct (Forall2_lookup_r _ _ _ _ _ Hi El) as (k & Hk' & -> & _). apply list_elem_of_lookup_2 in Hk'.
      destruct Hk as [_ Hk]. destruct (proj1 (Hk (s3_prefix b ++ oi_Key oi))) as (_ & Hp & _); [set_solver|].
      unfold p in Hp. by rewrite has_prefix_app in Hp. }
    rewrite E in Hp. by destruct q.
  - destruct (_ && _) eqn:Ht; [|done]. intros Hnil. apply andb_true_iff in Ht as [_ Ht].
    destruct (last l) as [oi|]; [|done]. exists (length rest). cbn in Hlast. split; [|split].
    + destruct (omap si_Key items); [done|]. cbn in Hn. rewrite length_app in Hn. lia.
    + rewrite Hlast. by rewrite bool_decide_false.
    + exists rest. split; [by apply keys_after_rest|done].
Qed.

Lemma s3_paged : q ≠ [] → ∃ n l, paged b q [] l n ∧ listing_of b q l.
Proof.
  intros Hq. destruct (s3_list_page (s3_bucket b) p None (s3_client b)) as (items & tr & rest & _ & Hk & _).
  destruct (paged_all b obj (s3_prefix b) q s3_resumes) with (n := length (omap si_Key items ++ rest)) (cursor := @nil byte) (after := @None bytes)
    as (m & l & ks & Hp & Hks & Hi).
  - intros. by apply s3_page_step.
  - split; [done|]. eauto.
  - exists m, l. split; [done|]. by apply (infos_complete obj (s3_prefix b) q ks).
Qed.
End s3_paging.

Section gcs_paging.
Context `{GCSLaws C} (b : gcsBackend C) (q : bytes).
Let obj : bytes → option bytes := λ k, gcs_object (gcs_bucket b) k (gcs_client b).
Let p : bytes := gcs_prefix b ++ q.

Definition gcs_resumes (cursor : bytes) (after : option bytes) (n : nat) : Prop :=
  gcs_token (gcs_bucket b) p cursor after (gcs_client b) ∧ ∃ ks, keys_after obj p after ks ∧ length ks = n.

Lemma gcs_page_step cursor after n : gcs_resumes cursor after n →
  ∃ page names rest, b_List q cursor 0 b = Ok page ∧ keys_after obj p after (names ++ rest) ∧
    infos obj (gcs_prefix b) names (lp_Keys page) ∧
    (lp_NextCursor page = [] → rest = []) ∧
    (lp_NextCursor page ≠ [] → ∃ n', (n' < n)%nat ∧
       gcs_resumes (lp_NextCursor page) (match last names with Some k => Some k | None => after end) n').
Proof.
  intros (Ht & ks & Hks & Hn). destruct (gcs_page _ _ _ _ _ Ht) as (items & next & rest & Hl & Hk & Hr & Hne & Htok).
  rewrite (keys_after_unique _ _ _ _ _ Hks Hk) in Hn.
  eexists _, items.*1, rest. split.
  { cbn. unfold gcs_List. cbn. change (gcs_fullKey b q) with p. rewrite Hl. done. }
  cbn [lp_Keys lp_NextCursor]. split_and!; [done| |by apply Hr|].
  - rewrite <- omap_Some_fmap. apply (infos_page obj _ q). intros [k n0] Hit. destruct (gcs_page_sound _ _ _ _ _ _ _ _ _ Hl Hit) as (Hp & d & Ho & ->). eauto 6.
  - intros Hnext. specialize (Htok Hnext).
    assert (items ≠ []) as Hi by (intros ->; by apply Hnext, Hr, Hne).
    exists (length rest). split; [|split].
    + rewrite length_app, length_fmap in Hn. destruct items; [done|]. cbn in Hn. lia.
    + destruct (last items.*1) eqn:El; [done|]. apply last_None, fmap_nil_inv in El. done.
    + exists rest. split; [by apply keys_after_rest|done].
Qed.

Lemma gcs_paged : ∃ n l, paged b q [] l n ∧ listing_of b q l.
Proof.
  pose proof (gcs_token_start (gcs_bucket b) p (gcs_client b)) as Ht.
  destruct (gcs_page _ _ _ _ _ Ht) as (items & next & rest & _ & Hk & _).
  destruct (paged_all b obj (gcs_prefix b) q gcs_resumes gcs_page_step (length (items.*1 ++ rest)) [] None) as (m & l & ks & Hp & Hks & Hi).
  - split; [done|]. eauto.
  - exists m, l. split; [done|]. by apply (infos_complete obj (gcs_prefix b) q ks).
Qed.
End gcs_paging.

Section azure_paging.
Context `{AzureLaws C} (b : azureBackend C) (q : bytes).
Let obj : bytes → option bytes := λ k, az_object (az_container b) k (az_client b).
Let p : bytes := az_prefix b ++ q.

Definition az_resumes (cursor : bytes) (after : option bytes) (n : nat) : Prop :=
  az_marker (az_container b) p (if bool_decide (cursor = []) then None else Some cursor) after n (az_client b).

Lemma az_page_step cursor after n : az_resumes cursor after n →
  ∃ page names rest, b_List q cursor 0 b = Ok page ∧ keys_after obj p after (names ++ rest) ∧
    infos obj (az_prefix b) names (lp_Keys page) ∧
    (lp_NextCursor page = [] → rest = []) ∧
    (lp_NextCursor page ≠ [] → ∃ n', (n' < n)%nat ∧
       az_resumes (lp_NextCursor page) (match last names with Some k => Some k | None => after end) n').
Proof.
  intros Hm. destruct (az_page _ _ _ _ _ _ Hm) as (items & next & rest & Hl & Hk & Hnext).
  assert (infos obj (az_prefix b) (ai_Name <$> items)
    ((λ it, mkObjectInfo (trim_prefix (az_prefix b) (ai_Name it)) (default 0 (ai_ContentLength it))) <$> items)) as Hi.
  { rewrite <- omap_Some_fmap. apply (infos_page obj _ q). intros it Hit. destruct (az_page_sound _ _ _ _ _ _ _ _ Hl Hit) as (d & Hp & Ho & ->). eauto 6. }
  eexists _, (ai_Name <$> items), rest. split.
  { cbn. unfold az_List. cbn. change (az_fullKey b q) with p. rewrite Hl.
    rewrite (infos_merge_sort _ _ _ _ Hi) by (by eapply keys_after_page_sorted). done. }
  cbn [lp_Keys lp_NextCursor]. split_and!; [done|done|..]; destruct (default [] next) as [|x tok]; try done.
Qed.

Lemma az_paged : ∃ n l, paged b q [] l n ∧ listing_of b q l.
Proof.
  destruct (az_marker_start (az_container b) p (az_client b)) as [n Hm].
  destruct (paged_all b obj (az_prefix b) q az_resumes az_page_step n [] None Hm) as (m & l & ks & Hp & Hks & Hi).
  exists m, l. split; [done|]. by apply (infos_complete obj (az_prefix b) q ks).
Qed.
End azure_paging.

(** ** Conditional puts *)

(** A conditional put of an object that is there fails and changes nothing. *)
Definition create_only `{BackendOps B} (b : B) : Prop :=
  ∀ key data, is_Some (b_object key b) →
    ∃ e b', b_Put key data (mkPutOpts true) b = (Err e, b') ∧ ∀ k, b_object k b' = b_object k b.

Section probes.
Context {C E R : Type} (put : C → (E + R) * C) (del : C → C) (rejected : E → bool).
(** [I] is what puts and deletions keep, [P c] what a rejection shows. *)
Context (I P : C → Prop).
Context (Hput : ∀ c, I c → I (put c).2) (Hdel : ∀ c, I c → I (del c)).
Context (Hrej : ∀ c e, I c → (put c).1 = inl e → rejected e = true → P c).

Lemma probe_sound c res c' :
  I c → probe_twice put del rejected c = (res, c') → I c' ∧ (res = Ok true → ∃ c1, I c1 ∧ P c1).
Proof.
  intros HI. unfold probe_twice. pose proof (Hput c HI) as H1. destruct (put c) as [[e1|u1] c1]; cbn in H1.
  { intros [= <- <-]. split; [by apply Hdel|done]. }
  pose proof (Hput c1 H1) as H2. pose proof (Hrej c1) as Hr. destruct (put c1) as [[e2|u2] c2]; cbn in *; intros [= <- <-]; (split; [by apply Hdel|]); [|done].
  intros [= Ht]. eauto.
Qed.
End probes.

(** What [New] leaves: only the key of the probe may have changed, and the
    capability is claimed only of an endpoint that has it. *)
Lemma s3_New_spec `{S3Laws C} cfg now rnd (c c' : C) b :
  s3_plain C → s3_New cfg now rnd c = (Ok b, c') →
  b = mkS3Backend c' (s3_Bucket cfg) (s3_Prefix cfg) (s3_caps b) ∧ s3_enforces c' = s3_enforces c ∧
  (ConditionalPut (s3_caps b) = true → s3_enforces c = true) ∧
  ∀ bk k, (bk, k) ≠ (s3_Bucket cfg, probeKey (s3_Prefix cfg) now rnd) → s3_object bk k c' = s3_object bk k c.
Proof.
  intros Hcalm. unfold s3_New, s3_probeConditionalPut. set (key := probeKey _ _ _).
  destruct (probe_twice _ _ _ c) as [[cond|] c1] eqn:Hp; [|done]. intros [= <- <-]. split; [done|].
  eapply (probe_sound _ _ _ (λ x, s3_enforces x = s3_enforces c ∧
      ∀ bk k, (bk, k) ≠ (s3_Bucket cfg, key) → s3_object bk k x = s3_object bk k c) (λ x, s3_enforces x = true)) in Hp
    as [[He Ho] Ht].
  - split; [done|]. split; [|done]. cbn. intros ->. destruct (Ht eq_refl) as (c2 & [<- _] & ?). done.
  - intros x [Ex Ox]. split; [by rewrite s3_put_enforces|]. intros bk k Hne. rewrite <- Ox by done.
    destruct (PutObject _ _ _ _ _ x) as [[e|u] x'] eqn:Hx; cbn; [by destruct (s3_put_err _ _ _ _ _ _ _ bk k Hx) as [?|[? _]]|].
    rewrite (s3_put_ok _ _ _ _ _ _ _ _ _ Hx). by rewrite decide_False.
  - intros x [Ex Ox]. split; [by rewrite s3_delete_enforces|]. intros bk k Hne. rewrite <- Ox by done.
    destruct (DeleteObject _ _ x) as [[e|] x'] eqn:Hx; cbn; [by destruct (s3_delete_err _ _ _ _ _ bk k Hx) as [?|[? _]]|].
    rewrite (s3_delete_ok _ _ _ _ _ _ Hx). by rewrite decide_False.
  - intros x e _ He Hr. destruct (PutObject _ _ _ _ _ x) as [r x'] eqn:Hx. cbn in He. subst.
    by destruct (s3_refused _ _ _ _ _ _ _ _ Hcalm Hx Hr) as (_ & ? & _).
  - done.
Qed.

Lemma s3_create_only `{S3Laws C} (b : s3Backend C) :
  (ConditionalPut (s3_caps b) = true → s3_enforces (s3_client b) = true) → create_only b.
Proof.
  intros Hc key data Ho. cbn in *. unfold s3_Put. cbn. destruct (ConditionalPut (s3_caps b)); cbn; [|eauto].
  destruct (s3_put_cond _ _ (bytes_reader data) (blen data) _ (Hc eq_refl) Ho) as (e & c' & He & Hsame).
  rewrite He. eexists _, _. split; [done|]. intros k. apply Hsame.
Qed.

Lemma gcs_New_spec `{GCSLaws C} cfg now rnd cl (c c' : C) b :
  gcs_plain C → gcs_New cfg now rnd cl c = (Ok b, c') →
  b = mkGcsBackend c' (gcs_Bucket cfg) (gcs_Prefix cfg) (gcs_caps b) ∧ gcs_enforces c' = gcs_enforces c ∧
  (ConditionalPut (gcs_caps b) = true → gcs_enforces c = true) ∧
  ∀ bk k, (bk, k) ≠ (gcs_Bucket cfg, probeKey (gcs_Prefix cfg) now rnd) → gcs_object bk k c' = gcs_object bk k c.
Proof.
  intros Hcalm. unfold gcs_New, gcs_probeConditionalPut. destruct cl; [|done]. set (key := probeKey _ _ _).
  destruct (probe_twice _ _ _ c) as [[cond|] c1] eqn:Hp; [|done]. intros [= <- <-]. split; [done|].
  eapply (probe_sound _ _ _ (λ x, gcs_enforces x = gcs_enforces c ∧
      ∀ bk k, (bk, k) ≠ (gcs_Bucket cfg, key) → gcs_object bk k x = gcs_object bk k c) (λ x, gcs_enforces x = true)) in Hp
    as [[He Ho] Ht].
  - split; [done|]. split; [|done]. cbn. intros ->. destruct (Ht eq_refl) as (c2 & [<- _] & ?). done.
  - intros x [Ex Ox]. unfold gcs_probePut. destruct (WriterWrite _ _ _ _ x); [done|].
    split; [by rewrite gcs_close_enforces|]. intros bk k Hne. rewrite <- Ox by done.
    destruct (WriterClose _ _ _ _ x) as [[e|u] x'] eqn:Hx; cbn; [by destruct (gcs_close_err _ _ _ _ _ _ _ bk k Hx) as [?|[? _]]|].
    rewrite (proj2 (gcs_close_ok _ _ _ _ _ _ _ bk k Hx)). by rewrite decide_False.
  - intros x [Ex Ox]. split; [by rewrite gcs_delete_enforces|]. intros bk k Hne. rewrite <- Ox by done.
    destruct (ObjectDelete _ _ x) as [[e|] x'] eqn:Hx; cbn; [by destruct (gcs_delete_err _ _ _ _ _ bk k Hx) as [?|[? _]]|].
    rewrite (gcs_delete_ok _ _ _ _ _ _ Hx). by rewrite decide_False.
  - intros x e _ He Hr. unfold gcs_probePut in He. destruct (WriterWrite _ _ _ _ x) as [e'|] eqn:Hw.
    { injection He as <-. destruct (gcs_write_failed _ _ _ _ _ _ Hw). eapply Hcalm; eauto. }
    destruct (WriterClose _ _ _ _ x) as [r x'] eqn:Hx. cbn in He. subst.
    by destruct (gcs_close_failed _ _ _ _ _ _ _ Hx (Hcalm _ _ _ _ _ _ (or_intror (ex_intro _ _ Hx)) Hr)) as (_ & _ & ?).
  - done.
Qed.

Lemma gcs_create_only `{GCSLaws C} (b : gcsBackend C) :
  (ConditionalPut (gcs_caps b) = true → gcs_enforces (gcs_client b) = true) → create_only b.
Proof.
  intros Hc key data Ho. change (b_Put key data (mkPutOpts true) b) with (gcs_Put key (bytes_reader data) (blen data) (mkPutOpts true) b).
  destruct (ConditionalPut (gcs_caps b)) eqn:Hcaps.
  - destruct (gcs_close_cond _ _ data _ (Hc eq_refl) Ho) as (e & c & Hcl & Hsame).
    destruct (gcs_put_run key data (mkPutOpts true) b) as [(-> & _)|[(e' & err & c' & Hcl' & -> & _)|(n & c' & Hcl' & _)]].
    + eauto.
    + cbn [IfAbsent] in Hcl'. rewrite Hcl in Hcl'. injection Hcl' as <- <-. eexists _, _. split; [done|]. intros k. apply Hsame.
    + cbn [IfAbsent] in Hcl'. by rewrite Hcl in Hcl'.
  - eexists _, _. unfold gcs_Put. cbn. by rewrite Hcaps.
Qed.

Lemma az_New_spec `{AzureLaws C} cfg now rnd cl (c c' : C) b :
  az_New cfg now rnd cl c = (Ok b, c') →
  b = mkAzureBackend c' (az_Container cfg) (az_Prefix cfg) (az_caps b) ∧ az_enforces c' = az_enforces c ∧
  (ConditionalPut (az_caps b) = true → az_enforces c = true) ∧
  ∀ bk k, (bk, k) ≠ (az_Container cfg, probeKey (az_Prefix cfg) now rnd) → az_object bk k c' = az_object bk k c.
Proof.
  unfold az_New, az_probeConditionalPut. destruct cl; [|done]. set (key := probeKey _ _ _).
  destruct (probe_twice _ _ _ c) as [[cond|] c1] eqn:Hp; [|done]. intros [= <- <-]. split; [done|].
  eapply (probe_sound _ _ _ (λ x, az_enforces x = az_enforces c ∧
      ∀ bk k, (bk, k) ≠ (az_Container cfg, key) → az_object bk k x = az_object bk k c) (λ x, az_enforces x = true)) in Hp
    as [[He Ho] Ht].
  - split; [done|]. split; [|done]. cbn. intros ->. destruct (Ht eq_refl) as (c2 & [<- _] & ?). done.
  - intros x [Ex Ox]. rewrite az_upload_buffer. split; [by rewrite az_put_enforces|]. intros bk k Hne. rewrite <- Ox by done.
    destruct (az_Upload _ _ _ _ x) as [[e|u] x'] eqn:Hx; cbn; [by destruct (az_put_err _ _ _ _ _ _ _ bk k Hx) as [?|[? _]]|].
    rewrite (az_put_ok _ _ _ _ _ _ _ _ _ Hx). by rewrite decide_False.
  - intros x [Ex Ox]. split; [by rewrite az_delete_enforces|]. intros bk k Hne. rewrite <- Ox by done.
    destruct (az_DeleteBlob _ _ x) as [[e|] x'] eqn:Hx; cbn; [by destruct (az_delete_err _ _ _ _ _ bk k Hx) as [?|[? _]]|].
    rewrite (az_delete_ok _ _ _ _ _ _ Hx). by rewrite decide_False.
  - intros x e _. rewrite az_upload_buffer. intros He Hr. destruct (az_Upload _ _ _ _ x) as [r x'] eqn:Hx. cbn in He. subst.
    by destruct (az_put_failed _ _ _ _ _ _ _ Hx (az_exists_code _ Hr)) as (_ & _ & ?).
  - done.
Qed.

Lemma az_create_only `{AzureLaws C} (b : azureBackend C) :
  (ConditionalPut (az_caps b) = true → az_enforces (az_client b) = true) → create_only b.
Proof.
  intros Hc key data Ho. cbn in *. unfold az_Put. cbn. destruct (ConditionalPut (az_caps b)); cbn; [|eauto].
  destruct (az_put_cond _ _ (bytes_reader data) _ (Hc eq_refl) Ho) as (e & c' & He & Hsame).
  rewrite He. eexists _, _. split; [done|]. intros k. apply Hsame.
Qed.

(** ** What an endpoint without conditional puts, or one that cannot delete
    what is gone, does to a repository *)

Section repository.
Context {bucket : Type → Type} `{BoltOps bucket} {B : Type} `{BackendOps B} {blake3 : Blake3} {callback handler : Type}.
Abbreviation repo := (Repo bucket B callback handler).

Lemma refused_put_no_manifest m (r : repo) e :
  e ≠ OsErrExist → (∀ k d, (b_Put k d (mkPutOpts true) (r_Backend r)).1 = Err e) → (putManifest m r).1 = Err e.
Proof.
  intros He Hput. unfold putManifest, attempt, onBackend, zoom, mbind, M_bind. specialize (Hput (manifestKey (Manifest_ID m)) (EncodeBytes m)).
  destruct (b_Put _ _ _ _) as [res b]. cbn in Hput. subst. cbn. by rewrite bool_decide_false.
Qed.

(** Deleting one object that is gone is an error the collector does not
    know, and deletions leave it gone. *)
Context (Hmissing : ∀ (b : B) k, b_object k b = None → ∃ b', b_Delete [k] b = (Ok [mkDeleteResult k (Some StoreErrSdk)], b')).
Context (Hgone : ∀ (b b' : B) k k' res, b_object k b = None → b_Delete [k'] b = (res, b') → b_object k b' = None).

Lemma reap_backend rs (r : repo) : r_Backend (each reapResult rs r).2 = r_Backend r.
Proof.
  revert r. induction rs as [|x rs IH]; intros r; [done|]. cbn [each]. unfold mbind, M_bind.
  assert (r_Backend (reapResult x r).2 = r_Backend r) as Hx.
  { unfold reapResult, onDB, zoom, throw.
    destruct (dr_Err x); [case_bool_decide; [|done]|]; by destruct (RemoveDeadContainer _ _). }
  destruct (reapResult x r) as [[u|e] r1]; cbn in Hx; [by rewrite IH|done].
Qed.

Lemma reap_batches_wedged fuel keys k (r : repo) :
  k ∈ keys → b_object k (r_Backend r) = None → is_ok (reap_batches fuel 1 keys r).1 = false.
Proof.
  revert keys r. induction fuel as [|fuel IH]; intros [|k1 keys] r Hk Ho; [by apply not_elem_of_nil in Hk|done|by apply not_elem_of_nil in Hk|].
  cbn [reap_batches]. change (take 1 (k1 :: keys)) with [k1]. change (drop 1 (k1 :: keys)) with keys.
  unfold mbind, M_bind, onBackend, zoom.
  destruct (decide (k1 = k)) as [->|Hne].
  - destruct (Hmissing _ _ Ho) as [b' ->]. done.
  - destruct (b_Delete [k1] (r_Backend r)) as [res b'] eqn:Hd. destruct res as [rs|e]; [|done].
    pose proof (reap_backend rs (set_Backend b' r)) as Hb.
    destruct (each reapResult rs (set_Backend b' r)) as [[[]|e] r'] eqn:He; [|done]. cbn in Hb.
    apply IH; [by apply elem_of_cons in Hk as [->|?]|]. rewrite Hb. by eapply Hgone.
Qed.

(** Once a container that is retired and past its grace is gone from the
    store while its entry is there, reaping never succeeds. *)
Lemma reaping_wedged cutoff (r : repo) d :
  BatchDelete (b_Caps (r_Backend r)) = 0 →
  d ∈ ListDeadContainers (r_DB r) → After (dc_RetiredAt d) cutoff = false → b_object (dc_Key d) (r_Backend r) = None →
  is_ok (reapDeadContainers cutoff r).1 = false.
Proof.
  intros Hcaps Hd Ha Ho. unfold reapDeadContainers, mbind, M_bind, gets. rewrite Hcaps. cbn [Z.leb Z.compare].
  change (Z.to_nat 1) with 1%nat. apply (reap_batches_wedged _ _ (dc_Key d)); [|done].
  apply list_elem_of_fmap_2. by apply list_elem_of_filter.
Qed.
End repository.

(** ** Properties *)

Section properties.
Context {C1 C2 C3 : Type} `{S3Laws C1} `{GCSLaws C2} `{AzureLaws C3}.
Context {bucket : Type → Type} `{BoltOps bucket} {blake3 : Blake3} {callback handler : Type}.

(** C26: Over services that behave as they document the S3, GCS and Azure
    backends each satisfy the contract every other theorem asks of a backend:
    ranges and whole objects are read as they were put, a put that fails
    leaves its object as it was or stored, a deletion that fails leaves it as
    it was or gone, neither touches another object, only a conditional put of
    an object that is there is answered with [os.ErrExist], and listings show
    only what is there.  The services are available: reads of objects that
    are there succeed.  And no error is misread: none without a code has a
    text with 412 in it, and no put of S3 is answered with
    ConditionalRequestConflict, both of which the code takes for a refused
    condition. *)
Theorem cloud_backends_lawful :
  s3_plain C1 → s3_alone C1 → gcs_plain C2 →
  BackendLaws (s3Backend C1) ∧ BackendLaws (gcsBackend C2) ∧ BackendLaws (azureBackend C3).
Proof. intros Hs3 Ha Hgcs. split_and!; [by apply s3_lawful|by apply gcs_lawful|apply az_lawful]. Qed.

(** C27: A backend [New] has made never overwrites an object with a conditional
    put, whatever its probe found and whatever has become of the service's
    objects since; and opening it touches no key but that of the probe.  The
    services behave as documented, conflicts of overlapping requests
    included, and no error without a code has a text that the code takes for
    a refused condition: an endpoint that does not honour conditions, but
    whose connection breaks on the second put of the probe with 412 in the
    text of the error, would pass for one that does. *)
Theorem conditional_put_creates_only cfg1 cfg2 cfg3 now rnd cl (c1 c1' : C1) (c2 c2' : C2) (c3 c3' : C3) b1 b2 b3 :
  s3_plain C1 → gcs_plain C2 →
  s3_New cfg1 now rnd c1 = (Ok b1, c1') → gcs_New cfg2 now rnd cl c2 = (Ok b2, c2') → az_New cfg3 now rnd cl c3 = (Ok b3, c3') →
  ((∀ bk k, (bk, k) ≠ (s3_Bucket cfg1, probeKey (s3_Prefix cfg1) now rnd) → s3_object bk k c1' = s3_object bk k c1) ∧
   ∀ c, s3_enforces c = s3_enforces c1' → create_only (set_s3_client c b1)) ∧
  ((∀ bk k, (bk, k) ≠ (gcs_Bucket cfg2, probeKey (gcs_Prefix cfg2) now rnd) → gcs_object bk k c2' = gcs_object bk k c2) ∧
   ∀ c, gcs_enforces c = gcs_enforces c2' → create_only (set_gcs_client c b2)) ∧
  ((∀ bk k, (bk, k) ≠ (az_Container cfg3, probeKey (az_Prefix cfg3) now rnd) → az_object bk k c3' = az_object bk k c3) ∧
   ∀ c, az_enforces c = az_enforces c3' → create_only (set_az_client c b3)).
Proof.
  intros Hc1 Hc2 Hn1 Hn2 Hn3. apply s3_New_spec in Hn1 as (_ & E1 & Hp1 & Ho1); [|done].
  apply gcs_New_spec in Hn2 as (_ & E2 & Hp2 & Ho2); [|done]. apply az_New_spec in Hn3 as (_ & E3 & Hp3 & Ho3).
  split_and!; try done; intros c Hc; [apply s3_create_only|apply gcs_create_only|apply az_create_only]; cbn; rewrite Hc.
  - by rewrite E1.
  - by rewrite E2.
  - by rewrite E3.
Qed.

(** C28: The loop of the collector over the pages of a listing ends on every cloud
    backend and sees every container exactly once, in order, with its size. *)
Theorem collector_sees_every_container
    (r1 : Repo bucket (s3Backend C1) callback handler) (r2 : Repo bucket (gcsBackend C2) callback handler)
    (r3 : Repo bucket (azureBackend C3) callback handler) :
  (∃ n l, listing_of (r_Backend r1) (str "atlas/c/" ++ r_Region r1 ++ str "/") l ∧ ∀ m, (n <= m)%nat → listContainers m r1 = Ok l) ∧
  (∃ n l, listing_of (r_Backend r2) (str "atlas/c/" ++ r_Region r2 ++ str "/") l ∧ ∀ m, (n <= m)%nat → listContainers m r2 = Ok l) ∧
  (∃ n l, listing_of (r_Backend r3) (str "atlas/c/" ++ r_Region r3 ++ str "/") l ∧ ∀ m, (n <= m)%nat → listContainers m r3 = Ok l).
Proof.
  split_and!.
  - destruct (s3_paged (r_Backend r1) (str "atlas/c/" ++ r_Region r1 ++ str "/")) as (n & l & Hp & Hl); [done|].
    exists n, l. split; [done|]. intros m Hm. by eapply (paged_list_pages _ _ _ _ _ _ Hp).
  - destruct (gcs_paged (r_Backend r2) (str "atlas/c/" ++ r_Region r2 ++ str "/")) as (n & l & Hp & Hl).
    exists n, l. split; [done|]. intros m Hm. by eapply (paged_list_pages _ _ _ _ _ _ Hp).
  - destruct (az_paged (r_Backend r3) (str "atlas/c/" ++ r_Region r3 ++ str "/")) as (n & l & Hp & Hl).
    exists n, l. split; [done|]. intros m Hm. by eapply (paged_list_pages _ _ _ _ _ _ Hp).
Qed.

(** On an endpoint whose probe found no conditional puts, no manifest can be
    stored: the repository asks for a conditional put, which the backends
    refuse where the contract has them ignore the condition. *)
Lemma no_manifest_without_conditional_put m
    (r1 : Repo bucket (s3Backend C1) callback handler) (r2 : Repo bucket (gcsBackend C2) callback handler)
    (r3 : Repo bucket (azureBackend C3) callback handler) :
  (ConditionalPut (b_Caps (r_Backend r1)) = false → (putManifest m r1).1 = Err StoreErrNoConditionalPut) ∧
  (ConditionalPut (b_Caps (r_Backend r2)) = false → (putManifest m r2).1 = Err StoreErrNoConditionalPut) ∧
  (ConditionalPut (b_Caps (r_Backend r3)) = false → (putManifest m r3).1 = Err StoreErrNoConditionalPut).
Proof.
  split_and!; intros Hc; apply refused_put_no_manifest; try done; intros k d; cbn in *.
  - unfold s3_Put. cbn. unfold s3_Caps in Hc. by rewrite Hc.
  - unfold gcs_Put. cbn. unfold gcs_Caps in Hc. by rewrite Hc.
  - unfold az_Put. cbn. unfold az_Caps in Hc. by rewrite Hc.
Qed.

(** A deletion that is repeated fails on GCS and Azure, and the collector
    takes the failure for an error: once a retired container is gone from the
    service while its entry is still recorded, no reaping succeeds. *)
Lemma gone_container_wedges_reaping cutoff d
    (r2 : Repo bucket (gcsBackend C2) callback handler) (r3 : Repo bucket (azureBackend C3) callback handler) :
  After (dc_RetiredAt d) cutoff = false →
  (BatchDelete (b_Caps (r_Backend r2)) = 0 → d ∈ ListDeadContainers (r_DB r2) → b_object (dc_Key d) (r_Backend r2) = None →
     is_ok (reapDeadContainers cutoff r2).1 = false) ∧
  (BatchDelete (b_Caps (r_Backend r3)) = 0 → d ∈ ListDeadContainers (r_DB r3) → b_object (dc_Key d) (r_Backend r3) = None →
     is_ok (reapDeadContainers cutoff r3).1 = false).
Proof.
  intros Ha. split; intros Hcaps Hd Ho; (eapply reaping_wedged; [| |done..]); clear Hcaps Hd Ho.
  - intros b k Ho. cbn in *. destruct (gcs_delete_missing _ _ _ Ho) as (e & He & _). unfold gcs_Delete, gcs_delete. cbn.
    destruct (ObjectDelete _ _ _) as [e' c]. cbn in He. subst. by eexists.
  - intros b b' k k' res Ho. cbn [b_Delete gcs_backend]. unfold gcs_Delete. destruct (delete_each _ _ _) as [rs b1] eqn:Hd. intros [= <- <-].
    destruct (proj2 (proj2 (gcs_delete_objects _ _ _ _ Hd) k)) as [->|[_ ?]]; done.
  - intros b k Ho. cbn in *. destruct (az_delete_missing _ _ _ Ho) as (e & He & _). unfold az_Delete, az_delete. cbn.
    destruct (az_DeleteBlob _ _ _) as [e' c]. cbn in He. subst. by eexists.
  - intros b b' k k' res Ho. cbn [b_Delete azure_backend]. unfold az_Delete. destruct (delete_each _ _ _) as [rs b1] eqn:Hd. intros [= <- <-].
    destruct (proj2 (proj2 (az_delete_objects _ _ _ _ Hd) k)) as [->|[_ ?]]; done.
Qed.
End properties.
