(* ===== verification/CloudStoreDemo.v ===== *)
(** A service of objects in a map, behind each of the three clients, on which
    the theorems about the cloud backends are exercised; and the runs in which
    their handling of errors goes wrong. *)
From S2P Require Import Prelude Bolt Chunk Manifest Store Pack MetaDB Coherence RepoUtil Repo GC LocalStore LocalStoreThm CloudStore CloudStoreThm.

(** Objects by bucket and name; those above the limit of a single put are
    refused. *)
Record cloudMem := mkCloudMem { cm_objs : gmap (bytes * bytes) bytes; cm_enforces : bool }.

Definition maxObject : Z := 5 * 2 ^ 40.

Definition cm_object (b k : bytes) (c : cloudMem) : option bytes :=
  match cm_objs c !! (b, k) with
  | Some d => if blen d <=? maxObject then Some d else None
  | None => None
  end.

Inductive putAnswer := PutDone | PutTaken | PutTooLarge.

Definition cm_put (b k d : bytes) (cond : bool) (c : cloudMem) : putAnswer * cloudMem :=
  if cond && cm_enforces c && bool_decide (is_Some (cm_object b k c)) then (PutTaken, c)
  else if maxObject <? blen d then (PutTooLarge, c)
  else (PutDone, mkCloudMem (<[(b, k) := d]> (cm_objs c)) (cm_enforces c)).

Definition cm_delete (b k : bytes) (c : cloudMem) : cloudMem := mkCloudMem (delete (b, k) (cm_objs c)) (cm_enforces c).

Definition cm_listed (b p : bytes) (after : option bytes) (c : cloudMem) (k : bytes) : bool :=
  bool_decide (is_Some (cm_object b k c)) && has_prefix p k &&
  match after with Some a => negb (bytes_leb k a) | None => true end.

Definition cm_names (b p : bytes) (after : option bytes) (c : cloudMem) : list bytes :=
  merge_sort bytes_le (filter (λ k, cm_listed b p after c k = true) (remove_dups ((λ kv : bytes * bytes * bytes, kv.1.2) <$> map_to_list (cm_objs c)))).

(** A page of one name, and whether more follow. *)
Definition cm_page (b p : bytes) (after : option bytes) (c : cloudMem) : list (bytes * Z) * bool :=
  let names := cm_names b p after c in
  ((λ k, (k, blen (default [] (cm_object b k c)))) <$> take 1 names, (1 <? length names)%nat).

Definition resume_token (items : list (bytes * Z)) (more : bool) : bytes :=
  if more then match last items with Some (k, _) => x00 :: k | None => [] end else [].
Definition token_after (tok : bytes) : option bytes := match tok with [] => None | _ :: k => Some k end.

#[global] Instance mem_s3 : S3Client cloudMem := {|
  PutObject b k r n cond c :=
    match cm_put b k (rd_data r) cond c with
    | (PutDone, c) => (inr tt, c)
    | (PutTaken, c) => (inl (mkS3Error false (Some (str "PreconditionFailed")) (Some 412) []), c)
    | (PutTooLarge, c) => (inl (mkS3Error false (Some (str "EntityTooLarge")) (Some 400) []), c)
    end;
  GetObject b k range c :=
    match cm_object b k c with
    | None => inl (mkS3Error true (Some (str "NoSuchKey")) (Some 404) [])
    | Some d =>
        inr (bytes_reader match range with
                          | None => d
                          | Some (mkRange f None) => drop (Z.to_nat f) d
                          | Some (mkRange f (Some l)) => if l <? f then d else slice f (l - f + 1) d
                          end)
    end;
  DeleteObject b k c := (None, cm_delete b k c);
  HeadObject b k c :=
    match cm_object b k c with
    | None => inl (mkS3Error false (Some (str "NotFound")) (Some 404) [])
    | Some d => inr (Some (blen d))
    end;
  ListObjectsV2 b p after _ c :=
    let '(items, more) := cm_page b p after c in
    inr ((λ '(k, n), mkS3Item (Some k) (Some n)) <$> items, Some more);
  s3_object := cm_object;
  s3_enforces := cm_enforces
|}.

#[global] Instance mem_gcs : GCSClient cloudMem := {|
  NewRangeReader b k off n c :=
    match cm_object b k c with
    | None => inl (mkGcsError true (Some 404) [])
    | Some d => inr (bytes_reader (if n <? 0 then drop (Z.to_nat off) d else slice off n d))
    end;
  WriterWrite _ _ _ _ _ := None;
  WriterClose b k d cond c :=
    match cm_put b k d cond c with
    | (PutDone, c) => (inr (blen d), c)
    | (PutTaken, c) => (inl (mkGcsError false (Some 412) []), c)
    | (PutTooLarge, c) => (inl (mkGcsError false (Some 400) []), c)
    end;
  ObjectDelete b k c :=
    if bool_decide (is_Some (cm_object b k c)) then (None, cm_delete b k c) else (Some (mkGcsError true (Some 404) []), c);
  ObjectAttrs b k c :=
    match cm_object b k c with
    | None => inl (mkGcsError true (Some 404) [])
    | Some d => inr (blen d)
    end;
  NextPage b p _ tok c :=
    let '(items, more) := cm_page b p (token_after tok) c in inr (items, resume_token items more);
  gcs_object := cm_object;
  gcs_enforces := cm_enforces;
  gcs_token _ _ tok after _ := after = token_after tok
|}.

#[global] Instance mem_azure : AzureClient cloudMem := {|
  az_Upload b k r cond c :=
    match cm_put b k (rd_data r) cond c with
    | (PutDone, c) => (inr tt, c)
    | (PutTaken, c) => (inl (mkAzError (Some (str "BlobAlreadyExists"))), c)
    | (PutTooLarge, c) => (inl (mkAzError (Some (str "RequestBodyTooLarge"))), c)
    end;
  az_UploadBuffer b k d cond c :=
    match cm_put b k d cond c with
    | (PutDone, c) => (inr tt, c)
    | (PutTaken, c) => (inl (mkAzError (Some (str "BlobAlreadyExists"))), c)
    | (PutTooLarge, c) => (inl (mkAzError (Some (str "RequestBodyTooLarge"))), c)
    end;
  az_DownloadStream b k rg c :=
    match cm_object b k c with
    | None => inl (mkAzError (Some (str "BlobNotFound")))
    | Some d => inr (bytes_reader (if az_Count rg =? 0 then drop (Z.to_nat (az_Offset rg)) d else slice (az_Offset rg) (az_Count rg) d))
    end;
  az_DeleteBlob b k c :=
    if bool_decide (is_Some (cm_object b k c)) then (None, cm_delete b k c) else (Some (mkAzError (Some (str "BlobNotFound"))), c);
  az_GetProperties b k c :=
    match cm_object b k c with
    | None => inl (mkAzError (Some (str "BlobNotFound")))
    | Some d => inr (Some (blen d))
    end;
  az_ListPage b p mk _ c :=
    let '(items, more) := cm_page b p (mk ≫= token_after) c in
    inr ((λ '(k, n), mkAzItem k (Some n)) <$> items, Some (resume_token items more));
  az_object := cm_object;
  az_enforces := cm_enforces;
  az_marker b p mk after n c := after = (mk ≫= token_after) ∧ length (cm_names b p after c) = n
|}.

#[local] Arguments cm_page : simpl never.
#[local] Arguments cm_put : simpl never.
#[local] Arguments cm_object : simpl never.

(** ** The service behaves as documented *)

Lemma cm_delete_object b k c b' k' :
  cm_object b' k' (cm_delete b k c) = if decide ((b', k') = (b, k)) then None else cm_object b' k' c.
Proof.
  unfold cm_object, cm_delete. cbn. rewrite lookup_delete. repeat case_decide; congruence.
Qed.

Lemma cm_put_cases b k d cond c :
  (cm_put b k d cond c = (PutTaken, c) ∧ cond = true ∧ cm_enforces c = true ∧ is_Some (cm_object b k c)) ∨
  (cm_put b k d cond c = (PutTooLarge, c) ∧ maxObject < blen d) ∨
  (∃ c', cm_put b k d cond c = (PutDone, c') ∧ cm_enforces c' = cm_enforces c ∧
     (cond = true → cm_enforces c = true → cm_object b k c = None) ∧
     ∀ b' k', cm_object b' k' c' = if decide ((b', k') = (b, k)) then Some d else cm_object b' k' c).
Proof.
  unfold cm_put. destruct (cond && cm_enforces c && bool_decide _) eqn:Hc.
  { left. apply andb_true_iff in Hc as [[-> ->]%andb_true_iff Hs]. by apply bool_decide_eq_true in Hs. }
  right. destruct (Z.ltb_spec maxObject (blen d)) as [?|Hd]; [by left|]. right. eexists. split_and!; [done|done|..].
  - intros -> He. rewrite He in Hc. cbn in Hc. apply bool_decide_eq_false in Hc. by destruct (cm_object b k c); [destruct Hc|].
  - intros b' k'. unfold cm_object. cbn. rewrite lookup_insert. repeat case_decide; try congruence.
    by rewrite (proj2 (Z.leb_le _ _)).
Qed.

Lemma cm_object_listed b k c : is_Some (cm_object b k c) → k ∈ (λ kv : bytes * bytes * bytes, kv.1.2) <$> map_to_list (cm_objs c).
Proof.
  unfold cm_object. destruct (cm_objs c !! (b, k)) as [d|] eqn:E; [|by intros [? ?]]. intros _.
  apply list_elem_of_fmap. exists ((b, k), d). split; [done|]. by apply elem_of_map_to_list.
Qed.

Lemma cm_names_after b p after c : keys_after (λ k, cm_object b k c) p after (cm_names b p after c).
Proof.
  split.
  - unfold cm_names. set (l := filter _ _).
    assert (NoDup (merge_sort bytes_le l)) as Hnd.
    { rewrite merge_sort_Permutation. apply NoDup_filter, NoDup_remove_dups. }
    pose proof (StronglySorted_merge_sort bytes_le l) as Hs. induction Hs as [|x l' Hs IH Hx]; constructor.
    + apply IH. by apply NoDup_cons in Hnd as [].
    + apply NoDup_cons in Hnd as [Hn _]. apply Forall_forall. intros y Hy. apply not_true_iff_false. intros E.
      pose proof (proj1 (Forall_forall _ _) Hx y Hy) as Hxy. apply Hn. by rewrite (bytes_leb_antisym x y Hxy E).
  - intros k. unfold cm_names. rewrite merge_sort_Permutation, list_elem_of_filter, elem_of_remove_dups.
    unfold cm_listed. rewrite !andb_true_iff, bool_decide_eq_true. split.
    + intros [[[Ho Hp] Ha] _]. split_and!; [done..|]. intros a ->. by apply negb_true_iff in Ha.
    + intros (Ho & Hp & Ha). split_and!; [done..| |by eapply cm_object_listed]. destruct after as [a|]; [|done].
      apply negb_true_iff. by apply Ha.
Qed.

(** A page is the first name, and more follow when there is a second. *)
Lemma cm_page_spec b p after c items more :
  cm_page b p after c = (items, more) →
  ∃ rest, keys_after (λ k, cm_object b k c) p after (items.*1 ++ rest) ∧
    items.*1 ++ rest = cm_names b p after c ∧
    (more = false ↔ rest = []) ∧ (items = [] → rest = []) ∧
    Forall (λ x : bytes * Z, has_prefix p x.1 = true ∧ ∃ d, cm_object b x.1 c = Some d ∧ x.2 = blen d) items.
Proof.
  unfold cm_page. pose proof (cm_names_after b p after c) as Hk. intros [= <- <-].
  destruct (cm_names b p after c) as [|k rest] eqn:E; cbn.
  { exists []. split_and!; done. }
  exists rest. split_and!; [done|done|by destruct rest|done|]. constructor; [|constructor]. cbn.
  destruct Hk as [_ Hk]. destruct (proj1 (Hk k)) as ([d Ho] & Hp & _); [set_solver|]. rewrite Ho. eauto.
Qed.

Lemma resume_token_spec items more (rest : list bytes) :
  (more = false ↔ rest = []) → (items = [] → rest = []) →
  (rest = [] ↔ resume_token items more = []) ∧ (resume_token items more ≠ [] → token_after (resume_token items more) = last items.*1).
Proof.
  intros Hm Hi. unfold resume_token. destruct more.
  - destruct items as [|[k n] items _] using rev_ind; [by split; [split; [done|intros; by apply Hi]|done]|].
    rewrite last_snoc, fmap_app. cbn. rewrite last_snoc. split; [|done]. split; [|done]. intros E. by apply Hm in E.
  - split; [|done]. split; [done|]. intros _. by apply Hm.
Qed.

Ltac put_cases b k d cond c :=
  destruct (cm_put_cases b k d cond c) as [(-> & ? & ? & ?)|[(-> & ?)|(? & -> & ? & ? & ?)]].

#[global] Instance mem_s3_laws : S3Laws cloudMem.
Proof.
  split; cbn.
  - intros b k d c. unfold cm_object. destruct (_ !! _) as [d'|]; [|done]. destruct (Z.leb_spec (blen d') maxObject); [|done]. by intros [= <-].
  - by intros b k d c ->.
  - intros b k d f l c -> ? ?. by rewrite (proj2 (Z.ltb_ge l f)) by lia.
  - intros b k rg c -> _. by eexists.
  - intros b k d cond c u c' b' k'. put_cases b k d cond c; try done. by intros [= <- <-].
  - intros b k d cond c e c' b' k'. put_cases b k d cond c; try done; intros [= <- <-]; by left.
  - intros b k r n cond c e c'. put_cases b k (rd_data r) cond c; try done; by intros [= <- <-].
  - intros b k r n cond c e c'. put_cases b k (rd_data r) cond c; try done; by intros [= <- <-].
  - intros b k r n c He Ho. put_cases b k (rd_data r) true c; cbn; eauto. destruct Ho. naive_solver.
  - intros b k r n cond c. put_cases b k (rd_data r) cond c; done.
  - intros b k c c' b' k' [= <-]. apply cm_delete_object.
  - done.
  - done.
  - by intros b k d c ->.
  - intros b k c ->. by eexists.
  - intros b p after n c items tr it. destruct (cm_page b p after c) as [l more] eqn:E. intros [= <- <-].
    intros ([k m] & -> & Hin)%list_elem_of_fmap. destruct (cm_page_spec _ _ _ _ _ _ E) as (rest & _ & _ & _ & _ & Hf).
    destruct (proj1 (Forall_forall _ _) Hf _ Hin) as (Hp & d & Ho & Em). cbn in *. subst. eauto.
  - intros b p after c. destruct (cm_page b p after c) as [l more] eqn:E.
    destruct (cm_page_spec _ _ _ _ _ _ E) as (rest & Hk & _ & Hm & Hi & _). eexists _, _, rest. split; [done|].
    assert (omap si_Key ((λ '(k, n), mkS3Item (Some k) (Some n)) <$> l) = l.*1) as ->.
    { clear. induction l as [|[k n] l IH]; cbn; [done|]. by f_equal. }
    split_and!; [done|by rewrite Hm|]. intros E'%fmap_nil_inv. auto.
Qed.

Lemma mem_s3_plain : s3_plain cloudMem ∧ s3_alone cloudMem.
Proof.
  split; intros b k r n cond c e c'; cbn; put_cases b k (rd_data r) cond c; try done; by intros [= <- <-].
Qed.

#[global] Instance mem_gcs_laws : GCSLaws cloudMem.
Proof.
  split; cbn.
  - by intros b k d c ->.
  - intros b k d off n c -> ? ? ?. by rewrite (proj2 (Z.ltb_ge n 0)) by lia.
  - intros b k off n c -> _ _. by eexists.
  - intros b k d cond c n c' b' k'. put_cases b k d cond c; try done. by intros [= <- <-].
  - intros b k d cond c e c' b' k'. put_cases b k d cond c; try done; intros [= <- <-]; by left.
  - done.
  - intros b k d cond c e c'. put_cases b k d cond c; try done; by intros [= <- <-].
  - done.
  - intros b k d c He Ho. put_cases b k d true c; cbn; eauto. destruct Ho. naive_solver.
  - intros b k d cond c. put_cases b k d cond c; done.
  - intros b k c c' b' k'. case_bool_decide; [|done]. intros [= <-]. apply cm_delete_object.
  - intros b k c e c' b' k'. case_bool_decide; [done|]. intros [= <- <-]. by left.
  - intros b k c. by case_bool_decide.
  - intros b k c Ho. rewrite bool_decide_false; [by eexists|]. rewrite Ho. by intros [? ?].
  - by intros b k d c ->.
  - intros b k c ->. by eexists.
  - intros b p size tok c items next k n. destruct (cm_page b p _ c) as [l more] eqn:E. intros [= <- <-] Hin.
    destruct (cm_page_spec _ _ _ _ _ _ E) as (rest & _ & _ & _ & _ & Hf). by apply (proj1 (Forall_forall _ _) Hf _ Hin).
  - done.
  - intros b p tok after c ->. destruct (cm_page b p _ c) as [l more] eqn:E.
    destruct (cm_page_spec _ _ _ _ _ _ E) as (rest & Hk & _ & Hm & Hi & _). exists l, (resume_token l more), rest.
    destruct (resume_token_spec l more rest Hm Hi) as [Hr Hl]. split_and!; [done|done|done|done|]. intros Hn. by rewrite Hl.
Qed.

Lemma mem_gcs_plain : gcs_plain cloudMem.
Proof.
  intros b k d cond c e. cbn. intros [?|[c' Hc]]; [done|]. revert Hc.
  put_cases b k d cond c; try done; by intros [= <- <-].
Qed.

#[global] Instance mem_azure_laws : AzureLaws cloudMem.
Proof.
  split; cbn.
  - by intros b k d c ->.
  - intros b k d off n c -> ? ? ?. by rewrite (proj2 (Z.eqb_neq n 0)) by lia.
  - intros b k rg c -> _ _. by eexists.
  - done.
  - intros b k d cond c u c' b' k'. put_cases b k d cond c; try done. by intros [= <- <-].
  - intros b k d cond c e c' b' k'. put_cases b k d cond c; try done; intros [= <- <-]; by left.
  - intros b k r cond c e c'. put_cases b k (rd_data r) cond c; try done; intros [= <- <-]; try done; by intros [[=]|[=]].
  - intros b k r c He Ho. put_cases b k (rd_data r) true c; cbn; eauto. destruct Ho. naive_solver.
  - intros b k r cond c. put_cases b k (rd_data r) cond c; done.
  - intros b k c c' b' k'. case_bool_decide; [|done]. intros [= <-]. apply cm_delete_object.
  - intros b k c e c' b' k'. case_bool_decide; [done|]. intros [= <- <-]. by left.
  - intros b k c. by case_bool_decide.
  - intros b k c Ho. rewrite bool_decide_false; [by eexists|]. rewrite Ho. by intros [? ?].
  - by intros b k d c ->.
  - intros b k c ->. by eexists.
  - intros b p mk n c items next it. destruct (cm_page b p _ c) as [l more] eqn:E. intros [= <- <-].
    intros ([k m] & -> & Hin)%list_elem_of_fmap. destruct (cm_page_spec _ _ _ _ _ _ E) as (rest & _ & _ & _ & _ & Hf).
    destruct (proj1 (Forall_forall _ _) Hf _ Hin) as (Hp & d & Ho & Em). cbn in *. subst. eauto.
  - intros b p c. eexists. split; [done|]. done.
  - intros b p mk after n c [-> Hn]. destruct (cm_page b p _ c) as [l more] eqn:E.
    destruct (cm_page_spec _ _ _ _ _ _ E) as (rest & Hk & Hall & Hm & Hi & _).
    destruct (resume_token_spec l more rest Hm Hi) as [Hr Hl]. eexists _, _, rest. split; [done|].
    assert (ai_Name <$> ((λ '(k, n0), mkAzItem k (Some n0)) <$> l) = l.*1) as ->.
    { clear. induction l as [|[k n] l IH]; cbn; [done|]. by f_equal. }
    split; [done|]. cbn [default]. destruct (resume_token l more) as [|x tok] eqn:Et; [by apply Hr|].
    specialize (Hl ltac:(done)). exists (length rest).
    assert (l ≠ []) as Hne by (intros ->; by destruct more).
    split; [|split].
    + rewrite <- Hn, <- Hall, length_app, length_fmap. destruct l; [done|]. cbn. lia.
    + cbn. cbn in Hl. rewrite <- Hl. done.
    + f_equal. cbn in Hl. rewrite <- Hl. apply (keys_after_unique (λ k, cm_object b k c) p (Some tok)); [apply cm_names_after|].
      apply keys_after_rest in Hk. by rewrite <- Hl in Hk.
Qed.

(** ** Witnesses *)

(** A bucket with three containers, a manifest and an object of somebody
    else, seen under the prefix [p/]. *)
Definition demo_cloud (enforces : bool) : cloudMem :=
  mkCloudMem (list_to_map [((str "bkt", str "p/atlas/c/r1/aa"), str "one"); ((str "bkt", str "p/atlas/c/r1/bb"), str "three");
                           ((str "bkt", str "p/atlas/c/r1/cc"), []); ((str "bkt", str "p/atlas/m/00"), str "manifest");
                           ((str "other", str "p/atlas/c/r1/dd"), str "not ours")]) enforces.

Definition demo_open {B} `{BackendOps B} (b : B) : result (Repo MapBolt.mapb B unit unit) :=
  OpenWithPolicy (Open 1000 1000 0) b (str "r1") ClassImmutable 0 (λ _, @BArray 16 (replicate 16 x00) eq_refl).

Definition or_else {A} (d : A) (r : result A) : A := match r with Ok a => a | Err _ => d end.
Lemma or_else_ok {A S} (d : A) (p : result A * S) : is_ok p.1 = true → p = (Ok (or_else d p.1), p.2).
Proof. destruct p as [[a|e] s]; [done|discriminate]. Qed.

Lemma cloud_backends_lawful_witness :
  s3_plain cloudMem ∧ s3_alone cloudMem ∧ gcs_plain cloudMem ∧
  BackendLaws (s3Backend cloudMem) ∧ BackendLaws (gcsBackend cloudMem) ∧ BackendLaws (azureBackend cloudMem).
Proof.
  split; [exact (proj1 mem_s3_plain)|]. split; [exact (proj2 mem_s3_plain)|]. split; [exact mem_gcs_plain|].
  exact (cloud_backends_lawful (C1 := cloudMem) (C2 := cloudMem) (C3 := cloudMem)
    (proj1 mem_s3_plain) (proj2 mem_s3_plain) mem_gcs_plain).
Defined.

Definition demo_s3 (e : bool) : result (s3Backend cloudMem) * cloudMem := s3_New (mkS3Config (str "bkt") (str "p/")) 17 4 (demo_cloud e).
Definition demo_gcs (e : bool) : result (gcsBackend cloudMem) * cloudMem := gcs_New (mkGcsConfig (str "bkt") (str "p/")) 17 4 (Ok tt) (demo_cloud e).
Definition demo_az (e : bool) : result (azureBackend cloudMem) * cloudMem := az_New (mkAzConfig (str "bkt") (str "p/")) 17 4 (Ok tt) (demo_cloud e).
Definition no_s3 : s3Backend cloudMem := mkS3Backend (demo_cloud true) [] [] (mkCaps false 0).
Definition no_gcs : gcsBackend cloudMem := mkGcsBackend (demo_cloud true) [] [] (mkCaps false 0).
Definition no_az : azureBackend cloudMem := mkAzureBackend (demo_cloud true) [] [] (mkCaps false 0).

(** Where the service honours the condition, and where it does not. *)
Lemma conditional_put_creates_only_witness :
  (ConditionalPut (s3_caps (or_else no_s3 (demo_s3 true).1)) && negb (ConditionalPut (s3_caps (or_else no_s3 (demo_s3 false).1)))) = true ∧
  create_only (set_s3_client (demo_s3 true).2 (or_else no_s3 (demo_s3 true).1)) ∧
  create_only (set_gcs_client (demo_gcs false).2 (or_else no_gcs (demo_gcs false).1)) ∧
  create_only (set_az_client (demo_az true).2 (or_else no_az (demo_az true).1)).
Proof.
  assert (is_ok (demo_s3 true).1 && is_ok (demo_gcs false).1 && is_ok (demo_az true).1 &&
          (ConditionalPut (s3_caps (or_else no_s3 (demo_s3 true).1)) && negb (ConditionalPut (s3_caps (or_else no_s3 (demo_s3 false).1)))) = true)
    as Hrun by (vm_cast_no_check (eq_refl true)).
  apply andb_true_iff in Hrun as [Hrun Hcaps]. apply andb_true_iff in Hrun as [Hrun H3]. apply andb_true_iff in Hrun as [H1 H2].
  split; [exact Hcaps|].
  destruct (conditional_put_creates_only (C1 := cloudMem) (C2 := cloudMem) (C3 := cloudMem) (mkS3Config (str "bkt") (str "p/")) (mkGcsConfig (str "bkt") (str "p/")) (mkAzConfig (str "bkt") (str "p/"))
    17 4 (Ok tt) _ _ _ _ _ _ _ _ _ (proj1 mem_s3_plain) mem_gcs_plain (or_else_ok no_s3 _ H1) (or_else_ok no_gcs _ H2) (or_else_ok no_az _ H3))
    as ((_ & P1) & (_ & P2) & (_ & P3)).
  split; [by apply P1|]. split; [by apply P2|by apply P3].
Defined.

Lemma collector_sees_every_container_witness :
  ∃ (r1 : Repo MapBolt.mapb (s3Backend cloudMem) unit unit) (r2 : Repo MapBolt.mapb (gcsBackend cloudMem) unit unit)
    (r3 : Repo MapBolt.mapb (azureBackend cloudMem) unit unit) n1 n2 n3 l1 l2 l3,
    demo_open (or_else no_s3 (demo_s3 true).1) = Ok r1 ∧ demo_open (or_else no_gcs (demo_gcs true).1) = Ok r2 ∧
    demo_open (or_else no_az (demo_az true).1) = Ok r3 ∧
    listContainers n1 r1 = Ok l1 ∧ listContainers n2 r2 = Ok l2 ∧ listContainers n3 r3 = Ok l3.
Proof.
  assert (is_ok (demo_open (or_else no_s3 (demo_s3 true).1)) && is_ok (demo_open (or_else no_gcs (demo_gcs true).1)) &&
          is_ok (demo_open (or_else no_az (demo_az true).1)) = true) as Hrun by (vm_cast_no_check (eq_refl true)).
  destruct (demo_open (or_else no_s3 (demo_s3 true).1)) as [r1|]; [|discriminate Hrun].
  destruct (demo_open (or_else no_gcs (demo_gcs true).1)) as [r2|]; [|discriminate Hrun].
  destruct (demo_open (or_else no_az (demo_az true).1)) as [r3|]; [|discriminate Hrun].
  destruct (collector_sees_every_container r1 r2 r3) as ((n1 & l1 & _ & E1) & (n2 & l2 & _ & E2) & (n3 & l3 & _ & E3)).
  exists r1, r2, r3, n1, n2, n3, l1, l2, l3. split; [reflexivity|]. split; [reflexivity|]. split; [reflexivity|].
  split; [by apply E1|]. split; [by apply E2|by apply E3].
Defined.

(** Three pages of one container each. *)
Lemma demo_listing :
  match demo_open (or_else no_gcs (demo_gcs true).1) with
  | Ok r => bool_decide (((λ l : list ObjectInfo, (λ oi, (oi_Key oi, oi_Size oi)) <$> l) <$>
              match listContainers 3 r with Ok l => Some l | Err _ => None end)
              = Some [(str "atlas/c/r1/aa", 3); (str "atlas/c/r1/bb", 5); (str "atlas/c/r1/cc", 0)])
  | Err _ => false
  end = true.
Proof. vm_cast_no_check (eq_refl true). Qed.

(** ** Where it goes wrong *)

(** An S3 endpoint that answers every put with one error. *)
Record downS3 := mkDownS3 { ds_mem : cloudMem; ds_error : bytes → s3Error }.
#[global] Instance down_s3 : S3Client downS3 := {|
  PutObject b k r n cond c := (inl (ds_error c k), c);
  GetObject b k range c := GetObject b k range (ds_mem c);
  DeleteObject b k c := (None, mkDownS3 (cm_delete b k (ds_mem c)) (ds_error c));
  HeadObject b k c := HeadObject b k (ds_mem c);
  ListObjectsV2 b p after n c := ListObjectsV2 b p after n (ds_mem c);
  s3_object b k c := cm_object b k (ds_mem c);
  s3_enforces c := cm_enforces (ds_mem c)
|}.

Definition down_backend (e : bytes → s3Error) : s3Backend downS3 :=
  mkS3Backend (mkDownS3 (demo_cloud true) e) (str "bkt") (str "p/") (mkCaps true 0).

(** What the code says of a put of the key and whether the object is there. *)
Definition put_outcome (e : bytes → s3Error) (key : bytes) : bool :=
  let '(res, b) := s3_Put key (bytes_reader (str "m")) 1 (mkPutOpts true) (down_backend e) in
  match res with Err OsErrExist => true | _ => false end && bool_decide (b_object key b = None).

(** A connection that is refused, for a key whose hexadecimal name has the
    digits 412 in it, reads as an object that exists; so does a conflict with
    a request under way.  [putManifest] takes both for success. *)
Lemma refused_connection_reads_as_exists :
  put_outcome (λ k, mkS3Error false None None (str "request send failed, Put http://localhost:9000/bkt/" ++ k ++ str ": connection refused"))
    (str "atlas/m/a8/a8412f") &&
  put_outcome (λ _, mkS3Error false (Some (str "ConditionalRequestConflict")) (Some 409) []) (str "atlas/m/a8/a8412f") = true.
Proof. vm_cast_no_check (eq_refl true). Qed.

(** A GCS put whose reader fails half way returns the error and leaves the
    first half under the key. *)
Lemma failed_copy_stores_part :
  match demo_gcs true with
  | (Ok b, _) =>
      let '(res, b) := gcs_Put (str "k") (Reader (str "half") (Some StoreErrIO)) 8 (mkPutOpts false) b in
      bool_decide (is_ok res = false) && bool_decide (b_object (str "k") b = Some (str "half"))
  | _ => false
  end = true.
Proof. vm_cast_no_check (eq_refl true). Qed.

(** A range of no bytes reads the whole object from S3, and the rest of it
    from Azure. *)
Lemma empty_range_reads_more :
  match demo_s3 true, demo_az true with
  | (Ok b1, _), (Ok b3, _) =>
      match b_Get (str "atlas/c/r1/bb") 2 0 b1, b_Get (str "atlas/c/r1/bb") 2 0 b3 with
      | Ok r1, Ok r3 => bool_decide (rd_data r1 = str "three") && bool_decide (rd_data r3 = str "ree")
      | _, _ => false
      end
  | _, _ => false
  end = true.
Proof. vm_cast_no_check (eq_refl true). Qed.
