(* ===== verification/Libatlas.v ===== *)
(** pkg/libatlas: files materialised on local disk, in a cache of bounded size.

    [Materializer] is the cache: the list of materialised files, most
    recently used first, its index, and the fetches under way.  A list element
    and a fetch are known by their addresses.  [machine] puts it beside the
    cache directory (a map from paths to contents), the calls waited on and
    the repository.

    Many goroutines call [OpenMapped] at once, so a call is a [thread] that
    [advance] takes from one critical section to the next: everything between
    [mu.Lock] and [mu.Unlock] is one step, and so is a fetch, whose only effect
    others can see is the rename at its end.  What the operating system
    answers is an argument, [osRun]. *)
From S2P Require Import Prelude Bolt Chunk Manifest Store Pack MetaDB Coherence RepoUtil Repo RepoRead.

Definition materializeBufSize : Z := DefaultSize.

Record matEntry := mkMatEntry { me_key : bytes; me_path : bytes; me_size : Z }.

(** [inflight], with whether its wait group is done. *)
Record inflight := mkInflight { if_done : bool; if_path : bytes; if_size : Z; if_err : option error }.

Record Materializer := mkMaterializer {
  mz_cacheDir : bytes;
  mz_maxBytes : Z;
  mz_byKey : gmap bytes nat;
  mz_lru : list (nat * matEntry);
  mz_curBytes : Z;
  mz_inflight : gmap bytes nat
}.

(** What the operating system answers to one call: the name of a temporary
    file, and the errors of the other operations. *)
Record osRun := mkOsRun {
  os_temp : result bytes; os_write : option error; os_sync : option error; os_close : option error;
  os_rename : option error; os_open : option error
}.

(** ** The cache *)

Definition NewMaterializer (cacheDir : bytes) (maxBytes : Z) (mkdir : option error) : result Materializer :=
  if maxBytes <=? 0 then Err LibErrMaxBytes
  else match mkdir with
       | Some e => Err e
       | None => Ok (mkMaterializer cacheDir maxBytes ∅ [] 0 ∅)
       end.

Definition contentKey (rec : InodeRecord) : bytes :=
  if HasInline rec then str "inline-" ++ ID_String (InlineChunk rec)
  else if HasManifest rec then str "manifest-" ++ ID_String (ManifestID rec)
  else str "empty".

(** [filepath.Join] of the cache directory and a key. *)
Definition destPath (dir key : bytes) : bytes := dir ++ str "/" ++ key.

Definition list_remove (el : nat) (l : list (nat * matEntry)) : list (nat * matEntry) := filter (λ x, x.1 ≠ el) l.
Definition list_front (el : nat) (l : list (nat * matEntry)) : list (nat * matEntry) :=
  match list_find (λ x, x.1 = el) l with Some (_, x) => x :: list_remove el l | None => l end.

(** [removeElementLocked], on the element at an address: the cache, and the
    file to remove. *)
Definition removeElementLocked (el : nat) (e : matEntry) (m : Materializer) : Materializer :=
  mkMaterializer (mz_cacheDir m) (mz_maxBytes m) (delete (me_key e) (mz_byKey m)) (list_remove el (mz_lru m))
    (i64 (mz_curBytes m - me_size e)) (mz_inflight m).

(** [evictLocked]; the paths removed from disk, in order. *)
Fixpoint evict_loop (fuel : nat) (protect : nat) (gone : list bytes) (m : Materializer) : list bytes * Materializer :=
  match fuel with
  | O => (gone, m)
  | S fuel' =>
      if mz_maxBytes m <? mz_curBytes m then
        match last (mz_lru m) with
        | None => (gone, m)
        | Some (el, e) =>
            if (el =? protect)%nat then (gone, m)
            else evict_loop fuel' protect (gone ++ [me_path e]) (removeElementLocked el e m)
        end
      else (gone, m)
  end.
Definition evictLocked (protect : nat) (m : Materializer) : list bytes * Materializer :=
  evict_loop (S (length (mz_lru m))) protect [] m.

Definition Stats (m : Materializer) : Z * Z := (Z.of_nat (length (mz_lru m)), mz_curBytes m).

Section machine.
Context {bucket : Type → Type} `{BoltOps bucket} {B : Type} `{BackendOps B} {blake3 : Blake3}.
Context {callback handler : Type}.
Abbreviation repo := (Repo bucket B callback handler).

Record machine := mkMachine {
  ma_mat : Materializer;
  ma_disk : gmap bytes bytes;
  ma_calls : gmap nat inflight;
  ma_next : nat;
  ma_repo : repo
}.

Definition set_mat (x : Materializer) (m : machine) : machine :=
  mkMachine x (ma_disk m) (ma_calls m) (ma_next m) (ma_repo m).
Definition set_disk (x : gmap bytes bytes) (m : machine) : machine :=
  mkMachine (ma_mat m) x (ma_calls m) (ma_next m) (ma_repo m).
Definition set_calls (x : gmap nat inflight) (m : machine) : machine :=
  mkMachine (ma_mat m) (ma_disk m) x (ma_next m) (ma_repo m).
Definition set_ma_next (x : nat) (m : machine) : machine :=
  mkMachine (ma_mat m) (ma_disk m) (ma_calls m) x (ma_repo m).
Definition set_ma_repo (x : repo) (m : machine) : machine :=
  mkMachine (ma_mat m) (ma_disk m) (ma_calls m) (ma_next m) x.
Definition set_mz_lru (x : list (nat * matEntry)) (m : Materializer) : Materializer :=
  mkMaterializer (mz_cacheDir m) (mz_maxBytes m) (mz_byKey m) x (mz_curBytes m) (mz_inflight m).
Definition set_mz_inflight (x : gmap bytes nat) (m : Materializer) : Materializer :=
  mkMaterializer (mz_cacheDir m) (mz_maxBytes m) (mz_byKey m) (mz_lru m) (mz_curBytes m) x.

(** Files removed from disk; the code ignores the error of [os.Remove], which
    is taken to succeed. *)
Definition remove_files (l : list bytes) (d : gmap bytes bytes) : gmap bytes bytes := fold_left (λ d p, delete p d) l d.

(** ** Fetching *)

(** [io.CopyBuffer] from a section of the file.  An [*os.File] reads for
    itself, in blocks of its own choice: the size of the blocks is an
    argument. *)
Fixpoint copySection (fuel block : nat) (limit off : Z) (acc : bytes) (r : repo) (fr : FileReader) : result bytes :=
  match fuel with
  | O => Err ErrOutOfFuel
  | S fuel' =>
      if limit <=? off then Ok acc
      else
        let n := if limit - off <? Z.of_nat block then Z.to_nat (limit - off) else block in
        let '(data, err, fr) := ReadAt n off r fr in
        match err with
        | Some e => if bool_decide (e = EOF) then Ok (acc ++ data) else Err e
        | None => copySection fuel' block limit (off + blen data) (acc ++ data) r fr
        end
  end.

(** The bytes of the temporary file. *)
Definition fetchContent (block : nat) (key : bytes) (rec : InodeRecord) (r : repo) : result bytes :=
  if bool_decide (key = str "empty") then Ok []
  else match OpenFile rec r with
       | Err e => Err e
       | Ok fr => copySection (S (Z.to_nat (i64 (Size rec)))) block (i64 (Size rec)) 0 [] r fr
       end.

Definition fetch (o : osRun) (block : nat) (key : bytes) (rec : InodeRecord) : M machine (bytes * Z) := λ m,
  let dest := destPath (mz_cacheDir (ma_mat m)) key in
  match os_temp o with
  | Err e => (Err e, m)
  | Ok tmp =>
      let drop (m : machine) := set_disk (delete tmp (ma_disk m)) m in
      let m := set_disk (<[tmp := []]> (ma_disk m)) m in
      match fetchContent block key rec (ma_repo m), os_write o, os_sync o, os_close o with
      | Err e, _, _, _ => (Err e, drop m)
      | Ok _, Some e, _, _ => (Err e, drop m)
      | Ok _, None, Some e, _ => (Err e, drop m)
      | Ok _, None, None, Some e => (Err e, drop m)
      | Ok data, None, None, None =>
          let m := set_disk (<[tmp := data]> (ma_disk m)) m in
          match os_rename o with
          | Some e => (Err e, drop m)
          | None => (Ok (dest, i64 (Size rec)), drop (set_disk (<[dest := data]> (delete tmp (ma_disk m))) m))
          end
      end
  end.

(** ** [OpenMapped] *)

(** A call, by how far it has come: [LResolved] has its record, [LFetching]
    leads the fetch [c], [LFetched] has fetched, [LDone] has woken those who
    wait, [LWaiting] waits for the fetch [c], [LOpening] has a path to open.
    A call that has ended holds the content of the file it returned. *)
Inductive thread :=
  | LStart (path : bytes)
  | LResolved (rec : InodeRecord)
  | LFetching (rec : InodeRecord) (c : nat)
  | LFetched (rec : InodeRecord) (c : nat) (res : result (bytes * Z))
  | LDone (rec : InodeRecord) (res : result (bytes * Z))
  | LWaiting (rec : InodeRecord) (c : nat)
  | LOpening (rec : InodeRecord) (path : bytes)
  | LEnd (rec : option InodeRecord) (res : result bytes)
  | LEvict (path : bytes)
  | LEvicted (res : result bool).

Definition resolved (path : bytes) (r : repo) : result InodeRecord :=
  match (repo_Resolve path r).1 with Ok (_, rec) => Ok rec | Err e => Err e end.

(** The first part of [OpenMapped]. *)
Definition lookupFile (path : bytes) (r : repo) : result InodeRecord :=
  match resolved path r with
  | Err e => Err e
  | Ok rec => if IsDir rec then Err LibErrNotRegularFile
              else if IsSymlink rec then Err LibErrNotRegularFile
              else Ok rec
  end.

(** The first critical section of [materialize]. *)
Definition materialize_begin (rec : InodeRecord) (m : machine) : thread * machine :=
  let key := contentKey rec in
  let mat := ma_mat m in
  match mz_byKey mat !! key with
  | Some el =>
      let lru := list_front el (mz_lru mat) in
      (match list_find (λ x, x.1 = el) (mz_lru mat) with
       | Some (_, (_, e)) => LOpening rec (me_path e)
       | None => LEnd (Some rec) (Err ErrPanic)
       end, set_mat (set_mz_lru lru mat) m)
  | None =>
      match mz_inflight mat !! key with
      | Some c => (LWaiting rec c, m)
      | None =>
          let c := ma_next m in
          (LFetching rec c,
           set_ma_next (S c) (set_calls (<[c := mkInflight false [] 0 None]> (ma_calls m))
             (set_mat (set_mz_inflight (<[key := c]> (mz_inflight mat)) mat) m)))
      end
  end.

(** [call.path, call.size, call.err = ...; call.wg.Done()]. *)
Definition publishCall (c : nat) (res : result (bytes * Z)) (m : machine) : machine :=
  set_calls (<[c := match res with
                    | Ok (p, sz) => mkInflight true p sz None
                    | Err e => mkInflight true [] 0 (Some e)
                    end]> (ma_calls m)) m.

(** The second critical section of [materialize]. *)
Definition materialize_end (key : bytes) (res : result (bytes * Z)) (m : machine) : machine :=
  let mat := ma_mat m in
  let mat := set_mz_inflight (delete key (mz_inflight mat)) mat in
  match res with
  | Err _ => set_mat mat m
  | Ok (path, size) =>
      let el := ma_next m in
      let mat := mkMaterializer (mz_cacheDir mat) (mz_maxBytes mat) (<[key := el]> (mz_byKey mat))
                   ((el, mkMatEntry key path size) :: mz_lru mat) (i64 (mz_curBytes mat + size)) (mz_inflight mat) in
      let '(gone, mat) := evictLocked el mat in
      set_ma_next (S el) (set_disk (remove_files gone (ma_disk m)) (set_mat mat m))
  end.

(** [os.Open]; ENOENT when the file is not there. *)
Definition openLocal (o : osRun) (path : bytes) (m : machine) : result bytes :=
  match os_open o with
  | Some e => Err e
  | None => match ma_disk m !! path with Some b => Ok b | None => Err (SysErrno 2) end
  end.

Definition Evict (path : bytes) (m : machine) : result bool * machine :=
  match resolved path (ma_repo m) with
  | Err e => (Err e, m)
  | Ok rec =>
      match mz_byKey (ma_mat m) !! contentKey rec with
      | None => (Ok false, m)
      | Some el =>
          match list_find (λ x, x.1 = el) (mz_lru (ma_mat m)) with
          | None => (Err ErrPanic, m)
          | Some (_, (_, e)) =>
              (Ok true, set_disk (delete (me_path e) (ma_disk m)) (set_mat (removeElementLocked el e (ma_mat m)) m))
          end
      end
  end.

(** One step of a call; none while it waits. *)
Definition advance (o : osRun) (block : nat) (t : thread) (m : machine) : option (thread * machine) :=
  match t with
  | LStart path =>
      Some (match lookupFile path (ma_repo m) with Ok rec => LResolved rec | Err e => LEnd None (Err e) end, m)
  | LResolved rec => Some (materialize_begin rec m)
  | LFetching rec c =>
      let '(res, m) := fetch o block (contentKey rec) rec m in Some (LFetched rec c res, m)
  | LFetched rec c res => Some (LDone rec res, publishCall c res m)
  | LDone rec res =>
      Some (match res with Ok (p, _) => LOpening rec p | Err e => LEnd (Some rec) (Err e) end,
            materialize_end (contentKey rec) res m)
  | LWaiting rec c =>
      match ma_calls m !! c with
      | Some call =>
          if if_done call
          then Some (match if_err call with None => LOpening rec (if_path call) | Some e => LEnd (Some rec) (Err e) end, m)
          else None
      | None => None
      end
  | LOpening rec path => Some (LEnd (Some rec) (openLocal o path m), m)
  | LEnd _ _ => None
  | LEvict path => let '(res, m) := Evict path m in Some (LEvicted res, m)
  | LEvicted _ => None
  end.

End machine.
Arguments machine : clear implicits.
