(* ===== verification/LibatlasThm.v ===== *)
(** pkg/libatlas: what [OpenMapped] promises however calls interleave.

    [running] collects the states in which any number of calls of
    [OpenMapped] and [Evict] are under way, the operating system fails
    whatever it likes and others change the repository without taking away
    content.  Whatever a call returns is the content of the file it resolved;
    the cache keeps within its budget, and its files are on disk; a content is
    fetched by one call at a time, and some call can always go on. *)
From S2P Require Import Prelude Bolt Chunk Manifest Store Pack MetaDB MetaSpec Coherence RepoUtil Repo RepoRead RepoStore.
From S2P Require Import Libatlas.

(** ** Statements *)

Definition entry_size (x : nat * matEntry) : Z := me_size x.2.

Section statements.
Context {bucket : Type → Type} `{BoltOps bucket} {B : Type} `{BackendOps B} {blake3 : Blake3}.
Context {callback handler : Type}.
Abbreviation repo := (Repo bucket B callback handler).
Abbreviation machine := (machine bucket B callback handler).
Context (K : bytes → Prop) (N : nat).

(** A key names the bytes [b]. *)
Definition key_names (k b : bytes) : Prop :=
  (k = str "empty" ∧ b = []) ∨
  (K b ∧ k = str "inline-" ++ ID_String (Sum b)) ∨
  ∃ data mf ds, K data ∧ Forall K ds ∧ DecodeBytes data = Ok mf ∧ Forall2 entry_of (m_Entries mf) ds ∧
    k = str "manifest-" ++ ID_String (Sum256 data) ∧ b = concat ds.

(** Every regular file that resolves can be read, and is not absurdly large. *)
Definition repo_ok (r : repo) : Prop :=
  repo_inv K N r ∧
  ∀ path rec, lookupFile path r = Ok rec → ∃ ds, readable r rec ds ∧ blen (concat ds) < 2 ^ 62.

(** The names of temporary files are new, and not those of cached files. *)
Definition os_ok (o : osRun) (m : machine) : Prop :=
  ∀ tmp, os_temp o = Ok tmp →
    ma_disk m !! tmp = None ∧ ∃ x, tmp = destPath (mz_cacheDir (ma_mat m)) (str ".materialize-" ++ x).

Inductive running : machine → gmap nat thread → Prop :=
  | run_new dir max mat disk r :
      NewMaterializer dir max None = Ok mat → max < 2 ^ 62 → repo_ok r → running (mkMachine mat disk ∅ 0 r) ∅
  | run_call m ths t th :
      running m ths → ths !! t = None → (∃ p, th = LStart p ∨ th = LEvict p) → running m (<[t := th]> ths)
  | run_step m ths t th o block th' m' :
      running m ths → ths !! t = Some th → os_ok o m → (0 < block)%nat →
      advance o block th m = Some (th', m') → running m' (<[t := th']> ths)
  | run_repo m ths r :
      running m ths → repo_ok r → (∀ rec ds, readable (ma_repo m) rec ds → readable r rec ds) →
      running (set_ma_repo r m) ths.

(** *** The invariant *)

Definition dest (m : machine) (k : bytes) : bytes := destPath (mz_cacheDir (ma_mat m)) k.

(** The content of the key is on disk, [sz] bytes of it. *)
Definition on_disk (m : machine) (k : bytes) (sz : Z) : Prop :=
  ∃ b, ma_disk m !! dest m k = Some b ∧ key_names k b ∧ sz = blen b ∧ sz < 2 ^ 62.

Record cache_ok (mat : Materializer) : Prop := mkCacheOk {
  co_addrs : NoDup (mz_lru mat).*1;
  co_index : ∀ k a, mz_byKey mat !! k = Some a ↔ ∃ e, (a, e) ∈ mz_lru mat ∧ me_key e = k;
  co_bytes : mz_curBytes mat = sum_of entry_size (mz_lru mat);
  co_flight : ∀ k c, mz_inflight mat !! k = Some c → mz_byKey mat !! k = None
}.

Definition within (mat : Materializer) : Prop :=
  mz_curBytes mat <= mz_maxBytes mat ∨ (length (mz_lru mat) <= 1)%nat.

Record machine_ok (m : machine) : Prop := mkMachineOk {
  mo_cache : cache_ok (ma_mat m);
  mo_within : within (ma_mat m);
  mo_max : 0 < mz_maxBytes (ma_mat m) < 2 ^ 62;
  mo_files : ∀ a e, (a, e) ∈ mz_lru (ma_mat m) → me_path e = dest m (me_key e) ∧ on_disk m (me_key e) (me_size e);
  mo_fresh : ∀ a e, (a, e) ∈ mz_lru (ma_mat m) → (a < ma_next m)%nat;
  mo_calls : ∀ c call, ma_calls m !! c = Some call → (c < ma_next m)%nat;
  mo_repo : repo_ok (ma_repo m)
}.

(** The call leads the fetch of the key. *)
Definition leads (k : bytes) (th : thread) : Prop :=
  match th with
  | LFetching rec _ | LFetched rec _ _ | LDone rec _ => contentKey rec = k
  | _ => False
  end.

(** Whatever is on disk for the key is its content. *)
Definition clean (m : machine) (k : bytes) : Prop := ∀ b, ma_disk m !! dest m k = Some b → key_names k b.

Definition pending (m : machine) (k : bytes) (c : nat) : Prop :=
  mz_inflight (ma_mat m) !! k = Some c ∧ ∃ call, ma_calls m !! c = Some call ∧ if_done call = false.

Definition fetched_ok (m : machine) (k : bytes) (res : result (bytes * Z)) : Prop :=
  ∀ p sz, res = Ok (p, sz) → p = dest m k ∧ on_disk m k sz.

(** The call is done; it has left the content on disk if it succeeded. *)
Definition answered (m : machine) (k : bytes) (c : nat) : Prop :=
  ∃ call, ma_calls m !! c = Some call ∧ if_done call = true ∧ (if_err call = None → if_path call = dest m k ∧ clean m k).

Definition file_ok (m : machine) (rec : InodeRecord) : Prop :=
  ∃ ds, readable (ma_repo m) rec ds ∧ blen (concat ds) < 2 ^ 62.

Definition thread_ok (m : machine) (th : thread) : Prop :=
  match th with
  | LResolved rec => file_ok m rec
  | LFetching rec c => file_ok m rec ∧ pending m (contentKey rec) c
  | LFetched rec c res => pending m (contentKey rec) c ∧ fetched_ok m (contentKey rec) res
  | LDone rec res =>
      (∃ c, mz_inflight (ma_mat m) !! contentKey rec = Some c ∧ answered m (contentKey rec) c) ∧
      fetched_ok m (contentKey rec) res
  | LWaiting rec c => pending m (contentKey rec) c ∨ answered m (contentKey rec) c
  | LOpening rec p => p = dest m (contentKey rec) ∧ clean m (contentKey rec)
  | LEnd (Some rec) (Ok b) => key_names (contentKey rec) b
  | _ => True
  end.

(** A key is not the name of a temporary file. *)
Definition regular (k : bytes) : Prop := ∀ x, k ≠ str ".materialize-" ++ x.

(** What a step may do to the calls other than the one it belongs to; [own]
    is the key that call leads. *)
Record frame (own : option bytes) (m m' : machine) : Prop := mkFrame {
  fr_dir : mz_cacheDir (ma_mat m') = mz_cacheDir (ma_mat m);
  fr_repo : ∀ rec ds, readable (ma_repo m) rec ds → readable (ma_repo m') rec ds;
  fr_clean : ∀ k, regular k → clean m k → clean m' k;
  fr_answered : ∀ c call, ma_calls m !! c = Some call → if_done call = true → ma_calls m' !! c = Some call;
  fr_waiting : ∀ k c, regular k → pending m k c → pending m' k c ∨ answered m' k c;
  fr_flight : ∀ k c, own ≠ Some k → mz_inflight (ma_mat m) !! k = Some c → mz_inflight (ma_mat m') !! k = Some c;
  fr_pending : ∀ k c, own ≠ Some k → pending m k c → pending m' k c;
  fr_disk : ∀ k c sz, own ≠ Some k → mz_inflight (ma_mat m) !! k = Some c → on_disk m k sz → on_disk m' k sz
}.

(** How far a call has come. *)
Definition rank (th : thread) : nat :=
  match th with
  | LStart _ | LEvict _ => 0
  | LResolved _ => 1
  | LFetching _ _ => 2
  | LFetched _ _ _ => 3
  | LDone _ _ | LWaiting _ _ => 4
  | LOpening _ _ => 5
  | LEnd _ _ | LEvicted _ => 6
  end.

(** The call goes on whatever the operating system answers. *)
Definition can_step (m : machine) (th : thread) : Prop := ∀ o block, is_Some (advance o block th m).

(** A call made with nobody else stepping meanwhile. *)
Fixpoint run_alone (fuel : nat) (o : osRun) (block : nat) (th : thread) (m : machine) : thread * machine :=
  match fuel with
  | O => (th, m)
  | S fuel' => match advance o block th m with Some (th', m') => run_alone fuel' o block th' m' | None => (th, m) end
  end.

(** Nothing fails. *)
Definition os_fine (o : osRun) : Prop :=
  (∃ tmp, os_temp o = Ok tmp) ∧ os_write o = None ∧ os_sync o = None ∧ os_close o = None ∧ os_rename o = None ∧ os_open o = None.

(** Each key in flight has its one leader. *)
Record led (m : machine) (ths : gmap nat thread) : Prop := mkLed {
  ld_one : ∀ t t' th th' k, ths !! t = Some th → ths !! t' = Some th' → leads k th → leads k th' → t = t';
  ld_some : ∀ k c, mz_inflight (ma_mat m) !! k = Some c → ∃ t th, ths !! t = Some th ∧ leads k th;
  ld_calls : ∀ k k' c, mz_inflight (ma_mat m) !! k = Some c → mz_inflight (ma_mat m) !! k' = Some c → k = k'
}.

(** The cache with the new entry in front. *)
Definition pushed (k p : bytes) (sz : Z) (m : machine) : Materializer :=
  mkMaterializer (mz_cacheDir (ma_mat m)) (mz_maxBytes (ma_mat m)) (<[k := ma_next m]> (mz_byKey (ma_mat m)))
    ((ma_next m, mkMatEntry k p sz) :: mz_lru (ma_mat m)) (i64 (mz_curBytes (ma_mat m) + sz))
    (delete k (mz_inflight (ma_mat m))).

Record run_ok (m : machine) (ths : gmap nat thread) : Prop := mkRunOk {
  ro_machine : machine_ok m;
  ro_threads : ∀ t th, ths !! t = Some th → thread_ok m th;
  ro_led : led m ths
}.
End statements.

(** ** Content *)

Section content.
Context {bucket : Type → Type} `{BoltOps bucket} {B : Type} `{BackendLaws B} {blake3 : Blake3}.
Context {callback handler : Type}.
Abbreviation repo := (Repo bucket B callback handler).
Context (K : bytes → Prop) (N : nat).
Implicit Types r : repo.

Lemma ID_String_inj (a b : ID) : ID_String a = ID_String b → a = b.
Proof. intros E%hex_encode_inj. by apply barray_eq. Qed.

Lemma has_chunk_known r d : repo_inv K N r → has_chunk r d → K d.
Proof.
  intros Hi (loc & Hl & Hs). destruct (ri_locators _ _ _ Hi _ _ Hl) as (d' & Hk & _ & Hs').
  destruct Hs as (obj & Ho & _ & _ & _ & <-), Hs' as (obj' & Ho' & _ & _ & _ & <-). congruence.
Qed.

(** A readable record's key names its content, and nothing else. *)
Lemma readable_names r rec ds : repo_inv K N r → readable r rec ds → key_names K (contentKey rec) (concat ds).
Proof.
  intros Hi (_ & _ & Hds & Hk). unfold contentKey, key_names. destruct (HasInline rec).
  { destruct Hk as (d & -> & ->). right. left. cbn. rewrite app_nil_r. split; [|done].
    rewrite Forall_singleton in Hds. by apply (has_chunk_known r). }
  destruct (HasManifest rec); [|left; by rewrite Hk].
  destruct Hk as (mf & (data & Hd & Hdec) & He). right. right. exists data, mf, ds.
  destruct (ri_manifests _ _ _ Hi _ _ Hd) as [Hkd <-]. split_and!; try done.
  eapply Forall_impl; [done|]. intros d Hd'. by apply (has_chunk_known r).
Qed.

Lemma entries_inj es ds ds' :
  universe K → Forall K ds → Forall K ds' → Forall2 entry_of es ds → Forall2 entry_of es ds' → ds = ds'.
Proof.
  intros HK Hk Hk' He. revert ds' Hk'. induction He as [|e d es ds [Hid _] _ IH]; intros ds' Hk' He'.
  - by inversion He'.
  - inversion He' as [|? d' ? ds2 [Hid' _] He2]; subst. apply Forall_cons in Hk as [Hd Hk]; apply Forall_cons in Hk' as [Hd' Hk']. f_equal; [|by apply IH].
    apply (K_inj _ HK); [done..|]. unfold Sum in *. congruence.
Qed.

Lemma key_names_inj k b b' : universe K → key_names K k b → key_names K k b' → b = b'.
Proof.
  intros HK [[Ek ->]|[[Hb Ek]|(data & mf & ds & Hd & Hds & Hdec & He & Ek & ->)]]
    [[Ek' ->]|[[Hb' Ek']|(data' & mf' & ds' & Hd' & Hds' & Hdec' & He' & Ek' & ->)]];
    rewrite Ek in Ek'; try discriminate Ek'; [done| |].
  - apply (inj (app (str "inline-"))), ID_String_inj in Ek'. by apply (K_inj _ HK).
  - apply (inj (app (str "manifest-"))), ID_String_inj, (K_inj _ HK) in Ek' as ->; [|done..].
    rewrite Hdec in Hdec'. injection Hdec' as <-. f_equal. by eapply entries_inj.
Qed.

(** *** Fetching *)

Lemma copySection_ok fuel block ds r fr (acc : bytes) :
  (0 < block)%nat → reader_ok ds fr → Forall (has_chunk r) ds → acc = take (length acc) (concat ds) →
  (length (concat ds) - length acc < fuel)%nat →
  copySection fuel block (blen (concat ds)) (blen acc) acc r fr = Ok (concat ds).
Proof.
  intros Hb. revert acc fr. induction fuel as [|fuel IH]; intros acc fr Hok Hds Ha Hf; [lia|]. cbn [copySection].
  destruct (Z.leb_spec (blen (concat ds)) (blen acc)) as [Hge|Hlt].
  { f_equal. rewrite Ha. apply take_ge. unfold blen in *. lia. }
  set (n := if _ <? _ then _ else _).
  assert (0 < n <= length (concat ds) - length acc)%nat as Hn.
  { unfold n. destruct (Z.ltb_spec (blen (concat ds) - blen acc) (Z.of_nat block)); unfold blen in *; lia. }
  destruct (ReadAt_ok ds n (blen acc) r fr Hok Hds (blen_nonneg _)) as (err & fr' & Hrun & Hok' & _ & Hnone & _).
  rewrite Hrun, Hnone by (done || lia). unfold blen. rewrite Nat2Z.id. set (data := take n (drop (length acc) (concat ds))).
  assert (length data = n) as Hl by (unfold data; rewrite length_take, length_drop; lia).
  rewrite <- Nat2Z.inj_add, <- length_app. apply (IH (acc ++ data)); [done|done| |rewrite length_app; lia].
  rewrite length_app, Hl, Ha at 1. unfold data. by rewrite take_take_drop.
Qed.

(** A fetch of a readable file gives its content. *)
Lemma fetchContent_ok block rec ds r :
  (0 < block)%nat → readable r rec ds → fetchContent block (contentKey rec) rec r = Ok (concat ds).
Proof.
  intros Hb Hr. unfold fetchContent. case_bool_decide as Hk.
  - unfold contentKey in Hk. destruct Hr as (_ & _ & _ & Hc). destruct (HasInline rec); [discriminate Hk|].
    destruct (HasManifest rec); [discriminate Hk|]. by rewrite Hc.
  - destruct (OpenFile_ok r rec ds Hr) as (fr & -> & Hok). destruct Hr as (Hs & Hlt & Hds & _). pose proof (blen_nonneg (concat ds)).
    rewrite i64_id by (unfold in_i64; lia). rewrite Hs. apply (copySection_ok _ block ds r fr []); [done..|].
    unfold blen. rewrite Nat2Z.id. cbn. lia.
Qed.
End content.


(** ** The cache *)

Lemma elem_list_remove a e el (l : list (nat * matEntry)) : (a, e) ∈ list_remove el l ↔ (a, e) ∈ l ∧ a ≠ el.
Proof. unfold list_remove. rewrite list_elem_of_filter. cbn. tauto. Qed.

Lemma list_remove_other el (l : list (nat * matEntry)) : el ∉ l.*1 → list_remove el l = l.
Proof.
  induction l as [|x l IH]; [done|]. rewrite fmap_cons, not_elem_of_cons. intros [Hx Hl]. unfold list_remove.
  rewrite filter_cons_True by done. f_equal. by apply IH.
Qed.

Lemma remove_perm el e (l : list (nat * matEntry)) : NoDup l.*1 → (el, e) ∈ l → l ≡ₚ (el, e) :: list_remove el l.
Proof.
  induction l as [|x l IH]; [by intros _ []%not_elem_of_nil|]. rewrite fmap_cons, NoDup_cons. intros [Hx Hl].
  rewrite elem_of_cons. intros [<-|Hin]; unfold list_remove.
  - rewrite filter_cons_False by (cbn; tauto). fold (list_remove el l). by rewrite list_remove_other.
  - rewrite filter_cons_True.
    + fold (list_remove el l). rewrite Permutation_swap. apply perm_skip. by apply IH.
    + intros E. apply Hx. rewrite E. by apply (list_elem_of_fmap_2 fst) in Hin.
Qed.

Lemma find_entry el e (l : list (nat * matEntry)) :
  NoDup l.*1 → (el, e) ∈ l → ∃ i, list_find (λ x, x.1 = el) l = Some (i, (el, e)).
Proof.
  intros Hn Hin. destruct (list_find_elem_of (λ x, x.1 = el) l (el, e) Hin eq_refl) as [[i [a e']] Hf]. exists i.
  rewrite Hf. apply list_find_Some in Hf as (Hi & Ha & _). cbn in Ha. subst a. repeat f_equal.
  apply list_elem_of_lookup in Hin as [j Hj].
  assert (i = j) as ->; [|congruence]. apply (NoDup_lookup l.*1 i j el); [done|..]; by rewrite list_lookup_fmap, ?Hi, ?Hj.
Qed.

Lemma front_perm el e (l : list (nat * matEntry)) : NoDup l.*1 → (el, e) ∈ l → list_front el l ≡ₚ l.
Proof.
  intros Hn Hin. unfold list_front. destruct (find_entry el e l Hn Hin) as [i ->]. symmetry. by apply remove_perm.
Qed.

Lemma sum_perm {A} (f : A → Z) (l l' : list A) : l ≡ₚ l' → sum_of f l = sum_of f l'.
Proof. unfold sum_of. induction 1; cbn in *; lia. Qed.

Lemma sum_nonneg l : (∀ x, x ∈ l → 0 <= entry_size x) → 0 <= sum_of entry_size l.
Proof.
  induction l as [|x l IH]; cbn; [lia|]. intros Hl. specialize (IH (λ y Hy, Hl y (list_elem_of_further _ _ _ Hy))).
  specialize (Hl x (list_elem_of_here _ _)). unfold sum_of in IH. cbn in *. lia.
Qed.

(** The order of the list does not matter to the invariant. *)
Lemma cache_ok_perm m l : cache_ok m → l ≡ₚ mz_lru m → cache_ok (set_mz_lru l m).
Proof.
  intros [A I S F] Hp. split; cbn.
  - by rewrite Hp.
  - intros k a. rewrite I. by setoid_rewrite Hp.
  - rewrite S. symmetry. apply (sum_perm _ _ _ Hp).
  - done.
Qed.

(** Removing an entry. *)
Lemma cache_ok_remove el e m :
  cache_ok m → (el, e) ∈ mz_lru m → (∀ x, x ∈ mz_lru m → 0 <= entry_size x) → mz_curBytes m < 2 ^ 63 →
  cache_ok (removeElementLocked el e m) ∧
  mz_curBytes (removeElementLocked el e m) = mz_curBytes m - me_size e.
Proof.
  intros [A I S F] Hin Hpos Hlt. pose proof (remove_perm el e _ A Hin) as Hp.
  assert (mz_curBytes m = me_size e + sum_of entry_size (list_remove el (mz_lru m))) as Hsum.
  { rewrite S, (sum_perm _ _ _ Hp). done. }
  assert (0 <= sum_of entry_size (list_remove el (mz_lru m))) as Hnn.
  { apply sum_nonneg. intros [a e'] Hx%elem_list_remove. apply Hpos. tauto. }
  pose proof (Hpos _ Hin) as Hs. unfold entry_size in Hs. cbn in Hs.
  assert (i64 (mz_curBytes m - me_size e) = mz_curBytes m - me_size e) as Hi by (apply i64_id; unfold in_i64; lia).
  split; [|exact Hi]. split; cbn [removeElementLocked mz_lru mz_byKey mz_curBytes mz_inflight].
  - rewrite Hp in A. by apply NoDup_cons in A as [_ A].
  - intros k a. rewrite lookup_delete_Some, I. setoid_rewrite elem_list_remove. split.
    + intros (Hk & e' & Hin' & <-). exists e'. split; [split; [done|]|done]. intros ->. apply Hk. f_equal.
      destruct (find_entry el e _ A Hin) as [i Hf], (find_entry el e' _ A Hin') as [i' Hf']. congruence.
    + intros (e' & [Hin' Hne] & <-). split; [|by exists e']. intros E. apply Hne.
      assert (mz_byKey m !! me_key e = Some el) as H1 by (apply I; by exists e).
      assert (mz_byKey m !! me_key e = Some a) as H2 by (apply I; by exists e'). congruence.
  - rewrite Hi. lia.
  - intros k c Hc. rewrite lookup_delete_None. right. by apply (F k c).
Qed.

Lemma remove_last el e (l : list (nat * matEntry)) : NoDup (l ++ [(el, e)]).*1 → list_remove el (l ++ [(el, e)]) = l.
Proof.
  rewrite fmap_app, NoDup_app. intros (_ & Hd & _). unfold list_remove.
  rewrite filter_app, (filter_cons_False (λ x, x.1 ≠ el)) by (cbn; tauto). rewrite filter_nil, app_nil_r.
  fold (list_remove el l). apply list_remove_other. intros Hx%Hd. apply Hx. cbn. apply list_elem_of_here.
Qed.

(** Eviction takes entries from the end, never the protected one at the
    front, until the rest is within the budget. *)
Lemma evict_spec fuel p e0 rest gone m :
  mz_lru m = (p, e0) :: rest → (length rest < fuel)%nat →
  cache_ok m → (∀ x, x ∈ mz_lru m → 0 <= entry_size x) → mz_curBytes m < 2 ^ 63 →
  ∃ keep tail m', evict_loop fuel p gone m = (gone ++ (me_path ∘ snd <$> reverse tail), m') ∧
    rest = keep ++ tail ∧ mz_lru m' = (p, e0) :: keep ∧ cache_ok m' ∧ within m' ∧
    mz_cacheDir m' = mz_cacheDir m ∧ mz_maxBytes m' = mz_maxBytes m ∧ mz_inflight m' = mz_inflight m.
Proof.
  revert rest gone m. induction fuel as [|fuel IH]; intros rest gone m Hl Hf Hok Hpos Hlt; [lia|]. cbn [evict_loop].
  destruct (Z.ltb_spec (mz_maxBytes m) (mz_curBytes m)) as [Hover|Hin].
  2: { exists rest, [], m. rewrite reverse_nil, fmap_nil, !app_nil_r. split_and!; try done. by left. }
  pose proof (co_addrs _ Hok) as Hnd. rewrite Hl in Hnd.
  destruct (exists_last (l := (p, e0) :: rest) ltac:(done)) as (init & [el e] & Hlast).
  rewrite Hl, Hlast, last_snoc. destruct init as [|x init].
  { injection Hlast as <- <- ->. rewrite Nat.eqb_refl. exists [], [], m. rewrite reverse_nil, fmap_nil, app_nil_r.
    split_and!; try done. right. by rewrite Hl. }
  injection Hlast as <- Hrest. rewrite Hrest in Hnd.
  assert (el ≠ p) as Hne.
  { rewrite fmap_cons, fmap_app in Hnd. apply NoDup_cons in Hnd as [Hp _]. intros ->. apply Hp. set_solver. }
  rewrite (proj2 (Nat.eqb_neq el p) Hne).
  assert ((el, e) ∈ mz_lru m) as Hel by (rewrite Hl, Hrest; set_solver).
  destruct (cache_ok_remove el e m Hok Hel Hpos Hlt) as [Hok' Hcur].
  assert (mz_lru (removeElementLocked el e m) = (p, e0) :: init) as Hl'.
  { cbn [removeElementLocked mz_lru]. rewrite Hl, Hrest. by apply (remove_last el e ((p, e0) :: init)). }
  destruct (IH init (gone ++ [me_path e]) (removeElementLocked el e m)) as (keep & tail & m' & Hrun & Hk & Hlm & Hrest').
  - done.
  - rewrite Hrest, length_app in Hf. cbn in Hf. lia.
  - done.
  - rewrite Hl'. intros x Hx. apply Hpos. rewrite Hl, Hrest. set_solver.
  - pose proof (Hpos _ Hel) as Hs. unfold entry_size in Hs. cbn [snd] in Hs. lia.
  - exists keep, (tail ++ [(el, e)]), m'. rewrite Hrun, Hrest, Hk, reverse_snoc, fmap_cons, <- !app_assoc.
    destruct Hrest' as (? & ? & ? & ? & ?). by split_and!.
Qed.

Lemma keys_distinct m a e b f :
  cache_ok m → (a, e) ∈ mz_lru m → (b, f) ∈ mz_lru m → me_key e = me_key f → a = b.
Proof.
  intros Hok Ha Hb E. assert (mz_byKey m !! me_key e = Some a) as H1 by (apply (co_index _ Hok); by exists e).
  assert (mz_byKey m !! me_key e = Some b) as H2 by (apply (co_index _ Hok); by exists f). congruence.
Qed.

(** A new entry in front. *)
Lemma cache_ok_push el e m :
  cache_ok m → el ∉ (mz_lru m).*1 → mz_byKey m !! me_key e = None → mz_inflight m !! me_key e = None →
  in_i64 (mz_curBytes m + me_size e) →
  cache_ok (mkMaterializer (mz_cacheDir m) (mz_maxBytes m) (<[me_key e := el]> (mz_byKey m)) ((el, e) :: mz_lru m)
              (i64 (mz_curBytes m + me_size e)) (mz_inflight m)).
Proof.
  intros [A I S F] Hel Hk Hf Hsz. split; cbn [mz_lru mz_byKey mz_curBytes mz_inflight].
  - rewrite fmap_cons. by apply NoDup_cons.
  - intros k a. rewrite lookup_insert_Some, I. setoid_rewrite elem_of_cons. split.
    + intros [[<- <-]|[Hne (e' & Hin & He)]]; [exists e; auto|exists e'; auto].
    + intros (e' & [[= -> ->]|Hin] & He); [auto|]. right. split; [|by exists e'].
      intros E. assert (mz_byKey m !! k = Some a) as Hx by (apply I; by exists e'). congruence.
  - rewrite i64_id, S by done. unfold sum_of. cbn. unfold entry_size at 2. cbn. lia.
  - intros k c Hc. apply lookup_insert_None. split; [by apply (F k c)|]. congruence.
Qed.

Lemma remove_files_lookup l d p : remove_files l d !! p = if bool_decide (p ∈ l) then None else d !! p.
Proof.
  revert d. induction l as [|q l IH]; intros d; cbn; [by rewrite bool_decide_false by apply not_elem_of_nil|].
  unfold remove_files in IH. rewrite IH. destruct (decide (p = q)) as [->|Hne].
  - rewrite lookup_delete_eq. rewrite (bool_decide_true (q ∈ q :: l)) by apply list_elem_of_here. by case_bool_decide.
  - rewrite lookup_delete_ne by done. do 2 case_bool_decide; set_solver.
Qed.

Lemma destPath_inj dir k k' : destPath dir k = destPath dir k' → k = k'.
Proof. unfold destPath. intros E%(inj _)%(inj _). done. Qed.

(** ** The steps keep the invariant *)

Section steps.
Context {bucket : Type → Type} `{BoltOps bucket} {B : Type} `{BackendLaws B} {blake3 : Blake3}.
Context {callback handler : Type}.
Abbreviation repo := (Repo bucket B callback handler).
Abbreviation machine := (machine bucket B callback handler).
Context (K : bytes → Prop) (N : nat).
Implicit Types m : machine.

Lemma contentKey_regular rec : regular (contentKey rec).
Proof. unfold contentKey. intros x E. destruct (HasInline rec), (HasManifest rec); discriminate E. Qed.

Lemma key_names_regular k b : key_names K k b → regular k.
Proof. intros [[-> _]|[[_ ->]|(? & ? & ? & _ & _ & _ & _ & -> & _)]] y E; discriminate E. Qed.

Lemma frame_answered own m m' k c : frame K own m m' → regular k → answered K m k c → answered K m' k c.
Proof.
  intros F Hk (call & Hc & Hd & He). exists call. split_and!; [by apply (fr_answered _ _ _ _ F)|done|]. intros E.
  destruct (He E) as [-> Hcl]. split; [|by apply (fr_clean _ _ _ _ F)]. unfold dest. by rewrite (fr_dir _ _ _ _ F).
Qed.

Lemma frame_fetched own m m' k c res :
  frame K own m m' → own ≠ Some k → mz_inflight (ma_mat m) !! k = Some c → fetched_ok K m k res → fetched_ok K m' k res.
Proof.
  intros F Hk Hc Hf p sz Hres. destruct (Hf p sz Hres) as [-> Hd]. unfold dest. rewrite (fr_dir _ _ _ _ F).
  split; [done|by apply (fr_disk _ _ _ _ F _ c)].
Qed.

Lemma frame_file own m m' rec : frame K own m m' → file_ok m rec → file_ok m' rec.
Proof. intros F (ds & Hr & Hs). exists ds. split; [by apply (fr_repo _ _ _ _ F)|done]. Qed.

(** The other calls are as well off as before. *)
Lemma thread_ok_frame own m m' th :
  frame K own m m' → (∀ k, own = Some k → ¬ leads k th) → thread_ok K m th → thread_ok K m' th.
Proof.
  intros F Hown Hth. assert (∀ k, leads k th → own ≠ Some k) as Ho by (intros k Hl E; by apply (Hown k E)).
  destruct th as [p|rec|rec c|rec c res|rec res|rec c|rec p|rec res|p|res]; cbn [thread_ok leads] in *; try done.
  - by eapply frame_file.
  - destruct Hth as [Hf Hp]. split; [by eapply frame_file|]. eapply fr_pending; eauto.
  - destruct Hth as [Hp Hf]. split; [eapply fr_pending; eauto|]. destruct Hp as [Hc _]. eapply frame_fetched; eauto.
  - destruct Hth as [(c & Hc & Ha) Hf]. split; [|eapply frame_fetched; eauto]. exists c.
    split; [eapply fr_flight; eauto|]. eapply frame_answered; eauto using contentKey_regular.
  - destruct Hth as [Hp|Ha]; [by apply (fr_waiting _ _ _ _ F _ _ (contentKey_regular rec))|].
    right. eapply frame_answered; eauto using contentKey_regular.
  - destruct Hth as [-> Hcl]. unfold dest. rewrite (fr_dir _ _ _ _ F). split; [done|].
    eapply fr_clean; eauto using contentKey_regular.
Qed.

(** Steps that touch neither disk, nor calls, nor the fetches under way. *)
Lemma frame_same own m m' :
  mz_cacheDir (ma_mat m') = mz_cacheDir (ma_mat m) → (∀ rec ds, readable (ma_repo m) rec ds → readable (ma_repo m') rec ds) →
  ma_disk m' = ma_disk m → ma_calls m' = ma_calls m → mz_inflight (ma_mat m') = mz_inflight (ma_mat m) → frame K own m m'.
Proof.
  intros Hd Hr Hdisk Hc Hi. split; unfold clean, pending, on_disk, dest; rewrite ?Hd, ?Hr, ?Hdisk, ?Hc, ?Hi; try done.
  intros k c _ Hp. by left.
Qed.

(** Nothing but the files of the step's own key changes on disk. *)
Lemma frame_disk k m d :
  (∀ k', regular k' → k' ≠ k → d !! dest m k' = ma_disk m !! dest m k') → (clean K m k → clean K (set_disk d m) k) →
  frame K (Some k) m (set_disk d m).
Proof.
  intros Hother Hk. split; cbn [set_disk ma_mat ma_disk ma_calls ma_repo]; try done.
  - intros k' Hr Hcl. destruct (decide (k' = k)) as [->|Hne]; [by apply Hk|]. intros b. cbn. unfold dest in *. cbn.
    rewrite (Hother k') by done. apply Hcl.
  - intros k' c Hr Hp. by left.
  - intros k' c sz Hne Hc (b & Hb & Hn & Hs). exists b. split; [|done]. cbn. unfold dest in *. cbn.
    rewrite (Hother k'); [done|by eapply key_names_regular|congruence].
Qed.

Lemma temp_ne o m tmp k : os_ok o m → os_temp o = Ok tmp → regular k → tmp ≠ dest m k.
Proof. intros Ho Ht Hk. destruct (Ho _ Ht) as (_ & x & ->). intros E%destPath_inj. by apply (Hk x). Qed.

(** A fetch that fails leaves the named files as they were. *)
Lemma fetch_failed k m d e :
  (∀ k', regular k' → d !! dest m k' = ma_disk m !! dest m k') → regular k →
  ∃ d', set_disk d m = set_disk d' m ∧ fetched_ok K (set_disk d m) k (Err e) ∧
    (∀ k', regular k' → k' ≠ k → d' !! dest m k' = ma_disk m !! dest m k') ∧
    (clean K m k → clean K (set_disk d m) k).
Proof.
  intros Hd Hk. exists d. split_and!; [done| |by auto|].
  - intros p sz E. discriminate E.
  - intros Hcl b. cbn. unfold dest in *. cbn. rewrite (Hd k) by done. apply Hcl.
Qed.

(** A fetch leaves the content under its name, or nothing new. *)
Lemma fetch_spec o block rec m res m' :
  repo_ok K N (ma_repo m) → os_ok o m → (0 < block)%nat → file_ok m rec →
  fetch o block (contentKey rec) rec m = (res, m') →
  ∃ d, m' = set_disk d m ∧ fetched_ok K m' (contentKey rec) res ∧
    (∀ k', regular k' → k' ≠ contentKey rec → d !! dest m k' = ma_disk m !! dest m k') ∧
    (clean K m (contentKey rec) → clean K m' (contentKey rec)).
Proof.
  intros [Hi _] Ho Hb (ds & Hr & Hsz). pose proof (contentKey_regular rec) as Hreg. unfold fetch.
  pose proof (readable_names K N _ _ _ Hi Hr) as Hn. pose proof (blen_nonneg (concat ds)).
  assert (i64 (Size rec) = blen (concat ds)) as Hsize.
  { destruct Hr as (Hs & _). rewrite Hs. apply i64_id. unfold in_i64. lia. }
  destruct (os_temp o) as [tmp|e] eqn:Ht.
  2: { intros [= <- <-]. destruct m. by apply (fetch_failed _ (mkMachine _ _ _ _ _)). }
  assert (∀ k', regular k' → tmp ≠ dest m k') as Hne by (intros; by eapply temp_ne).
  cbn [set_disk ma_repo ma_disk ma_mat ma_calls ma_next]. rewrite (fetchContent_ok block rec ds _ Hb Hr).
  assert (∀ x k', regular k' → delete tmp (<[tmp := x]> (ma_disk m)) !! dest m k' = ma_disk m !! dest m k') as Hdrop.
  { intros x k' Hk'. rewrite lookup_delete_ne, lookup_insert_ne by auto. done. }
  destruct (os_write o) as [e|]; [intros [= <- <-]; by (apply (fetch_failed _ m); auto)|].
  destruct (os_sync o) as [e|]; [intros [= <- <-]; by (apply (fetch_failed _ m); auto)|].
  destruct (os_close o) as [e|]; [intros [= <- <-]; by (apply (fetch_failed _ m); auto)|].
  rewrite insert_insert_eq.
  destruct (os_rename o) as [e|]; [intros [= <- <-]; by (apply (fetch_failed _ m); auto)|].
  intros [= <- <-]. fold (dest m (contentKey rec)). eexists. split; [done|].
  set (d := delete tmp _).
  assert (d !! dest m (contentKey rec) = Some (concat ds)) as Hown.
  { unfold d. by rewrite lookup_delete_ne, lookup_insert_eq by auto. }
  split_and!.
  - intros p sz [= <- <-]. split; [done|]. exists (concat ds). by rewrite Hsize.
  - intros k' Hk' Hkk. unfold d. rewrite lookup_delete_ne, lookup_insert_ne by (auto; intros E%destPath_inj; auto).
    by apply Hdrop.
  - intros _ b Hb'. unfold dest in *. cbn in Hb'. congruence.
Qed.

(** *** The cache and the disk *)

Lemma machine_ok_disk m d :
  machine_ok K N m → (∀ a e, (a, e) ∈ mz_lru (ma_mat m) → d !! dest m (me_key e) = ma_disk m !! dest m (me_key e)) →
  machine_ok K N (set_disk d m).
Proof.
  intros [] Hd. split; try done. cbn. intros a e Hin. destruct (mo_files0 a e Hin) as (Hp & b & Hb & Hn & Hs).
  split; [done|]. exists b. split; [|done]. change (d !! dest m (me_key e) = Some b). by rewrite (Hd a).
Qed.

Lemma machine_ok_lru m l : machine_ok K N m → l ≡ₚ mz_lru (ma_mat m) → machine_ok K N (set_mat (set_mz_lru l (ma_mat m)) m).
Proof.
  intros [] Hp. split; cbn [set_mat ma_mat set_mz_lru mz_lru mz_maxBytes ma_next ma_calls ma_repo]; try done.
  - by apply cache_ok_perm.
  - unfold within in *. cbn. by rewrite Hp.
  - intros a e Hin. rewrite Hp in Hin. by apply (mo_files0 a e).
  - intros a e Hin. rewrite Hp in Hin. by apply (mo_fresh0 a e).
Qed.

Lemma entry_bounds m a e : machine_ok K N m → (a, e) ∈ mz_lru (ma_mat m) → 0 <= me_size e < 2 ^ 62.
Proof.
  intros Hm Hin. destruct (mo_files _ _ _ Hm a e Hin) as (_ & b & _ & _ & -> & Hlt). pose proof (blen_nonneg b). lia.
Qed.

Lemma cur_bound m : machine_ok K N m → mz_curBytes (ma_mat m) < 2 ^ 62.
Proof.
  intros Hm. pose proof (mo_max _ _ _ Hm). destruct (mo_within _ _ _ Hm) as [Hle|Hone]; [lia|].
  rewrite (co_bytes _ (mo_cache _ _ _ Hm)). pose proof (entry_bounds m) as He.
  destruct (mz_lru (ma_mat m)) as [|[a e] [|]]; cbn in Hone; [cbn; lia| |lia].
  specialize (He a e Hm (list_elem_of_here _ _)). unfold sum_of, entry_size. cbn. lia.
Qed.

Lemma cached_clean m a e : machine_ok K N m → (a, e) ∈ mz_lru (ma_mat m) → clean K m (me_key e).
Proof. intros Hm Hin. destruct (mo_files _ _ _ Hm a e Hin) as (_ & b & Hb & Hn & _). intros b' Hb'. congruence. Qed.

Lemma indexed m k a :
  machine_ok K N m → mz_byKey (ma_mat m) !! k = Some a →
  ∃ i e, list_find (λ x, x.1 = a) (mz_lru (ma_mat m)) = Some (i, (a, e)) ∧ (a, e) ∈ mz_lru (ma_mat m) ∧ me_key e = k.
Proof.
  intros Hm Ha. pose proof (mo_cache _ _ _ Hm) as Hc. apply (co_index _ Hc) in Ha as (e & Hin & Hk).
  destruct (find_entry a e _ (co_addrs _ Hc) Hin) as [i Hf]. by exists i, e.
Qed.

(** *** The fetches under way *)

Lemma leads_flight m th k : thread_ok K m th → leads k th → is_Some (mz_inflight (ma_mat m) !! k).
Proof.
  destruct th; cbn [thread_ok leads]; try done; intros Hth <-.
  - destruct Hth as [_ [-> _]]. by eexists.
  - destruct Hth as [[-> _] _]. by eexists.
  - destruct Hth as [(c & -> & _) _]. by eexists.
Qed.

Lemma flight_call m ths k c :
  run_ok K N m ths → mz_inflight (ma_mat m) !! k = Some c → pending m k c ∨ answered K m k c.
Proof.
  intros [_ Hths Hl] Hc. destruct (ld_some _ _ Hl k c Hc) as (t & th & Ht & Hlead). specialize (Hths t th Ht).
  destruct th; cbn [thread_ok leads] in *; try done; subst k.
  - destruct Hths as [_ Hp]. left. pose proof (proj1 Hp). congruence.
  - destruct Hths as [Hp _]. left. pose proof (proj1 Hp). congruence.
  - destruct Hths as [(c' & Hc' & Ha) _]. right. congruence.
Qed.

Lemma led_same m m' ths t th th' :
  led m ths → ths !! t = Some th → mz_inflight (ma_mat m') = mz_inflight (ma_mat m) → (∀ k, leads k th ↔ leads k th') →
  led m' (<[t := th']> ths).
Proof.
  intros [L1 L2 L3] Ht Hi Hleads.
  assert (∀ u x k, <[t := th']> ths !! u = Some x → leads k x → ∃ y, ths !! u = Some y ∧ leads k y) as Hback.
  { intros u x k [[<- <-]|[_ Hu]]%lookup_insert_Some Hx; [exists th; by rewrite Hleads|by exists x]. }
  split; rewrite ?Hi.
  - intros t1 t2 x1 x2 k H1' H2' Hx1 Hx2. destruct (Hback _ _ _ H1' Hx1) as (y1 & ? & ?), (Hback _ _ _ H2' Hx2) as (y2 & ? & ?). eauto.
  - intros k c Hc. destruct (L2 k c Hc) as (u & x & Hu & Hx). destruct (decide (u = t)) as [->|Hne].
    + exists t, th'. rewrite lookup_insert_eq. split; [done|]. apply Hleads. congruence.
    + exists u, x. by rewrite lookup_insert_ne.
  - done.
Qed.

Lemma led_new m m' ths t th th' k c :
  led m ths → ths !! t = Some th → (∀ k', leads k' th' ↔ k' = k) → (∀ u x, ths !! u = Some x → ¬ leads k x) →
  (∀ k', ¬ leads k' th) → (∀ k', mz_inflight (ma_mat m) !! k' ≠ Some c) →
  mz_inflight (ma_mat m') = <[k := c]> (mz_inflight (ma_mat m)) → led m' (<[t := th']> ths).
Proof.
  intros [L1 L2 L3] Ht Hth' Hno Hth Hc Hi. split; rewrite ?Hi.
  - intros t1 t2 x1 x2 k' [[<- <-]|[Hn1 H1']]%lookup_insert_Some [[<- <-]|[Hn2 H2']]%lookup_insert_Some Hx1 Hx2; [done|..].
    + apply Hth' in Hx1 as ->. by destruct (Hno _ _ H2').
    + apply Hth' in Hx2 as ->. by destruct (Hno _ _ H1').
    + eauto.
  - intros k' c' [[<- _]|[Hne Hc']]%lookup_insert_Some; [exists t, th'; rewrite lookup_insert_eq, Hth'; done|].
    destruct (L2 k' c' Hc') as (u & x & Hu & Hx). exists u, x. rewrite lookup_insert_ne; [done|].
    intros <-. apply (Hth k'). congruence.
  - intros k1 k2 c' [[<- <-]|[Hn1 H1']]%lookup_insert_Some [[<- E]|[Hn2 H2']]%lookup_insert_Some; [done|..|eauto].
    + by destruct (Hc k2).
    + subst c'. by destruct (Hc k1).
Qed.

Lemma led_done m m' ths t th th' k :
  led m ths → ths !! t = Some th → leads k th → (∀ k', leads k' th → k' = k) → (∀ k', ¬ leads k' th') →
  mz_inflight (ma_mat m') = delete k (mz_inflight (ma_mat m)) → led m' (<[t := th']> ths).
Proof.
  intros [L1 L2 L3] Ht Hk Hth Hth' Hi. split; rewrite ?Hi.
  - intros t1 t2 x1 x2 k' [[<- <-]|[Hn1 H1']]%lookup_insert_Some; [by intros _ []%Hth'|].
    intros [[<- <-]|[Hn2 H2']]%lookup_insert_Some; [by intros _ []%Hth'|eauto].
  - intros k' c' [Hne Hc']%lookup_delete_Some. destruct (L2 k' c' Hc') as (u & x & Hu & Hx). exists u, x.
    rewrite lookup_insert_ne; [done|]. intros <-. apply Hne. symmetry. apply Hth. congruence.
  - intros k1 k2 c' [_ H1']%lookup_delete_Some [_ H2']%lookup_delete_Some. eauto.
Qed.

Lemma led_call m ths t th : led m ths → ths !! t = None → (∀ k, ¬ leads k th) → led m (<[t := th]> ths).
Proof.
  intros [L1 L2 L3] Ht Hth. split; [| |done].
  - intros t1 t2 x1 x2 k [[<- <-]|[Hn1 H1']]%lookup_insert_Some; [by intros _ []%Hth|].
    intros [[<- <-]|[Hn2 H2']]%lookup_insert_Some; [by intros _ []%Hth|eauto].
  - intros k c Hc. destruct (L2 k c Hc) as (u & x & Hu & Hx). exists u, x. rewrite lookup_insert_ne; [done|congruence].
Qed.

(** *** Step by step *)

Lemma run_ok_step own m m' ths t th th' :
  run_ok K N m ths → ths !! t = Some th → (∀ k, own = Some k → leads k th) → frame K own m m' →
  machine_ok K N m' → thread_ok K m' th' → led m' (<[t := th']> ths) → run_ok K N m' (<[t := th']> ths).
Proof.
  intros [_ Hths Hl] Ht Hown F Hm Hth Hl'. split; [done| |done].
  intros u x [[<- <-]|[Hne Hu]]%lookup_insert_Some; [done|]. eapply thread_ok_frame; eauto.
  intros k Hk Hx. apply Hne. eapply (ld_one _ _ Hl); eauto.
Qed.

(** A step that changes nothing and does not concern a fetch. *)
Lemma run_ok_quiet m ths t th th' :
  run_ok K N m ths → ths !! t = Some th → (∀ k, leads k th ↔ leads k th') → thread_ok K m th' →
  run_ok K N m (<[t := th']> ths).
Proof.
  intros Hrun Ht Hl Hth. eapply (run_ok_step None); eauto using frame_same, ro_machine; [done|].
  eapply led_same; eauto using ro_led.
Qed.

Lemma begin_lead m ths t rec :
  run_ok K N m ths → ths !! t = Some (LResolved rec) → file_ok m rec →
  mz_byKey (ma_mat m) !! contentKey rec = None → mz_inflight (ma_mat m) !! contentKey rec = None →
  let c := ma_next m in
  let m' := set_ma_next (S c) (set_calls (<[c := mkInflight false [] 0 None]> (ma_calls m))
              (set_mat (set_mz_inflight (<[contentKey rec := c]> (mz_inflight (ma_mat m))) (ma_mat m)) m)) in
  run_ok K N m' (<[t := LFetching rec c]> ths).
Proof.
  intros Hrun Ht Hfile Hk Hf c m'. pose proof (ro_machine _ _ _ _ Hrun) as Hm. pose proof (ro_led _ _ _ _ Hrun) as [L1 L2 L3].
  assert (∀ c' call, ma_calls m !! c' = Some call → ma_calls m' !! c' = Some call) as Hcalls.
  { intros c' call Hc'. cbn. rewrite lookup_insert_ne; [done|]. pose proof (mo_calls _ _ _ Hm _ _ Hc'). unfold c. lia. }
  assert (∀ k c', mz_inflight (ma_mat m) !! k = Some c' → mz_inflight (ma_mat m') !! k = Some c') as Hflight.
  { intros k c' Hc'. cbn. rewrite lookup_insert_ne; [done|]. congruence. }
  assert (∀ k c', pending m k c' → pending m' k c') as Hpend.
  { intros k c' (Hc' & call & Hcall & Hd). split; [by apply Hflight|]. exists call. by auto. }
  eapply (run_ok_step None); eauto; [done|..].
  - by split; auto.
  - destruct Hm as [[A I S F] ? ? ? ? ? ?]. split; try done.
    + split; try done. intros k c'. cbn. intros [[<- _]|[_ Hc']]%lookup_insert_Some; [done|by apply (F k c')].
    + intros a e Hin. specialize (mo_fresh0 a e Hin). cbn. lia.
    + intros c' call. cbn. intros [[<- _]|[_ Hc']]%lookup_insert_Some; [unfold c; lia|]. specialize (mo_calls0 _ _ Hc'). lia.
  - split; [done|]. split; [by cbn; rewrite lookup_insert_eq|]. eexists. split; [by cbn; rewrite lookup_insert_eq|done].
  - eapply led_new; [by apply (ro_led _ _ _ _ Hrun)|exact Ht|cbn; naive_solver| |cbn; auto| |done].
    + intros u x Hu Hx. pose proof (leads_flight _ _ _ (ro_threads _ _ _ _ Hrun u x Hu) Hx) as [? ?]. congruence.
    + intros k Hc. assert (∃ call, ma_calls m !! c = Some call) as [call Hcall].
      { destruct (flight_call _ _ _ _ Hrun Hc) as [(_ & call & Hcall & _)|(call & Hcall & _)]; by exists call. }
      pose proof (mo_calls _ _ _ Hm _ _ Hcall). unfold c in *. lia.
Qed.

Lemma begin_ok m ths t rec th' m' :
  run_ok K N m ths → ths !! t = Some (LResolved rec) → materialize_begin rec m = (th', m') → run_ok K N m' (<[t := th']> ths).
Proof.
  intros Hrun Ht. pose proof (ro_machine _ _ _ _ Hrun) as Hm. pose proof (ro_threads _ _ _ _ Hrun _ _ Ht) as Hfile.
  unfold materialize_begin. destruct (mz_byKey (ma_mat m) !! contentKey rec) as [el|] eqn:Hk.
  - destruct (indexed m _ el Hm Hk) as (i & e & Hf & Hin & Hke). rewrite Hf. intros [= <- <-].
    destruct (mo_files _ _ _ Hm el e Hin) as [Hpath _]. pose proof (cached_clean m el e Hm Hin) as Hcl. rewrite Hke in *.
    eapply (run_ok_step None); eauto; [done|by apply frame_same| |done|by eapply led_same; eauto using ro_led].
    apply machine_ok_lru; [done|]. eapply front_perm; eauto using co_addrs, mo_cache.
  - destruct (mz_inflight (ma_mat m) !! contentKey rec) as [c|] eqn:Hf; intros [= <- <-].
    + eapply run_ok_quiet; [done|exact Ht|done|]. by eapply flight_call.
    + by apply begin_lead.
Qed.

(** A key in flight has no entry, so a fetch does not touch the cache's files. *)
Lemma flight_not_cached m k c a e :
  machine_ok K N m → mz_inflight (ma_mat m) !! k = Some c → (a, e) ∈ mz_lru (ma_mat m) → me_key e ≠ k.
Proof.
  intros Hm Hc Hin <-. pose proof (mo_cache _ _ _ Hm) as Hok. pose proof (co_flight _ Hok _ _ Hc) as Hn.
  assert (mz_byKey (ma_mat m) !! me_key e = Some a) as Hs by (apply (co_index _ Hok); by exists e). congruence.
Qed.

Lemma cached_regular m a e : machine_ok K N m → (a, e) ∈ mz_lru (ma_mat m) → regular (me_key e).
Proof. intros Hm Hin. destruct (mo_files _ _ _ Hm a e Hin) as (_ & b & _ & Hn & _). by eapply key_names_regular. Qed.

Lemma fetch_ok m ths t rec c o block res m' :
  run_ok K N m ths → ths !! t = Some (LFetching rec c) → os_ok o m → (0 < block)%nat →
  fetch o block (contentKey rec) rec m = (res, m') → run_ok K N m' (<[t := LFetched rec c res]> ths).
Proof.
  intros Hrun Ht Ho Hb Hfetch. pose proof (ro_machine _ _ _ _ Hrun) as Hm.
  destruct (ro_threads _ _ _ _ Hrun _ _ Ht) as [Hfile Hpend].
  destruct (fetch_spec o block rec m res m' (mo_repo _ _ _ Hm) Ho Hb Hfile Hfetch) as (d & -> & Hres & Hother & Hcl).
  eapply (run_ok_step (Some (contentKey rec))); eauto.
  - intros k [= <-]. done.
  - by apply frame_disk.
  - apply machine_ok_disk; [done|]. intros a e Hin. apply Hother; [by eapply cached_regular|].
    eapply flight_not_cached; eauto. apply Hpend.
  - by split.
  - by eapply led_same; eauto using ro_led.
Qed.

Lemma publish_ok m ths t rec c res :
  run_ok K N m ths → ths !! t = Some (LFetched rec c res) → run_ok K N (publishCall c res m) (<[t := LDone rec res]> ths).
Proof.
  intros Hrun Ht. pose proof (ro_machine _ _ _ _ Hrun) as Hm. pose proof (ro_led _ _ _ _ Hrun) as Hl.
  destruct (ro_threads _ _ _ _ Hrun _ _ Ht) as [[Hc (call & Hcall & Hnd)] Hres].
  assert (answered K (publishCall c res m) (contentKey rec) c) as Hans.
  { eexists. split; [by cbn; rewrite lookup_insert_eq|]. destruct res as [[p sz]|e]; [|done]. split; [done|]. intros _. cbn.
    destruct (Hres p sz eq_refl) as (-> & b & Hb & Hn & _). split; [done|].
    intros b' Hb'. change (ma_disk m !! dest m (contentKey rec) = Some b') in Hb'. congruence. }
  assert (∀ k c', k ≠ contentKey rec → pending m k c' → pending (publishCall c res m) k c') as Hpend.
  { intros k c' Hk (Hc' & call' & Hcall' & Hd). split; [done|]. exists call'. split; [|done]. cbn.
    rewrite lookup_insert_ne; [done|]. intros <-. apply Hk. by eapply (ld_calls _ _ Hl). }
  eapply (run_ok_step (Some (contentKey rec))); eauto.
  - intros k [= <-]. done.
  - split; try done.
    + intros c' call' Hc' Hd. cbn. rewrite lookup_insert_ne; [done|]. intros <-. congruence.
    + intros k c' _ Hp. destruct (decide (k = contentKey rec)) as [->|Hk]; [|by left; auto].
      right. destruct Hp as [Hp _]. assert (c' = c) as -> by congruence. done.
    + intros k c' Hk Hp. apply Hpend; [congruence|done].
  - destruct Hm. split; try done. intros c' call'. cbn. intros [[<- _]|[_ Hc']]%lookup_insert_Some; eauto.
  - split; [by exists c|done].
  - by eapply led_same; eauto.
Qed.

(** Files removed that no fetch under way needs. *)
Lemma frame_remove own m m' gone :
  mz_cacheDir (ma_mat m') = mz_cacheDir (ma_mat m) → ma_repo m' = ma_repo m → ma_calls m' = ma_calls m →
  ma_disk m' = remove_files gone (ma_disk m) →
  (∀ k c, own ≠ Some k → mz_inflight (ma_mat m) !! k = Some c →
     mz_inflight (ma_mat m') !! k = Some c ∧ dest m k ∉ gone) →
  (∀ k c, own = Some k → ¬ pending m k c) → frame K own m m'.
Proof.
  intros Hdir Hrepo Hcalls Hdisk Hfl Hnone.
  assert (∀ k c, pending m k c → pending m' k c) as Hpend.
  { intros k c Hp. pose proof (λ E, Hnone k c E Hp) as Hown. destruct Hp as [Hc Hcall].
    split; [by apply Hfl|]. by rewrite Hcalls. }
  split; try done.
  - by rewrite Hrepo.
  - intros k _ Hcl b. unfold dest. rewrite Hdir, Hdisk, remove_files_lookup. case_bool_decide; [done|]. apply Hcl.
  - by rewrite Hcalls.
  - intros k c _ Hp. left. by apply Hpend.
  - intros k c Hk Hc. by apply Hfl.
  - intros k c _. apply Hpend.
  - intros k c sz Hk Hc (b & Hb & Hrest). exists b. split; [|done]. unfold dest in *. rewrite Hdir, Hdisk, remove_files_lookup.
    rewrite bool_decide_false; [done|]. by apply (Hfl k c).
Qed.

Lemma fetched_clean m k p sz : fetched_ok K m k (Ok (p, sz)) → p = dest m k ∧ clean K m k.
Proof. intros Hf. destruct (Hf p sz eq_refl) as (-> & b & Hb & Hn & _). split; [done|]. intros b' Hb'. congruence. Qed.

Lemma pushed_ok k c p sz m :
  machine_ok K N m → mz_inflight (ma_mat m) !! k = Some c → 0 <= sz < 2 ^ 62 →
  cache_ok (pushed k p sz m) ∧ mz_curBytes (pushed k p sz m) < 2 ^ 63.
Proof.
  intros Hm Hc Hsz. pose proof (mo_cache _ _ _ Hm) as Hok. pose proof (cur_bound m Hm) as Hcur.
  assert (0 <= mz_curBytes (ma_mat m)) as Hpos.
  { rewrite (co_bytes _ Hok). apply sum_nonneg. intros [a e] Hin. by apply (entry_bounds m a e). }
  assert (in_i64 (mz_curBytes (ma_mat m) + sz)) as Hi by (unfold in_i64; lia).
  split; [|cbn; rewrite i64_id by done; lia].
  pose proof (cache_ok_push (ma_next m) (mkMatEntry k p sz) (set_mz_inflight (delete k (mz_inflight (ma_mat m))) (ma_mat m))) as Hpush.
  cbn [set_mz_inflight mz_cacheDir mz_maxBytes mz_byKey mz_lru mz_curBytes mz_inflight me_key me_size] in Hpush. apply Hpush.
  - destruct Hok as [A I S F]. split; try done. cbn. intros k' c' [_ Hc']%lookup_delete_Some. by apply (F k' c').
  - cbn. rewrite list_elem_of_fmap. intros ([a e] & Ea & Hin). pose proof (mo_fresh _ _ _ Hm a e Hin). cbn in *. lia.
  - by apply (co_flight _ Hok _ c).
  - apply lookup_delete_eq.
  - done.
Qed.


Lemma on_disk_same m m' k sz :
  mz_cacheDir (ma_mat m') = mz_cacheDir (ma_mat m) → ma_disk m' !! dest m k = ma_disk m !! dest m k →
  on_disk K m k sz → on_disk K m' k sz.
Proof. intros Hdir Hd (b & Hb & Hrest). exists b. split; [|done]. unfold dest in *. rewrite Hdir. congruence. Qed.

(** The files of the entries kept are not those of the entries dropped. *)
Lemma kept_file m mat keep tail a e b f :
  cache_ok mat → mz_lru mat = keep ++ tail → (a, e) ∈ keep → (b, f) ∈ tail → dest m (me_key e) ≠ dest m (me_key f).
Proof.
  intros Hok Hlru Ha Hb E%destPath_inj. pose proof (co_addrs _ Hok) as Hnd.
  assert (a = b) as ->.
  { eapply keys_distinct; eauto; rewrite Hlru; apply elem_of_app; auto. }
  rewrite Hlru, fmap_app, NoDup_app in Hnd. destruct Hnd as (_ & Hd & _). apply (Hd b).
  - by apply (list_elem_of_fmap_2 fst _ (b, e)).
  - by apply (list_elem_of_fmap_2 fst _ (b, f)).
Qed.

(** The machine after an eviction. *)
Lemma evict_machine k c p sz m gone mat' :
  machine_ok K N m → mz_inflight (ma_mat m) !! k = Some c → p = dest m k → on_disk K m k sz →
  evictLocked (ma_next m) (pushed k p sz m) = (gone, mat') →
  let m' := set_ma_next (S (ma_next m)) (set_disk (remove_files gone (ma_disk m)) (set_mat mat' m)) in
  machine_ok K N m' ∧ mz_cacheDir mat' = mz_cacheDir (ma_mat m) ∧
  mz_inflight mat' = delete k (mz_inflight (ma_mat m)) ∧ on_disk K m' k sz ∧
  (∀ q, q ∈ gone → ∃ a e, (a, e) ∈ mz_lru (ma_mat m) ∧ q = dest m (me_key e)).
Proof.
  intros Hm Hc -> Hd. assert (0 <= sz < 2 ^ 62) as Hsz by (destruct Hd as (b & _ & _ & -> & ?); pose proof (blen_nonneg b); lia).
  destruct (pushed_ok k c (dest m k) sz m Hm Hc Hsz) as [Hok Hlt]. unfold evictLocked. intros Hev.
  set (e0 := mkMatEntry k (dest m k) sz).
  destruct (evict_spec (S (length (mz_lru (pushed k (dest m k) sz m)))) (ma_next m) e0 (mz_lru (ma_mat m)) []
    (pushed k (dest m k) sz m) eq_refl ltac:(cbn; lia) Hok)
    as (keep & tail & m'' & Hrun & Hrest & Hlru & Hok' & Hwi & Hdir & Hmax & Hfl); [|done|].
  { intros [a e] [[= -> ->]|Hin]%elem_of_cons; [apply Hsz|]. by apply (entry_bounds m a e). }
  rewrite Hrun in Hev. injection Hev as <- <-. cbv zeta. cbn [app]. set (gone := me_path ∘ snd <$> reverse tail). set (m' := set_ma_next _ _).
  assert (∀ a e, (a, e) ∈ mz_lru m'' → (a, e) = (ma_next m, e0) ∨ (a, e) ∈ mz_lru (ma_mat m)) as Hfrom.
  { intros a e. rewrite Hlru, Hrest, elem_of_cons, elem_of_app. tauto. }
  assert (∀ q, q ∈ gone → ∃ a e, (a, e) ∈ tail ∧ q = dest m (me_key e)) as Hgone.
  { intros q ([a e] & -> & Hin)%list_elem_of_fmap. rewrite elem_of_reverse in Hin. exists a, e. split; [done|].
    apply (mo_files _ _ _ Hm a e). rewrite Hrest. apply elem_of_app. by right. }
  assert (∀ a e, (a, e) ∈ mz_lru m'' → on_disk K m' (me_key e) (me_size e)) as Hkeep.
  { intros a e Hin. apply (on_disk_same m); [done| |].
    - unfold m'. cbn [set_ma_next set_disk ma_disk set_mat]. rewrite remove_files_lookup, bool_decide_false; [done|].
      intros (b & f & Hf & E)%Hgone. rewrite Hlru in Hin. revert E.
      apply (kept_file m (pushed k (dest m k) sz m) ((ma_next m, e0) :: keep) tail a e b f); [done|by cbn; rewrite Hrest|done..].
    - destruct (Hfrom a e Hin) as [[= -> ->]|Hold]; [done|]. by apply (mo_files _ _ _ Hm a e). }
  split_and!; [|done|done|..].
  - destruct Hm. split; try done.
    + by cbn; rewrite Hmax.
    + intros a e Hin. split; [|by apply (Hkeep a e)]. unfold dest. cbn. rewrite Hdir.
      destruct (Hfrom a e Hin) as [[= -> ->]|Hold]; [done|by apply (mo_files0 a e)].
    + intros a e Hin. cbn. destruct (Hfrom a e Hin) as [[= -> ->]|Hold]; [lia|]. specialize (mo_fresh0 a e Hold). lia.
    + intros c' call Hc'. specialize (mo_calls0 c' call Hc'). cbn. lia.
  - apply (Hkeep (ma_next m) e0). rewrite Hlru. apply list_elem_of_here.
  - intros q (a & e & Hin & ->)%Hgone. exists a, e. split; [|done]. rewrite Hrest. apply elem_of_app. by right.
Qed.

(** A call answered is not pending. *)
Lemma answered_pending m k c c' :
  mz_inflight (ma_mat m) !! k = Some c → answered K m k c → ¬ pending m k c'.
Proof. intros Hc (call & Hcall & Hd & _) (Hc' & call' & Hcall' & Hd'). congruence. Qed.

Lemma end_ok m ths t rec res :
  run_ok K N m ths → ths !! t = Some (LDone rec res) →
  run_ok K N (materialize_end (contentKey rec) res m)
    (<[t := match res with Ok (p, _) => LOpening rec p | Err e => LEnd (Some rec) (Err e) end]> ths).
Proof.
  intros Hrun Ht. pose proof (ro_machine _ _ _ _ Hrun) as Hm. pose proof (ro_led _ _ _ _ Hrun) as Hl.
  destruct (ro_threads _ _ _ _ Hrun _ _ Ht) as [(c & Hc & Hans) Hres].
  assert (∀ k c', Some (contentKey rec) = Some k → ¬ pending m k c') as Hnp.
  { intros k c' [= <-]. by eapply answered_pending. }
  unfold materialize_end. destruct res as [[p sz]|e].
  - destruct (Hres p sz eq_refl) as [Hp Hd]. cbv zeta.
    cbn [set_mz_inflight mz_cacheDir mz_maxBytes mz_byKey mz_lru mz_curBytes mz_inflight].
    fold (pushed (contentKey rec) p sz m). destruct (evictLocked _ _) as [gone mat'] eqn:Hev.
    destruct (evict_machine _ c p sz m gone mat' Hm Hc Hp Hd Hev) as (Hm' & Hdir & Hfl & (b & Hb & Hn & _) & Hgone).
    eapply (run_ok_step (Some (contentKey rec))); [done|exact Ht|by intros k [= <-]| |done| |].
    + apply (frame_remove _ m _ gone); try done. intros k c' Hk Hc'. cbn. rewrite Hfl, lookup_delete_ne by congruence.
      split; [done|]. intros (a & e & Hin & E%destPath_inj)%Hgone. by eapply (flight_not_cached m k c' a e).
    + split; [by unfold dest in *; cbn; rewrite Hdir|]. intros b' Hb'. congruence.
    + eapply (led_done m); [done|exact Ht|done|by intros k' <-|by intros k' []|done].
  - eapply (run_ok_step (Some (contentKey rec))); [done|exact Ht|by intros k [= <-]| | |done|].
    + apply (frame_remove _ m _ []); try done. intros k c' Hk Hc'. cbn. rewrite lookup_delete_ne by congruence.
      split; [done|apply not_elem_of_nil].
    + destruct Hm as [[A I S F] ? ? ? ? ? ?]. split; try done. split; try done.
      cbn. intros k c' [_ Hc']%lookup_delete_Some. by apply (F k c').
    + eapply (led_done m); [done|exact Ht|done|by intros k' <-|by intros k' []|done].
Qed.

Lemma remove_machine m el e :
  machine_ok K N m → (el, e) ∈ mz_lru (ma_mat m) →
  machine_ok K N (set_disk (delete (me_path e) (ma_disk m)) (set_mat (removeElementLocked el e (ma_mat m)) m)).
Proof.
  intros Hm Hin. pose proof (mo_cache _ _ _ Hm) as Hok. destruct (mo_files _ _ _ Hm el e Hin) as [Hpath _].
  pose proof (entry_bounds m el e Hm Hin) as Hsz. pose proof (mo_within _ _ _ Hm) as Hwi.
  destruct (cache_ok_remove el e _ Hok Hin) as [Hok' Hcur].
  { intros [a f] Hf. by apply (entry_bounds m a f). }
  { pose proof (cur_bound m Hm). lia. }
  set (m' := set_disk _ _).
  assert (∀ a f, (a, f) ∈ mz_lru (ma_mat m') → (a, f) ∈ mz_lru (ma_mat m) ∧ a ≠ el) as Hfrom.
  { intros a f. apply elem_list_remove. }
  destruct Hm. split; try done.
  - destruct Hwi as [Hle|Hone]; [left; change (mz_curBytes (removeElementLocked el e (ma_mat m)) <= mz_maxBytes (ma_mat m)); lia|right]. cbn. unfold list_remove.
    etrans; [apply length_filter|done].
  - intros a f [Hf Hne]%Hfrom. destruct (mo_files0 a f Hf) as [Hpf Hdf]. split; [done|].
    apply (on_disk_same m); [done| |done]. cbn. apply lookup_delete_ne. rewrite Hpath. intros E%destPath_inj.
    apply Hne. symmetry. by apply (keys_distinct (ma_mat m) el e a f).
  - intros a f [Hf _]%Hfrom. by apply (mo_fresh0 a f).
Qed.

Lemma Evict_ok m ths t p res m' :
  run_ok K N m ths → ths !! t = Some (LEvict p) → Evict p m = (res, m') → run_ok K N m' (<[t := LEvicted res]> ths).
Proof.
  intros Hrun Ht. pose proof (ro_machine _ _ _ _ Hrun) as Hm. unfold Evict.
  assert (∀ res', run_ok K N m (<[t := LEvicted res']> ths)) as Hquiet by (intros; by eapply run_ok_quiet).
  destruct (resolved p (ma_repo m)) as [rec|e]; [|by intros [= <- <-]].
  destruct (mz_byKey (ma_mat m) !! contentKey rec) as [el|] eqn:Hk; [|by intros [= <- <-]].
  destruct (indexed m _ el Hm Hk) as (i & e & -> & Hin & Hke). intros [= <- <-].
  destruct (mo_files _ _ _ Hm el e Hin) as [Hpath _].
  eapply (run_ok_step None); [done|exact Ht|done| |by apply remove_machine|done|by eapply led_same; eauto using ro_led].
  apply (frame_remove _ m _ [me_path e]); try done. intros k c Hne Hc. split; [done|].
  rewrite list_elem_of_singleton, Hpath. intros E%destPath_inj. by eapply (flight_not_cached m k c el e).
Qed.

(** Every step keeps the invariant. *)
Lemma advance_ok m ths t th o block th' m' :
  run_ok K N m ths → ths !! t = Some th → os_ok o m → (0 < block)%nat →
  advance o block th m = Some (th', m') → run_ok K N m' (<[t := th']> ths).
Proof.
  intros Hrun Ht Ho Hb. pose proof (ro_machine _ _ _ _ Hrun) as Hm. pose proof (ro_threads _ _ _ _ Hrun _ _ Ht) as Hth.
  destruct th as [p|rec|rec c|rec c res|rec res|rec c|rec p|rec res|p|res]; cbn [advance thread_ok] in *; try done.
  - intros [= <- <-]. destruct (lookupFile p (ma_repo m)) as [rec|e] eqn:Hl; eapply run_ok_quiet; try done.
    by apply (proj2 (mo_repo _ _ _ Hm) p).
  - intros [= Hbg]. by eapply begin_ok.
  - destruct (fetch _ _ _ _ _) as [res m2] eqn:Hf. intros [= <- <-]. by eapply fetch_ok.
  - intros [= <- <-]. by apply publish_ok.
  - intros [= <- <-]. by apply end_ok.
  - destruct (ma_calls m !! c) as [call|] eqn:Hcall; [|done]. destruct (if_done call) eqn:Hd; [|done].
    intros [= <- <-]. destruct Hth as [(_ & call' & Hcall' & Hd')|(call' & Hcall' & _ & He)]; [congruence|].
    assert (call' = call) as -> by congruence. destruct (if_err call); eapply run_ok_quiet; try done. by apply He.
  - intros [= <- <-]. eapply run_ok_quiet; try done. unfold openLocal. destruct (os_open o); [done|].
    destruct (ma_disk m !! p) as [b|] eqn:Hb'; [|done]. destruct Hth as [-> Hcl]. by apply Hcl.
  - destruct (Evict p m) as [res m2] eqn:He. intros [= <- <-]. by eapply Evict_ok.
Qed.

Lemma running_ok m ths : running K N m ths → run_ok K N m ths.
Proof.
  induction 1 as [dir max mat disk r Hnew Hmax Hr|m ths t th _ IH Ht Hth|m ths t th o block th' m' _ IH Ht Ho Hb Hadv|m ths r _ IH Hr Hmono].
  - unfold NewMaterializer in Hnew. destruct (Z.leb_spec max 0); [done|]. injection Hnew as <-.
    split; [|done|by split]. split; try done; [|by left; cbn; lia|by intros a e Hin%elem_of_nil..].
    split; try done; [apply NoDup_nil_2|]. intros k a. cbn. split; [done|]. by intros (e & Hin%elem_of_nil & _).
  - destruct IH as [Hm Hths Hl]. split; [done| |].
    + intros u x [[<- <-]|[_ Hu]]%lookup_insert_Some; [|by apply (Hths u)]. by destruct Hth as [p [->| ->]].
    + apply led_call; [done..|]. intros k Hk. by destruct Hth as [p [->| ->]].
  - by eapply advance_ok.
  - destruct IH as [Hm Hths Hl]. assert (frame K None m (set_ma_repo r m)) as F by (by apply frame_same).
    split; [by destruct Hm|intros u x Hu|by destruct Hl]. eapply thread_ok_frame; eauto. done.
Qed.
End steps.

Section progress.
Context {bucket : Type → Type} `{BoltOps bucket} {B : Type} `{BackendLaws B} {blake3 : Blake3}.
Context {callback handler : Type}.
Abbreviation machine := (machine bucket B callback handler).
Context (K : bytes → Prop) (N : nat).
Implicit Types m : machine.

Lemma leads_can_step m k th : leads k th → can_step m th.
Proof.
  destruct th; cbn [leads]; try done; intros _ o block; cbn [advance]; [|by eexists..].
  destruct (fetch _ _ _ _ _) as [res m']. by eexists.
Qed.

Lemma not_waiting m th : (rank th < 6)%nat → (∀ rec c, th ≠ LWaiting rec c) → can_step m th.
Proof.
  intros Hr Hw o block. destruct th; cbn [advance rank] in *; try lia; try by eexists.
  - destruct (fetch _ _ _ _ _) as [res m']. by eexists.
  - by edestruct Hw.
  - destruct (Evict path m) as [res m']. by eexists.
Qed.

Lemma advance_rank o block th m th' m' : advance o block th m = Some (th', m') → (rank th < rank th' <= 6)%nat.
Proof.
  destruct th as [p|rec|rec c|rec c res|rec res|rec c|rec p|rec res|p|res]; cbn [advance]; try done.
  - intros [= <- _]. destruct (lookupFile _ _); cbn; lia.
  - intros [= Hb]. revert Hb. unfold materialize_begin. destruct (mz_byKey _ !! _).
    + destruct (list_find _ _) as [[i [a e]]|]; intros [= <- _]; cbn; lia.
    + destruct (mz_inflight _ !! _); intros [= <- _]; cbn; lia.
  - destruct (fetch _ _ _ _ _) as [res m2]. intros [= <- _]. cbn. lia.
  - intros [= <- _]. cbn. lia.
  - intros [= <- _]. destruct res as [[q sz]|e]; cbn; lia.
  - destruct (ma_calls m !! c) as [call|]; [|done]. destruct (if_done call); [|done]. intros [= <- _].
    destruct (if_err call); cbn; lia.
  - intros [= <- _]. cbn. lia.
  - destruct (Evict p m) as [res m2]. intros [= <- _]. cbn. lia.
Qed.

Lemma fetch_fine o block rec ds m :
  os_fine o → (0 < block)%nat → readable (ma_repo m) rec ds →
  ∃ m', fetch o block (contentKey rec) rec m = (Ok (dest m (contentKey rec), i64 (Size rec)), m').
Proof.
  intros ([tmp Ht] & Hw & Hs & Hc & Hr & _) Hb Hds. unfold fetch. rewrite Ht. cbn [set_disk ma_repo].
  rewrite (fetchContent_ok block rec ds _ Hb Hds), Hw, Hs, Hc, Hr. by eexists.
Qed.

Lemma open_on_disk m rec ds o sz (r : Repo bucket B callback handler) :
  universe K → repo_inv K N r → readable r rec ds → os_fine o → on_disk K m (contentKey rec) sz →
  openLocal o (dest m (contentKey rec)) m = Ok (concat ds).
Proof.
  intros HK Hr Hds (_ & _ & _ & _ & _ & Ho) (b & Hb & Hn & _). unfold openLocal. rewrite Ho, Hb. f_equal.
  eapply key_names_inj; [done|exact Hn|by eapply readable_names].
Qed.

(** From the start of a fetch to the end of the call. *)
Lemma fetch_alone m ths t rec ds o block c :
  universe K → run_ok K N m ths → ths !! t = Some (LFetching rec c) → readable (ma_repo m) rec ds →
  os_ok o m → os_fine o → (0 < block)%nat →
  (run_alone 4 o block (LFetching rec c) m).1 = LEnd (Some rec) (Ok (concat ds)).
Proof.
  intros HK Hrun Ht Hds Ho Hfine Hb. pose proof (mo_repo _ _ _ (ro_machine _ _ _ _ Hrun)) as [Hr _].
  destruct (fetch_fine o block rec ds m Hfine Hb Hds) as [m2 Hf].
  pose proof (fetch_ok K N m ths t rec c o block _ m2 Hrun Ht Ho Hb Hf) as Hrun2.
  pose proof (publish_ok K N _ _ t rec c _ Hrun2 (lookup_insert_eq _ _ _)) as Hrun3.
  destruct (ro_threads _ _ _ _ Hrun3 t _ (lookup_insert_eq _ _ _)) as [(c' & Hc' & _) Hres].
  destruct (Hres _ _ eq_refl) as [Hp Hd]. set (m3 := publishCall c _ m2) in *.
  cbn [run_alone advance]. rewrite Hf. cbn [run_alone advance]. fold m3. unfold materialize_end.
  cbv zeta. cbn [set_mz_inflight mz_cacheDir mz_maxBytes mz_byKey mz_lru mz_curBytes mz_inflight].
  fold (pushed (contentKey rec) (dest m (contentKey rec)) (i64 (Size rec)) m3).
  destruct (evictLocked _ _) as [gone mat'] eqn:Hev.
  destruct (evict_machine K N _ c' _ _ m3 gone mat' (ro_machine _ _ _ _ Hrun3) Hc' Hp Hd Hev) as (_ & Hdir & _ & Hd' & _).
  cbn [run_alone advance fst]. do 2 f_equal. set (m4 := set_ma_next _ _) in *.
  assert (dest m (contentKey rec) = dest m4 (contentKey rec)) as ->.
  { rewrite Hp. unfold dest. cbn. by rewrite Hdir. }
  by eapply open_on_disk.
Qed.
End progress.

(** ** Properties *)

Section properties.
Context {bucket : Type → Type} `{BoltOps bucket} {B : Type} `{BackendLaws B} {blake3 : Blake3}.
Context {callback handler : Type}.
Abbreviation repo := (Repo bucket B callback handler).
Abbreviation machine := (machine bucket B callback handler).
Context (K : bytes → Prop) (N : nat).
Implicit Types m : machine.

(** C32: However calls of [OpenMapped] and [Evict] interleave, whatever the
    operating system fails and whoever changes the repository meanwhile, the
    file a call hands back holds exactly the content of the file it resolved:
    never a partial copy, never another file's bytes. *)
Theorem mapped_file_is_content m ths t rec b N' (r : repo) ds :
  universe K → running K N m ths → ths !! t = Some (LEnd (Some rec) (Ok b)) →
  repo_inv K N' r → readable r rec ds → b = concat ds.
Proof.
  intros HK Hrun Ht Hr Hds. apply running_ok in Hrun. pose proof (ro_threads _ _ _ _ Hrun _ _ Ht) as Hb.
  eapply key_names_inj; [done|exact Hb|by eapply readable_names].
Qed.

(** C33: The cache accounts for exactly the files it holds, stays within
    its budget unless a single file exceeds it, and every file it lists is on
    disk under its key with the content the key names. *)
Theorem cache_within_budget m ths :
  running K N m ths →
  Stats (ma_mat m) = (Z.of_nat (length (mz_lru (ma_mat m))), sum_of entry_size (mz_lru (ma_mat m))) ∧
  (mz_curBytes (ma_mat m) <= mz_maxBytes (ma_mat m) ∨ (length (mz_lru (ma_mat m)) <= 1)%nat) ∧
  ∀ a e, (a, e) ∈ mz_lru (ma_mat m) → mz_byKey (ma_mat m) !! me_key e = Some a ∧
    ∃ b, ma_disk m !! me_path e = Some b ∧ me_size e = blen b ∧ key_names K (me_key e) b.
Proof.
  intros Hrun%running_ok. pose proof (ro_machine _ _ _ _ Hrun) as Hm. pose proof (mo_cache _ _ _ Hm) as Hok.
  split_and!; [by unfold Stats; rewrite (co_bytes _ Hok)|by apply (mo_within _ _ _ Hm)|]. intros a e Hin.
  split; [apply (co_index _ Hok); by exists e|].
  destruct (mo_files _ _ _ Hm a e Hin) as (-> & b & Hb & Hn & Hs & _). by exists b.
Qed.

(** C34: A content is fetched by one call at a time; a call that has not
    ended can go on, or waits for the call fetching its content, which can; and
    every step brings a call nearer to its end, at most six steps away.  So
    every call ends. *)
Theorem calls_progress m ths t th :
  running K N m ths → ths !! t = Some th → (rank th < 6)%nat →
  (can_step m th ∨ ∃ rec c t' th', th = LWaiting rec c ∧ ths !! t' = Some th' ∧ leads (contentKey rec) th' ∧ can_step m th') ∧
  (∀ t' th' k, ths !! t' = Some th' → leads k th → leads k th' → t' = t) ∧
  (∀ o block th' m', advance o block th m = Some (th', m') → (rank th < rank th' <= 6)%nat).
Proof.
  intros Hrun%running_ok Ht Hrank. pose proof (ro_threads _ _ _ _ Hrun _ _ Ht) as Hth. split_and!.
  - destruct th as [| | | | |rec c| | | |]; try (left; by apply not_waiting). destruct Hth as [[Hc Hcall]|(call & Hcall & Hd & _)].
    + right. destruct (ld_some _ _ (ro_led _ _ _ _ Hrun) _ _ Hc) as (t' & th' & Ht' & Hl). exists rec, c, t', th'.
      split_and!; try done. apply (leads_can_step _ _ _ Hl).
    + left. intros o block. cbn. rewrite Hcall, Hd. by eexists.
  - intros t' th' k Ht' Hk Hk'. by eapply (ld_one _ _ (ro_led _ _ _ _ Hrun)).
  - intros o block th' m' Hadv. by eapply advance_rank.
Qed.

(** A call nobody disturbs returns the file's content: if the
    operating system does not fail and nobody else is fetching that content,
    [OpenMapped] gives it in at most six steps, even for a file larger than
    the whole budget. *)
Theorem open_alone m ths t path rec ds o block :
  universe K → running K N m ths → ths !! t = Some (LStart path) →
  lookupFile path (ma_repo m) = Ok rec → readable (ma_repo m) rec ds →
  mz_inflight (ma_mat m) !! contentKey rec = None → os_ok o m → os_fine o → (0 < block)%nat →
  (run_alone 6 o block (LStart path) m).1 = LEnd (Some rec) (Ok (concat ds)).
Proof.
  intros HK Hrun%running_ok Ht Hl Hds Hf Ho Hfine Hb.
  assert (run_ok K N m (<[t := LResolved rec]> ths)) as Hrun1.
  { apply (advance_ok K N m ths t (LStart path) o block); [done..|]. cbn. by rewrite Hl. }
  pose proof (ro_machine _ _ _ _ Hrun1) as Hm. pose proof (proj1 (mo_repo _ _ _ Hm)) as Hr.
  cbn [run_alone advance]. rewrite Hl. cbn [run_alone advance]. unfold materialize_begin.
  destruct (mz_byKey (ma_mat m) !! contentKey rec) as [el|] eqn:Hk.
  - destruct (indexed K N m _ el Hm Hk) as (i & e & -> & Hin & Hke).
    destruct (mo_files _ _ _ Hm el e Hin) as [-> Hd]. rewrite Hke in *. cbn [run_alone advance fst]. do 2 f_equal.
    set (m2 := set_mat _ _). by apply (open_on_disk K N m2 rec ds o (me_size e) (ma_repo m)).
  - rewrite Hf. eapply fetch_alone; try done; [|by rewrite lookup_insert_eq].
    eapply begin_lead; try done; [by rewrite lookup_insert_eq|].
    exact (ro_threads _ _ _ _ Hrun1 t _ (lookup_insert_eq _ _ _)).
Qed.
End properties.
