(* ===== verification/LibatlasDemo.v ===== *)
(** A cache of materialised files to run the theorems on.

    Over the repository of RepoDemo, with its files "a" of six bytes and "b"
    of three, a cache of eight bytes: one call opens "a" and another "b", in a
    few interleavings.  One of them shows that a call may lose its file to
    eviction between its two halves. *)
From S2P Require Import Prelude Bolt Chunk Manifest Store Pack MetaDB MetaSpec MetaRefine MetaTree.
From S2P Require Import MetaInv MetaThm Coherence RepoUtil Repo RepoRead RepoStore RepoThm RepoCoh RepoReach GC GCThm RepoDemo.
From S2P Require Import Libatlas LibatlasThm.

Local Existing Instance pad_hash.

Abbreviation lib_machine := (machine MapBolt.mapb MemBackend.mem unit unit).

(** An operating system that does not fail; its temporary file has the name [x]. *)
Definition os_at (dir x : bytes) : osRun :=
  mkOsRun (Ok (destPath dir (str ".materialize-" ++ x))) None None None None None.

Definition lib_dir : bytes := str "/cache".
Definition lib_new : Materializer :=
  match NewMaterializer lib_dir 8 None with Ok m => m | Err _ => mkMaterializer [] 0 ∅ [] 0 ∅ end.
Definition lib_boot : lib_machine := mkMachine lib_new ∅ ∅ 0 demo_ab.
Definition lib_calls : gmap nat thread :=
  <[2%nat := LStart (str "a")]> (<[1%nat := LStart (str "b")]> (<[0%nat := LStart (str "a")]> ∅)).

(** A schedule: which call goes on next.  Temporary files are named apart by
    what is left of the schedule. *)
Fixpoint sched (l : list nat) (m : lib_machine) (ths : gmap nat thread) : option (lib_machine * gmap nat thread) :=
  match l with
  | [] => Some (m, ths)
  | t :: l =>
      let o := os_at (mz_cacheDir (ma_mat m)) (be 4 (Z.of_nat (length l))) in
      match os_temp o, ths !! t with
      | Ok tmp, Some th =>
          match ma_disk m !! tmp, advance o 4 th m with
          | None, Some (th', m') => sched l m' (<[t := th']> ths)
          | _, _ => None
          end
      | _, _ => None
      end
  end.
Definition run_of (l : list nat) : lib_machine * gmap nat thread := default (lib_boot, lib_calls) (sched l lib_boot lib_calls).

(** "a" opened and ended. *)
Definition lib_opened : lib_machine * gmap nat thread := run_of (replicate 6 0%nat).
(** Two calls open "a" at once: the second waits for the first. *)
Definition lib_waiting : lib_machine * gmap nat thread := run_of [0; 0; 2; 2]%nat.
(** The first call has "a" in the cache, then the second opens "b". *)
Definition lib_lost : lib_machine * gmap nat thread := run_of (replicate 5 0%nat ++ replicate 6 1%nat ++ [0%nat]).

Definition rec_b : InodeRecord := demo_inode id_b demo_ab.

(** Every inode is a directory, "a" or "b". *)
Definition inodes_check (r : demo_repo) : bool :=
  forallb (λ kv, IsDir kv.2 || bool_decide (kv.2 = rec_a) || bool_decide (kv.2 = rec_b)) (bk_cursor (bInode (r_DB r))).
Definition small_check (d : bytes) (rec : InodeRecord) (r : demo_repo) : bool :=
  (Size rec =? blen d) && (Size rec <? 2 ^ 63) && HasInline rec && bool_decide (InlineChunk rec = Sum d) && chunk_check r d.

(** How the call [t] ended. *)
Definition ended_check (t : nat) (rec : InodeRecord) (res : result bytes) (ths : gmap nat thread) : bool :=
  match ths !! t with
  | Some (LEnd (Some rec') res') =>
      bool_decide (rec' = rec) && match res', res with
                                  | Ok b', Ok b => bool_decide (b' = b)
                                  | Err e', Err e => bool_decide (e' = e)
                                  | _, _ => false
                                  end
  | _ => false
  end.
Definition entries_check (l : list (bytes * Z)) (m : lib_machine) : bool :=
  bool_decide ((λ x, (me_key x.2, me_size x.2)) <$> mz_lru (ma_mat m) = l).
Definition start_check (path : bytes) (rec : InodeRecord) (r : demo_repo) : bool :=
  match lookupFile path r with Ok rec' => bool_decide (rec' = rec) | Err _ => false end.

Definition waiting_check (t : nat) (rec : InodeRecord) (c : nat) (ths : gmap nat thread) : bool :=
  match ths !! t with
  | Some (LWaiting rec' c') => bool_decide (rec' = rec) && (c' =? c)%nat
  | _ => false
  end.

(** * Soundness of the checks *)

Lemma resolve_from (db : DB MapBolt.mapb) (path : list bytes) (cur : InodeID * InodeRecord) (i : InodeID) (rec : InodeRecord) :
  getInodeTx cur.1 db = Ok cur.2 → (fold_m resolveStep cur path db).1 = Ok (i, rec) → getInodeTx i db = Ok rec.
Proof.
  revert cur. induction path as [|n path IH]; intros cur Hc; cbn; [intros [= E]; by rewrite E in Hc|].
  unfold resolveStep, mbind, M_bind, mret, M_ret. case_bool_decide; [by apply IH|].
  unfold Lookup, GetInode, View. destruct (lookupTx cur.1 n db) as [j|e]; [|done].
  destruct (getInodeTx j db) as [rec'|e] eqn:Hj; [|done]. by apply (IH (j, rec')).
Qed.

Lemma lookupFile_record (path : bytes) (r : demo_repo) (rec : InodeRecord) :
  lookupFile path r = Ok rec → IsDir rec = false ∧ ∃ i, getInodeTx i (r_DB r) = Ok rec.
Proof.
  unfold lookupFile, resolved, repo_Resolve, onDB, zoom, Resolve, mbind, M_bind, GetInode, View.
  destruct (getInodeTx RootInode (r_DB r)) as [root|e] eqn:Hroot; [|done].
  destruct (fold_m _ _ _ _) as [[[i rec']|e] db] eqn:Hf; [|done]. cbn [fst].
  destruct (IsDir rec') eqn:Hd; [done|]. destruct (IsSymlink rec'); [done|]. intros [= <-]. split; [done|]. exists i.
  apply (resolve_from _ (splitPath path) (RootInode, root)); [done|]. by rewrite Hf.
Qed.

Lemma small_check_sound (d : bytes) (rec : InodeRecord) (r : demo_repo) : small_check d rec r = true → readable r rec [d].
Proof.
  unfold small_check. rewrite !andb_true_iff, Z.eqb_eq, Z.ltb_lt, bool_decide_eq_true. intros ((((Hs & Hm) & Hi) & Hd) & Hc%chunk_check_sound).
  split_and!; [cbn; by rewrite app_nil_r|done|by constructor|]. rewrite Hi. by exists d.
Qed.

Lemma rec_b_readable : readable demo_ab rec_b [content_b].
Proof. apply small_check_sound. vm_cast_no_check (eq_refl true). Qed.

Lemma rec_a_readable : readable demo_ab rec_a [str "abcd"; str "ef"].
Proof. apply demo_readable; [vm_cast_no_check (eq_refl true)|by vm_compute]. Qed.

Lemma lib_repo_ok : repo_ok demo_K 6 demo_ab.
Proof.
  split; [apply (repo_check_sound demo_strings); vm_cast_no_check (eq_refl true)|].
  intros path rec [Hd [i Hi]]%lookupFile_record.
  assert (inodes_check demo_ab = true) as Hc by (vm_cast_no_check (eq_refl true)).
  unfold inodes_check in Hc. rewrite forallb_forall in Hc. unfold getInodeTx in Hi.
  destruct (bk_get (inodeKey i) (bInode (r_DB demo_ab))) as [x|] eqn:Hg; [|done]. injection Hi as ->.
  apply bk_cursor_get, list_elem_of_In, Hc in Hg. cbn [snd] in Hg. rewrite Hd in Hg. cbn [orb] in Hg.
  apply orb_true_iff in Hg as [->%bool_decide_eq_true| ->%bool_decide_eq_true].
  - exists [str "abcd"; str "ef"]. split; [exact rec_a_readable|by vm_compute].
  - exists [content_b]. split; [exact rec_b_readable|by vm_compute].
Qed.

Lemma sched_running l m ths m' ths' :
  running demo_K 6 m ths → sched l m ths = Some (m', ths') → running demo_K 6 m' ths'.
Proof.
  revert m ths. induction l as [|t l IH]; intros m ths Hrun; cbn [sched]; [by intros [= <- <-]|].
  set (o := os_at _ _). cbn [os_temp o os_at]. destruct (ths !! t) as [th|] eqn:Ht; [|done].
  destruct (ma_disk m !! _) eqn:Hd; [done|]. destruct (advance o 4 th m) as [[th' m2]|] eqn:Ha; [|done].
  apply IH. apply (run_step _ _ m ths t th o 4 th' m2); [exact Hrun|exact Ht| |lia|exact Ha]. intros tmp [= <-]. split; [done|]. by eexists.
Qed.

Lemma boot_running : running demo_K 6 lib_boot lib_calls.
Proof.
  do 3 (apply run_call; [|by vm_compute|eexists; by left]).
  apply (run_new _ _ lib_dir 8); [done|lia|exact lib_repo_ok].
Qed.

(** A schedule that runs reaches a state of the machine. *)
Lemma run_of_running (l : list nat) : bool_decide (is_Some (sched l lib_boot lib_calls)) = true → running demo_K 6 (run_of l).1 (run_of l).2.
Proof.
  rewrite bool_decide_eq_true. unfold run_of. intros [[m ths] E]. rewrite E. by apply (sched_running l _ _ _ _ boot_running).
Qed.

Lemma ended_check_sound (t : nat) (rec : InodeRecord) (res : result bytes) (ths : gmap nat thread) : ended_check t rec res ths = true → ths !! t = Some (LEnd (Some rec) res).
Proof.
  unfold ended_check. destruct (ths !! t) as [[| | | | | | |[rec'|] res'| |]|]; try done.
  rewrite andb_true_iff, bool_decide_eq_true. intros [-> E].
  destruct res', res; try done; by apply bool_decide_eq_true in E as ->.
Qed.

Lemma waiting_check_sound (t : nat) (rec : InodeRecord) (c : nat) (ths : gmap nat thread) :
  waiting_check t rec c ths = true → ths !! t = Some (LWaiting rec c).
Proof.
  unfold waiting_check. destruct (ths !! t) as [[| | | | |rec' c'| | | |]|]; try done.
  rewrite andb_true_iff, bool_decide_eq_true, Nat.eqb_eq. by intros [-> ->].
Qed.

Lemma start_check_sound (path : bytes) (rec : InodeRecord) (r : demo_repo) : start_check path rec r = true → lookupFile path r = Ok rec.
Proof. unfold start_check. destruct (lookupFile path r) as [rec'|e]; [|done]. by intros ->%bool_decide_eq_true. Qed.

(** * A file lost *)

(** A call may find its file gone: here "a" is fetched and entered in
    the cache, and before the call opens it another call's file takes its
    place.  Nothing failed, the file is there in the repository and its
    content was on disk, and yet [OpenMapped] returns "no such file". *)
Theorem evicted_before_open :
  running demo_K 6 lib_lost.1 lib_lost.2 ∧ lookupFile (str "a") (ma_repo lib_lost.1) = Ok rec_a ∧
  lib_lost.2 !! 0%nat = Some (LEnd (Some rec_a) (Err (SysErrno 2))) ∧
  lib_lost.2 !! 1%nat = Some (LEnd (Some rec_b) (Ok content_b)).
Proof.
  split_and!; [apply run_of_running|apply start_check_sound|apply ended_check_sound..]; vm_cast_no_check (eq_refl true).
Qed.

(** * Witnesses *)

Lemma lib_opened_running : running demo_K 6 lib_opened.1 lib_opened.2.
Proof. apply run_of_running. vm_cast_no_check (eq_refl true). Qed.

Lemma lib_opened_ended : lib_opened.2 !! 0%nat = Some (LEnd (Some rec_a) (Ok content_a)).
Proof. apply ended_check_sound. vm_cast_no_check (eq_refl true). Qed.

Lemma mapped_file_is_content_witness :
  lib_opened.2 !! 0%nat = Some (LEnd (Some rec_a) (Ok content_a)) ∧ content_a = concat [str "abcd"; str "ef"].
Proof.
  split; [exact lib_opened_ended|].
  exact (mapped_file_is_content demo_K 6 _ _ 0 rec_a content_a 6 demo_ab _ demo_universe lib_opened_running
    lib_opened_ended (proj1 lib_repo_ok) rec_a_readable).
Defined.

Lemma cache_within_budget_witness :
  running demo_K 6 lib_opened.1 lib_opened.2 ∧
  (mz_curBytes (ma_mat lib_opened.1) <= mz_maxBytes (ma_mat lib_opened.1) ∨ (length (mz_lru (ma_mat lib_opened.1)) <= 1)%nat).
Proof.
  split; [exact lib_opened_running|].
  exact (proj1 (proj2 (cache_within_budget demo_K 6 _ _ lib_opened_running))).
Defined.

Lemma calls_progress_witness :
  ∃ rec c t' th', LWaiting rec_a 0 = LWaiting rec c ∧ lib_waiting.2 !! t' = Some th' ∧ leads (contentKey rec) th' ∧
    can_step lib_waiting.1 th'.
Proof.
  assert (running demo_K 6 lib_waiting.1 lib_waiting.2) as Hrun by (apply run_of_running; vm_cast_no_check (eq_refl true)).
  assert (lib_waiting.2 !! 2%nat = Some (LWaiting rec_a 0)) as Hw by (apply waiting_check_sound; vm_cast_no_check (eq_refl true)).
  destruct (calls_progress demo_K 6 _ _ 2 (LWaiting rec_a 0) Hrun Hw ltac:(cbn; lia)) as [[Hcan|Hlead] _]; [|exact Hlead].
  exfalso. destruct (Hcan (os_at [] []) 4%nat) as [x Hx].
  assert (match ma_calls lib_waiting.1 !! 0%nat with Some c => if_done c | None => true end = false) as Hd by (by vm_compute).
  cbn [advance] in Hx. destruct (ma_calls lib_waiting.1 !! 0%nat) as [call|]; [|discriminate Hx].
  rewrite Hd in Hx. discriminate Hx.
Defined.

Lemma open_alone_witness :
  (run_alone 6 (os_at lib_dir []) 4 (LStart (str "b")) lib_boot).1 = LEnd (Some rec_b) (Ok (concat [content_b])).
Proof.
  apply (open_alone demo_K 6 lib_boot lib_calls 1 (str "b") rec_b [content_b]).
  - exact demo_universe.
  - exact boot_running.
  - by vm_compute.
  - apply start_check_sound. vm_cast_no_check (eq_refl true).
  - exact rec_b_readable.
  - by vm_compute.
  - intros tmp [= <-]. split; [done|]. by eexists.
  - split; [by eexists|done].
  - lia.
Defined.
